(* ===== verification/_CoqProject ===== *)
-Q . S2P
Prelude.v
SortModel.v
SortLaws.v
SortInsertion.v
SortHeap.v
SortQuick.v
SortStable.v
SortFunc.v
SortSlices.v
SortMain.v
SortCost.v
ByteTrie.v
ByteReplacer.v
GoIO.v
ReaderUtil.v
Utf8.v
Zip.v
ZipLaws.v
ZipArchive.v
ZipMain.v
ZipFile.v
ZipFileMain.v
Bmff.v
BmffLaws.v
BmffTypes.v
BmffFail.v
BmffSeek.v
BmffBox.v
Heif.v
HeifLaws.v
HeifMain.v
DumpHeif.v
SingleFlight.v
SingleReader.v
Sem.v
Once.v
SyncGroup.v
Rollsum.v
WriterUtil.v
Strutil.v
JsonConfig.v
JsonObj.v
Lock.v
LockTable.v
Throttle.v
Filepath.v
Xdgdir.v
Wkfs.v
Gcs.v
SortGen.v
SyncDebug.v
Types.v
ErrorUtil.v
Glue.v
Cloud.v
OauthUtil.v
FuncTest.v
CloudLaunch.v
ServeOnCloud.v
