(* ===== verification/Prelude.v ===== *)
(** * A verification library for go4.org

    go4.org (src/) is a collection of independent Go packages. This library
    models the packages that hold logic of their own and proves what their
    callers rely on. The code is embedded shallowly: a Go function is a Rocq
    function of the same name that can be evaluated, or, where goroutines
    meet, a step of a transition system.

    ** Conventions

    - A call that may panic, and a loop that may not end, is an [option]:
      [None] is the panic or the lack of fuel, so a theorem that a result is
      [Some] shows that the code returns. [wp] (this file) is the triple of
      such a call and [wp_loop] the rule of its loops.
    - An [int] that the code keeps within bounds is a [Z]; where it may wrap
      the wrap-around is written out ([wrapU], [wrapS], [u64], [i64], ...).
      Bytes are [byte], with [b2z] and [z2b] to and from [Z].
    - Readers, streams and archives are in GoIO.v; files, the environment and
      packages that are not under src/ are parameters.
    - A machine for goroutines has a state with the shared memory and one
      program counter for each goroutine; a step is one critical section or
      one access outside of one, and what is proved holds of every reachable
      state, that is under every interleaving. [sumZ] (this file) counts
      references, units and holders.

    ** Parts

    - sort (src/sort/sort.go, search.go, zfuncversion.go, genzfunc.go). SortModel.v has the
      algorithms over an abstract [Interface] (Len, Less, Swap on a state);
      SortFunc.v the generated variants over a [lessSwap], SortSlices.v the
      slice types, Reverse and the searches. [SortLaws] is the interface that
      clients get: a strict weak order, and a Swap that exchanges two
      elements. SortInsertion.v, SortHeap.v, SortQuick.v and SortStable.v prove
      the algorithms against it, SortMain.v the results: Sort sorts, Stable
      sorts and keeps equal elements in order, each inner routine does its
      part, the variants agree, Search finds the smallest index. SortCost.v
      runs the same algorithms on a collection that counts its Swaps: O(n log n)
      for Sort, O(n log² n) for Stable. SortGen.v is the generator of the
      variants: on syntax trees, and on the lines of the printed text; it copies
      exactly the functions that its doc names.
    - bytereplacer (src/bytereplacer/bytereplacer.go). ByteTrie.v: the trie
      with its priorities; ByteReplacer.v: both algorithms, in place or in a
      grown buffer, against the left-to-right, first-pair-wins replacement.
    - readerutil (src/readerutil/*.go). ReaderUtil.v: MultiReaderAt reads the
      concatenation (parts may say io.EOF with their last bytes, which costs it
      what is behind), the buffering ReaderAt its source, the fake seeker
      delivers in order.
    - readerutil/singlereader and syncutil/singleflight. SingleFlight.v:
      Group.Do never runs two functions for a key at once, hands out results
      of overlapping executions and lets nobody wait forever. SingleReader.v
      runs the same group operations inside Open: handles share open files,
      each closed exactly once.
    - syncutil (sem.go, once.go, gate.go, group.go): Sem.v, Once.v and
      SyncGroup.v.
    - ziputil (src/ziputil/ziputil.go). Utf8.v; Zip.v: records, extra fields,
      directory end, ParseTOC and ZipTOCSize; ZipFile.v: OpenWithReader and
      the checking reader. ZipLaws.v shows that the parsers return on every
      input, ZipArchive.v defines an encoder and parses what it wrote, and
      ZipMain.v and ZipFileMain.v have the results: archives read back, enough
      of the footer is asked for, no byte is delivered with a wrong checksum.
    - media/heif, media/heif/bmff and media/heif/dumpheif (bmff.go,
      quicktime.go, heif.go, dumpheif.go). Bmff.v: the box reader and the
      parsers of all box types, on an input that ends with io.EOF or with a
      failing read. Boxes there have all of their bodies; BmffSeek.v (skipRest,
      by seeking and by reading) and BmffBox.v (boxes that share a reader, read
      and parsed in any order, between calls of ReadBox that may fail) show that
      the reader's boxes are those. Heif.v:
      the accessors of a File and the encoder; DumpHeif.v: the command.
      BmffLaws.v, BmffTypes.v, BmffFail.v, HeifLaws.v and HeifMain.v: parsing
      returns, gives well-typed boxes of the type registered for them and
      reports failing reads, accessors do not panic, what EncodeImage writes
      reads back, the command prints every box once.
    - jsonconfig (eval.go, jsonconfig.go). JsonConfig.v: expressions, included
      files and cycle detection; ReadFile comes to an end whatever the files
      contain and whatever files include each other, and panics for stated
      reasons only. JsonObj.v: typed access and Validate, against a specification
      that does not know the notes kept in the object.
    - lock (lock.go, lock_unix.go, lock_plan9.go, lock_windows.go). Lock.v: the
      system calls of processes that lock one path, any of which may fail. If every
      live process can be found, the portable lock excludes until a process
      ends, and after that, whoever ends or crashes, as long as what is removed
      as stale is the file that was read; the fcntl lock excludes the holders of
      one file. What ended processes, crashes and refused signals do to the
      first, and what the removal of the file does to the second, is shown by
      runs that end with two holders. LockTable.v: the
      table of one process, Lock and Close over any system.
    - net/throttle (throttle.go). Throttle.v: a connection with the goroutine
      that sends its chunks; it refines one whose Writes are atomic, delays
      every chunk by its transmission time, and Write, Read and Close return.
    - xdgdir (xdgdir.go): Filepath.v has the functions of path/filepath that
      the packages use; Xdgdir.v: the search paths, and Open opens the first
      file that is there.
    - wkfs and wkfs/gcs. Wkfs.v: the registry and the dispatch; Gcs.v: the file
      system of /gcs/ over a storage client with laws, and files that
      WriteFile wrote read back. OauthUtil.v (oauthutil): tokens cached in a
      file of wkfs.
    - cloud (gcsutil, gceutil, cloudlaunch) and go4test/cloudlaunch. Cloud.v:
      requests for parts of objects, images and instance groups; CloudLaunch.v:
      a launch as a program that logs its calls of the outside, which inserts
      at most one instance; ServeOnCloud.v: the test server, which finds its
      bucket in the user data that CloudLaunch.v writes.
    - syncutil/syncdebug: SyncDebug.v, the tracker of a RWMutex over the
      mutex, whose counters are what goroutines hold and wait for.
    - types, errorutil, fault, must, legal, ctxutil, osutil, reflectutil and
      testing/functest: Types.v, ErrorUtil.v, Glue.v and FuncTest.v.
    - rollsum, writerutil, strutil: Rollsum.v (the digest depends on the last
      64 bytes only), WriterUtil.v (both ends are kept), Strutil.v (splitting,
      numbers, the JSON heuristic, case folding, interning).

    ** Fuel

    Every loop has the fuel that its theorem shows to be enough: a bound on
    its index range ([span] for the sorts, the length of the input for the
    parsers and scanners, two more than the files for jsonconfig). The recursions
    of quickSort and symMerge have the length of their range.

    ** Limits

    Memory is unbounded: allocation does not fail, and reference counts and
    lengths do not exceed their types. Error texts are abbreviated to their
    formats or to constructors. A function given to singleflight does not
    panic; a registered function of jsonconfig comes to an end and does not call
    its parser. A RWMutex of syncdebug is unlocked by the goroutine that locked
    it. Pids are not used again. Unicode case folding
    ([unicode.SimpleFold]), DEFLATE and decoding of JSON are parameters. A
    conversion of a float64 that is out of range is left open, as in Go.

    What services, systems and clients promise is stated where it is used
    ([ClientLaws] in Gcs.v, the storage server of Cloud.v) and has an instance
    that keeps the promise. The loop of cloudlaunch that waits for an operation
    and its restart loop have as much fuel as the reader gives them:
    [opLoop_returns] says how much the first needs, the second never ends.
    Formatting by package fmt is left out where only a message depends on it.

    ** Not modelled

    Every package of the repository is modelled. Left out inside of them: log
    output, pools and caches that only save memory (sync.Pool), the logging
    goroutine of syncdebug, and package variables that tests replace. Packages
    from outside of src/ (go/parser and go/format for the generator, the storage
    and compute clients, the systems' file calls) are parameters.

    ** What could follow

    The number of Less calls of the sorts (Less does not return a state that
    could count), and the order of file operations between concurrent callers
    of wkfs/gcs. *)
From stdpp Require Export base tactics list gmap strings sorting.
From Stdlib Require Export ZArith Lia.
From Stdlib Require Export Strings.Byte.

#[global] Open Scope Z_scope.

(** ** Partial computations

    A Go call that may panic (or a loop that may not end) is a value of type
    [option A]: [None] is a panic or exhausted fuel, so a proof that the
    result is [Some _] is a proof of termination and of the absence of
    panics. [wp m Q] is the total-correctness triple of such a call. *)

Definition wp {A} (m : option A) (Q : A → Prop) : Prop :=
  match m with Some x => Q x | None => False end.

(** The body of a Go [for] loop either goes on with a new loop state or leaves
    the loop with a result. *)
Definition continue {St R} (st : St) : option (St + R) := Some (inl st).
Definition break {St R} (r : R) : option (St + R) := Some (inr r).

Fixpoint loop {St R} (fuel : nat) (body : St → option (St + R)) (st : St) : option R :=
  match fuel with
  | O => None
  | S fuel =>
      r ← body st;
      match r with
      | inl st' => loop fuel body st'
      | inr x => Some x
      end
  end.

Lemma wp_mono {A} (m : option A) (Q1 Q2 : A → Prop) :
  wp m Q1 → (∀ x, Q1 x → Q2 x) → wp m Q2.
Proof. destruct m; simpl; auto. Qed.

Lemma wp_bind {A B} (m : option A) (f : A → option B) Q :
  wp m (λ x, wp (f x) Q) → wp (m ≫= f) Q.
Proof. by destruct m. Qed.

Lemma wp_Some {A} (x : A) (Q : A → Prop) : Q x → wp (Some x) Q.
Proof. done. Qed.

Lemma wp_continue {St R} (st : St) (Q : St + R → Prop) : Q (inl st) → wp (continue st) Q.
Proof. done. Qed.

Lemma wp_break {St R} (r : R) (Q : St + R → Prop) : Q (inr r) → wp (break r) Q.
Proof. done. Qed.

Lemma wp_elim {A} (m : option A) Q : wp m Q → ∃ x, m = Some x ∧ Q x.
Proof. destruct m; naive_solver. Qed.

(** The rule for loops: an invariant, and a measure that every iteration
    decreases and that the fuel exceeds. *)
Lemma wp_loop {St R} (Inv : St → Prop) (measure : St → nat)
    (body : St → option (St + R)) (Q : R → Prop) fuel st :
  (∀ st, Inv st →
     wp (body st) (λ r, match r with
                        | inl st' => Inv st' ∧ (measure st' < measure st)%nat
                        | inr x => Q x end)) →
  Inv st → (measure st < fuel)%nat → wp (loop fuel body st) Q.
Proof.
  intros Hbody. revert st.
  induction fuel as [|fuel IH]; intros st HI Hf; [lia|]. simpl.
  apply wp_bind. eapply wp_mono; [by apply Hbody|].
  intros [st'|x]; [|done]. intros [HI' Hm]. apply IH; [done|lia].
Qed.

(** More fuel does not change a result. *)
Lemma loop_fuel_mono {St R} (body : St → option (St + R)) f1 f2 st r :
  loop f1 body st = Some r → (f1 ≤ f2)%nat → loop f2 body st = Some r.
Proof.
  revert f2 st. induction f1 as [|f1 IH]; intros [|f2] st H Hle; try done; [lia|].
  simpl in *. destruct (body st) as [[st'|x]|]; simpl in *; try done.
  apply IH; [done|lia].
Qed.

(** ** Machine integers

    A Go integer of width [w] is an integer with its wrap-around written out. *)

Definition wrapU (w x : Z) : Z := x mod 2 ^ w.
Definition wrapS (w x : Z) : Z := (x + 2 ^ (w - 1)) mod 2 ^ w - 2 ^ (w - 1).

Abbreviation u8 := (wrapU 8).
Abbreviation u16 := (wrapU 16).
Abbreviation u32 := (wrapU 32).
Abbreviation u64 := (wrapU 64).
Abbreviation i64 := (wrapS 64).

Lemma wrapU_small w x : 0 ≤ x < 2 ^ w → wrapU w x = x.
Proof. apply Z.mod_small. Qed.

Lemma wrapU_range w x : 0 ≤ w → 0 ≤ wrapU w x < 2 ^ w.
Proof. intros. apply Z.mod_pos_bound. lia. Qed.

Lemma wrapS_small w x : 0 < w → - 2 ^ (w - 1) ≤ x < 2 ^ (w - 1) → wrapS w x = x.
Proof.
  intros Hw Hx. unfold wrapS.
  replace (2 ^ w) with (2 * 2 ^ (w - 1)).
  - rewrite Z.mod_small; lia.
  - rewrite <-Z.pow_succ_r by lia. f_equal. lia.
Qed.

Lemma wrapS_range w x : 0 < w → - 2 ^ (w - 1) ≤ wrapS w x < 2 ^ (w - 1).
Proof.
  intros Hw. unfold wrapS.
  assert (2 ^ w = 2 * 2 ^ (w - 1)) as ->.
  { rewrite <-Z.pow_succ_r by lia. f_equal. lia. }
  assert (0 < 2 ^ (w - 1)) by (apply Z.pow_pos_nonneg; lia).
  pose proof (Z.mod_pos_bound (x + 2 ^ (w - 1)) (2 * 2 ^ (w - 1))). lia.
Qed.

(** ** Bytes *)

#[global] Instance byte_eq_dec : EqDecision byte := Byte.byte_eq_dec.
#[global] Instance byte_inhabited : Inhabited byte := populate x00.

Definition b2z (b : byte) : Z := Z.of_N (Byte.to_N b).
Definition z2b (z : Z) : byte := default x00 (Byte.of_N (Z.to_N (z mod 256))).

Lemma b2z_range b : 0 ≤ b2z b < 256.
Proof. unfold b2z. pose proof (Byte.to_N_bounded b). lia. Qed.

Lemma b2z_z2b z : b2z (z2b z) = z mod 256.
Proof.
  unfold b2z, z2b. pose proof (Z.mod_pos_bound z 256).
  destruct (Byte.of_N _) as [b|] eqn:E; simpl.
  - apply Byte.to_of_N in E. rewrite E. lia.
  - apply Byte.of_N_None_iff in E. lia.
Qed.

Lemma z2b_b2z b : z2b (b2z b) = b.
Proof.
  unfold z2b. pose proof (b2z_range b). rewrite Z.mod_small by done.
  unfold b2z. by rewrite N2Z.id, Byte.of_to_N.
Qed.

#[global] Instance b2z_inj : Inj (=) (=) b2z.
Proof. intros x y H. by rewrite <-(z2b_b2z x), <-(z2b_b2z y), H. Qed.

#[global] Instance byte_countable : Countable byte.
Proof. apply (inj_countable' b2z z2b), z2b_b2z. Defined.

(** ** Lists indexed by Go's [int] *)

(** [s[i]], [None] being the index-out-of-range panic. *)
Definition zidx {A} (l : list A) (i : Z) : option A :=
  if i <? 0 then None else l !! Z.to_nat i.

(** [s[i] = x] *)
Definition zset {A} (l : list A) (i : Z) (x : A) : option (list A) :=
  if (i <? 0) || (Z.of_nat (length l) <=? i) then None
  else Some (<[Z.to_nat i := x]> l).

Abbreviation zlen l := (Z.of_nat (length l)).

(** [s[a:b]] for a slice whose length is its capacity. *)
Definition zslice {A} (l : list A) (a b : Z) : option (list A) :=
  if (a <? 0) || (b <? a) || (zlen l <? b) then None
  else Some (take (Z.to_nat (b - a)) (drop (Z.to_nat a) l)).

Lemma zidx_Some {A} (l : list A) i : 0 ≤ i < zlen l → ∃ x, zidx l i = Some x ∧ l !! Z.to_nat i = Some x.
Proof.
  intros Hi. unfold zidx. destruct (Z.ltb_spec i 0); [lia|].
  destruct (lookup_lt_is_Some_2 l (Z.to_nat i)) as [x Hx]; [lia|]. eauto.
Qed.

Lemma zidx_None {A} (l : list A) i : i < 0 ∨ zlen l ≤ i → zidx l i = None.
Proof.
  intros Hi. unfold zidx. destruct (Z.ltb_spec i 0); [done|].
  apply lookup_ge_None_2. lia.
Qed.

Lemma zslice_Some {A} (l : list A) a b :
  0 ≤ a → a ≤ b → b ≤ zlen l →
  zslice l a b = Some (take (Z.to_nat (b - a)) (drop (Z.to_nat a) l)).
Proof.
  intros. unfold zslice.
  destruct (Z.ltb_spec a 0), (Z.ltb_spec b a), (Z.ltb_spec (zlen l) b); simpl; try lia; done.
Qed.

(** ** Sums over a list, one element of which is updated *)

Definition sumZ {A} (f : A → Z) (l : list A) : Z := foldr (λ x n, f x + n) 0 l.

Lemma sumZ_cons {A} (f : A → Z) x l : sumZ f (x :: l) = f x + sumZ f l.
Proof. done. Qed.

Lemma sumZ_app {A} (f : A → Z) l1 l2 : sumZ f (l1 ++ l2) = sumZ f l1 + sumZ f l2.
Proof. induction l1 as [|x l1 IH]; [done|]. rewrite <-app_comm_cons, !sumZ_cons. lia. Qed.

Lemma sumZ_insert {A} (f : A → Z) l i x y :
  l !! i = Some x → sumZ f (<[i:=y]> l) = sumZ f l - f x + f y.
Proof.
  revert i. induction l as [|z l IH]; intros [|i] H; try done.
  - injection H as ->. change (<[0%nat:=y]> (x :: l)) with (y :: l). rewrite !sumZ_cons. lia.
  - change (<[S i:=y]> (z :: l)) with (z :: <[i:=y]> l). rewrite !sumZ_cons, (IH i H). lia.
Qed.

Lemma sumZ_alter {A} (f : A → Z) g l i x : l !! i = Some x → sumZ f (alter g i l) = sumZ f l - f x + f (g x).
Proof.
  intros H. rewrite <-(sumZ_insert f l i x (g x) H). f_equal. apply list_eq. intros j.
  destruct (decide (i = j)) as [<-|Hne].
  - rewrite list_lookup_alter_eq, H, list_lookup_insert_eq; [done|]. by eapply lookup_lt_Some.
  - by rewrite list_lookup_alter_ne, list_lookup_insert_ne.
Qed.

Lemma sumZ_nonneg_lookup {A} (f : A → Z) l : (∀ i x, l !! i = Some x → 0 ≤ f x) → 0 ≤ sumZ f l.
Proof.
  induction l as [|z l IH]; intros Hf; [done|]. rewrite sumZ_cons. pose proof (Hf 0%nat z eq_refl).
  assert (0 ≤ sumZ f l) by (apply IH; intros i x Hx; by apply (Hf (S i))). lia.
Qed.

Lemma sumZ_le_lookup {A} (f : A → Z) l i x :
  (∀ i x, l !! i = Some x → 0 ≤ f x) → l !! i = Some x → f x ≤ sumZ f l.
Proof.
  revert i. induction l as [|z l IH]; intros [|i] Hf H; try done; rewrite sumZ_cons.
  - injection H as ->. assert (0 ≤ sumZ f l) by (apply sumZ_nonneg_lookup; intros j y Hy; by apply (Hf (S j))). lia.
  - pose proof (Hf 0%nat z eq_refl). assert (f x ≤ sumZ f l) by (apply (IH i); [intros j y Hy; by apply (Hf (S j))|done]). lia.
Qed.

Lemma sumZ_nonneg {A} (f : A → Z) l : (∀ x, 0 ≤ f x) → 0 ≤ sumZ f l.
Proof. intros Hf. by apply sumZ_nonneg_lookup. Qed.

Lemma sumZ_lookup {A} (f : A → Z) l i x : (∀ x, 0 ≤ f x) → l !! i = Some x → f x ≤ sumZ f l.
Proof. intros Hf. by apply sumZ_le_lookup. Qed.

Lemma sumZ_mono {A} (f g : A → Z) l : (∀ x, f x ≤ g x) → sumZ f l ≤ sumZ g l.
Proof. intros Hf. induction l as [|z l IH]; [done|]. rewrite !sumZ_cons. specialize (Hf z). lia. Qed.

Lemma sumZ_zero {A} (f : A → Z) l : (∀ i x, l !! i = Some x → f x = 0) → sumZ f l = 0.
Proof.
  induction l as [|z l IH]; intros H; [done|]. rewrite sumZ_cons, (H 0%nat z eq_refl), IH; [done|].
  intros i x Hx. by apply (H (S i)).
Qed.

(** The length of a filter as a sum. *)
Definition b2n (b : bool) : Z := if b then 1 else 0.

Lemma sumZ_b2n_lookup {A} (f : A → bool) l i x : l !! i = Some x → b2n (f x) ≤ sumZ (λ x, b2n (f x)) l.
Proof. intros H. apply (sumZ_lookup (λ x, b2n (f x)) l i x); [|done]. intros y. by destruct (f y). Qed.

Lemma sumZ_b2n_pos {A} (f : A → bool) l : 0 < sumZ (λ x, b2n (f x)) l → ∃ i x, l !! i = Some x ∧ f x = true.
Proof.
  induction l as [|z l IH]; [done|]. rewrite sumZ_cons. intros H. destruct (f z) eqn:E.
  - exists 0%nat, z. done.
  - cbn [b2n] in H. destruct IH as (i&x&?&?); [done|]. exists (S i), x. done.
Qed.

(** ** Tactics *)

Create HintDb go4.
#[export] Hint Resolve b2z_range : go4.

(** Case analysis on the integer tests of the code. *)
Ltac zcases :=
  repeat match goal with
  | |- context [?a <? ?b] => destruct (Z.ltb_spec a b)
  | |- context [?a <=? ?b] => destruct (Z.leb_spec a b)
  | |- context [?a =? ?b] => destruct (Z.eqb_spec a b)
  | H : context [?a <? ?b] |- _ => destruct (Z.ltb_spec a b)
  | H : context [?a <=? ?b] |- _ => destruct (Z.leb_spec a b)
  | H : context [?a =? ?b] |- _ => destruct (Z.eqb_spec a b)
  end.

(** [lia] with quotients and remainders by constants. *)
Ltac zlia := Z.to_euclidean_division_equations; lia.

(** One step of a total-correctness proof. *)
Ltac wp_pure :=
  lazymatch goal with
  | |- wp (Some _) _ => apply wp_Some
  | |- wp (mret _) _ => apply wp_Some
  | |- wp (continue _) _ => apply wp_continue
  | |- wp (break _) _ => apply wp_break
  | |- wp (_ ≫= _) _ => apply wp_bind
  | |- wp (mbind _ _) _ => apply wp_bind
  end.
