(* ===== verification/SortModel.v ===== *)
(** * sort: the algorithms of sort/sort.go and sort/search.go

    The algorithms touch the data only through the methods of [Interface], so
    they are defined over an arbitrary state type [S]: [Less] reads it, [Swap]
    updates it, and either may panic ([None]) on an index it does not like.
    A Go [for] loop is [loop] with the loop variables and the data as its
    state; the fuel of each loop is a bound on its iterations computed from
    the bounds of the loop, and the proofs show it is never exhausted. *)
From S2P Require Import Prelude.

Record Interface (S : Type) := MkInterface {
  Len : S → Z;
  Less : S → Z → Z → option bool;
  Swap : S → Z → Z → option S;
}.
Arguments Len {S} _ _.
Arguments Less {S} _ _ _ _.
Arguments Swap {S} _ _ _ _.

(** [/] on Go integers truncates toward zero. *)
Infix "/t" := Z.quot (at level 40, left associativity).

(** The number of iterations of a loop that counts up from [a] to [b] or down
    from [b] to [a], the last test included. *)
Definition span (a b : Z) : nat := Datatypes.S (Z.to_nat (b - a)).

Section algorithms.
Context {S : Type} (data : Interface S).

(** *** Insertion sort *)

(** [for j := i; j > a && data.Less(j, j-1); j--] *)
Definition insertOne (a i : Z) (s : S) : option S :=
  loop (span a i) (λ '(j, s),
    if a <? j then
      l ← data.(Less) s j (j - 1);
      if (l : bool) then
        s ← data.(Swap) s j (j - 1);
        continue (j - 1, s)
      else break s
    else break s) (i, s).

Definition insertionSort (s : S) (a b : Z) : option S :=
  loop (span a b) (λ '(i, s),
    if i <? b then
      s ← insertOne a i s;
      continue (i + 1, s)
    else break s) (a + 1, s).

(** *** Heap sort *)

Definition siftDown (s : S) (lo hi first : Z) : option S :=
  loop (span lo hi) (λ '(root, s),
    let child := 2 * root + 1 in
    if hi <=? child then break s else
    child ← (if child + 1 <? hi then
               l ← data.(Less) s (first + child) (first + child + 1);
               Some (if (l : bool) then child + 1 else child)
             else Some child);
    l ← data.(Less) s (first + root) (first + child);
    if negb l then break s else
    s ← data.(Swap) s (first + root) (first + child);
    continue (child, s)) (lo, s).

Definition heapSort (s : S) (a b : Z) : option S :=
  let first := a in
  let lo := 0 in
  let hi := b - a in
  s ← loop (span 0 (hi + 1)) (λ '(i, s),
    if 0 <=? i then
      s ← siftDown s i hi first;
      continue (i - 1, s)
    else break s) ((hi - 1) /t 2, s);
  loop (span 0 (hi + 1)) (λ '(i, s),
    if 0 <=? i then
      s ← data.(Swap) s first (first + i);
      s ← siftDown s lo i first;
      continue (i - 1, s)
    else break s) (hi - 1, s).

(** *** Quick sort *)

Definition medianOfThree (s : S) (m1 m0 m2 : Z) : option S :=
  l ← data.(Less) s m1 m0;
  s ← (if (l : bool) then data.(Swap) s m1 m0 else Some s);
  l ← data.(Less) s m2 m1;
  if (l : bool) then
    s ← data.(Swap) s m2 m1;
    l ← data.(Less) s m1 m0;
    if (l : bool) then data.(Swap) s m1 m0 else Some s
  else Some s.

Definition swapRange (s : S) (a b n : Z) : option S :=
  loop (span 0 n) (λ '(i, s),
    if i <? n then
      s ← data.(Swap) s (a + i) (b + i);
      continue (i + 1, s)
    else break s) (0, s).

(** [for ; i < n && p(i); i++] of a test that only reads the data. *)
Definition scanUp (p : Z → option bool) (i n : Z) : option Z :=
  loop (span i n) (λ i,
    if i <? n then
      t ← p i;
      if (t : bool) then continue (i + 1) else break i
    else break i) i.

(** [for ; n < i && p(i-1); i--] *)
Definition scanDown (p : Z → option bool) (n i : Z) : option Z :=
  loop (span n i) (λ i,
    if n <? i then
      t ← p (i - 1);
      if (t : bool) then continue (i - 1) else break i
    else break i) i.

(** The choice of the pivot, which ends up in [data[lo]]. *)
Definition choosePivot (s : S) (lo hi : Z) : option S :=
  let m := lo + (hi - lo) /t 2 in
  s ← (if 40 <? hi - lo then
         let e := (hi - lo) /t 8 in
         s ← medianOfThree s lo (lo + e) (lo + 2 * e);
         s ← medianOfThree s m (m - e) (m + e);
         medianOfThree s (hi - 1) (hi - 1 - e) (hi - 1 - 2 * e)
       else Some s);
  medianOfThree s lo m (hi - 1).

(** The main partitioning loop, from [b] and [c] to their final values. *)
Definition partitionLoop (pivot b c : Z) (s : S) : option (Z * Z * S) :=
  loop (span b c) (λ '(b, c, s),
    b ← scanUp (λ b, negb <$> data.(Less) s pivot b) b c;
    c ← scanDown (λ c1, data.(Less) s pivot c1) b c;
    if c <=? b then break (b, c, s) else
    s ← data.(Swap) s b (c - 1);
    continue (b + 1, c - 1, s)) (b, c, s).

(** The test of some points for equality to the pivot: the new [b], [c] and
    data, and whether a skewed distribution is assumed. *)
Definition testDups (lo hi m pivot b c : Z) (s : S) : option (Z * Z * S * bool) :=
  let dups := 0 in
  l ← data.(Less) s pivot (hi - 1);
  '(s, c, dups) ← (if negb l then
                     s ← data.(Swap) s c (hi - 1);
                     Some (s, c + 1, dups + 1)
                   else Some (s, c, dups));
  l ← data.(Less) s (b - 1) pivot;
  '(b, dups) ← (if negb l then Some (b - 1, dups + 1) else Some (b, dups));
  l ← data.(Less) s m pivot;
  '(s, b, dups) ← (if negb l then
                     s ← data.(Swap) s m (b - 1);
                     Some (s, b - 1, dups + 1)
                   else Some (s, b, dups));
  Some (b, c, s, 1 <? dups).

(** The loop that moves the elements equal to the pivot next to the middle. *)
Definition protectLoop (pivot a b : Z) (s : S) : option (Z * Z * S) :=
  loop (span a b) (λ '(a, b, s),
    b ← scanDown (λ b1, negb <$> data.(Less) s b1 pivot) a b;
    a ← scanUp (λ a, data.(Less) s a pivot) a b;
    if b <=? a then break (a, b, s) else
    s ← data.(Swap) s a (b - 1);
    continue (a + 1, b - 1, s)) (a, b, s).

(** [doPivot] returns [midlo], [midhi] and the new data. *)
Definition doPivot (s : S) (lo hi : Z) : option (Z * Z * S) :=
  let m := lo + (hi - lo) /t 2 in
  s ← choosePivot s lo hi;
  let pivot := lo in
  a ← scanUp (λ a, data.(Less) s a pivot) (lo + 1) (hi - 1);
  '(b, c, s) ← partitionLoop pivot a (hi - 1) s;
  let protect := hi - c <? 5 in
  '(b, c, s, protect) ←
    (if negb protect && (hi - c <? (hi - lo) /t 4)
     then testDups lo hi m pivot b c s
     else Some (b, c, s, protect));
  '(b, s) ← (if (protect : bool)
             then '(a, b, s) ← protectLoop pivot a b s; Some (b, s)
             else Some (b, s));
  s ← data.(Swap) s pivot (b - 1);
  Some (b - 1, c, s).

(** The pass with gap 6 that precedes the final insertion sort. *)
Definition gapPass (s : S) (a b : Z) : option S :=
  loop (span a b) (λ '(i, s),
    if i <? b then
      l ← data.(Less) s i (i - 6);
      s ← (if (l : bool) then data.(Swap) s i (i - 6) else Some s);
      continue (i + 1, s)
    else break s) (a + 6, s).

(** [quickSort] recurses on the smaller part and loops on the larger one;
    both are calls of the fixpoint here, whose fuel bounds [b - a]. *)
Fixpoint quickSortFuel (fuel : nat) (s : S) (a b maxDepth : Z) : option S :=
  match fuel with
  | O => None
  | Datatypes.S fuel =>
      if 12 <? b - a then
        if maxDepth =? 0 then heapSort s a b else
        let maxDepth := maxDepth - 1 in
        '(mlo, mhi, s) ← doPivot s a b;
        if mlo - a <? b - mhi then
          s ← quickSortFuel fuel s a mlo maxDepth;
          quickSortFuel fuel s mhi b maxDepth
        else
          s ← quickSortFuel fuel s mhi b maxDepth;
          quickSortFuel fuel s a mlo maxDepth
      else if 1 <? b - a then
        s ← gapPass s a b;
        insertionSort s a b
      else Some s
  end.

Definition quickSort (s : S) (a b maxDepth : Z) : option S :=
  quickSortFuel (span a b) s a b maxDepth.

(** *** Stable sort *)

(** The binary search [for i < j] shared in shape by [symMerge] and
    [Search]: [right h] says whether to go on to the right of [h]. *)
Definition bisect (right : Z → option bool) (i j : Z) : option Z :=
  loop (span i j) (λ '(i, j),
    if i <? j then
      let h := i + (j - i) /t 2 in
      t ← right h;
      if (t : bool) then continue (h + 1, j) else continue (i, h)
    else break i) (i, j).

Definition rotate (s : S) (a m b : Z) : option S :=
  '(i, s) ← loop (span a b) (λ '(i, j, s),
    if i =? j then break (i, s) else
    if j <? i then
      s ← swapRange s (m - i) m j;
      continue (i - j, j, s)
    else
      s ← swapRange s (m - i) (m + j - i) i;
      continue (i, j - i, s)) (m - a, b - m, s);
  swapRange s (m - i) m i.

(** [for k := a; k < i-1; k++ { data.Swap(k, k+1) }] *)
Definition shiftUp (s : S) (a n : Z) : option S :=
  loop (span a n) (λ '(k, s),
    if k <? n then
      s ← data.(Swap) s k (k + 1);
      continue (k + 1, s)
    else break s) (a, s).

(** [for k := m; k > i; k-- { data.Swap(k, k-1) }] *)
Definition shiftDown (s : S) (m i : Z) : option S :=
  loop (span i m) (λ '(k, s),
    if i <? k then
      s ← data.(Swap) s k (k - 1);
      continue (k - 1, s)
    else break s) (m, s).

Fixpoint symMergeFuel (fuel : nat) (s : S) (a m b : Z) : option S :=
  match fuel with
  | O => None
  | Datatypes.S fuel =>
      if m - a =? 1 then
        i ← bisect (λ h, data.(Less) s h a) m b;
        shiftUp s a (i - 1)
      else if b - m =? 1 then
        i ← bisect (λ h, negb <$> data.(Less) s m h) a m;
        shiftDown s m i
      else
        let mid := a + (b - a) /t 2 in
        let n := mid + m in
        let '(start, r) := if mid <? m then (n - b, mid) else (a, m) in
        let p := n - 1 in
        start ← bisect (λ c, negb <$> data.(Less) s (p - c) c) start r;
        let end_ := n - start in
        s ← (if (start <? m) && (m <? end_) then rotate s start m end_ else Some s);
        s ← (if (a <? start) && (start <? mid)
             then symMergeFuel fuel s a start mid else Some s);
        if (mid <? end_) && (end_ <? b)
        then symMergeFuel fuel s mid end_ b else Some s
  end.

Definition symMerge (s : S) (a m b : Z) : option S :=
  symMergeFuel (span a b) s a m b.

(** The first loop of [stable]: the sorted blocks. *)
Definition sortBlocks (s : S) (n blockSize : Z) : option S :=
  '(a, s) ← loop (span 0 n) (λ '(a, b, s),
    if b <=? n then
      s ← insertionSort s a b;
      continue (b, b + blockSize, s)
    else break (a, s)) (0, blockSize, s);
  insertionSort s a n.

(** One pass of [stable]: merge the neighbouring blocks of [blockSize]. *)
Definition mergePass (s : S) (n blockSize : Z) : option S :=
  '(a, s) ← loop (span 0 n) (λ '(a, b, s),
    if b <=? n then
      s ← symMerge s a (a + blockSize) b;
      continue (b, b + 2 * blockSize, s)
    else break (a, s)) (0, 2 * blockSize, s);
  let m := a + blockSize in
  if m <? n then symMerge s a m n else Some s.

Definition stable (s : S) (n : Z) : option S :=
  let blockSize := 20 in
  s ← sortBlocks s n blockSize;
  loop (span 0 n) (λ '(blockSize, s),
    if blockSize <? n then
      s ← mergePass s n blockSize;
      continue (blockSize * 2, s)
    else break s) (blockSize, s).

(** *** IsSorted *)

Definition IsSorted (s : S) : option bool :=
  let n := data.(Len) s in
  loop (span 0 n) (λ i,
    if 0 <? i then
      l ← data.(Less) s i (i - 1);
      if (l : bool) then break false else continue (i - 1)
    else break true) (n - 1).
End algorithms.

(** [maxDepth] returns 2*ceil(lg(n+1)). *)
Definition maxDepth (n : Z) : option Z :=
  depth ← loop (Datatypes.S (Z.to_nat (Z.log2 n + 1))) (λ '(i, depth),
    if 0 <? i then continue (Z.shiftr i 1, depth + 1) else break depth) (n, 0);
  Some (depth * 2).

(** *** The entry points *)

(** [lessSwap] and [funcs]: the functions given by [MakeInterface] are values,
    so that [Sort] and [Stable] can recognise them. *)
Record lessSwap (S : Type) := MkLessSwap {
  ls_Less : S → Z → Z → option bool;
  ls_Swap : S → Z → Z → option S;
}.
Arguments ls_Less {S} _ _ _ _.
Arguments ls_Swap {S} _ _ _ _.

Record funcs (S : Type) := MkFuncs {
  fs_length : Z;
  fs_lessSwap : lessSwap S;
}.
Arguments fs_length {S} _.
Arguments fs_lessSwap {S} _.

(** A value of the Go interface type: a [*funcs] or any other type. *)
Inductive value (S : Type) :=
| Funcs (fs : funcs S)
| Other (d : Interface S).
Arguments Funcs {S} _.
Arguments Other {S} _.

Definition MakeInterface {S} (length : Z) (swap : S → Z → Z → option S)
    (less : S → Z → Z → option bool) : value S :=
  Funcs {| fs_length := length; fs_lessSwap := {| ls_Less := less; ls_Swap := swap |} |}.

(** The methods of a value: those of [*funcs] use its fields. *)
Definition methods {S} (v : value S) : Interface S :=
  match v with
  | Funcs fs =>
      {| Len _ := fs_length fs;
         Less s i j := ls_Less (fs_lessSwap fs) s i j;
         Swap s i j := ls_Swap (fs_lessSwap fs) s i j |}
  | Other d => d
  end.

(** [Reverse] *)
Definition Reverse {S} (data : Interface S) : Interface S :=
  {| Len := data.(Len);
     Less s i j := data.(Less) s j i;
     Swap := data.(Swap) |}.

(** *** sort/search.go, on 64-bit integers *)

Definition Search (n : Z) (f : Z → option bool) : option Z :=
  loop (span 0 n) (λ '(i, j),
    if i <? j then
      let h := i64 (i + i64 (j - i) /t 2) in
      t ← f h;
      if negb t then continue (i64 (h + 1), j) else continue (i, h)
    else break i) (0, n).

Definition SearchInts (a : list Z) (x : Z) : option Z :=
  Search (zlen a) (λ i, v ← zidx a i; Some (x <=? v)).
