(* ===== verification/SortLaws.v ===== *)
(** * sort: what the algorithms ask of the data, and the shared lemmas

    [SortLaws] is the contract between the algorithms and a collection: there
    is a list of elements that [Less] compares with an ordering [lt] and in
    which [Swap] exchanges two positions. ([Len] is not part of it: a [*funcs]
    has a constant length, so the theorems ask for the length of the data that
    is sorted only.) [at_ s i] is the element at index
    [i]; a run of an algorithm is described by the relation [swaps a b s s']
    (the data was changed by swaps inside [a,b) only) and by [bubble] on the
    element lists (only strictly inverted elements changed their order). *)
From S2P Require Import Prelude.
From S2P Require Import SortModel.

(** Strict weak orderings, by the two laws the proofs use. *)
Class StrictWeakOrder {A} (lt : A → A → bool) : Prop := {
  swo_asym x y : lt x y = true → lt y x = false;
  swo_trans x y z : lt y x = false → lt z y = false → lt z x = false;
}.

(** [x ≤ y] and equivalence for a strict weak ordering. *)
Definition leq {A} (lt : A → A → bool) (x y : A) : Prop := lt y x = false.
Definition equivb {A} (lt : A → A → bool) (x y : A) : bool := negb (lt x y) && negb (lt y x).

Definition list_swap {A} (i j : nat) (l : list A) : list A :=
  match l !! i, l !! j with
  | Some x, Some y => <[i:=y]> (<[j:=x]> l)
  | _, _ => l
  end.

Class SortLaws {S A} (data : Interface S) (lt : A → A → bool) (elems : S → list A) : Prop := {
  less_law s i j x y : 0 ≤ i → 0 ≤ j →
    elems s !! Z.to_nat i = Some x → elems s !! Z.to_nat j = Some y →
    data.(Less) s i j = Some (lt x y);
  swap_law s i j : 0 ≤ i < zlen (elems s) → 0 ≤ j < zlen (elems s) →
    ∃ s', data.(Swap) s i j = Some s' ∧
          elems s' = list_swap (Z.to_nat i) (Z.to_nat j) (elems s);
}.

(** ** Lists and orderings *)

Section order.
Context {A} (lt : A → A → bool) `{!StrictWeakOrder lt}.

Lemma lt_irrefl x : lt x x = false.
Proof. destruct (lt x x) eqn:E; [|done]. by rewrite (swo_asym _ _ E) in E. Qed.

Lemma leq_refl x : leq lt x x.
Proof. apply lt_irrefl. Qed.

Lemma leq_trans x y z : leq lt x y → leq lt y z → leq lt x z.
Proof. unfold leq. intros. by eapply swo_trans. Qed.

Lemma lt_leq x y : lt x y = true → leq lt x y.
Proof. apply swo_asym. Qed.

Lemma lt_leq_trans x y z : lt x y = true → leq lt y z → lt x z = true.
Proof.
  unfold leq. intros H1 H2. destruct (lt x z) eqn:E; [done|].
  by rewrite (swo_trans _ _ _ H2 E) in H1.
Qed.

Lemma leq_lt_trans x y z : leq lt x y → lt y z = true → lt x z = true.
Proof.
  unfold leq. intros H1 H2. destruct (lt x z) eqn:E; [done|].
  by rewrite (swo_trans _ _ _ E H1) in H2.
Qed.

Lemma leq_total x y : leq lt x y ∨ leq lt y x.
Proof. unfold leq. destruct (lt y x) eqn:E; [right; by apply swo_asym|by left]. Qed.

(** *** Stable rearrangement *)

(** [bubble l l']: [l'] comes from [l] by exchanging neighbours that are
    strictly out of order. *)
Inductive bubble : list A → list A → Prop :=
| bubble_refl l : bubble l l
| bubble_step l1 x y l2 l' :
    lt y x = true → bubble (l1 ++ y :: x :: l2) l' → bubble (l1 ++ x :: y :: l2) l'.

Lemma bubble_trans l1 l2 l3 : bubble l1 l2 → bubble l2 l3 → bubble l1 l3.
Proof. induction 1; eauto using bubble. Qed.

Lemma bubble_app p q l l' : bubble l l' → bubble (p ++ l ++ q) (p ++ l' ++ q).
Proof.
  induction 1 as [|l1 x y l2 l' Hlt _ IH]; [constructor|].
  rewrite <-app_assoc in *. simpl in *. rewrite !app_assoc in *.
  apply bubble_step; [done|]. rewrite <-!app_assoc in *. by simpl in *.
Qed.

Lemma bubble_perm l l' : bubble l l' → l ≡ₚ l'.
Proof. induction 1 as [|l1 x y l2 l' _ _ IH]; [done|]. rewrite <-IH. solve_Permutation. Qed.

Lemma bubble_one x v : (∀ y, y ∈ v → lt y x = true) → bubble (x :: v) (v ++ [x]).
Proof.
  induction v as [|y v IH]; intros H; [constructor|].
  apply (bubble_step [] x y v); [apply H; set_solver|]. simpl.
  apply (bubble_app [y] []) in IH; [|set_solver].
  by rewrite !app_nil_r in IH.
Qed.

(** Two neighbouring blocks, the second strictly below the first. *)
Lemma bubble_blocks u v :
  (∀ x y, x ∈ u → y ∈ v → lt y x = true) → bubble (u ++ v) (v ++ u).
Proof.
  induction u as [|x u IH]; intros H; [rewrite app_nil_r; constructor|].
  eapply bubble_trans.
  - pose proof (bubble_app [x] [] (u ++ v) (v ++ u)) as Hb.
    rewrite !app_nil_r in Hb. apply Hb, IH. set_solver.
  - pose proof (bubble_app [] u (x :: v) (v ++ [x])) as Hb. simpl in Hb.
    rewrite <-app_assoc in Hb. apply Hb, bubble_one. set_solver.
Qed.

(** A stable rearrangement keeps the order of equivalent elements. *)
Lemma bubble_filter z l l' :
  bubble l l' → filter (λ x, equivb lt z x = true) l' = filter (λ x, equivb lt z x = true) l.
Proof.
  induction 1 as [|l1 x y l2 l' Hlt _ IH]; [done|]. rewrite IH.
  rewrite !filter_app. f_equal. rewrite !filter_cons. unfold equivb.
  repeat case_decide; try done. exfalso.
  rewrite !andb_true_iff, !negb_true_iff in *. destruct_and!.
  by rewrite (swo_trans x z y) in Hlt.
Qed.
End order.

Section list_swap.
Context {A : Type}.
Implicit Types l : list A.

Lemma length_list_swap i j l : length (list_swap i j l) = length l.
Proof. unfold list_swap. repeat case_match; rewrite ?length_insert; done. Qed.

Lemma list_swap_lookup i j k l :
  (i < length l)%nat → (j < length l)%nat →
  list_swap i j l !! k = l !! (if decide (k = i) then j else if decide (k = j) then i else k).
Proof.
  intros [x Hx]%lookup_lt_is_Some [y Hy]%lookup_lt_is_Some.
  pose proof (lookup_lt_Some _ _ _ Hx). pose proof (lookup_lt_Some _ _ _ Hy).
  unfold list_swap. rewrite Hx, Hy. repeat case_decide; subst.
  - by rewrite list_lookup_insert_eq by (by rewrite length_insert).
  - rewrite list_lookup_insert_ne by done. by rewrite list_lookup_insert_eq.
  - by rewrite !list_lookup_insert_ne by done.
Qed.

Lemma list_swap_perm i j l : list_swap i j l ≡ₚ l.
Proof.
  unfold list_swap. destruct (l !! i) as [x|] eqn:Hx, (l !! j) as [y|] eqn:Hy; try done.
  by apply Permutation_insert_swap.
Qed.

Lemma list_swap_comm i j l : list_swap i j l = list_swap j i l.
Proof.
  unfold list_swap. destruct (l !! i) as [x|] eqn:Hi, (l !! j) as [y|] eqn:Hj; try done.
  destruct (decide (i = j)) as [->|]; [by simplify_eq|]. by rewrite list_insert_insert_ne.
Qed.

Lemma list_swap_adjacent i l l1 x y l2 :
  l = l1 ++ x :: y :: l2 → length l1 = i → list_swap (Datatypes.S i) i l = l1 ++ y :: x :: l2.
Proof.
  intros -> <-. unfold list_swap.
  assert ((l1 ++ x :: y :: l2) !! length l1 = Some x) as -> by by apply list_lookup_middle.
  assert ((l1 ++ x :: y :: l2) !! Datatypes.S (length l1) = Some y) as ->.
  { rewrite lookup_app_r by lia. by rewrite Nat.sub_succ_l, Nat.sub_diag by lia. }
  rewrite insert_app_r_alt, Nat.sub_diag by lia. simpl.
  rewrite insert_app_r_alt, Nat.sub_succ_l, Nat.sub_diag by lia. done.
Qed.
End list_swap.

Section sorted_lists.
Context {A} (R : A → A → Prop).

Lemma StronglySorted_lookup l :
  (∀ i j x y, (i < j)%nat → l !! i = Some x → l !! j = Some y → R x y) → StronglySorted R l.
Proof.
  induction l as [|x l IH]; intros H; [constructor|]. apply StronglySorted_cons. split.
  - apply Forall_lookup. intros j y Hy. apply (H 0%nat (Datatypes.S j)); [lia|done|done].
  - apply IH. intros i j y z Hij Hy Hz.
    by apply (H (Datatypes.S i) (Datatypes.S j) y z); [lia|..].
Qed.

Lemma StronglySorted_lookup_lt l i j x y :
  StronglySorted R l → (i < j)%nat → l !! i = Some x → l !! j = Some y → R x y.
Proof.
  intros H. revert i j. induction H as [|z l Hs IH Hz]; intros i j Hij Hx Hy; [done|].
  destruct j as [|j]; [lia|]. destruct i as [|i]; simpl in *.
  - simplify_eq. by apply (Forall_lookup_1 _ _ _ _ Hz Hy).
  - eapply (IH i j); [lia|done..].
Qed.
End sorted_lists.

(** ** Views of the data, and the relation of a run's two ends *)

Section view.
Context {S A} `{!Inhabited A} (data : Interface S) (lt : A → A → bool) (elems : S → list A).
Context `{!SortLaws data lt elems} `{!StrictWeakOrder lt}.

Definition sz (s : S) : Z := zlen (elems s).

Definition at_ (s : S) (i : Z) : A :=
  if i <? 0 then inhabitant else elems s !!! Z.to_nat i.

(** [data[a:b]] is sorted. *)
Definition sortedR (s : S) (a b : Z) : Prop :=
  ∀ i j, a ≤ i → i ≤ j → j < b → leq lt (at_ s i) (at_ s j).

Definition tr (i j k : Z) : Z := if k =? i then j else if k =? j then i else k.

(** The effect of one [Swap]. *)
Definition swapped (i j : Z) (s s' : S) : Prop :=
  elems s' = list_swap (Z.to_nat i) (Z.to_nat j) (elems s).

Lemma swapped_sz i j s s' : swapped i j s s' → sz s' = sz s.
Proof. unfold swapped, sz. intros ->. by rewrite length_list_swap. Qed.

Lemma at_lookup s i : 0 ≤ i < sz s → elems s !! Z.to_nat i = Some (at_ s i).
Proof.
  unfold sz, at_. intros. destruct (Z.ltb_spec i 0); [lia|].
  apply list_lookup_lookup_total_lt. lia.
Qed.

Lemma at_swapped i j s s' k :
  swapped i j s s' → 0 ≤ i < sz s → 0 ≤ j < sz s → at_ s' k = at_ s (tr i j k).
Proof.
  unfold swapped, at_, tr, sz. intros -> Hi Hj.
  destruct (Z.ltb_spec k 0); zcases; try lia; try done;
    rewrite !list_lookup_total_alt, list_swap_lookup by lia;
    repeat case_decide; try lia; done.
Qed.

Lemma less_at s i j :
  0 ≤ i < sz s → 0 ≤ j < sz s → data.(Less) s i j = Some (lt (at_ s i) (at_ s j)).
Proof. intros. apply less_law; [lia|lia|by apply at_lookup..]. Qed.

Lemma wp_less s i j Q :
  0 ≤ i < sz s → 0 ≤ j < sz s → Q (lt (at_ s i) (at_ s j)) → wp (data.(Less) s i j) Q.
Proof.
  intros Hi Hj HQ. erewrite less_law; [exact HQ|lia|lia|by apply at_lookup..].
Qed.

Lemma wp_swap s i j Q :
  0 ≤ i < sz s → 0 ≤ j < sz s → (∀ s', swapped i j s s' → Q s') → wp (data.(Swap) s i j) Q.
Proof.
  intros Hi Hj HQ. destruct (swap_law s i j) as (s' & -> & Hs'); [done..|]. by apply HQ.
Qed.

(** [s'] comes from [s] by swaps of positions in [[a,b)]. *)
Inductive swaps (a b : Z) : S → S → Prop :=
| swaps_refl s : swaps a b s s
| swaps_step i j s s1 s2 :
    a ≤ i < b → a ≤ j < b → 0 ≤ i < sz s → 0 ≤ j < sz s →
    swapped i j s s1 → swaps a b s1 s2 → swaps a b s s2.

Lemma swaps_trans a b s1 s2 s3 : swaps a b s1 s2 → swaps a b s2 s3 → swaps a b s1 s3.
Proof. induction 1; eauto using swaps. Qed.

Lemma swaps_one a b i j s s' :
  swapped i j s s' → a ≤ i < b → a ≤ j < b → 0 ≤ i < sz s → 0 ≤ j < sz s → swaps a b s s'.
Proof. eauto using swaps. Qed.

Lemma swaps_mono a b a' b' s s' : swaps a b s s' → a' ≤ a → b ≤ b' → swaps a' b' s s'.
Proof.
  induction 1 as [|i j s s1 s2]; intros; [constructor|].
  apply (swaps_step a' b' i j s s1 s2); auto; lia.
Qed.

Lemma swaps_sz a b s s' : swaps a b s s' → sz s' = sz s.
Proof.
  induction 1 as [|i j s s1 s2 ???? Hsw _ IH]; [done|].
  by rewrite IH, (swapped_sz _ _ _ _ Hsw).
Qed.

Lemma swaps_out a b s s' k : swaps a b s s' → k < a ∨ b ≤ k → at_ s' k = at_ s k.
Proof.
  induction 1 as [|i j s s1 s2 ???? Hsw _ IH]; intros Hk; [done|].
  rewrite IH, (at_swapped _ _ _ _ _ Hsw) by done. unfold tr. zcases; f_equal; lia.
Qed.

(** What holds of all elements of a range that contains the swaps goes on
    to hold. *)
Lemma swaps_forall a b a' b' (P : A → Prop) s s' :
  swaps a b s s' → a' ≤ a → b ≤ b' →
  (∀ k, a' ≤ k < b' → P (at_ s k)) → ∀ k, a' ≤ k < b' → P (at_ s' k).
Proof.
  induction 1 as [|i j s s1 s2 ???? Hsw _ IH]; intros Ha Hb HP k Hk; [by apply HP|].
  apply IH; [lia|lia| |done]. intros k' Hk'.
  rewrite (at_swapped _ _ _ _ _ Hsw) by done. apply HP. unfold tr. zcases; lia.
Qed.

Lemma swaps_perm a b s s' : swaps a b s s' → elems s' ≡ₚ elems s.
Proof.
  induction 1 as [|i j s s1 s2 ???? Hsw _ IH]; [done|].
  rewrite IH, Hsw. apply list_swap_perm.
Qed.

(** Swaps elsewhere keep a range sorted. *)
Lemma sortedR_out a b s s' a' b' :
  swaps a b s s' → b' ≤ a ∨ b ≤ a' → sortedR s a' b' → sortedR s' a' b'.
Proof.
  intros Hsw Hd Hs i j ???. rewrite !(swaps_out _ _ _ _ _ Hsw) by lia. by apply Hs.
Qed.

Lemma sortedR_sub s a b a' b' : sortedR s a b → a ≤ a' → b' ≤ b → sortedR s a' b'.
Proof. intros H ?? i j ???. apply H; lia. Qed.

Lemma sortedR_single s a b : b ≤ a + 1 → sortedR s a b.
Proof. intros ? i j ???. replace j with i by lia. by apply leq_refl. Qed.

(** A sorted range is one whose neighbours are in order. *)
Lemma sortedR_adj s a b :
  (∀ k, a < k < b → leq lt (at_ s (k - 1)) (at_ s k)) → sortedR s a b.
Proof.
  intros H i j Hi Hij Hj.
  replace j with (i + Z.of_nat (Z.to_nat (j - i))) in * by lia. clear Hij.
  induction (Z.to_nat (j - i)) as [|n IH].
  - replace (i + Z.of_nat 0) with i by lia. by apply leq_refl.
  - eapply leq_trans; [done|apply IH; lia|].
    replace (i + Z.of_nat n) with (i + Z.of_nat (Datatypes.S n) - 1) by lia. apply H. lia.
Qed.

(** Exchanging an inverted neighbouring pair is stable. *)
Lemma swapped_bubble j s s' :
  swapped j (j - 1) s s' → 0 < j < sz s → lt (at_ s j) (at_ s (j - 1)) = true →
  bubble lt (elems s) (elems s').
Proof.
  intros Hsw Hj Hlt. unfold swapped in Hsw.
  pose proof (at_lookup s j ltac:(lia)) as Hx.
  pose proof (at_lookup s (j - 1) ltac:(lia)) as Hy.
  replace (Z.to_nat j) with (Datatypes.S (Z.to_nat (j - 1))) in * by lia.
  apply list_elem_of_split_length in Hy as (l1 & l2 & El & Hl).
  assert (l2 !! 0%nat = Some (at_ s j)) as Hl2.
  { rewrite El, lookup_app_r, Hl, Nat.sub_succ_l, Nat.sub_diag in Hx by lia. done. }
  destruct l2 as [|y l2]; [done|]. simpl in Hl2. injection Hl2 as ->.
  rewrite Hsw, (list_swap_adjacent _ _ _ _ _ _ El), El by done.
  apply bubble_step; [done|constructor].
Qed.

Lemma sortedR_StronglySorted s :
  sortedR s 0 (sz s) → StronglySorted (leq lt) (elems s).
Proof.
  intros H. apply StronglySorted_lookup. intros i j x y Hij Hx Hy.
  pose proof (lookup_lt_Some _ _ _ Hy). pose proof (lookup_lt_Some _ _ _ Hx).
  pose proof (at_lookup s (Z.of_nat i)) as Hi. pose proof (at_lookup s (Z.of_nat j)) as Hj.
  unfold sz in *. rewrite Nat2Z.id in *. specialize (Hi ltac:(lia)). specialize (Hj ltac:(lia)).
  simplify_eq. apply H; unfold sz; lia.
Qed.

Lemma StronglySorted_sortedR s :
  StronglySorted (leq lt) (elems s) → sortedR s 0 (sz s).
Proof.
  intros H i j Hi Hij Hj. destruct (decide (i = j)) as [->|]; [by apply leq_refl|].
  eapply StronglySorted_lookup_lt; [exact H| |apply at_lookup; lia..]. lia.
Qed.
End view.

(** One step of a proof about an algorithm: a [Less], a [Swap] or a monadic
    bind. The index ranges are left to [lia]. *)
Ltac sort_step :=
  lazymatch goal with
  | |- wp (Less ?d _ _ _) _ =>
      match goal with _ : SortLaws d ?lt ?el |- _ =>
        apply (wp_less d lt el); [try lia|try lia|] end
  | |- wp (Swap ?d _ _ _) _ =>
      match goal with _ : SortLaws d ?lt ?el |- _ =>
        let s := fresh "s" in let H := fresh "Hsw" in
        apply (wp_swap d lt el); [try lia|try lia|]; intros s H end
  | |- wp (if ?b then _ else _) _ => destruct b eqn:?
  | _ => wp_pure
  end.
Ltac sort_steps := repeat (sort_step; cbn beta iota).

(** Replace [at_] after a swap by [at_] before it. *)
Ltac at_swap H := erewrite !(at_swapped _ _ _ _ _ _ H) by lia; unfold tr.

(** ** Search *)

(** Binary search over a monotone predicate: no addition overflows, and [f] is
    only called inside the range. *)
Lemma Search_spec (n : Z) (f : Z → option bool) (t : Z → bool) :
  0 ≤ n < 2 ^ 63 → (∀ i, 0 ≤ i < n → f i = Some (t i)) →
  (∀ i j, 0 ≤ i → i ≤ j → j < n → t i = true → t j = true) →
  ∃ r, Search n f = Some r ∧ 0 ≤ r ≤ n ∧
    (∀ i, 0 ≤ i < r → t i = false) ∧ (∀ i, r ≤ i < n → t i = true).
Proof.
  intros Hn Hf Hmono. apply wp_elim. unfold Search.
  apply (wp_loop (λ '(i, j), 0 ≤ i ∧ i ≤ j ∧ j ≤ n ∧ (∀ k, 0 ≤ k < i → t k = false) ∧
      (∀ k, j ≤ k < n → t k = true)) (λ '(i, j), Z.to_nat (j - i)));
    [|split_and!; [lia|lia|lia|intros; lia|intros; lia]|unfold span; lia].
  intros [i j] (Hi & Hij & Hj & Hlo & Hhi). change (2 ^ 63) with 9223372036854775808 in Hn.
  destruct (Z.ltb_spec i j); [|wp_pure; split_and!; [lia|lia|done|intros k Hk; apply Hhi; lia]].
  cbn zeta. rewrite (wrapS_small 64 (j - i)) by (change (2 ^ (64 - 1)) with 9223372036854775808; lia).
  set (h := i + (j - i) /t 2). assert (i ≤ h < j) as Hh by (unfold h; zlia). clearbody h.
  rewrite (wrapS_small 64 h) by (change (2 ^ (64 - 1)) with 9223372036854775808; lia).
  rewrite (wrapS_small 64 (h + 1)) by (change (2 ^ (64 - 1)) with 9223372036854775808; lia).
  rewrite Hf by lia. simpl. destruct (t h) eqn:E; simpl; (split; [|lia]); split_and!; try lia; try done.
  - intros k Hk. destruct (decide (j ≤ k)); [apply Hhi; lia|]. apply (Hmono h k); [lia..|done].
  - intros k Hk. destruct (decide (k < i)); [apply Hlo; lia|].
    destruct (t k) eqn:E'; [|done]. by rewrite (Hmono k h) in E by (done || lia).
Qed.
