(* ===== verification/SortInsertion.v ===== *)
(** * sort: insertion sort

    The correctness of [insertionSort], which also sorts the blocks of the
    stable sort and ends the quick sort. *)
From S2P Require Import Prelude.
From S2P Require Import SortModel.
From S2P Require Import SortLaws.

Section insertion.
Context {S A} `{!Inhabited A} (data : Interface S) (lt : A → A → bool) (elems : S → list A).
Context `{!SortLaws data lt elems} `{!StrictWeakOrder lt}.
Abbreviation sz := (sz elems).
Abbreviation at_ := (at_ elems).
Abbreviation sortedR := (sortedR lt elems).
Abbreviation swaps := (swaps elems).

Lemma insertOne_spec a i s :
  0 ≤ a ≤ i → i < sz s → sortedR s a i →
  wp (insertOne data a i s) (λ s',
    swaps a (i + 1) s s' ∧ bubble lt (elems s) (elems s') ∧ sortedR s' a (i + 1)).
Proof.
  intros Ha Hi Hs. unfold insertOne.
  apply (wp_loop (λ '(j, s'),
      a ≤ j ≤ i ∧ swaps a (i + 1) s s' ∧ bubble lt (elems s) (elems s') ∧
      ∀ p q, a ≤ p → p ≤ q → q ≤ i → q ≠ j → leq lt (at_ s' p) (at_ s' q))
    (λ '(j, _), Z.to_nat (j - a))); [|split_and!; [lia|lia|constructor|constructor|]|unfold span; lia].
  2:{ intros p q ????. apply Hs; lia. }
  intros [j s'] (Hj & Hsw & Hb & Hord). pose proof (swaps_sz _ _ _ _ _ Hsw) as Hsz.
  destruct (Z.ltb_spec a j).
  - sort_steps.
    + pose proof (swapped_sz _ _ _ _ _ Hsw0).
      split; [|lia]. split_and!; [lia|lia| | |].
      * eapply swaps_trans; [done|]. eapply swaps_one; [done|lia..].
      * eapply bubble_trans; [done|]. eapply swapped_bubble; [done|lia|done].
      * intros p q ????. at_swap Hsw0.
        assert (leq lt (at_ s' j) (at_ s' (j - 1))) by (by apply lt_leq).
        zcases; subst; try lia; first [done | by apply leq_refl | apply Hord; lia | idtac].
    + split_and!; [done|done|]. intros p q ???.
      destruct (decide (q = j)) as [->|]; [|apply Hord; lia].
      destruct (decide (p = j)) as [->|]; [by apply leq_refl|].
      eapply leq_trans; [done|apply (Hord p (j - 1)); lia|done].
  - sort_steps. split_and!; [done|done|]. intros p q ???.
    destruct (decide (q = j)) as [->|]; [|apply Hord; lia].
    replace p with j by lia. by apply leq_refl.
Qed.

Lemma insertionSort_spec s a b :
  0 ≤ a → b ≤ sz s →
  wp (insertionSort data s a b) (λ s',
    swaps a b s s' ∧ bubble lt (elems s) (elems s') ∧ sortedR s' a b).
Proof.
  intros Ha Hb. unfold insertionSort.
  apply (wp_loop (λ '(i, s'),
      a + 1 ≤ i ∧ (i ≤ b ∨ i = a + 1) ∧ swaps a b s s' ∧ bubble lt (elems s) (elems s') ∧
      sortedR s' a i)
    (λ '(i, _), Z.to_nat (b - i)));
    [|split_and!; [lia|lia|constructor|constructor|by apply sortedR_single; [|lia]]|unfold span; lia].
  intros [i s'] (Hi & Hib & Hsw & Hb' & Hs). pose proof (swaps_sz _ _ _ _ _ Hsw) as Hsz.
  destruct (Z.ltb_spec i b).
  - sort_steps. eapply wp_mono; [apply insertOne_spec; [lia|lia|done]|].
    intros s2 (Hsw2 & Hb2 & Hs2). sort_steps. split; [|lia].
    split_and!; [lia|lia| | |done].
    + eapply swaps_trans; [done|]. eapply swaps_mono; [done|lia..].
    + by eapply bubble_trans.
  - sort_steps. split_and!; [done|done|]. eapply sortedR_sub; [done|lia..].
Qed.
End insertion.
