(* ===== verification/SortHeap.v ===== *)
(** * sort: heap sort

    [siftDown] restores the heap property, and [heapSort] sorts; it is what
    [quickSort] falls back to when its depth limit is reached. *)
From S2P Require Import Prelude.
From S2P Require Import SortModel.
From S2P Require Import SortLaws.

Section heap.
Context {S A} `{!Inhabited A} (data : Interface S) (lt : A → A → bool) (elems : S → list A).
Context `{!SortLaws data lt elems} `{!StrictWeakOrder lt}.
Abbreviation sz := (sz elems).
Abbreviation at_ := (at_ elems).
Abbreviation sortedR := (sortedR lt elems).
Abbreviation swaps := (swaps elems).

Definition child (p c : Z) : Prop := c = 2 * p + 1 ∨ c = 2 * p + 2.

(** The parents from [lo] on are not below their children in
    [data[first:first+hi]]. *)
Definition heap (s : S) (first lo hi : Z) : Prop :=
  ∀ p c, lo ≤ p → child p c → c < hi → leq lt (at_ s (first + c)) (at_ s (first + p)).

Lemma heap_max s first hi k :
  heap s first 0 hi → 0 ≤ k < hi → leq lt (at_ s (first + k)) (at_ s first).
Proof.
  intros Hh [Hk Hlt]. revert Hlt. pattern k.
  apply Zlt_0_ind; [|done]. clear k Hk. intros k IH Hk Hlt.
  destruct (decide (k = 0)) as [->|].
  { rewrite Z.add_0_r. by apply leq_refl. }
  eapply leq_trans; [done| |apply (IH ((k - 1) / 2))]; [|zlia..].
  apply Hh; [zlia| |done]. unfold child. zlia.
Qed.

(** The loop invariant of [siftDown]: only [root] may be below its children,
    and its parent is not below them. *)
Definition siftInv (s : S) (first lo hi root : Z) : Prop :=
  (∀ p c, lo ≤ p → p ≠ root → child p c → c < hi →
     leq lt (at_ s (first + c)) (at_ s (first + p))) ∧
  (∀ p c, lo ≤ p → child p root → child root c → c < hi →
     leq lt (at_ s (first + c)) (at_ s (first + p))).

Lemma siftInv_swap s s' first lo hi root ch :
  0 ≤ lo ≤ root → 0 ≤ first → first + hi ≤ sz s →
  siftInv s first lo hi root → child root ch → ch < hi →
  (∀ c, child root c → c < hi → leq lt (at_ s (first + c)) (at_ s (first + ch))) →
  lt (at_ s (first + root)) (at_ s (first + ch)) = true →
  swapped elems (first + root) (first + ch) s s' →
  siftInv s' first lo hi ch.
Proof.
  unfold child. intros ??? [H1 H2] Hch ? Hmax Hlt Hsw. split.
  - intros p c ????. at_swap Hsw.
    assert (leq lt (at_ s (first + root)) (at_ s (first + ch))) by (by apply lt_leq).
    unfold child in *. zcases; try (exfalso; lia); try done;
      first [apply Hmax; lia | apply H2; lia | apply H1; lia].
  - intros p c ????. at_swap Hsw.
    unfold child in *. zcases; try (exfalso; lia). apply (H1 ch c); lia.
Qed.

Lemma siftDown_spec s lo hi first :
  0 ≤ lo → 0 ≤ first → first + hi ≤ sz s → heap s first (lo + 1) hi →
  wp (siftDown data s lo hi first) (λ s',
    swaps (first + lo) (first + hi) s s' ∧ heap s' first lo hi).
Proof.
  intros Hlo Hf Hhi Hh. unfold siftDown.
  apply (wp_loop (λ '(root, s'), lo ≤ root ∧ swaps (first + lo) (first + hi) s s' ∧
      siftInv s' first lo hi root) (λ '(root, _), Z.to_nat (hi - root)));
    [|split_and!; [lia|constructor|split; intros p c; intros|..]|unfold span; lia].
  2:{ apply Hh; [lia|done|done]. }
  2:{ unfold child in *. lia. }
  intros [root s'] (Hr & Hsw & Hi). pose proof (swaps_sz _ _ _ _ _ Hsw) as Hsz.
  destruct (Z.leb_spec hi (2 * root + 1)).
  { wp_pure. split; [done|]. intros p c Hp Hc ?. destruct (decide (p = root)) as [->|].
    - unfold child in Hc. lia.
    - by apply (proj1 Hi). }
  apply wp_bind.
  apply (wp_mono _ (λ ch, child root ch ∧ ch < hi ∧
    ∀ c, child root c → c < hi → leq lt (at_ s' (first + c)) (at_ s' (first + ch)))).
  { unfold child. destruct (Z.ltb_spec (2 * root + 1 + 1) hi); sort_steps.
    1: destruct (lt _ _) eqn:Hl.
    all: split_and!; [lia|lia|]; intros c Hc ?.
    - destruct Hc as [->| ->].
      + replace (first + (2 * root + 1 + 1)) with (first + (2 * root + 1) + 1) by lia.
        by apply lt_leq.
      + replace (2 * root + 2) with (2 * root + 1 + 1) by lia. by apply leq_refl.
    - destruct Hc as [->| ->]; [by apply leq_refl|].
      by replace (first + (2 * root + 2)) with (first + (2 * root + 1) + 1) by lia.
    - destruct Hc as [->| ->]; [by apply leq_refl|lia]. }
  intros ch (Hch & ? & Hmax). assert (root < ch) by (unfold child in Hch; lia).
  sort_steps.
  - (* not below its greater child: stop *)
    split; [done|]. intros p c Hp Hc ?. destruct (decide (p = root)) as [->|].
    + eapply leq_trans; [done|by apply Hmax|]. unfold leq.
      by rewrite negb_true_iff in *.
    + by apply (proj1 Hi).
  - pose proof (swapped_sz _ _ _ _ _ Hsw0). split; [|lia]. split_and!; [lia| |].
    + eapply swaps_trans; [done|]. eapply swaps_one; [done|lia..].
    + eapply siftInv_swap; [..|done]; try done; try lia. by rewrite negb_false_iff in *.
Qed.

Lemma heapSort_build_spec s a b :
  0 ≤ a ≤ b → b ≤ sz s →
  wp (loop (span 0 (b - a + 1)) (λ '(i, s),
    if 0 <=? i then
      s ← siftDown data s i (b - a) a;
      continue (i - 1, s)
    else break s) ((b - a - 1) /t 2, s)) (λ s', swaps a b s s' ∧ heap s' a 0 (b - a)).
Proof.
  intros Ha Hb.
  apply (wp_loop (λ '(i, s'), -1 ≤ i ∧ swaps a b s s' ∧ heap s' a (i + 1) (b - a))
    (λ '(i, _), Z.to_nat (i + 1)));
    [|split_and!; [zlia|constructor|intros p c ? [->| ->]; zlia]|unfold span; zlia].
  intros [i s'] (Hi & Hsw & Hh). pose proof (swaps_sz _ _ _ _ _ Hsw) as Hsz.
  destruct (Z.leb_spec 0 i); sort_steps.
  - eapply wp_mono; [apply siftDown_spec; [lia|lia|lia|done]|].
    intros s2 [Hsw2 Hh2]. sort_steps. split; [|lia]. split_and!; [lia| |].
    + eapply swaps_trans; [done|]. eapply swaps_mono; [done|lia..].
    + by replace (i - 1 + 1) with i by lia.
  - split; [done|]. by replace (i + 1) with 0 in Hh by lia.
Qed.

(** The invariant of the second loop: a heap of [i + 1] elements, above none of
    the sorted ones behind it. *)
Definition heapInv (s : S) (a b i : Z) : Prop :=
  heap s a 0 (i + 1) ∧ sortedR s (a + i + 1) b ∧
  ∀ y, a + i + 1 ≤ y < b → ∀ x, a ≤ x < a + i + 1 → leq lt (at_ s x) (at_ s y).

Lemma heapInv_step s s2 s3 a b i :
  0 ≤ a → 0 ≤ i < b - a → b ≤ sz s → heapInv s a b i →
  swapped elems a (a + i) s s2 → swaps a (a + i) s2 s3 → heap s3 a 0 i → heapInv s3 a b (i - 1).
Proof.
  intros Ha Hi Hb (Hh & Hs & Hle) Hsw2 Hsw3 Hh3. pose proof (swapped_sz _ _ _ _ _ Hsw2).
  assert (∀ k, 0 ≤ k < i + 1 → leq lt (at_ s (a + k)) (at_ s a)) as Hmax by (intros; eapply heap_max; done).
  assert (at_ s3 (a + i) = at_ s a) as Htop.
  { rewrite (swaps_out _ _ _ _ _ _ Hsw3) by lia. at_swap Hsw2. zcases; f_equal; lia. }
  assert (∀ y, a + i < y < b → at_ s3 y = at_ s y) as Hrest.
  { intros y Hy. rewrite (swaps_out _ _ _ _ _ _ Hsw3) by lia. at_swap Hsw2. zcases; f_equal; lia. }
  split_and!.
  - by replace (i - 1 + 1) with i by lia.
  - intros p q ???. destruct (decide (q = a + i)) as [->|].
    { replace p with (a + i) by lia. by apply leq_refl. }
    rewrite (Hrest q) by lia. destruct (decide (p = a + i)) as [->|].
    + rewrite Htop. replace a with (a + 0) at 1 by lia. apply Hle; lia.
    + rewrite Hrest by lia. apply Hs; lia.
  - intros y Hy x Hx. apply (swaps_forall elems _ _ a (a + i) (λ x, leq lt x (at_ s3 y)) _ _ Hsw3); [lia|lia| |lia].
    intros k Hk. at_swap Hsw2. destruct (decide (y = a + i)) as [->|].
    + rewrite Htop. zcases; try (exfalso; lia); [apply Hmax; lia|].
      replace k with (a + (k - a)) by lia. apply Hmax; lia.
    + rewrite Hrest by lia. zcases; try (exfalso; lia); apply Hle; lia.
Qed.

Lemma heapSort_spec s a b :
  0 ≤ a ≤ b → b ≤ sz s →
  wp (heapSort data s a b) (λ s', swaps a b s s' ∧ sortedR s' a b).
Proof.
  intros Ha Hb. unfold heapSort. apply wp_bind.
  eapply wp_mono; [by apply heapSort_build_spec|]. intros s1 [Hsw1 Hh1].
  pose proof (swaps_sz _ _ _ _ _ Hsw1) as Hsz1.
  apply (wp_loop (λ '(i, s'), -1 ≤ i < Z.max 0 (b - a) ∧ swaps a b s s' ∧ heapInv s' a b i)
    (λ '(i, _), Z.to_nat (i + 1))); [|split_and!; [lia|lia|done|..]|unfold span; lia].
  2:{ split_and!; [by replace (b - a - 1 + 1) with (b - a) by lia|by apply sortedR_single; [|lia]|lia]. }
  intros [i s'] (Hi & Hsw & HI). pose proof (swaps_sz _ _ _ _ _ Hsw) as Hsz.
  destruct (Z.leb_spec 0 i); sort_steps.
  - rename s0 into s2, Hsw0 into Hsw2. pose proof (swapped_sz _ _ _ _ _ Hsw2).
    eapply wp_mono; [apply siftDown_spec; [lia|lia|lia|]|].
    { intros p c ? Hc ?. unfold child in Hc. at_swap Hsw2.
      zcases; try (exfalso; lia). apply (proj1 HI); [lia|unfold child; lia|lia]. }
    intros s3 [Hsw3 Hh3]. rewrite Z.add_0_r in Hsw3. sort_steps. split; [|lia]. split_and!; [lia|lia| |].
    + eapply swaps_trans; [done|]. eapply swaps_step; [| | | |exact Hsw2|]; [lia..|].
      eapply swaps_mono; [done|lia..].
    + eapply (heapInv_step s' s2); [lia|lia|lia|done..].
  - split; [done|]. destruct HI as (_&Hs&_). by replace (a + i + 1) with a in Hs by lia.
Qed.
End heap.
