(* ===== verification/SortQuick.v ===== *)
(** * sort: quick sort

    [doPivot] partitions, and [quickSort] sorts for every depth limit. *)
From S2P Require Import Prelude.
From S2P Require Import SortModel.
From S2P Require Import SortLaws.
From S2P Require Import SortInsertion.
From S2P Require Import SortHeap.

(** ** The scanning loops *)

Lemma scanUp_spec (p : Z → option bool) (t : Z → bool) i n :
  (∀ k, i ≤ k < n → p k = Some (t k)) →
  wp (scanUp p i n) (λ r, i ≤ r ≤ Z.max i n ∧ (∀ k, i ≤ k < r → t k = true) ∧
                          (r < n → t r = false)).
Proof.
  intros Hp. unfold scanUp.
  apply (wp_loop (λ r, i ≤ r ≤ Z.max i n ∧ ∀ k, i ≤ k < r → t k = true) (λ r, Z.to_nat (n - r)));
    [|split; [lia|intros; lia]|unfold span; lia].
  intros r (Hr & Ht). destruct (Z.ltb_spec r n); [|wp_pure; split_and!; [lia|lia|done|lia]].
  rewrite Hp by lia. simpl. destruct (t r) eqn:E; wp_pure.
  - split; [|lia]. split; [lia|]. intros k Hk. destruct (decide (k = r)) as [->|]; [done|].
    apply Ht. lia.
  - split_and!; [lia|lia|done|done].
Qed.

Lemma scanDown_spec (p : Z → option bool) (t : Z → bool) n i :
  (∀ k, n ≤ k < i → p k = Some (t k)) →
  wp (scanDown p n i) (λ r, Z.min n i ≤ r ≤ i ∧ (∀ k, r ≤ k < i → t k = true) ∧
                            (n < r → t (r - 1) = false)).
Proof.
  intros Hp. unfold scanDown.
  apply (wp_loop (λ r, Z.min n i ≤ r ≤ i ∧ ∀ k, r ≤ k < i → t k = true) (λ r, Z.to_nat (r - n)));
    [|split; [lia|intros; lia]|unfold span; lia].
  intros r (Hr & Ht). destruct (Z.ltb_spec n r); [|wp_pure; split_and!; [lia|lia|done|lia]].
  rewrite Hp by lia. simpl. destruct (t (r - 1)) eqn:E; wp_pure.
  - split; [|lia]. split; [lia|]. intros k Hk. destruct (decide (k = r - 1)) as [->|]; [done|].
    apply Ht. lia.
  - split_and!; [lia|lia|done|done].
Qed.

Section quick.
Context {S A} `{!Inhabited A} (data : Interface S) (lt : A → A → bool) (elems : S → list A).
Context `{!SortLaws data lt elems} `{!StrictWeakOrder lt}.
Abbreviation sz := (sz elems).
Abbreviation at_ := (at_ elems).
Abbreviation sortedR := (sortedR lt elems).
Abbreviation swaps := (swaps elems).

Lemma swapped_swaps a b i j s s' s0 :
  swaps a b s0 s → swapped elems i j s s' →
  a ≤ i < b → a ≤ j < b → 0 ≤ a → b ≤ sz s → swaps a b s0 s'.
Proof. intros. eapply swaps_trans; [done|]. eapply swaps_one; [done|lia..]. Qed.

Lemma medianOfThree_spec s a b m1 m0 m2 :
  0 ≤ a → b ≤ sz s → a ≤ m1 < b → a ≤ m0 < b → a ≤ m2 < b →
  m0 ≠ m1 → m1 ≠ m2 → m0 ≠ m2 →
  wp (medianOfThree data s m1 m0 m2) (λ s',
    swaps a b s s' ∧ leq lt (at_ s' m0) (at_ s' m1) ∧ leq lt (at_ s' m1) (at_ s' m2)).
Proof.
  intros. unfold medianOfThree. sort_step. sort_step; [lia..|]. cbn beta. sort_step.
  apply (wp_mono _ (λ s', swaps a b s s' ∧ leq lt (at_ s' m0) (at_ s' m1))).
  { sort_steps.
    - split; [eapply swaps_one; [done|lia..]|]. at_swap Hsw. zcases; try lia. by apply lt_leq.
    - split; [constructor|done]. }
  intros s1 [Hsw1 H01]. pose proof (swaps_sz _ _ _ _ _ Hsw1).
  sort_step. sort_step; [lia..|]. cbn beta. sort_step; [|sort_steps; done].
  sort_step. sort_step; [lia..|]. rename s0 into s2, Hsw into Hsw2.
  pose proof (swapped_sz _ _ _ _ _ Hsw2).
  assert (swaps a b s s2) by (eapply swapped_swaps; [done|done|lia..]).
  assert (at_ s2 m0 = at_ s1 m0 ∧ at_ s2 m1 = at_ s1 m2 ∧ at_ s2 m2 = at_ s1 m1) as (E0 & E1 & E2).
  { split_and!; at_swap Hsw2; zcases; try lia; done. }
  assert (leq lt (at_ s2 m1) (at_ s2 m2)) by (rewrite E1, E2; by apply lt_leq).
  assert (leq lt (at_ s2 m0) (at_ s2 m2)) by (by rewrite E0, E2).
  sort_step. sort_step; [lia..|]. cbn beta. sort_steps.
  - rename s0 into s3, Hsw into Hsw3. split_and!.
    + eapply swapped_swaps; [done|done|lia..].
    + at_swap Hsw3. zcases; try lia. by apply lt_leq.
    + at_swap Hsw3. zcases; try lia. done.
  - done.
Qed.

Lemma choosePivot_spec s lo hi :
  0 ≤ lo → hi ≤ sz s → 12 < hi - lo →
  wp (choosePivot data s lo hi) (λ s',
    swaps lo hi s s' ∧ leq lt (at_ s' lo) (at_ s' (hi - 1))).
Proof.
  intros. unfold choosePivot. sort_step.
  apply (wp_mono _ (swaps lo hi s)).
  { destruct (Z.ltb_spec 40 (hi - lo)); [|sort_steps; constructor].
    sort_step. eapply wp_mono; [apply (medianOfThree_spec s lo hi); zlia|].
    intros s1 (Hsw1 & _). pose proof (swaps_sz _ _ _ _ _ Hsw1).
    sort_step. eapply wp_mono; [apply (medianOfThree_spec s1 lo hi); zlia|].
    intros s2 (Hsw2 & _). pose proof (swaps_sz _ _ _ _ _ Hsw2).
    eapply wp_mono; [apply (medianOfThree_spec s2 lo hi); zlia|].
    intros s3 (Hsw3 & _). eauto using swaps_trans. }
  intros s1 Hsw1. pose proof (swaps_sz _ _ _ _ _ Hsw1).
  eapply wp_mono; [apply (medianOfThree_spec s1 lo hi); zlia|].
  intros s2 (Hsw2 & _ & Hle). eauto using swaps_trans.
Qed.

(** The comment of [doPivot] as a predicate: the elements around the middle
    part [[b,c)], which is equivalent to the pivot [data[lo]]. *)
Definition parted (s : S) (lo b c hi : Z) : Prop :=
  (∀ k, lo ≤ k < b → leq lt (at_ s k) (at_ s lo)) ∧
  (∀ k, b ≤ k < c → leq lt (at_ s k) (at_ s lo) ∧ leq lt (at_ s lo) (at_ s k)) ∧
  (∀ k, c ≤ k < hi → leq lt (at_ s lo) (at_ s k)).

Lemma partitionLoop_spec s lo hi a :
  0 ≤ lo → lo < a ≤ hi - 1 → hi ≤ sz s →
  (∀ k, lo ≤ k < a → leq lt (at_ s k) (at_ s lo)) →
  wp (partitionLoop data lo a (hi - 1) s) (λ '(b, c, s'),
    b = c ∧ a ≤ b ≤ hi - 1 ∧ swaps (lo + 1) (hi - 1) s s' ∧
    (∀ k, lo ≤ k < b → leq lt (at_ s' k) (at_ s' lo)) ∧
    (∀ k, c ≤ k < hi - 1 → leq lt (at_ s' lo) (at_ s' k))).
Proof.
  intros ? Ha Hhi Hle0. unfold partitionLoop.
  apply (wp_loop (λ '(b, c, s'),
      a ≤ b ∧ b ≤ c ∧ c ≤ hi - 1 ∧ swaps (lo + 1) (hi - 1) s s' ∧
      (∀ k, lo ≤ k < b → leq lt (at_ s' k) (at_ s' lo)) ∧
      (∀ k, c ≤ k < hi - 1 → leq lt (at_ s' lo) (at_ s' k)))
    (λ '(b, c, _), Z.to_nat (c - b)));
    [|split_and!; [lia|lia|lia|constructor|done|lia]|unfold span; lia].
  intros [[b c] s'] (Hb & Hbc & Hc & Hsw & Hle & Hge). pose proof (swaps_sz _ _ _ _ _ Hsw).
  sort_step. eapply wp_mono;
    [apply (scanUp_spec _ (λ k, negb (lt (at_ s' lo) (at_ s' k))))|].
  { intros k Hk. rewrite (less_at data lt elems) by lia. done. }
  intros b1 (Hb1 & Hup & Hstop). cbn beta.
  sort_step. eapply wp_mono;
    [apply (scanDown_spec _ (λ k, lt (at_ s' lo) (at_ s' k)))|].
  { intros k Hk. rewrite (less_at data lt elems) by lia. done. }
  intros c1 (Hc1 & Hdown & Hstop'). cbn beta.
  assert (Hle1 : ∀ k, lo ≤ k < b1 → leq lt (at_ s' k) (at_ s' lo)).
  { intros k Hk. destruct (decide (k < b)); [apply Hle; lia|].
    unfold leq. by rewrite <-negb_true_iff, (Hup k) by lia. }
  assert (Hge1 : ∀ k, c1 ≤ k < hi - 1 → leq lt (at_ s' lo) (at_ s' k)).
  { intros k Hk. destruct (decide (k < c)); [|apply Hge; lia].
    apply lt_leq; [done|]. apply Hdown; lia. }
  destruct (Z.leb_spec c1 b1).
  { sort_steps. split_and!; [lia|lia|lia|done|done|done]. }
  assert (b1 ≠ c1 - 1).
  { intros ->. rewrite Hstop' in Hstop by lia. simpl in Hstop. by specialize (Hstop ltac:(lia)). }
  sort_steps. rename s0 into s2, Hsw0 into Hsw2.
  assert (Hlo : at_ s2 lo = at_ s' lo) by (at_swap Hsw2; zcases; f_equal; lia).
  split; [|lia]. split_and!; [lia|lia|lia| | |].
  - eapply swapped_swaps; [done|done|lia..].
  - intros k Hk. rewrite Hlo. at_swap Hsw2. zcases; try lia; subst.
    + specialize (Hstop' ltac:(lia)). done.
    + apply Hle1; lia.
  - intros k Hk. rewrite Hlo. at_swap Hsw2. zcases; try lia; subst.
    + specialize (Hstop ltac:(lia)). rewrite negb_false_iff in Hstop. by apply lt_leq.
    + apply Hge1; lia.
Qed.

(** The middle part takes in an element equivalent to the pivot from either
    side. *)
Lemma parted_up s s' lo b c hi x :
  parted s lo b c hi → 0 ≤ lo < b → b ≤ c → c ≤ x < hi → hi ≤ sz s →
  leq lt (at_ s x) (at_ s lo) → swapped elems c x s s' → parted s' lo b (c + 1) hi.
Proof.
  intros (Hl & Hm & Hh) ???? Hx Hsw.
  assert (Hlo : at_ s' lo = at_ s lo) by (at_swap Hsw; zcases; f_equal; lia).
  split_and!; intros k Hk; rewrite Hlo; at_swap Hsw; zcases; subst; try lia;
    first [apply Hl; lia | apply Hh; lia | apply Hm; lia | idtac];
    (split; [done|apply Hh; lia]).
Qed.

Lemma parted_down s s' lo b c hi x :
  parted s lo b c hi → 0 ≤ lo < x → x < b → b ≤ c ≤ hi → hi ≤ sz s →
  leq lt (at_ s lo) (at_ s x) → swapped elems x (b - 1) s s' → parted s' lo (b - 1) c hi.
Proof.
  intros (Hl & Hm & Hh) ???? Hx Hsw.
  assert (Hlo : at_ s' lo = at_ s lo) by (at_swap Hsw; zcases; f_equal; lia).
  split_and!; intros k Hk; rewrite Hlo; at_swap Hsw; zcases; subst; try lia;
    first [apply Hl; lia | apply Hh; lia | apply Hm; lia | idtac];
    (split; [apply Hl; lia|]); first [done|by replace (b - 1) with x by lia].
Qed.

Lemma parted_down_id s lo b c hi :
  parted s lo b c hi → lo < b → leq lt (at_ s lo) (at_ s (b - 1)) → parted s lo (b - 1) c hi.
Proof.
  intros (Hl & Hm & Hh) ? Hx. split_and!; [intros; apply Hl; lia| |done].
  intros k Hk. destruct (decide (k = b - 1)) as [->|]; [split; [apply Hl; lia|done]|].
  apply Hm; lia.
Qed.

Lemma testDups_spec s lo hi b :
  0 ≤ lo → hi ≤ sz s → 12 < hi - lo → lo < b → 5 ≤ hi - b → hi - b < (hi - lo) /t 4 →
  parted s lo b b hi →
  wp (testDups data lo hi (lo + (hi - lo) /t 2) lo b b s) (λ '(b', c', s', _),
    lo < b' ≤ c' ∧ c' ≤ hi ∧ swaps (lo + 1) hi s s' ∧ parted s' lo b' c' hi).
Proof.
  intros ?????? Hp. unfold testDups. set (m := lo + (hi - lo) /t 2).
  assert (lo < m < b - 2) as Hm by (unfold m; zlia). clearbody m.
  sort_step. sort_step; [lia..|]. cbn beta zeta. sort_step.
  apply (wp_mono _ (λ '(s', c', _), b ≤ c' ≤ b + 1 ∧ swaps (lo + 1) hi s s' ∧ parted s' lo b c' hi)).
  { sort_steps.
    - split_and!; [lia|lia| |].
      + eapply swaps_one; [done|lia..].
      + eapply parted_up; [done|lia|lia| | | |done]; [lia|lia|].
        unfold leq. by apply negb_true_iff.
    - split_and!; [lia|lia|constructor|done]. }
  intros [[s1 c1] d1] (Hc1 & Hsw1 & Hp1). pose proof (swaps_sz _ _ _ _ _ Hsw1).
  cbn beta iota. sort_step. sort_step; [lia..|]. cbn beta. sort_step.
  apply (wp_mono _ (λ '(b', _), b - 1 ≤ b' ≤ b ∧ parted s1 lo b' c1 hi)).
  { sort_steps; (split; [lia|]); [|done].
    apply parted_down_id; [done|lia|]. unfold leq. by apply negb_true_iff. }
  intros [b1 d2] (Hb1 & Hp2). cbn beta iota. sort_step. sort_step; [lia..|]. cbn beta. sort_step.
  apply (wp_mono _ (λ '(s', b', _), b1 - 1 ≤ b' ≤ b1 ∧ swaps (lo + 1) hi s s' ∧ parted s' lo b' c1 hi)).
  { sort_steps.
    - split_and!; [lia|lia| |].
      + eapply swapped_swaps; [done|done|lia..].
      + eapply parted_down; [exact Hp2| | | | | |done]; [lia|lia|lia|lia|].
        unfold leq. by apply negb_true_iff.
    - split_and!; [lia|lia|done|done]. }
  intros [[s2 b2] d3] (Hb2 & Hsw2 & Hp3). cbn beta iota. sort_step.
  split_and!; [lia|lia|lia|done|done].
Qed.

Lemma protectLoop_spec s lo a b c hi :
  0 ≤ lo < a → lo < b → b ≤ c ≤ hi → hi ≤ sz s → parted s lo b c hi →
  wp (protectLoop data lo a b s) (λ '(_, b', s'),
    lo < b' ≤ b ∧ swaps (lo + 1) hi s s' ∧ parted s' lo b' c hi).
Proof.
  intros ???? Hp. unfold protectLoop.
  apply (wp_loop (λ '(a', b', s'),
      lo < a' ∧ lo < b' ≤ b ∧ swaps (lo + 1) hi s s' ∧ parted s' lo b' c hi)
    (λ '(a', b', _), Z.to_nat (b' - a')));
    [|split_and!; [lia|lia|lia|constructor|done]|unfold span; lia].
  intros [[a0 b0] s0] (Ha0 & Hb0 & Hsw & Hp0). pose proof (swaps_sz _ _ _ _ _ Hsw).
  sort_step. eapply wp_mono;
    [apply (scanDown_spec _ (λ k, negb (lt (at_ s0 k) (at_ s0 lo))))|].
  { intros k Hk. rewrite (less_at data lt elems) by lia. done. }
  intros b1 (Hb1 & Hdown & Hstop). cbn beta.
  assert (Hp1 : parted s0 lo b1 c hi).
  { destruct Hp0 as (Hl & Hm & Hh). split_and!; [intros; apply Hl; lia| |done].
    intros k Hk. destruct (decide (k < b0)); [|apply Hm; lia]. split; [apply Hl; lia|].
    unfold leq. rewrite <-negb_true_iff. apply Hdown; lia. }
  sort_step. eapply wp_mono;
    [apply (scanUp_spec _ (λ k, lt (at_ s0 k) (at_ s0 lo)))|].
  { intros k Hk. rewrite (less_at data lt elems) by lia. done. }
  intros a1 (Ha1 & _ & Hstop'). cbn beta.
  destruct (Z.leb_spec b1 a1).
  { sort_steps. split_and!; [lia|lia|done|done]. }
  assert (a1 ≠ b1 - 1).
  { intros ->. rewrite Hstop' in Hstop by lia. simpl in Hstop. by specialize (Hstop ltac:(lia)). }
  sort_steps. rename s1 into s2, Hsw0 into Hsw2.
  split; [|lia]. split_and!; [lia|lia|lia| |].
  - eapply swapped_swaps; [done|done|lia..].
  - eapply parted_down; [exact Hp1| | | | | |done]; [lia..|].
    unfold leq. apply Hstop'. lia.
Qed.

(** [doPivot] splits [[lo,hi)] into a part not above the pivot, a non-empty
    part equivalent to it, and a part not below it. *)
Definition pivoted (s : S) (lo mlo mhi hi : Z) : Prop :=
  (∀ k, lo ≤ k < mlo → leq lt (at_ s k) (at_ s mlo)) ∧
  (∀ k, mlo ≤ k < mhi → leq lt (at_ s k) (at_ s mlo) ∧ leq lt (at_ s mlo) (at_ s k)) ∧
  (∀ k, mhi ≤ k < hi → leq lt (at_ s mlo) (at_ s k)).

Lemma parted_pivoted s s' lo b c hi :
  parted s lo b c hi → 0 ≤ lo < b → b ≤ c ≤ hi → hi ≤ sz s →
  swapped elems lo (b - 1) s s' → pivoted s' lo (b - 1) c hi.
Proof.
  intros (Hl & Hm & Hh) ??? Hsw.
  assert (Hp : at_ s' (b - 1) = at_ s lo) by (at_swap Hsw; zcases; f_equal; lia).
  split_and!; intros k Hk; rewrite Hp; at_swap Hsw; zcases; subst; try lia;
    first [apply Hl; lia | apply Hh; lia | apply Hm; lia 
          | replace (b - 1) with lo by lia; split; by apply leq_refl | split; by apply leq_refl].
Qed.

Lemma doPivot_spec s lo hi :
  0 ≤ lo → hi ≤ sz s → 12 < hi - lo →
  wp (doPivot data s lo hi) (λ '(mlo, mhi, s'),
    lo ≤ mlo < mhi ∧ mhi ≤ hi ∧ swaps lo hi s s' ∧ pivoted s' lo mlo mhi hi).
Proof.
  intros. unfold doPivot. sort_step. eapply wp_mono; [by apply choosePivot_spec|].
  intros s1 (Hsw1 & Hlast). pose proof (swaps_sz _ _ _ _ _ Hsw1). cbn zeta. sort_step.
  eapply wp_mono; [apply (scanUp_spec _ (λ k, lt (at_ s1 k) (at_ s1 lo)))|].
  { intros k Hk. rewrite (less_at data lt elems) by lia. done. }
  intros a (Ha & Hup & _). cbn beta. sort_step. eapply wp_mono; [apply partitionLoop_spec; [lia..|]|].
  { intros k Hk. destruct (decide (k = lo)) as [->|]; [by apply leq_refl|].
    apply lt_leq; [done|]. apply Hup; lia. }
  intros [[b c] s2] (<- & Hb & Hsw2 & Hle & Hge). pose proof (swaps_sz _ _ _ _ _ Hsw2).
  assert (Hsw02 : swaps lo hi s s2) by (eapply swaps_trans; [done|eapply swaps_mono; [done|lia..]]).
  assert (Hp : parted s2 lo b b hi).
  { split_and!; [done|lia|]. intros k Hk. destruct (decide (k = hi - 1)) as [->|]; [|apply Hge; lia].
    by rewrite !(swaps_out _ _ _ _ _ _ Hsw2) by lia. }
  cbn beta iota. sort_step.
  apply (wp_mono _ (λ '(b', c', s', _),
    lo < b' ≤ c' ∧ c' ≤ hi ∧ swaps lo hi s s' ∧ parted s' lo b' c' hi)).
  { destruct (Z.ltb_spec (hi - b) 5); cbn [negb andb]; [sort_steps; split_and!; [lia..|done|done]|].
    destruct (Z.ltb_spec (hi - b) ((hi - lo) /t 4)); cbn [negb andb];
      [|sort_steps; split_and!; [lia..|done|done]].
    eapply wp_mono; [by apply testDups_spec; [lia..| |]|].
    intros [[[b' c'] s'] d] (? & ? & Hsw' & ?). split_and!; [lia..| |done].
    eapply swaps_trans; [done|]. eapply swaps_mono; [done|lia..]. }
  intros [[[b1 c1] s3] prot] (Hb1 & Hc1 & Hsw3 & Hp3). pose proof (swaps_sz _ _ _ _ _ Hsw3).
  cbn beta iota. sort_step.
  apply (wp_mono _ (λ '(b', s'), lo < b' ≤ c1 ∧ swaps lo hi s s' ∧ parted s' lo b' c1 hi)).
  { destruct prot; [|sort_steps; split_and!; [lia..|done|done]]. sort_step.
    eapply wp_mono; [apply (protectLoop_spec s3 lo a b1 c1 hi); [lia|lia|lia|lia|done]|].
    intros [[a' b'] s4] (Hb' & Hsw4 & Hp4). cbn beta iota. sort_step.
    split_and!; [lia|lia| |done]. eapply swaps_trans; [done|]. eapply swaps_mono; [done|lia..]. }
  intros [b2 s4] (Hb2 & Hsw4 & Hp4). pose proof (swaps_sz _ _ _ _ _ Hsw4).
  cbn beta iota. sort_steps. split_and!; [lia|lia|lia| |].
  - eapply swapped_swaps; [done|done|lia..].
  - eapply parted_pivoted; [done|lia..|done].
Qed.

Lemma gapPass_spec s a b :
  0 ≤ a → b ≤ sz s → wp (gapPass data s a b) (swaps a b s).
Proof.
  intros. unfold gapPass.
  apply (wp_loop (λ '(i, s'), a + 6 ≤ i ∧ swaps a b s s') (λ '(i, _), Z.to_nat (b - i)));
    [|split; [lia|constructor]|unfold span; lia].
  intros [i s'] (Hi & Hsw). pose proof (swaps_sz _ _ _ _ _ Hsw).
  destruct (Z.ltb_spec i b); sort_steps; try done; (split; [split; [lia|]|lia]); [|done].
  eapply swapped_swaps; [done|done|lia..].
Qed.

(** Sorted parts around a pivot make a sorted range. *)
Lemma pivoted_sorted s a mlo mhi b :
  pivoted s a mlo mhi b → a ≤ mlo < mhi → mhi ≤ b →
  sortedR s a mlo → sortedR s mhi b → sortedR s a b.
Proof.
  intros (Hl & Hm & Hh) ?? Hs1 Hs2 i j ???.
  destruct (decide (j < mlo)); [apply Hs1; lia|].
  destruct (decide (mhi ≤ i)); [apply Hs2; lia|].
  apply (leq_trans _ _ (at_ s mlo)).
  - destruct (decide (i < mlo)); [apply Hl; lia|apply Hm; lia].
  - destruct (decide (j < mhi)); [apply Hm; lia|apply Hh; lia].
Qed.

Lemma pivoted_swaps s s' a mlo mhi b :
  pivoted s a mlo mhi b → a ≤ mlo < mhi → mhi ≤ b →
  swaps a mlo s s' ∨ swaps mhi b s s' → pivoted s' a mlo mhi b.
Proof.
  intros (Hl & Hm & Hh) ?? Hsw.
  assert (Hmid : ∀ k, mlo ≤ k < mhi → at_ s' k = at_ s k).
  { intros k Hk. destruct Hsw as [Hsw|Hsw]; apply (swaps_out _ _ _ _ _ _ Hsw); lia. }
  split_and!; intros k; rewrite ?(Hmid mlo) by lia; revert k.
  - destruct Hsw as [Hsw|Hsw].
    + by apply (swaps_forall _ _ _ _ _ (λ x, leq lt x (at_ s mlo)) _ _ Hsw).
    + intros k Hk. rewrite (swaps_out _ _ _ _ _ _ Hsw) by lia. by apply Hl.
  - intros k Hk. rewrite Hmid by lia. by apply Hm.
  - destruct Hsw as [Hsw|Hsw].
    + intros k Hk. rewrite (swaps_out _ _ _ _ _ _ Hsw) by lia. by apply Hh.
    + by apply (swaps_forall _ _ _ _ _ (λ x, leq lt (at_ s mlo) x) _ _ Hsw).
Qed.

Lemma quickSortFuel_spec fuel s a b md :
  0 ≤ a ≤ b → b ≤ sz s → (Z.to_nat (b - a) < fuel)%nat →
  wp (quickSortFuel data fuel s a b md) (λ s', swaps a b s s' ∧ sortedR s' a b).
Proof.
  revert s a b md. induction fuel as [|fuel IH]; intros s a b md Ha Hb Hf; [lia|]. simpl.
  destruct (Z.ltb_spec 12 (b - a)).
  - destruct (Z.eqb_spec md 0); [by apply heapSort_spec|]. sort_step.
    eapply wp_mono; [apply doPivot_spec; lia|].
    intros [[mlo mhi] s1] (Hm & Hmb & Hsw1 & Hp1). pose proof (swaps_sz _ _ _ _ _ Hsw1).
    cbn beta iota.
    destruct (mlo - a <? b - mhi); sort_step.
    + eapply wp_mono; [apply (IH s1 a mlo); lia|]. intros s2 (Hsw2 & Hs2).
      pose proof (swaps_sz _ _ _ _ _ Hsw2).
      eapply wp_mono; [apply (IH s2 mhi b); lia|]. intros s3 (Hsw3 & Hs3). split.
      * eapply swaps_trans; [done|].
        eapply swaps_trans; eapply swaps_mono; try done; lia.
      * eapply pivoted_sorted; [|done|done| |done].
        -- eapply pivoted_swaps; [eapply pivoted_swaps|..]; eauto.
        -- eapply sortedR_out; [done| |done]. lia.
    + eapply wp_mono; [apply (IH s1 mhi b); lia|]. intros s2 (Hsw2 & Hs2).
      pose proof (swaps_sz _ _ _ _ _ Hsw2).
      eapply wp_mono; [apply (IH s2 a mlo); lia|]. intros s3 (Hsw3 & Hs3). split.
      * eapply swaps_trans; [done|].
        eapply swaps_trans; eapply swaps_mono; try done; lia.
      * eapply pivoted_sorted; [|done|done|done|].
        -- eapply pivoted_swaps; [eapply pivoted_swaps|..]; eauto.
        -- eapply sortedR_out; [done| |done]. lia.
  - destruct (Z.ltb_spec 1 (b - a)).
    + sort_step. eapply wp_mono; [apply gapPass_spec; lia|]. intros s1 Hsw1.
      pose proof (swaps_sz _ _ _ _ _ Hsw1).
      eapply wp_mono; [apply (insertionSort_spec data lt elems); lia|]. intros s2 (Hsw2 & _ & Hs2).
      split; [|done]. by eapply swaps_trans.
    + sort_step. split; [constructor|]. apply sortedR_single; [done|lia].
Qed.

Lemma quickSort_spec s a b md :
  0 ≤ a ≤ b → b ≤ sz s →
  wp (quickSort data s a b md) (λ s', swaps a b s s' ∧ sortedR s' a b).
Proof. intros. apply quickSortFuel_spec; [done|done|unfold span; lia]. Qed.
End quick.
