(* ===== verification/SortStable.v ===== *)
(** * sort: the stable sort

    [rotate] exchanges two neighbouring blocks, [symMerge] merges two sorted
    ones, and [stable] sorts without changing the order of equivalent
    elements. *)
From S2P Require Import Prelude.
From S2P Require Import SortModel.
From S2P Require Import SortLaws.
From S2P Require Import SortInsertion.

(** Binary search: a test that is true on a prefix of [[i,j)] only. *)
Lemma bisect_spec (p : Z → option bool) (t : Z → bool) i j :
  i ≤ j → (∀ k, i ≤ k < j → p k = Some (t k)) →
  (∀ k k', i ≤ k → k ≤ k' → k' < j → t k' = true → t k = true) →
  wp (bisect p i j) (λ r, i ≤ r ≤ j ∧ (∀ k, i ≤ k < r → t k = true) ∧
                          (∀ k, r ≤ k < j → t k = false)).
Proof.
  intros Hij Hp Hmono. unfold bisect.
  apply (wp_loop (λ '(i', j'), i ≤ i' ∧ i' ≤ j' ∧ j' ≤ j ∧ (∀ k, i ≤ k < i' → t k = true) ∧
      (∀ k, j' ≤ k < j → t k = false)) (λ '(i', j'), Z.to_nat (j' - i')));
    [|split_and!; [lia|lia|lia|intros; lia|intros; lia]|unfold span; lia].
  intros [i' j'] (? & ? & ? & Ht & Hf).
  destruct (Z.ltb_spec i' j').
  - set (h := i' + (j' - i') /t 2). assert (i' ≤ h < j') as Hh by (unfold h; zlia). clearbody h.
    rewrite Hp by lia. simpl. destruct (t h) eqn:E; wp_pure.
    + split; [|lia]. split_and!; [lia|lia|lia| |done].
      intros k Hk. destruct (decide (k < i')); [apply Ht; lia|]. apply (Hmono k h); [lia..|done].
    + split; [|lia]. split_and!; [lia|lia|lia|done|].
      intros k Hk. destruct (decide (j' ≤ k)); [apply Hf; lia|].
      apply not_true_is_false. intros Hk'. rewrite (Hmono h k) in E; [done|lia..|done].
  - wp_pure. split_and!; [lia|lia|done|intros k Hk; apply Hf; lia].
Qed.

(** Two lists that differ by the exchange of two neighbouring blocks. *)
Lemma list_exchange {A} (l' p u v q : list A) :
  let l := p ++ u ++ v ++ q in
  length l' = length l →
  (∀ i, (i < length p)%nat → l' !! i = l !! i) →
  (∀ i, (length p ≤ i < length p + length v)%nat → l' !! i = l !! (i + length u)%nat) →
  (∀ i, (length p + length v ≤ i < length p + length v + length u)%nat →
        l' !! i = l !! (i - length v)%nat) →
  (∀ i, (length p + length v + length u ≤ i < length l)%nat → l' !! i = l !! i) →
  l' = p ++ v ++ u ++ q.
Proof.
  intros l Hlen H1 H2 H3 H4. subst l. rewrite !length_app in *. apply list_eq. intros i.
  destruct (decide (i < length p)%nat); [rewrite H1, !lookup_app_l by lia; done|].
  rewrite (lookup_app_r p (v ++ _)) by lia.
  destruct (decide (i < length p + length v)%nat).
  { rewrite H2 by lia. rewrite (lookup_app_r p), (lookup_app_r u), !lookup_app_l by lia. f_equal. lia. }
  rewrite (lookup_app_r v (u ++ _)) by lia.
  destruct (decide (i < length p + length v + length u)%nat).
  { rewrite H3 by lia. rewrite (lookup_app_r p), !lookup_app_l by lia. f_equal. lia. }
  rewrite (lookup_app_r u q) by lia.
  destruct (decide (i < length l')%nat).
  - rewrite H4, (lookup_app_r p), (lookup_app_r u), (lookup_app_r v) by lia. f_equal. lia.
  - rewrite !lookup_ge_None_2 by lia. done.
Qed.

Section stable.
Context {S A} `{!Inhabited A} (data : Interface S) (lt : A → A → bool) (elems : S → list A).
Context `{!SortLaws data lt elems} `{!StrictWeakOrder lt}.
Abbreviation sz := (sz elems).
Abbreviation at_ := (at_ elems).
Abbreviation sortedR := (sortedR lt elems).
Abbreviation swaps := (swaps elems).
Abbreviation bub s s' := (bubble lt (elems s) (elems s')).

(** *** Rotation *)

Definition blockSwap (a b n k : Z) : Z :=
  if (a <=? k) && (k <? a + n) then k + (b - a)
  else if (b <=? k) && (k <? b + n) then k - (b - a) else k.

Lemma swapRange_spec s a b n :
  0 ≤ a → 0 ≤ n → a + n ≤ b → b + n ≤ sz s →
  wp (swapRange data s a b n) (λ s',
    swaps a (b + n) s s' ∧ ∀ k, at_ s' k = at_ s (blockSwap a b n k)).
Proof.
  intros Ha Hn Hab Hb. unfold swapRange.
  apply (wp_loop (λ '(i, s'), 0 ≤ i ≤ n ∧ swaps a (b + n) s s' ∧
      ∀ k, at_ s' k = at_ s (blockSwap a b i k)) (λ '(i, _), Z.to_nat (n - i)));
    [|split_and!; [lia|lia|constructor|]|unfold span; lia].
  2:{ intros k. unfold blockSwap. zcases; simpl; f_equal; lia. }
  intros [i s'] (Hi & Hsw & Hat). pose proof (swaps_sz _ _ _ _ _ Hsw).
  destruct (Z.ltb_spec i n); sort_steps.
  - split; [|lia]. split_and!; [lia|lia| |].
    + eapply swaps_trans; [done|]. eapply swaps_one; [done|lia..].
    + intros k. at_swap Hsw0. rewrite Hat. unfold blockSwap. zcases; simpl; f_equal; lia.
  - split; [done|]. intros k. rewrite Hat. unfold blockSwap. zcases; simpl; f_equal; lia.
Qed.

(** The index that ends up at [k] when the blocks [[a,m)] and [[m,b)] are
    exchanged. *)
Definition rot (a m b k : Z) : Z :=
  if (a <=? k) && (k <? b) then if k <? a + (b - m) then k + (m - a) else k - (b - m) else k.

Lemma rotate_spec s a m b :
  0 ≤ a → a < m < b → b ≤ sz s →
  wp (rotate data s a m b) (λ s', swaps a b s s' ∧ ∀ k, at_ s' k = at_ s (rot a m b k)).
Proof.
  intros Ha Hm Hb. unfold rotate. sort_step.
  apply (wp_mono _ (λ '(i, s'), 0 < i ∧ a ≤ m - i ∧ m + i ≤ b ∧ swaps a b s s' ∧
    ∀ k, at_ s (rot a m b k) = at_ s' (rot (m - i) m (m + i) k))).
  { apply (wp_loop (λ '(i, j, s'), 0 < i ∧ 0 < j ∧ a ≤ m - i ∧ m + j ≤ b ∧ swaps a b s s' ∧
        ∀ k, at_ s (rot a m b k) = at_ s' (rot (m - i) m (m + j) k))
      (λ '(i, j, _), Z.to_nat (i + j)));
      [|split_and!; [lia|lia|lia|lia|constructor|]|unfold span; lia].
    2:{ intros k. do 2 f_equal; lia. }
    intros [[i j] s'] (Hi & Hj & Hai & Hbj & Hsw & Hat). pose proof (swaps_sz _ _ _ _ _ Hsw).
    destruct (Z.eqb_spec i j) as [->|]; [sort_steps; split_and!; done|].
    destruct (Z.ltb_spec j i); sort_step.
    - eapply wp_mono; [apply swapRange_spec; lia|]. intros s2 [Hsw2 Hat2]. sort_steps.
      split; [|lia]. split_and!; [lia|lia|lia|lia| |].
      + eapply swaps_trans; [done|]. eapply swaps_mono; [done|lia..].
      + intros k. rewrite Hat, Hat2. f_equal.
        unfold rot. zcases; simpl; try lia; unfold blockSwap; zcases; simpl; lia.
    - eapply wp_mono; [apply swapRange_spec; lia|]. intros s2 [Hsw2 Hat2]. sort_steps.
      split; [|lia]. split_and!; [lia|lia|lia|lia| |].
      + eapply swaps_trans; [done|]. eapply swaps_mono; [done|lia..].
      + intros k. rewrite Hat, Hat2. f_equal.
        unfold rot. zcases; simpl; try lia; unfold blockSwap; zcases; simpl; lia. }
  intros [i s1] (Hi & Hai & Hbi & Hsw & Hat). pose proof (swaps_sz _ _ _ _ _ Hsw). cbn beta iota.
  eapply wp_mono; [apply swapRange_spec; lia|]. intros s2 [Hsw2 Hat2]. split.
  - eapply swaps_trans; [done|]. eapply swaps_mono; [done|lia..].
  - intros k. rewrite Hat, Hat2. f_equal.
        unfold rot. zcases; simpl; try lia; unfold blockSwap; zcases; simpl; lia.
Qed.

(** The list of a segment [[a,b)] of positions. *)
Definition seg (l : list A) (a b : Z) : list A := take (Z.to_nat (b - a)) (drop (Z.to_nat a) l).

Lemma length_seg l a b : 0 ≤ a ≤ b → b ≤ zlen l → length (seg l a b) = Z.to_nat (b - a).
Proof. intros. unfold seg. rewrite length_take, length_drop. lia. Qed.

Lemma seg_cut l a m b : 0 ≤ a ≤ m → m ≤ b → seg l a b = seg l a m ++ seg l m b.
Proof.
  intros. unfold seg.
  replace (drop (Z.to_nat m) l) with (drop (Z.to_nat (m - a)) (drop (Z.to_nat a) l))
    by (rewrite drop_drop; f_equal; lia).
  rewrite take_take_drop. f_equal. lia.
Qed.

Lemma seg_all l : seg l 0 (zlen l) = l.
Proof. unfold seg. simpl. rewrite drop_0. apply take_ge. lia. Qed.

Lemma elem_of_seg s a b x :
  0 ≤ a ≤ b → b ≤ sz s → x ∈ seg (elems s) a b → ∃ k, a ≤ k < b ∧ at_ s k = x.
Proof.
  intros Ha Hb Hx. apply list_elem_of_lookup in Hx as [i Hx].
  pose proof (lookup_lt_Some _ _ _ Hx) as Hi. rewrite length_seg in Hi by (unfold SortLaws.sz in Hb; lia).
  unfold seg in Hx. rewrite lookup_take_lt, lookup_drop in Hx by lia.
  exists (a + Z.of_nat i). split; [lia|].
  pose proof (at_lookup elems s (a + Z.of_nat i) ltac:(lia)) as E.
  replace (Z.to_nat (a + Z.of_nat i)) with (Z.to_nat a + i)%nat in E by lia. congruence.
Qed.

(** A run whose elements moved like [rot] exchanged two segments. *)
Lemma rot_elems s s' a m b :
  0 ≤ a → a ≤ m ≤ b → b ≤ sz s → sz s' = sz s →
  (∀ k, at_ s' k = at_ s (rot a m b k)) →
  elems s = seg (elems s) 0 a ++ seg (elems s) a m ++ seg (elems s) m b ++ seg (elems s) b (sz s) ∧
  elems s' = seg (elems s) 0 a ++ seg (elems s) m b ++ seg (elems s) a m ++ seg (elems s) b (sz s).
Proof.
  intros Ha Hm Hb Hsz Hat. unfold SortLaws.sz in *. set (l := elems s) in *.
  assert (El : l = seg l 0 a ++ seg l a m ++ seg l m b ++ seg l b (zlen l)).
  { rewrite <-!seg_cut by lia. by rewrite seg_all. }
  split; [done|].
  assert (Hlk : ∀ k k', 0 ≤ k < zlen l → rot a m b k = k' →
    elems s' !! Z.to_nat k = l !! Z.to_nat k').
  { intros k k' Hk <-. rewrite (at_lookup elems s' k) by (unfold SortLaws.sz; lia).
    rewrite Hat. symmetry. apply at_lookup. unfold SortLaws.sz. fold l.
    unfold rot. zcases; simpl; lia. }
  apply list_exchange; rewrite <-El, ?length_seg by lia; [lia|intros i Hi..].
  all: rewrite <-(Nat2Z.id i) at 1.
  1: rewrite (Hlk _ (Z.of_nat i)).
  4: rewrite (Hlk _ (Z.of_nat i + (m - a))).
  7: rewrite (Hlk _ (Z.of_nat i - (b - m))).
  10: rewrite (Hlk _ (Z.of_nat i)).
  all: try (unfold rot; zcases; simpl; lia). all: try lia. all: f_equal; lia.
Qed.

(** Exchanging neighbouring blocks, the second strictly below the first, is
    stable. *)
Lemma rot_bubble s s' a m b :
  0 ≤ a → a ≤ m ≤ b → b ≤ sz s → sz s' = sz s →
  (∀ k, at_ s' k = at_ s (rot a m b k)) →
  (∀ x y, a ≤ x < m → m ≤ y < b → lt (at_ s y) (at_ s x) = true) →
  bub s s'.
Proof.
  intros Ha Hm Hb Hsz Hat Hlt. destruct (rot_elems s s' a m b) as [E ->]; [done..|].
  rewrite E at 1. rewrite (app_assoc (seg _ a m)), (app_assoc (seg _ m b)).
  apply bubble_app, bubble_blocks; [done|]. intros x y Hx Hy.
  apply elem_of_seg in Hx as (i & Hi & <-); [|lia|lia].
  apply elem_of_seg in Hy as (j & Hj & <-); [|lia|lia]. by apply Hlt.
Qed.

(** *** Moving one element past a block *)

Lemma shiftUp_spec s a n :
  0 ≤ a ≤ n → n < sz s → (∀ k, a < k ≤ n → lt (at_ s k) (at_ s a) = true) →
  wp (shiftUp data s a n) (λ s', swaps a (n + 1) s s' ∧ bub s s' ∧
    ∀ k, at_ s' k = at_ s (rot a (a + 1) (n + 1) k)).
Proof.
  intros Ha Hn Hlt. unfold shiftUp.
  apply (wp_loop (λ '(k, s'), a ≤ k ≤ n ∧ swaps a (n + 1) s s' ∧ bub s s' ∧
      ∀ x, at_ s' x = at_ s (rot a (a + 1) (k + 1) x)) (λ '(k, _), Z.to_nat (n - k)));
    [|split_and!; [lia|lia|constructor|constructor|]|unfold span; lia].
  2:{ intros k. unfold rot. zcases; simpl; f_equal; lia. }
  intros [k s'] (Hk & Hsw & Hb & Hat). pose proof (swaps_sz _ _ _ _ _ Hsw).
  destruct (Z.ltb_spec k n); sort_steps.
  - assert (Hsw1 : swapped elems (k + 1) (k + 1 - 1) s' s0).
    { replace (k + 1 - 1) with k by lia. unfold swapped in *. rewrite Hsw0. apply list_swap_comm. }
    split; [|lia]. split_and!; [lia|lia| | |].
    + eapply swaps_trans; [done|]. eapply swaps_one; [done|lia..].
    + eapply bubble_trans; [done|]. eapply swapped_bubble; [exact Hsw1|lia|].
      rewrite !Hat. unfold rot. zcases; simpl; try lia.
      replace (k + 1 - 1 - (k + 1 - (a + 1))) with a by lia. apply Hlt; lia.
    + intros x. at_swap Hsw0. rewrite Hat. f_equal. unfold rot. zcases; simpl; try lia; zcases; simpl; lia.
  - replace k with n in * by lia. done.
Qed.

Lemma shiftDown_spec s m i :
  0 ≤ i ≤ m → m < sz s → (∀ k, i ≤ k < m → lt (at_ s m) (at_ s k) = true) →
  wp (shiftDown data s m i) (λ s', swaps i (m + 1) s s' ∧ bub s s' ∧
    ∀ k, at_ s' k = at_ s (rot i m (m + 1) k)).
Proof.
  intros Hi Hm Hlt. unfold shiftDown.
  apply (wp_loop (λ '(k, s'), i ≤ k ≤ m ∧ swaps i (m + 1) s s' ∧ bub s s' ∧
      ∀ x, at_ s' x = at_ s (rot k m (m + 1) x)) (λ '(k, _), Z.to_nat (k - i)));
    [|split_and!; [lia|lia|constructor|constructor|]|unfold span; lia].
  2:{ intros k. unfold rot. zcases; simpl; f_equal; lia. }
  intros [k s'] (Hk & Hsw & Hb & Hat). pose proof (swaps_sz _ _ _ _ _ Hsw).
  destruct (Z.ltb_spec i k); sort_steps.
  - split; [|lia]. split_and!; [lia|lia| | |].
    + eapply swaps_trans; [done|]. eapply swaps_one; [done|lia..].
    + eapply bubble_trans; [done|]. eapply swapped_bubble; [done|lia|].
      rewrite !Hat. unfold rot. zcases; simpl; try lia.
      replace (k + (m - k)) with m by lia. apply Hlt; lia.
    + intros x. at_swap Hsw0. rewrite Hat. f_equal. unfold rot. zcases; simpl; try lia; zcases; simpl; lia.
  - replace k with i in * by lia. done.
Qed.

(** *** SymMerge *)

Lemma merge_first s a b :
  0 ≤ a → a + 1 < b → b ≤ sz s → sortedR s (a + 1) b →
  wp (i ← bisect (λ h, data.(Less) s h a) (a + 1) b; shiftUp data s a (i - 1)) (λ s',
    swaps a b s s' ∧ bub s s' ∧ sortedR s' a b).
Proof.
  intros Ha Hb Hsz Hs. sort_step.
  eapply wp_mono; [apply (bisect_spec _ (λ h, lt (at_ s h) (at_ s a))); [lia| |]|].
  - intros k Hk. by rewrite (less_at data lt elems) by lia.
  - intros k k' ??? Hlt. eapply leq_lt_trans; [done| |done]. apply Hs; lia.
  - intros i (Hi & Ht & Hf). eapply wp_mono; [apply shiftUp_spec; [lia|lia|]|].
    { intros k Hk. apply Ht; lia. }
    intros s' (Hsw & Hbub & Hat). split_and!; [eapply swaps_mono; [done|lia..]|done|].
    intros p q ???. rewrite !Hat. replace (i - 1 + 1) with i by lia.
    unfold rot. zcases; simpl; try lia; try (apply Hs; lia).
    + replace (q - (i - (a + 1))) with a by lia. apply lt_leq; [done|]. apply Ht; lia.
    + replace (p - (i - (a + 1))) with a by lia. replace (q - (i - (a + 1))) with a by lia.
      by apply leq_refl.
    + replace (p - (i - (a + 1))) with a by lia. apply Hf; lia.
Qed.

Lemma merge_last s a m :
  0 ≤ a → a < m → m + 1 ≤ sz s → sortedR s a m →
  wp (i ← bisect (λ h, negb <$> data.(Less) s m h) a m; shiftDown data s m i) (λ s',
    swaps a (m + 1) s s' ∧ bub s s' ∧ sortedR s' a (m + 1)).
Proof.
  intros Ha Hm Hsz Hs. sort_step.
  eapply wp_mono; [apply (bisect_spec _ (λ h, negb (lt (at_ s m) (at_ s h)))); [lia| |]|].
  - intros k Hk. rewrite (less_at data lt elems) by lia. done.
  - intros k k' ???. rewrite !negb_true_iff. intros Hlt.
    eapply (leq_trans lt); [|exact Hlt]. apply Hs; lia.
  - intros i (Hi & Ht & Hf). eapply wp_mono; [apply shiftDown_spec; [lia|lia|]|].
    { intros k Hk. rewrite <-negb_false_iff. apply Hf; lia. }
    intros s' (Hsw & Hbub & Hat). split_and!; [eapply swaps_mono; [done|lia..]|done|].
    intros p q ???. rewrite !Hat.
    unfold rot. zcases; simpl; try lia; try (apply Hs; lia).
    + replace (p + (m - i)) with m by lia. replace (q + (m - i)) with m by lia. by apply leq_refl.
    + replace (q + (m - i)) with m by lia. unfold leq. rewrite <-negb_true_iff. apply Ht; lia.
    + replace (p + (m - i)) with m by lia. apply lt_leq; [done|].
      rewrite <-negb_false_iff. apply Hf; lia.
Qed.

(** What the symmetric binary search finds: the parts [[a,start)] and
    [[end,b)] stay where they are and [[start,m)], [[m,end)] change places. *)
Definition symCut (s : S) (a m b mid start end_ : Z) : Prop :=
  a ≤ start ≤ m ∧ m ≤ end_ ≤ b ∧ mid - start = end_ - m ∧ start ≤ mid ≤ end_ ∧
  (a < start → end_ < b → leq lt (at_ s (start - 1)) (at_ s end_)) ∧
  (start < m → m < end_ → lt (at_ s (end_ - 1)) (at_ s start) = true).

Lemma symSearch_spec s a m b :
  0 ≤ a → a < m < b → b ≤ sz s → sortedR s a m → sortedR s m b →
  let mid := a + (b - a) /t 2 in
  let n := mid + m in
  let '(start, r) := if mid <? m then (n - b, mid) else (a, m) in
  wp (bisect (λ c, negb <$> data.(Less) s (n - 1 - c) c) start r)
     (λ start, symCut s a m b mid start (n - start)).
Proof.
  intros Ha Hm Hb Hs1 Hs2. cbn zeta. set (mid := a + (b - a) /t 2).
  assert (2 * mid ≤ a + b ≤ 2 * mid + 1) as Hmid by (unfold mid; zlia). clearbody mid.
  assert (Hgo : ∀ start0 r0, a ≤ start0 → start0 ≤ r0 → r0 ≤ m → mid + m - b ≤ start0 → r0 ≤ mid →
    (start0 = a ∨ start0 = mid + m - b) → (r0 = m ∨ r0 = mid) →
    wp (bisect (λ c, negb <$> data.(Less) s (mid + m - 1 - c) c) start0 r0)
       (λ start, symCut s a m b mid start (mid + m - start))).
  { intros start0 r0 ????? H0 Hr.
    eapply wp_mono; [apply (bisect_spec _ (λ c, negb (lt (at_ s (mid + m - 1 - c)) (at_ s c)))); [lia| |]|].
    - intros k Hk. rewrite (less_at data lt elems) by lia. done.
    - intros k k' ???. rewrite !negb_true_iff. intros Hle.
      eapply (leq_trans lt _ (at_ s k')); [apply Hs1; lia|].
      eapply (leq_trans lt); [exact Hle|]. apply Hs2; lia.
    - intros start (Hst & Ht & Hf). unfold symCut. split_and!; try lia.
      + intros ??. specialize (Ht (start - 1) ltac:(lia)). rewrite negb_true_iff in Ht.
        by replace (mid + m - start) with (mid + m - 1 - (start - 1)) by lia.
      + intros ??. specialize (Hf start ltac:(lia)). rewrite negb_false_iff in Hf.
        by replace (mid + m - start - 1) with (mid + m - 1 - start) by lia. }
  destruct (Z.ltb_spec mid m); apply Hgo; lia.
Qed.

(** After the rotation the two halves are two sorted runs each, and the left
    half is not above the right one. *)
Lemma symCut_rotated s s1 a m b mid start end_ :
  0 ≤ a → a < m < b → b ≤ sz s → sz s1 = sz s →
  sortedR s a m → sortedR s m b → symCut s a m b mid start end_ →
  (∀ k, at_ s1 k = at_ s (rot start m end_ k)) →
  bub s s1 ∧ sortedR s1 a start ∧ sortedR s1 start mid ∧ sortedR s1 mid end_ ∧
  sortedR s1 end_ b ∧ (∀ x y, a ≤ x < mid → mid ≤ y < b → leq lt (at_ s1 x) (at_ s1 y)).
Proof.
  intros Ha Hm Hb Hsz Hs1 Hs2 (Hst & Hen & Hmid & Hse & F1 & F2) Hat.
  assert (Hstrict : ∀ x y, start ≤ x < m → m ≤ y < end_ → lt (at_ s y) (at_ s x) = true).
  { intros x y Hx Hy. eapply lt_leq_trans; [done| |apply (Hs1 start x); lia].
    eapply leq_lt_trans; [done|apply (Hs2 y (end_ - 1)); lia|apply F2; lia]. }
  split_and!.
  - eapply rot_bubble; [..|done|done]; lia.
  - intros p q ???. rewrite !Hat. unfold rot. zcases; simpl; try lia. apply Hs1; lia.
  - intros p q ???. rewrite !Hat. unfold rot. zcases; simpl; try lia. apply Hs2; lia.
  - intros p q ???. rewrite !Hat. unfold rot. zcases; simpl; try lia. apply Hs1; lia.
  - intros p q ???. rewrite !Hat. unfold rot. zcases; simpl; try lia. apply Hs2; lia.
  - intros x y ??. rewrite !Hat. unfold rot. zcases; simpl; try lia.
    + apply lt_leq; [done|]. apply Hstrict; lia.
    + apply Hs1; lia.
    + apply Hs2; lia.
    + apply (leq_trans lt _ (at_ s (start - 1))); [apply Hs1; lia|].
      apply (leq_trans lt _ (at_ s end_)); [apply F1; lia|apply Hs2; lia].
Qed.

(** The merge of a half that the cut has left as two runs, one of which may be
    empty. *)
Lemma merge_half s lo c hi (merge : option S) :
  lo ≤ c ≤ hi → sortedR s lo c → sortedR s c hi →
  (lo < c < hi → wp merge (λ s', swaps lo hi s s' ∧ bub s s' ∧ sortedR s' lo hi)) →
  wp (if (lo <? c) && (c <? hi) then merge else Some s) (λ s', swaps lo hi s s' ∧ bub s s' ∧ sortedR s' lo hi).
Proof.
  intros Hc H1 H2 Hm. destruct (Z.ltb_spec lo c), (Z.ltb_spec c hi); cbn [andb]; [by apply Hm| | |];
    apply wp_Some; (split_and!; [constructor..|]).
  - by replace hi with c by lia.
  - by replace lo with c by lia.
  - apply sortedR_single; [done|lia].
Qed.

(** Merging both halves, neither of which has an element above the other's. *)
Lemma halves_sorted s1 s2 s3 a mid b :
  0 ≤ a → a ≤ mid ≤ b → b ≤ sz s1 →
  (∀ x y, a ≤ x < mid → mid ≤ y < b → leq lt (at_ s1 x) (at_ s1 y)) →
  swaps a mid s1 s2 → swaps mid b s2 s3 → sortedR s2 a mid → sortedR s3 mid b → sortedR s3 a b.
Proof.
  intros Ha Hmid Hb Hcross Hsw2 Hsw3 Hsl Hsr p q ???. pose proof (swaps_sz _ _ _ _ _ Hsw2).
  destruct (decide (q < mid)); [rewrite !(swaps_out _ _ _ s2 s3) by (done || lia); apply Hsl; lia|].
  destruct (decide (mid ≤ p)); [apply Hsr; lia|]. rewrite (swaps_out _ _ _ s2 s3 p) by (done || lia).
  apply (swaps_forall elems _ _ mid b (λ v, leq lt (at_ s2 p) v) _ _ Hsw3); [lia|lia| |lia].
  intros y Hy. rewrite (swaps_out _ _ _ s1 s2 y) by (done || lia).
  apply (swaps_forall elems _ _ a mid (λ v, leq lt v (at_ s1 y)) _ _ Hsw2); [lia|lia| |lia].
  intros x Hx. apply Hcross; lia.
Qed.

Lemma symMergeFuel_spec fuel s a m b :
  0 ≤ a → a < m < b → b ≤ sz s → (Z.to_nat (b - a) < fuel)%nat →
  sortedR s a m → sortedR s m b →
  wp (symMergeFuel data fuel s a m b) (λ s', swaps a b s s' ∧ bub s s' ∧ sortedR s' a b).
Proof.
  revert s a m b. induction fuel as [|fuel IH]; intros s a m b Ha Hm Hb Hf Hs1 Hs2; [lia|].
  cbn [symMergeFuel].
  destruct (Z.eqb_spec (m - a) 1).
  { replace m with (a + 1) in * by lia. apply merge_first; [lia..|done]. }
  destruct (Z.eqb_spec (b - m) 1).
  { replace b with (m + 1) in * by lia. apply merge_last; [lia..|done]. }
  pose proof (symSearch_spec s a m b Ha Hm Hb Hs1 Hs2) as Hsearch. cbn zeta in Hsearch |- *.
  set (mid := a + (b - a) /t 2) in *.
  assert (2 * mid ≤ a + b ≤ 2 * mid + 1) as Hmid by (unfold mid; zlia). clearbody mid.
  destruct (if mid <? m then _ else _) as [start0 r0].
  sort_step. eapply wp_mono; [exact Hsearch|]. clear Hsearch. intros start Hcut. cbn beta in Hcut |- *.
  set (end_ := mid + m - start) in *. clearbody end_.
  pose proof Hcut as (Hst & Hen & Hms & Hse & _).
  sort_step. apply (wp_mono _ (λ s1, swaps a b s s1 ∧ ∀ k, at_ s1 k = at_ s (rot start m end_ k))).
  { destruct (Z.ltb_spec start m), (Z.ltb_spec m end_); cbn [andb];
      [|sort_step; split; [constructor|intros k; unfold rot; zcases; simpl; f_equal; lia]..].
    eapply wp_mono; [apply rotate_spec; lia|]. intros s1 [Hsw Hat].
    split; [eapply swaps_mono; [done|lia..]|done]. }
  intros s1 [Hsw1 Hat1]. pose proof (swaps_sz _ _ _ _ _ Hsw1).
  destruct (symCut_rotated s s1 a m b mid start end_) as (Hb1 & R1 & R2 & R3 & R4 & Hcross);
    [done..|]. clear Hat1.
  sort_step. eapply wp_mono; [apply (merge_half s1 a start mid); [lia|done|done|intros; apply IH; done || lia]|].
  intros s2 (Hsw2 & Hb2 & Hsl). pose proof (swaps_sz _ _ _ _ _ Hsw2).
  assert (sortedR s2 mid end_ ∧ sortedR s2 end_ b) as [R3' R4'] by (split; (eapply sortedR_out; [done|lia|done])).
  eapply wp_mono; [apply (merge_half s2 mid end_ b); [lia|done|done|intros; apply IH; done || lia]|].
  intros s3 (Hsw3 & Hb3 & Hsr). split_and!.
  - eapply swaps_trans; [done|]. eapply swaps_trans; eapply swaps_mono; try done; lia.
  - eapply bubble_trans; [done|]. by eapply bubble_trans.
  - eapply (halves_sorted s1 s2 s3 a mid b); done || lia.
Qed.

Lemma symMerge_spec s a m b :
  0 ≤ a → a < m < b → b ≤ sz s → sortedR s a m → sortedR s m b →
  wp (symMerge data s a m b) (λ s', swaps a b s s' ∧ bub s s' ∧ sortedR s' a b).
Proof. intros. apply symMergeFuel_spec; try done. unfold span. lia. Qed.

(** *** The passes of [stable] *)

(** The blocks [[0,bs)], [[bs,2bs)], ... of [[0,n)] are sorted. *)
Definition blocksSorted (s : S) (bs n : Z) : Prop :=
  ∀ c, 0 ≤ c → sortedR s (c * bs) (Z.min n ((c + 1) * bs)).

Lemma blocksSorted_all s bs n : blocksSorted s bs n → n ≤ bs → sortedR s 0 n.
Proof. intros H ?. eapply sortedR_sub; [apply (H 0)|..]; lia. Qed.

Lemma sortBlocks_spec s n bs :
  0 < bs → 0 ≤ n ≤ sz s →
  wp (sortBlocks data s n bs) (λ s', swaps 0 n s s' ∧ bub s s' ∧ blocksSorted s' bs n).
Proof.
  intros Hbs Hn. unfold sortBlocks. sort_step.
  apply (wp_mono _ (λ '(a, s'), ∃ q, 0 ≤ q ∧ a = q * bs ∧ a ≤ n < a + bs ∧ swaps 0 n s s' ∧ bub s s' ∧
    ∀ c, 0 ≤ c < q → sortedR s' (c * bs) ((c + 1) * bs))).
  { apply (wp_loop (λ '(a, b, s'), ∃ q, 0 ≤ q ∧ a = q * bs ∧ b = a + bs ∧ a ≤ n ∧ swaps 0 n s s' ∧
        bub s s' ∧ ∀ c, 0 ≤ c < q → sortedR s' (c * bs) ((c + 1) * bs))
      (λ '(a, b, _), Z.to_nat (n - a)));
      [|exists 0; split_and!; [lia|lia|lia|lia|constructor|constructor|intros; lia]|unfold span; lia].
    intros [[a b] s'] (q & Hq & Ha & Hb & Han & Hsw & Hbub & Hs).
    pose proof (swaps_sz _ _ _ _ _ Hsw). destruct (Z.leb_spec b n); sort_step.
    - eapply wp_mono; [apply (insertionSort_spec data lt elems); lia|].
      intros s2 (Hsw2 & Hb2 & Hs2). sort_step. split; [|lia].
      exists (q + 1). split_and!; [lia|lia|lia|lia| | |].
      + eapply swaps_trans; [done|]. eapply swaps_mono; [done|lia..].
      + by eapply bubble_trans.
      + intros c Hc. destruct (decide (c = q)) as [->|].
        * by replace ((q + 1) * bs) with b by lia; rewrite <-Ha.
        * eapply sortedR_out; [done| |apply Hs; lia]. nia.
    - exists q. split_and!; [lia..|done|done|done]. }
  intros [a s1] (q & Hq & Ha & Han & Hsw & Hbub & Hs). pose proof (swaps_sz _ _ _ _ _ Hsw).
  eapply wp_mono; [apply (insertionSort_spec data lt elems); lia|].
  intros s2 (Hsw2 & Hb2 & Hs2). split_and!.
  - eapply swaps_trans; [done|]. eapply swaps_mono; [done|lia..].
  - by eapply bubble_trans.
  - intros c Hc. destruct (decide (c < q)).
    + eapply sortedR_out; [done|nia|]. eapply sortedR_sub; [apply (Hs c); lia|lia|lia].
    + destruct (decide (c = q)) as [->|]; [eapply sortedR_sub; [done|lia|lia]|].
      apply sortedR_single; [done|nia].
Qed.

Lemma mergePass_spec s n bs :
  0 < bs → 0 ≤ n ≤ sz s → blocksSorted s bs n →
  wp (mergePass data s n bs) (λ s', swaps 0 n s s' ∧ bub s s' ∧ blocksSorted s' (bs * 2) n).
Proof.
  intros Hbs Hn Hblk. unfold mergePass. sort_step.
  apply (wp_mono _ (λ '(a, s'), ∃ q, 0 ≤ q ∧ a = q * (bs * 2) ∧ a ≤ n < a + bs * 2 ∧
    swaps 0 a s s' ∧ bub s s' ∧
    ∀ c, 0 ≤ c < q → sortedR s' (c * (bs * 2)) ((c + 1) * (bs * 2)))).
  { apply (wp_loop (λ '(a, b, s'), ∃ q, 0 ≤ q ∧ a = q * (bs * 2) ∧ b = a + bs * 2 ∧ a ≤ n ∧
        swaps 0 a s s' ∧ bub s s' ∧
        ∀ c, 0 ≤ c < q → sortedR s' (c * (bs * 2)) ((c + 1) * (bs * 2)))
      (λ '(a, b, _), Z.to_nat (n - a)));
      [|exists 0; split_and!; [lia|lia|lia|lia|constructor|constructor|intros; lia]|unfold span; lia].
    intros [[a b] s'] (q & Hq & Ha & Hb & Han & Hsw & Hbub & Hs).
    pose proof (swaps_sz _ _ _ _ _ Hsw). destruct (Z.leb_spec b n); sort_step.
    - eapply wp_mono; [apply symMerge_spec; [lia|lia|lia|..]|].
      + eapply sortedR_out; [done|lia|]. eapply sortedR_sub; [apply (Hblk (2 * q)); lia|lia|lia].
      + eapply sortedR_out; [done|lia|]. eapply sortedR_sub; [apply (Hblk (2 * q + 1)); lia|lia|lia].
      + intros s2 (Hsw2 & Hb2 & Hs2). sort_step. split; [|lia].
        exists (q + 1). split_and!; [lia|lia|lia|lia| | |].
        * eapply swaps_trans; eapply swaps_mono; try done; lia.
        * by eapply bubble_trans.
        * intros c Hc. destruct (decide (c = q)) as [->|].
          -- by replace ((q + 1) * (bs * 2)) with b by lia; rewrite <-Ha.
          -- eapply sortedR_out; [done| |apply Hs; lia]. nia.
    - exists q. split_and!; [lia..|done|done|done]. }
  intros [a s1] (q & Hq & Ha & Han & Hsw & Hbub & Hs). pose proof (swaps_sz _ _ _ _ _ Hsw).
  assert (Hl : sortedR s1 a (Z.min n (a + bs))).
  { eapply sortedR_out; [done|lia|]. eapply sortedR_sub; [apply (Hblk (2 * q)); lia|lia|lia]. }
  assert (Hr : sortedR s1 (a + bs) n).
  { eapply sortedR_out; [done|lia|]. eapply sortedR_sub; [apply (Hblk (2 * q + 1)); lia|lia|lia]. }
  cbn beta iota zeta.
  apply (wp_mono _ (λ s2, swaps a n s1 s2 ∧ bub s1 s2 ∧ sortedR s2 a n)).
  { destruct (Z.ltb_spec (a + bs) n).
    - apply symMerge_spec; [lia|lia|lia| |done]. by rewrite Z.min_r in Hl by lia.
    - sort_step. split_and!; [constructor|constructor|]. by rewrite Z.min_l in Hl by lia. }
  intros s2 (Hsw2 & Hb2 & Hs2). split_and!.
  - eapply swaps_trans; eapply swaps_mono; try done; lia.
  - by eapply bubble_trans.
  - intros c Hc. destruct (decide (c < q)).
    + eapply sortedR_out; [done|nia|]. eapply sortedR_sub; [apply (Hs c); lia|lia|lia].
    + destruct (decide (c = q)) as [->|]; [eapply sortedR_sub; [done|lia|lia]|].
      apply sortedR_single; [done|nia].
Qed.

Lemma stable_spec s n :
  0 ≤ n ≤ sz s →
  wp (stable data s n) (λ s', swaps 0 n s s' ∧ bub s s' ∧ sortedR s' 0 n).
Proof.
  intros Hn. unfold stable. cbn zeta. sort_step.
  eapply wp_mono; [apply sortBlocks_spec; lia|]. intros s1 (Hsw1 & Hb1 & Hs1).
  pose proof (swaps_sz _ _ _ _ _ Hsw1).
  apply (wp_loop (λ '(bs, s'), 0 < bs ∧ swaps 0 n s s' ∧ bub s s' ∧ blocksSorted s' bs n)
    (λ '(bs, _), Z.to_nat (n - bs))); [|done|unfold span; lia].
  intros [bs s2] (Hbs & Hsw2 & Hb2 & Hs2). pose proof (swaps_sz _ _ _ _ _ Hsw2).
  destruct (Z.ltb_spec bs n); sort_step.
  - eapply wp_mono; [apply mergePass_spec; [lia|lia|done]|]. intros s3 (Hsw3 & Hb3 & Hs3).
    sort_step. split; [|lia]. split_and!; [lia| | |done].
    + by eapply swaps_trans.
    + by eapply bubble_trans.
  - split_and!; [done|done|]. by eapply blocksSorted_all.
Qed.
End stable.
