(* ===== verification/SortFunc.v ===== *)
(** * sort: the generated variants of sort/zfuncversion.go, and the entry points

    zfuncversion.go is sort.go with the [Interface] replaced by a pair of
    functions [lessSwap]; [Sort], [Stable] and [With] choose between the two.
    The loops that only read ([scanUp], [scanDown], [bisect]) are shared. *)
From S2P Require Import Prelude.
From S2P Require Import SortModel.

Section func_algorithms.
Context {S : Type} (data : lessSwap S).

Definition insertOne_func (a i : Z) (s : S) : option S :=
  loop (span a i) (λ '(j, s),
    if a <? j then
      l ← data.(ls_Less) s j (j - 1);
      if (l : bool) then
        s ← data.(ls_Swap) s j (j - 1);
        continue (j - 1, s)
      else break s
    else break s) (i, s).

Definition insertionSort_func (s : S) (a b : Z) : option S :=
  loop (span a b) (λ '(i, s),
    if i <? b then
      s ← insertOne_func a i s;
      continue (i + 1, s)
    else break s) (a + 1, s).

Definition siftDown_func (s : S) (lo hi first : Z) : option S :=
  loop (span lo hi) (λ '(root, s),
    let child := 2 * root + 1 in
    if hi <=? child then break s else
    child ← (if child + 1 <? hi then
               l ← data.(ls_Less) s (first + child) (first + child + 1);
               Some (if (l : bool) then child + 1 else child)
             else Some child);
    l ← data.(ls_Less) s (first + root) (first + child);
    if negb l then break s else
    s ← data.(ls_Swap) s (first + root) (first + child);
    continue (child, s)) (lo, s).

Definition heapSort_func (s : S) (a b : Z) : option S :=
  let first := a in
  let lo := 0 in
  let hi := b - a in
  s ← loop (span 0 (hi + 1)) (λ '(i, s),
    if 0 <=? i then
      s ← siftDown_func s i hi first;
      continue (i - 1, s)
    else break s) ((hi - 1) /t 2, s);
  loop (span 0 (hi + 1)) (λ '(i, s),
    if 0 <=? i then
      s ← data.(ls_Swap) s first (first + i);
      s ← siftDown_func s lo i first;
      continue (i - 1, s)
    else break s) (hi - 1, s).

Definition medianOfThree_func (s : S) (m1 m0 m2 : Z) : option S :=
  l ← data.(ls_Less) s m1 m0;
  s ← (if (l : bool) then data.(ls_Swap) s m1 m0 else Some s);
  l ← data.(ls_Less) s m2 m1;
  if (l : bool) then
    s ← data.(ls_Swap) s m2 m1;
    l ← data.(ls_Less) s m1 m0;
    if (l : bool) then data.(ls_Swap) s m1 m0 else Some s
  else Some s.

Definition swapRange_func (s : S) (a b n : Z) : option S :=
  loop (span 0 n) (λ '(i, s),
    if i <? n then
      s ← data.(ls_Swap) s (a + i) (b + i);
      continue (i + 1, s)
    else break s) (0, s).

Definition choosePivot_func (s : S) (lo hi : Z) : option S :=
  let m := lo + (hi - lo) /t 2 in
  s ← (if 40 <? hi - lo then
         let e := (hi - lo) /t 8 in
         s ← medianOfThree_func s lo (lo + e) (lo + 2 * e);
         s ← medianOfThree_func s m (m - e) (m + e);
         medianOfThree_func s (hi - 1) (hi - 1 - e) (hi - 1 - 2 * e)
       else Some s);
  medianOfThree_func s lo m (hi - 1).

Definition partitionLoop_func (pivot b c : Z) (s : S) : option (Z * Z * S) :=
  loop (span b c) (λ '(b, c, s),
    b ← scanUp (λ b, negb <$> data.(ls_Less) s pivot b) b c;
    c ← scanDown (λ c1, data.(ls_Less) s pivot c1) b c;
    if c <=? b then break (b, c, s) else
    s ← data.(ls_Swap) s b (c - 1);
    continue (b + 1, c - 1, s)) (b, c, s).

Definition testDups_func (lo hi m pivot b c : Z) (s : S) : option (Z * Z * S * bool) :=
  let dups := 0 in
  l ← data.(ls_Less) s pivot (hi - 1);
  '(s, c, dups) ← (if negb l then
                     s ← data.(ls_Swap) s c (hi - 1);
                     Some (s, c + 1, dups + 1)
                   else Some (s, c, dups));
  l ← data.(ls_Less) s (b - 1) pivot;
  '(b, dups) ← (if negb l then Some (b - 1, dups + 1) else Some (b, dups));
  l ← data.(ls_Less) s m pivot;
  '(s, b, dups) ← (if negb l then
                     s ← data.(ls_Swap) s m (b - 1);
                     Some (s, b - 1, dups + 1)
                   else Some (s, b, dups));
  Some (b, c, s, 1 <? dups).

Definition protectLoop_func (pivot a b : Z) (s : S) : option (Z * Z * S) :=
  loop (span a b) (λ '(a, b, s),
    b ← scanDown (λ b1, negb <$> data.(ls_Less) s b1 pivot) a b;
    a ← scanUp (λ a, data.(ls_Less) s a pivot) a b;
    if b <=? a then break (a, b, s) else
    s ← data.(ls_Swap) s a (b - 1);
    continue (a + 1, b - 1, s)) (a, b, s).

Definition doPivot_func (s : S) (lo hi : Z) : option (Z * Z * S) :=
  let m := lo + (hi - lo) /t 2 in
  s ← choosePivot_func s lo hi;
  let pivot := lo in
  a ← scanUp (λ a, data.(ls_Less) s a pivot) (lo + 1) (hi - 1);
  '(b, c, s) ← partitionLoop_func pivot a (hi - 1) s;
  let protect := hi - c <? 5 in
  '(b, c, s, protect) ←
    (if negb protect && (hi - c <? (hi - lo) /t 4)
     then testDups_func lo hi m pivot b c s
     else Some (b, c, s, protect));
  '(b, s) ← (if (protect : bool)
             then '(a, b, s) ← protectLoop_func pivot a b s; Some (b, s)
             else Some (b, s));
  s ← data.(ls_Swap) s pivot (b - 1);
  Some (b - 1, c, s).

Definition gapPass_func (s : S) (a b : Z) : option S :=
  loop (span a b) (λ '(i, s),
    if i <? b then
      l ← data.(ls_Less) s i (i - 6);
      s ← (if (l : bool) then data.(ls_Swap) s i (i - 6) else Some s);
      continue (i + 1, s)
    else break s) (a + 6, s).

Fixpoint quickSortFuel_func (fuel : nat) (s : S) (a b maxDepth : Z) : option S :=
  match fuel with
  | O => None
  | Datatypes.S fuel =>
      if 12 <? b - a then
        if maxDepth =? 0 then heapSort_func s a b else
        let maxDepth := maxDepth - 1 in
        '(mlo, mhi, s) ← doPivot_func s a b;
        if mlo - a <? b - mhi then
          s ← quickSortFuel_func fuel s a mlo maxDepth;
          quickSortFuel_func fuel s mhi b maxDepth
        else
          s ← quickSortFuel_func fuel s mhi b maxDepth;
          quickSortFuel_func fuel s a mlo maxDepth
      else if 1 <? b - a then
        s ← gapPass_func s a b;
        insertionSort_func s a b
      else Some s
  end.

Definition quickSort_func (s : S) (a b maxDepth : Z) : option S :=
  quickSortFuel_func (span a b) s a b maxDepth.

Definition rotate_func (s : S) (a m b : Z) : option S :=
  '(i, s) ← loop (span a b) (λ '(i, j, s),
    if i =? j then break (i, s) else
    if j <? i then
      s ← swapRange_func s (m - i) m j;
      continue (i - j, j, s)
    else
      s ← swapRange_func s (m - i) (m + j - i) i;
      continue (i, j - i, s)) (m - a, b - m, s);
  swapRange_func s (m - i) m i.

Definition shiftUp_func (s : S) (a n : Z) : option S :=
  loop (span a n) (λ '(k, s),
    if k <? n then
      s ← data.(ls_Swap) s k (k + 1);
      continue (k + 1, s)
    else break s) (a, s).

Definition shiftDown_func (s : S) (m i : Z) : option S :=
  loop (span i m) (λ '(k, s),
    if i <? k then
      s ← data.(ls_Swap) s k (k - 1);
      continue (k - 1, s)
    else break s) (m, s).

Fixpoint symMergeFuel_func (fuel : nat) (s : S) (a m b : Z) : option S :=
  match fuel with
  | O => None
  | Datatypes.S fuel =>
      if m - a =? 1 then
        i ← bisect (λ h, data.(ls_Less) s h a) m b;
        shiftUp_func s a (i - 1)
      else if b - m =? 1 then
        i ← bisect (λ h, negb <$> data.(ls_Less) s m h) a m;
        shiftDown_func s m i
      else
        let mid := a + (b - a) /t 2 in
        let n := mid + m in
        let '(start, r) := if mid <? m then (n - b, mid) else (a, m) in
        let p := n - 1 in
        start ← bisect (λ c, negb <$> data.(ls_Less) s (p - c) c) start r;
        let end_ := n - start in
        s ← (if (start <? m) && (m <? end_) then rotate_func s start m end_ else Some s);
        s ← (if (a <? start) && (start <? mid)
             then symMergeFuel_func fuel s a start mid else Some s);
        if (mid <? end_) && (end_ <? b)
        then symMergeFuel_func fuel s mid end_ b else Some s
  end.

Definition symMerge_func (s : S) (a m b : Z) : option S :=
  symMergeFuel_func (span a b) s a m b.

Definition sortBlocks_func (s : S) (n blockSize : Z) : option S :=
  '(a, s) ← loop (span 0 n) (λ '(a, b, s),
    if b <=? n then
      s ← insertionSort_func s a b;
      continue (b, b + blockSize, s)
    else break (a, s)) (0, blockSize, s);
  insertionSort_func s a n.

Definition mergePass_func (s : S) (n blockSize : Z) : option S :=
  '(a, s) ← loop (span 0 n) (λ '(a, b, s),
    if b <=? n then
      s ← symMerge_func s a (a + blockSize) b;
      continue (b, b + 2 * blockSize, s)
    else break (a, s)) (0, 2 * blockSize, s);
  let m := a + blockSize in
  if m <? n then symMerge_func s a m n else Some s.

Definition stable_func (s : S) (n : Z) : option S :=
  let blockSize := 20 in
  s ← sortBlocks_func s n blockSize;
  loop (span 0 n) (λ '(blockSize, s),
    if blockSize <? n then
      s ← mergePass_func s n blockSize;
      continue (blockSize * 2, s)
    else break s) (blockSize, s).
End func_algorithms.

(** *** Sort, Stable and With *)

Definition Sort {S} (data : value S) (s : S) : option S :=
  let n := (methods data).(Len) s in
  d ← maxDepth n;
  match data with
  | Funcs fs => quickSort_func (fs_lessSwap fs) s 0 n d
  | Other data => quickSort data s 0 n d
  end.

Definition With {S} (length : Z) (swap : S → Z → Z → option S)
    (less : S → Z → Z → option bool) (s : S) : option S :=
  d ← maxDepth length;
  quickSort_func {| ls_Less := less; ls_Swap := swap |} s 0 length d.

Definition Stable {S} (data : value S) (s : S) : option S :=
  match data with
  | Funcs fs => stable_func (fs_lessSwap fs) s (fs_length fs)
  | Other data => stable data s (data.(Len) s)
  end.
