(* ===== verification/SortSlices.v ===== *)
(** * sort: the slice types of sort.go

    [IntSlice], [StringSlice] and [Float64Slice] are the methods of a slice
    with an ordering of its elements; a slice satisfies the contract
    [SortLaws] for every strict weak ordering. Floats are IEEE 754 values
    ([spec_float], of which the binary64 numbers are a part). *)
From Stdlib Require Import Floats.SpecFloat Orders.
From S2P Require Import Prelude.
From S2P Require Import SortModel.
From S2P Require Import SortLaws.
From S2P Require Import SortFunc.

(** ** Slices *)

(** [p[i], p[j] = p[j], p[i]] *)
Definition sliceSwap {A} (p : list A) (i j : Z) : option (list A) :=
  x ← zidx p i;
  y ← zidx p j;
  p ← zset p i y;
  zset p j x.

Definition sliceLess {A} (lt : A → A → bool) (p : list A) (i j : Z) : option bool :=
  x ← zidx p i;
  y ← zidx p j;
  Some (lt x y).

Definition sliceInterface {A} (lt : A → A → bool) : Interface (list A) :=
  {| Len p := zlen p; Less := sliceLess lt; Swap := sliceSwap |}.

#[export] Instance slice_laws {A} (lt : A → A → bool) : SortLaws (sliceInterface lt) lt id.
Proof.
  split; simpl.
  - intros s i j x y Hi Hj Hx Hy. unfold sliceLess, zidx.
    destruct (Z.ltb_spec i 0), (Z.ltb_spec j 0); try lia. by rewrite Hx, Hy.
  - intros s i j Hi Hj. unfold sliceSwap.
    destruct (zidx_Some s i Hi) as (x & Ex & Hx), (zidx_Some s j Hj) as (y & Ey & Hy).
    rewrite Ex, Ey. simpl. unfold zset, list_swap. rewrite Hx, Hy.
    destruct (Z.ltb_spec i 0), (Z.leb_spec (zlen s) i); try lia. simpl. rewrite length_insert.
    destruct (Z.ltb_spec j 0), (Z.leb_spec (zlen s) j); try lia. simpl.
    eexists. split; [done|]. destruct (decide (i = j)) as [->|].
    + simplify_eq. by rewrite !list_insert_insert_eq.
    + rewrite list_insert_insert_ne by lia. done.
Qed.

(** [SliceSorter] pairs the slice's [reflect.Swapper] with a [less] function of
    the caller, which reads the slice. *)
Definition SliceSorter {A} (slice : list A) (less : list A → Z → Z → option bool) : value (list A) :=
  MakeInterface (zlen slice) sliceSwap less.

Definition Slice {A} (slice : list A) (less : list A → Z → Z → option bool) : option (list A) :=
  Sort (SliceSorter slice less) slice.

#[export] Instance sorter_laws {A} (lt : A → A → bool) n :
  SortLaws (methods (MakeInterface n sliceSwap (sliceLess lt))) lt id.
Proof.
  split; simpl.
  - apply (less_law (data := sliceInterface lt)).
  - apply (swap_law (data := sliceInterface lt)).
Qed.

(** ** IntSlice *)

Definition IntSlice : Interface (list Z) := sliceInterface Z.ltb.
Definition Ints (a : list Z) : option (list Z) := Sort (Other IntSlice) a.
Definition IntsAreSorted (a : list Z) : option bool := IsSorted IntSlice a.

#[export] Instance Zltb_swo : StrictWeakOrder Z.ltb.
Proof.
  split; intros *; rewrite ?Z.ltb_lt, ?Z.ltb_ge; lia.
Qed.

(** ** StringSlice: the bytewise order of Go strings *)

Definition StringSlice : Interface (list string) := sliceInterface String.ltb.
Definition Strings (a : list string) : option (list string) := Sort (Other StringSlice) a.
Definition StringsAreSorted (a : list string) : option bool := IsSorted StringSlice a.

Lemma string_ltb_nil_r a : String.ltb a "" = false.
Proof. by destruct a. Qed.

Lemma string_ltb_cons c1 a c2 b :
  String.ltb (String c1 a) (String c2 b) =
  match Ascii.compare c1 c2 with Eq => String.ltb a b | Lt => true | Gt => false end.
Proof. unfold String.ltb. simpl. by destruct (Ascii.compare c1 c2). Qed.

#[export] Instance string_ltb_swo : StrictWeakOrder String.ltb.
Proof.
  split.
  - induction x as [|c1 x IH]; intros [|c2 y]; try done.
    rewrite !string_ltb_cons. unfold Ascii.compare.
    destruct (N.compare_spec (Ascii.N_of_ascii c1) (Ascii.N_of_ascii c2)),
      (N.compare_spec (Ascii.N_of_ascii c2) (Ascii.N_of_ascii c1)); try lia; auto.
  - induction x as [|c1 x IH]; intros [|c2 y] [|c3 z]; try done.
    rewrite !string_ltb_cons. unfold Ascii.compare.
    destruct (N.compare_spec (Ascii.N_of_ascii c2) (Ascii.N_of_ascii c1)),
      (N.compare_spec (Ascii.N_of_ascii c3) (Ascii.N_of_ascii c2)),
      (N.compare_spec (Ascii.N_of_ascii c3) (Ascii.N_of_ascii c1)); try lia; try done; eauto.
Qed.

(** ** Float64Slice *)

#[export] Instance spec_float_inhabited : Inhabited spec_float := populate S754_nan.

Definition isNaN (f : spec_float) : bool := negb (SFeqb f f).

(** [p[i] < p[j] || isNaN(p[i]) && !isNaN(p[j])] *)
Definition float64Less (x y : spec_float) : bool :=
  SFltb x y || (isNaN x && negb (isNaN y)).

Definition Float64Slice : Interface (list spec_float) := sliceInterface float64Less.
Definition Float64s (a : list spec_float) : option (list spec_float) := Sort (Other Float64Slice) a.
Definition Float64sAreSorted (a : list spec_float) : option bool := IsSorted Float64Slice a.

(** The position of a float in the order: class, exponent, significand. *)
Definition float_key (f : spec_float) : Z * Z * Z :=
  match f with
  | S754_nan => (-3, 0, 0)
  | S754_infinity true => (-2, 0, 0)
  | S754_finite true m e => (-1, - e, - Zpos m)
  | S754_zero _ => (0, 0, 0)
  | S754_finite false m e => (1, e, Zpos m)
  | S754_infinity false => (2, 0, 0)
  end.

Definition key_ltb (k1 k2 : Z * Z * Z) : bool :=
  let '(a1, b1, c1) := k1 in
  let '(a2, b2, c2) := k2 in
  (a1 <? a2) || (a1 =? a2) && ((b1 <? b2) || (b1 =? b2) && (c1 <? c2)).

Lemma key_ltb_spec a1 b1 c1 a2 b2 c2 :
  key_ltb (a1, b1, c1) (a2, b2, c2) = true ↔ a1 < a2 ∨ a1 = a2 ∧ (b1 < b2 ∨ b1 = b2 ∧ c1 < c2).
Proof. unfold key_ltb. by rewrite !orb_true_iff, !andb_true_iff, !orb_true_iff, !andb_true_iff, !Z.ltb_lt, !Z.eqb_eq. Qed.

#[export] Instance key_ltb_swo : StrictWeakOrder key_ltb.
Proof.
  split.
  - intros [[a1 b1] c1] [[a2 b2] c2]. rewrite <-not_true_iff_false, !key_ltb_spec. lia.
  - intros [[a1 b1] c1] [[a2 b2] c2] [[a3 b3] c3]. rewrite <-!not_true_iff_false, !key_ltb_spec. lia.
Qed.

Lemma float64Less_key x y : float64Less x y = key_ltb (float_key x) (float_key y).
Proof.
  unfold float64Less, isNaN, SFeqb, SFltb, key_ltb.
  destruct x as [[]|[]| |[] m1 e1], y as [[]|[]| |[] m2 e2]; simpl; try done;
    change (PosDef.Pos.compare_cont Eq) with Pos.compare;
    rewrite ?Z.compare_refl, ?Pos.compare_refl; simpl; try done;
    destruct (Z.compare_spec e1 e2), (Pos.compare_spec m1 m2); subst;
    rewrite ?Z.compare_refl, ?Pos.compare_refl; simpl; zcases; simpl; try lia; done.
Qed.

#[export] Instance float64Less_swo : StrictWeakOrder float64Less.
Proof.
  split; intros *; rewrite !float64Less_key; [apply swo_asym|apply swo_trans].
Qed.

(** ** Reverse *)

#[export] Instance reverse_swo {A} (lt : A → A → bool) `{!StrictWeakOrder lt} :
  StrictWeakOrder (λ x y, lt y x).
Proof.
  split.
  - intros x y. apply swo_asym.
  - intros x y z H1 H2. by apply (swo_trans z y x).
Qed.

#[export] Instance reverse_laws {S A} (data : Interface S) (lt : A → A → bool) (elems : S → list A)
    `{!SortLaws data lt elems} : SortLaws (Reverse data) (λ x y, lt y x) elems.
Proof.
  split; simpl.
  - intros s i j x y Hi Hj Hx Hy. by apply less_law.
  - apply swap_law.
Qed.

(** ** The searches of search.go in float and string slices *)

Definition SearchFloat64s (a : list spec_float) (x : spec_float) : option Z :=
  Search (zlen a) (λ i, v ← zidx a i; Some (SFleb x v)).

Definition SearchStrings (a : list string) (x : string) : option Z :=
  Search (zlen a) (λ i, v ← zidx a i; Some (String.leb x v)).

(** The methods of the slice types. *)
Definition IntSliceSearch (p : list Z) (x : Z) : option Z := SearchInts p x.
Definition Float64SliceSearch (p : list spec_float) (x : spec_float) : option Z := SearchFloat64s p x.
Definition StringSliceSearch (p : list string) (x : string) : option Z := SearchStrings p x.
