(* ===== verification/SortMain.v ===== *)
(** * sort: the properties of the package

    Correctness of [Sort], [Stable], the range algorithms they are made of,
    [IsSorted], [Search] and [maxDepth], with a witness on concrete slices for
    every property that has hypotheses. *)
From Stdlib Require Import Floats.SpecFloat.
From S2P Require Import Prelude.
From S2P Require Import SortModel.
From S2P Require Import SortLaws.
From S2P Require Import SortInsertion.
From S2P Require Import SortHeap.
From S2P Require Import SortQuick.
From S2P Require Import SortStable.
From S2P Require Import SortFunc.
From S2P Require Import SortSlices.

(** ** Shared lemmas *)

Lemma log2_up_half i : 0 < i → Z.log2_up (i + 1) = 1 + Z.log2_up (Z.shiftr i 1 + 1).
Proof.
  intros Hi. rewrite (Z.log2_up_eqn (i + 1)) by lia. replace (Z.pred (i + 1)) with i by lia.
  destruct (decide (i = 1)) as [->|]; [done|].
  assert (0 < Z.shiftr i 1) by (rewrite Z.shiftr_div_pow2 by lia; change (2 ^ 1) with 2; zlia).
  rewrite (Z.log2_up_eqn (_ + 1)) by lia.
  replace (Z.pred (Z.shiftr i 1 + 1)) with (Z.shiftr i 1) by lia.
  rewrite Z.log2_shiftr by lia.
  assert (Z.log2 2 ≤ Z.log2 i) by (apply Z.log2_le_mono; lia). change (Z.log2 2) with 1 in *. lia.
Qed.

Lemma maxDepth_value n : 0 ≤ n → maxDepth n = Some (2 * Z.log2_up (n + 1)).
Proof.
  intros Hn. unfold maxDepth.
  assert (∀ f (i d : Z), 0 ≤ i → (Z.to_nat (Z.log2_up (i + 1)) < f)%nat →
    loop f (λ '(i, depth), if 0 <? i then continue (Z.shiftr i 1, depth + 1) else break depth) (i, d)
    = Some (d + Z.log2_up (i + 1))) as H.
  { induction f as [|f IH]; intros i d Hi Hf; [lia|]. cbn [loop].
    destruct (Z.ltb_spec 0 i); simpl.
    - pose proof (log2_up_half i ltac:(lia)). pose proof (Z.log2_up_nonneg (Z.shiftr i 1 + 1)).
      rewrite IH; [f_equal; lia|by apply Z.shiftr_nonneg|lia].
    - replace i with 0 by lia. rewrite Z.add_0_l, Z.log2_up_1. unfold break. simpl. f_equal. lia. }
  rewrite H; [simpl; f_equal; lia|done|].
  pose proof (Z.le_log2_up_succ_log2 (n + 1)). pose proof (Z.log2_nonneg n).
  destruct (decide (n = 0)) as [->|]; [rewrite Z.add_0_l, Z.log2_up_1; lia|].
  rewrite (Z.log2_up_eqn (n + 1)) by lia. replace (Z.pred (n + 1)) with n by lia. lia.
Qed.

Section equivalence.
Context {S : Type}.

(** The [lessSwap] algorithms are the [Interface] ones on the methods of
    [*funcs]. *)
Lemma quickSort_func_eq (ls : lessSwap S) n s a b d :
  quickSort_func ls s a b d = quickSort (methods (Funcs {| fs_length := n; fs_lessSwap := ls |})) s a b d.
Proof. reflexivity. Qed.

Lemma stable_func_eq (ls : lessSwap S) n s m :
  stable_func ls s m = stable (methods (Funcs {| fs_length := n; fs_lessSwap := ls |})) s m.
Proof. reflexivity. Qed.

Lemma Sort_quickSort (v : value S) s :
  Sort v s = (d ← maxDepth ((methods v).(Len) s);
              quickSort (methods v) s 0 ((methods v).(Len) s) d).
Proof. by destruct v as [[n ls]|d]. Qed.

Lemma Stable_stable (v : value S) s :
  Stable v s = stable (methods v) s ((methods v).(Len) s).
Proof. by destruct v as [[n ls]|d]. Qed.
End equivalence.

Section main.
Context {S A} `{!Inhabited A} (data : Interface S) (lt : A → A → bool) (elems : S → list A).
Context `{!SortLaws data lt elems} `{!StrictWeakOrder lt}.

Lemma quickSort_whole s d :
  wp (quickSort data s 0 (zlen (elems s)) d)
     (λ s', StronglySorted (leq lt) (elems s') ∧ elems s' ≡ₚ elems s).
Proof.
  eapply wp_mono; [apply (quickSort_spec data lt elems); unfold sz; lia|].
  intros s' [Hsw Hs]. split; [|by eapply swaps_perm].
  apply sortedR_StronglySorted; [done..|]. by rewrite (swaps_sz _ _ _ _ _ Hsw).
Qed.

Lemma stable_whole s :
  wp (stable data s (zlen (elems s)))
     (λ s', StronglySorted (leq lt) (elems s') ∧ bubble lt (elems s) (elems s')).
Proof.
  eapply wp_mono; [apply (stable_spec data lt elems); unfold sz; lia|].
  intros s' (Hsw & Hb & Hs). split; [|done].
  apply sortedR_StronglySorted; [done..|]. by rewrite (swaps_sz _ _ _ _ _ Hsw).
Qed.

Lemma IsSorted_value s :
  data.(Len) s = zlen (elems s) →
  wp (IsSorted data s) (λ r, r = true ↔ sortedR lt elems s 0 (zlen (elems s))).
Proof.
  intros Hlen. unfold IsSorted. rewrite Hlen. set (n := zlen (elems s)).
  apply (wp_loop (λ i, i ≤ n - 1 ∧ ∀ k, i < k < n → leq lt (at_ elems s (k - 1)) (at_ elems s k))
    (λ i, Z.to_nat i)); [|split; [lia|intros; lia]|unfold span; lia].
  intros i [Hi Hk]. destruct (Z.ltb_spec 0 i); sort_step.
  - apply (wp_less data lt elems); [unfold sz; lia..|]. sort_steps.
    + split; [done|]. intros Hs.
      assert (leq lt (at_ elems s (i - 1)) (at_ elems s i)) as Hle by (apply Hs; lia). congruence.
    + split; [|lia]. split; [lia|]. intros k ?. destruct (decide (k = i)) as [->|]; [done|apply Hk; lia].
  - split; [|done]. intros _. apply sortedR_adj; [done|]. intros k ?. apply Hk; lia.
Qed.
End main.

(** ** The properties *)

(** C1. [Sort] returns (it terminates and never makes an out-of-range call of
    [Less] or [Swap], for which the contract promises nothing), and leaves the
    collection sorted and with the same elements, whichever of the two code
    paths the dynamic type selects. *)
Theorem Sort_sorts {S A} `{!Inhabited A} (v : value S) (lt : A → A → bool) (elems : S → list A) s :
  SortLaws (methods v) lt elems → StrictWeakOrder lt →
  (methods v).(Len) s = zlen (elems s) →
  ∃ s', Sort v s = Some s' ∧ StronglySorted (leq lt) (elems s') ∧ elems s' ≡ₚ elems s.
Proof.
  intros ?? Hlen. apply wp_elim. rewrite Sort_quickSort, Hlen, maxDepth_value by lia.
  apply (quickSort_whole (methods v) lt elems).
Qed.

Lemma Sort_sorts_witness :
  ∃ s', Sort (MakeInterface 5 sliceSwap (sliceLess Z.ltb)) [4; 1; 3; 1; 2] = Some s' ∧
    StronglySorted (leq Z.ltb) s' ∧ s' ≡ₚ [4; 1; 3; 1; 2].
Proof.
  exact (Sort_sorts (MakeInterface 5 sliceSwap (sliceLess Z.ltb)) Z.ltb id [4; 1; 3; 1; 2] _ _ eq_refl).
Defined.

(** C2. [Stable] returns, sorts, and keeps the order of equivalent elements:
    for every [z] the elements equivalent to [z] are the same list before and
    after. *)
Theorem Stable_sorts_stably {S A} `{!Inhabited A} (v : value S) (lt : A → A → bool)
    (elems : S → list A) s :
  SortLaws (methods v) lt elems → StrictWeakOrder lt →
  (methods v).(Len) s = zlen (elems s) →
  ∃ s', Stable v s = Some s' ∧ StronglySorted (leq lt) (elems s') ∧ elems s' ≡ₚ elems s ∧
    ∀ z, filter (λ x, equivb lt z x = true) (elems s') = filter (λ x, equivb lt z x = true) (elems s).
Proof.
  intros ?? Hlen. apply wp_elim. rewrite Stable_stable, Hlen.
  eapply wp_mono; [apply (stable_whole (methods v) lt elems)|]. intros s' [Hs Hb].
  split_and!; [done|symmetry; by eapply bubble_perm|intros z; by apply bubble_filter].
Qed.

(** Pairs compared by their first components only. *)
Definition fst_ltb (x y : Z * Z) : bool := x.1 <? y.1.

#[local] Instance fst_ltb_swo : StrictWeakOrder fst_ltb.
Proof. split; unfold fst_ltb; intros *; rewrite ?Z.ltb_lt, ?Z.ltb_ge; lia. Qed.

Lemma Stable_sorts_stably_witness :
  let s := [(2, 0); (1, 1); (2, 2); (1, 3)] in
  ∃ s', Stable (Other (sliceInterface fst_ltb)) s = Some s' ∧ StronglySorted (leq fst_ltb) s' ∧
    s' ≡ₚ s ∧
    ∀ z, filter (λ x, equivb fst_ltb z x = true) s' = filter (λ x, equivb fst_ltb z x = true) s.
Proof.
  exact (Stable_sorts_stably (Other (sliceInterface fst_ltb)) fst_ltb id
    [(2, 0); (1, 1); (2, 2); (1, 3)] _ _ eq_refl).
Defined.

(** [quickSort] sorts [data[a:b]] for every depth limit [maxDepth], also
    one that runs out in the middle (heap sort takes over) or is negative, and
    only swaps positions of [[a,b)]. *)
Theorem quickSort_sorts_range {S A} `{!Inhabited A} (data : Interface S) (lt : A → A → bool)
    (elems : S → list A) s a b maxDepth :
  SortLaws data lt elems → StrictWeakOrder lt → 0 ≤ a ≤ b → b ≤ zlen (elems s) →
  ∃ s', quickSort data s a b maxDepth = Some s' ∧ swaps elems a b s s' ∧ sortedR lt elems s' a b.
Proof. intros. apply wp_elim. by apply (quickSort_spec data lt elems). Qed.

Lemma quickSort_sorts_range_witness :
  ∃ s', quickSort IntSlice (Z.of_nat <$> reverse (seq 0 20)) 2 18 1 = Some s' ∧
    swaps id 2 18 (Z.of_nat <$> reverse (seq 0 20)) s' ∧ sortedR Z.ltb id s' 2 18.
Proof.
  apply (quickSort_sorts_range IntSlice Z.ltb id (Z.of_nat <$> reverse (seq 0 20)) 2 18 1); [apply _..| |].
  - lia.
  - vm_compute. discriminate.
Defined.

(** [doPivot] splits a range of more than 12 elements as its comment says:
    [[lo,midlo)] is not above the element at [midlo], the non-empty
    [[midlo,midhi)] is equivalent to it, and [[midhi,hi)] is not below it. *)
Theorem doPivot_partitions {S A} `{!Inhabited A} (data : Interface S) (lt : A → A → bool)
    (elems : S → list A) s lo hi :
  SortLaws data lt elems → StrictWeakOrder lt → 0 ≤ lo → hi ≤ zlen (elems s) → 12 < hi - lo →
  ∃ midlo midhi s', doPivot data s lo hi = Some (midlo, midhi, s') ∧
    lo ≤ midlo < midhi ∧ midhi ≤ hi ∧ swaps elems lo hi s s' ∧
    pivoted lt elems s' lo midlo midhi hi.
Proof.
  intros. destruct (wp_elim _ _ (doPivot_spec data lt elems s lo hi ltac:(done) ltac:(done) ltac:(done)))
    as ([[midlo midhi] s'] & E & H'). by exists midlo, midhi, s'.
Qed.

Lemma doPivot_partitions_witness :
  let s := [5; 3; 9; 1; 7; 5; 5; 2; 8; 0; 5; 6; 4] in
  ∃ midlo midhi s', doPivot IntSlice s 0 13 = Some (midlo, midhi, s') ∧
    0 ≤ midlo < midhi ∧ midhi ≤ 13 ∧ swaps id 0 13 s s' ∧ pivoted Z.ltb id s' 0 midlo midhi 13.
Proof.
  apply (doPivot_partitions IntSlice Z.ltb id [5; 3; 9; 1; 7; 5; 5; 2; 8; 0; 5; 6; 4] 0 13);
    [apply _..|lia|vm_compute; discriminate|lia].
Defined.

(** [heapSort] sorts [data[a:b]] and only swaps positions of [[a,b)]. *)
Theorem heapSort_sorts_range {S A} `{!Inhabited A} (data : Interface S) (lt : A → A → bool)
    (elems : S → list A) s a b :
  SortLaws data lt elems → StrictWeakOrder lt → 0 ≤ a ≤ b → b ≤ zlen (elems s) →
  ∃ s', heapSort data s a b = Some s' ∧ swaps elems a b s s' ∧ sortedR lt elems s' a b.
Proof. intros. apply wp_elim. by apply (heapSort_spec data lt elems). Qed.

Lemma heapSort_sorts_range_witness :
  let s := [9; 4; 7; 4; 1; 0; 8] in
  ∃ s', heapSort IntSlice s 1 6 = Some s' ∧ swaps id 1 6 s s' ∧ sortedR Z.ltb id s' 1 6.
Proof.
  apply (heapSort_sorts_range IntSlice Z.ltb id [9; 4; 7; 4; 1; 0; 8] 1 6);
    [apply _..|lia|vm_compute; discriminate].
Defined.

(** [symMerge] merges the sorted [data[a:m]] and [data[m:b]] into a sorted
    [data[a:b]], touches nothing else, and is stable: only strictly inverted
    elements change their order. *)
Theorem symMerge_merges_stably {S A} `{!Inhabited A} (data : Interface S) (lt : A → A → bool)
    (elems : S → list A) s a m b :
  SortLaws data lt elems → StrictWeakOrder lt → 0 ≤ a → a < m < b → b ≤ zlen (elems s) →
  sortedR lt elems s a m → sortedR lt elems s m b →
  ∃ s', symMerge data s a m b = Some s' ∧ swaps elems a b s s' ∧
    bubble lt (elems s) (elems s') ∧ sortedR lt elems s' a b.
Proof. intros. apply wp_elim. by apply (symMerge_spec data lt elems). Qed.

Lemma symMerge_merges_stably_witness :
  let s := [2; 5; 5; 8; 1; 5; 6; 9] in
  ∃ s', symMerge IntSlice s 0 4 8 = Some s' ∧ swaps id 0 8 s s' ∧
    bubble Z.ltb s s' ∧ sortedR Z.ltb id s' 0 8.
Proof.
  set (s := [2; 5; 5; 8; 1; 5; 6; 9]).
  apply (symMerge_merges_stably IntSlice Z.ltb id s 0 4 8);
    [apply _..|lia|lia|vm_compute; discriminate| |];
    apply sortedR_adj; try apply _; intros k Hk.
  - assert (k = 1 ∨ k = 2 ∨ k = 3) as [->| [->| ->]] by lia; reflexivity.
  - assert (k = 5 ∨ k = 6 ∨ k = 7) as [->| [->| ->]] by lia; reflexivity.
Defined.

(** [rotate] changes data of the form [x u v y] into [x v u y]. *)
Theorem rotate_exchanges {S A} `{!Inhabited A} (data : Interface S) (lt : A → A → bool)
    (elems : S → list A) s x u v y :
  SortLaws data lt elems → elems s = x ++ u ++ v ++ y → u ≠ [] → v ≠ [] →
  ∃ s', rotate data s (zlen x) (zlen x + zlen u) (zlen x + zlen u + zlen v) = Some s' ∧
    elems s' = x ++ v ++ u ++ y.
Proof.
  intros ? E Hu Hv. destruct u as [|u0 u']; [done|]. destruct v as [|v0 v']; [done|]. clear Hu Hv.
  set (u := u0 :: u') in *. set (v := v0 :: v') in *.
  assert (0 < zlen u) by (simpl; lia). assert (0 < zlen v) by (simpl; lia).
  assert (Hl : sz elems s = zlen x + zlen u + zlen v + zlen y)
    by (unfold sz; rewrite E, !length_app; lia).
  apply wp_elim. eapply wp_mono; [apply (rotate_spec data lt elems); lia|].
  intros s' [Hsw Hat]. pose proof (swaps_sz _ _ _ _ _ Hsw) as Hsz.
  destruct (rot_elems elems s s' (zlen x) (zlen x + zlen u) (zlen x + zlen u + zlen v))
    as [E1 ->]; [lia..|done|].
  rewrite E in E1 at 1. unfold sz in Hl.
  apply app_inj_1 in E1 as [<- E1]; [|rewrite length_seg; lia].
  apply app_inj_1 in E1 as [<- E1]; [|rewrite length_seg; lia].
  apply app_inj_1 in E1 as [<- <-]; [done|rewrite length_seg; lia].
Qed.

Lemma rotate_exchanges_witness :
  ∃ s', rotate IntSlice [0; 1; 2; 3; 4; 5; 6] 1 4 6 = Some s' ∧
    s' = [0] ++ [4; 5] ++ [1; 2; 3] ++ [6].
Proof.
  exact (rotate_exchanges IntSlice Z.ltb id [0; 1; 2; 3; 4; 5; 6] [0] [1; 2; 3] [4; 5] [6]
    _ eq_refl ltac:(discriminate) ltac:(discriminate)).
Defined.

(** C37. [Search], on 64-bit integers, returns the smallest index at which [f]
    is true, or [n]: for every [n] up to the largest [int] no addition
    overflows, and [f] is only called on [[0,n)] (outside it may panic). *)
Theorem Search_smallest (n : Z) (f : Z → option bool) (t : Z → bool) :
  0 ≤ n < 2 ^ 63 → (∀ i, 0 ≤ i < n → f i = Some (t i)) →
  (∀ i j, 0 ≤ i → i ≤ j → j < n → t i = true → t j = true) →
  ∃ r, Search n f = Some r ∧ 0 ≤ r ≤ n ∧
    (∀ i, 0 ≤ i < r → t i = false) ∧ (∀ i, r ≤ i < n → t i = true).
Proof.
  intros Hn Hf Hmono. by apply Search_spec.
Qed.

Lemma Search_smallest_witness :
  ∃ r, SearchInts [1; 3; 3; 8] 3 = Some r ∧ 0 ≤ r ≤ 4 ∧
    (∀ i, 0 ≤ i < r → (3 <=? default 0 (zidx [1; 3; 3; 8] i)) = false) ∧
    (∀ i, r ≤ i < 4 → (3 <=? default 0 (zidx [1; 3; 3; 8] i)) = true).
Proof.
  apply (Search_smallest 4 (λ i, v ← zidx [1; 3; 3; 8] i; Some (3 <=? v))
    (λ i, 3 <=? default 0 (zidx [1; 3; 3; 8] i))).
  - split; [lia|reflexivity].
  - intros i Hi. assert (i = 0 ∨ i = 1 ∨ i = 2 ∨ i = 3) as [->| [->|[->| ->]]] by lia; reflexivity.
  - intros i j Hi Hij Hj.
    assert (i = 0 ∨ i = 1 ∨ i = 2 ∨ i = 3) as [->| [->|[->| ->]]] by lia;
    assert (j = 0 ∨ j = 1 ∨ j = 2 ∨ j = 3) as [->| [->|[->| ->]]] by lia; try lia; vm_compute; congruence.
Defined.

(** C31. The code generated for [lessSwap] (zfuncversion.go) computes what the
    [Interface] code computes, on every state and also where it panics:
    sorting a [*funcs] is sorting any other type with the same methods. *)
Theorem func_variants_agree {S} (fs : funcs S) (s : S) :
  Sort (Funcs fs) s = Sort (Other (methods (Funcs fs))) s ∧
  Stable (Funcs fs) s = Stable (Other (methods (Funcs fs))) s ∧
  With (fs_length fs) (ls_Swap (fs_lessSwap fs)) (ls_Less (fs_lessSwap fs)) s = Sort (Funcs fs) s.
Proof. rewrite !Sort_quickSort, !Stable_stable. by destruct fs as [n [less swap]]. Qed.

(** [IsSorted] returns, and reports whether the collection is sorted. *)
Theorem IsSorted_correct {S A} `{!Inhabited A} (data : Interface S) (lt : A → A → bool)
    (elems : S → list A) s :
  SortLaws data lt elems → StrictWeakOrder lt → data.(Len) s = zlen (elems s) →
  ∃ r, IsSorted data s = Some r ∧ (r = true ↔ StronglySorted (leq lt) (elems s)).
Proof.
  intros ?? Hlen. destruct (wp_elim _ _ (IsSorted_value data lt elems s Hlen)) as (r & E & Hr).
  exists r. split; [done|]. rewrite Hr. split.
  - by apply sortedR_StronglySorted.
  - by apply StronglySorted_sortedR.
Qed.

Lemma IsSorted_correct_witness :
  ∃ r, IsSorted (Reverse IntSlice) [5; 3; 3; 1] = Some r ∧
    (r = true ↔ StronglySorted (leq (λ x y, y <? x)) [5; 3; 3; 1]).
Proof.
  exact (IsSorted_correct (Reverse IntSlice) (λ x y, y <? x) id [5; 3; 3; 1] _ _ eq_refl).
Defined.

(** [Float64s] sorts every slice of floats, NaNs included: the NaNs come
    first, and the rest is in increasing order of the IEEE comparison. *)
Theorem Float64s_sorts (a : list spec_float) :
  ∃ nans rest, Float64s a = Some (nans ++ rest) ∧ nans ++ rest ≡ₚ a ∧
    Forall (λ x, isNaN x = true) nans ∧ Forall (λ x, isNaN x = false) rest ∧
    StronglySorted (λ x y, SFltb y x = false) rest.
Proof.
  unfold Float64s.
  assert (∃ s', Sort (Other Float64Slice) a = Some s' ∧ StronglySorted (leq float64Less) s' ∧ s' ≡ₚ a)
    as (s' & -> & Hs & Hp).
  { apply wp_elim. rewrite Sort_quickSort. simpl. rewrite maxDepth_value by lia.
    apply (quickSort_whole Float64Slice float64Less id). }
  cut (∃ nans rest, s' = nans ++ rest ∧ Forall (λ x, isNaN x = true) nans ∧
    Forall (λ x, isNaN x = false) rest ∧ StronglySorted (λ x y, SFltb y x = false) rest).
  { intros (nans & rest & -> & ? & ? & ?). exists nans, rest. by split_and!. }
  clear Hp. induction Hs as [|x l Hs (nans & rest & -> & Hn & Hr & IH) Hx].
  { exists [], []. split_and!; constructor. }
  destruct (isNaN x) eqn:E.
  - exists (x :: nans), rest. split_and!; try done. by constructor.
  - exists [], (x :: nans ++ rest). assert (nans = []) as ->.
    { destruct nans as [|y nans]; [done|]. apply Forall_cons in Hx as [Hx _].
      apply Forall_cons in Hn as [Hn _]. unfold leq, float64Less in Hx.
      rewrite Hn, E in Hx. by rewrite orb_true_r in Hx. }
    simpl in *. split_and!; [done|constructor|by constructor|]. apply StronglySorted_cons.
    split; [|done]. eapply Forall_impl; [exact Hx|]. intros y Hy. unfold leq, float64Less in Hy.
    by apply orb_false_iff in Hy as [Hy _].
Qed.
