(* ===== verification/SortCost.v ===== *)
(** * sort: how often the sorts call [Swap]

    [counted data] is the collection [data] with a counter of the calls of its
    [Swap], which succeeds or panics as before. The sorts are defined over any
    [Interface], so a run of [Sort] or [Stable] on a counted collection is a run
    of the same code, and the counter at its end is the number of calls that it
    has made. The bounds are partial-correctness statements ([post]): that the
    runs return is shown in [SortMain.v]. *)
From S2P Require Import Prelude.
From S2P Require Import SortModel.
From S2P Require Import SortLaws.
From S2P Require Import SortQuick.
From S2P Require Import SortFunc.
From S2P Require Import SortSlices.
From S2P Require Import SortMain.

(** ** Partial correctness *)

(** [Q] holds of the result of [m] if it has one. *)
Definition post {A} (m : option A) (Q : A → Prop) : Prop := ∀ x, m = Some x → Q x.

Lemma post_mono {A} (m : option A) (Q1 Q2 : A → Prop) :
  post m Q1 → (∀ x, Q1 x → Q2 x) → post m Q2.
Proof. unfold post. auto. Qed.

Lemma post_bind {A B} (m : option A) (f : A → option B) Q :
  post m (λ x, post (f x) Q) → post (m ≫= f) Q.
Proof. destruct m as [x|]; [|done]. intros H y Hy. by apply (H x). Qed.

Lemma post_Some {A} (x : A) (Q : A → Prop) : Q x → post (Some x) Q.
Proof. by intros ? ? [= <-]. Qed.

Lemma post_any {A} (m : option A) (Q : A → Prop) : (∀ x, Q x) → post m Q.
Proof. unfold post. auto. Qed.

Lemma post_and {A} (m : option A) (P Q : A → Prop) : post m P → post m Q → post m (λ x, P x ∧ Q x).
Proof. unfold post. auto. Qed.

Lemma post_wp {A} (m : option A) (P Q : A → Prop) : wp m P → post m Q → wp m (λ x, P x ∧ Q x).
Proof. destruct m; [|done]. intros ? H. split; [done|by apply H]. Qed.

Lemma wp_post {A} (m : option A) (Q : A → Prop) : wp m Q → post m Q.
Proof. destruct m as [x|]; [|done]. by intros ? ? [= <-]. Qed.

Lemma post_loop {St R} (Inv : St → Prop) (body : St → option (St + R)) (Q : R → Prop) fuel st :
  (∀ st, Inv st → post (body st) (λ r, match r with inl st' => Inv st' | inr x => Q x end)) →
  Inv st → post (loop fuel body st) Q.
Proof.
  intros Hbody. revert st. induction fuel as [|fuel IH]; intros st HI; [done|]. simpl.
  apply post_bind. eapply post_mono; [by apply Hbody|].
  intros [st'|x] H; [by apply IH|by apply post_Some].
Qed.

(** ** The counter *)

Definition counted {S} (data : Interface S) : Interface (S * Z) :=
  {| Len s := data.(Len) s.1;
     Less s i j := data.(Less) s.1 i j;
     Swap s i j := s' ← data.(Swap) s.1 i j; Some (s', s.2 + 1) |}.

(** A value whose [Swap] counts, of the same dynamic type. *)
Definition countedValue {S} (v : value S) : value (S * Z) :=
  match v with
  | Funcs fs =>
      Funcs {| fs_length := fs_length fs;
               fs_lessSwap := {| ls_Less s i j := ls_Less (fs_lessSwap fs) s.1 i j;
                                 ls_Swap s i j := s' ← ls_Swap (fs_lessSwap fs) s.1 i j; Some (s', s.2 + 1) |} |}
  | Other d => Other (counted d)
  end.

Lemma methods_counted {S} (v : value S) : methods (countedValue v) = counted (methods v).
Proof. by destruct v. Qed.

#[export] Instance counted_laws {S A} (data : Interface S) (lt : A → A → bool) (elems : S → list A) :
  SortLaws data lt elems → SortLaws (counted data) lt (λ s, elems s.1).
Proof.
  intros H. split.
  - intros [s k] i j x y. apply H.
  - intros [s k] i j Hi Hj. destruct (swap_law s i j) as (s' & E & Hs'); [done..|].
    exists (s', k + 1). cbn [counted Swap fst snd]. by rewrite E.
Qed.

(** One step of a bound: reads do not matter, and a swap counts one. *)
Ltac post_step :=
  match goal with
  | |- post (Some _) _ => apply post_Some
  | |- post (continue _) _ => apply post_Some
  | |- post (break _) _ => apply post_Some
  | |- post (Less _ _ _ _) _ => apply post_any; intros ?; cbn beta
  | |- post (_ ≫= _) _ => apply post_bind
  | |- post (mbind _ _) _ => apply post_bind
  | |- post (if ?b then _ else _) _ => destruct b
  end.

Section cost.
Context {S : Type} (data : Interface S).
Abbreviation D := (counted data).
Implicit Types s : S * Z.

Lemma post_swap s i j (Q : S * Z → Prop) :
  (∀ s', s'.2 = s.2 + 1 → Q s') → post (Swap D s i j) Q.
Proof. intros HQ. cbn [Swap counted]. apply post_bind, post_any. intros s'. apply post_Some. by apply HQ. Qed.

Ltac post_steps := cbn beta iota zeta; repeat first
  [ post_step | apply post_swap; let s := fresh "s" in intros s ? ]; cbn beta iota zeta in *.

(** *** Insertion sort *)

Lemma insertOne_cost a i s : a ≤ i → post (insertOne D a i s) (λ s', s.2 ≤ s'.2 ≤ s.2 + (i - a)).
Proof.
  intros Hi. unfold insertOne.
  apply (post_loop (λ '(j, s'), a ≤ j ∧ s.2 ≤ s'.2 ≤ s.2 + (i - j))); [|lia].
  intros [j s'] ?. destruct (Z.ltb_spec a j); post_steps; [lia..|lia].
Qed.

Lemma insertionSort_cost s a b :
  post (insertionSort D s a b) (λ s', s.2 ≤ s'.2 ∧ 2 * s'.2 ≤ 2 * s.2 + (b - a) * (b - a - 1)).
Proof.
  unfold insertionSort.
  apply (post_loop (λ '(i, s'), a + 1 ≤ i ∧ (i ≤ b ∨ i = a + 1) ∧ s.2 ≤ s'.2 ∧
    2 * s'.2 ≤ 2 * s.2 + (i - a) * (i - a - 1))); [|nia].
  intros [i s'] (?&?&?&?). destruct (Z.ltb_spec i b); post_steps; [|split; [done|]; assert (i = b ∨ i = a + 1 ∧ b ≤ a) as [->|[-> ?]] by lia; nia].
  eapply post_mono; [apply insertOne_cost; lia|]. intros s2 ?. post_steps. split_and!; [lia|lia|lia|nia].
Qed.

(** *** Heap sort *)

(** A level of the heap per swap. *)
Lemma siftDown_cost s lo hi first :
  0 ≤ lo → post (siftDown D s lo hi first) (λ s', s.2 ≤ s'.2 ≤ s.2 + Z.log2 hi).
Proof.
  intros Hlo. unfold siftDown. pose proof (Z.log2_nonneg hi).
  apply (post_loop (λ '(root, s'), s.2 ≤ s'.2 ∧ 2 ^ (s'.2 - s.2) ≤ root + 1 ∧ 0 ≤ root ∧
    (root < hi ∨ s'.2 = s.2))); [|rewrite Z.sub_diag; cbn; lia].
  intros [root s'] (Hk & Hp & Hr & Hb). cbn beta iota zeta.
  assert (s.2 ≤ s'.2 ≤ s.2 + Z.log2 hi).
  { destruct Hb as [Hb|Hb]; [|lia]. assert (s'.2 - s.2 ≤ Z.log2 hi); [|lia].
    apply Z.log2_le_pow2; lia. }
  destruct (Z.leb_spec hi (2 * root + 1)); [by post_steps|].
  apply post_bind, (post_mono _ (λ ch, 2 * root + 1 ≤ ch < hi)).
  { destruct (Z.ltb_spec (2 * root + 1 + 1) hi); post_steps; repeat case_match; lia. }
  intros ch Hch. post_steps; [done|].
  match goal with H : _ = s'.2 + 1 |- _ => rename H into E end. split_and!; [lia| |lia|lia].
  rewrite E. replace (s'.2 + 1 - s.2) with (Z.succ (s'.2 - s.2)) by lia. rewrite Z.pow_succ_r by lia. lia.
Qed.

Lemma heapSort_cost s a b :
  a ≤ b → post (heapSort D s a b) (λ s', s.2 ≤ s'.2 ≤ s.2 + 2 * (b - a) * (Z.log2 (b - a) + 1)).
Proof.
  intros Hab. unfold heapSort. cbn zeta. set (n := b - a). assert (0 ≤ n) by (unfold n; lia). clearbody n.
  pose proof (Z.log2_nonneg n) as HL. set (L := Z.log2 n) in *.
  apply post_bind, (post_mono _ (λ s', s.2 ≤ s'.2 ≤ s.2 + n * L)).
  - apply (post_loop (λ '(i, s'), i ≤ (n - 1) /t 2 ∧ s.2 ≤ s'.2 ≤ s.2 + ((n - 1) /t 2 - i) * L ∧ -1 ≤ i));
      [|split_and!; zlia].
    intros [i s'] (Hi & Hk & ?). destruct (Z.leb_spec 0 i); post_steps.
    + eapply post_mono; [by apply siftDown_cost|]. fold L. intros s2 ?. post_steps. nia.
    + assert (i = -1) as -> by lia. destruct (decide (n = 0)) as [->|]; [cbn in Hk; lia|].
      assert ((n - 1) /t 2 + 1 ≤ n) by zlia. nia.
  - intros s1 Hs1. apply (post_loop (λ '(i, s'), -1 ≤ i < Z.max 1 n ∧ s.2 ≤ s'.2 ≤ s.2 + n * L + (n - 1 - i) * (L + 1)));
      [|cbn; lia].
    intros [i s'] (Hi & Hk). destruct (Z.leb_spec 0 i); post_steps; [|nia].
    eapply post_mono; [by apply siftDown_cost|]. intros s2 Hs2. post_steps.
    assert (Z.log2 i ≤ L) by (apply Z.log2_le_mono; lia). nia.
Qed.
(** *** Quick sort *)

Lemma medianOfThree_cost s m1 m0 m2 :
  post (medianOfThree D s m1 m0 m2) (λ s', s.2 ≤ s'.2 ≤ s.2 + 3).
Proof. unfold medianOfThree. post_steps; lia. Qed.

Lemma choosePivot_cost s lo hi :
  post (choosePivot D s lo hi) (λ s', s.2 ≤ s'.2 ≤ s.2 + (if 40 <? hi - lo then 12 else 3)).
Proof.
  unfold choosePivot. cbn zeta. apply post_bind, (post_mono _ (λ s', s.2 ≤ s'.2 ≤ s.2 + (if 40 <? hi - lo then 9 else 0))).
  - destruct (40 <? hi - lo); [|by post_steps; lia]. post_steps.
    eapply post_mono; [apply medianOfThree_cost|]. intros s1 ?. post_steps.
    eapply post_mono; [apply medianOfThree_cost|]. intros s2 ?. post_steps.
    eapply post_mono; [apply medianOfThree_cost|]. intros s3 ?. post_steps. lia.
  - intros s1 ?. eapply post_mono; [apply medianOfThree_cost|]. intros s2 ?. destruct (40 <? hi - lo); post_steps; lia.
Qed.

Lemma scanUp_range p i n : post (scanUp p i n) (λ r, i ≤ r ∧ (r ≤ n ∨ r = i)).
Proof.
  unfold scanUp. apply (post_loop (λ r, i ≤ r ∧ (r ≤ n ∨ r = i))); [|lia].
  intros r ?. destruct (Z.ltb_spec r n); post_steps; [|lia]. apply post_any. intros []; post_steps; lia.
Qed.

Lemma scanDown_range p n i : post (scanDown p n i) (λ r, r ≤ i ∧ (n ≤ r ∨ r = i)).
Proof.
  unfold scanDown. apply (post_loop (λ r, r ≤ i ∧ (n ≤ r ∨ r = i))); [|lia].
  intros r ?. destruct (Z.ltb_spec n r); post_steps; [|lia]. apply post_any. intros []; post_steps; lia.
Qed.

(** Every swap of the two partitioning loops takes an element off both ends of
    what is left. *)
Lemma partitionLoop_cost pivot b c s :
  b ≤ c → post (partitionLoop D pivot b c s) (λ '(b', c', s'),
    b ≤ b' ≤ c + 1 ∧ c' ≤ c ∧ s.2 ≤ s'.2 ∧ 2 * (s'.2 - s.2) ≤ c - b + 1).
Proof.
  intros Hbc. unfold partitionLoop.
  apply (post_loop (λ '(b', c', s'), b ≤ b' ≤ c + 1 ∧ c' ≤ c ∧ b' ≤ c' + 1 ∧ s.2 ≤ s'.2 ∧ 2 * (s'.2 - s.2) ≤ (c - b) - (c' - b')));
    [|lia].
  intros [[b' c'] s'] ?. post_steps. eapply post_mono; [apply scanUp_range|]. intros b1 ?. post_steps.
  eapply post_mono; [apply scanDown_range|]. intros c1 ?. cbn beta in *. destruct (Z.leb_spec c1 b1); post_steps; lia.
Qed.

Lemma protectLoop_cost pivot a b s :
  post (protectLoop D pivot a b s) (λ '(a', b', s'), s.2 ≤ s'.2 ∧ 2 * (s'.2 - s.2) ≤ Z.max 0 (b - a + 1)).
Proof.
  unfold protectLoop.
  apply (post_loop (λ '(a', b', s'), s.2 ≤ s'.2 ∧
    ((b < a ∧ b' < a' ∧ s'.2 = s.2) ∨ a' ≤ b' + 1 ∧ 2 * (s'.2 - s.2) ≤ (b - a) - (b' - a')))); [|lia].
  intros [[a' b'] s'] ?. post_steps. eapply post_mono; [apply scanDown_range|]. intros b1 ?. post_steps.
  eapply post_mono; [apply scanUp_range|]. intros a1 ?. cbn beta in *. destruct (Z.leb_spec b1 a1); post_steps; lia.
Qed.

Lemma testDups_cost lo hi m pivot b c s :
  post (testDups D lo hi m pivot b c s) (λ '(b', c', s', _), b' ≤ b ∧ s.2 ≤ s'.2 ≤ s.2 + 2).
Proof. unfold testDups. post_steps; lia. Qed.

Lemma doPivot_cost s lo hi :
  12 < hi - lo → post (doPivot D s lo hi) (λ '(_, _, s'), s.2 ≤ s'.2 ≤ s.2 + 2 * (hi - lo)).
Proof.
  intros Hn. unfold doPivot. cbn zeta. apply post_bind.
  eapply post_mono; [apply choosePivot_cost|]. intros s1 H1. post_steps.
  eapply post_mono; [apply scanUp_range|]. intros a Ha. post_steps.
  eapply post_mono; [apply partitionLoop_cost; lia|]. intros [[b c] s2] H2. cbn beta iota in *.
  apply post_bind, (post_mono _ (λ '(b', c', s', _), b' ≤ b ∧ s2.2 ≤ s'.2 ≤ s2.2 + 2)).
  { destruct (negb _ && _); [apply testDups_cost|]. apply post_Some. lia. }
  intros [[[b1 c1] s3] prot] H3. cbn beta iota in *.
  apply post_bind, (post_mono _ (λ '(b', s'), s3.2 ≤ s'.2 ∧ 2 * (s'.2 - s3.2) ≤ Z.max 0 (b1 - a + 1))).
  { destruct prot; [|apply post_Some; lia]. apply post_bind.
    eapply post_mono; [apply protectLoop_cost|]. intros [[a' b'] s4] ?. by apply post_Some. }
  intros [b2 s4] H4. cbn beta iota in *. post_steps. destruct (Z.ltb_spec 40 (hi - lo)); lia.
Qed.

Lemma gapPass_cost s a b : a ≤ b → post (gapPass D s a b) (λ s', s.2 ≤ s'.2 ≤ s.2 + (b - a)).
Proof.
  intros Hab. unfold gapPass.
  apply (post_loop (λ '(i, s'), s.2 ≤ s'.2 ≤ s.2 + (i - a - 6) ∧ (i ≤ b ∨ i = a + 6))); [|lia].
  intros [i s'] ?. destruct (Z.ltb_spec i b); post_steps; try lia.
Qed.

(** *** Stable sort *)

Lemma swapRange_cost s a b n : 0 ≤ n → post (swapRange D s a b n) (λ s', s.2 ≤ s'.2 ≤ s.2 + n).
Proof.
  intros Hn. unfold swapRange. apply (post_loop (λ '(i, s'), 0 ≤ i ≤ n ∧ s.2 ≤ s'.2 ≤ s.2 + i)); [|lia].
  intros [i s'] ?. destruct (Z.ltb_spec i n); post_steps; lia.
Qed.

Lemma shiftUp_cost s a n : a ≤ n → post (shiftUp D s a n) (λ s', s.2 ≤ s'.2 ≤ s.2 + (n - a)).
Proof.
  intros Hn. unfold shiftUp. apply (post_loop (λ '(k, s'), a ≤ k ≤ n ∧ s.2 ≤ s'.2 ≤ s.2 + (k - a))); [|lia].
  intros [k s'] ?. destruct (Z.ltb_spec k n); post_steps; lia.
Qed.

Lemma shiftDown_cost s m i : i ≤ m → post (shiftDown D s m i) (λ s', s.2 ≤ s'.2 ≤ s.2 + (m - i)).
Proof.
  intros Hn. unfold shiftDown. apply (post_loop (λ '(k, s'), i ≤ k ≤ m ∧ s.2 ≤ s'.2 ≤ s.2 + (m - k))); [|lia].
  intros [k s'] ?. destruct (Z.ltb_spec i k); post_steps; lia.
Qed.

Lemma bisect_range right i j : i ≤ j → post (bisect right i j) (λ r, i ≤ r ≤ j).
Proof.
  intros Hij. unfold bisect. apply (post_loop (λ '(x, y), i ≤ x ∧ x ≤ y ∧ y ≤ j)); [|lia].
  intros [x y] ?. destruct (Z.ltb_spec x y); post_steps; [|lia].
  apply post_any. intros []; post_steps; zlia.
Qed.

(** A block swap of [n] elements leaves [n] fewer to exchange. *)
Lemma rotate_cost s a m b : a < m < b → post (rotate D s a m b) (λ s', s.2 ≤ s'.2 ≤ s.2 + (b - a)).
Proof.
  intros Hm. unfold rotate. apply post_bind, (post_mono _ (λ '(i, s'), 0 < i ∧ s.2 ≤ s'.2 ≤ s.2 + (b - a) - 2 * i)).
  - apply (post_loop (λ '(i, j, s'), 0 < i ∧ 0 < j ∧ s.2 ≤ s'.2 ≤ s.2 + (b - a) - (i + j))); [|cbn; lia].
    intros [[i j] s'] ?. destruct (Z.eqb_spec i j); [post_steps; lia|].
    destruct (Z.ltb_spec j i); apply post_bind; (eapply post_mono; [apply swapRange_cost; lia|]); intros s1 ?; post_steps; lia.
  - intros [i s1] ?. cbn beta iota in *. eapply post_mono; [apply swapRange_cost; lia|]. intros s2 ?. cbn beta in *. lia.
Qed.

(** [2 ^ e] bounds the range: the recursion halves it. *)
Lemma symMergeFuel_cost fuel s a m b e :
  0 ≤ e → a < m < b → b - a ≤ 2 ^ e →
  post (symMergeFuel D fuel s a m b) (λ s', s.2 ≤ s'.2 ≤ s.2 + (b - a) * e).
Proof.
  revert s a m b e. induction fuel as [|fuel IH]; intros s a m b e He Hm Hb; [done|]. cbn [symMergeFuel].
  assert (1 ≤ e) as He1 by (destruct (decide (e = 0)) as [->|]; [change (2 ^ 0) with 1 in Hb|]; lia).
  assert (2 ^ e = 2 * 2 ^ (e - 1)) as Hpow by (rewrite <-Z.pow_succ_r by lia; f_equal; lia).
  destruct (Z.eqb_spec (m - a) 1).
  { apply post_bind. eapply post_mono; [apply bisect_range; lia|]. intros i ?. cbn beta in *.
    eapply post_mono; [apply shiftUp_cost; lia|]. intros s1 ?. cbn beta in *. nia. }
  destruct (Z.eqb_spec (b - m) 1).
  { apply post_bind. eapply post_mono; [apply bisect_range; lia|]. intros i ?. cbn beta in *.
    eapply post_mono; [apply shiftDown_cost; lia|]. intros s1 ?. cbn beta in *. nia. }
  cbn zeta. set (mid := a + (b - a) /t 2). assert (a < mid < b ∧ b - mid ≤ 2 ^ (e - 1) ∧ mid - a ≤ 2 ^ (e - 1)) as Hmid by (unfold mid; zlia).
  assert (∃ start r, (if mid <? m then (mid + m - b, mid) else (a, m)) = (start, r) ∧
    a ≤ start ∧ start ≤ r ∧ r ≤ m ∧ r ≤ mid ∧ mid + m - start ≤ b) as (start0 & r & -> & Hr).
  { destruct (Z.ltb_spec mid m); do 2 eexists; (split; [reflexivity|]); unfold mid in *; split_and!; zlia. }
  clearbody mid. apply post_bind. eapply post_mono; [apply bisect_range; lia|]. intros start Hst. cbn beta in *.
  set (end_ := mid + m - start). apply post_bind, (post_mono _ (λ s', s.2 ≤ s'.2 ≤ s.2 + (b - a))).
  { destruct (Z.ltb_spec start m), (Z.ltb_spec m end_); cbn [andb]; try (apply post_Some; lia).
    eapply post_mono; [apply rotate_cost; lia|]. intros s1 ?. cbn beta in *. unfold end_ in *. lia. }
  intros s1 H1. cbn beta in *. apply post_bind, (post_mono _ (λ s', s1.2 ≤ s'.2 ≤ s1.2 + (mid - a) * (e - 1))).
  { destruct (Z.ltb_spec a start), (Z.ltb_spec start mid); cbn [andb]; try (apply post_Some; nia). apply IH; lia. }
  intros s2 H2. cbn beta in *. apply (post_mono _ (λ s', s2.2 ≤ s'.2 ≤ s2.2 + (b - mid) * (e - 1))); [|intros s3 ?; nia].
  destruct (Z.ltb_spec mid end_), (Z.ltb_spec end_ b); cbn [andb]; try (apply post_Some; nia). apply IH; lia.
Qed.

Lemma symMerge_cost s a m b n :
  a < m < b → b - a ≤ n → post (symMerge D s a m b) (λ s', s.2 ≤ s'.2 ≤ s.2 + (b - a) * Z.log2_up n).
Proof.
  intros Hm Hn. apply symMergeFuel_cost; [apply Z.log2_up_nonneg|done|].
  etransitivity; [exact Hn|]. apply Z.log2_log2_up_spec. lia.
Qed.

Lemma sortBlocks_cost s n : 0 ≤ n → post (sortBlocks D s n 20) (λ s', s.2 ≤ s'.2 ≤ s.2 + 10 * n).
Proof.
  intros Hn. unfold sortBlocks. apply post_bind, (post_mono _ (λ '(a, s'), a ≤ n < a + 20 ∧ s.2 ≤ s'.2 ∧ 2 * (s'.2 - s.2) ≤ 19 * a)).
  - apply (post_loop (λ '(a, b, s'), 0 ≤ a ≤ n ∧ b = a + 20 ∧ s.2 ≤ s'.2 ∧ 2 * (s'.2 - s.2) ≤ 19 * a)); [|lia].
    intros [[a b] s'] (?&->&?). destruct (Z.leb_spec (a + 20) n); post_steps; [|lia].
    eapply post_mono; [apply insertionSort_cost|]. intros s1 Hs1. cbn beta in *. replace (a + 20 - a) with 20 in Hs1 by lia.
    post_steps. lia.
  - intros [a s1] H1. cbn beta iota in *. eapply post_mono; [apply insertionSort_cost|]. intros s2 ?. cbn beta in *. nia.
Qed.

Lemma mergePass_cost s n bs :
  0 < bs → 0 ≤ n → post (mergePass D s n bs) (λ s', s.2 ≤ s'.2 ≤ s.2 + n * Z.log2_up n).
Proof.
  intros Hbs Hn. unfold mergePass. pose proof (Z.log2_up_nonneg n).
  apply post_bind, (post_mono _ (λ '(a, s'), 0 ≤ a ≤ n ∧ s.2 ≤ s'.2 ≤ s.2 + a * Z.log2_up n)).
  - apply (post_loop (λ '(a, b, s'), 0 ≤ a ≤ n ∧ b = a + 2 * bs ∧ s.2 ≤ s'.2 ≤ s.2 + a * Z.log2_up n)); [|lia].
    intros [[a b] s'] (?&->&?). destruct (Z.leb_spec (a + 2 * bs) n); post_steps; [|lia].
    eapply post_mono; [apply (symMerge_cost _ _ _ _ n); lia|]. intros s1 ?. post_steps. nia.
  - intros [a s1] H1. cbn beta iota zeta in *. destruct (Z.ltb_spec (a + bs) n); [|apply post_Some; nia].
    eapply post_mono; [apply (symMerge_cost _ _ _ _ n); lia|]. intros s2 ?. cbn beta in *. nia.
Qed.

(** A pass for every doubling of the blocks. *)
Lemma stable_cost s n :
  0 ≤ n → post (stable D s n) (λ s', s.2 ≤ s'.2 ≤ s.2 + n * (Z.log2 n * Z.log2_up n + 10)).
Proof.
  intros Hn. unfold stable. cbn zeta. pose proof (Z.log2_up_nonneg n). pose proof (Z.log2_nonneg n).
  apply post_bind. eapply post_mono; [by apply sortBlocks_cost|]. intros s1 H1. cbn beta in *.
  apply (post_loop (λ '(bs, s'), ∃ p, 0 ≤ p ∧ bs = 20 * 2 ^ p ∧ (p = 0 ∨ p ≤ Z.log2 n) ∧
    s1.2 ≤ s'.2 ≤ s1.2 + p * (n * Z.log2_up n))); [|exists 0; cbn; lia].
  intros [bs s'] (p & Hp & -> & Hlog & Hk). pose proof (Z.pow_pos_nonneg 2 p ltac:(lia) Hp).
  destruct (Z.ltb_spec (20 * 2 ^ p) n); post_steps;
    [|assert (p * (n * Z.log2_up n) ≤ Z.log2 n * (n * Z.log2_up n)) by (apply Z.mul_le_mono_nonneg_r; [by apply Z.mul_nonneg_nonneg|lia]); nia].
  eapply post_mono; [apply mergePass_cost; lia|]. intros s2 ?. post_steps. exists (p + 1).
  split_and!; [lia|rewrite Z.pow_add_r by lia; lia| |lia|nia].
  right. apply Z.log2_le_pow2; [lia|]. rewrite Z.pow_add_r by lia. lia.
Qed.
End cost.

(** ** Quick sort within its depth *)

Section quick_cost.
Context {S A} `{!Inhabited A} (data : Interface S) (lt : A → A → bool) (elems : S → list A).
Context `{!SortLaws data lt elems} `{!StrictWeakOrder lt}.
Abbreviation D := (counted data).
Implicit Types s : S * Z.
Abbreviation size s := (zlen (elems s.1)).

(** The two parts of a partition share less than the range. *)
Lemma doPivot_splits s lo hi :
  0 ≤ lo → hi ≤ size s → 12 < hi - lo →
  post (doPivot D s lo hi) (λ '(mlo, mhi, s'),
    lo ≤ mlo < mhi ∧ mhi ≤ hi ∧ size s' = size s ∧ s.2 ≤ s'.2 ≤ s.2 + 2 * (hi - lo)).
Proof.
  intros. apply wp_post. eapply wp_mono.
  - apply post_wp; [by apply (doPivot_spec D lt (λ s, elems s.1))|by apply doPivot_cost].
  - intros [[mlo mhi] s'] [(?&?&Hsw&_) ?]. apply swaps_sz in Hsw. done.
Qed.

Lemma quickSortFuel_size fuel s a b md :
  0 ≤ a ≤ b → b ≤ size s → (Z.to_nat (b - a) < fuel)%nat →
  post (quickSortFuel D fuel s a b md) (λ s', size s' = size s).
Proof.
  intros. apply wp_post. eapply wp_mono; [by apply (quickSortFuel_spec D lt (λ s, elems s.1))|].
  intros s' [Hsw _]. by apply swaps_sz in Hsw.
Qed.

(** The two parts, one after the other, in whichever order. *)
Lemma quickSortParts_cost fuel s a1 b1 a2 b2 md C :
  (∀ s a b, 0 ≤ a ≤ b → b ≤ size s → b ≤ Z.max b1 b2 → (Z.to_nat (b - a) < fuel)%nat →
    post (quickSortFuel D fuel s a b md) (λ s', s.2 ≤ s'.2 ≤ s.2 + (b - a) * C)) →
  0 ≤ a1 ≤ b1 → 0 ≤ a2 ≤ b2 → b1 ≤ size s → b2 ≤ size s →
  (Z.to_nat (b1 - a1) < fuel)%nat → (Z.to_nat (b2 - a2) < fuel)%nat →
  post (s ← quickSortFuel D fuel s a1 b1 md; quickSortFuel D fuel s a2 b2 md)
    (λ s', s.2 ≤ s'.2 ≤ s.2 + (b1 - a1 + (b2 - a2)) * C).
Proof.
  intros IH ??????. apply post_bind. eapply post_mono.
  - apply post_and; [apply (IH s a1 b1); lia|by apply quickSortFuel_size].
  - intros s1 [? Hsz]. eapply post_mono; [apply (IH s1 a2 b2); lia|]. intros s2 ?. cbn beta in *. nia.
Qed.

(** Twice the range for every level, then heap sort or the small ranges. *)
Lemma quickSortFuel_cost fuel s a b md L :
  0 ≤ a ≤ b → b ≤ size s → (Z.to_nat (b - a) < fuel)%nat → 0 ≤ md → Z.log2 b ≤ L →
  post (quickSortFuel D fuel s a b md) (λ s', s.2 ≤ s'.2 ≤ s.2 + (b - a) * (2 * md + 2 * L + 9)).
Proof.
  revert s a b md. induction fuel as [|fuel IH]; intros s a b md Ha Hb Hf Hmd HL; [lia|]. cbn [quickSortFuel].
  pose proof (Z.log2_nonneg b). destruct (Z.ltb_spec 12 (b - a)).
  - destruct (Z.eqb_spec md 0) as [->|].
    { eapply post_mono; [apply heapSort_cost; lia|]. intros s1 Hs1. cbn beta in *.
      assert (Z.log2 (b - a) ≤ L) by (etransitivity; [apply Z.log2_le_mono|exact HL]; lia). nia. }
    cbn zeta. apply post_bind. eapply post_mono; [apply doPivot_splits; lia|].
    intros [[mlo mhi] s1] (?&?&?&?). cbn beta iota in *.
    assert (∀ s a b', 0 ≤ a ≤ b' → b' ≤ size s → b' ≤ b → (Z.to_nat (b' - a) < fuel)%nat →
      post (quickSortFuel D fuel s a b' (md - 1)) (λ s', s.2 ≤ s'.2 ≤ s.2 + (b' - a) * (2 * (md - 1) + 2 * L + 9))) as IH'.
    { intros s' a' b' ????. apply IH; [done..|lia|]. etransitivity; [apply Z.log2_le_mono|exact HL]. lia. }
    destruct (mlo - a <? b - mhi); (eapply post_mono; [apply (quickSortParts_cost _ _ _ _ _ _ _ (2 * (md - 1) + 2 * L + 9));
      [intros; apply IH'|..]; lia|]); intros s2 ?; cbn beta in *; nia.
  - destruct (Z.ltb_spec 1 (b - a)); [|apply post_Some; nia]. apply post_bind.
    eapply post_mono; [apply gapPass_cost; lia|]. intros s1 ?. cbn beta in *.
    eapply post_mono; [apply insertionSort_cost|]. intros s2 [? ?]. cbn beta in *. nia.
Qed.
End quick_cost.

(** ** Counting does not change the run *)

Lemma loop_map {St1 St2 R1 R2} (g : St2 → St1) (h : R2 → R1) (body1 : St1 → option (St1 + R1)) body2 fuel st :
  (∀ st, body1 (g st) = sum_map g h <$> body2 st) → loop fuel body1 (g st) = h <$> loop fuel body2 st.
Proof.
  intros Hb. revert st. induction fuel as [|fuel IH]; intros st; [done|]. simpl. rewrite Hb.
  by destruct (body2 st) as [[st'|x]|]; simpl.
Qed.

Section forget.
Context {S : Type} (data : Interface S).
Abbreviation D := (counted data).
Implicit Types s : S * Z.

(** The states and results of the loops, without the counter. *)
Abbreviation f1 := (@fst S Z).
Definition f2 {X} (p : X * (S * Z)) : X * S := (p.1, p.2.1).
Definition f3 {X} (p : X * (S * Z) * bool) : X * S * bool := (f2 p.1, p.2).

(** A loop that ends with the data. *)
Lemma loop_fst {X} (body1 : X * S → _) (body2 : X * (S * Z) → _) fuel x s :
  (∀ x s, body1 (x, s.1) = sum_map f2 f1 <$> body2 (x, s)) → loop fuel body1 (x, s.1) = f1 <$> loop fuel body2 (x, s).
Proof. intros Hb. apply (loop_map f2 f1 _ _ _ (x, s)). intros [x' s']. apply Hb. Qed.

(** The loops of two variables that end with one of them. *)
Lemma loop_fst3 {X Y R} (body1 : X * Y * S → _) (body2 : X * Y * (S * Z) → _) fuel x y s :
  (∀ x y s, body1 (x, y, s.1) = sum_map f2 (@f2 R) <$> body2 (x, y, s)) →
  loop fuel body1 (x, y, s.1) = f2 <$> loop fuel body2 (x, y, s).
Proof. intros Hb. apply (loop_map f2 f2 _ _ _ (x, y, s)). intros [[x' y'] s']. apply Hb. Qed.

Lemma swap_fst s i j : Swap data s.1 i j = f1 <$> Swap D s i j.
Proof. cbn. by destruct (Swap data s.1 i j). Qed.
Lemma less_fst : Less D = λ s i j, Less data s.1 i j.
Proof. done. Qed.
#[local] Hint Rewrite swap_fst less_fst : forget.

(** The two runs side by side, a call at a time. *)
Ltac forget := cbn beta iota zeta; cbn [fst snd f2 f3]; repeat (
  autorewrite with forget; cbn beta;
  match goal with
  | |- context [if ?b then _ else _] => destruct b
  | IH : context [f1 <$> _] |- _ => rewrite IH
  | |- context [f1 <$> ?m] => lazymatch m with context [mbind] => fail | _ => destruct m end
  | |- context [f2 <$> ?m] => lazymatch m with loop _ _ _ => destruct m as [[??]|] | context [mbind] => fail | _ => destruct m as [[??]|] end
  | |- context [f3 <$> ?m] => lazymatch m with context [mbind] => fail | _ => destruct m as [[[??]?]|] end
  | |- context [match ?x with _ => _ end] => is_var x; destruct x
  | |- context [scanUp ?p ?i ?n] => destruct (scanUp p i n)
  | |- context [scanDown ?p ?n ?i] => destruct (scanDown p n i)
  | |- context [bisect ?p ?i ?j] => destruct (bisect p i j)
  | |- context [Less data ?x ?i ?j] => destruct (Less data x i j) as [[]|]
  end; cbn [fst snd f2 f3 sum_map id mbind option_bind fmap option_fmap option_map continue break negb]; try done).

Lemma insertOne_fst a i s : insertOne data a i s.1 = f1 <$> insertOne D a i s.
Proof. apply loop_fst. intros j s'. forget. Qed.
#[local] Hint Rewrite insertOne_fst : forget.

Lemma insertionSort_fst s a b : insertionSort data s.1 a b = f1 <$> insertionSort D s a b.
Proof. apply loop_fst. intros i s'. forget. Qed.
#[local] Hint Rewrite insertionSort_fst : forget.

Lemma siftDown_fst s lo hi first : siftDown data s.1 lo hi first = f1 <$> siftDown D s lo hi first.
Proof. apply loop_fst. intros root s'. forget. Qed.
#[local] Hint Rewrite siftDown_fst : forget.

Lemma heapSort_fst s a b : heapSort data s.1 a b = f1 <$> heapSort D s a b.
Proof.
  unfold heapSort. cbn zeta. match goal with |- _ = _ <$> (loop _ ?b _ ≫= _) => rewrite (loop_fst _ b) end; [|intros i s'; forget].
  destruct (loop _ _ (_, s)) as [s1|]; [|done]. apply loop_fst. intros i s'. forget.
Qed.
#[local] Hint Rewrite heapSort_fst : forget.

Lemma medianOfThree_fst s m1 m0 m2 : medianOfThree data s.1 m1 m0 m2 = f1 <$> medianOfThree D s m1 m0 m2.
Proof. unfold medianOfThree. forget. Qed.
#[local] Hint Rewrite medianOfThree_fst : forget.

Lemma swapRange_fst s a b n : swapRange data s.1 a b n = f1 <$> swapRange D s a b n.
Proof. apply loop_fst. intros i s'. forget. Qed.
#[local] Hint Rewrite swapRange_fst : forget.

Lemma choosePivot_fst s lo hi : choosePivot data s.1 lo hi = f1 <$> choosePivot D s lo hi.
Proof. unfold choosePivot. forget. Qed.
#[local] Hint Rewrite choosePivot_fst : forget.

Lemma partitionLoop_fst pivot b c s : partitionLoop data pivot b c s.1 = f2 <$> partitionLoop D pivot b c s.
Proof. apply loop_fst3. intros b' c' s'. forget. Qed.
#[local] Hint Rewrite partitionLoop_fst : forget.

Lemma testDups_fst lo hi m pivot b c s : testDups data lo hi m pivot b c s.1 = f3 <$> testDups D lo hi m pivot b c s.
Proof. unfold testDups. forget. Qed.
#[local] Hint Rewrite testDups_fst : forget.

Lemma protectLoop_fst pivot a b s : protectLoop data pivot a b s.1 = f2 <$> protectLoop D pivot a b s.
Proof. apply loop_fst3. intros a' b' s'. forget. Qed.
#[local] Hint Rewrite protectLoop_fst : forget.

Lemma doPivot_fst s lo hi : doPivot data s.1 lo hi = f2 <$> doPivot D s lo hi.
Proof. unfold doPivot. forget. Qed.
#[local] Hint Rewrite doPivot_fst : forget.

Lemma gapPass_fst s a b : gapPass data s.1 a b = f1 <$> gapPass D s a b.
Proof. apply loop_fst. intros i s'. forget. Qed.
#[local] Hint Rewrite gapPass_fst : forget.

Lemma quickSortFuel_fst fuel s a b md : quickSortFuel data fuel s.1 a b md = f1 <$> quickSortFuel D fuel s a b md.
Proof.
  revert s a b md. induction fuel as [|fuel IH]; intros; [done|]. cbn [quickSortFuel]. forget.
Qed.

Lemma shiftUp_fst s a n : shiftUp data s.1 a n = f1 <$> shiftUp D s a n.
Proof. apply loop_fst. intros k s'. forget. Qed.

Lemma shiftDown_fst s m i : shiftDown data s.1 m i = f1 <$> shiftDown D s m i.
Proof. apply loop_fst. intros k s'. forget. Qed.
#[local] Hint Rewrite shiftUp_fst shiftDown_fst : forget.

Lemma rotate_fst s a m b : rotate data s.1 a m b = f1 <$> rotate D s a m b.
Proof.
  unfold rotate.
  match goal with |- _ = _ <$> (loop _ ?b _ ≫= _) => rewrite (loop_fst3 _ b) end; [forget|intros x y s'; forget].
Qed.
#[local] Hint Rewrite rotate_fst : forget.

Lemma symMergeFuel_fst fuel s a m b : symMergeFuel data fuel s.1 a m b = f1 <$> symMergeFuel D fuel s a m b.
Proof. revert s a m b. induction fuel as [|fuel IH]; intros; [done|]. cbn [symMergeFuel]. forget. Qed.

Lemma symMerge_fst s a m b : symMerge data s.1 a m b = f1 <$> symMerge D s a m b.
Proof. apply symMergeFuel_fst. Qed.
#[local] Hint Rewrite symMerge_fst : forget.

Lemma sortBlocks_fst s n bs : sortBlocks data s.1 n bs = f1 <$> sortBlocks D s n bs.
Proof.
  unfold sortBlocks.
  match goal with |- _ = _ <$> (loop _ ?b _ ≫= _) => rewrite (loop_fst3 _ b) end; [forget|intros x y s'; forget].
Qed.
#[local] Hint Rewrite sortBlocks_fst : forget.

Lemma mergePass_fst s n bs : mergePass data s.1 n bs = f1 <$> mergePass D s n bs.
Proof.
  unfold mergePass.
  match goal with |- _ = _ <$> (loop _ ?b _ ≫= _) => rewrite (loop_fst3 _ b) end; [forget|intros x y s'; forget].
Qed.
#[local] Hint Rewrite mergePass_fst : forget.

Lemma stable_fst s n : stable data s.1 n = f1 <$> stable D s n.
Proof.
  unfold stable. cbn zeta. rewrite sortBlocks_fst. destruct (sortBlocks D s n 20) as [s1|]; [|done].
  apply loop_fst. intros bs s'. forget.
Qed.
End forget.

(** A run on a counted value is the run on the value. *)
Lemma Sort_fst {S} (v : value S) s : Sort v s.1 = fst <$> Sort (countedValue v) s.
Proof.
  rewrite !Sort_quickSort, methods_counted. destruct (maxDepth _) as [d|]; [|done].
  apply quickSortFuel_fst.
Qed.

Lemma Stable_fst {S} (v : value S) s : Stable v s.1 = fst <$> Stable (countedValue v) s.
Proof. rewrite !Stable_stable, methods_counted. apply stable_fst. Qed.

(** ** The properties *)

(** What a counted run says of the run itself. *)
Lemma counted_run {S} (run : option S) (crun : option (S * Z)) B :
  run = fst <$> crun → is_Some run → post crun (λ s', 0 ≤ s'.2 ≤ B) →
  ∃ s' k, run = Some s' ∧ crun = Some (s', k) ∧ 0 ≤ k ≤ B.
Proof.
  destruct crun as [[s' k]|]; intros -> [? ?] Hp; [|done]. exists s', k. split_and!; [done|done|..]; by apply (Hp (s', k)).
Qed.

(** C16. [Sort] makes O(n log n) calls of [data.Swap]: at most [n (6 log2 n + 13)]
    of them for a collection of [n] elements, whatever the ordering and the
    elements, and whichever of the two code paths the dynamic type selects. (The
    run on the counted value is the run on the value itself.) *)
Theorem Sort_swaps_n_log_n {S A} `{!Inhabited A} (v : value S) (lt : A → A → bool) (elems : S → list A) s :
  SortLaws (methods v) lt elems → StrictWeakOrder lt →
  (methods v).(Len) s = zlen (elems s) →
  ∃ s' k, Sort v s = Some s' ∧ Sort (countedValue v) (s, 0) = Some (s', k) ∧
    0 ≤ k ≤ zlen (elems s) * (6 * Z.log2 (zlen (elems s)) + 13).
Proof.
  intros ?? Hlen. apply counted_run; [apply (Sort_fst v (s, 0))| |]; rewrite Sort_quickSort.
  - rewrite Hlen, maxDepth_value by lia.
    destruct (wp_elim _ _ (quickSort_whole (methods v) lt elems s (2 * Z.log2_up (zlen (elems s) + 1)))) as (s' & E & _).
    by exists s'.
  - rewrite methods_counted. cbn [counted Len fst]. rewrite Hlen, maxDepth_value by lia. cbn [mbind option_bind].
    eapply post_mono; [apply (quickSortFuel_cost (methods v) lt elems _ (s, 0) 0 _ _ (Z.log2 (zlen (elems s)))); try done|].
    + lia.
    + unfold span. lia.
    + pose proof (Z.log2_up_nonneg (zlen (elems s) + 1)). lia.
    + intros [s' k] Hk. cbn [fst snd] in *. assert (Z.log2_up (zlen (elems s) + 1) ≤ Z.log2 (zlen (elems s)) + 1); [|nia].
      destruct (decide (zlen (elems s) = 0)) as [->|]; [done|]. rewrite Z.log2_up_eqn by lia.
      by replace (Z.pred (zlen (elems s) + 1)) with (zlen (elems s)) by lia.
Qed.

Lemma Sort_swaps_n_log_n_witness :
  ∃ s' k, Sort (MakeInterface 5 sliceSwap (sliceLess Z.ltb)) [4; 1; 3; 1; 2] = Some s' ∧
    Sort (countedValue (MakeInterface 5 sliceSwap (sliceLess Z.ltb))) ([4; 1; 3; 1; 2], 0) = Some (s', k) ∧ 0 ≤ k ≤ 125.
Proof.
  destruct (Sort_swaps_n_log_n (MakeInterface 5 sliceSwap (sliceLess Z.ltb)) Z.ltb id [4; 1; 3; 1; 2] _ _ eq_refl)
    as (s' & k & Hs & Hc & Hk).
  exists s', k. split; [exact Hs|]. split; [exact Hc|]. exact Hk.
Defined.

(** C32. [Stable] makes O(n log² n) calls of [data.Swap]: insertion sort of the
    blocks at most [10 n], and each of the at most [log2 n] merging passes at
    most [n log2_up n]. *)
Theorem Stable_swaps_n_log2_n {S A} `{!Inhabited A} (v : value S) (lt : A → A → bool) (elems : S → list A) s :
  SortLaws (methods v) lt elems → StrictWeakOrder lt →
  (methods v).(Len) s = zlen (elems s) →
  ∃ s' k, Stable v s = Some s' ∧ Stable (countedValue v) (s, 0) = Some (s', k) ∧
    0 ≤ k ≤ zlen (elems s) * (Z.log2 (zlen (elems s)) * Z.log2_up (zlen (elems s)) + 10).
Proof.
  intros ?? Hlen. apply counted_run; [apply (Stable_fst v (s, 0))| |]; rewrite Stable_stable.
  - rewrite Hlen. destruct (wp_elim _ _ (stable_whole (methods v) lt elems s)) as (s' & E & _). by exists s'.
  - rewrite methods_counted. cbn [counted Len fst]. rewrite Hlen. apply stable_cost. lia.
Qed.

Lemma Stable_swaps_n_log2_n_witness :
  let s := [(2, 0); (1, 1); (2, 2); (1, 3)] in
  ∃ s' k, Stable (Other (sliceInterface fst_ltb)) s = Some s' ∧
    Stable (countedValue (Other (sliceInterface fst_ltb))) (s, 0) = Some (s', k) ∧ 0 ≤ k ≤ 56.
Proof.
  destruct (Stable_swaps_n_log2_n (Other (sliceInterface fst_ltb)) fst_ltb id
    [(2, 0); (1, 1); (2, 2); (1, 3)] _ fst_ltb_swo eq_refl) as (s' & k & Hs & Hc & Hk).
  exists s', k. split; [exact Hs|]. split; [exact Hc|]. exact Hk.
Defined.

(** The counts of two runs: the slice and its reverse. *)
Example swaps_of_runs :
  let v := MakeInterface 8 sliceSwap (sliceLess Z.ltb) in
  (λ r, r.2) <$> Sort (countedValue v) ([1; 2; 3; 4; 5; 6; 7; 8], 0) = Some 0 ∧
  (λ r, r.2) <$> Stable (countedValue v) ([8; 7; 6; 5; 4; 3; 2; 1], 0) = Some 28.
Proof. by vm_compute. Qed.
