(* ===== verification/ByteTrie.v ===== *)
(** * bytereplacer: the lookup trie

    [trieNode], [add] and [lookup] of bytereplacer/bytereplacer.go. The trie is
    a tree without sharing, so the in-place updates of [add] are modelled by
    the updated node; [None] is a panic (a nil pointer or an index out of
    range). The specification of a trie is [get]: the priority and value
    stored under a key. *)
From S2P Require Import Prelude.

(** ** Data *)

Inductive trieNode := TrieNode {
  tvalue : list byte;
  tpriority : Z;
  tprefix : list byte;
  tnext : option trieNode;
  ttable : option (list (option trieNode));
}.

(** [new(trieNode)] *)
Definition newNode : trieNode := TrieNode [] 0 [] None None.

Record genericReplacer := GenericReplacer {
  root : trieNode;
  tableSize : Z;
  mapping : list byte;
}.

(** [r.mapping[b]], an index of a [256]byte array by a byte. *)
Definition mapb (r : genericReplacer) (b : byte) : Z :=
  b2z (r.(mapping) !!! Z.to_nat (b2z b)).

(** ** Operations *)

(** The length of the longest common prefix. *)
Fixpoint commonLen (p key : list byte) : nat :=
  match p, key with
  | a :: p, c :: key => if decide (a = c) then S (commonLen p key) else 0%nat
  | _, _ => 0%nat
  end.

(** [t.add(key, val, priority, r)]; every call is on a shorter key, so
    [length key + 1] is enough fuel. *)
Fixpoint add (fuel : nat) (r : genericReplacer) (t : trieNode) (key val : list byte)
    (priority : Z) : option trieNode :=
  match fuel with
  | O => None
  | S fuel =>
    match key with
    | [] =>
        Some (if t.(tpriority) =? 0
              then TrieNode val priority t.(tprefix) t.(tnext) t.(ttable) else t)
    | k0 :: key' =>
      match t.(tprefix) with
      | p0 :: pre' =>
        let n := commonLen t.(tprefix) key in
        if decide (n = length t.(tprefix)) then
          next ← t.(tnext);
          next' ← add fuel r next (drop n key) val priority;
          Some (TrieNode t.(tvalue) t.(tpriority) t.(tprefix) (Some next') t.(ttable))
        else if decide (n = 0%nat) then
          let prefixNode :=
            match pre' with
            | [] => t.(tnext)
            | _ => Some (TrieNode [] 0 pre' t.(tnext) None)
            end in
          let table := replicate (Z.to_nat r.(tableSize)) None in
          table ← zset table (mapb r p0) prefixNode;
          keyNode ← add fuel r newNode key' val priority;
          table ← zset table (mapb r k0) (Some keyNode);
          Some (TrieNode t.(tvalue) t.(tpriority) [] None (Some table))
        else
          let next := TrieNode [] 0 (drop n t.(tprefix)) t.(tnext) None in
          next' ← add fuel r next (drop n key) val priority;
          Some (TrieNode t.(tvalue) t.(tpriority) (take n t.(tprefix)) (Some next') t.(ttable))
      | [] =>
        match t.(ttable) with
        | Some table =>
          let m := mapb r k0 in
          entry ← zidx table m;
          node' ← add fuel r (default newNode entry) key' val priority;
          table ← zset table m (Some node');
          Some (TrieNode t.(tvalue) t.(tpriority) [] t.(tnext) (Some table))
        | None =>
          next' ← add fuel r newNode [] val priority;
          Some (TrieNode t.(tvalue) t.(tpriority) key (Some next') None)
        end
      end
    end
  end.

Record lookupState := LookupState {
  l_node : option trieNode;
  l_isRoot : bool;           (* node == &r.root *)
  l_s : list byte;
  l_n : Z;
  l_best : Z;
  l_val : list byte;
  l_keylen : Z;
  l_found : bool;
}.

(** One iteration of the loop of [lookup]. *)
Definition lookupBody (r : genericReplacer) (ignoreRoot : bool) (st : lookupState) :
    option (lookupState + list byte * Z * bool) :=
  match st.(l_node) with
  | None => break (st.(l_val), st.(l_keylen), st.(l_found))
  | Some node =>
    let '(best, val, keylen, found) :=
      if (st.(l_best) <? node.(tpriority)) && negb (ignoreRoot && st.(l_isRoot))
      then (node.(tpriority), node.(tvalue), st.(l_n), true)
      else (st.(l_best), st.(l_val), st.(l_keylen), st.(l_found)) in
    match st.(l_s) with
    | [] => break (val, keylen, found)
    | c :: s' =>
      match node.(ttable) with
      | Some table =>
        let index := mapb r c in
        if index =? r.(tableSize) then break (val, keylen, found)
        else
          node' ← zidx table index;
          continue (LookupState node' false s' (st.(l_n) + 1) best val keylen found)
      | None =>
        if decide (node.(tprefix) ≠ [] ∧ node.(tprefix) `prefix_of` st.(l_s)) then
          continue (LookupState node.(tnext) false
            (drop (length node.(tprefix)) st.(l_s)) (st.(l_n) + zlen node.(tprefix))
            best val keylen found)
        else break (val, keylen, found)
      end
    end
  end.

Definition lookup (r : genericReplacer) (s : list byte) (ignoreRoot : bool) :
    option (list byte * Z * bool) :=
  loop (length s + 2) (lookupBody r ignoreRoot)
    (LookupState (Some r.(root)) true s 0 0 [] 0 false).

(** ** Specification *)

(** The bytes [mapping] gives an index of a table. *)
Definition mapped (r : genericReplacer) (c : byte) : Prop := mapb r c < r.(tableSize).

#[global] Instance mapped_dec r c : Decision (mapped r c).
Proof. unfold mapped. apply _. Defined.

Record mappingOk (r : genericReplacer) : Prop := {
  mapped_inj c d : mapped r c → mapb r c = mapb r d → c = d;
  unmapped c : ¬ mapped r c → mapb r c = r.(tableSize);
}.

Inductive wf (r : genericReplacer) : trieNode → Prop :=
| wf_node v p pre nx tb :
    0 ≤ p →
    (pre = [] ↔ nx = None) →
    Forall (mapped r) pre →
    (∀ n, nx = Some n → wf r n) →
    (∀ l, tb = Some l → pre = [] ∧ zlen l = r.(tableSize)) →
    (∀ l i n, tb = Some l → l !! i = Some (Some n) → wf r n) →
    wf r (TrieNode v p pre nx tb).

(** Priority and value under a key. *)
Fixpoint getF (n : nat) (r : genericReplacer) (t : trieNode) (k : list byte) :
    option (Z * list byte) :=
  match n with
  | O => None
  | S n =>
    match k with
    | [] => if t.(tpriority) =? 0 then None else Some (t.(tpriority), t.(tvalue))
    | c :: k' =>
      match t.(ttable) with
      | Some tb =>
          match tb !! Z.to_nat (mapb r c) with
          | Some (Some t') => getF n r t' k'
          | _ => None
          end
      | None =>
          if decide (t.(tprefix) ≠ [] ∧ t.(tprefix) `prefix_of` k) then
            t' ← t.(tnext); getF n r t' (drop (length t.(tprefix)) k)
          else None
      end
    end
  end.

Definition get r t k := getF (S (length k)) r t k.

Lemma getF_enough r n m t k :
  (length k < n)%nat → (length k < m)%nat → getF n r t k = getF m r t k.
Proof.
  revert m t k. induction n as [|n IH]; intros [|m] t k Hn Hm; try lia. simpl.
  destruct k as [|c k]; [done|]. simpl in *.
  destruct (ttable t) as [tb|].
  - destruct (tb !! _) as [[t'|]|]; [|done..]. apply IH; lia.
  - destruct (decide _) as [[Hp _]|]; [|done]. destruct (tnext t) as [t'|]; simpl; [|done].
    assert (0 < length (tprefix t))%nat by (destruct (tprefix t); [done|simpl; lia]).
    apply IH; rewrite length_drop; simpl; lia.
Qed.

Lemma get_nil r t :
  get r t [] = if t.(tpriority) =? 0 then None else Some (t.(tpriority), t.(tvalue)).
Proof. done. Qed.

Lemma get_table r v p pre nx tb c k :
  get r (TrieNode v p pre nx (Some tb)) (c :: k) =
  match tb !! Z.to_nat (mapb r c) with Some (Some t') => get r t' k | _ => None end.
Proof. unfold get at 1. simpl. done. Qed.

Lemma get_prefix r v p pre nx k :
  pre ≠ [] → get r (TrieNode v p pre (Some nx) None) (pre ++ k) = get r nx k.
Proof.
  intros Hpre. unfold get. set (m := length (pre ++ k)).
  assert (m = length pre + length k)%nat as Hm by apply length_app.
  assert (0 < length pre)%nat by (destruct pre; [done|simpl; lia]).
  transitivity (getF m r nx k); [|apply getF_enough; lia].
  destruct (pre ++ k) as [|c l] eqn:E; [destruct pre; done|]. cbn [getF ttable tprefix tnext].
  rewrite decide_True by (split; [done|exists k; done]).
  rewrite <-E. cbn [mbind option_bind]. by rewrite drop_app_length.
Qed.

Lemma get_prefix_other r v p pre nx k :
  k ≠ [] → ¬ (pre `prefix_of` k) → get r (TrieNode v p pre nx None) k = None.
Proof.
  intros Hk Hn. destruct k as [|c k]; [done|]. unfold get. cbn [getF ttable tprefix].
  rewrite decide_False by naive_solver. done.
Qed.

Lemma get_leaf r v p nx k :
  k ≠ [] → get r (TrieNode v p [] nx None) k = None.
Proof.
  intros Hk. destruct k as [|c k]; [done|]. unfold get. cbn [getF ttable tprefix].
  rewrite decide_False by naive_solver. done.
Qed.

Lemma get_newNode r k : get r newNode k = None.
Proof. destruct k; done. Qed.

(** ** [add]

    [put] is the effect of [add] on [get]: a new key is stored, an old one
    keeps its value. *)
Definition put r t (key : list byte) (x : Z * list byte) (k : list byte) :=
  if decide (k = key) then (match get r t key with Some y => Some y | None => Some x end)
  else get r t k.

Lemma put_ext r t t' key x k : (∀ k, get r t k = get r t' k) → put r t key x k = put r t' key x k.
Proof. intros H. unfold put. by rewrite !H. Qed.

Lemma put_prefix r v p a nx nx' rest x :
  a ≠ [] → (∀ k, get r nx' k = put r nx rest x k) →
  ∀ k, get r (TrieNode v p a (Some nx') None) k
       = put r (TrieNode v p a (Some nx) None) (a ++ rest) x k.
Proof.
  intros Ha H k. unfold put. rewrite (get_prefix _ _ _ _ nx) by done.
  destruct (decide (a `prefix_of` k)) as [[k' ->]|Hn].
  - rewrite !get_prefix, H by done. unfold put.
    destruct (decide (k' = rest)) as [->|]; [by rewrite decide_True|].
    rewrite decide_False; [done|]. intros E. by apply app_inv_head in E.
  - rewrite decide_False by (intros ->; apply Hn; by exists rest).
    destruct (decide (k = [])) as [->|]; [done|]. by rewrite !get_prefix_other.
Qed.

Lemma put_table r v p nx tb c key x entry e' :
  tb !! Z.to_nat (mapb r c) = Some entry →
  (∀ d, mapb r d = mapb r c → d = c) →
  (∀ k, get r e' k = put r (default newNode entry) key x k) →
  ∀ k, get r (TrieNode v p [] nx (Some (<[Z.to_nat (mapb r c) := Some e']> tb))) k
       = put r (TrieNode v p [] nx (Some tb)) (c :: key) x k.
Proof.
  intros Hc Hinj H k. unfold put. destruct k as [|d k]; [done|].
  assert (∀ k, match entry with Some t' => get r t' k | None => None end
               = get r (default newNode entry) k) as Hent.
  { intros k'. destruct entry; [done|]. by rewrite get_newNode. }
  assert (Z.to_nat (mapb r d) = Z.to_nat (mapb r c) → d = c) as Hinj'.
  { intros E. apply Hinj. unfold mapb in *.
    pose proof (b2z_range (mapping r !!! Z.to_nat (b2z c))).
    pose proof (b2z_range (mapping r !!! Z.to_nat (b2z d))). lia. }
  rewrite !get_table. destruct (decide (d = c)) as [->|Hdc].
  - rewrite list_lookup_insert_eq by (by eapply lookup_lt_Some). rewrite Hc, !Hent, H. unfold put.
    destruct (decide (k = key)) as [->|]; [by rewrite decide_True|].
    rewrite decide_False by congruence. done.
  - rewrite list_lookup_insert_ne by naive_solver. rewrite decide_False by congruence. done.
Qed.

Lemma get_split r v p a b nx k :
  a ≠ [] → b ≠ [] →
  get r (TrieNode v p (a ++ b) (Some nx) None) k
  = get r (TrieNode v p a (Some (TrieNode [] 0 b (Some nx) None)) None) k.
Proof.
  intros Ha Hb. destruct (decide (k = [])) as [->|]; [done|].
  destruct (decide (a `prefix_of` k)) as [[k' ->]|Hn].
  - rewrite (get_prefix _ _ _ a) by done. destruct (decide (b `prefix_of` k')) as [[k'' ->]|Hn].
    + rewrite app_assoc, !get_prefix; [done|done|by destruct a].
    + rewrite get_prefix_other; [|by destruct a|by intros ?%prefix_app_inv].
      destruct k' as [|c k']; [done|]. by rewrite get_prefix_other.
  - rewrite !get_prefix_other; try done. intros [k'' ->]. apply Hn. exists (b ++ k''). by rewrite app_assoc.
Qed.

(** The node under the remaining prefix when the first byte moves to a table. *)
Definition tailNode (pre : list byte) (nx : trieNode) : trieNode :=
  match pre with [] => nx | _ => TrieNode [] 0 pre (Some nx) None end.

Lemma get_tailNode r pre nx v p c k :
  get r (TrieNode v p (c :: pre) (Some nx) None) (c :: k) = get r (tailNode pre nx) k.
Proof.
  destruct (decide (pre `prefix_of` k)) as [[k' ->]|Hn].
  - change (c :: pre ++ k') with ((c :: pre) ++ k'). rewrite get_prefix by done.
    destruct pre as [|d pre]; [done|]. unfold tailNode. by rewrite get_prefix.
  - rewrite get_prefix_other; [|done|by intros ?%prefix_cons_inv_2].
    destruct pre as [|d pre]; [destruct Hn; apply prefix_nil|].
    destruct k as [|e k]; [done|]. unfold tailNode. by rewrite get_prefix_other.
Qed.

Lemma get_new_table r v p c pre nx k :
  mappingOk r → mapped r c →
  get r (TrieNode v p (c :: pre) (Some nx) None) k
  = get r (TrieNode v p [] None (Some
      (<[Z.to_nat (mapb r c) := Some (tailNode pre nx)]> (replicate (Z.to_nat r.(tableSize)) None)))) k.
Proof.
  intros Hok Hc. destruct k as [|d k]; [done|]. rewrite get_table.
  assert (0 ≤ mapb r c) by (unfold mapb; apply b2z_range). unfold mapped in Hc.
  destruct (decide (d = c)) as [->|Hd].
  - rewrite list_lookup_insert_eq by (rewrite length_replicate; lia). apply get_tailNode.
  - rewrite get_prefix_other; [|done|intros [? [=]]; congruence].
    rewrite list_lookup_insert_ne.
    + by destruct (_ !! _) as [[]|] eqn:E; [apply lookup_replicate in E as []|..].
    + intros E. apply Hd. symmetry. apply (mapped_inj _ Hok); [done|].
      assert (0 ≤ mapb r d) by (unfold mapb; apply b2z_range). lia.
Qed.

Section add.
Context (r : genericReplacer) (Hok : mappingOk r).

Lemma wf_newNode : wf r newNode.
Proof. constructor; naive_solver. Qed.

Lemma wf_chain v p pre nx :
  0 ≤ p → pre ≠ [] → Forall (mapped r) pre → wf r nx → wf r (TrieNode v p pre (Some nx) None).
Proof. intros. constructor; naive_solver. Qed.

Lemma wf_tailNode pre nx : Forall (mapped r) pre → wf r nx → wf r (tailNode pre nx).
Proof. destruct pre; [done|]. intros. by apply wf_chain. Qed.

Lemma wf_table v p tb :
  0 ≤ p → zlen tb = tableSize r → (∀ i n, tb !! i = Some (Some n) → wf r n) →
  wf r (TrieNode v p [] None (Some tb)).
Proof. intros. constructor; naive_solver. Qed.

Lemma mapb_range c : 0 ≤ mapb r c < 256.
Proof. apply b2z_range. Qed.

Lemma table_set (tb : list (option trieNode)) c e :
  mapped r c → zlen tb = tableSize r →
  zset tb (mapb r c) e = Some (<[Z.to_nat (mapb r c) := e]> tb).
Proof.
  intros Hc Hl. pose proof (mapb_range c). unfold mapped in Hc. unfold zset.
  destruct (Z.ltb_spec (mapb r c) 0), (Z.leb_spec (zlen tb) (mapb r c)); try lia. done.
Qed.

Lemma table_wf_set (tb : list (option trieNode)) i e :
  (∀ i n, tb !! i = Some (Some n) → wf r n) → wf r e →
  ∀ j n, <[i := Some e]> tb !! j = Some (Some n) → wf r n.
Proof. intros Htb He j n [(_ & [= ->] & _)|(_ & ?)]%list_lookup_insert_Some; eauto. Qed.

Lemma commonLen_spec p key :
  let n := commonLen p key in
  take n p = take n key ∧ (n ≤ length p)%nat ∧ (n ≤ length key)%nat ∧
  (∀ a c, p !! n = Some a → key !! n = Some c → a ≠ c).
Proof.
  revert key. induction p as [|a p IH]; intros [|c key]; simpl; try (repeat split; [lia..|naive_solver]).
  destruct (decide (a = c)) as [->|]; simpl.
  - destruct (IH key) as (H1&H2&H3&H4). rewrite H1. repeat split; [lia|lia|done].
  - repeat split; [lia|lia|]. naive_solver.
Qed.

(** What [add] promises: the new trie is well formed, keeps a table at its
    root, and stores [key] unless it was there. *)
Definition added (t t' : trieNode) (key : list byte) (x : Z * list byte) : Prop :=
  wf r t' ∧ (is_Some (ttable t) → is_Some (ttable t')) ∧ ∀ k, get r t' k = put r t key x k.

Lemma added_end v p pre nx tb val prio :
  wf r (TrieNode v p pre nx tb) → 0 < prio →
  added (TrieNode v p pre nx tb)
    (if p =? 0 then TrieNode val prio pre nx tb else TrieNode v p pre nx tb) [] (prio, val).
Proof.
  intros Hwf Hprio. inversion Hwf; subst. destruct (Z.eqb_spec p 0) as [->|].
  - split_and!; [constructor; auto; lia|done|]. intros [|c k]; [|done].
    unfold put. simpl. rewrite !get_nil. simpl. by destruct (Z.eqb_spec prio 0); [lia|].
  - split_and!; [done..|]. intros k. unfold put. destruct (decide _) as [->|]; [|done].
    rewrite get_nil. simpl. destruct (Z.eqb_spec p 0); done.
Qed.

Lemma added_chain v p a nx nx' rest x :
  0 ≤ p → a ≠ [] → Forall (mapped r) a → added nx nx' rest x →
  added (TrieNode v p a (Some nx) None) (TrieNode v p a (Some nx') None) (a ++ rest) x.
Proof.
  intros ??? (Hwf&_&Hget). split_and!; [by apply wf_chain|by intros [??]|by apply put_prefix].
Qed.

Lemma added_entry v p tb c key x entry e' :
  0 ≤ p → zlen tb = tableSize r → (∀ i n, tb !! i = Some (Some n) → wf r n) → mapped r c →
  tb !! Z.to_nat (mapb r c) = Some entry → added (default newNode entry) e' key x →
  added (TrieNode v p [] None (Some tb))
    (TrieNode v p [] None (Some (<[Z.to_nat (mapb r c) := Some e']> tb))) (c :: key) x.
Proof.
  intros ???? Hc (Hwf&_&Hget). split_and!.
  - apply wf_table; [done|by rewrite length_insert|by apply table_wf_set].
  - done.
  - eapply put_table; [done| |done]. intros d Hd. symmetry. by apply (mapped_inj _ Hok).
Qed.

Lemma added_get t0 t t' key x :
  (∀ k, get r t0 k = get r t k) → (is_Some (ttable t0) → is_Some (ttable t)) →
  added t t' key x → added t0 t' key x.
Proof.
  intros Hg Ht (?&?&Hget). split_and!; [done|auto|]. intros k. rewrite Hget. by apply put_ext.
Qed.

Lemma mapped_lt (tb : list (option trieNode)) c :
  mapped r c → zlen tb = tableSize r → ∃ e, tb !! Z.to_nat (mapb r c) = Some e.
Proof.
  intros Hc Hl. pose proof (mapb_range c). unfold mapped in Hc. apply lookup_lt_is_Some_2. lia.
Qed.

(** One call of [add], given what the calls on shorter keys do. *)
Section add_step.
Context (fuel : nat) (val : list byte) (prio : Z).
Hypothesis IH : ∀ t key, wf r t → Forall (mapped r) key → (length key < fuel)%nat →
  wp (add fuel r t key val prio) (λ t', added t t' key (prio, val)).
Context (k0 : byte) (key : list byte).
Hypothesis Hkey : Forall (mapped r) (k0 :: key).
Hypothesis Hfuel : (length (k0 :: key) < S fuel)%nat.

Lemma head_mapped : mapped r k0 ∧ Forall (mapped r) key.
Proof. by apply Forall_cons. Qed.

Lemma add_at_table v p tb :
  0 ≤ p → zlen tb = tableSize r → (∀ i n, tb !! i = Some (Some n) → wf r n) →
  let t := TrieNode v p [] None (Some tb) in
  wp (add (S fuel) r t (k0 :: key) val prio) (λ t', added t t' (k0 :: key) (prio, val)).
Proof.
  intros Hp Hlen Htb t. destruct head_mapped as [Hk0 Hk]. cbn in Hfuel. destruct (mapped_lt tb k0) as [e He]; [done..|].
  destruct (zidx_Some tb (mapb r k0)) as (e'&Hz&He'); [pose proof (mapb_range k0); unfold mapped in Hk0; lia|].
  assert (e' = e) as -> by congruence. unfold t. cbn [add tprefix ttable]. rewrite Hz. cbn [mbind option_bind]. apply wp_bind.
  eapply wp_mono; [apply IH; [|done|lia]|].
  { destruct e as [e|]; [by eapply Htb|apply wf_newNode]. }
  intros e' Hadd. rewrite table_set by done. simpl. by eapply added_entry; eauto.
Qed.

Lemma add_at_leaf v p :
  0 ≤ p → let t := TrieNode v p [] None None in
  wp (add (S fuel) r t (k0 :: key) val prio) (λ t', added t t' (k0 :: key) (prio, val)).
Proof.
  intros Hp t. unfold t. cbn [add tprefix ttable]. apply wp_bind.
  eapply wp_mono; [apply IH; [apply wf_newNode|by constructor|cbn in *; lia]|].
  intros nx' Hadd. simpl. rewrite <-(app_nil_r (k0 :: key)) at 2.
  eapply added_get, added_chain; [| |done|done|done|exact Hadd]; [|by intros [??]].
  intros k. destruct (decide (k = [])) as [->|]; [done|]. rewrite get_leaf by done.
  destruct (decide ((k0 :: key) `prefix_of` k)) as [[k' ->]|].
  - by rewrite get_prefix, get_newNode.
  - by rewrite get_prefix_other.
Qed.

(** At a node with the prefix [p0 :: pre], of which [n] bytes are common. *)
Context (p0 : byte) (pre : list byte) (v : list byte) (p : Z) (nx : trieNode).
Hypothesis (Hp : 0 ≤ p) (Hpre : Forall (mapped r) (p0 :: pre)) (Hnx : wf r nx).
Let t := TrieNode v p (p0 :: pre) (Some nx) None.

Lemma add_whole_prefix :
  commonLen (p0 :: pre) (k0 :: key) = length (p0 :: pre) →
  wp (nx' ← add fuel r nx (drop (length (p0 :: pre)) (k0 :: key)) val prio;
      Some (TrieNode v p (p0 :: pre) (Some nx') None)) (λ t', added t t' (k0 :: key) (prio, val)).
Proof.
  intros Hn. destruct (commonLen_spec (p0 :: pre) (k0 :: key)) as (Htake&_&_&_). rewrite Hn, firstn_all in Htake.
  apply wp_bind. eapply wp_mono; [apply IH; [done|by apply Forall_drop|rewrite length_drop; cbn in *; lia]|].
  intros nx' Hadd. simpl wp. rewrite <-(take_drop (length (p0 :: pre)) (k0 :: key)), <-Htake at 1.
  by apply added_chain.
Qed.

Lemma add_other_byte :
  p0 ≠ k0 →
  wp (table ← zset (replicate (Z.to_nat (tableSize r)) None) (mapb r p0) (Some (tailNode pre nx));
      keyNode ← add fuel r newNode key val prio;
      table ← zset table (mapb r k0) (Some keyNode);
      Some (TrieNode v p [] None (Some table))) (λ t', added t t' (k0 :: key) (prio, val)).
Proof.
  intros Hne. destruct head_mapped as [Hk0 Hk]. pose proof (proj1 (Forall_cons _ _ _) Hpre) as [Hp0 Hpre'].
  assert (zlen (replicate (Z.to_nat (tableSize r)) (@None trieNode)) = tableSize r) as Hlen.
  { rewrite length_replicate. pose proof (mapb_range p0). unfold mapped in Hp0. lia. }
  rewrite table_set by done. cbn [mbind option_bind]. apply wp_bind.
  eapply wp_mono; [apply IH; [apply wf_newNode|done|cbn in *; lia]|].
  intros e' Hadd. cbn beta. rewrite table_set by (try done; by rewrite length_insert). simpl.
  eapply added_get, (added_entry _ _ _ _ _ _ None); [|done|done|by rewrite length_insert| |done| |done].
  - intros k. by apply get_new_table.
  - apply table_wf_set; [|by apply wf_tailNode]. by intros i m [[=] _]%lookup_replicate.
  - rewrite list_lookup_insert_ne; [apply lookup_replicate_2; pose proof (mapb_range k0); unfold mapped in *; lia|].
    intros E. apply Hne. apply (mapped_inj _ Hok); [done|].
    pose proof (mapb_range k0). pose proof (mapb_range p0). lia.
Qed.

Lemma add_splits n :
  commonLen (p0 :: pre) (k0 :: key) = n → (0 < n < length (p0 :: pre))%nat →
  wp (nx' ← add fuel r (TrieNode [] 0 (drop n (p0 :: pre)) (Some nx) None) (drop n (k0 :: key)) val prio;
      Some (TrieNode v p (take n (p0 :: pre)) (Some nx') None)) (λ t', added t t' (k0 :: key) (prio, val)).
Proof.
  intros <-. set (n := commonLen _ _). intros Hn. destruct (commonLen_spec (p0 :: pre) (k0 :: key)) as (Htake&_&_&_).
  fold n in Htake.
  assert (take n (p0 :: pre) ≠ []) as Ht by (intros E%(f_equal length); rewrite length_take in E; cbn in *; lia).
  assert (drop n (p0 :: pre) ≠ []) as Hd by (intros E%(f_equal length); rewrite length_drop in E; cbn in *; lia).
  apply wp_bind. eapply wp_mono;
    [apply IH; [by apply wf_chain; [| |apply Forall_drop|]|by apply Forall_drop|rewrite length_drop; cbn in *; lia]|].
  intros nx' Hadd. simpl wp. rewrite <-(take_drop n (k0 :: key)), <-Htake.
  eapply added_get, added_chain; [| |done|done|by apply Forall_take|exact Hadd]; [|by intros [??]].
  intros k. unfold t. rewrite <-(take_drop n (p0 :: pre)) at 1. by apply get_split.
Qed.
End add_step.

(** [add] never panics on keys whose bytes are mapped. *)
Lemma add_spec fuel t key val prio :
  wf r t → Forall (mapped r) key → 0 < prio → (length key < fuel)%nat →
  wp (add fuel r t key val prio) (λ t', added t t' key (prio, val)).
Proof.
  intros Hwf Hkey Hprio. revert t key Hwf Hkey. induction fuel as [|fuel IH]; intros t key Hwf Hkey Hf; [lia|].
  destruct t as [v p pre nx tb]. destruct key as [|k0 key]; [by apply added_end|].
  inversion Hwf as [? ? ? ? ? Hp Hnx Hpre Hnxwf Htb Htbwf]; subst. destruct pre as [|p0 pre].
  { assert (nx = None) as -> by (by apply Hnx). destruct tb as [tb|]; [|by apply add_at_leaf].
    apply add_at_table; try done; [by destruct (Htb _ eq_refl)|by eauto]. }
  assert (tb = None) as -> by (destruct tb as [tb|]; [by destruct (Htb _ eq_refl)|done]).
  destruct nx as [nx|]; [|by destruct Hnx as [_ Hnx]; discriminate (Hnx eq_refl)].
  specialize (Hnxwf _ eq_refl). destruct (commonLen_spec (p0 :: pre) (k0 :: key)) as (_&Hn1&_&Hdiff).
  cbn [add tprefix tnext ttable tvalue tpriority].
  destruct (decide (commonLen (p0 :: pre) (k0 :: key) = length (p0 :: pre))) as [Hn|Hn];
    [|destruct (decide (commonLen (p0 :: pre) (k0 :: key) = 0%nat)) as [Hn0|Hn0]].
  - rewrite Hn. by apply add_whole_prefix.
  - cbn zeta. assert (match pre with [] => Some nx | _ :: _ => Some (TrieNode [] 0 pre (Some nx) None) end
      = Some (tailNode pre nx)) as -> by (by destruct pre).
    apply add_other_byte; try done. apply Hdiff; by rewrite Hn0.
  - apply add_splits; try done. lia.
Qed.
End add.

(** ** [lookup]

    [bestUpto G j] says what the loop variables hold once the prefixes of
    fewer than [j] bytes have been looked at; [G m] is what the trie holds for
    the prefix of length [m]. *)
Definition bestUpto (G : nat → option (Z * list byte)) (j : nat)
    (best : Z) (val : list byte) (keylen : Z) (found : bool) : Prop :=
  (∀ m p v, (m < j)%nat → G m = Some (p, v) → p ≤ best) ∧
  if found
  then ∃ n, (n < j)%nat ∧ keylen = Z.of_nat n ∧ G n = Some (best, val)
  else best = 0 ∧ val = [] ∧ keylen = 0.

Lemma bestUpto_skip G j j' best val keylen found :
  bestUpto G j best val keylen found → (j ≤ j')%nat →
  (∀ m, (j ≤ m < j')%nat → G m = None) → bestUpto G j' best val keylen found.
Proof.
  intros [Hle Hf] Hj Hnone. split.
  - intros m p v Hm HG. destruct (decide (m < j)%nat); [by eapply Hle|].
    rewrite Hnone in HG by lia. done.
  - destruct found; [|done]. destruct Hf as (n&?&?&?). exists n. split; [lia|done].
Qed.

Lemma bestUpto_hit G j best val keylen found p v :
  bestUpto G j best val keylen found → best < p → G j = Some (p, v) →
  bestUpto G (S j) p v (Z.of_nat j) true.
Proof.
  intros [Hle Hf] Hp HG. split; [|exists j; split; [lia|done]].
  intros m p' v' Hm HG'. destruct (decide (m = j)) as [->|]; [naive_solver lia|].
  pose proof (Hle m p' v' ltac:(lia) HG'). lia.
Qed.

Lemma bestUpto_miss G j best val keylen found :
  bestUpto G j best val keylen found → (∀ p v, G j = Some (p, v) → p ≤ best) →
  bestUpto G (S j) best val keylen found.
Proof.
  intros [Hle Hf] HG. split.
  - intros m p v Hm HGm. destruct (decide (m = j)) as [->|]; [by eapply HG|].
    apply (Hle m p v); [lia|done].
  - destruct found; [|done]. destruct Hf as (n&?&?&?). exists n. split; [lia|done].
Qed.

Lemma get_pos r t k p v : wf r t → get r t k = Some (p, v) → 0 < p.
Proof.
  unfold get. generalize (S (length k)) as n. intros n. revert t k.
  induction n as [|n IH]; intros t k Hwf; [done|]. cbn [getF].
  inversion Hwf as [v' p' pre nx tb ? ? ? Hnx Htb Htbwf]; subst. cbn [tpriority tvalue tprefix tnext ttable].
  destruct k as [|c k].
  - destruct (Z.eqb_spec p' 0); [done|]. intros [= -> ->]. lia.
  - destruct tb as [tb|].
    + destruct (tb !! _) as [[t'|]|] eqn:E; [|done..]. intros HG.
      apply (IH t' k); [by eapply Htbwf|done].
    + destruct (decide _); [|done]. destruct nx as [nx|]; [|done]. simpl. intros HG.
      eapply IH; [by apply Hnx|done].
Qed.

Section lookup.
Context (r : genericReplacer) (Hok : mappingOk r) (ig : bool) (s0 : list byte).

(** The prefix of length [m] counts unless it is the ignored empty one. *)
Definition hitAt (m : nat) : option (Z * list byte) :=
  if ig && (m =? 0)%nat then None else get r (root r) (take m s0).

Definition lookupInv (st : lookupState) : Prop :=
  match st.(l_node) with
  | Some nd => ∃ j, st.(l_n) = Z.of_nat j ∧ (j ≤ length s0)%nat ∧ st.(l_s) = drop j s0 ∧
      st.(l_isRoot) = (j =? 0)%nat ∧ wf r nd ∧ (∀ k, get r nd k = get r (root r) (take j s0 ++ k)) ∧
      bestUpto hitAt j st.(l_best) st.(l_val) st.(l_keylen) st.(l_found)
  | None => bestUpto hitAt (S (length s0)) st.(l_best) st.(l_val) st.(l_keylen) st.(l_found)
  end ∧ 0 ≤ st.(l_best).

Definition lookupMeasure (st : lookupState) : nat :=
  match st.(l_node) with Some _ => S (length st.(l_s)) | None => 0%nat end.

(** What the trie below a node says about longer prefixes. *)
Lemma hitAt_below nd j m :
  (∀ k, get r nd k = get r (root r) (take j s0 ++ k)) → (j < m ≤ length s0)%nat →
  hitAt m = get r nd (take (m - j) (drop j s0)).
Proof.
  intros Hg Hm. unfold hitAt. destruct m as [|m]; [lia|]. rewrite andb_false_r, Hg.
  f_equal. rewrite <-(take_drop j (take (S m) s0)), take_take, take_drop_commute.
  by replace (j `min` S m)%nat with j by lia; replace (j + (S m - j))%nat with (S m) by lia.
Qed.

Lemma hitAt_none_below nd j best val keylen found :
  (∀ k, get r nd k = get r (root r) (take j s0 ++ k)) → (j ≤ length s0)%nat →
  (∀ i, (0 < i)%nat → get r nd (take i (drop j s0)) = None ∨ (length s0 < j + i)%nat) →
  bestUpto hitAt (S j) best val keylen found →
  bestUpto hitAt (S (length s0)) best val keylen found.
Proof.
  intros Hg Hj Hnone Hb. eapply bestUpto_skip; [done|lia|]. intros m Hm.
  rewrite (hitAt_below nd j) by (done || lia). destruct (Hnone (m - j)%nat); [lia|done|lia].
Qed.

Lemma lookup_visit st nd j :
  lookupInv st → st.(l_node) = Some nd → st.(l_n) = Z.of_nat j →
  let '(best, val, keylen, found) :=
    if (st.(l_best) <? nd.(tpriority)) && negb (ig && st.(l_isRoot))
    then (nd.(tpriority), nd.(tvalue), st.(l_n), true)
    else (st.(l_best), st.(l_val), st.(l_keylen), st.(l_found)) in
  bestUpto hitAt (S j) best val keylen found ∧ 0 ≤ best.
Proof.
  unfold lookupInv. intros [HI Hbest] Hnd Hn. rewrite Hnd in HI.
  destruct HI as (j'&Hn'&Hj&Hs&Hr&Hwf&Hg&Hb). assert (j' = j) as -> by lia. rewrite Hr.
  assert (hitAt j = if ig && (j =? 0)%nat then None else
    if tpriority nd =? 0 then None else Some (tpriority nd, tvalue nd)) as Hhit.
  { unfold hitAt. by rewrite <-get_nil with (r := r), Hg, app_nil_r. }
  destruct (Z.ltb_spec (l_best st) (tpriority nd)) as [Hlt|Hge]; simpl.
  - destruct (ig && _) eqn:Eig; simpl.
    + split; [|done]. eapply bestUpto_miss; [done|]. rewrite Hhit. done.
    + split; [|lia]. rewrite Hn. eapply bestUpto_hit; [done|lia|]. rewrite Hhit.
      by destruct (Z.eqb_spec (tpriority nd) 0); [lia|].
  - split; [|done]. eapply bestUpto_miss; [done|]. intros p v. rewrite Hhit.
    destruct (ig && _); [done|]. destruct (_ =? 0); [done|]. intros [= <- <-]. lia.
Qed.

(** After the visit of a node that has read [j] bytes, with [c] the next one. *)
Section visited.
Context (j : nat) (c : byte) (s' : list byte) (Hdrop : drop j s0 = c :: s').
Context (best : Z) (val : list byte) (keylen : Z) (found : bool).
Hypothesis Hv : bestUpto hitAt (S j) best val keylen found.
Hypothesis Hbest : 0 ≤ best.
Context (v : list byte) (p : Z) (pre : list byte) (nx : option trieNode).

Lemma visited_length : length s0 = (j + S (length s'))%nat.
Proof. apply (f_equal length) in Hdrop. rewrite length_drop in Hdrop. cbn in Hdrop. lia. Qed.

Lemma visited_rest : s' = drop (S j) s0.
Proof. replace (S j) with (j + 1)%nat by lia. by rewrite <-drop_drop, Hdrop. Qed.

(** No byte after [j] leads to a key. *)
Lemma visited_end nd :
  (∀ k, get r nd k = get r (root r) (take j s0 ++ k)) → (∀ i, get r nd (take (S i) (c :: s')) = None) →
  bestUpto hitAt (S (length s0)) best val keylen found.
Proof.
  intros Hg Hnone. pose proof visited_length. eapply hitAt_none_below; [exact Hg|lia| |done].
  intros [|i] Hi; [lia|]. left. by rewrite Hdrop.
Qed.

Lemma visited_table tb e :
  let nd := TrieNode v p pre nx (Some tb) in
  wf r nd → (∀ k, get r nd k = get r (root r) (take j s0 ++ k)) → tb !! Z.to_nat (mapb r c) = Some e →
  lookupInv (LookupState e false s' (Z.of_nat j + 1) best val keylen found).
Proof.
  intros nd Hwf Hg He. pose proof visited_length. inversion Hwf as [????? ? _ _ _ _ Htbwf]; subst.
  split; [|done]. simpl. destruct e as [nd'|].
  - exists (S j). split_and!; [lia|lia|exact visited_rest|done|by eapply Htbwf| |done].
    intros k. specialize (Hg (c :: k)). unfold nd in Hg. rewrite get_table, He in Hg. rewrite Hg.
    by erewrite take_S_r by (rewrite <-(Nat.add_0_r j), <-lookup_drop, Hdrop; done); rewrite <-app_assoc.
  - eapply visited_end; [exact Hg|]. intros i. cbn [take]. unfold nd. by rewrite get_table, He.
Qed.

Lemma visited_prefix k' n :
  let nd := TrieNode v p pre (Some n) None in
  wf r n → pre ≠ [] → (∀ k, get r nd k = get r (root r) (take j s0 ++ k)) → c :: s' = pre ++ k' →
  lookupInv (LookupState (Some n) false k' (Z.of_nat j + zlen pre) best val keylen found).
Proof.
  intros nd Hwf Hne Hg Hpk. pose proof visited_length as Hl.
  assert (0 < length pre)%nat by (destruct pre; [done|cbn; lia]).
  assert (S (length s') = length pre + length k')%nat as Hlk by (apply (f_equal length) in Hpk; rewrite length_app in Hpk; cbn in Hpk; lia).
  assert (take (j + length pre) s0 = take j s0 ++ pre) as Htake.
  { rewrite <-(take_drop j s0) at 1. rewrite Hdrop, Hpk, take_app_ge by (rewrite length_take; lia).
    f_equal. rewrite take_app_le, take_ge; rewrite ?length_take; try lia; done. }
  split; [|done]. simpl. exists (j + length pre)%nat. split_and!; [lia|lia| | |done| |].
  - by rewrite <-drop_drop, Hdrop, Hpk, drop_app_length.
  - by destruct j, (length pre) eqn:?; try lia.
  - intros k. rewrite Htake, <-app_assoc, <-Hg. symmetry. by apply get_prefix.
  - eapply bestUpto_skip; [done|lia|]. intros m Hm.
    rewrite (hitAt_below _ j m Hg) by lia. rewrite Hdrop, Hpk, take_app_le by lia. apply get_prefix_other.
    + intros E%(f_equal length). rewrite length_take in E. cbn in E. lia.
    + intros E%prefix_length. rewrite length_take in E. lia.
Qed.

Lemma visited_no_prefix :
  let nd := TrieNode v p pre nx None in
  wf r nd → (∀ k, get r nd k = get r (root r) (take j s0 ++ k)) → ¬ (pre ≠ [] ∧ pre `prefix_of` c :: s') →
  bestUpto hitAt (S (length s0)) best val keylen found.
Proof.
  intros nd Hwf Hg Hnp. eapply visited_end; [exact Hg|]. intros i. unfold nd in *.
  destruct (decide (pre = [])) as [->|Hpre]; [by apply get_leaf|].
  destruct nx as [n|]; [|inversion Hwf; naive_solver].
  apply get_prefix_other; [done|]. intros Hpp. apply Hnp. split; [done|]. etrans; [exact Hpp|]. apply prefix_take.
Qed.
End visited.

Lemma lookupBody_spec st :
  lookupInv st →
  wp (lookupBody r ig st) (λ res, match res with
    | inl st' => lookupInv st' ∧ (lookupMeasure st' < lookupMeasure st)%nat
    | inr (val, keylen, found) => ∃ best, bestUpto hitAt (S (length s0)) best val keylen found
    end).
Proof.
  intros HI. unfold lookupBody, lookupMeasure at 2. destruct (l_node st) as [nd|] eqn:Hnd.
  2:{ destruct HI as [HI _]. rewrite Hnd in HI. simpl. eauto. }
  pose proof HI as [HI' _]. rewrite Hnd in HI'. destruct HI' as (j&Hn&Hj&Hs&Hr&Hwf&Hg&_).
  pose proof (lookup_visit st nd j HI Hnd Hn) as Hv. destruct (if _ && _ then _ else _) as [[[best val] keylen] found].
  destruct Hv as [Hv Hbest]. rewrite Hs, Hn. destruct (drop j s0) as [|c s'] eqn:Hdrop.
  { exists best. eapply hitAt_none_below; [done|done| |done]. intros i Hi. right.
    apply (f_equal length) in Hdrop. rewrite length_drop in Hdrop. simpl in *. lia. }
  inversion Hwf as [v p pre nx tb Hp Hnx Hpre Hnxwf Htb Htbwf Hnd']. subst nd. cbn [ttable tprefix tnext].
  destruct tb as [tb|].
  - destruct (Htb _ eq_refl) as [_ Hlen]. pose proof (mapb_range r c) as Hmc.
    destruct (Z.eqb_spec (mapb r c) (tableSize r)) as [Hmt|Hmt].
    { exists best. eapply visited_end; [exact Hdrop|exact Hv|exact Hg|]. intros i. cbn [take].
      rewrite get_table, lookup_ge_None_2; [done|lia]. }
    assert (mapped r c) as Hc.
    { destruct (decide (mapped r c)); [done|]. destruct Hmt. by apply (unmapped _ Hok). }
    destruct (zidx_Some tb (mapb r c)) as (e&He&He'); [unfold mapped in *; lia|]. rewrite He. simpl.
    split; [by eapply visited_table|unfold lookupMeasure; simpl; destruct e; simpl; lia].
  - destruct (decide _) as [[Hne [k' Hpk]]|Hnp]; [|exists best; by eapply visited_no_prefix].
    destruct nx as [nx|]; [|by destruct Hne; apply Hnx]. rewrite Hpk, drop_app_length. simpl.
    split; [eapply visited_prefix; try done; by apply Hnxwf|].
    unfold lookupMeasure. simpl. rewrite length_app. destruct pre; [done|simpl; lia].
Qed.

Lemma lookup_spec :
  wf r (root r) →
  wp (lookup r s0 ig) (λ '(val, keylen, found),
    ∃ best, bestUpto hitAt (S (length s0)) best val keylen found).
Proof.
  intros Hwf. unfold lookup. eapply wp_mono.
  - eapply (wp_loop lookupInv lookupMeasure _
      (λ '(val, keylen, found), ∃ best, bestUpto hitAt (S (length s0)) best val keylen found)).
    + intros st HI. eapply wp_mono; [by apply lookupBody_spec|]. by intros [?|[[??]?]].
    + split; [|done]. simpl. exists 0%nat. split_and!; [done|lia|done|done|done|done|].
      split; [intros; lia|done].
    + unfold lookupMeasure. simpl. lia.
  - by intros [[??]?].
Qed.
End lookup.
