(* ===== verification/ByteReplacer.v ===== *)
(** * bytereplacer: replacers and in-place replacement

    [New], [makeGenericReplacer] and the two [Replace] methods of
    bytereplacer/bytereplacer.go. A slice [s] is a buffer, which is the list
    of its [cap(s)] bytes, with a length; [dst] shares the buffer of [s] until
    the output has to grow. *)
From S2P Require Import Prelude.
From S2P Require Import ByteTrie.

(** ** Building a replacer *)

(** Marking the bytes of the keys, [oldnew] being walked in steps of two. *)
Definition markKey (mapping : list byte) (key : list byte) : list byte :=
  foldl (λ m c, <[Z.to_nat (b2z c) := x01]> m) mapping key.

Fixpoint markKeys (mapping : list byte) (oldnew : list (list byte)) : list byte :=
  match oldnew with
  | [] => mapping
  | [key] => markKey mapping key
  | key :: _ :: rest => markKeys (markKey mapping key) rest
  end.

Definition countMarks (mapping : list byte) : Z := foldl (λ n b, n + b2z b) 0 mapping.

(** The loop that turns marks into dense indices, [index] being a [byte]. *)
Fixpoint denseIndex (tableSize : Z) (index : Z) (mapping : list byte) : list byte :=
  match mapping with
  | [] => []
  | b :: m =>
      if b2z b =? 0 then z2b tableSize :: denseIndex tableSize index m
      else z2b index :: denseIndex tableSize (u8 (index + 1)) m
  end.

(** The loop that adds the pairs; [r.root] is the node being built. *)
Fixpoint addAll (r : genericReplacer) (root : trieNode) (oldnew : list (list byte)) : option trieNode :=
  match oldnew with
  | [] => Some root
  | [_] => None
  | key :: val :: rest =>
      root ← add (length key + 1) r root key val (zlen oldnew);
      addAll r root rest
  end.

Definition makeGenericReplacer (oldnew : list (list byte)) : option genericReplacer :=
  let marks := markKeys (replicate 256 x00) oldnew in
  let tableSize := countMarks marks in
  let r := GenericReplacer
    (TrieNode [] 0 [] None (Some (replicate (Z.to_nat tableSize) None)))
    tableSize (denseIndex tableSize 0 marks) in
  root ← addAll r (root r) oldnew;
  Some (GenericReplacer root tableSize (mapping r)).

Inductive replacer := Generic (g : genericReplacer) | ByteTable (r : list byte).

(** The scan of [New]: [None] when some old value is not one byte, else
    whether all new values are. *)
Fixpoint allSingle (oldnew : list (list byte)) (allNewBytes : bool) : option bool :=
  match oldnew with
  | old :: new :: rest =>
      if negb (zlen old =? 1) then None
      else allSingle rest (allNewBytes && (zlen new =? 1))
  | _ => Some allNewBytes
  end.

(** The loop from the last pair down to the first. *)
Fixpoint fillTable (r : list byte) (oldnew : list (list byte)) : option (list byte) :=
  match oldnew with
  | old :: new :: rest =>
      r ← fillTable r rest;
      o ← zidx old 0;
      n ← zidx new 0;
      zset r (b2z o) n
  | _ => Some r
  end.

Definition New (oldnew : list (list byte)) : option replacer :=
  if Nat.odd (length oldnew) then None
  else
    match allSingle oldnew true with
    | Some true => ByteTable <$> fillTable (z2b <$> seqZ 0 256) oldnew
    | _ => Generic <$> makeGenericReplacer oldnew
    end.

(** ** Replacing in a buffer *)

Definition blit (buf : list byte) (off : Z) (x : list byte) : list byte :=
  take (Z.to_nat off) buf ++ x ++ drop (Z.to_nat off + length x) buf.

(** [dst]: the first bytes of the buffer of [s], or (once [grown]) an
    allocation of its own. *)
Inductive output := Shared (n : Z) | Grown (b : list byte).

Definition content (buf : list byte) (d : output) : list byte :=
  match d with Shared n => take (Z.to_nat n) buf | Grown b => b end.

(** [dst = append(dst, x...)]. An append to the shared buffer that does not fit
    would move [dst] elsewhere with [grown] still false; it has no value here
    and is proved not to happen. *)
Definition appendTo (buf : list byte) (d : output) (x : list byte) : option (list byte * output) :=
  match d with
  | Shared n =>
      if n + zlen x <=? zlen buf then Some (blit buf n x, Shared (n + zlen x)) else None
  | Grown b => Some (buf, Grown (b ++ x))
  end.

Record replaceState := ReplaceState {
  r_buf : list byte;
  r_len : Z;             (* len(s) *)
  r_i : Z;
  r_last : Z;
  r_prev : bool;         (* prevMatchEmpty *)
  r_dst : output;
}.

(** The fast path: [s[i]] starts no key. *)
Definition startsNoKey (r : genericReplacer) (st : replaceState) : option bool :=
  if negb (st.(r_i) =? st.(r_len)) && (tpriority (root r) =? 0) then
    c ← zidx st.(r_buf) st.(r_i);
    if mapb r c =? tableSize r then Some true
    else
      tb ← ttable (root r);
      e ← zidx tb (mapb r c);
      Some (bool_decide (e = None))
  else Some false.

(** Writing [val] over the [keylen] bytes matched at [i]. *)
Definition putValue (st : replaceState) (val : list byte) (keylen : Z) : option replaceState :=
  let '(ReplaceState buf len i last prev dst) := st in
  let diff := zlen val - keylen in
  match dst with
  | Grown b => Some (ReplaceState buf len (i + keylen) (i + keylen) prev (Grown (b ++ val)))
  | Shared n =>
      if diff <? 0 then
        '(buf, dst) ← appendTo buf dst val;
        Some (ReplaceState buf len (i + keylen) (i + keylen) prev dst)
      else if diff <=? zlen buf - len then
        src ← zslice buf (i + keylen) len;
        room ← zslice buf (i + zlen val) (zlen buf);
        let buf := blit buf (i + zlen val) (take (length room) src) in
        '(buf, dst) ← appendTo buf dst val;
        Some (ReplaceState buf (len + diff) (i + zlen val) (i + zlen val) prev dst)
      else
        Some (ReplaceState buf len (i + keylen) (i + keylen) prev
                (Grown (take (Z.to_nat n) buf ++ val)))
  end.

Definition replaceBody (r : genericReplacer) (st : replaceState) :
    option (replaceState + replaceState) :=
  let '(ReplaceState buf len i last prev dst) := st in
  if len <? i then break st
  else
    fast ← startsNoKey r st;
    if fast : bool then continue (ReplaceState buf len (i + 1) last prev dst)
    else
      s ← zslice buf i len;
      '(val, keylen, found) ← lookup r s prev;
      let prev := found && (keylen =? 0) in
      if found : bool then
        x ← zslice buf last i;
        '(buf, dst) ← appendTo buf dst x;
        st ← putValue (ReplaceState buf len i last prev dst) val keylen;
        continue st
      else continue (ReplaceState buf len (i + 1) last prev dst).

(** [r.Replace(s)] for [s = buf[:len]]: the final buffer and the result. *)
Definition genericReplace (r : genericReplacer) (buf : list byte) (len : Z) :
    option (list byte * output) :=
  st ← loop (2 * Z.to_nat len + 4) (replaceBody r) (ReplaceState buf len 0 0 false (Shared 0));
  let '(ReplaceState buf len _ last _ dst) := st in
  if negb (last =? len) then
    x ← zslice buf last len;
    appendTo buf dst x
  else Some (buf, dst).

Definition byteReplace (r : list byte) (buf : list byte) (len : Z) : option (list byte * output) :=
  s ← zslice buf 0 len;
  Some (((λ b, r !!! Z.to_nat (b2z b)) <$> s) ++ drop (Z.to_nat len) buf, Shared len).

Definition Replace (r : replacer) (buf : list byte) (len : Z) : option (list byte * output) :=
  match r with
  | Generic g => genericReplace g buf len
  | ByteTable t => byteReplace t buf len
  end.

(** ** Specification

    Pairs are tried in order at every position, an empty match being ignored
    right after an empty match; the scan goes on behind the match. *)
Fixpoint pairsOf (oldnew : list (list byte)) : list (list byte * list byte) :=
  match oldnew with
  | old :: new :: rest => (old, new) :: pairsOf rest
  | _ => []
  end.

Fixpoint matchFirst (ps : list (list byte * list byte)) (s : list byte) (ig : bool) :
    option (list byte * list byte) :=
  match ps with
  | [] => None
  | (k, v) :: ps =>
      if decide (k `prefix_of` s ∧ ¬ (ig = true ∧ k = [])) then Some (k, v) else matchFirst ps s ig
  end.

Inductive replaces (ps : list (list byte * list byte)) : bool → list byte → list byte → Prop :=
| replaces_match ig k v s out :
    matchFirst ps (k ++ s) ig = Some (k, v) →
    replaces ps (bool_decide (k = [])) s out → replaces ps ig (k ++ s) (v ++ out)
| replaces_copy ig c s out :
    matchFirst ps (c :: s) ig = None → replaces ps false s out → replaces ps ig (c :: s) (c :: out)
| replaces_end ig : matchFirst ps [] ig = None → replaces ps ig [] [].

Lemma replaces_inv ps ig s o :
  replaces ps ig s o →
  match matchFirst ps s ig with
  | Some (k, v) => ∃ s' o', s = k ++ s' ∧ o = v ++ o' ∧ replaces ps (bool_decide (k = [])) s' o'
  | None => match s with
            | [] => o = []
            | c :: s' => ∃ o', o = c :: o' ∧ replaces ps false s' o'
            end
  end.
Proof. intros [? ? ? ? ? Hm ?|? ? ? ? Hm ?|? Hm]; rewrite Hm; eauto 6. Qed.

Lemma replaces_det ps ig s o1 o2 : replaces ps ig s o1 → replaces ps ig s o2 → o1 = o2.
Proof.
  intros H. revert o2. induction H as [ig k v s out Hm _ IH|ig c s out Hm _ IH|ig Hm];
    intros o2 H2%replaces_inv; rewrite Hm in H2.
  - destruct H2 as (s'&o'&->%app_inv_head&->&?). f_equal. by apply IH.
  - destruct H2 as (o'&->&?). f_equal. by apply IH.
  - done.
Qed.

Lemma matchFirst_ignored ps s : matchFirst ps s true = Some ([], []) → False.
Proof. induction ps as [|[k v] ps IH]; [done|]. simpl. destruct (decide _) as [[_ H]|]; naive_solver. Qed.

Lemma matchFirst_Some ps s ig k v :
  matchFirst ps s ig = Some (k, v) → (k, v) ∈ ps ∧ k `prefix_of` s ∧ (ig = true → k ≠ []).
Proof.
  induction ps as [|[k' v'] ps IH]; [done|]. simpl. destruct (decide _) as [[Hp Hi]|].
  - intros [= -> ->]. split_and!; [apply list_elem_of_here|done|naive_solver].
  - intros (?&?&?)%IH. split_and!; [by apply list_elem_of_further|done..].
Qed.

Lemma matchFirst_noempty ps s ig :
  (∀ v, ([], v) ∉ ps) → matchFirst ps s ig = matchFirst ps s false.
Proof.
  induction ps as [|[k v] ps IH]; intros Hne; [done|]. simpl.
  rewrite IH by (intros v' ?; eapply Hne; by apply list_elem_of_further).
  assert (k ≠ []) by (intros ->; eapply Hne; apply list_elem_of_here).
  destruct (decide (k `prefix_of` s)).
  - by rewrite !decide_True by naive_solver.
  - by rewrite !decide_False by naive_solver.
Qed.

(** What the trie of a list of pairs holds under a key. *)
Fixpoint prioOf (ps : list (list byte * list byte)) (k : list byte) : option (Z * list byte) :=
  match ps with
  | [] => None
  | (k', v) :: ps' => if decide (k = k') then Some (2 * (1 + zlen ps'), v) else prioOf ps' k
  end.

Lemma prioOf_bound ps k p v : prioOf ps k = Some (p, v) → p ≤ 2 * zlen ps.
Proof.
  induction ps as [|[k' v'] ps IH]; [done|]. simpl. destruct (decide _); [|intros ?%IH; lia].
  intros [= <- <-]. lia.
Qed.

Lemma bestUpto_ext G G' j best val keylen found :
  (∀ m, (m < j)%nat → G m = G' m) →
  bestUpto G j best val keylen found → bestUpto G' j best val keylen found.
Proof.
  intros HG [Hle Hf]. split.
  - intros m p v Hm. rewrite <-HG by done. by apply Hle.
  - destruct found; [|done]. destruct Hf as (n&?&?&?). exists n. by rewrite <-HG.
Qed.

(** The highest priority among the prefixes is the first pair that matches. *)
Lemma bestUpto_matchFirst ps s ig best val keylen found :
  bestUpto (λ m, if ig && (m =? 0)%nat then None else prioOf ps (take m s)) (S (length s))
    best val keylen found →
  match matchFirst ps s ig with
  | Some (k, v) => found = true ∧ val = v ∧ keylen = zlen k
  | None => found = false
  end.
Proof.
  induction ps as [|[k' v'] ps IH]; intros Hb.
  { destruct Hb as [_ Hb]. simpl. destruct found; [|done]. destruct Hb as (n&_&_&HG). by destruct (ig && _). }
  cbn [matchFirst]. destruct (decide _) as [[[s' Hs] Hig]|Hno].
  - destruct Hb as [Hle Hf].
    assert ((if ig && (length k' =? 0)%nat then None else prioOf ((k', v') :: ps) (take (length k') s))
             = Some (2 * (1 + zlen ps), v')) as Hhit.
    { assert (ig && (length k' =? 0)%nat = false) as ->.
      { destruct ig; [|done]. destruct k'; [|done]. naive_solver. }
      simpl. rewrite decide_True; [done|]. by rewrite Hs, take_app_length. }
    assert (2 * (1 + zlen ps) ≤ best) as Hbest.
    { eapply Hle; [|exact Hhit]. rewrite Hs, length_app. lia. }
    destruct found; [|lia]. destruct Hf as (n&Hn&Hk&HG). destruct (ig && _); [done|].
    simpl in HG. destruct (decide _) as [E|]; [|by apply prioOf_bound in HG; lia].
    split_and!; [done|congruence|]. rewrite <-E, length_take. lia.
  - apply IH. eapply bestUpto_ext; [|exact Hb]. intros m Hm. simpl.
    destruct (ig && _) eqn:Eig; [done|]. rewrite decide_False; [done|]. intros Htake. apply Hno. subst k'.
    split; [apply prefix_take|]. intros [-> Hnil]. destruct m; [done|]. destruct s; [simpl in Hm; lia|done].
Qed.

(** ** The byte mapping *)

Definition marksOk (m : list byte) : Prop :=
  length m = 256%nat ∧ ∀ i b, m !! i = Some b → b = x00 ∨ b = x01.

Definition marked (m : list byte) (c : byte) : Prop := m !! Z.to_nat (b2z c) = Some x01.

Lemma byte_index {A} (m : list A) c : length m = 256%nat → (Z.to_nat (b2z c) < length m)%nat.
Proof. pose proof (b2z_range c). lia. Qed.

Lemma marksOk_set m c : marksOk m → marksOk (<[Z.to_nat (b2z c) := x01]> m).
Proof.
  intros [Hl Hm]. split; [by rewrite length_insert|].
  intros i b [(_&<-&_)|(_&?)]%list_lookup_insert_Some; eauto.
Qed.

Lemma marked_set m c d : marksOk m → marked m d ∨ d = c → marked (<[Z.to_nat (b2z c) := x01]> m) d.
Proof.
  intros [Hl _] Hd. unfold marked. destruct (decide (Z.to_nat (b2z c) = Z.to_nat (b2z d))) as [E|E].
  - rewrite E. apply list_lookup_insert_eq, byte_index, Hl.
  - rewrite list_lookup_insert_ne by done. by destruct Hd as [| ->].
Qed.

Lemma markKey_spec key m :
  marksOk m → marksOk (markKey m key) ∧ ∀ d, marked m d ∨ d ∈ key → marked (markKey m key) d.
Proof.
  unfold markKey. revert m. induction key as [|c key IH]; intros m Hm; cbn [foldl].
  { split; [done|]. intros d [?|?%not_elem_of_nil]; done. }
  destruct (IH _ (marksOk_set m c Hm)) as [IH1 IH2]. split; [done|].
  intros d Hd. apply IH2. rewrite elem_of_cons in Hd.
  destruct Hd as [Hd|[->|Hd]]; [left; apply marked_set; auto..|by right].
Qed.

Lemma markKeys_spec oldnew m :
  marksOk m → Nat.even (length oldnew) = true →
  marksOk (markKeys m oldnew) ∧
  ∀ d, marked m d ∨ (∃ k v, (k, v) ∈ pairsOf oldnew ∧ d ∈ k) → marked (markKeys m oldnew) d.
Proof.
  revert oldnew m. fix IH 1. intros [|k [|v oldnew]] m Hm He; [|done|].
  { split; [done|]. intros d [?|(?&?&?%not_elem_of_nil&?)]; done. }
  destruct (markKey_spec k m Hm) as [H1 H2]. destruct (IH oldnew _ H1 He) as [H3 H4].
  split; [done|]. intros d Hd. apply H4. destruct Hd as [Hd|(k'&v'&Hin&Hd)]; [left; auto|].
  simpl in Hin. apply elem_of_cons in Hin as [[= -> ->]|Hin]; [left; auto|right; eauto].
Qed.

Definition sumMarks (m : list byte) : Z := foldr (λ b n, b2z b + n) 0 m.

Lemma countMarks_sum m : countMarks m = sumMarks m.
Proof.
  unfold countMarks. enough (∀ a, foldl (λ n b, n + b2z b) a m = a + sumMarks m) as H by apply H.
  induction m as [|b m IH]; intros a; simpl; [lia|]. rewrite IH. lia.
Qed.

Lemma sumMarks_app m1 m2 : sumMarks (m1 ++ m2) = sumMarks m1 + sumMarks m2.
Proof. induction m1 as [|b m1 IH]; [done|]. simpl. rewrite IH. lia. Qed.

Lemma sumMarks_bound m : (∀ i b, m !! i = Some b → b = x00 ∨ b = x01) → 0 ≤ sumMarks m ≤ zlen m.
Proof.
  induction m as [|b m IH]; intros Hm; simpl; [lia|].
  pose proof (IH (λ i, Hm (S i))). destruct (Hm 0%nat b eq_refl) as [->| ->];
    [change (b2z x00) with 0|change (b2z x01) with 1]; lia.
Qed.

Lemma sumMarks_unmarked m i : (∀ i b, m !! i = Some b → b = x00 ∨ b = x01) →
  m !! i = Some x00 → sumMarks m < zlen m.
Proof.
  intros Hm Hi. rewrite <-(take_drop_middle m i _ Hi), sumMarks_app, length_app. simpl.
  pose proof (sumMarks_bound (take i m)) as H1. pose proof (sumMarks_bound (drop (S i) m)) as H2.
  change (b2z x00) with 0. destruct H1 as [_ H1]; [|destruct H2 as [_ H2]; [|lia]].
  - intros j b [Hj _]%lookup_take_Some. eauto.
  - intros j b Hj. rewrite lookup_drop in Hj. eauto.
Qed.

Lemma sumMarks_marked m i : (∀ i b, m !! i = Some b → b = x00 ∨ b = x01) →
  m !! i = Some x01 → sumMarks (take i m) < sumMarks m.
Proof.
  intros Hm Hi. rewrite <-(take_drop_middle m i _ Hi) at 2. rewrite sumMarks_app. simpl.
  change (b2z x01) with 1. destruct (sumMarks_bound (drop (S i) m)) as [? _]; [|lia].
  intros j b Hj. rewrite lookup_drop in Hj. eauto.
Qed.

Lemma denseIndex_lookup ts idx m i b :
  (∀ i b, m !! i = Some b → b = x00 ∨ b = x01) → 0 ≤ idx → idx + sumMarks m ≤ 256 → m !! i = Some b →
  denseIndex ts idx m !! i =
  Some (if decide (b = x00) then z2b ts else z2b (idx + sumMarks (take i m))).
Proof.
  revert idx i. induction m as [|c m IH]; intros idx i Hm Hidx Hsum Hi; [done|].
  pose proof (IH (u8 (idx + 1)) ) as IH1. pose proof (IH idx) as IH0.
  pose proof (sumMarks_bound m (λ i, Hm (S i))). cbn [denseIndex]. simpl in Hsum.
  destruct (Hm 0%nat c eq_refl) as [->| ->]; [change (b2z x00) with 0 in *|change (b2z x01) with 1 in *]; simpl.
  - destruct i as [|i]; [injection Hi as <-; done|]. simpl.
    rewrite IH0 by (done || lia || exact (λ i, Hm (S i))). change (b2z x00) with 0. by rewrite Z.add_0_l.
  - destruct i as [|i].
    { injection Hi as <-. simpl. by rewrite Z.add_0_r. }
    simpl. change (b2z x01) with 1. destruct (decide (idx + 1 = 256)) as [E|E].
    + assert (b = x00) as ->.
      { destruct (Hm (S i) b Hi) as [->| ->]; [done|].
        pose proof (sumMarks_marked m i (λ i, Hm (S i)) Hi).
        destruct (sumMarks_bound (take i m)) as [? _]; [|lia].
        intros j b' [Hj _]%lookup_take_Some. exact (Hm (S j) b' Hj). }
      rewrite (IH1 i (λ i, Hm (S i))); [done|apply wrapU_range; lia|rewrite E; change (wrapU 8 256) with 0; lia|done].
    + rewrite wrapU_small in IH1 by (simpl; lia).
      rewrite wrapU_small by (simpl; lia). rewrite IH1 by (done || lia || exact (λ i, Hm (S i))).
      by rewrite <-Z.add_assoc.
Qed.

Lemma mapping_marked m rt :
  marksOk m → let r := GenericReplacer rt (countMarks m) (denseIndex (countMarks m) 0 m) in
  mappingOk r ∧ ∀ c, marked m c → mapped r c.
Proof.
  intros [Hl Hm] r. pose proof (sumMarks_bound m Hm).
  assert (∀ c, m !! Z.to_nat (b2z c) = Some x00 ∧ mapb r c = sumMarks m ∨
               marked m c ∧ mapb r c = sumMarks (take (Z.to_nat (b2z c)) m) ∧ mapb r c < sumMarks m) as Hc.
  { intros c. destruct (lookup_lt_is_Some_2 m _ (byte_index m c Hl)) as [b Hb].
    pose proof (denseIndex_lookup (countMarks m) 0 m _ b Hm ltac:(lia) ltac:(lia) Hb) as Hd.
    unfold mapb, r. cbn [mapping]. rewrite (list_lookup_total_correct _ _ _ Hd).
    destruct (Hm _ _ Hb) as [->| ->]; simpl; rewrite b2z_z2b.
    - left. split; [done|]. rewrite countMarks_sum. pose proof (sumMarks_unmarked m _ Hm Hb).
      apply Z.mod_small. lia.
    - right. split; [done|].
      pose proof (sumMarks_marked m _ Hm Hb).
      destruct (sumMarks_bound (take (Z.to_nat (b2z c)) m)) as [? _];
        [intros j b' [Hj _]%lookup_take_Some; eauto|].
      rewrite Z.mod_small by lia. split; [done|lia]. }
  split; [split|].
  - intros c d Hcm Hcd. unfold mapped in Hcm. simpl in Hcm. rewrite countMarks_sum in Hcm.
    destruct (Hc c) as [[_ ?]|(Hmc&Hec&_)]; [lia|]. destruct (Hc d) as [[_ ?]|(Hmd&Hed&_)]; [lia|].
    assert (∀ a b : byte, marked m a → (Z.to_nat (b2z a) < Z.to_nat (b2z b))%nat →
      sumMarks (take (Z.to_nat (b2z a)) m) < sumMarks (take (Z.to_nat (b2z b)) m)) as Hlt.
    { intros a b Ha Hab.
      replace (take (Z.to_nat (b2z a)) m) with (take (Z.to_nat (b2z a)) (take (Z.to_nat (b2z b)) m))
        by (rewrite take_take; f_equal; lia).
      apply sumMarks_marked; [intros j b' [Hj _]%lookup_take_Some; eauto|].
      by apply lookup_take_Some. }
    apply (inj b2z). pose proof (b2z_range c). pose proof (b2z_range d).
    destruct (Z.lt_total (b2z c) (b2z d)) as [Hl1|[->|Hl1]]; [|done|].
    + pose proof (Hlt c d Hmc ltac:(lia)). lia.
    + pose proof (Hlt d c Hmd ltac:(lia)). lia.
  - intros c Hcn. unfold mapped in Hcn. simpl in *. rewrite countMarks_sum in *.
    destruct (Hc c) as [[_ ?]|(_&_&?)]; lia.
  - intros c Hcm. unfold mapped. simpl. rewrite countMarks_sum.
    destruct (Hc c) as [[Hc' _]|(_&_&?)]; [|lia]. unfold marked in Hcm. congruence.
Qed.

(** ** The trie of a list of pairs *)

Lemma getF_mapping r r' n t k : mapping r = mapping r' → getF n r t k = getF n r' t k.
Proof.
  intros Hm. revert t k. induction n as [|n IH]; intros t k; [done|]. cbn [getF].
  destruct k as [|c k]; [done|]. unfold mapb. rewrite Hm.
  destruct (ttable t) as [tb|]; [by destruct (tb !! _) as [[]|]|].
  destruct (decide _); [|done]. by destruct (tnext t); simpl.
Qed.

Lemma wf_mapping r r' t :
  mapping r = mapping r' → tableSize r = tableSize r' → wf r t → wf r' t.
Proof.
  intros Hm Hs. induction 1 as [v p pre nx tb ? ? Hpre ? IHn Htb ? IHt]. constructor; eauto.
  - eapply Forall_impl; [done|]. unfold mapped, mapb. by rewrite Hm, Hs.
  - intros l Hl. rewrite <-Hs. auto.
Qed.

Lemma length_pairsOf oldnew :
  Nat.even (length oldnew) = true → zlen oldnew = 2 * zlen (pairsOf oldnew).
Proof.
  revert oldnew. fix IH 1. intros [|k [|v oldnew]] He; [done|done|].
  pose proof (IH oldnew He). simpl in *. lia.
Qed.

Lemma addAll_spec r t oldnew :
  mappingOk r → wf r t → is_Some (ttable t) → Nat.even (length oldnew) = true →
  (∀ k v, (k, v) ∈ pairsOf oldnew → Forall (mapped r) k) →
  wp (addAll r t oldnew) (λ t', wf r t' ∧ is_Some (ttable t') ∧
    ∀ k, get r t' k = match get r t k with Some x => Some x | None => prioOf (pairsOf oldnew) k end).
Proof.
  intros Hok. revert oldnew t. fix IH 1. intros [|k [|v oldnew]] t Hwf Htb He Hk; [|done|].
  { split_and!; [done..|]. intros k. by destruct (get r t k). }
  cbn [addAll]. apply wp_bind. eapply wp_mono; [apply (add_spec r Hok); [done| | |lia]|].
  { eapply Hk, list_elem_of_here. }
  { simpl. lia. }
  intros t1 (Hwf1&Htb1&Hget1). eapply wp_mono; [apply IH; auto|].
  { intros k' v' ?. eapply Hk. simpl. by apply list_elem_of_further. }
  intros t2 (Hwf2&Htb2&Hget2). split_and!; [done..|]. intros k'. rewrite Hget2, Hget1. unfold put.
  cbn [pairsOf prioOf]. destruct (decide (k' = k)) as [->|]; [|done].
  destruct (get r t k); [done|]. do 2 f_equal.
  pose proof (length_pairsOf oldnew He). simpl length. lia.
Qed.

(** What [New] establishes for the generic algorithm. *)
Record genericOk (ps : list (list byte * list byte)) (g : genericReplacer) : Prop := {
  g_mapping : mappingOk g;
  g_wf : wf g (root g);
  g_table : is_Some (ttable (root g));
  g_get k : get g (root g) k = prioOf ps k;
}.

Lemma makeGenericReplacer_spec oldnew :
  Nat.even (length oldnew) = true →
  wp (makeGenericReplacer oldnew) (genericOk (pairsOf oldnew)).
Proof.
  intros He. unfold makeGenericReplacer.
  assert (marksOk (replicate 256 x00)) as Hm0.
  { split; [done|]. intros i b [-> _]%lookup_replicate. by left. }
  destruct (markKeys_spec oldnew _ Hm0 He) as [Hm Hmark].
  set (m := markKeys (replicate 256 x00) oldnew) in *.
  pose proof (sumMarks_bound m (proj2 Hm)) as Hsum.
  destruct (mapping_marked m (TrieNode [] 0 [] None
    (Some (replicate (Z.to_nat (countMarks m)) None))) Hm) as [Hok Hmapped].
  set (r := GenericReplacer _ _ _) in *. apply wp_bind.
  eapply wp_mono; [apply addAll_spec; [done| |done|done|]|].
  - apply wf_table; [done|..].
    + rewrite length_replicate. simpl. rewrite countMarks_sum. lia.
    + by intros i n [[=] _]%lookup_replicate.
  - intros k v Hin. apply Forall_forall. intros c Hc. apply Hmapped, Hmark. eauto.
  - intros t (Hwf&Htb&Hget). simpl. split; simpl.
    + destruct Hok as [Hi Hu]. split; [exact Hi|exact Hu].
    + by eapply wf_mapping; [| |exact Hwf].
    + done.
    + intros k. unfold get in *. rewrite (getF_mapping _ r) by done. rewrite Hget.
      destruct k as [|c k]; [done|]. simpl.
      destruct (replicate _ _ !! _) as [[n|]|] eqn:E; [by apply lookup_replicate in E as [[=] _]|done..].
Qed.

(** [lookup] on such a replacer finds the first pair that matches. *)
Lemma lookup_matchFirst ps g s ig :
  genericOk ps g →
  wp (lookup g s ig) (λ '(val, keylen, found),
    match matchFirst ps s ig with
    | Some (k, v) => found = true ∧ val = v ∧ keylen = zlen k
    | None => found = false
    end).
Proof.
  intros [Hok Hwf _ Hget]. eapply wp_mono; [by apply lookup_spec|].
  intros [[val keylen] found] (best&Hb). eapply bestUpto_matchFirst, bestUpto_ext; [|done].
  intros m _. unfold hitAt. by rewrite Hget.
Qed.

(** ** Writing in the buffer *)

Section blit.
Context (buf x : list byte) (n : Z).
Context (Hn : 0 ≤ n) (Hfit : n + zlen x ≤ zlen buf).

Lemma length_blit : length (blit buf n x) = length buf.
Proof. unfold blit. rewrite !length_app, length_take, length_drop. lia. Qed.

Lemma take_blit : take (Z.to_nat (n + zlen x)) (blit buf n x) = take (Z.to_nat n) buf ++ x.
Proof.
  unfold blit. rewrite app_assoc, take_app_le, take_ge; [done|..];
    rewrite ?length_app, ?length_take; lia.
Qed.

Lemma take_blit_before m : m ≤ n → take (Z.to_nat m) (blit buf n x) = take (Z.to_nat m) buf.
Proof.
  intros. unfold blit. rewrite take_app_le by (rewrite length_take; lia).
  rewrite take_take. f_equal. lia.
Qed.

Lemma drop_blit m : n + zlen x ≤ m → drop (Z.to_nat m) (blit buf n x) = drop (Z.to_nat m) buf.
Proof.
  intros. unfold blit. rewrite app_assoc, drop_app_ge by (rewrite length_app, length_take; lia).
  rewrite length_app, length_take, drop_drop. f_equal. lia.
Qed.
End blit.

(** The unread bytes [s[a:]] of [s = buf[:len]]. *)
Definition unread (buf : list byte) (len a : Z) : list byte :=
  drop (Z.to_nat a) (take (Z.to_nat len) buf).

Lemma unread_take buf len a : 0 ≤ a → unread buf len a = take (Z.to_nat len - Z.to_nat a) (drop (Z.to_nat a) buf).
Proof. intros. unfold unread. by rewrite skipn_firstn_comm. Qed.

Lemma unread_drop buf buf' len a :
  0 ≤ a → drop (Z.to_nat a) buf' = drop (Z.to_nat a) buf → unread buf' len a = unread buf len a.
Proof. intros ? E. by rewrite !unread_take, E. Qed.

Lemma length_unread buf len a : 0 ≤ a ≤ len → len ≤ zlen buf → zlen (unread buf len a) = len - a.
Proof. intros. unfold unread. rewrite length_drop, length_take. lia. Qed.

Lemma zslice_unread buf a b : 0 ≤ a → a ≤ b → b ≤ zlen buf → zslice buf a b = Some (unread buf b a).
Proof. intros. rewrite zslice_Some, unread_take by lia. do 2 f_equal. lia. Qed.

Lemma unread_split buf len a b : 0 ≤ a → a ≤ b → b ≤ len → len ≤ zlen buf →
  unread buf len a = unread buf b a ++ unread buf len b.
Proof.
  intros. rewrite !unread_take by lia.
  rewrite <-(take_drop (Z.to_nat b - Z.to_nat a) (take (Z.to_nat len - Z.to_nat a) _)).
  rewrite take_take, skipn_firstn_comm, drop_drop. f_equal; f_equal; [lia..|f_equal; lia].
Qed.

Lemma unread_nil buf len : unread buf len len = [].
Proof. unfold unread. apply drop_ge. rewrite length_take. lia. Qed.

(** [dst] ends before position [i] of the shared buffer. *)
Definition dstBefore (d : output) (i : Z) : Prop :=
  match d with Shared n => 0 ≤ n ≤ i | Grown _ => True end.

Lemma appendTo_spec buf d x i :
  dstBefore d (i - zlen x) → i ≤ zlen buf →
  wp (appendTo buf d x) (λ '(buf', d'),
    content buf' d' = content buf d ++ x ∧ dstBefore d' i ∧ length buf' = length buf ∧
    drop (Z.to_nat i) buf' = drop (Z.to_nat i) buf).
Proof.
  intros Hd Hi. destruct d as [n|b]; simpl in *; [|done].
  destruct (Z.leb_spec (n + zlen x) (zlen buf)); [|lia]. simpl. split_and!; [|lia|lia|..].
  - apply take_blit; lia.
  - apply length_blit; lia.
  - apply drop_blit; lia.
Qed.

Lemma putValue_spec buf len i last prev d val keylen :
  dstBefore d i → 0 ≤ i → 0 ≤ keylen → i + keylen ≤ len → len ≤ zlen buf →
  wp (putValue (ReplaceState buf len i last prev d) val keylen) (λ st',
    content (r_buf st') (r_dst st') = content buf d ++ val ∧
    r_last st' = r_i st' ∧ r_prev st' = prev ∧ dstBefore (r_dst st') (r_i st') ∧
    i ≤ r_i st' ∧ r_len st' - r_i st' = len - (i + keylen) ∧ r_len st' ≤ zlen (r_buf st') ∧
    unread (r_buf st') (r_len st') (r_i st') = unread buf len (i + keylen)).
Proof.
  intros Hd Hi Hk Hik Hlen. unfold putValue. destruct d as [n|b]; simpl in Hd.
  2:{ simpl. split_and!; (done || lia). }
  destruct (Z.ltb_spec (zlen val - keylen) 0).
  { apply wp_bind. eapply wp_mono; [apply (appendTo_spec _ _ _ (i + keylen)); [simpl; lia|lia]|].
    intros [buf' d'] (Hc&Hd'&Hl&Hdrop). simpl. split_and!; try (done || lia).
    apply unread_drop; [lia|done]. }
  destruct (Z.leb_spec (zlen val - keylen) (zlen buf - len)).
  2:{ simpl. split_and!; (done || lia). }
  rewrite (zslice_unread _ (i + keylen)) by lia. cbn [mbind option_bind].
  rewrite (zslice_unread _ (i + zlen val)) by lia. cbn [mbind option_bind].
  pose proof (length_unread buf len (i + keylen)). pose proof (length_unread buf (zlen buf) (i + zlen val)).
  set (src := unread buf len (i + keylen)) in *.
  rewrite take_ge by lia. set (buf1 := blit buf (i + zlen val) src).
  assert (length buf1 = length buf) as Hl1 by (apply length_blit; lia).
  apply wp_bind. eapply wp_mono; [apply (appendTo_spec _ _ _ (i + zlen val)); [simpl; lia|lia]|].
  intros [buf2 d2] (Hc&Hd2&Hl2&Hdrop). simpl. split_and!; try (done || lia).
  - rewrite Hc. simpl. unfold buf1. by rewrite take_blit_before by lia.
  - rewrite (unread_drop buf1) by (lia || done). unfold unread.
    replace (len + (zlen val - keylen)) with (i + zlen val + zlen src) by lia.
    unfold buf1. rewrite take_blit by lia. rewrite drop_app_ge by (rewrite length_take; lia).
    rewrite length_take. by replace (_ - _)%nat with 0%nat by lia.
Qed.

(** ** The loop *)

Section loop.
Context (g : genericReplacer) (ps : list (list byte * list byte)) (Hg : genericOk ps g).
Context (s0 : list byte).

Definition pending (st : replaceState) (b : Z) : list byte :=
  content (r_buf st) (r_dst st) ++ unread (r_buf st) b (r_last st).

Record replaceInv (st : replaceState) : Prop := {
  ri_last : 0 ≤ r_last st ≤ r_i st;
  ri_last_len : r_last st ≤ r_len st;
  ri_i : r_i st ≤ r_len st + 1;
  ri_len : r_len st ≤ zlen (r_buf st);
  ri_dst : dstBefore (r_dst st) (r_last st);
  ri_prev : r_prev st = true → tpriority (root g) ≠ 0;
  ri_more : r_i st ≤ r_len st → ∀ o,
    replaces ps (r_prev st) (unread (r_buf st) (r_len st) (r_i st)) o →
    replaces ps false s0 (pending st (r_i st) ++ o);
  ri_end : r_i st = r_len st + 1 → replaces ps false s0 (pending st (r_len st));
}.

Definition replaceMeasure (st : replaceState) : nat :=
  2 * Z.to_nat (r_len st + 1 - r_i st) + (if r_prev st then 0 else 1).

Definition noMatchAt (st : replaceState) : Prop :=
  matchFirst ps (unread (r_buf st) (r_len st) (r_i st)) (r_prev st) = None.

(** Going on to the next byte when nothing matches. *)
Lemma replaceInv_skip st prev :
  replaceInv st → r_i st ≤ r_len st → noMatchAt st →
  (prev = true → tpriority (root g) ≠ 0 ∧ False) →
  let st' := ReplaceState (r_buf st) (r_len st) (r_i st + 1) (r_last st) prev (r_dst st) in
  replaceInv st' ∧ (replaceMeasure st' < replaceMeasure st)%nat.
Proof.
  intros [Hlast Hlastlen Hi Hlen Hdst Hprev Hmore Hend] Hile Hno Hp. unfold noMatchAt in Hno.
  assert (prev = false) as -> by (destruct prev; naive_solver).
  destruct st as [buf len i last prev' dst]; unfold pending, replaceMeasure in *; simpl in *.
  split; [|destruct prev'; lia]. split; simpl; try (done || lia).
  - intros Hi' o Ho. specialize (Hmore Hile).
    assert (∃ c, unread buf (i + 1) i = [c] ∧ unread buf len i = c :: unread buf len (i + 1)) as (c&Hc1&Hc).
    { rewrite (unread_split _ len i (i + 1)) by lia.
      pose proof (length_unread buf (i + 1) i ltac:(lia) ltac:(lia)) as Hl.
      destruct (unread buf (i + 1) i) as [|c [|]]; simpl in *; try lia. by exists c. }
    unfold pending in *. simpl in *. rewrite (unread_split _ (i + 1) last i) by lia. rewrite Hc1.
    rewrite <-!app_assoc. simpl. rewrite app_assoc. apply Hmore. rewrite Hc in *. by apply replaces_copy.
  - intros Hi'. assert (i = len) as -> by lia. specialize (Hmore Hile []).
    unfold pending in *. simpl in *. rewrite app_nil_r in Hmore. apply Hmore.
    rewrite unread_nil in *. by apply replaces_end.
Qed.

Lemma root_noempty v : tpriority (root g) = 0 → ([], v) ∉ ps.
Proof.
  intros H0 Hin. pose proof (g_get _ _ Hg []) as Hroot. rewrite get_nil, H0 in Hroot. simpl in Hroot.
  clear -Hroot Hin. induction ps as [|[k w] ps' IH]; [by apply not_elem_of_nil in Hin|]. simpl in *.
  destruct (decide _); [done|]. apply elem_of_cons in Hin as [[=]|Hin]; [by subst|auto].
Qed.

Lemma matchFirst_get s ig k v : matchFirst ps s ig = Some (k, v) → is_Some (get g (root g) k).
Proof.
  intros (Hin&_&_)%matchFirst_Some. rewrite (g_get _ _ Hg). clear -Hin.
  induction ps as [|[k' w] ps' IH]; [by apply not_elem_of_nil in Hin|]. simpl.
  destruct (decide _); [done|]. apply elem_of_cons in Hin as [[=]|Hin]; [by subst|auto].
Qed.

(** The fast path skips only bytes that start no match. *)
Lemma startsNoKey_spec st :
  replaceInv st → r_i st ≤ r_len st →
  wp (startsNoKey g st) (λ fast, fast = true → noMatchAt st ∧ r_prev st = false).
Proof.
  intros [Hlast Hlastlen Hi Hlen Hdst Hprev _ _] Hile. unfold startsNoKey.
  destruct (Z.eqb_spec (r_i st) (r_len st)); [done|]. destruct (Z.eqb_spec (tpriority (root g)) 0); [|done].
  simpl. destruct (zidx_Some (r_buf st) (r_i st)) as (c&Hc&Hc'); [lia|]. rewrite Hc. simpl.
  assert (r_prev st = false) as Hpf by (destruct (r_prev st); naive_solver).
  assert (∃ s, unread (r_buf st) (r_len st) (r_i st) = c :: s) as [s Hs].
  { unfold unread. erewrite drop_S; [by eexists|]. apply lookup_take_Some. split; [done|lia]. }
  destruct (g_table _ _ Hg) as [tb Htb].
  assert (∀ k, get g (root g) (c :: k) =
    match tb !! Z.to_nat (mapb g c) with Some (Some t') => get g t' k | _ => None end) as Hget.
  { intros k. pose proof (g_wf _ _ Hg) as Hwf. destruct (root g). simpl in Htb. subst.
    inversion Hwf as [? ? ? ? ? _ _ _ _ Hx _]; subst. destruct (Hx _ eq_refl) as [-> _].
    apply get_table. }
  assert ((∀ k, get g (root g) (c :: k) = None) → noMatchAt st) as Hnone.
  { intros HN. unfold noMatchAt. destruct (matchFirst _ _ _) as [[k v]|] eqn:E; [|done]. exfalso.
    pose proof (matchFirst_get _ _ _ _ E) as [x Hx]. apply matchFirst_Some in E as (Hin&[k' Hk]&_).
    destruct k as [|d k]; [by eapply root_noempty|]. rewrite Hs in Hk. injection Hk as -> _. by rewrite HN in Hx. }
  assert (zlen tb = tableSize g) as Hl.
  { pose proof (g_wf _ _ Hg) as Hwf. destruct (root g). simpl in Htb. subst.
    inversion Hwf as [? ? ? ? ? _ _ _ _ Hx _]; subst. by destruct (Hx _ eq_refl). }
  pose proof (mapb_range g c) as Hr. destruct (Z.eqb_spec (mapb g c) (tableSize g)).
  { simpl. intros _. split; [|done]. apply Hnone. intros k. by rewrite Hget, lookup_ge_None_2 by lia. }
  rewrite Htb. simpl. assert (mapped g c) as Hm.
  { destruct (decide (mapped g c)); [done|]. by destruct (unmapped _ (g_mapping _ _ Hg) c). }
  destruct (zidx_Some tb (mapb g c)) as (ent&He&He'); [unfold mapped in Hm; lia|]. rewrite He. simpl.
  intros ->%bool_decide_eq_true. split; [|done]. apply Hnone. intros k. by rewrite Hget, He'.
Qed.

(** A match at [i]: the pending bytes and the value go to [dst]. *)
Lemma replaceInv_match st st' k v d' buf' :
  replaceInv st → r_i st ≤ r_len st →
  matchFirst ps (unread (r_buf st) (r_len st) (r_i st)) (r_prev st) = Some (k, v) →
  content buf' d' = content (r_buf st) (r_dst st) ++ unread (r_buf st) (r_i st) (r_last st) →
  drop (Z.to_nat (r_i st)) buf' = drop (Z.to_nat (r_i st)) (r_buf st) →
  content (r_buf st') (r_dst st') = content buf' d' ++ v →
  r_last st' = r_i st' → r_prev st' = bool_decide (k = []) → dstBefore (r_dst st') (r_i st') →
  r_i st ≤ r_i st' → r_len st' - r_i st' = r_len st - (r_i st + zlen k) →
  r_len st' ≤ zlen (r_buf st') → r_i st' ≤ r_len st' →
  unread (r_buf st') (r_len st') (r_i st') = unread buf' (r_len st) (r_i st + zlen k) →
  replaceInv st' ∧ (replaceMeasure st' < replaceMeasure st)%nat.
Proof.
  intros [Hlast Hlastlen Hi Hlen Hdst Hprev Hmore _] Hile Hm Hc1 Hdrop Hc2 Hl Hp Hd Hi' Hdiff Hlen' Hile' Hun.
  pose proof (matchFirst_Some _ _ _ _ _ Hm) as (Hin&[s Hs]&Hne).
  split.
  2:{ unfold replaceMeasure. rewrite Hp. destruct k as [|c k].
      - rewrite bool_decide_eq_true_2 by done. destruct (r_prev st); [by destruct Hne|]. simpl in Hdiff. lia.
      - rewrite bool_decide_eq_false_2 by done. simpl in Hdiff. destruct (r_prev st); lia. }
  split; rewrite ?Hl; try (done || lia).
  - intros Hpt. rewrite Hp in Hpt. apply bool_decide_eq_true in Hpt as ->.
    pose proof (matchFirst_get _ _ _ _ Hm) as [x Hx]. rewrite get_nil in Hx. by destruct (Z.eqb_spec (tpriority (root g)) 0).
  - intros _ o Ho. unfold pending. rewrite Hl, unread_nil, app_nil_r, Hc2, Hc1, <-app_assoc.
    apply Hmore; [done|]. rewrite Hs. rewrite Hs in Hm. apply replaces_match with (k := k); [done|].
    rewrite <-Hp. replace s with (unread (r_buf st') (r_len st') (r_i st')); [done|].
    rewrite Hun, (unread_drop (r_buf st)).
    + unfold unread in *. replace (Z.to_nat (r_i st + zlen k)) with (Z.to_nat (r_i st) + length k)%nat by lia.
      by rewrite <-drop_drop, Hs, drop_app_length.
    + lia.
    + replace (Z.to_nat (r_i st + zlen k)) with (Z.to_nat (r_i st) + length k)%nat by lia.
      by rewrite <-!drop_drop, Hdrop.
Qed.

Lemma replaceBody_spec st :
  replaceInv st →
  wp (replaceBody g st) (λ r, match r with
    | inl st' => replaceInv st' ∧ (replaceMeasure st' < replaceMeasure st)%nat
    | inr st' => replaceInv st' ∧ r_i st' = r_len st' + 1
    end).
Proof.
  intros HI. pose proof HI as [Hlast Hlastlen Hi Hlen Hdst _ _ _].
  destruct st as [buf len i last prev dst] eqn:Est; simpl in *. unfold replaceBody.
  destruct (Z.ltb_spec len i); [split; [done|simpl; lia]|].
  rewrite <-Est in *. assert (r_i st ≤ r_len st) as Hile by (by subst).
  apply wp_bind. eapply wp_mono; [by apply startsNoKey_spec|]. intros [|] Hfast.
  { destruct (Hfast eq_refl) as [Hno Hpf]. pose proof (replaceInv_skip st prev HI Hile Hno) as Hs.
    subst. simpl in *. subst. by apply Hs. }
  rewrite (zslice_unread _ i len) by lia. cbn [mbind option_bind]. apply wp_bind.
  eapply wp_mono; [by apply lookup_matchFirst|]. intros [[val keylen] found] Hm.
  destruct (matchFirst ps (unread buf len i) prev) as [[k v]|] eqn:E.
  - destruct Hm as (->&->&->). rewrite (zslice_unread _ last i) by lia. cbn [mbind option_bind andb].
    pose proof (length_unread buf i last ltac:(lia) ltac:(lia)) as Hlx.
    apply wp_bind. eapply wp_mono; [apply (appendTo_spec _ _ _ i); [|lia]|].
    { rewrite Hlx. by replace (i - (i - last)) with last by lia. }
    intros [buf' d'] (Hc&Hd&Hl&Hdrop). apply wp_bind.
    pose proof (matchFirst_Some _ _ _ _ _ E) as (_&Hpre%prefix_length&_).
    pose proof (length_unread buf len i ltac:(lia) ltac:(lia)) as Hlu.
    eapply wp_mono; [apply putValue_spec; solve [done|lia]|].
    intros st' (H1&H2&H3&H4&H5&H6&H7&H8). simpl.
    eapply (replaceInv_match st st' k v d' buf'); subst st; simpl in *; try (done || lia).
    rewrite H3. by destruct k.
  - subst found. simpl.
    pose proof (replaceInv_skip st false HI Hile) as Hs. subst st. simpl in *. by apply Hs.
Qed.

Lemma genericReplace_spec buf len :
  0 ≤ len ≤ zlen buf → s0 = take (Z.to_nat len) buf →
  wp (genericReplace g buf len) (λ '(buf', d),
    replaces ps false s0 (content buf' d)).
Proof.
  intros Hlen Hs0. unfold genericReplace. apply wp_bind.
  eapply (wp_loop replaceInv replaceMeasure).
  - intros st HI. eapply wp_mono; [by apply replaceBody_spec|]. intros [st'|st'] Hst'; [done|].
    destruct Hst' as [HI' Hi']. pose proof (ri_end _ HI' Hi') as Hend.
    destruct HI' as [? ? ? ? Hdst _ _ _]. destruct st' as [buf' len' i' last' prev' d']. simpl in *.
    unfold pending in Hend. simpl in Hend. destruct (Z.eqb_spec last' len') as [->|]; simpl.
    + by rewrite unread_nil, app_nil_r in Hend.
    + rewrite zslice_unread by lia. cbn [mbind option_bind].
      pose proof (length_unread buf' len' last' ltac:(lia) ltac:(lia)) as Hl.
      eapply wp_mono; [apply (appendTo_spec _ _ _ len'); [|lia]|].
      { rewrite Hl. by replace (len' - (len' - last')) with last' by lia. }
      by intros [buf2 d2] (->&_).
  - split; simpl; try (done || lia). intros _ o Ho. unfold pending. simpl.
    by rewrite Hs0.
  - unfold replaceMeasure. simpl. lia.
Qed.
End loop.

(** ** The byte table *)

Definition single (p : list byte * list byte) : Prop := length p.1 = 1%nat ∧ length p.2 = 1%nat.

Fixpoint byteFor (ps : list (list byte * list byte)) (c : byte) : byte :=
  match ps with
  | [] => c
  | (k, v) :: ps => if decide (k = [c]) then v !!! 0%nat else byteFor ps c
  end.

Lemma allSingle_spec oldnew b :
  Nat.even (length oldnew) = true → allSingle oldnew b = Some true →
  Forall single (pairsOf oldnew).
Proof.
  revert oldnew b. fix IH 1. intros [|k [|v oldnew]] b He H; [by constructor|done|]. simpl in H.
  destruct (Z.eqb_spec (zlen k) 1); [|done]. simpl in H. simpl. constructor; [|by eapply IH].
  destruct (Z.eqb_spec (zlen v) 1) as [|Hv]; [split; simpl; lia|]. exfalso.
  rewrite andb_false_r in H. clear -H. revert oldnew H. fix IH 1. intros [|k [|v oldnew]] H; [done..|].
  simpl in H. destruct (negb _); [done|]. by eapply IH.
Qed.

Lemma fillTable_spec t oldnew :
  Nat.even (length oldnew) = true → Forall single (pairsOf oldnew) → length t = 256%nat →
  (∀ c, t !! Z.to_nat (b2z c) = Some c) →
  wp (fillTable t oldnew) (λ t', length t' = 256%nat ∧
    ∀ c, t' !! Z.to_nat (b2z c) = Some (byteFor (pairsOf oldnew) c)).
Proof.
  intros He Hs Hl Ht. revert oldnew He Hs. fix IH 1. intros [|k [|v oldnew]] He Hs; [done|done|].
  cbn [pairsOf] in *. apply Forall_cons in Hs as [[Hk Hv] Hs]. simpl in Hk, Hv.
  destruct k as [|o [|]]; [done| |done]. destruct v as [|n [|]]; [done| |done].
  cbn [fillTable]. apply wp_bind. eapply wp_mono; [by apply IH|]. intros t' [Hl' Ht']. simpl.
  unfold zset. pose proof (b2z_range o). destruct (Z.ltb_spec (b2z o) 0), (Z.leb_spec (zlen t') (b2z o)); try lia.
  simpl. split; [by rewrite length_insert|]. intros c. destruct (decide ([o] = [c])) as [[= ->]|Hne].
  - apply list_lookup_insert_eq. lia.
  - rewrite list_lookup_insert_ne, Ht'; [done|]. intros E. apply Hne. f_equal. apply (inj b2z).
    pose proof (b2z_range c). lia.
Qed.

Lemma identity_table c : (z2b <$> seqZ 0 256) !! Z.to_nat (b2z c) = Some c.
Proof.
  pose proof (b2z_range c). rewrite list_lookup_fmap, lookup_seqZ_lt by lia. simpl.
  by rewrite Z2Nat.id, Z.add_0_l, z2b_b2z by lia.
Qed.

Lemma matchFirst_single ps s ig c :
  Forall single ps →
  matchFirst ps [] ig = None ∧
  (matchFirst ps (c :: s) ig = Some ([c], [byteFor ps c]) ∨
   matchFirst ps (c :: s) ig = None ∧ byteFor ps c = c).
Proof.
  induction ps as [|[k v] ps IH]; intros Hs; [auto|]. apply Forall_cons in Hs as [[Hk Hv] Hs].
  simpl in Hk, Hv. destruct k as [|d [|]]; [done| |done]. destruct v as [|n [|]]; [done| |done].
  destruct (IH Hs) as [IH1 IH2]. split.
  - cbn [matchFirst]. rewrite decide_False; [done|]. intros [H%prefix_length _]. simpl in H. lia.
  - cbn [matchFirst byteFor]. destruct (decide ([d] = [c])) as [[= ->]|Hne].
    + rewrite decide_True; [by left|]. split; [by exists s|]. naive_solver.
    + rewrite decide_False; [done|]. intros [[? [= ->]] _]. done.
Qed.

Lemma replaces_single ps ig s : Forall single ps → replaces ps ig s (byteFor ps <$> s).
Proof.
  intros Hs. revert ig. induction s as [|c s IH]; intros ig.
  { apply replaces_end. by apply (matchFirst_single ps [] ig x00). }
  destruct (matchFirst_single ps s ig c Hs) as [_ [Hm|[Hm Hc]]]; simpl.
  - apply (replaces_match ps ig [c] [byteFor ps c] s (byteFor ps <$> s)); [done|apply IH].
  - rewrite Hc. by apply replaces_copy.
Qed.

(** ** [New] and [Replace] *)

Lemma New_odd oldnew : Nat.odd (length oldnew) = true → New oldnew = None.
Proof. intros H. unfold New. by rewrite H. Qed.

Lemma New_spec oldnew :
  Nat.even (length oldnew) = true →
  wp (New oldnew) (λ r, match r with
    | Generic g => genericOk (pairsOf oldnew) g
    | ByteTable t => Forall single (pairsOf oldnew) ∧ length t = 256%nat ∧
        ∀ c, t !! Z.to_nat (b2z c) = Some (byteFor (pairsOf oldnew) c)
    end).
Proof.
  intros He. unfold New. rewrite <-Nat.negb_even, He. simpl.
  assert (∀ m : option genericReplacer, wp m (genericOk (pairsOf oldnew)) →
    wp (Generic <$> m) (λ r, match r with
      | Generic g => genericOk (pairsOf oldnew) g
      | ByteTable t => Forall single (pairsOf oldnew) ∧ length t = 256%nat ∧
          ∀ c, t !! Z.to_nat (b2z c) = Some (byteFor (pairsOf oldnew) c) end)) as Hgen by (by intros []).
  destruct (allSingle oldnew true) as [[]|] eqn:E; [|by apply Hgen, makeGenericReplacer_spec..].
  pose proof (allSingle_spec _ _ He E) as Hs.
  pose proof (fillTable_spec (z2b <$> seqZ 0 256) oldnew He Hs
    ltac:(by rewrite length_fmap, length_seqZ) identity_table) as Ht.
  by destruct (fillTable _ _) as [t|].
Qed.

Lemma byteReplace_spec ps t buf len :
  0 ≤ len ≤ zlen buf → (∀ c, t !! Z.to_nat (b2z c) = Some (byteFor ps c)) → Forall single ps →
  wp (byteReplace t buf len) (λ '(buf', d), replaces ps false (take (Z.to_nat len) buf) (content buf' d)).
Proof.
  intros Hlen Ht Hs. unfold byteReplace. rewrite zslice_unread by lia. simpl.
  change (unread buf len 0) with (take (Z.to_nat len) buf).
  rewrite take_app_le, (take_ge (_ <$> _)); rewrite ?length_fmap, ?length_take; try lia.
  erewrite list_fmap_ext; [by apply (replaces_single ps)|].
  intros i c _. apply list_lookup_total_correct, Ht.
Qed.

(** ** Properties *)

(** C3. For an even number of arguments and any slice of any capacity,
    [New] and [Replace] return, and the bytes returned are the ones of the
    left-to-right scan that tries the pairs in argument order; this holds for
    the byte table and for the generic algorithm writing in place. *)
Theorem Replace_scans_in_order (oldnew : list (list byte)) (buf : list byte) (len : Z) :
  Nat.even (length oldnew) = true → 0 ≤ len ≤ zlen buf →
  ∃ r buf' d, New oldnew = Some r ∧ Replace r buf len = Some (buf', d) ∧
    replaces (pairsOf oldnew) false (take (Z.to_nat len) buf) (content buf' d) ∧
    ∀ out, replaces (pairsOf oldnew) false (take (Z.to_nat len) buf) out → out = content buf' d.
Proof.
  intros He Hlen. destruct (wp_elim _ _ (New_spec oldnew He)) as (r&Hr&Hok). exists r.
  assert (wp (Replace r buf len) (λ '(buf', d),
    replaces (pairsOf oldnew) false (take (Z.to_nat len) buf) (content buf' d))) as H.
  { destruct r as [g|t]; simpl; [by apply genericReplace_spec|].
    destruct Hok as (?&?&?). by apply byteReplace_spec. }
  apply wp_elim in H as ([buf' d]&Hrep&Hout). exists buf', d. split_and!; [done..|].
  intros out Hout'. by eapply replaces_det.
Qed.

Lemma Replace_scans_in_order_witness :
  ∃ r buf' d, New [[x61]; [x62; x63]; [x61; x62]; []] = Some r ∧
    Replace r [x61; x62; x61; x7a] 3 = Some (buf', d) ∧
    replaces (pairsOf [[x61]; [x62; x63]; [x61; x62]; []]) false [x61; x62; x61] (content buf' d) ∧
    ∀ out, replaces (pairsOf [[x61]; [x62; x63]; [x61; x62]; []]) false [x61; x62; x61] out →
      out = content buf' d.
Proof.
  apply (Replace_scans_in_order [[x61]; [x62; x63]; [x61; x62]; []] [x61; x62; x61; x7a] 3);
    [reflexivity|simpl; lia].
Defined.

(** On the trie that [makeGenericReplacer] builds, [lookup] never
    panics and returns the value and key length of the first pair, in argument
    order, whose key is a prefix of the input; with [ignoreRoot] empty keys do
    not count. *)
Theorem lookup_finds_first_pair (oldnew : list (list byte)) (s : list byte) (ignoreRoot : bool) :
  Nat.even (length oldnew) = true →
  ∃ g val keylen found, makeGenericReplacer oldnew = Some g ∧
    lookup g s ignoreRoot = Some (val, keylen, found) ∧
    match matchFirst (pairsOf oldnew) s ignoreRoot with
    | Some (k, v) => found = true ∧ val = v ∧ keylen = zlen k
    | None => found = false
    end.
Proof.
  intros He. destruct (wp_elim _ _ (makeGenericReplacer_spec oldnew He)) as (g&Hg&Hok).
  destruct (wp_elim _ _ (lookup_matchFirst _ _ s ignoreRoot Hok)) as ([[val keylen] found]&Hl&Hm).
  by exists g, val, keylen, found.
Qed.

Lemma lookup_finds_first_pair_witness :
  ∃ g val keylen found,
    makeGenericReplacer [[x61]; [x31]; [x61; x62; x63]; [x32]; [x61; x62]; [x33]] = Some g ∧
    lookup g [x61; x62; x7a] false = Some (val, keylen, found) ∧
    match matchFirst (pairsOf [[x61]; [x31]; [x61; x62; x63]; [x32]; [x61; x62]; [x33]]) [x61; x62; x7a] false with
    | Some (k, v) => found = true ∧ val = v ∧ keylen = zlen k
    | None => found = false
    end.
Proof.
  apply (lookup_finds_first_pair [[x61]; [x31]; [x61; x62; x63]; [x32]; [x61; x62]; [x33]] [x61; x62; x7a] false).
  reflexivity.
Defined.
