(* ===== verification/GoIO.v ===== *)
(** * Go's io: errors, readers and in-memory readers

    The parts of Go's standard library the packages below are written
    against: error values, [io.ReaderAt], [io.Reader] with [io.ReadFull] and
    [io.CopyN], and big- and little-endian integers. *)
From S2P Require Import Prelude.

(** ** Errors

    Sentinel errors are told apart; an error made by [fmt.Errorf] or
    [errors.New] in place is [Errorf] of its format string. *)
Inductive error :=
| EOF
| ErrUnexpectedEOF
| Errorf (msg : string).

#[global] Instance error_eq_dec : EqDecision error.
Proof. solve_decision. Defined.

(** The result [(x, err)] of a call whose callers look at [x] only if [err] is
    nil. *)
Inductive result (A : Type) :=
| Ok (x : A)
| Err (e : error).
Arguments Ok {A} x.
Arguments Err {A} e.

(** A call that may panic and may fail. *)
Definition fallible (A : Type) := option (result A).

Definition ret {A} (x : A) : fallible A := Some (Ok x).
Definition fail {A} (e : error) : fallible A := Some (Err e).
Definition andThen {A B} (m : fallible A) (f : A → fallible B) : fallible B :=
  match m with
  | Some (Ok x) => f x
  | Some (Err e) => Some (Err e)
  | None => None
  end.

(** [x, err := m; if err != nil { return err }] *)
Notation "x ←! m ; k" := (andThen m (λ x, k))
  (at level 20, m at level 100, k at level 200, right associativity).
Notation "' x ←! m ; k" := (andThen m (λ y, match y with x => k end))
  (at level 20, x pattern, m at level 100, k at level 200, right associativity).

(** A call that may panic but does not fail. *)
Definition orPanic {A B} (m : option A) (f : A → fallible B) : fallible B :=
  match m with Some x => f x | None => None end.
Notation "x ←? m ; k" := (orPanic m (λ x, k))
  (at level 20, m at level 100, k at level 200, right associativity).

Lemma wp_orPanic {A B} (m : option A) (f : A → fallible B) Q :
  wp m (λ x, wp (f x) Q) → wp (orPanic m f) Q.
Proof. by destruct m. Qed.

Lemma wp_andThen {A B} (m : fallible A) (f : A → fallible B) Q :
  wp m (λ r, match r with Ok x => wp (f x) Q | Err e => Q (Err e) end) → wp (andThen m f) Q.
Proof. by destruct m as [[]|]. Qed.

(** ** [io.ReaderAt] *)

(** [ReadAt(p, off)] for a [p] of [n] bytes: the bytes read and the error. *)
Definition ReaderAt := Z → Z → list byte * option error.

(** [bytes.NewReader(s).ReadAt] *)
Definition bytesReadAt (s : list byte) : ReaderAt := λ n off,
  if off <? 0 then ([], Some (Errorf "bytes.Reader.ReadAt: negative offset"))
  else if zlen s <=? off then ([], Some EOF)
  else
    let x := take (Z.to_nat n) (drop (Z.to_nat off) s) in
    (x, if zlen x <? n then Some EOF else None).

(** ** [io.Reader]

    A reader is the sequence of the chunks its [Read] calls would deliver,
    which may be empty, and the error it ends with. *)
Record stream := Stream {
  chunks : list (list byte);
  final : error;
}.

Definition pendingBytes (s : stream) : list byte := concat (chunks s).

(** [s.Read(p)] for a [p] of [n] bytes. *)
Definition streamRead (s : stream) (n : Z) : list byte * option error * stream :=
  match chunks s with
  | [] => ([], Some (final s), s)
  | c :: cs =>
      if zlen c <=? n then (c, None, Stream cs (final s))
      else (take (Z.to_nat n) c, None, Stream (drop (Z.to_nat n) c :: cs) (final s))
  end.

(** [io.ReadFull(r, buf)]: what was read, and the error. *)
Fixpoint readFullLoop (fuel : nat) (s : stream) (n : Z) (got : list byte) :
    option (list byte * option error * stream) :=
  match fuel with
  | O => None
  | S fuel =>
      if n <=? zlen got then Some (got, None, s)
      else
        let '(x, err, s) := streamRead s (n - zlen got) in
        match err with
        | None => readFullLoop fuel s n (got ++ x)
        | Some e =>
            let got := got ++ x in
            Some (got,
              if n <=? zlen got then None
              else if (0 <? zlen got) && bool_decide (e = EOF) then Some ErrUnexpectedEOF
              else Some e, s)
        end
  end.

Definition ReadFull (s : stream) (n : Z) : option (list byte * option error * stream) :=
  readFullLoop (S (S (length (chunks s)))) s n [].

(** ** Integers *)

Definition leUint (b : list byte) : Z := foldr (λ x n, b2z x + 256 * n) 0 b.
Definition beUint (b : list byte) : Z := foldl (λ n x, 256 * n + b2z x) 0 b.

(** The [k] low bytes of [v], high byte first ([binary.BigEndian.AppendUint]). *)
Fixpoint bePut (k : nat) (v : Z) : list byte :=
  match k with O => [] | S k => bePut k (v / 256) ++ [z2b v] end.

Fixpoint lePut (k : nat) (v : Z) : list byte :=
  match k with O => [] | S k => z2b v :: lePut k (v / 256) end.

(** ** Lemmas *)

Lemma streamRead_spec s n x err s' :
  0 < n → streamRead s n = (x, err, s') →
  pendingBytes s = x ++ pendingBytes s' ∧ zlen x ≤ n ∧ final s' = final s ∧
  match err with
  | Some e => e = final s ∧ s' = s ∧ chunks s = [] ∧ x = []
  | None => (length (chunks s') < length (chunks s))%nat ∨
            length (chunks s') = length (chunks s) ∧ zlen x = n
  end.
Proof.
  intros Hn. unfold streamRead, pendingBytes. destruct s as [[|c cs] e]; simpl.
  - intros [= <- <- <-]. simpl. split_and!; (done || lia).
  - destruct (Z.leb_spec (zlen c) n); intros [= <- <- <-]; simpl.
    + split_and!; [done|lia|done|left; lia].
    + rewrite app_assoc, take_drop, length_take. split_and!; [done|lia|done|right; split; [done|lia]].
Qed.

(** [ReadFull] delivers the first [n] pending bytes, or all of them and the
    error of the end of the stream. *)
Lemma ReadFull_spec s n :
  0 ≤ n →
  wp (ReadFull s n) (λ '(x, err, s'),
    x = take (Z.to_nat n) (pendingBytes s) ∧ pendingBytes s' = drop (Z.to_nat n) (pendingBytes s) ∧
    final s' = final s ∧ (length (chunks s') ≤ length (chunks s))%nat ∧
    err = (if n <=? zlen (pendingBytes s) then None
           else if (0 <? zlen (pendingBytes s)) && bool_decide (final s = EOF) then Some ErrUnexpectedEOF
           else Some (final s))).
Proof.
  intros Hn. unfold ReadFull.
  enough (∀ (fuel : nat) (s : stream) (got : list byte), (zlen got ≤ n)%Z → (S (length (chunks s)) + (if (zlen got <? n)%Z then 1 else 0) ≤ fuel)%nat →
    wp (readFullLoop fuel s n got) (λ '(x, err, s'),
      x = take (Z.to_nat n) (got ++ pendingBytes s) ∧
      got ++ pendingBytes s = x ++ pendingBytes s' ∧
      final s' = final s ∧ (length (chunks s') ≤ length (chunks s))%nat ∧
      err = (if n <=? zlen (got ++ pendingBytes s) then None
             else if (0 <? zlen (got ++ pendingBytes s)) && bool_decide (final s = EOF) then Some ErrUnexpectedEOF
             else Some (final s)))) as H.
  { eapply wp_mono; [apply (H _ s []); [simpl; lia|simpl; destruct (_ <? _); lia]|].
    intros [[x err] s'] (->&Happ&Hf&Hl&->). simpl in *. split_and!; try done.
    rewrite <-(take_drop (Z.to_nat n) (pendingBytes s)) in Happ at 1. by apply app_inv_head in Happ. }
  clear s. induction fuel as [|fuel IH]; intros s got Hg Hf; [simpl in Hf; lia|]. cbn [readFullLoop].
  destruct (Z.leb_spec n (zlen got)).
  { simpl. assert (Z.to_nat n = length got) as -> by lia. rewrite take_app_length. split_and!; try done.
    destruct (Z.leb_spec n (zlen (got ++ pendingBytes s))); [done|]. rewrite length_app in *. lia. }
  destruct (streamRead s (n - zlen got)) as [[x err] s1] eqn:E.
  apply streamRead_spec in E as (Hp&Hx&Hfin&Herr); [|lia]. rewrite Hp.
  destruct err as [e|].
  - destruct Herr as (->&->&Hc&->). unfold pendingBytes in *. rewrite Hc in *. simpl in *.
    rewrite !app_nil_r. destruct (Z.leb_spec n (zlen got)); [lia|]. rewrite take_ge by lia.
    split_and!; try done. all: rewrite Hc; simpl; rewrite ?app_nil_r; (done || lia).
  - eapply wp_mono; [apply IH|].
    + rewrite length_app. lia.
    + rewrite length_app. destruct (Z.ltb_spec (zlen got) n), (Z.ltb_spec (Z.of_nat (length got + length x)) n); lia.
    + intros [[y err] s2] (H1&H2&H3&H4&H5). rewrite <-!app_assoc, Hfin in *. split_and!; try done. lia.
Qed.

Lemma leUint_range b : 0 ≤ leUint b < 256 ^ zlen b.
Proof.
  induction b as [|x b IH]; [done|]. cbn [leUint foldr length]. fold (leUint b).
  pose proof (b2z_range x). rewrite Nat2Z.inj_succ, Z.pow_succ_r by lia. nia.
Qed.

Lemma length_lePut k v : length (lePut k v) = k.
Proof. revert v. induction k as [|k IH]; intros v; simpl; [done|]. by rewrite IH. Qed.

Lemma leUint_lePut k v : leUint (lePut k v) = v mod 256 ^ Z.of_nat k.
Proof.
  revert v. induction k as [|k IH]; intros v; [by rewrite Z.mod_1_r|].
  cbn [lePut leUint foldr]. fold (leUint (lePut k (v / 256))). rewrite IH, b2z_z2b.
  rewrite Nat2Z.inj_succ, Z.pow_succ_r by lia. rewrite Z.rem_mul_r; lia.
Qed.

Lemma length_bePut k v : length (bePut k v) = k.
Proof. revert v. induction k as [|k IH]; intros v; simpl; [done|]. rewrite length_app, IH. simpl. lia. Qed.

Lemma beUint_app a b : beUint (a ++ [b]) = 256 * beUint a + b2z b.
Proof. unfold beUint. by rewrite foldl_app. Qed.

Lemma beUint_range b : 0 ≤ beUint b < 256 ^ zlen b.
Proof.
  induction b as [|x b IH] using rev_ind; [done|].
  rewrite beUint_app, length_app, Nat2Z.inj_add, Z.pow_add_r by lia. simpl (256 ^ zlen [x]).
  pose proof (b2z_range x). change (256 ^ zlen [x]) with 256. nia.
Qed.

Lemma beUint_bePut k v : beUint (bePut k v) = v mod 256 ^ Z.of_nat k.
Proof.
  revert v. induction k as [|k IH]; intros v; [by rewrite Z.mod_1_r|].
  cbn [bePut]. rewrite beUint_app, IH, b2z_z2b.
  rewrite Nat2Z.inj_succ, Z.pow_succ_r by lia. rewrite Z.rem_mul_r; lia.
Qed.
