(* ===== verification/ReaderUtil.v ===== *)
(** * readerutil: reader adaptors

    multireaderat.go, bufreaderat.go, fakeseeker.go, countingreader.go,
    readersize.go and readerutil.go of package readerutil. Offsets and sizes
    of multireaderat.go are 64-bit integers. *)
From S2P Require Import Prelude.
From S2P Require Import GoIO.
From S2P Require SortModel SortLaws.

(** ** multireaderat.go *)

Record SizeReaderAt := {
  Size : Z;
  ReadAt : ReaderAt;
}.

(** [bytes.NewReader(s)] *)
Definition bytesReader (s : list byte) : SizeReaderAt := {| Size := zlen s; ReadAt := bytesReadAt s |}.

Definition ZeroSizeReaderAt (size : Z) : SizeReaderAt :=
  {| Size := size; ReadAt := λ n _, (replicate (Z.to_nat n) x00, None) |}.

(** The loop of [NewMultiReaderAt]: [multiRA.parts], with the offset of each
    part, and [multiRA.size]. *)
Fixpoint offsets (off : Z) (parts : list SizeReaderAt) : list (Z * SizeReaderAt) :=
  match parts with
  | [] => []
  | p :: parts => (off, p) :: offsets (i64 (off + Size p)) parts
  end.
Fixpoint multiSize (off : Z) (parts : list SizeReaderAt) : Z :=
  match parts with [] => off | p :: parts => multiSize (i64 (off + Size p)) parts end.

(** [m.parts[skipParts:]]; the search is that of sort/search.go. *)
Definition skipParts (off : Z) (parts : list (Z * SizeReaderAt)) : option (list (Z * SizeReaderAt)) :=
  i ← SortModel.Search (zlen parts) (λ i, '(poff, part) ← zidx parts i; Some (off <? i64 (poff + Size part)));
  zslice parts i (zlen parts).

Record multiState := MultiState {
  m_parts : list (Z * SizeReaderAt);
  m_want : Z;              (* len(p) *)
  m_needSkip : Z;
  m_out : list byte;       (* what has been read *)
}.

(** One iteration of the loop of [multiRA.ReadAt]. *)
Definition multiBody (st : multiState) : option (multiState + list byte * option error) :=
  let '(MultiState parts want needSkip out) := st in
  match parts with
  | [] => break (out, None)
  | (_, part) :: rest =>
      if want <=? 0 then break (out, None)
      else
        let partSize := Size part in
        let len := if i64 (partSize - needSkip) <? want then i64 (partSize - needSkip) else want in
        if len <? 0 then None
        else
          let '(x, err) := ReadAt part len needSkip in
          match err with
          | Some e => break (out, Some e)
          | None =>
              let parts := if i64 (zlen x + needSkip) =? partSize then rest else parts in
              continue (MultiState parts (want - zlen x) 0 (out ++ x))
          end
  end.

Definition multiReadAt (parts : list (Z * SizeReaderAt)) (n off : Z) : option (list byte * option error) :=
  parts ← skipParts off parts;
  let needSkip := match parts with (poff, _) :: _ => i64 (off - poff) | [] => off end in
  '(out, err) ← loop (length parts + Z.to_nat n + 1) multiBody (MultiState parts n needSkip []);
  match err with
  | Some e => Some (out, Some e)
  | None => Some (out, if zlen out =? n then None else Some ErrUnexpectedEOF)
  end.

(** [NewMultiReaderAt(parts...).ReadAt] *)
Definition NewMultiReaderAt (parts : list SizeReaderAt) : Z → Z → option (list byte * option error) :=
  multiReadAt (offsets 0 parts).

(** *** Specification *)

(** [r] holds the bytes [c]: a read inside them gets them, with a nil error or,
    at their end, with [io.EOF], as [io.ReaderAt] allows. *)
Record Holds (r : SizeReaderAt) (c : list byte) : Prop := {
  holds_size : Size r = zlen c;
  holds_read n off : 0 ≤ off → 0 ≤ n → off + n ≤ zlen c →
    ∃ err, ReadAt r n off = (take (Z.to_nat n) (drop (Z.to_nat off) c), err) ∧
      (err = None ∨ err = Some EOF ∧ off + n = zlen c);
}.

(** [r] gives [io.EOF] to no full read, except to an empty one of a part that
    has bytes. *)
Definition Plain (r : SizeReaderAt) (c : list byte) : Prop :=
  ∀ n off, 0 ≤ off → 0 ≤ n → off + n ≤ zlen c → (n = 0 → c = []) → (ReadAt r n off).2 = None.

Lemma bytesReader_holds s : Holds (bytesReader s) s.
Proof.
  split; [done|]. intros n off Hoff Hn Hle. simpl. unfold bytesReadAt.
  destruct (Z.ltb_spec off 0), (Z.leb_spec (zlen s) off); try lia.
  - rewrite drop_ge, take_nil by lia. eexists. split; [done|]. right. split; [done|lia].
  - eexists. split; [done|]. left. rewrite length_take, length_drop.
    destruct (Z.ltb_spec (Z.of_nat (Z.to_nat n `min` (length s - Z.to_nat off))) n); [lia|done].
Qed.

Lemma bytesReader_plain s : s ≠ [] → Plain (bytesReader s) s.
Proof.
  intros Hs n off Hoff Hn Hle H0. assert (n ≠ 0) by (intros ->; by destruct Hs; apply H0). simpl. unfold bytesReadAt.
  destruct (Z.ltb_spec off 0), (Z.leb_spec (zlen s) off); try lia. cbn [snd]. rewrite length_take, length_drop.
  destruct (Z.ltb_spec (Z.of_nat (Z.to_nat n `min` (length s - Z.to_nat off))) n); [lia|done].
Qed.

Lemma ZeroSizeReaderAt_holds n : 0 ≤ n → Holds (ZeroSizeReaderAt n) (replicate (Z.to_nat n) x00).
Proof.
  intros Hn. split; [simpl; rewrite length_replicate; lia|].
  intros m off Hoff Hm Hle. simpl. rewrite length_replicate in Hle.
  rewrite drop_replicate, take_replicate, Nat.min_l by lia. eexists. split; [done|by left].
Qed.

Lemma ZeroSizeReaderAt_plain n c : Plain (ZeroSizeReaderAt n) c.
Proof. by intros ?. Qed.

(** The first [n] bytes from [off], with the error of a short read. *)
Definition readSpec (c : list byte) (n off : Z) : list byte * option error :=
  let x := take (Z.to_nat n) (drop (Z.to_nat off) c) in
  (x, if zlen x =? n then None else Some ErrUnexpectedEOF).


Lemma multi_loop fuel parts cs want skip out :
  Forall2 (λ p c, Holds p.2 c) parts cs → zlen (concat cs) < 2 ^ 63 → 0 ≤ want → 0 ≤ skip →
  (∀ c cs', cs = c :: cs' → skip ≤ zlen c ∧ (c ≠ [] → skip < zlen c)) → (length parts < fuel)%nat →
  ∃ x err, loop fuel multiBody (MultiState parts want skip out) = Some (out ++ x, err) ∧
    x `prefix_of` take (Z.to_nat want) (drop (Z.to_nat skip) (concat cs)) ∧
    (err = None → x = take (Z.to_nat want) (drop (Z.to_nat skip) (concat cs))) ∧
    (err ≠ None → zlen x < want) ∧ (Forall2 (λ p c, Plain p.2 c) parts cs → err = None).
Proof.
  intros Hp. revert want skip out fuel. induction Hp as [|[poff p] c parts cs Hh Hp IH];
    intros want skip out fuel Hsum Hw Hs Hsk Hf; destruct fuel as [|fuel]; try (simpl in *; lia).
  { exists [], None. simpl. rewrite drop_nil, take_nil, app_nil_r. by split_and!. }
  cbn [loop multiBody]. destruct (Hsk c cs eq_refl) as [Hle Hlt]. simpl in Hf, Hh, Hsum. rewrite length_app in Hsum.
  destruct (Z.leb_spec want 0).
  { exists [], None. simpl. replace want with 0 by lia. rewrite take_0, app_nil_r. by split_and!. }
  rewrite (holds_size _ _ Hh). rewrite (wrapS_small 64 (zlen c - skip)) by lia. simpl concat.
  set (len := if zlen c - skip <? want then zlen c - skip else want).
  assert (0 ≤ len ≤ want ∧ skip + len ≤ zlen c ∧ (len = 0 → c = [])) as (Hlen1&Hlen2&Hlen0).
  { unfold len. destruct (Z.ltb_spec (zlen c - skip) want); split_and!; try lia; intros; destruct c; try done; specialize (Hlt ltac:(done)); lia. }
  destruct (Z.ltb_spec len 0); [lia|].
  destruct (holds_read _ _ Hh len skip Hs (proj1 Hlen1) Hlen2) as (err&Hr&Herr). rewrite Hr.
  set (x := take (Z.to_nat len) (drop (Z.to_nat skip) c)) in *.
  assert (zlen x = len) as Hx by (unfold x; rewrite length_take, length_drop; lia).
  destruct err as [e|].
  { exists [], (Some e). cbn [mbind option_bind break]. rewrite app_nil_r. split_and!; [done|apply prefix_nil|done|simpl; lia|].
    intros [Hpl _]%Forall2_cons. specialize (Hpl len skip Hs (proj1 Hlen1) Hlen2 Hlen0). cbn [snd] in Hpl. by rewrite Hr in Hpl. }
  cbn [mbind option_bind continue]. rewrite Hx, (wrapS_small 64 (len + skip)) by lia.
  destruct (Z.eqb_spec (len + skip) (zlen c)) as [Hend|Hmid].
  - assert (x = drop (Z.to_nat skip) c) as Hxd by (unfold x; apply take_ge; rewrite length_drop; lia).
    destruct (IH (want - len) 0 (out ++ x) fuel) as (y&err&Hy&Hpre&Hok&Hbad&Hplain); [lia|lia|lia| |lia|].
    { intros c' cs' _. split; [lia|]. destruct c'; [done|simpl; lia]. }
    exists (x ++ y), err. change (Z.to_nat 0) with 0%nat in *. rewrite drop_0 in *.
    assert (take (Z.to_nat want) (drop (Z.to_nat skip) (c ++ concat cs)) = x ++ take (Z.to_nat (want - len)) (concat cs)) as ->.
    { rewrite drop_app_le by lia. rewrite <-Hxd, take_app_ge by lia. do 2 f_equal. lia. }
    split_and!; [by rewrite app_assoc|by apply prefix_app|by intros ->%Hok| |].
    + intros He%Hbad. rewrite length_app. lia.
    + intros [_ ?]%Forall2_cons. by apply Hplain.
  - assert (len = want) as Hlw by (unfold len in *; destruct (_ <? _); lia).
    exists x, None. replace (want - len) with 0 by lia. destruct fuel as [|fuel]; [lia|]. split_and!; [| | |done|done].
    + cbn [loop multiBody]. done.
    + rewrite drop_app_le, take_app_le by (rewrite ?length_drop; lia). unfold x. by rewrite Hlw.
    + intros _. rewrite drop_app_le, take_app_le by (rewrite ?length_drop; lia). unfold x. by rewrite Hlw.
Qed.

Lemma length_offsets base parts : length (offsets base parts) = length parts.
Proof. revert base. induction parts as [|p parts IH]; intros base; simpl; [done|]. by rewrite IH. Qed.

(** The offset of each part is the length of what the parts before it hold. *)
Lemma offsets_lookup base parts cs j p :
  Forall2 Holds parts cs → 0 ≤ base → base + zlen (concat cs) < 2 ^ 63 → parts !! j = Some p →
  offsets base parts !! j = Some (base + zlen (concat (take j cs)), p).
Proof.
  intros Hp. revert base j. induction Hp as [|q c parts cs Hh Hp IH]; intros base j Hb Hsum Hj; [done|].
  simpl in Hsum. rewrite length_app in Hsum. destruct j as [|j]; cbn [offsets lookup list_lookup] in *.
  - injection Hj as ->. by rewrite Z.add_0_r.
  - rewrite (holds_size _ _ Hh), wrapS_small by lia. rewrite (IH _ j) by (done || lia). simpl. rewrite length_app. do 2 f_equal. lia.
Qed.

Lemma multiSize_spec base parts cs :
  Forall2 Holds parts cs → 0 ≤ base → base + zlen (concat cs) < 2 ^ 63 → multiSize base parts = base + zlen (concat cs).
Proof.
  intros Hp. revert base. induction Hp as [|p c parts cs Hh Hp IH]; intros base Hb Hsum; [simpl; lia|]. simpl in *.
  rewrite length_app in *. rewrite (holds_size _ _ Hh), wrapS_small by lia. rewrite IH by lia. lia.
Qed.

Lemma concat_take_S {A} (cs : list (list A)) j c :
  cs !! j = Some c → concat (take (S j) cs) = concat (take j cs) ++ c.
Proof. intros Hj. rewrite (take_S_r _ _ c Hj), concat_app. simpl. by rewrite app_nil_r. Qed.

Lemma concat_take_mono {A} (cs : list (list A)) i j :
  (i ≤ j)%nat → (length (concat (take i cs)) ≤ length (concat (take j cs)))%nat.
Proof.
  intros Hij. rewrite <-(take_drop i (take j cs)), take_take, Nat.min_l, concat_app, length_app by done. lia.
Qed.

Lemma concat_take_le {A} (cs : list (list A)) i : (length (concat (take i cs)) ≤ length (concat cs))%nat.
Proof. rewrite <-(take_drop i cs) at 2. rewrite concat_app, length_app. lia. Qed.

(** The search finds the part that has the byte at the offset. *)
Lemma skipParts_spec parts cs off :
  Forall2 Holds parts cs → 0 ≤ off → zlen (concat cs) < 2 ^ 63 → zlen parts < 2 ^ 63 →
  ∃ j, skipParts off (offsets 0 parts) = Some (drop j (offsets 0 parts)) ∧ (j ≤ length parts)%nat ∧
    zlen (concat (take j cs)) ≤ off ∧ ((j < length parts)%nat → off < zlen (concat (take (S j) cs))).
Proof.
  intros Hp Hoff Hsum Hlen. pose proof (Forall2_length _ _ _ Hp) as Hl.
  set (t i := off <? zlen (concat (take (S (Z.to_nat i)) cs))).
  destruct (SortLaws.Search_spec (zlen (offsets 0 parts))
    (λ i, '(poff, part) ← zidx (offsets 0 parts) i; Some (off <? i64 (poff + Size part))) t) as (r&Hr&Hbound&Hlo&Hhi);
    rewrite ?length_offsets in *; [lia| | |].
  - intros i Hi. destruct (lookup_lt_is_Some_2 parts (Z.to_nat i)) as [p Hpi]; [lia|].
    destruct (zidx_Some (offsets 0 parts) i) as (x&->&Hx); [rewrite length_offsets; lia|].
    rewrite (offsets_lookup 0 parts cs _ p Hp) in Hx by (done || lia). injection Hx as <-. cbn [mbind option_bind].
    destruct (Forall2_lookup_l _ _ _ _ _ Hp Hpi) as (c&Hc&Hh). unfold t. rewrite (concat_take_S _ _ _ Hc), length_app.
    pose proof (concat_take_le cs (S (Z.to_nat i))) as Hle. rewrite (concat_take_S _ _ _ Hc), length_app in Hle.
    rewrite (holds_size _ _ Hh), wrapS_small by lia. do 2 f_equal. lia.
  - intros i j Hi Hij Hj. unfold t. rewrite !Z.ltb_lt. pose proof (concat_take_mono cs (S (Z.to_nat i)) (S (Z.to_nat j))). lia.
  - exists (Z.to_nat r). unfold skipParts. rewrite length_offsets, Hr. cbn [mbind option_bind].
    rewrite zslice_Some by (rewrite ?length_offsets; lia). split_and!.
    + f_equal. apply take_ge. rewrite length_drop, length_offsets. lia.
    + lia.
    + destruct (decide (r = 0)) as [->|]; [simpl; lia|]. specialize (Hlo (r - 1) ltac:(lia)). unfold t in Hlo.
      apply Z.ltb_ge in Hlo. by replace (S (Z.to_nat (r - 1))) with (Z.to_nat r) in Hlo by lia.
    + intros Hlt. specialize (Hhi r ltac:(lia)). by apply Z.ltb_lt in Hhi.
Qed.

(** What [ReadAt] of a [NewMultiReaderAt] computes. *)
Lemma NewMultiReaderAt_spec parts cs n off :
  Forall2 Holds parts cs → zlen (concat cs) < 2 ^ 63 → zlen parts < 2 ^ 63 → 0 ≤ off → 0 ≤ n →
  let want := take (Z.to_nat n) (drop (Z.to_nat off) (concat cs)) in
  ∃ x err, NewMultiReaderAt parts n off = Some (x, err) ∧ x `prefix_of` want ∧ (err = None ↔ zlen x = n) ∧
    (Forall2 Plain parts cs → (x, err) = readSpec (concat cs) n off).
Proof.
  intros Hp Hsum Hlen Hoff Hn want. unfold NewMultiReaderAt, multiReadAt.
  destruct (skipParts_spec parts cs off Hp Hoff Hsum Hlen) as (j&->&Hj&Hlo&Hhi). cbn [mbind option_bind].
  pose proof (Forall2_length _ _ _ Hp) as Hl. set (skip := off - zlen (concat (take j cs))).
  assert (want = take (Z.to_nat n) (drop (Z.to_nat skip) (concat (drop j cs)))) as Hw.
  { unfold want. rewrite <-(take_drop j cs) at 1. rewrite concat_app, drop_app_ge by lia. do 2 f_equal. unfold skip. lia. }
  assert (∀ Q : SizeReaderAt → list byte → Prop, Forall2 Q parts cs → Forall2 (λ p c, Q p.2 c) (drop j (offsets 0 parts)) (drop j cs)) as Hdrop.
  { intros Q HQ. apply Forall2_drop. clear -HQ. generalize 0. induction HQ; intros base; constructor; auto. }
  set (needSkip := match drop j (offsets 0 parts) with (poff, _) :: _ => i64 (off - poff) | [] => off end).
  assert ((j < length parts)%nat → needSkip = skip) as Hns.
  { intros Hlt. destruct (lookup_lt_is_Some_2 parts j Hlt) as [p Hpj]. unfold needSkip.
    rewrite (drop_S _ (0 + zlen (concat (take j cs)), p) j) by (by apply offsets_lookup).
    pose proof (concat_take_le cs (S j)). specialize (Hhi Hlt). rewrite wrapS_small; unfold skip; lia. }
  destruct (decide (j < length parts)%nat) as [Hlt|Hge].
  - rewrite Hns by done. destruct (multi_loop (length (drop j (offsets 0 parts)) + Z.to_nat n + 1) (drop j (offsets 0 parts)) (drop j cs) n skip [])
      as (x&err&->&Hpre&Hok&Hbad&Hplain); [by apply Hdrop| |done|unfold skip; lia| |lia|].
    { pose proof (f_equal length (eq_sym (take_drop j cs))). rewrite <-(take_drop j cs), concat_app, length_app in Hsum. lia. }
    { intros c cs' Hc. assert (cs !! j = Some c) as Hcj by (rewrite <-(Nat.add_0_r j), <-lookup_drop, Hc; done).
      specialize (Hhi Hlt). rewrite (concat_take_S _ _ _ Hcj), length_app in Hhi. unfold skip. lia. }
    rewrite <-Hw in *. cbn [mbind option_bind app]. assert (zlen want ≤ n) by (unfold want; rewrite length_take; lia).
    destruct err as [e|]; eexists _, _; (split; [done|]); split_and!; try done.
    + split; [done|]. specialize (Hbad ltac:(done)). lia.
    + intros HP. by specialize (Hplain (Hdrop _ HP)).
    + rewrite (Hok eq_refl). by destruct (Z.eqb_spec (zlen want) n).
    + intros _. unfold readSpec. fold want. by rewrite (Hok eq_refl).
  - rewrite (drop_ge (offsets 0 parts)) by (rewrite length_offsets; lia). rewrite (drop_ge cs) in Hw by lia.
    simpl in Hw. rewrite drop_nil, take_nil in Hw. cbn [length]. replace (0 + Z.to_nat n + 1)%nat with (S (Z.to_nat n)) by lia.
    cbn [loop multiBody mbind option_bind break]. unfold readSpec. fold want. rewrite Hw.
    eexists _, _. split; [done|]. split_and!; [done| |done]. by destruct (Z.eqb_spec (zlen (@nil byte)) n).
Qed.

(** ** bufreaderat.go *)

Record bufReaderAt := BufReaderAt { br_r : stream; br_buf : list byte }.

Definition NewBufferingReaderAt (r : stream) : bufReaderAt := BufReaderAt r [].

(** [br.ReadAt(p, off)] for a [p] of [plen] bytes; [None] is the panic of a
    negative slice index. *)
Definition bufReadAt (br : bufReaderAt) (plen off : Z) :
    option (list byte * option error * bufReaderAt) :=
  let endOff := off + plen in
  let need := endOff - zlen (br_buf br) in
  '(err, br) ←
    (if 0 <? need then
       '(buf, err, r) ← ReadFull (br_r br) need;
       Some (err, BufReaderAt r (br_buf br ++ buf))
     else Some (None, br));
  x ← (if off <=? zlen (br_buf br) then
         rest ← zslice (br_buf br) off (zlen (br_buf br));
         Some (take (Z.to_nat plen) rest)
       else Some []);
  Some (x, if zlen x =? plen then None else err, br).

(** The bytes the reader has or will have. *)
Definition allBytes (br : bufReaderAt) : list byte := br_buf br ++ pendingBytes (br_r br).

Lemma bufReadAt_spec br plen off :
  0 ≤ off → 0 ≤ plen →
  wp (bufReadAt br plen off) (λ '(x, err, br'),
    allBytes br' = allBytes br ∧ final (br_r br') = final (br_r br) ∧
    x = take (Z.to_nat plen) (drop (Z.to_nat off) (allBytes br)) ∧
    (err = None ↔ zlen x = plen) ∧
    (0 < plen → zlen x < plen → br_buf br' = allBytes br)).
Proof.
  intros Hoff Hp. unfold bufReadAt. set (b := br_buf br). set (P := pendingBytes (br_r br)).
  set (need := off + plen - zlen b).
  assert (wp (if 0 <? need then
       '(buf, err, r) ← ReadFull (br_r br) need;
       Some (err, BufReaderAt r (b ++ buf)) else Some (None, br))
    (λ '(err, br'), br_buf br' = b ++ take (Z.to_nat need) P ∧ allBytes br' = allBytes br ∧
      final (br_r br') = final (br_r br) ∧ (err = None ↔ need ≤ zlen P))) as H.
  { destruct (Z.ltb_spec 0 need).
    - apply wp_bind. eapply wp_mono; [apply ReadFull_spec; lia|].
      intros [[buf err] r] (->&Hr&Hf&_&->). simpl. split_and!; [done| |done|].
      + unfold allBytes. simpl. rewrite Hr, <-app_assoc. fold P. by rewrite take_drop.
      + fold P. destruct (Z.leb_spec need (zlen P)); [split; [lia|done]|].
        split; [|lia]. by destruct (_ && _).
    - simpl. replace (Z.to_nat need) with 0%nat by lia. rewrite take_0, app_nil_r.
      split_and!; [done..|]. split; [lia|done]. }
  apply wp_bind. eapply wp_mono; [exact H|]. intros [err br'] (Hb&Ha&Hf&Herr). rewrite Hb.
  assert (length (take (Z.to_nat need) P) = Nat.min (Z.to_nat need) (length P)) as Hlt by apply length_take.
  assert (allBytes br = b ++ P) as Hall by done.
  destruct (Z.leb_spec off (zlen (b ++ take (Z.to_nat need) P))) as [Hle|Hgt].
  - rewrite zslice_Some by lia. cbn [mbind option_bind wp].
    rewrite (take_ge (drop _ _)) by (rewrite length_drop; lia).
    assert (take (Z.to_nat plen) (drop (Z.to_nat off) (b ++ take (Z.to_nat need) P))
            = take (Z.to_nat plen) (drop (Z.to_nat off) (b ++ P))) as ->.
    { rewrite <-(take_drop (Z.to_nat need) P) at 2. rewrite app_assoc.
      rewrite length_app, Hlt in Hle. rewrite (drop_app_le _ (drop _ _)) by (rewrite length_app, Hlt; lia).
      destruct (decide (need ≤ zlen P)).
      - rewrite (take_app_le _ (drop _ _)); [done|]. rewrite length_drop, length_app, Hlt. lia.
      - by rewrite (drop_ge P), app_nil_r by lia. }
    rewrite <-Hall. split_and!; [done|done|done| |].
    + rewrite Hall, length_take, length_drop, length_app.
      destruct (Z.eqb_spec (Z.of_nat (Z.to_nat plen `min` (length b + length P - Z.to_nat off))) plen); [split; done|].
      rewrite Herr. split; lia.
    + rewrite Hall, length_take, length_drop, length_app. intros. by rewrite Hb, (take_ge P) by lia.
  - cbn [mbind option_bind wp]. rewrite length_app, Hlt in Hgt.
    assert (drop (Z.to_nat off) (allBytes br) = []) as ->.
    { apply drop_ge. rewrite Hall, length_app. lia. }
    rewrite take_nil. split_and!; [done|done|done| |].
    + change (Z.of_nat (length (@nil byte))) with 0. destruct (Z.eqb_spec 0 plen); [split; [lia|done]|]. rewrite Herr. split; lia.
    + intros. by rewrite Hb, Hall, (take_ge P) by lia.
Qed.

(** ** fakeseeker.go *)

Record fakeSeeker := FakeSeeker { fs_r : stream; fs_size : Z; fs_fakePos : Z; fs_realPos : Z }.

Definition NewFakeSeeker (r : stream) (size : Z) : fakeSeeker := FakeSeeker r size 0 0.

Inductive whence := SEEK_SET | SEEK_CUR | SEEK_END | BadWhence.

Definition fakeSeek (fs : fakeSeeker) (offset : Z) (w : whence) : result Z * fakeSeeker :=
  let go newo :=
    if newo <? 0 then (Err (Errorf "negative seek"), fs)
    else (Ok newo, FakeSeeker (fs_r fs) (fs_size fs) newo (fs_realPos fs)) in
  match w with
  | BadWhence => (Err (Errorf "invalid whence"), fs)
  | SEEK_SET => go offset
  | SEEK_CUR => go (fs_fakePos fs + offset)
  | SEEK_END => go (fs_size fs + offset)
  end.

Definition fakeRead (fs : fakeSeeker) (n : Z) : list byte * option error * fakeSeeker :=
  if negb (fs_fakePos fs =? fs_realPos fs) then
    ([], Some (Errorf "attempt to read from fake seek offset %d; real offset is %d"), fs)
  else
    let '(x, err, r) := streamRead (fs_r fs) n in
    (x, err, FakeSeeker r (fs_size fs) (fs_fakePos fs + zlen x) (fs_realPos fs + zlen x)).

(** ** countingreader.go and the statistics readers of readerutil.go: a
    reader with the counter it increments. *)

Record CountingReader := { cr_Reader : stream; cr_N : Z }.

Definition countingRead (cr : CountingReader) (n : Z) : list byte * option error * CountingReader :=
  let '(x, err, r) := streamRead (cr_Reader cr) n in
  (x, err, {| cr_Reader := r; cr_N := cr_N cr + zlen x |}).

Record varStatReader := { vs_Int : Z; vs_r : stream }.

Definition statRead (v : varStatReader) (n : Z) : list byte * option error * varStatReader :=
  let '(x, err, r) := streamRead (vs_r v) n in
  (x, err, {| vs_Int := vs_Int v + zlen x; vs_r := r |}).

Definition NewStatsReader (v : Z) (r : stream) : varStatReader := {| vs_Int := v; vs_r := r |}.

(** A seeker is a state [S] with its [Read] and [Seek]. *)
Section stats.
Context {S : Type}.
Variable read : S → Z → list byte * option error * S.
Variable seek : S → Z → whence → result Z * S.

Record varStatReadSeeker := { vss_Int : Z; vss_rs : S }.
Definition NewStatsReadSeeker (v : Z) (rs : S) : varStatReadSeeker := {| vss_Int := v; vss_rs := rs |}.
Definition statSeekerRead (v : varStatReadSeeker) (n : Z) : list byte * option error * varStatReadSeeker :=
  let '(x, err, rs) := read (vss_rs v) n in
  (x, err, {| vss_Int := vss_Int v + zlen x; vss_rs := rs |}).
Definition statSeekerSeek (v : varStatReadSeeker) (offset : Z) (w : whence) : result Z * varStatReadSeeker :=
  let '(r, rs) := seek (vss_rs v) offset w in
  (r, {| vss_Int := vss_Int v; vss_rs := rs |}).
End stats.

(** ** readersize.go *)

(** The dynamic types [Size] tells apart; a seeker is a state with its [Seek]. *)
Inductive sizedReader (S : Type) :=
| BytesBuffer (unread : list byte)
| BytesReader (unread : list byte)
| StringsReader (unread : list byte)
| Seeker (s : S) (seek : S → Z → whence → result Z * S)
| OtherReader.
Arguments BytesBuffer {S}. Arguments BytesReader {S}. Arguments StringsReader {S}.
Arguments Seeker {S}. Arguments OtherReader {S}.

(** [Size(r)], with the state of the seeker afterwards; [None] is the panic. *)
Definition readerSize {S} (r : sizedReader S) : option (option Z * option S) :=
  match r with
  | BytesBuffer u | BytesReader u | StringsReader u => Some (Some (zlen u), None)
  | Seeker s seek =>
      match seek s 0 SEEK_CUR with
      | (Err _, s) => Some (None, Some s)
      | (Ok pos, s) =>
          match seek s 0 SEEK_END with
          | (Err _, s) => Some (None, Some s)
          | (Ok end_, s) =>
              match seek s pos SEEK_SET with
              | (Ok pos1, s) => if pos1 =? pos then Some (Some (end_ - pos), Some s) else None
              | (Err _, _) => None
              end
          end
      end
  | OtherReader => Some (None, None)
  end.

(** ** Properties *)

(** A sequence of operations on a fake seeker. *)
Inductive fakeOp := DoSeek (offset : Z) (w : whence) | DoRead (n : Z).

Definition fakeStep (fs : fakeSeeker) (op : fakeOp) : list byte * fakeSeeker :=
  match op with
  | DoSeek o w => ([], (fakeSeek fs o w).2)
  | DoRead n => let '(x, _, fs) := fakeRead fs n in (x, fs)
  end.

Fixpoint fakeRun (fs : fakeSeeker) (ops : list fakeOp) : list byte * fakeSeeker :=
  match ops with
  | [] => ([], fs)
  | op :: ops =>
      let '(x, fs) := fakeStep fs op in
      let '(y, fs) := fakeRun fs ops in
      (x ++ y, fs)
  end.

Lemma streamRead_pending s n x err s' :
  streamRead s n = (x, err, s') → pendingBytes s = x ++ pendingBytes s'.
Proof.
  unfold streamRead, pendingBytes. destruct s as [[|c cs] e]; simpl; [by intros [= <- <- <-]|].
  destruct (_ <=? _); intros [= <- <- <-]; simpl; [done|]. by rewrite app_assoc, take_drop.
Qed.

Lemma fakeRun_spec fs ops :
  fs_realPos (fakeRun fs ops).2 = fs_realPos fs + zlen (fakeRun fs ops).1 ∧
  pendingBytes (fs_r fs) = (fakeRun fs ops).1 ++ pendingBytes (fs_r (fakeRun fs ops).2).
Proof.
  revert fs. induction ops as [|op ops IH]; intros fs; simpl; [split; [lia|done]|].
  destruct (fakeStep fs op) as [x fs1] eqn:E. pose proof (IH fs1) as [H1 H2].
  destruct (fakeRun fs1 ops) as [y fs2]. simpl in *. rewrite H1, length_app.
  enough (fs_realPos fs1 = fs_realPos fs + zlen x ∧ pendingBytes (fs_r fs) = x ++ pendingBytes (fs_r fs1))
    as [-> ->] by (rewrite H2, app_assoc; split; [lia|done]).
  destruct op as [o w|n]; simpl in E.
  - injection E as <- <-. unfold fakeSeek. simpl. rewrite Z.add_0_r.
    destruct w; simpl; try (split; done); destruct (_ <? _); done.
  - unfold fakeRead in E. destruct (negb _); [injection E as <- <-; simpl; rewrite Z.add_0_r; done|].
    destruct (streamRead (fs_r fs) n) as [[z err] r] eqn:Er. injection E as <- <-. simpl.
    split; [done|]. by eapply streamRead_pending.
Qed.

(** C10. Let the parts of a [NewMultiReaderAt] hold some bytes each, in all less
    than 2^63, and answer as [io.ReaderAt] demands: a read inside a part gets
    its bytes with a nil error or, at the part's end, with [io.EOF]. The size is
    that of the concatenation. [ReadAt] returns; what it delivers is the bytes
    of the concatenation at the offset or the first ones of them, and its error
    is nil exactly if [len(p)] bytes are delivered. If no part says [io.EOF]
    with a full read, all the bytes that are there are delivered, and the error
    of a short read is [io.ErrUnexpectedEOF]. (A part that says [io.EOF] at its
    end, as it may, hides what is behind: [multiReadAt_loses_bytes_at_EOF].) *)
Theorem multiReadAt_reads_concatenation parts cs n off :
  Forall2 Holds parts cs → zlen (concat cs) < 2 ^ 63 → zlen parts < 2 ^ 63 → 0 ≤ off → 0 ≤ n →
  let want := take (Z.to_nat n) (drop (Z.to_nat off) (concat cs)) in
  multiSize 0 parts = zlen (concat cs) ∧
  ∃ x err, NewMultiReaderAt parts n off = Some (x, err) ∧
    x `prefix_of` want ∧ (err = None ↔ zlen x = n) ∧
    (Forall2 Plain parts cs → x = want ∧ (err = None ∨ err = Some ErrUnexpectedEOF) ∧
      (err = None ↔ off + n ≤ zlen (concat cs) ∨ n = 0)).
Proof.
  intros Hp Hsum Hlen Hoff Hn want. split; [by rewrite (multiSize_spec _ _ cs)|].
  destruct (NewMultiReaderAt_spec _ _ _ _ Hp Hsum Hlen Hoff Hn) as (x&err&Hx&Hpre&Herr&Hplain).
  exists x, err. split_and!; [done..|]. intros HP. unfold readSpec in Hplain. injection (Hplain HP) as -> ->.
  split_and!; [done|by destruct (_ =? _); auto|]. rewrite length_take, length_drop.
  destruct (Z.eqb_spec (Z.of_nat (Z.to_nat n `min` (length (concat cs) - Z.to_nat off))) n).
  - split; [lia|done].
  - split; [done|lia].
Qed.

Lemma multiReadAt_reads_concatenation_witness :
  multiSize 0 [ZeroSizeReaderAt 3; bytesReader [x41; x42]; bytesReader [x43]] = 6 ∧
  ∃ x err, NewMultiReaderAt [ZeroSizeReaderAt 3; bytesReader [x41; x42]; bytesReader [x43]] 4 2 = Some (x, err) ∧
    x = [x00; x41; x42; x43] ∧ (err = None ↔ 2 + 4 ≤ 6 ∨ 4 = 0).
Proof.
  destruct (multiReadAt_reads_concatenation
    [ZeroSizeReaderAt 3; bytesReader [x41; x42]; bytesReader [x43]]
    [[x00; x00; x00]; [x41; x42]; [x43]] 4 2) as (Hsize&x&err&Hx&_&_&Hplain); [|done|done|lia|lia|].
  - repeat apply Forall2_cons_2; [by apply (ZeroSizeReaderAt_holds 3)|apply bytesReader_holds|apply bytesReader_holds|done].
  - split; [exact Hsize|]. destruct Hplain as (?&_&?); [|by exists x, err].
    repeat apply Forall2_cons_2; [by apply ZeroSizeReaderAt_plain|by apply bytesReader_plain|by apply bytesReader_plain|done].
Defined.

(** A reader that says [io.EOF] with the last bytes, as [io.ReaderAt] allows. *)
Definition eofReader (s : list byte) : SizeReaderAt :=
  {| Size := zlen s;
     ReadAt := λ n off, let x := take (Z.to_nat n) (drop (Z.to_nat off) s) in
       (x, if off + n <? zlen s then None else Some EOF) |}.

Lemma eofReader_holds s : Holds (eofReader s) s.
Proof.
  split; [done|]. intros n off Hoff Hn Hle. simpl. eexists. split; [done|].
  destruct (Z.ltb_spec (off + n) (zlen s)); [by left|right; split; [done|lia]].
Qed.

(** Its bytes, which [parts[0].ReadAt] has returned, are not counted, and the
    parts behind it are not read. *)
Example multiReadAt_loses_bytes_at_EOF :
  NewMultiReaderAt [eofReader [x41; x42]; bytesReader [x43; x44]] 4 0 = Some ([], Some EOF).
Proof. reflexivity. Qed.

(** An empty part whose [ReadAt] answers [io.EOF] to an empty read, as
    [*bytes.Reader] and [*io.SectionReader] do, hides the parts behind it. *)
Example multiReadAt_stops_at_empty_part :
  NewMultiReaderAt [bytesReader [x41; x42]; bytesReader []; bytesReader [x43; x44]] 4 0
  = Some ([x41; x42], Some EOF).
Proof. reflexivity. Qed.

(** [bufReaderAt.ReadAt] never panics at a nonnegative offset and
    answers from the bytes of the underlying reader: it delivers the bytes at
    the offset, fails exactly when it delivers fewer than asked, and neither
    loses nor repeats a byte of the reader, so every later call sees the same
    contents. *)
Theorem bufReadAt_reads_contents br plen off :
  0 ≤ off → 0 ≤ plen →
  ∃ x err br', bufReadAt br plen off = Some (x, err, br') ∧
    x = take (Z.to_nat plen) (drop (Z.to_nat off) (allBytes br)) ∧
    (err = None ↔ zlen x = plen) ∧ allBytes br' = allBytes br.
Proof.
  intros Hoff Hp. destruct (wp_elim _ _ (bufReadAt_spec br plen off Hoff Hp)) as ([[x err] br']&H&Ha&_&Hx&He&_).
  by exists x, err, br'.
Qed.

Lemma bufReadAt_reads_contents_witness :
  ∃ x err br', bufReadAt (NewBufferingReaderAt (Stream [[x41; x42]; []; [x43]] EOF)) 2 1 = Some (x, err, br') ∧
    x = [x42; x43] ∧ (err = None ↔ zlen x = 2) ∧ allBytes br' = [x41; x42; x43].
Proof. by apply (bufReadAt_reads_contents (NewBufferingReaderAt (Stream [[x41; x42]; []; [x43]] EOF)) 2 1). Defined.

(** Whatever the sequence of [Seek] and [Read] calls on a fake seeker,
    the bytes it has delivered are, in order, the bytes of the underlying
    reader, and [realPos] counts them: a read at another position never
    delivers a byte. *)
Theorem fakeSeeker_delivers_in_order r size ops :
  let '(out, fs) := fakeRun (NewFakeSeeker r size) ops in
  fs_realPos fs = zlen out ∧ pendingBytes r = out ++ pendingBytes (fs_r fs).
Proof.
  pose proof (fakeRun_spec (NewFakeSeeker r size) ops) as [H1 H2].
  by destruct (fakeRun _ ops) as [out fs].
Qed.

(** [Size] of a fake seeker is the distance from its position to its size,
    and it does not move the seeker. *)
Lemma readerSize_fakeSeeker fs :
  0 ≤ fs_fakePos fs → 0 ≤ fs_size fs →
  readerSize (Seeker fs fakeSeek) = Some (Some (fs_size fs - fs_fakePos fs), Some fs).
Proof.
  intros H1 H2. destruct fs as [r size fp rp]. simpl in *. unfold fakeSeek. simpl.
  rewrite !Z.add_0_r. destruct (Z.ltb_spec fp 0); [lia|]. simpl. rewrite Z.add_0_r.
  destruct (Z.ltb_spec size 0); [lia|]. simpl. destruct (Z.ltb_spec fp 0); [lia|]. by rewrite Z.eqb_refl.
Qed.
