(* ===== verification/Utf8.v ===== *)
(** * UTF-8

    [utf8.DecodeRune] and [utf8.ValidRune] of the standard library, which
    ziputil and strutil call, with the encoding they decode. *)
From S2P Require Import Prelude.

Definition RuneError : Z := 65533.   (* U+FFFD *)

Definition validRune (r : Z) : bool :=
  ((0 <=? r) && (r <? 55296)) || ((57343 <? r) && (r <=? 1114111)).

(** A continuation byte in a range. *)
Definition contIn (lo hi : Z) (b : byte) : bool := (lo <=? b2z b) && (b2z b <=? hi).
Definition low6 (b : byte) : Z := b2z b - 128.

(** The rune at the start of [s] and its width; [(RuneError, 1)] where there
    is none, and [(RuneError, 0)] at the end. *)
Definition decodeRune (s : list byte) : Z * Z :=
  match s with
  | [] => (RuneError, 0)
  | b0 :: s1 =>
    let x := b2z b0 in
    if x <? 128 then (x, 1)
    else if (194 <=? x) && (x <=? 223) then
      match s1 with
      | b1 :: _ => if contIn 128 191 b1 then (64 * (x - 192) + low6 b1, 2) else (RuneError, 1)
      | _ => (RuneError, 1)
      end
    else if (224 <=? x) && (x <=? 239) then
      match s1 with
      | b1 :: b2 :: _ =>
          if contIn (if x =? 224 then 160 else 128) (if x =? 237 then 159 else 191) b1 && contIn 128 191 b2
          then (4096 * (x - 224) + 64 * low6 b1 + low6 b2, 3) else (RuneError, 1)
      | _ => (RuneError, 1)
      end
    else if (240 <=? x) && (x <=? 244) then
      match s1 with
      | b1 :: b2 :: b3 :: _ =>
          if contIn (if x =? 240 then 144 else 128) (if x =? 244 then 143 else 191) b1
             && contIn 128 191 b2 && contIn 128 191 b3
          then (262144 * (x - 240) + 4096 * low6 b1 + 64 * low6 b2 + low6 b3, 4) else (RuneError, 1)
      | _ => (RuneError, 1)
      end
    else (RuneError, 1)
  end.

Definition encodeRune (r : Z) : list byte :=
  if r <? 128 then [z2b r]
  else if r <? 2048 then [z2b (192 + r / 64); z2b (128 + r mod 64)]
  else if r <? 65536 then [z2b (224 + r / 4096); z2b (128 + r / 64 mod 64); z2b (128 + r mod 64)]
  else [z2b (240 + r / 262144); z2b (128 + r / 4096 mod 64); z2b (128 + r / 64 mod 64); z2b (128 + r mod 64)].

Definition encodeRunes (rs : list Z) : list byte := concat (encodeRune <$> rs).

Lemma validRune_iff r : validRune r = true ↔ 0 ≤ r < 55296 ∨ 57343 < r ≤ 1114111.
Proof. unfold validRune. zcases; simpl; split; (done || lia). Qed.

Lemma z2b_small x : 0 ≤ x < 256 → b2z (z2b x) = x.
Proof. intros. rewrite b2z_z2b. by apply Z.mod_small. Qed.

(** Case analysis on the integer tests, dropping impossible cases at once. *)
Ltac zprune :=
  repeat (match goal with
  | |- context [?a =? ?b] => destruct (Z.eqb_spec a b)
  | |- context [?a <? ?b] => destruct (Z.ltb_spec a b)
  | |- context [?a <=? ?b] => destruct (Z.leb_spec a b)
  end; try (exfalso; lia); cbn [andb]).

Lemma split64 r : ∃ q m, r / 64 = q ∧ r mod 64 = m ∧ r = 64 * q + m ∧ 0 ≤ m < 64.
Proof. exists (r / 64), (r mod 64). split_and!; try done; zlia. Qed.

Lemma decode_encode r rest :
  validRune r = true → decodeRune (encodeRune r ++ rest) = (r, zlen (encodeRune r)).
Proof.
  intros Hv%validRune_iff. unfold encodeRune.
  destruct (split64 r) as (q&m&Hq&Hm&Hr&Hmr). destruct (split64 q) as (q2&m2&Hq2&Hm2&Hr2&Hmr2).
  destruct (split64 q2) as (q3&m3&Hq3&Hm3&Hr3&Hmr3).
  assert (r / 4096 = q2) as Hq2' by (change 4096 with (64 * 64); rewrite <-Z.div_div by lia; congruence).
  assert (r / 262144 = q3) as Hq3' by (change 262144 with (4096 * 64); rewrite <-Z.div_div by lia; congruence).
  rewrite Hq2', Hq3', Hm, Hq, Hm2, Hm3. unfold decodeRune, contIn, low6.
  destruct (Z.ltb_spec r 128); [|destruct (Z.ltb_spec r 2048); [|destruct (Z.ltb_spec r 65536)]]; cbn [app length];
    rewrite !z2b_small by lia; zprune; f_equal; lia.
Qed.

(** A result other than [(RuneError, 1)] is the decoding of an encoded rune. *)
Lemma decode_valid s r n :
  s ≠ [] → decodeRune s = (r, n) →
  r = RuneError ∧ n = 1 ∨ validRune r = true ∧ n = zlen (encodeRune r) ∧ s = encodeRune r ++ drop (Z.to_nat n) s.
Proof.
  intros Hs. destruct s as [|b0 s1]; [done|]. unfold decodeRune, contIn, low6. pose proof (b2z_range b0).
  assert (∀ b x, x = b2z b → z2b x = b) as Hz by (intros b x ->; apply z2b_b2z).
  destruct (Z.ltb_spec (b2z b0) 128).
  { intros [= <- <-]. right. rewrite validRune_iff. unfold encodeRune.
    destruct (Z.ltb_spec (b2z b0) 128); [|lia]. rewrite z2b_b2z. split_and!; [lia|done|done]. }
  destruct ((194 <=? b2z b0) && (b2z b0 <=? 223)) eqn:E2.
  { apply andb_prop in E2 as [?%Z.leb_le ?%Z.leb_le]. destruct s1 as [|b1 s2]; [by intros [= <- <-]; left|]. pose proof (b2z_range b1).
    destruct (_ && _) eqn:E; [|by intros [= <- <-]; left].
    intros [= <- <-]. right. rewrite validRune_iff. apply andb_prop in E as [?%Z.leb_le ?%Z.leb_le].
    unfold encodeRune. zprune. rewrite (Hz b0), (Hz b1) by zlia. split_and!; [lia|done|done]. }
  destruct ((224 <=? b2z b0) && (b2z b0 <=? 239)) eqn:E3.
  { apply andb_prop in E3 as [?%Z.leb_le ?%Z.leb_le]. destruct s1 as [|b1 [|b2 s2]]; [by intros [= <- <-]; left..|]. pose proof (b2z_range b1). pose proof (b2z_range b2).
    destruct (_ && _ && _) eqn:E; [|by intros [= <- <-]; left].
    intros [= <- <-]. right. rewrite validRune_iff. unfold encodeRune.
    rewrite !andb_true_iff, !Z.leb_le in E. destruct E as [[E1l E1h] E2'].
    assert (4096 * (b2z b0 - 224) + 64 * (b2z b1 - 128) + (b2z b2 - 128) < 55296 ∨
            57343 < 4096 * (b2z b0 - 224) + 64 * (b2z b1 - 128) + (b2z b2 - 128)).
    { revert E1l E1h. zprune; lia. }
    assert (2048 ≤ 4096 * (b2z b0 - 224) + 64 * (b2z b1 - 128) + (b2z b2 - 128)).
    { revert E1l E1h. zprune; lia. }
    assert (128 ≤ b2z b1 ≤ 191) by (revert E1l E1h; zprune; lia).
    zprune. rewrite (Hz b0), (Hz b1), (Hz b2) by zlia. split_and!; [lia|done|done]. }
  destruct ((240 <=? b2z b0) && (b2z b0 <=? 244)) eqn:E4; [|by intros [= <- <-]; left].
  apply andb_prop in E4 as [?%Z.leb_le ?%Z.leb_le].
  destruct s1 as [|b1 [|b2 [|b3 s2]]]; [by intros [= <- <-]; left..|].
  pose proof (b2z_range b1). pose proof (b2z_range b2). pose proof (b2z_range b3).
  destruct (_ && _ && _ && _) eqn:E; [|by intros [= <- <-]; left].
  intros [= <- <-]. right. rewrite validRune_iff. unfold encodeRune.
  rewrite !andb_true_iff, !Z.leb_le in E. destruct E as [[[E1l E1h] E2'] E3'].
  assert (65536 ≤ 262144 * (b2z b0 - 240) + 4096 * (b2z b1 - 128) + 64 * (b2z b2 - 128) + (b2z b3 - 128) ≤ 1114111).
  { revert E1l E1h. zprune; lia. }
  assert (128 ≤ b2z b1 ≤ 191) by (revert E1l E1h; zprune; lia).
  zprune. rewrite (Hz b0), (Hz b1), (Hz b2), (Hz b3) by zlia. split_and!; [lia|done|done].
Qed.

Lemma encodeRune_pos r : (0 < length (encodeRune r))%nat.
Proof. unfold encodeRune. zcases; simpl; lia. Qed.

Lemma decode_width s r n : s ≠ [] → decodeRune s = (r, n) → 1 ≤ n.
Proof.
  intros Hs H. destruct (decode_valid s r n Hs H) as [[_ ->]|(_&->&_)]; [lia|].
  pose proof (encodeRune_pos r). lia.
Qed.
