(* ===== verification/Zip.v ===== *)
(** * ziputil: zip tables of contents

    ziputil.go: finding the end of the central directory, reading directory
    headers, [ZipTOCSize], [ParseTOC], and the checked reader of a file's
    body. *)
From S2P Require Import Prelude.
From S2P Require Import GoIO.
From S2P Require Import ReaderUtil.
From S2P Require Import Utf8.

Definition ErrFormat : error := Errorf "zip: not a valid zip file".
Definition ErrChecksum : error := Errorf "zip: checksum error".

Definition fileHeaderSignature := 67324752.        (* 0x04034b50 *)
Definition directoryHeaderSignature := 33639248.   (* 0x02014b50 *)
Definition directory64LocSignature := 117853008.   (* 0x07064b50 *)
Definition directory64EndSignature := 101075792.   (* 0x06064b50 *)
Definition dataDescriptorSignature := 134695760.   (* 0x08074b50 *)
Definition fileHeaderLen := 30.
Definition directoryHeaderLen := 46.
Definition directoryEndLen := 22.
Definition dataDescriptorLen := 16.
Definition directory64LocLen := 20.
Definition directory64EndLen := 56.
Definition uint32max := 2 ^ 32 - 1.

(** ** [readBuf]: little-endian integers off the front of a slice; [None] is
    the panic of a slice that is too short. *)

Definition readBuf := list byte.

Definition rbUint (k : nat) (b : readBuf) : option (Z * readBuf) :=
  if decide (k ≤ length b)%nat then Some (leUint (take k b), drop k b) else None.
Definition rbUint8 := rbUint 1.
Definition rbUint16 := rbUint 2.
Definition rbUint32 := rbUint 4.
Definition rbUint64 := rbUint 8.

Definition rbSub (n : Z) (b : readBuf) : option (readBuf * readBuf) :=
  if (0 <=? n) && (n <=? zlen b) then Some (take (Z.to_nat n) b, drop (Z.to_nat n) b) else None.

(** [b = b[n:]] *)
Definition rbSkip (n : nat) (b : readBuf) : option readBuf :=
  if decide (n ≤ length b)%nat then Some (drop n b) else None.

Notation "' x ←? m ; k" := (orPanic m (λ y, match y with x => k end))
  (at level 20, x pattern, m at level 100, k at level 200, right associativity).

(** ** Readers *)

(** An [io.ReaderAt] that may panic. *)
Definition readerAtP := Z → Z → option (list byte * option error).

Record sectionReader := SectionReader { sr_ra : readerAtP; sr_off : Z; sr_limit : Z }.

Definition maxInt64 := 2 ^ 63 - 1.

(** [io.NewSectionReader(r, off, n)]; the test is taken for an overflow when
    [n] is negative. *)
Definition newSection (ra : readerAtP) (off n : Z) : sectionReader :=
  SectionReader ra off (if off <=? i64 (maxInt64 - n) then off + n else maxInt64).

Definition sectionRead (s : sectionReader) (n : Z) : option (list byte * option error * sectionReader) :=
  if sr_limit s <=? sr_off s then Some ([], Some EOF, s)
  else
    let n := if sr_limit s - sr_off s <? n then sr_limit s - sr_off s else n in
    '(x, err) ← sr_ra s n (sr_off s);
    Some (x, err, SectionReader (sr_ra s) (sr_off s + zlen x) (sr_limit s)).

(** [io.ReadFull(s, buf)]; a [Read] that delivers nothing without an error
    would be repeated for ever. *)
Fixpoint sectionFill (fuel : nat) (s : sectionReader) (n : Z) (got : list byte) :
    fallible (list byte * sectionReader) :=
  match fuel with
  | O => None
  | S fuel =>
      if n <=? zlen got then ret (got, s)
      else
        '(x, err, s) ←? sectionRead s (n - zlen got);
        match err with
        | None => sectionFill fuel s n (got ++ x)
        | Some e =>
            let got := got ++ x in
            if n <=? zlen got then ret (got, s)
            else if (0 <? zlen got) && bool_decide (e = EOF) then fail ErrUnexpectedEOF
            else fail e
        end
  end.

Definition sectionReadFull (s : sectionReader) (n : Z) : fallible (list byte * sectionReader) :=
  sectionFill (Z.to_nat n + 2) s n [].

(** ** Time *)

Inductive location := UTC | Local | FixedZone (offset : Z).
Record goTime := GoTime { unixSec : Z; nsec : Z; loc : location }.

Definition zeroTime : goTime := GoTime (-62135596800) 0 UTC.
Definition isZero (t : goTime) : bool := (unixSec t =? -62135596800) && (nsec t =? 0).

(** Days from 1970-01-01 to a day of the proleptic Gregorian calendar, months
    being normalized. *)
Definition daysFromCivil (year month day : Z) : Z :=
  let y := year + (month - 1) / 12 in
  let m := (month - 1) mod 12 + 1 in
  let y := if m <=? 2 then y - 1 else y in
  let m := if m <=? 2 then m + 9 else m - 3 in
  365 * y + y / 4 - y / 100 + y / 400 + (153 * m + 2) / 5 + day - 1 - 719468.

(** [time.Date(year, month, day, hour, min, sec, 0, time.UTC)] *)
Definition date (year month day hour min sec : Z) : goTime :=
  GoTime (86400 * daysFromCivil year month day + 3600 * hour + 60 * min + sec) 0 UTC.

(** [time.Unix(sec, nsec)] *)
Definition unixTime (sec ns : Z) : goTime :=
  GoTime (sec + ns / 10 ^ 9) (ns mod 10 ^ 9) Local.

Definition minDuration := - 2 ^ 63.
Definition maxDuration := 2 ^ 63 - 1.
Definition clampDuration (d : Z) : Z := Z.max minDuration (Z.min maxDuration d).

(** [t.Sub(u)] *)
Definition timeSub (t u : goTime) : Z :=
  clampDuration (10 ^ 9 * (unixSec t - unixSec u) + (nsec t - nsec u)).

(** [d.Round(m)], halves away from zero. *)
Definition durationRound (d m : Z) : Z :=
  let r := Z.abs d mod m in
  let a := if r + r <? m then Z.abs d - r else Z.abs d - r + m in
  clampDuration (Z.sgn d * a).

Definition hour := 3600 * 10 ^ 9.
Definition minute := 60 * 10 ^ 9.

Definition timeZone (offset : Z) : location :=
  let offset := durationRound offset (15 * minute) in
  let offset := if (offset <? -12 * hour) || (14 * hour <? offset) then 0 else offset in
  FixedZone (Z.quot offset (10 ^ 9)).

Definition msDosTimeToTime (dosDate dosTime : Z) : goTime :=
  date (u16 (Z.shiftr dosDate 9 + 1980)) (Z.land (Z.shiftr dosDate 5) 15) (Z.land dosDate 31)
    (Z.shiftr dosTime 11) (Z.land (Z.shiftr dosTime 5) 63) (u16 (Z.land dosTime 31 * 2)).

(** ** File headers *)

(** The loop of [detectUTF8]; a rune takes at least one byte. *)
Fixpoint detectLoop (fuel : nat) (s : list byte) (require : bool) : option (bool * bool) :=
  match fuel with
  | O => None
  | S fuel =>
      match s with
      | [] => Some (true, require)
      | _ =>
          let '(r, size) := decodeRune s in
          let s := drop (Z.to_nat size) s in
          if (r <? 32) || (125 <? r) || (r =? 92) then
            if negb (validRune r) || ((r =? RuneError) && (size =? 1)) then Some (false, false)
            else detectLoop fuel s true
          else detectLoop fuel s require
      end
  end.

Definition detectUTF8 (s : list byte) : option (bool * bool) := detectLoop (S (length s)) s false.

Record FileHeader := MkFileHeader {
  Name : list byte; Comment : list byte; NonUTF8 : bool;
  CreatorVersion : Z; ReaderVersion : Z; Flags : Z; Method : Z;
  Modified : goTime; ModifiedTime : Z; ModifiedDate : Z;
  CRC32 : Z; CompressedSize : Z; UncompressedSize : Z;
  CompressedSize64 : Z; UncompressedSize64 : Z;
  Extra : list byte; ExternalAttrs : Z; HeaderOffset : Z }.

(** What the extra fields update. *)
Record extras := MkExtras {
  needUSize : bool; needCSize : bool; needHeaderOffset : bool;
  x_usize : Z; x_csize : Z; x_offset : Z; x_modified : goTime }.

(** The three parts of the zip64 field. *)
Definition zip64Extra (x : extras) (b : readBuf) : fallible extras :=
  let '(MkExtras nu nc nh us cs ho m) := x in
  '(us, b) ←! (if nu : bool then
                 if zlen b <? 8 then fail ErrFormat
                 else '(v, b) ←? rbUint64 b; ret (v, b)
               else ret (us, b));
  '(cs, b) ←! (if nc : bool then
                 if zlen b <? 8 then fail ErrFormat
                 else '(v, b) ←? rbUint64 b; ret (v, b)
               else ret (cs, b));
  ho ←! (if nh : bool then
           if zlen b <? 8 then fail ErrFormat
           else '(v, _) ←? rbUint64 b; ret (i64 v)
         else ret ho);
  ret (MkExtras false false false us cs ho m).

Definition setModified (x : extras) (t : goTime) : extras :=
  let '(MkExtras nu nc nh us cs ho _) := x in MkExtras nu nc nh us cs ho t.

Definition ntfsTime (ticks : Z) : goTime :=
  let ts := i64 ticks in
  let secs := Z.quot ts (10 ^ 7) in
  let nsecs := 100 * Z.rem ts (10 ^ 7) in
  unixTime (unixSec (date 1601 1 1 0 0 0) + secs) nsecs.

(** The attributes of the NTFS field. *)
Fixpoint ntfsAttrs (fuel : nat) (x : extras) (b : readBuf) : fallible extras :=
  match fuel with
  | O => None
  | S fuel =>
      if zlen b <? 4 then ret x
      else
        '(attrTag, b) ←? rbUint16 b;
        '(attrSize, b) ←? rbUint16 b;
        if zlen b <? attrSize then ret x
        else
          '(attrBuf, b) ←? rbSub attrSize b;
          if negb (attrTag =? 1) || negb (attrSize =? 24) then ntfsAttrs fuel x b
          else
            '(ticks, _) ←? rbUint64 attrBuf;
            ntfsAttrs fuel (setModified x (ntfsTime ticks)) b
  end.

(** One extra field. *)
Definition extraField (x : extras) (tag : Z) (b : readBuf) : fallible extras :=
  if tag =? 1 then zip64Extra x b
  else if tag =? 10 then
    if zlen b <? 4 then ret x
    else '(_, b) ←? rbUint32 b; ntfsAttrs (S (length b)) x b
  else if (tag =? 13) || (tag =? 22613) then
    if zlen b <? 8 then ret x
    else
      '(_, b) ←? rbUint32 b;
      '(ts, _) ←? rbUint32 b;
      ret (setModified x (unixTime ts 0))
  else if tag =? 21589 then
    if zlen b <? 5 then ret x
    else
      '(flags, b) ←? rbUint8 b;
      if Z.land flags 1 =? 0 then ret x
      else
        '(ts, _) ←? rbUint32 b;
        ret (setModified x (unixTime ts 0))
  else ret x.

Fixpoint parseExtras (fuel : nat) (x : extras) (extra : readBuf) : fallible extras :=
  match fuel with
  | O => None
  | S fuel =>
      if zlen extra <? 4 then ret x
      else
        '(fieldTag, extra) ←? rbUint16 extra;
        '(fieldSize, extra) ←? rbUint16 extra;
        if zlen extra <? fieldSize then ret x
        else
          '(fieldBuf, extra) ←? rbSub fieldSize extra;
          x ←! extraField x fieldTag fieldBuf;
          parseExtras fuel x extra
  end.

Definition nonUTF8 (name comment : list byte) (flags : Z) : option bool :=
  '(valid1, require1) ← detectUTF8 name;
  '(valid2, require2) ← detectUTF8 comment;
  Some (if negb valid1 || negb valid2 then true
        else if negb require1 && negb require2 then false
        else Z.land flags 2048 =? 0).

Definition modifiedTime (date time : Z) (modified : goTime) : goTime :=
  let msdosModified := msDosTimeToTime date time in
  if isZero modified then msdosModified
  else if negb (time =? 0) || negb (date =? 0) then
    GoTime (unixSec modified) (nsec modified) (timeZone (timeSub msdosModified modified))
  else GoTime (unixSec modified) (nsec modified) UTC.

Definition readDirectoryHeader (r : sectionReader) : fallible (FileHeader * sectionReader) :=
  '(b, r) ←! sectionReadFull r directoryHeaderLen;
  '(sig, b) ←? rbUint32 b;
  if negb (sig =? directoryHeaderSignature) then fail ErrFormat
  else
    '(creator, b) ←? rbUint16 b;
    '(reader, b) ←? rbUint16 b;
    '(flags, b) ←? rbUint16 b;
    '(method, b) ←? rbUint16 b;
    '(mtime, b) ←? rbUint16 b;
    '(mdate, b) ←? rbUint16 b;
    '(crc, b) ←? rbUint32 b;
    '(csize, b) ←? rbUint32 b;
    '(usize, b) ←? rbUint32 b;
    '(filenameLen, b) ←? rbUint16 b;
    '(extraLen, b) ←? rbUint16 b;
    '(commentLen, b) ←? rbUint16 b;
    b ←? rbSkip 4 b;
    '(attrs, b) ←? rbUint32 b;
    '(offset, b) ←? rbUint32 b;
    '(d, r) ←! sectionReadFull r (filenameLen + extraLen + commentLen);
    name ←? zslice d 0 filenameLen;
    extra ←? zslice d filenameLen (filenameLen + extraLen);
    comment ←? zslice d (filenameLen + extraLen) (zlen d);
    non ←? nonUTF8 name comment flags;
    x ←! parseExtras (S (length extra))
           (MkExtras (usize =? uint32max) (csize =? uint32max) (offset =? uint32max) usize csize offset zeroTime)
           extra;
    if needCSize x || needHeaderOffset x then fail ErrFormat
    else
      ret (MkFileHeader name comment non creator reader flags method
             (modifiedTime mdate mtime (x_modified x)) mtime mdate crc csize usize
             (x_csize x) (x_usize x) extra attrs (x_offset x), r).

(** ** The end of the central directory *)

Record directoryEnd := MkDirectoryEnd {
  diskNbr : Z; dirDiskNbr : Z; dirRecordsThisDisk : Z; directoryRecords : Z;
  directorySize : Z; directoryOffset : Z; commentLen : Z; de_comment : list byte }.

(** The loop of [findSignatureInBlock] at index [i], downwards; [i + 1] is the
    fuel, so that it ends below 0. *)
Fixpoint findSignature (fuel : nat) (b : list byte) (i : Z) : option Z :=
  match fuel with
  | O => Some (-1)
  | S fuel =>
      b0 ← zidx b i;
      b1 ← zidx b (i + 1);
      b2 ← zidx b (i + 2);
      b3 ← zidx b (i + 3);
      if (b2z b0 =? 80) && (b2z b1 =? 75) && (b2z b2 =? 5) && (b2z b3 =? 6) then
        n0 ← zidx b (i + directoryEndLen - 2);
        n1 ← zidx b (i + directoryEndLen - 1);
        let n := Z.lor (b2z n0) (Z.shiftl (b2z n1) 8) in
        Some (if zlen b <? n + directoryEndLen + i then -1 else i)
      else findSignature fuel b (i - 1)
  end.

Definition findSignatureInBlock (b : list byte) : option Z :=
  let i := zlen b - directoryEndLen in
  findSignature (Z.to_nat (i + 1)) b i.

Definition findDirectory64End (r : readerAtP) (directoryEndOffset : Z) : fallible Z :=
  let locOffset := directoryEndOffset - directory64LocLen in
  if locOffset <? 0 then ret (-1)
  else
    '(buf, err) ←? r directory64LocLen locOffset;
    match err with
    | Some e => fail e
    | None =>
        '(sig, b) ←? rbUint32 buf;
        if negb (sig =? directory64LocSignature) then ret (-1)
        else
          '(disk, b) ←? rbUint32 b;
          if negb (disk =? 0) then ret (-1)
          else
            '(p, b) ←? rbUint64 b;
            '(disks, b) ←? rbUint32 b;
            if negb (disks =? 1) then ret (-1) else ret (i64 p)
    end.

Definition readDirectory64End (r : readerAtP) (offset : Z) (d : directoryEnd) : fallible directoryEnd :=
  '(buf, err) ←? r directory64EndLen offset;
  match err with
  | Some e => fail e
  | None =>
      '(sig, b) ←? rbUint32 buf;
      if negb (sig =? directory64EndSignature) then fail ErrFormat
      else
        b ←? rbSkip 12 b;
        '(disk, b) ←? rbUint32 b;
        '(dirDisk, b) ←? rbUint32 b;
        '(recsThis, b) ←? rbUint64 b;
        '(recs, b) ←? rbUint64 b;
        '(dsize, b) ←? rbUint64 b;
        '(doff, b) ←? rbUint64 b;
        ret (MkDirectoryEnd disk dirDisk recsThis recs dsize doff (commentLen d) (de_comment d))
  end.

(** One round of the search for the signature in the last [bLen] bytes: the
    bytes from the signature on and their offset. A buffer that is read only
    in part keeps its zeros; [make] panics on a negative length. *)
Definition searchTail (r : readerAtP) (size bLen : Z) : fallible (option (list byte * Z)) :=
  if bLen <? 0 then None else
  '(x, err) ←? r bLen (size - bLen);
  match err with
  | Some e =>
      if bool_decide (e = EOF) then
        let buf := x ++ replicate (Z.to_nat (bLen - zlen x)) x00 in
        p ←? findSignatureInBlock buf;
        if 0 <=? p then ret (Some (drop (Z.to_nat p) buf, size - bLen + p)) else ret None
      else fail e
  | None =>
      p ←? findSignatureInBlock x;
      if 0 <=? p then ret (Some (drop (Z.to_nat p) x, size - bLen + p)) else ret None
  end.

Definition searchEnd (r : readerAtP) (size : Z) : fallible (list byte * Z) :=
  let bLen := Z.min 1024 size in
  found ←! searchTail r size bLen;
  match found with
  | Some x => ret x
  | None =>
      if bLen =? size then fail ErrFormat
      else
        found ←! searchTail r size (Z.min (65 * 1024) size);
        match found with Some x => ret x | None => fail ErrFormat end
  end.

(** The fixed fields and the comment. *)
Definition parseEnd (buf : list byte) : fallible directoryEnd :=
  b ←? rbSkip 4 buf;
  '(disk, b) ←? rbUint16 b;
  '(dirDisk, b) ←? rbUint16 b;
  '(recsThis, b) ←? rbUint16 b;
  '(recs, b) ←? rbUint16 b;
  '(dsize, b) ←? rbUint32 b;
  '(doff, b) ←? rbUint32 b;
  '(clen, b) ←? rbUint16 b;
  if zlen b <? clen then fail (Errorf "zip: invalid comment length")
  else ret (MkDirectoryEnd disk dirDisk recsThis recs dsize doff clen (take (Z.to_nat clen) b)).

Definition readDirectoryEnd (r : readerAtP) (size : Z) : fallible (directoryEnd * Z) :=
  '(buf, directoryEndOffset) ←! searchEnd r size;
  d ←! parseEnd buf;
  '(d, directoryEndOffset) ←!
    (if (directoryRecords d =? 65535) || (directorySize d =? 65535) || (directoryOffset d =? uint32max) then
       p ←! findDirectory64End r directoryEndOffset;
       if 0 <=? p then d ←! readDirectory64End r p d; ret (d, p) else ret (d, directoryEndOffset)
     else ret (d, directoryEndOffset));
  if (maxInt64 <? directorySize d) || (maxInt64 <? directoryOffset d) then fail ErrFormat
  else
    let baseOffset := i64 (i64 (directoryEndOffset - directorySize d) - directoryOffset d) in
    let o := i64 (baseOffset + directoryOffset d) in
    if (o <? 0) || (size <=? o) then fail ErrFormat
    else if 0 <? baseOffset then
      let off := directoryOffset d in
      match readDirectoryHeader (newSection r off (i64 (size - off))) with
      | None => None
      | Some (Ok _) => ret (d, 0)
      | Some (Err _) => ret (d, baseOffset)
      end
    else ret (d, baseOffset).

(** [readerutil.NewMultiReaderAt(ZeroSizeReaderAt(numFakeZeros), bytes.NewReader(toc))] *)
Definition tocReader (numFakeZeros : Z) (toc : list byte) : readerAtP :=
  NewMultiReaderAt [ZeroSizeReaderAt numFakeZeros; bytesReader toc].

(** [(tocSize, ok)] *)
Definition ZipTOCSize (size : Z) (zipFooter : list byte) : option (Z * bool) :=
  let numFakeZeros := i64 (size - zlen zipFooter) in
  if numFakeZeros <? 0 then Some (0, false)
  else
    r ← readDirectoryEnd (tocReader numFakeZeros zipFooter) size;
    match r with
    | Err _ => Some (0, false)
    | Ok (end_, baseOffset) =>
        let tocStartOff := i64 (baseOffset + directoryOffset end_) in
        let tocSize := i64 (size - tocStartOff) in
        if (tocSize <? 0) || (size <? tocSize) then Some (0, false) else Some (tocSize, true)
    end.

Record ZipReader := MkZipReader { zr_File : list FileHeader; zr_BaseOffset : Z; zr_Comment : list byte }.

Definition rebase (base : Z) (f : FileHeader) : FileHeader :=
  let '(MkFileHeader n c nu cv rv fl me mo mt md crc cs us cs64 us64 ex at_ ho) := f in
  MkFileHeader n c nu cv rv fl me mo mt md crc cs us cs64 us64 ex at_ (i64 (ho + base)).

(** The loop of [ParseTOC]; the buffering of [bufio] does not show. Every
    header begins with a byte of [toc], which bounds their number. *)
Fixpoint readHeaders (fuel : nat) (base : Z) (r : sectionReader) : fallible (list FileHeader) :=
  match fuel with
  | O => None
  | S fuel =>
      match readDirectoryHeader r with
      | None => None
      | Some (Err e) => if decide (e = ErrFormat ∨ e = ErrUnexpectedEOF) then ret [] else fail e
      | Some (Ok (f, r)) => l ←! readHeaders fuel base r; ret (rebase base f :: l)
      end
  end.

Definition ParseTOC (size : Z) (toc : list byte) : fallible ZipReader :=
  let numFakeZeros := i64 (size - zlen toc) in
  if numFakeZeros <? 0 then fail (Errorf "invalid arguments to ParseTOC")
  else
    let ra := tocReader numFakeZeros toc in
    '(end_, baseOffset) ←! readDirectoryEnd ra size;
    let start := i64 (baseOffset + directoryOffset end_) in
    if start <? 0 then fail (Errorf "Seek: invalid offset")
    else
      files ←! readHeaders (length toc + 2) baseOffset (SectionReader ra start (sr_limit (newSection ra 0 size)));
      if negb (u16 (zlen files) =? u16 (directoryRecords end_))
      then fail (Errorf "zip: wrong number of directory entries: got %d, want %d (mod uint16)")
      else ret (MkZipReader files baseOffset (de_comment end_)).
