(* ===== verification/ZipLaws.v ===== *)
(** * ziputil: lemmas on reading tables of contents *)
From S2P Require Import Prelude.
From S2P Require Import GoIO.
From S2P Require Import ReaderUtil.
From S2P Require Import Utf8.
From S2P Require Import Zip.

(** ** The reader behind a table of contents *)

(** [ra] reads the bytes [c], and fails behind them. *)
Record ReaderOf (c : list byte) (ra : readerAtP) : Prop := {
  ro_in n off : 0 ≤ off → 0 ≤ n → off + n ≤ zlen c →
    ra n off = Some (take (Z.to_nat n) (drop (Z.to_nat off) c), None);
  ro_beyond n off : zlen c ≤ off → 0 < n → ra n off = Some ([], Some ErrUnexpectedEOF);
  ro_total n off : 0 ≤ off → 0 ≤ n →
    ∃ x err, ra n off = Some (x, err) ∧ (err = None → zlen x = n);
}.

Definition tocContents (numFakeZeros : Z) (toc : list byte) : list byte :=
  replicate (Z.to_nat numFakeZeros) x00 ++ toc.

Lemma tocReader_readSpec nz toc n off :
  0 ≤ nz → nz + zlen toc < 2 ^ 63 → toc ≠ [] → 0 ≤ off → 0 ≤ n →
  tocReader nz toc n off = Some (readSpec (tocContents nz toc) n off).
Proof.
  intros Hnz Hmax Htoc Hoff Hn. unfold tocReader, tocContents.
  destruct (NewMultiReaderAt_spec [ZeroSizeReaderAt nz; bytesReader toc] [replicate (Z.to_nat nz) x00; toc] n off)
    as (x&err&->&_&_&Hplain).
  - apply Forall2_cons_2; [by apply ZeroSizeReaderAt_holds|]. apply Forall2_cons_2; [apply bytesReader_holds|done].
  - simpl. rewrite !length_app, length_replicate. simpl. lia.
  - done.
  - done.
  - done.
  - simpl in Hplain. rewrite app_nil_r in Hplain. f_equal. apply Hplain.
    apply Forall2_cons_2; [apply ZeroSizeReaderAt_plain|]. apply Forall2_cons_2; [by apply bytesReader_plain|done].
Qed.

(** With no bytes at all only the zeros can be read. *)
Lemma tocReader_nil nz n off :
  0 ≤ nz < 2 ^ 63 → 0 ≤ off → 0 ≤ n →
  tocReader nz [] n off =
    if nz <=? off then Some ([], if n =? 0 then None else Some ErrUnexpectedEOF)
    else if off + n <=? nz then Some (replicate (Z.to_nat n) x00, None)
    else Some (replicate (Z.to_nat (nz - off)) x00, Some EOF).
Proof.
  intros Hnz Hoff Hn. unfold tocReader, NewMultiReaderAt, multiReadAt. set (parts := offsets 0 _).
  assert (skipParts off parts = Some (if off <? nz then parts else [])) as ->.
  { destruct (skipParts_spec [ZeroSizeReaderAt nz; bytesReader []] [replicate (Z.to_nat nz) x00; []] off) as (j&Hj&Hle&Hlo&Hhi); [|done|..].
    - apply Forall2_cons_2; [exact (ZeroSizeReaderAt_holds nz (proj1 Hnz))|]. apply Forall2_cons_2; [apply bytesReader_holds|done].
    - simpl. rewrite !app_nil_r, length_replicate. lia.
    - done.
    - fold parts in Hj. rewrite Hj. destruct j as [|[|[|]]]; simpl in *; rewrite ?app_nil_r, ?length_replicate in *; [| | |lia].
      + destruct (Z.ltb_spec off nz); [done|lia].
      + lia.
      + destruct (Z.ltb_spec off nz); [lia|done]. }
  cbn [mbind option_bind]. subst parts. cbn [offsets].
  change (Size (ZeroSizeReaderAt nz)) with nz. change (Size (bytesReader [])) with 0. rewrite !Z.add_0_l, (wrapS_small 64 nz) by lia.
  destruct (Z.ltb_spec off nz) as [Hlt|Hge]; destruct (Z.leb_spec nz off); try lia.
  2:{ cbn [length Nat.add]. replace (Z.to_nat n + 1)%nat with (S (Z.to_nat n)) by lia.
      cbn. destruct n; [done|done|lia]. }
  rewrite Z.sub_0_r, (wrapS_small 64 off) by lia.
  cbn [length]. replace (2 + Z.to_nat n + 1)%nat with (S (S (S (Z.to_nat n)))) by lia.
  remember (S (S (Z.to_nat n))) as k eqn:Hk. cbn [loop multiBody]. destruct (Z.leb_spec n 0).
  { replace n with 0 by lia. cbn. destruct (Z.leb_spec (off + 0) nz); [done|lia]. }
  change (Size (ZeroSizeReaderAt nz)) with nz. rewrite (wrapS_small 64 (nz - off)) by lia.
  destruct (Z.ltb_spec (nz - off) n) as [Hs|Hs]; destruct (Z.leb_spec (off + n) nz); try lia.
  - destruct (Z.ltb_spec (nz - off) 0); [lia|]. cbn [ReadAt ZeroSizeReaderAt]. cbn [mbind option_bind continue].
    rewrite length_replicate, (wrapS_small 64 (_ + off)) by lia. destruct (Z.eqb_spec (Z.of_nat (Z.to_nat (nz - off)) + off) nz); [|lia].
    unfold continue. subst k. cbn [mbind option_bind loop multiBody app]. destruct (Z.leb_spec (n - Z.of_nat (Z.to_nat (nz - off))) 0); [lia|].
    change (Size (bytesReader [])) with 0. change (i64 (0 - 0)) with 0.
    destruct (Z.ltb_spec 0 (n - Z.of_nat (Z.to_nat (nz - off)))); [|lia]. done.
  - destruct (Z.ltb_spec n 0); [lia|]. cbn [ReadAt ZeroSizeReaderAt]. cbn [mbind option_bind continue].
    rewrite length_replicate. unfold continue. cbn [mbind option_bind app].
    assert (∀ parts, loop k multiBody (MultiState parts (n - Z.of_nat (Z.to_nat n)) 0 (replicate (Z.to_nat n) x00))
      = Some (replicate (Z.to_nat n) x00, None)) as Hl.
    { intros parts. subst k. cbn [loop multiBody]. destruct parts as [|[? ?] ?]; [done|].
      destruct (Z.leb_spec (n - Z.of_nat (Z.to_nat n)) 0); [done|lia]. }
    rewrite Hl. cbn [mbind option_bind]. rewrite length_replicate.
    by rewrite Z2Nat.id, Z.eqb_refl by lia.
Qed.

Lemma length_tocContents nz toc : 0 ≤ nz → zlen (tocContents nz toc) = nz + zlen toc.
Proof. intros. unfold tocContents. rewrite length_app, length_replicate. lia. Qed.

Lemma tocReader_reads nz toc : 0 ≤ nz → nz + zlen toc < 2 ^ 63 → ReaderOf (tocContents nz toc) (tocReader nz toc).
Proof.
  intros Hnz Hmax. pose proof (length_tocContents nz toc Hnz) as Hl. destruct (decide (toc = [])) as [->|Htoc].
  - change (zlen []) with 0 in Hl. rewrite Z.add_0_r in Hl. split; intros n off; rewrite ?Hl; intros.
    + rewrite tocReader_nil by lia. destruct (Z.leb_spec nz off), (Z.leb_spec (off + n) nz); try lia.
      * replace n with 0 by lia. done.
      * unfold tocContents. by rewrite app_nil_r, drop_replicate, take_replicate, Nat.min_l by lia.
    + rewrite tocReader_nil by lia. destruct (Z.leb_spec nz off), (Z.eqb_spec n 0); try lia. done.
    + rewrite tocReader_nil by lia. destruct (Z.leb_spec nz off); [|destruct (Z.leb_spec (off + n) nz)]; eexists _, _; (split; [done|]).
      * destruct (Z.eqb_spec n 0); [by subst|done].
      * rewrite length_replicate. lia.
      * done.
  - split; intros n off.
    + intros. rewrite tocReader_readSpec by done. unfold readSpec. rewrite length_take, length_drop.
      destruct (Z.eqb_spec (Z.of_nat (Z.to_nat n `min` (length (tocContents nz toc) - Z.to_nat off))) n); [done|lia].
    + intros. rewrite tocReader_readSpec by (done || lia). unfold readSpec. rewrite drop_ge by lia.
      rewrite take_nil. destruct (Z.eqb_spec (zlen (@nil byte)) n); [simpl in *; lia|done].
    + intros. rewrite tocReader_readSpec by done. unfold readSpec. eexists _, _. split; [done|].
      by destruct (Z.eqb_spec (zlen (take (Z.to_nat n) (drop (Z.to_nat off) (tocContents nz toc)))) n).
Qed.

(** ** Sections *)

(** Reading [n] bytes of a section inside the contents. *)
Lemma sectionReadFull_in c ra off limit n :
  ReaderOf c ra → 0 ≤ off → limit ≤ zlen c → 0 ≤ n → off + n ≤ limit →
  sectionReadFull (SectionReader ra off limit) n =
    ret (take (Z.to_nat n) (drop (Z.to_nat off) c), SectionReader ra (off + n) limit).
Proof.
  intros Hra Hoff Hlim Hn Hle. unfold sectionReadFull.
  replace (Z.to_nat n + 2)%nat with (S (S (Z.to_nat n))) by lia. remember (S (Z.to_nat n)) as k eqn:Hk.
  cbn [sectionFill]. change (zlen (@nil byte)) with 0. destruct (Z.leb_spec n 0).
  { replace n with 0 by lia. by rewrite Z.add_0_r. }
  unfold sectionRead. cbn [sr_limit sr_off sr_ra]. destruct (Z.leb_spec limit off); [lia|].
  rewrite Z.sub_0_r. destruct (Z.ltb_spec (limit - off) n); [lia|].
  rewrite (ro_in _ _ Hra) by lia. cbn [mbind option_bind orPanic].
  set (x := take _ _). assert (zlen x = n) as Hx by (unfold x; rewrite length_take, length_drop; lia).
  rewrite Hx, app_nil_l. subst k. cbn [sectionFill]. rewrite Hx. by rewrite Z.leb_refl.
Qed.

(** Too short a section. *)
Lemma sectionReadFull_short c ra off limit n :
  ReaderOf c ra → 0 ≤ off → limit ≤ zlen c → limit < off + n → 0 < n →
  ∃ e, sectionReadFull (SectionReader ra off limit) n = fail e ∧ (off < limit → e = ErrUnexpectedEOF).
Proof.
  intros Hra Hoff Hlim Hle Hn. unfold sectionReadFull.
  replace (Z.to_nat n + 2)%nat with (S (S (S (Z.to_nat (n - 1))))) by lia. set (k := S (Z.to_nat (n - 1))).
  remember (S k) as k2 eqn:Hk. cbn [sectionFill]. change (zlen (@nil byte)) with 0. destruct (Z.leb_spec n 0); [lia|].
  unfold sectionRead. cbn [sr_limit sr_off sr_ra]. destruct (Z.leb_spec limit off).
  { cbn [orPanic]. change (zlen ([] ++ @nil byte)) with 0. destruct (Z.leb_spec n 0); [lia|]. cbn. eexists. split; [done|lia]. }
  rewrite Z.sub_0_r. destruct (Z.ltb_spec (limit - off) n); [|lia].
  rewrite (ro_in _ _ Hra) by lia. cbn [mbind option_bind orPanic].
  set (x := take _ _). assert (zlen x = limit - off) as Hx by (unfold x; rewrite length_take, length_drop; lia).
  rewrite app_nil_l. subst k2. unfold k. cbn [sectionFill]. rewrite Hx. destruct (Z.leb_spec n (limit - off)); [lia|].
  unfold sectionRead. cbn [sr_limit sr_off sr_ra]. destruct (Z.leb_spec limit (off + (limit - off))); [|lia].
  cbn [orPanic]. rewrite app_nil_r, Hx. destruct (Z.leb_spec n (limit - off)); [lia|].
  destruct (Z.ltb_spec 0 (limit - off)); [|lia]. eexists. split; [done|done].
Qed.

(** A section that starts behind the contents. *)
Lemma sectionReadFull_beyond c ra off limit n :
  ReaderOf c ra → zlen c ≤ off → 0 < n → ∃ e, sectionReadFull (SectionReader ra off limit) n = fail e.
Proof.
  intros Hra Hoff Hn. unfold sectionReadFull. replace (Z.to_nat n + 2)%nat with (S (S (Z.to_nat n))) by lia.
  cbn [sectionFill]. change (zlen (@nil byte)) with 0. destruct (Z.leb_spec n 0); [lia|].
  unfold sectionRead. cbn [sr_limit sr_off sr_ra]. destruct (Z.leb_spec limit off).
  { cbn [orPanic]. change (zlen ([] ++ @nil byte)) with 0. destruct (Z.leb_spec n 0); [lia|]. cbn. eauto. }
  rewrite Z.sub_0_r. rewrite (ro_beyond _ _ Hra) by (try lia; destruct (Z.ltb_spec (limit - off) n); lia).
  cbn [mbind option_bind orPanic]. change (zlen ([] ++ @nil byte)) with 0. destruct (Z.leb_spec n 0); [lia|]. cbn. eauto.
Qed.

(** ** The parsers do not panic *)

Lemma rbUint_ok k b : Z.of_nat k ≤ zlen b → rbUint k b = Some (leUint (take k b), drop k b).
Proof. intros. unfold rbUint. by rewrite decide_True by lia. Qed.

Lemma rbUint_app k v rest :
  0 ≤ v < 256 ^ Z.of_nat k → rbUint k (lePut k v ++ rest) = Some (v, rest).
Proof.
  intros Hv. unfold rbUint. rewrite decide_True by (rewrite length_app, length_lePut; lia).
  rewrite take_app_length' by (by rewrite length_lePut). rewrite drop_app_length' by (by rewrite length_lePut).
  by rewrite leUint_lePut, Z.mod_small.
Qed.

Lemma rbSkip_app b rest n : length b = n → rbSkip n (b ++ rest) = Some rest.
Proof.
  intros <-. unfold rbSkip. rewrite decide_True by (rewrite length_app; lia). by rewrite drop_app_length.
Qed.

Lemma detectLoop_total fuel s req : (length s < fuel)%nat → ∃ r, detectLoop fuel s req = Some r.
Proof.
  revert s req. induction fuel as [|fuel IH]; intros s req Hf; [lia|]. cbn [detectLoop].
  destruct s as [|b s]; [by eexists|]. destruct (decodeRune (b :: s)) as [r n] eqn:E.
  apply decode_width in E; [|done].
  assert (length (drop (Z.to_nat n) (b :: s)) < fuel)%nat by (rewrite length_drop; simpl in *; lia).
  destruct (_ || _); [destruct (_ || _)|]; eauto.
Qed.

Lemma detectUTF8_total s : ∃ r, detectUTF8 s = Some r.
Proof. apply detectLoop_total. lia. Qed.

Lemma nonUTF8_total name comment flags : ∃ b, nonUTF8 name comment flags = Some b.
Proof.
  unfold nonUTF8. destruct (detectUTF8_total name) as [[v1 q1] ->], (detectUTF8_total comment) as [[v2 q2] ->]. simpl. eauto.
Qed.

(** Steps of [readBuf] on a buffer known to be long enough. *)
Ltac rb_step :=
  unfold rbUint8, rbUint16, rbUint32, rbUint64;
  rewrite rbUint_ok by (rewrite ?length_take, ?length_drop, ?length_take, ?length_drop in *; lia); cbn [orPanic mbind option_bind].

Lemma zip64Extra_total x b : wp (zip64Extra x b) (λ _, True).
Proof.
  unfold zip64Extra. destruct x as [nu nc nh us cs ho m].
  apply wp_andThen. apply (wp_mono _ (λ _, True)); [|intros [[v b1]|] _; [|done]].
  { destruct nu; [|done]. destruct (Z.ltb_spec (zlen b) 8); [done|]. by rb_step. }
  apply wp_andThen. apply (wp_mono _ (λ _, True)); [|intros [[v2 b2]|] _; [|done]].
  { destruct nc; [|done]. destruct (Z.ltb_spec (zlen b1) 8); [done|]. by rb_step. }
  apply wp_andThen. apply (wp_mono _ (λ _, True)); [|by intros [|]].
  destruct nh; [|done]. destruct (Z.ltb_spec (zlen b2) 8); [done|]. by rb_step.
Qed.

Lemma rbSub_ok n b : 0 ≤ n ≤ zlen b → rbSub n b = Some (take (Z.to_nat n) b, drop (Z.to_nat n) b).
Proof. intros. unfold rbSub. destruct (Z.leb_spec 0 n), (Z.leb_spec n (zlen b)); done || lia. Qed.

Lemma ntfsAttrs_total fuel x b : (length b < fuel)%nat → wp (ntfsAttrs fuel x b) (λ _, True).
Proof.
  revert x b. induction fuel as [|fuel IH]; intros x b Hf; [lia|]. cbn [ntfsAttrs].
  destruct (Z.ltb_spec (zlen b) 4); [done|]. do 2 rb_step.
  set (n := leUint _). pose proof (leUint_range (take 2 (drop 2 b))). fold n in H0.
  destruct (Z.ltb_spec (zlen (drop 2 (drop 2 b))) n); [done|].
  rewrite rbSub_ok by lia. cbn [orPanic].
  destruct (negb _ || negb (n =? 24)) eqn:E.
  - apply IH. rewrite !length_drop in *. lia.
  - apply orb_false_elim in E as [_ E%negb_false_iff%Z.eqb_eq].
    rb_step. apply IH. rewrite !length_drop in *. lia.
Qed.

Lemma extraField_total x tag b : wp (extraField x tag b) (λ _, True).
Proof.
  unfold extraField. destruct (tag =? 1); [apply zip64Extra_total|].
  destruct (tag =? 10).
  { destruct (Z.ltb_spec (zlen b) 4); [done|]. rb_step. apply ntfsAttrs_total. lia. }
  destruct (_ || _).
  { destruct (Z.ltb_spec (zlen b) 8); [done|]. by do 2 rb_step. }
  destruct (tag =? 21589); [|done]. destruct (Z.ltb_spec (zlen b) 5); [done|]. rb_step.
  destruct (_ =? 0); [done|]. by rb_step.
Qed.

Lemma parseExtras_total fuel x b : (length b < fuel)%nat → wp (parseExtras fuel x b) (λ _, True).
Proof.
  revert x b. induction fuel as [|fuel IH]; intros x b Hf; [lia|]. cbn [parseExtras].
  destruct (Z.ltb_spec (zlen b) 4); [done|]. do 2 rb_step.
  set (n := leUint _). pose proof (leUint_range (take 2 (drop 2 b))). fold n in H0.
  destruct (Z.ltb_spec (zlen (drop 2 (drop 2 b))) n); [done|].
  rewrite rbSub_ok by lia. cbn [orPanic]. apply wp_andThen.
  eapply wp_mono; [apply extraField_total|]. intros [x'|e] _; [|done].
  apply IH. rewrite !length_drop in *. lia.
Qed.

Lemma rbUint_len k b m :
  length b = (k + m)%nat →
  ∃ v b', rbUint k b = Some (v, b') ∧ 0 ≤ v < 256 ^ Z.of_nat k ∧ length b' = m.
Proof.
  intros Hb. rewrite rbUint_ok by lia. eexists _, _. split; [done|]. rewrite length_drop. split; [|lia].
  pose proof (leUint_range (take k b)) as H. rewrite length_take, Hb in H.
  by replace (k `min` (k + m))%nat with k in H by lia.
Qed.

(** The next field of a buffer of known length, whatever its value. *)
Ltac rb_field :=
  unfold rbUint8, rbUint16, rbUint32, rbUint64;
  match goal with H : length ?b = ?n |- context [rbUint ?k ?b] =>
    let v := fresh "v" in let b' := fresh "b" in
    let E := fresh in let Hv := fresh "Hv" in let H' := fresh "Hlen" in
    destruct (rbUint_len k b (n - k)) as (v&b'&E&Hv&H'); [rewrite H; reflexivity|];
    rewrite E; clear E; cbn [orPanic mbind option_bind]; cbn [Nat.sub] in H'; clear H
  end.

(** [readDirectoryHeader] returns; on success it has found the signature at
    its offset and has moved behind the header, inside the section. *)
Lemma readDirectoryHeader_total c ra off limit :
  ReaderOf c ra → 0 ≤ off → limit ≤ zlen c ∨ zlen c ≤ off →
  wp (readDirectoryHeader (SectionReader ra off limit)) (λ r,
    match r with
    | Ok (_, s') => leUint (take 4 (drop (Z.to_nat off) c)) = directoryHeaderSignature ∧
        ∃ off', s' = SectionReader ra off' limit ∧ off + directoryHeaderLen ≤ off' ∧ off' ≤ limit ∧ limit ≤ zlen c
    | Err _ => True
    end).
Proof.
  intros Hra Hoff Hcases. unfold readDirectoryHeader, directoryHeaderLen.
  destruct (decide (zlen c ≤ off)) as [Hb|Hb].
  { destruct (sectionReadFull_beyond c ra off limit 46) as [e ->]; done. }
  assert (limit ≤ zlen c) as Hlim by lia. clear Hcases.
  destruct (decide (off + 46 ≤ limit)) as [Hin|Hin].
  2:{ destruct (sectionReadFull_short c ra off limit 46) as (e&->&_); [done|lia|lia|lia|lia|]. done. }
  rewrite (sectionReadFull_in c) by (done || lia). cbn [andThen ret].
  remember (take (Z.to_nat 46) (drop (Z.to_nat off) c)) as b eqn:Hb46.
  assert (length b = 46%nat) as Hlen by (subst b; rewrite length_take, length_drop; lia).
  unfold rbUint32 at 1. rewrite rbUint_ok by lia. cbn [orPanic].
  destruct (Z.eqb_spec (leUint (take 4 b)) directoryHeaderSignature) as [Hsig|]; [|done]. cbn [negb].
  assert (leUint (take 4 (drop (Z.to_nat off) c)) = directoryHeaderSignature) as Hs.
  { subst b. by rewrite take_take in Hsig. }
  assert (length (drop 4 b) = 42%nat) as Hlen' by (rewrite length_drop; lia). clear Hlen Hsig Hb46.
  remember (drop 4 b) as b0. clear Heqb0 b.
  do 12 rb_field. unfold rbSkip. rewrite decide_True by lia. cbn [orPanic].
  assert (length (drop 4 b11) = 8%nat) as Hl8 by (rewrite length_drop; lia).
  remember (drop 4 b11) as b12. clear Heqb12. clear dependent b11.
  do 2 rb_field.
  remember (v8 + v9 + v10) as n. change (256 ^ Z.of_nat 2) with 65536 in *.
  destruct (decide (off + 46 + n ≤ limit)) as [Hin2|Hin2].
  2:{ destruct (sectionReadFull_short c ra (off + 46) limit n) as (e&->&_); [done|lia|lia|lia|lia|]. done. }
  rewrite (sectionReadFull_in c) by (done || lia). cbn [andThen ret].
  set (d := take _ _). assert (zlen d = n) as Hd by (unfold d; rewrite length_take, length_drop; lia).
  clearbody d. rewrite !zslice_Some by lia. cbn [orPanic].
  set (name := take _ _). set (comment := take _ (drop (Z.to_nat (v8 + v9)) _)).
  destruct (nonUTF8_total name comment v1) as [non ->]. cbn [orPanic].
  apply wp_andThen. eapply wp_mono; [apply parseExtras_total; lia|]. intros [x|e] _; [|done].
  destruct (_ || _); [done|]. cbn [wp ret]. split; [done|]. eexists. split; [done|]. lia.
Qed.

(** ** The end of the central directory *)

(** The signature of the end record at index [i]. *)
Definition sigAt (b : list byte) (i : Z) : bool :=
  bool_decide (take 4 (drop (Z.to_nat i) b) = [x50; x4b; x05; x06]).

Lemma zidx_drop (b : list byte) i k :
  0 ≤ i → (k < 4)%nat → i + 4 ≤ zlen b → zidx b (i + Z.of_nat k) = take 4 (drop (Z.to_nat i) b) !! k.
Proof.
  intros Hi Hk Hl. unfold zidx. destruct (Z.ltb_spec (i + Z.of_nat k) 0); [lia|].
  rewrite lookup_take, lookup_drop by done. rewrite decide_True by done. f_equal. lia.
Qed.

Lemma findSignature_step fuel b i :
  0 ≤ i → i + directoryEndLen ≤ zlen b →
  ∃ n, 0 ≤ n < 65536 ∧ leUint (take 2 (drop (Z.to_nat (i + 20)) b)) = n ∧
  findSignature (S fuel) b i =
    if sigAt b i then Some (if zlen b <? n + directoryEndLen + i then -1 else i) else findSignature fuel b (i - 1).
Proof.
  intros Hi Hl. cbn [findSignature]. unfold directoryEndLen in *.
  pose proof (zidx_drop b i 0 Hi) as H0. pose proof (zidx_drop b i 1 Hi) as H1.
  pose proof (zidx_drop b i 2 Hi) as H2. pose proof (zidx_drop b i 3 Hi) as H3.
  change (Z.of_nat 0) with 0 in H0. change (Z.of_nat 1) with 1 in H1. change (Z.of_nat 2) with 2 in H2.
  change (Z.of_nat 3) with 3 in H3. rewrite Z.add_0_r in H0. rewrite H0, H1, H2, H3 by lia.
  unfold sigAt. assert (length (take 4 (drop (Z.to_nat i) b)) = 4%nat) as Hl4 by (rewrite length_take, length_drop; lia).
  destruct (take 4 (drop (Z.to_nat i) b)) as [|b0 [|b1 [|b2 [|b3 [|? ?]]]]]; try discriminate Hl4.
  cbn [lookup list_lookup mbind option_bind].
  destruct (zidx_Some b (i + 22 - 2)) as (n0&->&Hn0); [lia|]. destruct (zidx_Some b (i + 22 - 1)) as (n1&->&Hn1); [lia|].
  cbn [mbind option_bind].
  assert (take 2 (drop (Z.to_nat (i + 20)) b) = [n0; n1]) as ->.
  { apply list_eq. intros [|[|k]].
    - rewrite lookup_take, lookup_drop by lia. rewrite decide_True by lia. cbn. rewrite <-Hn0. f_equal. lia.
    - rewrite lookup_take, lookup_drop by lia. rewrite decide_True by lia. cbn. rewrite <-Hn1. f_equal. lia.
    - by rewrite lookup_take_ge by lia. }
  pose proof (b2z_range n0). pose proof (b2z_range n1).
  assert (Z.lor (b2z n0) (Z.shiftl (b2z n1) 8) = leUint [n0; n1]) as ->.
  { cbn [leUint foldr]. rewrite Z.add_nocarry_lor.
    - rewrite Z.shiftl_mul_pow2 by lia. f_equal. change (2 ^ 8) with 256. lia.
    - apply Z.bits_inj'. intros j Hj. rewrite Z.land_spec, Z.bits_0.
      destruct (decide (j < 8)).
      + replace (256 * (b2z n1 + 256 * 0)) with (b2z n1 * 2 ^ 8) by lia. by rewrite Z.mul_pow2_bits_low, andb_false_r.
      + rewrite <-(Z.mod_small (b2z n0) (2 ^ 8)) by done. by rewrite Z.mod_pow2_bits_high by lia. }
  exists (leUint [n0; n1]). split; [cbn [leUint foldr]; lia|]. split; [done|].
  destruct (bool_decide_reflect ([b0; b1; b2; b3] = [x50; x4b; x05; x06])) as [E|E].
  - injection E as -> -> -> ->. done.
  - destruct (_ && _ && _ && _) eqn:E2; [|done]. exfalso. apply E.
    rewrite !andb_true_iff, !Z.eqb_eq in E2. destruct E2 as [[[? ?] ?] ?].
    by repeat match goal with H : b2z ?x = _ |- _ => apply (f_equal z2b) in H; rewrite z2b_b2z in H; rewrite H; clear H end.
Qed.

Lemma findSignature_total fuel b i :
  Z.of_nat fuel = i + 1 ∨ (fuel = O) → i + directoryEndLen ≤ zlen b →
  ∃ p, findSignature fuel b i = Some p ∧ -1 ≤ p ∧ (0 ≤ p → p ≤ i).
Proof.
  revert i. induction fuel as [|fuel IH]; intros i Hf Hl; [exists (-1); split; [done|lia]|].
  destruct (findSignature_step fuel b i) as (n&_&_&->); [lia|done|].
  destruct (sigAt b i).
  - eexists. split; [done|]. destruct (_ <? _); lia.
  - destruct (IH (i - 1)) as (p&->&?&?); [lia|lia|]. exists p. split; [done|lia].
Qed.

Lemma findSignatureInBlock_total b :
  ∃ p, findSignatureInBlock b = Some p ∧ -1 ≤ p ∧ (0 ≤ p → p + directoryEndLen ≤ zlen b).
Proof.
  unfold findSignatureInBlock.
  destruct (findSignature_total (Z.to_nat (zlen b - directoryEndLen + 1)) b (zlen b - directoryEndLen)) as (p&->&?&?); [lia|lia|].
  exists p. split; [done|]. lia.
Qed.

Lemma searchTail_total c ra bLen :
  ReaderOf c ra → 0 ≤ bLen ≤ zlen c →
  wp (searchTail ra (zlen c) bLen) (λ r, match r with
    | Ok (Some (buf, o)) => 0 ≤ o ≤ zlen c - directoryEndLen ∧ buf = drop (Z.to_nat o) c
    | _ => True end).
Proof.
  intros Hra Hb. unfold searchTail. destruct (Z.ltb_spec bLen 0); [lia|]. rewrite (ro_in _ _ Hra) by lia. cbn [orPanic].
  rewrite take_ge by (rewrite length_drop; lia).
  destruct (findSignatureInBlock_total (drop (Z.to_nat (zlen c - bLen)) c)) as (p&->&Hp&Hp2). cbn [orPanic].
  destruct (Z.leb_spec 0 p); [|done]. rewrite length_drop in Hp2. simpl. split; [lia|].
  rewrite drop_drop. f_equal. lia.
Qed.

Lemma searchEnd_total c ra :
  ReaderOf c ra →
  wp (searchEnd ra (zlen c)) (λ r, match r with
    | Ok (buf, o) => 0 ≤ o ≤ zlen c - directoryEndLen ∧ buf = drop (Z.to_nat o) c
    | Err _ => True end).
Proof.
  intros Hra. unfold searchEnd. cbv zeta. apply wp_andThen.
  eapply wp_mono; [apply (searchTail_total c ra _ Hra); lia|].
  intros [[[buf o]|]|e] H; [done| |done]. destruct (_ =? _); [done|]. apply wp_andThen.
  eapply wp_mono; [apply (searchTail_total c ra _ Hra); lia|]. by intros [[[buf o]|]|e] H'.
Qed.

Lemma parseEnd_total b :
  directoryEndLen ≤ zlen b →
  wp (parseEnd b) (λ r, match r with
    | Ok d => 0 ≤ directoryRecords d ∧ 0 ≤ directorySize d ∧ 0 ≤ directoryOffset d
    | Err _ => True end).
Proof.
  unfold directoryEndLen. intros Hb. unfold parseEnd, rbSkip. rewrite decide_True by lia. cbn [orPanic].
  unfold rbUint16, rbUint32.
  do 7 (rewrite rbUint_ok by (rewrite ?length_drop; lia); cbn [orPanic]).
  destruct (_ <? _); [done|]. cbn [wp ret directoryRecords directorySize directoryOffset].
  split_and!; apply leUint_range.
Qed.

Lemma findDirectory64End_total c ra o :
  ReaderOf c ra → o ≤ zlen c → wp (findDirectory64End ra o) (λ _, True).
Proof.
  intros Hra Ho. unfold findDirectory64End, directory64LocLen. cbv zeta.
  destruct (Z.ltb_spec (o - 20) 0); [done|]. rewrite (ro_in _ _ Hra) by lia. cbn [orPanic].
  assert (zlen (take (Z.to_nat 20) (drop (Z.to_nat (o - 20)) c)) = 20) by (rewrite length_take, length_drop; lia).
  do 1 rb_step. destruct (negb _); [done|]. rb_step. destruct (negb _); [done|].
  do 2 rb_step. by destruct (negb _).
Qed.

Lemma readDirectory64End_total c ra p d :
  ReaderOf c ra → 0 ≤ p →
  wp (readDirectory64End ra p d) (λ r, match r with
    | Ok d => 0 ≤ directoryRecords d ∧ 0 ≤ directorySize d ∧ 0 ≤ directoryOffset d
    | Err _ => True end).
Proof.
  intros Hra Hp. unfold readDirectory64End, directory64EndLen.
  destruct (ro_total _ _ Hra 56 p) as (x&err&->&Hx); [done..|]. cbn [orPanic].
  destruct err as [e|]; [done|]. specialize (Hx eq_refl).
  rb_step. destruct (negb _); [done|]. unfold rbSkip. rewrite decide_True by (rewrite length_drop; lia). cbn [orPanic].
  do 6 rb_step. cbn [wp ret directoryRecords directorySize directoryOffset]. split_and!; apply leUint_range.
Qed.

(** The zip64 step. *)
Lemma zip64_total c ra d o :
  ReaderOf c ra → 0 ≤ o ≤ zlen c → 0 ≤ directorySize d → 0 ≤ directoryOffset d →
  wp (if (directoryRecords d =? 65535) || (directorySize d =? 65535) || (directoryOffset d =? uint32max) then
        p ←! findDirectory64End ra o;
        if 0 <=? p then d ←! readDirectory64End ra p d; ret (d, p) else ret (d, o)
      else ret (d, o)) (λ r, match r with
    | Ok (d, _) => 0 ≤ directorySize d ∧ 0 ≤ directoryOffset d
    | Err _ => True end).
Proof.
  intros Hra Ho Hs Hd. destruct (_ || _); [|done]. apply wp_andThen.
  eapply wp_mono; [apply (findDirectory64End_total c); [done|lia]|]. intros [p|e] _; [|done].
  destruct (Z.leb_spec 0 p); [|done]. apply wp_andThen.
  eapply wp_mono; [by apply (readDirectory64End_total c)|]. intros [d'|e] H'; [|done]. simpl. tauto.
Qed.

Lemma newSection_limit ra off size :
  0 ≤ off ≤ maxInt64 → 0 ≤ size ≤ maxInt64 →
  ∃ limit, newSection ra off (i64 (size - off)) = SectionReader ra off limit ∧ (limit ≤ size ∨ size ≤ off) ∧
    (off ≤ size → limit = size).
Proof.
  unfold maxInt64. intros Hoff Hs. unfold newSection, maxInt64. eexists. split; [done|].
  rewrite (wrapS_small 64 (size - off)) by lia.
  destruct (Z.leb_spec off (i64 (2 ^ 63 - 1 - (size - off)))) as [|Hlt]; [lia|].
  destruct (decide (size < off)); [lia|]. rewrite wrapS_small in Hlt by lia. lia.
Qed.

(** [readDirectoryEnd] returns, and a directory it reports starts inside the
    file. *)
Lemma readDirectoryEnd_total c ra :
  ReaderOf c ra → zlen c ≤ maxInt64 →
  wp (readDirectoryEnd ra (zlen c)) (λ r, match r with
    | Ok (d, base) => 0 ≤ directoryOffset d ≤ maxInt64 ∧ 0 ≤ i64 (base + directoryOffset d) < zlen c
    | Err _ => True end).
Proof.
  intros Hra Hsize. unfold readDirectoryEnd. apply wp_andThen.
  eapply wp_mono; [by apply searchEnd_total|]. intros [[buf o]|e]; [|done]. intros [Ho ->].
  unfold directoryEndLen in Ho. apply wp_andThen.
  eapply wp_mono; [apply parseEnd_total; rewrite length_drop; unfold directoryEndLen; lia|].
  intros [d|e]; [|done]. intros (_&Hds&Hdo). apply wp_andThen.
  eapply wp_mono; [apply (zip64_total c); [done|lia|done|done]|]. clear d Hds Hdo.
  intros [[d o']|e]; [|done]. intros [Hds Hdo].
  destruct (Z.ltb_spec maxInt64 (directorySize d)); [done|].
  destruct (Z.ltb_spec maxInt64 (directoryOffset d)); [done|]. cbn [orb]. cbv zeta.
  set (base := i64 (_ - directoryOffset d)).
  destruct (Z.ltb_spec (i64 (base + directoryOffset d)) 0); [done|].
  destruct (Z.leb_spec (zlen c) (i64 (base + directoryOffset d))); [done|]. cbn [orb].
  destruct (Z.ltb_spec 0 base); [|simpl; lia].
  destruct (newSection_limit ra (directoryOffset d) (zlen c)) as (limit&->&Hlim&_); [lia|lia|].
  destruct (wp_elim _ _ (readDirectoryHeader_total c ra (directoryOffset d) limit Hra Hdo Hlim)) as ([[f s']|e]&->&Hr).
  - destruct Hr as (_&off'&_&Ho1&Ho2&Ho3). unfold directoryHeaderLen in *. cbn [wp ret].
    split; [lia|]. unfold maxInt64 in *. rewrite Z.add_0_l, wrapS_small by lia. lia.
  - cbn [wp ret]. lia.
Qed.

(** ** The headers *)

(** A directory header that starts among the zeros is no header. *)
Lemma sig_zero nz toc off :
  0 ≤ nz → 0 ≤ off < nz → leUint (take 4 (drop (Z.to_nat off) (tocContents nz toc))) ≠ directoryHeaderSignature.
Proof.
  intros Hnz Hoff. unfold tocContents. rewrite drop_app_le by (rewrite length_replicate; lia).
  rewrite drop_replicate. replace (Z.to_nat nz - Z.to_nat off)%nat with (S (Z.to_nat (nz - off - 1))) by lia.
  cbn [replicate app take]. unfold leUint. cbn [foldr]. change (b2z x00) with 0. unfold directoryHeaderSignature. lia.
Qed.

Lemma readHeaders_total nz toc ra base off fuel :
  ReaderOf (tocContents nz toc) ra → 0 ≤ nz → 0 ≤ off →
  (Z.to_nat (nz + zlen toc - Z.max off nz) + 2 ≤ fuel)%nat →
  wp (readHeaders fuel base (SectionReader ra off (nz + zlen toc))) (λ _, True).
Proof.
  intros Hra Hnz. pose proof (length_tocContents nz toc Hnz) as Hl.
  revert off. induction fuel as [|fuel IH]; intros off Hoff Hf; [lia|]. cbn [readHeaders].
  assert (nz + zlen toc ≤ zlen (tocContents nz toc) ∨ zlen (tocContents nz toc) ≤ off) as Hlim by (left; lia).
  destruct (wp_elim _ _ (readDirectoryHeader_total (tocContents nz toc) ra off (nz + zlen toc) Hra Hoff Hlim)) as ([[f s']|e]&->&Hr).
  - destruct Hr as (Hsig&off'&->&H1&H2&_). unfold directoryHeaderLen in *.
    assert (nz ≤ off). { destruct (decide (off < nz)); [|lia]. by apply sig_zero in Hsig. }
    apply wp_andThen. eapply wp_mono; [apply IH; lia|]. by intros [|].
  - by destruct (decide _).
Qed.
