(* ===== verification/ZipArchive.v ===== *)
(** * ziputil: well-formed archives

    The layout of an archive (APPNOTE 4.3), written as an encoder that is
    independent of ziputil.go: a central directory of entries with zip64 and
    timestamp extra fields, and the end record. [ParseTOC] reads it back and
    [ZipTOCSize] finds its size. *)
From S2P Require Import Prelude.
From S2P Require Import GoIO.
From S2P Require Import Zip.
From S2P Require Import ZipLaws.

(** ** Encoding *)

Record entry := MkEntry {
  en_name : list byte; en_comment : list byte;
  en_creator : Z; en_reader : Z; en_flags : Z; en_method : Z; en_mtime : Z; en_mdate : Z;
  en_crc : Z; en_csize : Z; en_usize : Z; en_attrs : Z; en_offset : Z;
  en_unix : option Z  (* an extended timestamp *) }.

(** A 64-bit value in a 32-bit field: all ones if it does not fit below. *)
Definition field32 (v : Z) : Z := if v <? uint32max then v else uint32max.
Definition overflow64 (v : Z) : list byte := if v <? uint32max then [] else lePut 8 v.

Definition extraOf (tag : Z) (body : list byte) : list byte := lePut 2 tag ++ lePut 2 (zlen body) ++ body.

Definition zip64Body (e : entry) : list byte :=
  overflow64 (en_usize e) ++ overflow64 (en_csize e) ++ overflow64 (en_offset e).
Definition zip64Of (e : entry) : list byte :=
  match zip64Body e with [] => [] | b => extraOf 1 b end.
Definition timeOf (e : entry) : list byte :=
  match en_unix e with Some t => extraOf 21589 (x01 :: lePut 4 t) | None => [] end.
Definition encodeExtra (e : entry) : list byte := zip64Of e ++ timeOf e.

Definition encodeFixed (e : entry) : list byte :=
  lePut 4 directoryHeaderSignature ++ lePut 2 (en_creator e) ++ lePut 2 (en_reader e) ++
  lePut 2 (en_flags e) ++ lePut 2 (en_method e) ++ lePut 2 (en_mtime e) ++ lePut 2 (en_mdate e) ++
  lePut 4 (en_crc e) ++ lePut 4 (field32 (en_csize e)) ++ lePut 4 (field32 (en_usize e)) ++
  lePut 2 (zlen (en_name e)) ++ lePut 2 (zlen (encodeExtra e)) ++ lePut 2 (zlen (en_comment e)) ++
  lePut 4 0 ++ lePut 4 (en_attrs e) ++ lePut 4 (field32 (en_offset e)).
Definition encodeVariable (e : entry) : list byte := en_name e ++ encodeExtra e ++ en_comment e.
Definition encodeEntry (e : entry) : list byte := encodeFixed e ++ encodeVariable e.

Record ValidEntry (e : entry) : Prop := {
  ve_name : zlen (en_name e) < 65536; ve_comment : zlen (en_comment e) < 65536;
  ve_creator : 0 ≤ en_creator e < 65536; ve_reader : 0 ≤ en_reader e < 65536;
  ve_flags : 0 ≤ en_flags e < 65536; ve_method : 0 ≤ en_method e < 65536;
  ve_mtime : 0 ≤ en_mtime e < 65536; ve_mdate : 0 ≤ en_mdate e < 65536;
  ve_crc : 0 ≤ en_crc e < 2 ^ 32; ve_csize : 0 ≤ en_csize e < 2 ^ 64; ve_usize : 0 ≤ en_usize e < 2 ^ 64;
  ve_attrs : 0 ≤ en_attrs e < 2 ^ 32; ve_offset : 0 ≤ en_offset e < 2 ^ 63;
  ve_unix : match en_unix e with Some t => 0 ≤ t < 2 ^ 32 | None => True end;
}.

(** The header that an entry stands for, in an archive behind [base] other
    bytes. *)
Definition entryHeader (base : Z) (e : entry) : FileHeader :=
  MkFileHeader (en_name e) (en_comment e) (default false (nonUTF8 (en_name e) (en_comment e) (en_flags e)))
    (en_creator e) (en_reader e) (en_flags e) (en_method e)
    (modifiedTime (en_mdate e) (en_mtime e) (match en_unix e with Some t => unixTime t 0 | None => zeroTime end))
    (en_mtime e) (en_mdate e) (en_crc e) (field32 (en_csize e)) (field32 (en_usize e))
    (en_csize e) (en_usize e) (encodeExtra e) (en_attrs e) (en_offset e + base).

(** ** Reading an entry back *)

Lemma field32_range v : 0 ≤ v → 0 ≤ field32 v < 256 ^ Z.of_nat 4.
Proof. intros. unfold field32, uint32max. change (256 ^ Z.of_nat 4) with (2 ^ 32). destruct (Z.ltb_spec v (2 ^ 32 - 1)); lia. Qed.

Lemma length_overflow64 v : (length (overflow64 v) ≤ 8)%nat.
Proof. unfold overflow64. destruct (_ <? _); [simpl; lia|]. by rewrite length_lePut. Qed.

Lemma length_zip64Body e : (length (zip64Body e) ≤ 24)%nat.
Proof.
  unfold zip64Body. rewrite !length_app. pose proof (length_overflow64 (en_usize e)).
  pose proof (length_overflow64 (en_csize e)). pose proof (length_overflow64 (en_offset e)). lia.
Qed.

Lemma length_extraOf tag b : length (extraOf tag b) = (4 + length b)%nat.
Proof. unfold extraOf. rewrite !length_app, !length_lePut. lia. Qed.

Lemma length_encodeExtra e : zlen (encodeExtra e) < 65536.
Proof.
  unfold encodeExtra, zip64Of, timeOf. rewrite length_app. pose proof (length_zip64Body e).
  assert (length match zip64Body e with [] => [] | b => extraOf 1 b end ≤ 28)%nat.
  { destruct (zip64Body e) as [|x b]; [simpl; lia|]. rewrite length_extraOf. lia. }
  assert (length match en_unix e with Some t => extraOf 21589 (x01 :: lePut 4 t) | None => [] end ≤ 9)%nat.
  { destruct (en_unix e); [|simpl; lia]. rewrite length_extraOf. cbn [length]. by rewrite length_lePut. }
  lia.
Qed.

Lemma length_encodeFixed e : length (encodeFixed e) = 46%nat.
Proof. unfold encodeFixed. by rewrite !length_app, !length_lePut. Qed.

(** One field of the extra data. *)
Lemma parseExtras_field fuel x tag body rest :
  0 ≤ tag < 65536 → zlen body < 65536 →
  parseExtras (S fuel) x (extraOf tag body ++ rest) = (x ←! extraField x tag body; parseExtras fuel x rest).
Proof.
  intros Ht Hb. cbn [parseExtras]. destruct (Z.ltb_spec (zlen (extraOf tag body ++ rest)) 4) as [Hs|_].
  { rewrite length_app, length_extraOf in Hs. lia. }
  unfold extraOf, rbUint16. rewrite <-!app_assoc.
  rewrite rbUint_app by (change (256 ^ Z.of_nat 2) with 65536; lia). cbn [orPanic].
  rewrite rbUint_app by (change (256 ^ Z.of_nat 2) with 65536; lia). cbn [orPanic].
  destruct (Z.ltb_spec (zlen (body ++ rest)) (zlen body)) as [Hs|_]; [rewrite length_app in Hs; lia|].
  rewrite rbSub_ok by (rewrite length_app; lia). cbn [orPanic].
  by rewrite Nat2Z.id, take_app_length, drop_app_length.
Qed.

Lemma parseExtras_nil fuel x : (0 < fuel)%nat → parseExtras fuel x [] = ret x.
Proof. destruct fuel; [lia|]. done. Qed.

(** A zip64 part that is there because the 32-bit field is all ones. *)
Lemma zip64_part (v : Z) (rest : list byte) :
  0 ≤ v < 2 ^ 64 →
  (if field32 v =? uint32max then
     if zlen (overflow64 v ++ rest) <? 8 then fail ErrFormat
     else '(w, b) ←? rbUint64 (overflow64 v ++ rest); ret (w, b)
   else ret (field32 v, overflow64 v ++ rest)) = ret (v, rest).
Proof.
  intros Hv. unfold field32, overflow64. destruct (Z.ltb_spec v uint32max).
  - destruct (Z.eqb_spec v uint32max); [lia|done].
  - rewrite Z.eqb_refl. rewrite length_app, length_lePut. destruct (Z.ltb_spec (Z.of_nat (8 + length rest)) 8); [lia|].
    unfold rbUint64. rewrite rbUint_app by done. done.
Qed.

Lemma zip64Extra_body e m :
  ValidEntry e →
  zip64Extra (MkExtras (field32 (en_usize e) =? uint32max) (field32 (en_csize e) =? uint32max)
                (field32 (en_offset e) =? uint32max) (field32 (en_usize e)) (field32 (en_csize e))
                (field32 (en_offset e)) m) (zip64Body e)
  = ret (MkExtras false false false (en_usize e) (en_csize e) (en_offset e) m).
Proof.
  intros Hv. unfold zip64Extra, zip64Body. rewrite (zip64_part (en_usize e)) by apply Hv. cbn [andThen ret].
  rewrite (zip64_part (en_csize e)) by apply Hv. cbn [andThen ret].
  pose proof (ve_offset _ Hv). pose proof (zip64_part (en_offset e) [] ltac:(lia)) as Hp.
  rewrite app_nil_r in Hp. destruct (field32 (en_offset e) =? uint32max).
  - destruct (zlen (overflow64 (en_offset e)) <? 8); [done|].
    destruct (rbUint64 (overflow64 (en_offset e))) as [[w b]|]; [|done]. cbn [orPanic ret] in *.
    injection Hp as -> _. cbn [andThen ret]. by rewrite wrapS_small by lia.
  - injection Hp as -> _. done.
Qed.

Lemma overflow64_nil v : overflow64 v = [] → v < uint32max.
Proof. unfold overflow64. by destruct (Z.ltb_spec v uint32max). Qed.

Lemma field32_small v : v < uint32max → field32 v = v ∧ (field32 v =? uint32max) = false.
Proof. intros H. unfold field32. destruct (Z.ltb_spec v uint32max); [|lia]. split; [done|]. by apply Z.eqb_neq; lia. Qed.

Lemma extraField_time x t :
  0 ≤ t < 2 ^ 32 → extraField x 21589 (x01 :: lePut 4 t) = ret (setModified x (unixTime t 0)).
Proof.
  intros Ht. unfold extraField. change (21589 =? 1) with false. change (21589 =? 10) with false.
  change ((21589 =? 13) || (21589 =? 22613)) with false. change (21589 =? 21589) with true. cbv iota.
  destruct (Z.ltb_spec (zlen (x01 :: lePut 4 t)) 5) as [Hs|_]; [cbn [length] in Hs; rewrite length_lePut in Hs; lia|].
  unfold rbUint8, rbUint32. change (x01 :: lePut 4 t) with (lePut 1 1 ++ lePut 4 t).
  rewrite rbUint_app by done. cbn [orPanic]. change (Z.land 1 1 =? 0) with false. cbv iota.
  rewrite <-(app_nil_r (lePut 4 t)), rbUint_app by done. done.
Qed.

Definition modifiedOf (e : entry) : goTime := match en_unix e with Some t => unixTime t 0 | None => zeroTime end.

Lemma parseExtras_time fuel x e :
  ValidEntry e → x_modified x = zeroTime → (0 < fuel)%nat → (2 ≤ fuel ∨ en_unix e = None)%nat →
  parseExtras fuel x (timeOf e) = ret (setModified x (modifiedOf e)).
Proof.
  intros Hv Hm Hf Hf2. unfold timeOf, modifiedOf. pose proof (ve_unix _ Hv) as Hu. destruct (en_unix e) as [t|].
  - destruct Hf2 as [Hf2|]; [|done]. destruct fuel as [|fuel]; [lia|]. rewrite <-(app_nil_r (extraOf _ _)).
    rewrite parseExtras_field by (try done; cbn [length]; rewrite length_lePut; lia).
    rewrite extraField_time by done. cbn [andThen ret]. rewrite parseExtras_nil by lia. done.
  - rewrite parseExtras_nil by done. destruct x. simpl in *. by rewrite Hm.
Qed.

Lemma parseExtras_encode e :
  ValidEntry e →
  parseExtras (S (length (encodeExtra e)))
    (MkExtras (field32 (en_usize e) =? uint32max) (field32 (en_csize e) =? uint32max)
       (field32 (en_offset e) =? uint32max) (field32 (en_usize e)) (field32 (en_csize e))
       (field32 (en_offset e)) zeroTime) (encodeExtra e)
  = ret (MkExtras false false false (en_usize e) (en_csize e) (en_offset e) (modifiedOf e)).
Proof.
  intros Hv. unfold encodeExtra, zip64Of.
  assert (length (timeOf e) = 0 ∧ en_unix e = None ∨ 1 ≤ length (timeOf e))%nat as Ht.
  { unfold timeOf. destruct (en_unix e); [right|by left]. rewrite length_extraOf. lia. }
  destruct (zip64Body e) as [|x b] eqn:Hz.
  - unfold zip64Body in Hz. apply app_nil in Hz as [Hu%overflow64_nil Hz]. apply app_nil in Hz as [Hc%overflow64_nil Ho%overflow64_nil].
    apply field32_small in Hu as [-> ->]. apply field32_small in Hc as [-> ->]. apply field32_small in Ho as [-> ->].
    rewrite app_nil_l. rewrite parseExtras_time; [done|done|done|lia|]. destruct Ht as [[_ ?]|?]; [by right|left; lia].
  - rewrite <-Hz. clear x b Hz. rewrite length_app, length_extraOf. rewrite parseExtras_field.
    + change (extraField ?x 1 ?b) with (zip64Extra x b). rewrite zip64Extra_body by done. cbn [andThen ret].
      rewrite parseExtras_time; [done|done|done|lia|left; lia].
    + done.
    + pose proof (length_zip64Body e). lia.
Qed.

(** ** Headers *)

Lemma zslice_mid (a b c : list byte) i j :
  i = zlen a → j = i + zlen b → zslice (a ++ b ++ c) i j = Some b.
Proof.
  intros -> ->. rewrite zslice_Some by (rewrite ?length_app; lia).
  rewrite Nat2Z.id, drop_app_length. rewrite Z.add_simpl_l, Nat2Z.id. by rewrite take_app_length.
Qed.

Lemma take_drop_split (c b rest : list byte) off n :
  drop off c = b ++ rest → n = length b → take n (drop off c) = b.
Proof. intros -> ->. by rewrite take_app_length. Qed.

(** The next field of an encoding, whose range [Hv] gives. *)
Ltac rb_encoded Hv :=
  rewrite rbUint_app by (first [done | apply field32_range; apply Hv | apply Hv |
    change (256 ^ Z.of_nat 2) with 65536; apply Hv || (pose proof Hv as []; lia)]); cbn [orPanic].

(** [readDirectoryHeader] reads an encoded entry. *)
Lemma readDirectoryHeader_encode c ra off limit e rest :
  ReaderOf c ra → ValidEntry e → 0 ≤ off → limit ≤ zlen c → off + zlen (encodeEntry e) ≤ limit →
  drop (Z.to_nat off) c = encodeEntry e ++ rest →
  readDirectoryHeader (SectionReader ra off limit) =
    ret (entryHeader 0 e, SectionReader ra (off + zlen (encodeEntry e)) limit).
Proof.
  intros Hra Hv Hoff Hlim Hle Hc. unfold readDirectoryHeader, directoryHeaderLen.
  pose proof (length_encodeFixed e) as Hf. pose proof (length_encodeExtra e) as Hx.
  assert (zlen (encodeEntry e) = 46 + (zlen (en_name e) + zlen (encodeExtra e) + zlen (en_comment e))) as Hlen.
  { unfold encodeEntry, encodeVariable. rewrite !length_app. lia. }
  unfold encodeEntry in Hc at 1. rewrite <-app_assoc in Hc.
  rewrite (sectionReadFull_in c) by (done || lia). cbn [andThen ret].
  rewrite (take_drop_split _ _ _ _ _ Hc) by lia. unfold encodeFixed.
  unfold rbUint16, rbUint32.
  rb_encoded Hv. rewrite Z.eqb_refl. cbn [negb].
  rb_encoded Hv. rb_encoded Hv. rb_encoded Hv. rb_encoded Hv. rb_encoded Hv. rb_encoded Hv. rb_encoded Hv. rb_encoded Hv. rb_encoded Hv. rb_encoded Hv.
  rewrite rbUint_app by (change (256 ^ Z.of_nat 2) with 65536; lia). cbn [orPanic].
  rb_encoded Hv. rewrite rbSkip_app by done. cbn [orPanic]. rb_encoded Hv.
  rewrite <-(app_nil_r (lePut 4 (field32 (en_offset e)))). rb_encoded Hv.
  rewrite (sectionReadFull_in c) by (done || lia). cbn [andThen ret].
  assert (drop (Z.to_nat (off + 46)) c = encodeVariable e ++ rest) as Hc2.
  { replace (Z.to_nat (off + 46)) with (Z.to_nat off + 46)%nat by lia. rewrite <-drop_drop, Hc. by rewrite drop_app_length' by lia. }
  rewrite (take_drop_split _ _ _ _ _ Hc2) by (unfold encodeVariable; rewrite !length_app; lia).
  unfold encodeVariable.
  rewrite (zslice_mid [] (en_name e) (encodeExtra e ++ en_comment e) 0 (zlen (en_name e)) eq_refl eq_refl : zslice (en_name e ++ encodeExtra e ++ en_comment e) 0 (zlen (en_name e)) = _). cbn [orPanic].
  rewrite (zslice_mid (en_name e) (encodeExtra e)) by (cbn; lia). cbn [orPanic].
  assert (zslice (en_name e ++ encodeExtra e ++ en_comment e) (zlen (en_name e) + zlen (encodeExtra e))
            (zlen (en_name e ++ encodeExtra e ++ en_comment e)) = Some (en_comment e)) as ->.
  { rewrite app_assoc. rewrite <-(app_nil_r ((en_name e ++ encodeExtra e) ++ en_comment e)), <-app_assoc.
    apply zslice_mid; rewrite ?length_app; simpl; lia. }
  cbn [orPanic]. destruct (nonUTF8_total (en_name e) (en_comment e) (en_flags e)) as [non Hnon]. rewrite Hnon. cbn [orPanic].
  rewrite parseExtras_encode by done. cbn [andThen ret needCSize needHeaderOffset orb x_modified x_csize x_usize x_offset].
  unfold entryHeader. rewrite Hnon, Z.add_0_r. cbn [default]. unfold modifiedOf. rewrite Hlen, !Z.add_assoc. reflexivity.
Qed.

(** Bytes that do not start with the signature are no header. *)
Lemma readDirectoryHeader_fails c ra off limit :
  ReaderOf c ra → 0 ≤ off → off < limit ≤ zlen c ∨ zlen c ≤ off →
  leUint (take 4 (drop (Z.to_nat off) c)) ≠ directoryHeaderSignature →
  ∃ e, readDirectoryHeader (SectionReader ra off limit) = fail e ∧
    (off < limit ≤ zlen c → e = ErrFormat ∨ e = ErrUnexpectedEOF).
Proof.
  intros Hra Hoff Hcases Hsig. unfold readDirectoryHeader, directoryHeaderLen.
  destruct Hcases as [Hin|Hb].
  2:{ destruct (sectionReadFull_beyond c ra off limit 46) as [e ->]; [done..|]. exists e. split; [done|lia]. }
  destruct (decide (off + 46 ≤ limit)).
  2:{ destruct (sectionReadFull_short c ra off limit 46) as (e&->&He); [done|lia|lia|lia|lia|].
      exists e. split; [done|]. right. apply He. lia. }
  rewrite (sectionReadFull_in c) by (done || lia). cbn [andThen ret]. unfold rbUint32 at 1.
  rewrite rbUint_ok by (rewrite length_take, length_drop; lia). cbn [orPanic].
  rewrite take_take. change (4 `min` Z.to_nat 46)%nat with 4%nat. apply Z.eqb_neq in Hsig. rewrite Hsig.
  cbn [negb]. exists ErrFormat. split; [done|by left].
Qed.

Definition encodeDirectory (es : list entry) : list byte := concat (encodeEntry <$> es).

Lemma rebase_entryHeader base e :
  ValidEntry e → 0 ≤ base → en_offset e + base < 2 ^ 63 →
  rebase base (entryHeader 0 e) = entryHeader base e.
Proof. intros Hv Hb Hle. pose proof (ve_offset _ Hv). unfold rebase, entryHeader. rewrite Z.add_0_r, wrapS_small by lia. done. Qed.

Lemma length_encodeEntry e : 46 ≤ zlen (encodeEntry e).
Proof. unfold encodeEntry. rewrite length_app, length_encodeFixed. lia. Qed.

Lemma readHeaders_encode c ra base limit es tail off fuel :
  ReaderOf c ra → 0 ≤ base → 0 ≤ off → limit = zlen c →
  Forall (λ e, ValidEntry e ∧ en_offset e + base < 2 ^ 63) es →
  drop (Z.to_nat off) c = encodeDirectory es ++ tail → tail ≠ [] →
  leUint (take 4 tail) ≠ directoryHeaderSignature → (length es < fuel)%nat →
  readHeaders fuel base (SectionReader ra off limit) = ret (entryHeader base <$> es).
Proof.
  intros Hra Hb Hoff -> Hes. revert off fuel Hoff. induction Hes as [|e es [Hv Ho] Hes IH]; intros off fuel Hoff Hc Hne Hsig Hf;
    (destruct fuel as [|fuel]; [simpl in Hf; lia|]); cbn [readHeaders].
  - cbn in Hc. assert (off < zlen c).
    { apply (f_equal length) in Hc. rewrite length_drop in Hc. destruct tail; [done|]. simpl in Hc. lia. }
    destruct (readDirectoryHeader_fails c ra off (zlen c)) as (e&->&He); [done|done|left; lia|by rewrite Hc|].
    cbn [fail]. rewrite decide_True by (apply He; lia). done.
  - change (encodeDirectory (e :: es)) with (encodeEntry e ++ encodeDirectory es) in Hc. rewrite <-app_assoc in Hc.
    assert (off + zlen (encodeEntry e) ≤ zlen c).
    { apply (f_equal length) in Hc. rewrite length_drop, length_app in Hc. pose proof (length_encodeEntry e). lia. }
    rewrite (readDirectoryHeader_encode c ra off (zlen c) e (encodeDirectory es ++ tail)) by (done || lia).
    cbn [ret]. rewrite IH; [|lia| |done|done|simpl in Hf; lia].
    + cbn [andThen ret fmap list_fmap]. by rewrite rebase_entryHeader by done.
    + replace (Z.to_nat (off + zlen (encodeEntry e))) with (Z.to_nat off + length (encodeEntry e))%nat by lia.
      by rewrite <-drop_drop, Hc, drop_app_length.
Qed.

(** ** The end record *)

Definition endSignature : list byte := [x50; x4b; x05; x06].
Definition encodeEnd (recs dsize doff : Z) (comment : list byte) : list byte :=
  endSignature ++ replicate 4 x00 ++ lePut 2 recs ++ lePut 2 recs ++ lePut 4 dsize ++ lePut 4 doff ++
  lePut 2 (zlen comment) ++ comment.

Lemma length_encodeEnd recs dsize doff comment : zlen (encodeEnd recs dsize doff comment) = 22 + zlen comment.
Proof. unfold encodeEnd. rewrite !length_app, !length_lePut, length_replicate. simpl. lia. Qed.

Lemma parseEnd_encode recs dsize doff comment :
  0 ≤ recs < 65536 → 0 ≤ dsize < 2 ^ 32 → 0 ≤ doff < 2 ^ 32 → zlen comment < 65536 →
  parseEnd (encodeEnd recs dsize doff comment) = ret (MkDirectoryEnd 0 0 recs recs dsize doff (zlen comment) comment).
Proof.
  intros. unfold parseEnd, encodeEnd. rewrite rbSkip_app by done. cbn [orPanic]. unfold rbUint16, rbUint32.
  change (replicate 4 x00) with (lePut 2 0 ++ lePut 2 0). rewrite <-app_assoc.
  change (256 ^ Z.of_nat 2) with 65536 in *.
  do 2 (rewrite rbUint_app by done; cbn [orPanic]).
  do 2 (rewrite rbUint_app by (change (256 ^ Z.of_nat 2) with 65536; lia); cbn [orPanic]).
  do 2 (rewrite rbUint_app by (change (256 ^ Z.of_nat 4) with (2 ^ 32); lia); cbn [orPanic]).
  rewrite rbUint_app by (change (256 ^ Z.of_nat 2) with 65536; lia). cbn [orPanic].
  rewrite Z.ltb_irrefl, Nat2Z.id. by rewrite firstn_all.
Qed.

Lemma sigAt_app pre e i : 0 ≤ i → sigAt (pre ++ e) (i + zlen pre) = sigAt e i.
Proof.
  intros Hi. unfold sigAt. rewrite drop_app_ge by lia. by replace (Z.to_nat (i + zlen pre) - length pre)%nat with (Z.to_nat i) by lia.
Qed.

Lemma findSignature_app pre e fuel i :
  Z.of_nat fuel = i + 1 → i + directoryEndLen ≤ zlen e → findSignature fuel e i = Some 0 →
  findSignature (fuel + length pre) (pre ++ e) (i + zlen pre) = Some (zlen pre) ∧
  (∀ j, 0 < j ≤ i → sigAt e j = false).
Proof.
  revert i. induction fuel as [|fuel IH]; intros i Hf Hl H; [done|].
  destruct (findSignature_step fuel e i) as (n&Hn&Hlen&E); [lia|done|]. rewrite E in H. clear E.
  cbn [Nat.add]. destruct (findSignature_step (fuel + length pre) (pre ++ e) (i + zlen pre)) as (n'&Hn'&Hlen'&->); [lia|rewrite length_app; lia|].
  rewrite sigAt_app by lia.
  assert (n' = n) as ->.
  { rewrite <-Hlen, <-Hlen'. rewrite drop_app_ge by lia. do 3 f_equal. lia. }
  destruct (sigAt e i) eqn:Hsig.
  - rewrite length_app. destruct (Z.ltb_spec (zlen e) (n + directoryEndLen + i)); [done|]. injection H as ->.
    destruct (Z.ltb_spec (Z.of_nat (length pre + length e)) (n + directoryEndLen + (0 + zlen pre))); [lia|].
    split; [f_equal; lia|intros; lia].
  - destruct (decide (i = 0)) as [->|].
    { replace fuel with O in H by lia. done. }
    destruct (IH (i - 1)) as [H1 H2]; [lia|lia|done|]. split.
    + by replace (i + zlen pre - 1) with (i - 1 + zlen pre) by lia.
    + intros j Hj. destruct (decide (j = i)) as [->|]; [done|]. apply H2. lia.
Qed.

Lemma findSignature_none fuel b i :
  Z.of_nat fuel = i + 1 ∨ fuel = O → i + directoryEndLen ≤ zlen b → (∀ j, 0 ≤ j ≤ i → sigAt b j = false) →
  findSignature fuel b i = Some (-1).
Proof.
  revert i. induction fuel as [|fuel IH]; intros i Hf Hl Hno; [done|].
  destruct (findSignature_step fuel b i) as (n&_&_&->); [lia|done|]. rewrite Hno by lia.
  apply IH; [lia|lia|]. intros j Hj. apply Hno. lia.
Qed.

(** An end record whose signature is the only one in it. *)
Definition lonelyEnd (e : list byte) : Prop :=
  directoryEndLen ≤ zlen e ≤ 22 + 65535 ∧ findSignatureInBlock e = Some 0.

Lemma findSignatureInBlock_app pre e :
  lonelyEnd e → findSignatureInBlock (pre ++ e) = Some (zlen pre).
Proof.
  intros [Hl H]. unfold findSignatureInBlock in *. rewrite length_app.
  destruct (findSignature_app pre e (Z.to_nat (zlen e - directoryEndLen + 1)) (zlen e - directoryEndLen)) as [H1 _]; [lia|lia|done|].
  rewrite <-H1. f_equal; lia.
Qed.

Lemma findSignatureInBlock_tail e k :
  lonelyEnd e → (0 < k)%nat → findSignatureInBlock (drop k e) = Some (-1).
Proof.
  intros [Hl H] Hk. unfold findSignatureInBlock in *.
  destruct (findSignature_app [] e (Z.to_nat (zlen e - directoryEndLen + 1)) (zlen e - directoryEndLen)) as [_ Hno]; [lia|lia|done|].
  rewrite length_drop. apply findSignature_none; [lia|rewrite length_drop; lia|].
  intros j Hj. unfold directoryEndLen in *. unfold sigAt. rewrite drop_drop. specialize (Hno (j + Z.of_nat k) ltac:(lia)). unfold sigAt in Hno.
  by replace (k + Z.to_nat j)%nat with (Z.to_nat (j + Z.of_nat k)) by lia.
Qed.

Lemma searchTail_found pre e ra bLen :
  ReaderOf (pre ++ e) ra → lonelyEnd e → zlen e ≤ bLen ≤ zlen (pre ++ e) →
  searchTail ra (zlen (pre ++ e)) bLen = ret (Some (e, zlen pre)).
Proof.
  intros Hra He Hb. unfold searchTail. rewrite length_app in *. destruct (Z.ltb_spec bLen 0); [lia|].
  rewrite (ro_in _ _ Hra) by (rewrite ?length_app; lia). cbn [orPanic].
  rewrite take_ge by (rewrite length_drop, length_app; lia). rewrite drop_app_le by lia.
  rewrite findSignatureInBlock_app by done. cbn [orPanic]. rewrite length_drop.
  destruct (Z.leb_spec 0 (Z.of_nat (length pre - Z.to_nat (Z.of_nat (length pre + length e) - bLen)))); [|lia].
  rewrite drop_app_length' by (rewrite length_drop; lia). do 4 f_equal. lia.
Qed.

Lemma searchEnd_found pre e ra :
  ReaderOf (pre ++ e) ra → lonelyEnd e → searchEnd ra (zlen (pre ++ e)) = ret (e, zlen pre).
Proof.
  intros Hra He. unfold searchEnd. cbv zeta. pose proof He as [[Hl1 Hl2] _]. unfold directoryEndLen in Hl1.
  destruct (decide (zlen e ≤ Z.min 1024 (zlen (pre ++ e)))) as [Hs|Hs].
  { rewrite searchTail_found by (done || lia). done. }
  rewrite length_app in *.
  assert (searchTail ra (Z.of_nat (length pre + length e)) (Z.min 1024 (Z.of_nat (length pre + length e))) = ret None) as ->.
  { unfold searchTail. destruct (Z.ltb_spec (Z.min 1024 (Z.of_nat (length pre + length e))) 0); [lia|].
    rewrite (ro_in _ _ Hra) by (rewrite ?length_app; lia). cbn [orPanic].
    rewrite take_ge by (rewrite length_drop, length_app; lia). rewrite drop_app_ge by lia.
    rewrite findSignatureInBlock_tail by (done || lia). done. }
  cbn [andThen ret]. destruct (Z.eqb_spec (Z.min 1024 (Z.of_nat (length pre + length e))) (Z.of_nat (length pre + length e))); [lia|].
  rewrite <-length_app. rewrite searchTail_found by (try done; rewrite length_app; lia). done.
Qed.

(** [readDirectoryEnd] on a file that ends with an end record: [base] is what
    lies before the archive. *)
Lemma readDirectoryEnd_encode pre ra recs dsize doff comment :
  let e := encodeEnd recs dsize doff comment in
  let base := zlen pre - dsize - doff in
  ReaderOf (pre ++ e) ra → lonelyEnd e → zlen (pre ++ e) ≤ maxInt64 →
  0 ≤ recs < 65535 → 0 ≤ dsize < 2 ^ 32 → dsize ≠ 65535 → 0 ≤ doff < uint32max → zlen comment < 65536 → 0 ≤ base →
  base = 0 ∨ leUint (take 4 (drop (Z.to_nat doff) (pre ++ e))) ≠ directoryHeaderSignature →
  readDirectoryEnd ra (zlen (pre ++ e)) =
    ret (MkDirectoryEnd 0 0 recs recs dsize doff (zlen comment) comment, base).
Proof.
  intros e base Hra He Hsize Hr Hds Hds' Hdo Hc Hb Hsig. unfold readDirectoryEnd.
  rewrite searchEnd_found by done. cbn [andThen ret]. unfold e at 1.
  unfold uint32max, maxInt64 in *. rewrite parseEnd_encode by lia. cbn [andThen ret directoryRecords directorySize directoryOffset].
  destruct (Z.eqb_spec recs 65535), (Z.eqb_spec dsize 65535), (Z.eqb_spec doff (2 ^ 32 - 1)); try lia.
  cbn [orb andThen ret directoryRecords directorySize directoryOffset]. unfold maxInt64.
  destruct (Z.ltb_spec (2 ^ 63 - 1) dsize), (Z.ltb_spec (2 ^ 63 - 1) doff); try lia. cbn [orb]. cbv zeta.
  pose proof (length_encodeEnd recs dsize doff comment) as Hl. fold e in Hl.
  rewrite length_app in *. rewrite (wrapS_small 64 (zlen pre - dsize)), (wrapS_small 64 (_ - doff)) by lia.
  fold base. rewrite (wrapS_small 64 (base + doff)) by lia.
  destruct (Z.ltb_spec (base + doff) 0), (Z.leb_spec (Z.of_nat (length pre + length e)) (base + doff)); try lia. cbn [orb].
  destruct (Z.ltb_spec 0 base) as [Hpos|]; [|done]. destruct Hsig as [|Hsig]; [lia|].
  destruct (newSection_limit ra doff (Z.of_nat (length pre + length e))) as (limit&->&_&Hlim); [unfold maxInt64; lia..|].
  rewrite Hlim by lia.
  destruct (readDirectoryHeader_fails _ ra doff (Z.of_nat (length pre + length e)) Hra) as (err&->&_);
    [lia|rewrite length_app; lia|done|]. done.
Qed.
