(* ===== verification/ZipMain.v ===== *)
(** * ziputil: properties of tables of contents *)
From S2P Require Import Prelude.
From S2P Require Import GoIO.
From S2P Require Import ReaderUtil.
From S2P Require Import Utf8.
From S2P Require Import Zip.
From S2P Require Import ZipLaws.
From S2P Require Import ZipArchive.

(** ** Any input *)

(** C20. For every file size and every candidate table of contents [ParseTOC]
    returns: it does not panic, whatever the bytes are, and does not loop. *)
Theorem ParseTOC_always_returns (size : Z) (toc : list byte) :
  - 2 ^ 63 ≤ size - zlen toc → size < 2 ^ 63 → ∃ r, ParseTOC size toc = Some r.
Proof.
  intros Hlo Hhi. unfold ParseTOC. rewrite (wrapS_small 64) by lia. cbv zeta.
  destruct (Z.ltb_spec (size - zlen toc) 0) as [|Hnz]; [by eexists|].
  set (nz := size - zlen toc) in *. pose proof (tocReader_reads nz toc Hnz ltac:(lia)) as Hra.
  pose proof (length_tocContents nz toc Hnz) as Hl. assert (size = zlen (tocContents nz toc)) as Hs by lia. clearbody nz. subst size.
  destruct (wp_elim _ _ (readDirectoryEnd_total _ _ Hra ltac:(unfold maxInt64; lia))) as ([[d base]|e]&->&Hr); [|by eexists].
  cbn [andThen]. destruct Hr as [Hd Hb]. destruct (Z.ltb_spec (i64 (base + directoryOffset d)) 0); [by eexists|].
  assert (sr_limit (newSection (tocReader nz toc) 0 (zlen (tocContents nz toc))) = nz + zlen toc) as ->.
  { unfold newSection, maxInt64. cbn [sr_limit]. rewrite wrapS_small by lia. destruct (Z.leb_spec 0 (2 ^ 63 - 1 - zlen (tocContents nz toc))); lia. }
  destruct (wp_elim _ _ (readHeaders_total nz toc (tocReader nz toc) base (i64 (base + directoryOffset d)) (length toc + 2) Hra Hnz ltac:(lia) ltac:(lia)))
    as ([fs|e]&->&_); cbn [andThen]; [|by eexists]. destruct (negb _); by eexists.
Qed.

Lemma ParseTOC_always_returns_witness :
  ∃ r, ParseTOC 100 [x50; x4b; x05; x06] = Some r.
Proof. apply (ParseTOC_always_returns 100 [x50; x4b; x05; x06]); vm_compute; congruence. Defined.

(** Behind the bound on sizes: the subtraction wraps and the buffer's length
    is negative. *)
Example ParseTOC_panics_on_smallest_size : ParseTOC (- 2 ^ 63) [x00] = None.
Proof. reflexivity. Qed.

(** [ZipTOCSize] returns for every input, and a size it reports is that of
    a nonempty suffix of the file. *)
Lemma ZipTOCSize_within_file (size : Z) (zipFooter : list byte) :
  - 2 ^ 63 ≤ size - zlen zipFooter → size < 2 ^ 63 →
  wp (ZipTOCSize size zipFooter) (λ '(tocSize, ok),
    if ok : bool then 0 < tocSize ≤ size else tocSize = 0).
Proof.
  intros Hlo Hhi. unfold ZipTOCSize. rewrite (wrapS_small 64 (size - zlen zipFooter)) by lia. cbv zeta.
  destruct (Z.ltb_spec (size - zlen zipFooter) 0) as [|Hnz]; [done|].
  set (nz := size - zlen zipFooter) in *. pose proof (tocReader_reads nz zipFooter Hnz ltac:(lia)) as Hra.
  pose proof (length_tocContents nz zipFooter Hnz) as Hl. assert (size = zlen (tocContents nz zipFooter)) as Hs by lia.
  rewrite Hs. destruct (wp_elim _ _ (readDirectoryEnd_total _ _ Hra ltac:(unfold maxInt64; lia))) as ([[d base]|e]&->&Hr); [|done].
  cbn [mbind option_bind]. destruct Hr as [Hd Hb]. rewrite (wrapS_small 64 (_ - _)) by lia.
  destruct (_ || _) eqn:E; [done|]. apply orb_false_elim in E as [?%Z.ltb_ge ?%Z.ltb_ge]. simpl. lia.
Qed.

Lemma ZipTOCSize_within_file_witness :
  wp (ZipTOCSize 22 ([x50; x4b; x05; x06] ++ replicate 18 x00)) (λ '(tocSize, ok),
    if ok : bool then 0 < tocSize ≤ 22 else tocSize = 0).
Proof. apply ZipTOCSize_within_file; vm_compute; congruence. Defined.

(** ** detectUTF8 *)

(** The runes that [detectUTF8] does not take as they are. *)
Definition needsUTF8 (r : Z) : Prop := r < 32 ∨ 125 < r ∨ r = 92.

Lemma needsUTF8_spec r : (r <? 32) || (125 <? r) || (r =? 92) = true ↔ needsUTF8 r.
Proof. unfold needsUTF8. rewrite !orb_true_iff, !Z.ltb_lt, Z.eqb_eq. tauto. Qed.

Lemma encodeRunes_cons r rs : encodeRunes (r :: rs) = encodeRune r ++ encodeRunes rs.
Proof. done. Qed.

Lemma detectLoop_spec fuel s req :
  (length s < fuel)%nat →
  match detectLoop fuel s req with
  | Some (true, req') => ∃ rs, Forall (λ r, validRune r = true) rs ∧ s = encodeRunes rs ∧
      (req' = true ↔ req = true ∨ Exists needsUTF8 rs)
  | Some (false, req') => req' = false ∧ ∀ rs, Forall (λ r, validRune r = true) rs → s ≠ encodeRunes rs
  | None => False
  end.
Proof.
  revert s req. induction fuel as [|fuel IH]; intros s req Hf; [lia|]. cbn [detectLoop].
  destruct s as [|b s].
  { exists []. split_and!; [done..|]. rewrite Exists_nil. tauto. }
  set (t := b :: s) in *. destruct (decodeRune t) as [r n] eqn:E.
  assert (t ≠ []) as Ht by done. clearbody t.
  pose proof (decode_width t r n Ht E) as Hw.
  assert (length (drop (Z.to_nat n) t) < fuel)%nat as Hlt by (rewrite length_drop; destruct t; [done|]; simpl in *; lia).
  assert (∀ rs, Forall (λ r, validRune r = true) rs → t = encodeRunes rs →
    ∃ rs', rs = r :: rs' ∧ validRune r = true ∧ n = zlen (encodeRune r) ∧ drop (Z.to_nat n) t = encodeRunes rs') as Hinv.
  { intros rs Hrs Het. destruct Hrs as [|r0 rs Hr0 Hrs]; [done|]. rewrite encodeRunes_cons in Het.
    rewrite Het, decode_encode in E by done. injection E as -> <-. exists rs. split_and!; try done.
    by rewrite Het, Nat2Z.id, drop_app_length. }
  assert (∀ req2, (validRune r = true ∧ n = zlen (encodeRune r) ∧ t = encodeRune r ++ drop (Z.to_nat n) t) →
    (req2 = true ↔ req = true ∨ needsUTF8 r) →
    match detectLoop fuel (drop (Z.to_nat n) t) req2 with
    | Some (true, req') => ∃ rs, Forall (λ r, validRune r = true) rs ∧ t = encodeRunes rs ∧
        (req' = true ↔ req = true ∨ Exists needsUTF8 rs)
    | Some (false, req') => req' = false ∧ ∀ rs, Forall (λ r, validRune r = true) rs → t ≠ encodeRunes rs
    | None => False
    end) as Hrec.
  { intros req2 (Hv&Hn&Het) Hreq. specialize (IH _ req2 Hlt). destruct (detectLoop _ _ _) as [[[] req']|]; [| |done].
    - destruct IH as (rs&Hrs&Hds&Hreq'). exists (r :: rs). split_and!; [by constructor| |].
      + by rewrite encodeRunes_cons, <-Hds.
      + rewrite Exists_cons. tauto.
    - destruct IH as [-> Hno]. split; [done|]. intros rs Hrs Hteq.
      destruct (Hinv rs Hrs Hteq) as (rs'&->&_&_&Hd). apply (Hno rs'); [by inversion Hrs|done]. }
  destruct (decode_valid t r n Ht E) as [[-> ->]|Hok].
  - change (detectLoop fuel _ true) with (detectLoop fuel (drop (Z.to_nat 1) t) true). cbn [negb orb]. simpl.
    split; [done|]. intros rs Hrs Hteq. by destruct (Hinv rs Hrs Hteq) as (_&_&_&Hbad&_).
  - destruct ((r <? 32) || (125 <? r) || (r =? 92)) eqn:Hneed.
    + apply needsUTF8_spec in Hneed. destruct (negb (validRune r) || _) eqn:Hbad.
      * exfalso. destruct Hok as (Hv&Hn&_). rewrite Hv in Hbad. cbn [negb orb] in Hbad.
        apply andb_prop in Hbad as [->%Z.eqb_eq ->%Z.eqb_eq]. done.
      * apply Hrec; [done|]. tauto.
    + apply Hrec; [done|]. rewrite <-needsUTF8_spec. rewrite Hneed. naive_solver.
Qed.

(** [detectUTF8] reports [valid] exactly for the encodings of sequences of
    Unicode scalar values, and then [require] exactly if one of them is not a
    character that the legacy encodings share. *)
Theorem detectUTF8_correct (s : list byte) :
  match detectUTF8 s with
  | Some (true, require) => ∃ rs, Forall (λ r, validRune r = true) rs ∧ s = encodeRunes rs ∧
      (require = true ↔ Exists needsUTF8 rs)
  | Some (false, require) => require = false ∧ ∀ rs, Forall (λ r, validRune r = true) rs → s ≠ encodeRunes rs
  | None => False
  end.
Proof.
  pose proof (detectLoop_spec (S (length s)) s false ltac:(lia)) as H. unfold detectUTF8.
  destruct (detectLoop _ _ _) as [[[] req]|]; [|done..].
  destruct H as (rs&Hrs&Hs&Hreq). exists rs. split_and!; [done..|]. rewrite Hreq. naive_solver.
Qed.

(** ** Well-formed archives *)

(** An archive of the entries [es]: any bytes [prefix] in front (an installer,
    say), the files' data [body], the central directory and the end record,
    whose offsets are relative to the end of [prefix]. *)
Definition endOf (body : list byte) (es : list entry) (comment : list byte) : list byte :=
  encodeEnd (zlen es) (zlen (encodeDirectory es)) (zlen body) comment.
Definition archiveFile (prefix body : list byte) (es : list entry) (comment : list byte) : list byte :=
  prefix ++ body ++ encodeDirectory es ++ endOf body es comment.

Record WellFormed (prefix body : list byte) (es : list entry) (comment : list byte) : Prop := {
  wf_entries : Forall (λ e, ValidEntry e ∧ en_offset e + zlen prefix < 2 ^ 63) es;
  wf_records : zlen es < 65535;
  wf_dsize : zlen (encodeDirectory es) < 2 ^ 32;
  wf_dsize' : zlen (encodeDirectory es) ≠ 65535;
  wf_body : zlen body < uint32max;
  wf_comment : zlen comment < 65536;
  wf_end : findSignatureInBlock (endOf body es comment) = Some 0;
  wf_size : zlen (archiveFile prefix body es comment) ≤ maxInt64;
  (** no directory header where the unshifted offset points *)
  wf_prefix : prefix = [] ∨
    leUint (take 4 (drop (length body) (archiveFile prefix body es comment))) ≠ directoryHeaderSignature;
}.

Section archives.
Context (prefix body : list byte) (es : list entry) (comment : list byte)
  (Hwf : WellFormed prefix body es comment).
Abbreviation file := (archiveFile prefix body es comment).
Abbreviation end_ := (endOf body es comment).

Lemma end_lonely : lonelyEnd end_.
Proof using Hwf.
  split; [|apply Hwf]. unfold endOf. rewrite length_encodeEnd. pose proof (wf_comment _ _ _ _ Hwf). unfold directoryEndLen. lia.
Qed.

(** A suffix of the file behind zeros. *)
Lemma tocContents_file nz :
  0 ≤ nz ≤ zlen (prefix ++ body ++ encodeDirectory es) →
  tocContents nz (drop (Z.to_nat nz) file) =
    (replicate (Z.to_nat nz) x00 ++ drop (Z.to_nat nz) (prefix ++ body ++ encodeDirectory es)) ++ end_.
Proof using.
  intros Hnz. unfold tocContents, archiveFile. rewrite !app_assoc. rewrite drop_app_le.
  - by rewrite <-!app_assoc.
  - rewrite !length_app in *. lia.
Qed.

Lemma length_toc nz : 0 ≤ nz ≤ zlen file → zlen (drop (Z.to_nat nz) file) = zlen file - nz.
Proof using. intros. rewrite length_drop. lia. Qed.

Lemma drop_tocContents nz off :
  0 ≤ nz ≤ zlen file → nz ≤ off → drop (Z.to_nat off) (tocContents nz (drop (Z.to_nat nz) file)) = drop (Z.to_nat off) file.
Proof using.
  intros Hnz Hoff. unfold tocContents. rewrite drop_app_ge by (rewrite length_replicate; lia).
  rewrite drop_drop, length_replicate. f_equal. lia.
Qed.

Lemma archive_size : zlen file < 2 ^ 63.
Proof using Hwf. pose proof (wf_size _ _ _ _ Hwf). unfold maxInt64 in *. lia. Qed.

(** The end record, found in any suffix that holds it. *)
Lemma readDirectoryEnd_file nz :
  0 ≤ nz ≤ zlen (prefix ++ body ++ encodeDirectory es) →
  readDirectoryEnd (tocReader nz (drop (Z.to_nat nz) file)) (zlen file) =
    ret (MkDirectoryEnd 0 0 (zlen es) (zlen es) (zlen (encodeDirectory es)) (zlen body) (zlen comment) comment,
         zlen prefix).
Proof using Hwf.
  intros Hnz.
  assert (zlen file = zlen (prefix ++ body ++ encodeDirectory es) + zlen end_) as Hlf.
  { unfold archiveFile. rewrite !length_app. lia. }
  assert (0 ≤ nz ≤ zlen file) as Hnz' by lia. pose proof archive_size as Hsize.
  assert (ReaderOf (tocContents nz (drop (Z.to_nat nz) file)) (tocReader nz (drop (Z.to_nat nz) file))) as Hra
    by (apply tocReader_reads; [lia|rewrite length_toc; lia]).
  pose proof (length_tocContents nz (drop (Z.to_nat nz) file) (proj1 Hnz)) as Hlc. rewrite length_toc in Hlc by done.
  assert (zlen (replicate (Z.to_nat nz) x00 ++ drop (Z.to_nat nz) (prefix ++ body ++ encodeDirectory es)) =
          zlen (prefix ++ body ++ encodeDirectory es)) as Hlp.
  { rewrite length_app, length_replicate, length_drop. lia. }
  set (pre := replicate _ _ ++ _) in *.
  assert (zlen pre - zlen (encodeDirectory es) - zlen body = zlen prefix) as Hbase.
  { rewrite Hlp, !length_app. lia. }
  assert (tocContents nz (drop (Z.to_nat nz) file) = pre ++ end_) as Htc by by apply tocContents_file.
  assert (prefix = [] ∨ leUint (take 4 (drop (Z.to_nat (zlen body)) (pre ++ end_))) ≠ directoryHeaderSignature) as Hsig.
  { destruct (wf_prefix _ _ _ _ Hwf) as [|Hs]; [by left|right]. rewrite <-Htc.
    destruct (decide (zlen body < nz)); [by apply sig_zero; lia|]. rewrite drop_tocContents by lia. by rewrite Nat2Z.id. }
  rewrite Htc in Hra, Hlc. replace (zlen file) with (zlen (pre ++ end_)) by lia.
  rewrite <-Hbase. apply readDirectoryEnd_encode; fold (endOf body es comment); rewrite ?Hbase; try apply Hwf; try lia.
  - done.
  - apply end_lonely.
  - pose proof (wf_size _ _ _ _ Hwf). lia.
  - pose proof (wf_records _ _ _ _ Hwf). lia.
  - pose proof (wf_dsize _ _ _ _ Hwf). lia.
  - pose proof (wf_body _ _ _ _ Hwf). lia.
  - destruct Hsig as [->|]; [by left|by right].
Qed.

Lemma length_es : (length es ≤ length (encodeDirectory es))%nat.
Proof using.
  clear. induction es as [|e l IH]; [done|]. change (encodeDirectory (e :: l)) with (encodeEntry e ++ encodeDirectory l).
  rewrite length_app. pose proof (length_encodeEntry e). simpl. lia.
Qed.

Lemma ParseTOC_file nz :
  0 ≤ nz ≤ zlen (prefix ++ body) →
  ParseTOC (zlen file) (drop (Z.to_nat nz) file) =
    ret (MkZipReader (entryHeader (zlen prefix) <$> es) (zlen prefix) comment).
Proof using Hwf.
  intros Hnz. pose proof archive_size as Hsize.
  assert (zlen file = zlen prefix + zlen body + zlen (encodeDirectory es) + zlen end_) as Hlf.
  { unfold archiveFile. rewrite !length_app. lia. }
  rewrite length_app in Hnz.
  unfold ParseTOC. rewrite length_toc by lia. replace (zlen file - (zlen file - nz)) with nz by lia.
  rewrite wrapS_small by lia. cbv zeta. destruct (Z.ltb_spec nz 0); [lia|].
  rewrite readDirectoryEnd_file by (rewrite !length_app; lia). cbn [andThen ret directoryOffset directoryRecords de_comment].
  rewrite (wrapS_small 64) by lia. destruct (Z.ltb_spec (zlen prefix + zlen body) 0); [lia|].
  rewrite (readHeaders_encode (tocContents nz (drop (Z.to_nat nz) file)) _ (zlen prefix) _ es end_).
  - cbn [andThen ret]. rewrite length_map, Z.eqb_refl. done.
  - apply tocReader_reads; [lia|rewrite length_toc; lia].
  - lia.
  - lia.
  - unfold newSection, maxInt64. cbn [sr_limit]. rewrite length_tocContents, length_toc by lia.
    rewrite wrapS_small by lia. destruct (Z.leb_spec 0 (2 ^ 63 - 1 - zlen file)); lia.
  - apply Hwf.
  - rewrite drop_tocContents by lia. unfold archiveFile. rewrite !app_assoc, <-(app_assoc (prefix ++ body)).
    by rewrite drop_app_length' by (rewrite length_app; lia).
  - done.
  - vm_compute. done.
  - pose proof length_es. pose proof (length_toc nz ltac:(lia)). lia.
Qed.
End archives.

(** C4. Let a file hold a well-formed archive: any prefix, the data, a central
    directory of entries with their zip64 and timestamp fields, and an end
    record with a comment. Given the file's size and any suffix of the file that
    holds the directory, [ParseTOC] returns the header of every entry in order,
    with 64-bit sizes and the offset of its local header in the file, the length
    of the prefix and the comment. *)
Theorem ParseTOC_reads_archive (prefix body : list byte) (es : list entry) (comment : list byte) (nz : Z) :
  WellFormed prefix body es comment → 0 ≤ nz ≤ zlen (prefix ++ body) →
  let file := archiveFile prefix body es comment in
  ParseTOC (zlen file) (drop (Z.to_nat nz) file) =
    Some (Ok (MkZipReader (entryHeader (zlen prefix) <$> es) (zlen prefix) comment)).
Proof. intros Hwf Hnz file. by apply ParseTOC_file. Qed.

(** From any suffix of such a file that holds its end record, [ZipTOCSize]
    computes the length of the directory and the end record, and [ParseTOC] of
    the suffix of that length returns all the entries. *)
Theorem ZipTOCSize_suffices (prefix body : list byte) (es : list entry) (comment : list byte) (nz : Z) :
  WellFormed prefix body es comment → 0 ≤ nz ≤ zlen (prefix ++ body ++ encodeDirectory es) →
  let file := archiveFile prefix body es comment in
  ∃ tocSize, ZipTOCSize (zlen file) (drop (Z.to_nat nz) file) = Some (tocSize, true) ∧
    tocSize = zlen (encodeDirectory es ++ endOf body es comment) ∧
    ParseTOC (zlen file) (drop (Z.to_nat (zlen file - tocSize)) file) =
      Some (Ok (MkZipReader (entryHeader (zlen prefix) <$> es) (zlen prefix) comment)).
Proof.
  intros Hwf Hnz file. pose proof (archive_size _ _ _ _ Hwf) as Hsize.
  assert (zlen file = zlen prefix + zlen body + zlen (encodeDirectory es) + zlen (endOf body es comment)) as Hlf.
  { unfold file, archiveFile. rewrite !length_app. lia. }
  exists (zlen (encodeDirectory es ++ endOf body es comment)). split_and!; [|done|].
  - unfold ZipTOCSize. rewrite !length_app in Hnz. fold file in Hsize. assert (zlen (drop (Z.to_nat nz) file) = zlen file - nz) as -> by (apply length_toc; fold file; lia).
    replace (zlen file - (zlen file - nz)) with nz by lia. rewrite (wrapS_small 64 nz) by lia. cbv zeta.
    destruct (Z.ltb_spec nz 0); [lia|].
    unfold file. rewrite readDirectoryEnd_file by (try done; rewrite !length_app; lia). fold file.
    cbn [mbind option_bind ret directoryOffset]. rewrite (wrapS_small 64 (_ + _)) by lia.
    replace (zlen file - (zlen prefix + zlen body)) with (zlen (encodeDirectory es ++ endOf body es comment)) by (rewrite length_app; lia).
    rewrite wrapS_small by (rewrite ?length_app; lia).
    destruct (Z.ltb_spec (zlen (encodeDirectory es ++ endOf body es comment)) 0) as [|_]; [lia|].
    destruct (Z.ltb_spec (zlen file) (zlen (encodeDirectory es ++ endOf body es comment))) as [Hlt|_]; [rewrite length_app in Hlt; lia|].
    done.
  - apply ParseTOC_file; [done|]. fold file. rewrite !length_app. lia.
Qed.

(** An archive behind two other bytes, with a 64-bit entry. *)
Definition demoEntry (name : list byte) (size : Z) (unix : option Z) : entry :=
  MkEntry name [x63] 20 20 0 0 0 33 7 size size 0 1 unix.
Definition demoEntries : list entry := [demoEntry [x61] 5 None; demoEntry [x62; x2f] (2 ^ 33) (Some 1000000000)].

Lemma demo_wellFormed : WellFormed [x00; x01] [x02; x03; x04] demoEntries [x68; x69].
Proof.
  split.
  - repeat constructor; vm_compute; congruence.
  - reflexivity.
  - reflexivity.
  - vm_compute. congruence.
  - reflexivity.
  - reflexivity.
  - vm_compute. reflexivity.
  - vm_compute. congruence.
  - right. vm_compute. congruence.
Qed.

Lemma ParseTOC_reads_archive_witness :
  let file := archiveFile [x00; x01] [x02; x03; x04] demoEntries [x68; x69] in
  ParseTOC (zlen file) (drop 3 file) =
    Some (Ok (MkZipReader (entryHeader 2 <$> demoEntries) 2 [x68; x69])).
Proof.
  apply (ParseTOC_reads_archive [x00; x01] [x02; x03; x04] demoEntries [x68; x69] 3).
  - apply demo_wellFormed.
  - vm_compute. intuition congruence.
Defined.

Lemma ZipTOCSize_suffices_witness :
  let file := archiveFile [x00; x01] [x02; x03; x04] demoEntries [x68; x69] in
  ∃ tocSize, ZipTOCSize (zlen file) (drop 100 file) = Some (tocSize, true) ∧
    tocSize = zlen (encodeDirectory demoEntries ++ endOf [x02; x03; x04] demoEntries [x68; x69]) ∧
    ParseTOC (zlen file) (drop (Z.to_nat (zlen file - tocSize)) file) =
      Some (Ok (MkZipReader (entryHeader 2 <$> demoEntries) 2 [x68; x69])).
Proof.
  apply (ZipTOCSize_suffices [x00; x01] [x02; x03; x04] demoEntries [x68; x69] 100).
  - apply demo_wellFormed.
  - vm_compute. intuition congruence.
Defined.

(** ** Where the answer from a footer is not the answer from the file *)

(** An archive whose end record understates the size of the directory. The
    whole file shows the first header at the recorded offset, so [ParseTOC]
    reads it; from the footer alone [ZipTOCSize] reports a suffix that cuts the
    directory, and [ParseTOC] of that suffix fails. *)
Definition badSizeFile : list byte :=
  [x02; x03] ++ encodeEntry (demoEntry [x61] 5 None) ++ encodeEnd 1 40 2 [].

Example footer_trusts_directory_size :
  ZipTOCSize (zlen badSizeFile) badSizeFile = Some (zlen badSizeFile - 2, true) ∧
  (∃ r, ParseTOC (zlen badSizeFile) badSizeFile = ret r) ∧
  ZipTOCSize (zlen badSizeFile) (drop 50 badSizeFile) = Some (62, true) ∧
  ParseTOC (zlen badSizeFile) (drop (Z.to_nat (zlen badSizeFile - 62)) badSizeFile)
  = fail (Errorf "zip: wrong number of directory entries: got %d, want %d (mod uint16)").
Proof.
  split_and!.
  - vm_compute. reflexivity.
  - eexists. vm_compute. reflexivity.
  - vm_compute. reflexivity.
  - vm_compute. reflexivity.
Qed.

(** A 22-byte footer of a zip64 archive of 5 GB does not show the zip64
    locator: the placeholders are taken for the directory's size. *)
Example footer_takes_placeholder_for_size :
  ZipTOCSize 5000000000 (encodeEnd 65535 uint32max uint32max []) = Some (uint32max + 22, true).
Proof. vm_compute. reflexivity. Qed.
