(* ===== verification/ZipFile.v ===== *)
(** * ziputil: reading one file of a zip archive

    [OpenWithReader], [skipHeader], [readDataDescriptor] and the
    [checksumReader] of ziputil.go, over a raw reader that is shared by the
    body, the data descriptor and the closing calls. Decompression is a
    parameter; stored files are read as they are. *)
From S2P Require Import Prelude.
From S2P Require Import GoIO.
From S2P Require Import Zip.
From S2P Require Import ZipLaws.

(** ** hash/crc32 *)

Definition crcMask : Z := 2 ^ 32 - 1.

Definition crcBit (c : Z) : Z :=
  if Z.testbit c 0 then Z.lxor (Z.shiftr c 1) 3988292384 (* 0xedb88320 *) else Z.shiftr c 1.
Definition crcByte (c : Z) (b : byte) : Z := Nat.iter 8 crcBit (Z.lxor c (b2z b)).

(** [crc32.Update(crc, crc32.IEEETable, p)] *)
Definition crcUpdate (crc : Z) (p : list byte) : Z :=
  Z.lxor crcMask (foldl crcByte (Z.lxor crcMask crc) p).
Definition crc32 (p : list byte) : Z := crcUpdate 0 p.

Example crc32_check : crc32 [x31; x32; x33; x34; x35; x36; x37; x38; x39] = 3421780262.
Proof. reflexivity. Qed.

(** ** Readers *)

(** A [Read] of at most [n] bytes from an [io.LimitedReader] over [s] with [N]
    bytes left. *)
Definition limitedRead (s : stream) (N n : Z) : list byte * option error * stream * Z :=
  if N <=? 0 then ([], Some EOF, s, N)
  else
    let n := if N <? n then N else n in
    let '(x, err, s) := streamRead s n in (x, err, s, N - zlen x).

(** [io.Copy(io.Discard, io.LimitReader(s, N))], through a buffer of 8192
    bytes. *)
Fixpoint discard (fuel : nat) (s : stream) (N written : Z) : option (Z * option error * stream) :=
  match fuel with
  | O => None
  | S fuel =>
      let '(x, err, s, N) := limitedRead s N 8192 in
      let written := written + zlen x in
      match err with
      | Some e => Some (written, if bool_decide (e = EOF) then None else Some e, s)
      | None => discard fuel s N written
      end
  end.

(** [io.CopyN(io.Discard, s, n)] *)
Definition discardN (s : stream) (n : Z) : option (Z * option error * stream) :=
  '(written, err, s) ← discard (length (chunks s) + Z.to_nat (n / 8192) + 3) s n 0;
  Some (written,
        if written =? n then None
        else if (written <? n) && bool_decide (err = None) then Some EOF
        else err, s).

(** An [io.ReadCloser] given by the caller; closing it is only recorded. *)
Record rawReader := RawReader { raw_s : stream; raw_closed : bool }.
Definition closeRaw (r : rawReader) : rawReader := RawReader (raw_s r) true.
Definition withStream (r : rawReader) (s : stream) : rawReader := RawReader s (raw_closed r).

(** ** Headers and descriptors in the raw data *)

Definition hasDataDesc (h : FileHeader) : bool := negb (Z.land (Flags h) 8 =? 0).

Definition skipHeader (s : stream) : option (result Z * stream) :=
  '(buf, err, s) ← ReadFull s fileHeaderLen;
  match err with
  | Some e => Some (Err e, s)
  | None =>
      '(sig, b) ← rbUint32 buf;
      if negb (sig =? fileHeaderSignature) then Some (Err ErrFormat, s)
      else
        b ← rbSkip 22 b;
        '(filenameLen, b) ← rbUint16 b;
        '(extraLen, b) ← rbUint16 b;
        let variableLen := filenameLen + extraLen in
        '(_, err, s) ← discardN s variableLen;
        match err with
        | Some e => Some (Err e, s)
        | None => Some (Ok variableLen, s)
        end
  end.

Definition readDataDescriptor (s : stream) (f : FileHeader) : option (option error * stream) :=
  '(buf, err, s) ← ReadFull s 4;
  match err with
  | Some e => Some (Some e, s)
  | None =>
      '(sig, _) ← rbUint32 buf;
      let kept := if negb (sig =? dataDescriptorSignature) then buf else [] in
      '(buf, err, s) ← ReadFull s (12 - zlen kept);
      match err with
      | Some e => Some (Some e, s)
      | None =>
          '(crc, _) ← rbUint32 (kept ++ buf);
          Some (if negb (crc =? CRC32 f) then Some ErrChecksum else None, s)
      end
  end.

(** ** The checked reader *)

Section checksum_reader.
  (** A decompressor of [compress/flate]: its state when new (or reset), a
      [Read] of at most [n] bytes, which reads from the limited raw reader,
      and the result of its [Close]. *)
  Context {D : Type} (newFlate : D)
    (flateRead : D → stream → Z → Z → list byte * option error * D * stream * Z)
    (flateClose : D → option error).

(** The reader of a file's body, with the [N] of its [io.LimitedReader]:
    [io.NopCloser] for stored files, [pooledFlateReader] for deflated ones,
    whose [fr] is nil once it is closed. *)
Inductive bodyReader :=
| Stored (N : Z)
| Deflated (fr : option D) (N : Z).

Definition newFlateReader (compSize : Z) : bodyReader := Deflated (Some newFlate) compSize.

Definition bodyRead (b : bodyReader) (s : stream) (n : Z) : list byte * option error * bodyReader * stream :=
  match b with
  | Stored N => let '(x, err, s, N) := limitedRead s N n in (x, err, Stored N, s)
  | Deflated None N => ([], Some (Errorf "Read after Close"), b, s)
  | Deflated (Some d) N =>
      let '(x, err, d, s, N) := flateRead d s N n in (x, err, Deflated (Some d) N, s)
  end.

Definition bodyClose (b : bodyReader) : option error * bodyReader :=
  match b with
  | Stored _ | Deflated None _ => (None, b)
  | Deflated (Some d) N => (flateClose d, Deflated None N)
  end.

Record checksumReader := ChecksumReader {
  cr_body : bodyReader;
  cr_raw : rawReader;
  cr_hash : Z;
  cr_nread : Z;
  cr_desr : bool;            (* desr is the raw reader, or nil *)
  cr_f : FileHeader;
  cr_err : option error }.

Definition setErr (r : checksumReader) (err : option error) : option error * checksumReader :=
  match cr_err r, err with
  | Some e, _ => (Some e, r)
  | None, None => (None, r)
  | None, Some e =>
      (Some e, ChecksumReader (cr_body r) (closeRaw (cr_raw r)) (cr_hash r) (cr_nread r)
                 (cr_desr r) (cr_f r) (Some e))
  end.

(** [r.Read(b)] for a [b] of [n] bytes. *)
Definition checksumRead (r : checksumReader) (n : Z) : option (list byte * option error * checksumReader) :=
  match cr_err r with
  | Some e => Some ([], Some e, r)
  | None =>
      let '(x, err, body, s) := bodyRead (cr_body r) (raw_s (cr_raw r)) n in
      let r := ChecksumReader body (withStream (cr_raw r) s) (crcUpdate (cr_hash r) x)
                 (u64 (cr_nread r + zlen x)) (cr_desr r) (cr_f r) (cr_err r) in
      if UncompressedSize64 (cr_f r) <? cr_nread r then
        let '(err, r) := setErr r (Some ErrFormat) in Some ([], err, r)
      else
        match err with
        | None => Some (x, None, r)
        | Some e =>
            if bool_decide (e = EOF) then
              if negb (cr_nread r =? UncompressedSize64 (cr_f r)) then
                let '(err, r) := setErr r (Some ErrUnexpectedEOF) in Some ([], err, r)
              else if cr_desr r then
                '(err1, s) ← readDataDescriptor (raw_s (cr_raw r)) (cr_f r);
                let r := ChecksumReader (cr_body r) (withStream (cr_raw r) s) (cr_hash r)
                           (cr_nread r) (cr_desr r) (cr_f r) (cr_err r) in
                let e :=
                  match err1 with
                  | Some e1 => if bool_decide (e1 = EOF) then ErrUnexpectedEOF else e1
                  | None => if negb (cr_hash r =? CRC32 (cr_f r)) then ErrChecksum else EOF
                  end in
                let '(err, r) := setErr r (Some e) in Some (x, err, r)
              else
                let e := if negb (CRC32 (cr_f r) =? 0) && negb (cr_hash r =? CRC32 (cr_f r))
                         then ErrChecksum else EOF in
                let '(err, r) := setErr r (Some e) in Some (x, err, r)
            else
              let '(err, r) := setErr r (Some e) in Some (x, err, r)
        end
  end.

Definition openReadSlop : Z := 512.

Definition checksumClose (r : checksumReader) : option (option error * checksumReader) :=
  '(_, _, s) ← discardN (raw_s (cr_raw r)) openReadSlop;
  let '(err, body) := bodyClose (cr_body r) in
  Some (err, ChecksumReader body (closeRaw (withStream (cr_raw r) s)) (cr_hash r) (cr_nread r)
               (cr_desr r) (cr_f r) (cr_err r)).

(** [OpenWithReader(h, getRawReader)], with the raw reader as it is left when
    the call fails. *)
Definition OpenWithReader (h : FileHeader) (getRawReader : Z → Z → result stream) :
    option (result checksumReader * option rawReader) :=
  let decomp := if Method h =? 0 then Some Stored
                else if Method h =? 8 then Some newFlateReader else None in
  match decomp with
  | None => Some (Err (Errorf "unsupported storage method %d"), None)
  | Some decomp =>
      let compSize := i64 (CompressedSize64 h) in
      let descSize := if hasDataDesc h then dataDescriptorLen else 0 in
      let readSize := i64 (i64 (compSize + descSize) + fileHeaderLen) in
      let fileHeaderVariableLen := zlen (Name h) + zlen (Extra h) + openReadSlop in
      let readSize := i64 (readSize + fileHeaderVariableLen) in
      match getRawReader (HeaderOffset h) readSize with
      | Err _ => Some (Err (Errorf "opening raw reader: %w"), None)
      | Ok s =>
          '(variableLen, s) ← skipHeader s;
          match variableLen with
          | Err e => Some (Err e, Some (closeRaw (RawReader s false)))
          | Ok variableLen =>
              if fileHeaderVariableLen <? variableLen then
                Some (Err (Errorf "file header length of %d was greater than expected %d"),
                      Some (closeRaw (RawReader s false)))
              else
                Some (Ok (ChecksumReader (decomp compSize) (RawReader s false) 0 0 (hasDataDesc h) h None),
                      None)
          end
      end
  end.

(** ** Clients *)

(** A sequence of [Read] calls with buffers of the given lengths: what they
    deliver, and the last error. *)
Fixpoint checksumReads (r : checksumReader) (ns : list Z) : option (list byte * checksumReader) :=
  match ns with
  | [] => Some ([], r)
  | n :: ns =>
      '(x, _, r) ← checksumRead r n;
      '(xs, r) ← checksumReads r ns;
      Some (x ++ xs, r)
  end.

(** [Read] calls with buffers of [n] bytes up to the first error. *)
Fixpoint readToEOF (fuel : nat) (r : checksumReader) (n : Z) : option (list byte * error) :=
  match fuel with
  | O => None
  | S fuel =>
      '(x, err, r) ← checksumRead r n;
      match err with
      | Some e => Some (x, e)
      | None => '(xs, e) ← readToEOF fuel r n; Some (x ++ xs, e)
      end
  end.

End checksum_reader.

Arguments Stored {D} N.
Arguments Deflated {D} fr N.
Arguments ChecksumReader {D} _ _ _ _ _ _ _.
Arguments cr_body {D} _.
Arguments cr_raw {D} _.
Arguments cr_hash {D} _.
Arguments cr_nread {D} _.
Arguments cr_desr {D} _.
Arguments cr_f {D} _.
Arguments cr_err {D} _.
Arguments setErr {D} _ _.

(** ** Lemmas on the parts *)

Lemma crcUpdate_app c a b : crcUpdate (crcUpdate c a) b = crcUpdate c (a ++ b).
Proof.
  unfold crcUpdate. by rewrite foldl_app, <-(Z.lxor_assoc crcMask crcMask), Z.lxor_nilpotent, Z.lxor_0_l.
Qed.

Lemma streamRead_zlen s n x err s' : 0 ≤ n → streamRead s n = (x, err, s') → zlen x ≤ n.
Proof.
  intros Hn. unfold streamRead. destruct (chunks s) as [|c cs]; [by intros [= <- <- <-]|].
  destruct (Z.leb_spec (zlen c) n); intros [= <- <- <-]; rewrite ?length_take; lia.
Qed.

Lemma limitedRead_zlen s N n x err s' N' : 0 ≤ n → limitedRead s N n = (x, err, s', N') → zlen x ≤ n.
Proof.
  intros Hn. unfold limitedRead. destruct (Z.leb_spec N 0); [by intros [= <- <- <-]|].
  destruct (streamRead s _) as [[y e] s1] eqn:E. intros [= <- <- <- <-].
  apply streamRead_zlen in E; destruct (Z.ltb_spec N n); lia.
Qed.

(** [io.CopyN] to [io.Discard] drops [n] bytes, or all and reports how the
    stream ends. *)
Lemma discardN_spec s n :
  0 ≤ n →
  wp (discardN s n) (λ '(_, err, s'),
    pendingBytes s' = drop (Z.to_nat n) (pendingBytes s) ∧ final s' = final s ∧
    err = (if n <=? zlen (pendingBytes s) then None else Some (final s))).
Proof.
  intros Hn. unfold discardN. apply wp_bind.
  enough (∀ (fuel : nat) (s : stream) (N w : Z), 0 ≤ N →
    (length (chunks s) + Z.to_nat (N / 8192) + (if (N <=? 0)%Z then 0 else 1) < fuel)%nat →
    wp (discard fuel s N w) (λ '(w', err, s'),
      pendingBytes s' = drop (Z.to_nat N) (pendingBytes s) ∧ final s' = final s ∧
      w' = w + Z.min N (zlen (pendingBytes s)) ∧
      err = (if (N <=? zlen (pendingBytes s)) || bool_decide (final s = EOF) then None else Some (final s)))) as H.
  { eapply wp_mono; [apply (H _ s n 0 Hn); destruct (n <=? 0); lia|].
    intros [[w err] s'] (H1&H2&->&->). simpl. split_and!; [done..|].
    destruct (Z.leb_spec n (zlen (pendingBytes s))) as [Hle|Hgt]; simpl.
    - by rewrite Z.min_l, Z.add_0_l, Z.eqb_refl by lia.
    - rewrite Z.min_r, Z.add_0_l by lia. destruct (Z.eqb_spec (zlen (pendingBytes s)) n), (Z.ltb_spec (zlen (pendingBytes s)) n); try lia.
      by destruct (bool_decide_reflect (final s = EOF)) as [->|]. }
  clear. induction fuel as [|fuel IH]; intros s N w HN Hf; [lia|]. cbn [discard]. unfold limitedRead.
  destruct (Z.leb_spec N 0) as [H0|H0].
  { replace N with 0 by lia. simpl. split_and!; [done|done|lia|].
    destruct (Z.leb_spec 0 (zlen (pendingBytes s))); [done|lia]. }
  set (m := if N <? 8192 then N else 8192).
  assert (0 < m ≤ N ∧ (m = N ∨ m = 8192)) as [Hm Hm'] by (unfold m; destruct (Z.ltb_spec N 8192); lia).
  destruct (streamRead s m) as [[x err] s1] eqn:E.
  apply streamRead_spec in E as (Hp&Hx&Hfin&Herr); [|lia]. rewrite Hp, length_app.
  destruct err as [e|].
  - destruct Herr as (->&->&Hc&->). assert (pendingBytes s = []) as E by (unfold pendingBytes; by rewrite Hc).
    rewrite !E. simpl. rewrite drop_nil. split_and!; [done|done|lia|]. change (Z.of_nat 0) with 0.
    destruct (Z.leb_spec N 0); [lia|]. simpl. by case_bool_decide.
  - eapply wp_mono; [apply IH; [lia|]|].
    + destruct Herr as [Hl|[Hl Hxm]].
      * assert (Z.to_nat ((N - zlen x) / 8192) ≤ Z.to_nat (N / 8192))%nat.
        { apply Z2Nat.inj_le; [zlia|zlia|]. apply Z.div_le_mono; lia. }
        destruct (N - zlen x <=? 0); lia.
      * rewrite Hl, Hxm. destruct Hm' as [->|Hm8].
        { rewrite Z.sub_diag. change (Z.to_nat (0 / 8192)) with 0%nat. change (0 <=? 0) with true. cbv iota. lia. }
        rewrite Hm8. replace (N - 8192) with (N + (-1) * 8192) by lia. rewrite Z.div_add by lia.
        pose proof (Z.div_le_mono 8192 N 8192). assert (1 ≤ N / 8192) by (apply H; lia).
        destruct (N + _ <=? 0); lia.
    + intros [[w' err] s'] (H1&H2&->&->). rewrite H1, H2, Hfin. split_and!; [|done|lia|].
      * rewrite drop_app_ge by lia. f_equal. lia.
      * repeat f_equal. destruct (Z.leb_spec (N - zlen x) (zlen (pendingBytes s1))), (Z.leb_spec N (Z.of_nat (length x + length (pendingBytes s1)))); (done || lia).
Qed.

(** The local header [h] and its variable part in front of the pending
    bytes. *)
Definition LocalHeader (hdr var : list byte) : Prop :=
  ∃ mid nl el, length mid = 22%nat ∧ 0 ≤ nl < 65536 ∧ 0 ≤ el < 65536 ∧
    hdr = lePut 4 fileHeaderSignature ++ mid ++ lePut 2 nl ++ lePut 2 el ∧ zlen var = nl + el.

Lemma skipHeader_total s :
  wp (skipHeader s) (λ '(res, s'), final s' = final s ∧
    match res with
    | Ok n => 0 ≤ n ∧ ∃ hdr var, zlen var = n ∧ zlen hdr = fileHeaderLen ∧
        leUint (take 4 hdr) = fileHeaderSignature ∧ pendingBytes s = hdr ++ var ++ pendingBytes s'
    | Err _ => True
    end).
Proof.
  unfold skipHeader. apply wp_bind. eapply wp_mono; [apply ReadFull_spec; done|].
  intros [[buf err] s1] (->&Hp1&Hf1&_&->). change (Z.to_nat fileHeaderLen) with 30%nat in *.
  destruct (Z.leb_spec fileHeaderLen (zlen (pendingBytes s))) as [Hl|].
  2:{ destruct (_ && _); done. }
  unfold fileHeaderLen in *. unfold rbUint32, rbUint16.
  rewrite rbUint_ok by (rewrite length_take; lia). cbn [mbind option_bind].
  destruct (Z.eqb_spec (leUint (take 4 (take 30 (pendingBytes s)))) fileHeaderSignature) as [Hsig|]; [|done].
  cbn [negb]. unfold rbSkip. rewrite decide_True by (rewrite length_drop, length_take; lia). cbn [mbind option_bind].
  do 2 (rewrite rbUint_ok by (rewrite !length_drop, length_take; lia); cbn [mbind option_bind]).
  set (nl := leUint _). set (el := leUint _).
  assert (0 ≤ nl) by apply leUint_range. assert (0 ≤ el) by apply leUint_range.
  apply wp_bind. eapply wp_mono; [apply discardN_spec; lia|].
  intros [[w err] s2] (Hp2&Hf2&->). clearbody nl el.
  destruct (Z.leb_spec (nl + el) (zlen (pendingBytes s1))) as [Hle|]; [|simpl; split; [congruence|done]].
  rewrite Hp1 in *. rewrite length_drop in Hle.
  simpl. split; [congruence|]. split; [lia|].
  exists (take 30 (pendingBytes s)), (take (Z.to_nat (nl + el)) (drop 30 (pendingBytes s))).
  split_and!; [rewrite length_take, length_drop; lia|rewrite length_take; lia|done|].
  by rewrite Hp2, take_drop, take_drop.
Qed.

Lemma skipHeader_header s hdr var rest :
  LocalHeader hdr var → pendingBytes s = hdr ++ var ++ rest →
  wp (skipHeader s) (λ '(res, s'), res = Ok (zlen var) ∧ pendingBytes s' = rest ∧ final s' = final s).
Proof.
  intros (mid&nl&el&Hmid&Hnl&Hel&->&Hvar) Hp. unfold skipHeader. apply wp_bind.
  eapply wp_mono; [apply ReadFull_spec; done|].
  intros [[buf err] s1] (->&Hp1&Hf1&_&->). change (Z.to_nat fileHeaderLen) with 30%nat in *.
  set (hdr := lePut 4 fileHeaderSignature ++ mid ++ lePut 2 nl ++ lePut 2 el) in *.
  assert (length hdr = 30%nat) as Hh by (unfold hdr; rewrite !length_app, !length_lePut, Hmid; done).
  rewrite Hp in *. rewrite take_app_length' by done. rewrite drop_app_length' in Hp1 by done.
  destruct (Z.leb_spec fileHeaderLen (zlen (hdr ++ var ++ rest))) as [_|]; [|rewrite length_app in *; unfold fileHeaderLen in *; lia].
  unfold hdr, rbUint32, rbUint16. rewrite rbUint_app by done. cbn [mbind option_bind]. rewrite Z.eqb_refl. cbn [negb].
  rewrite rbSkip_app by done. cbn [mbind option_bind]. rewrite rbUint_app by (change (256 ^ Z.of_nat 2) with 65536; lia). cbn [mbind option_bind].
  rewrite <-(app_nil_r (lePut 2 el)), rbUint_app by (change (256 ^ Z.of_nat 2) with 65536; lia). cbn [mbind option_bind].
  apply wp_bind. eapply wp_mono; [apply discardN_spec; lia|].
  intros [[w err] s2] (Hp2&Hf2&->). rewrite Hp1, <-Hvar, Nat2Z.id in *. rewrite drop_app_length in Hp2.
  destruct (Z.leb_spec (zlen var) (zlen (var ++ rest))); [|rewrite length_app in *; lia].
  simpl. by rewrite Hf2.
Qed.

(** A data descriptor of a file whose checksum is [crc], with or without its
    signature. *)
Definition DataDescriptor (crc : Z) (desc : list byte) : Prop :=
  ∃ sizes, length sizes = 8%nat ∧
    (desc = lePut 4 dataDescriptorSignature ++ lePut 4 crc ++ sizes ∨
     crc ≠ dataDescriptorSignature ∧ desc = lePut 4 crc ++ sizes).

Lemma readDataDescriptor_total s f : wp (readDataDescriptor s f) (λ '(_, s'), final s' = final s).
Proof.
  unfold readDataDescriptor. apply wp_bind. eapply wp_mono; [apply ReadFull_spec; done|].
  intros [[buf err] s1] (->&Hp1&Hf1&_&->). change (Z.to_nat 4) with 4%nat.
  destruct (Z.leb_spec 4 (zlen (pendingBytes s))); [|destruct (_ && _); done].
  unfold rbUint32. rewrite rbUint_ok by (rewrite length_take; lia). cbn [mbind option_bind].
  set (kept := if negb _ then _ else _).
  assert (zlen kept = 4 ∨ zlen kept = 0) as Hk.
  { unfold kept. destruct (negb _); [left; rewrite length_take; lia|by right]. }
  apply wp_bind. eapply wp_mono; [apply ReadFull_spec; lia|].
  intros [[buf err] s2] (->&Hp2&Hf2&_&->).
  destruct (Z.leb_spec (12 - zlen kept) (zlen (pendingBytes s1))); [|destruct (_ && _); simpl; congruence].
  rewrite rbUint_ok by (rewrite length_app, length_take; lia). simpl. congruence.
Qed.

Lemma readDataDescriptor_descriptor s f desc rest :
  0 ≤ CRC32 f < 2 ^ 32 → DataDescriptor (CRC32 f) desc → pendingBytes s = desc ++ rest →
  wp (readDataDescriptor s f) (λ '(err, _), err = None).
Proof.
  intros Hcrc (sizes&Hsz&Hd) Hp. unfold readDataDescriptor. apply wp_bind.
  eapply wp_mono; [apply ReadFull_spec; done|].
  intros [[buf err] s1] (->&Hp1&Hf1&_&->). change (Z.to_nat 4) with 4%nat in *.
  assert (∃ v tl, 0 ≤ v < 2 ^ 32 ∧ pendingBytes s = lePut 4 v ++ tl ++ rest ∧
    (v = dataDescriptorSignature ∧ tl = lePut 4 (CRC32 f) ++ sizes ∨
     v ≠ dataDescriptorSignature ∧ v = CRC32 f ∧ tl = sizes)) as (v&tl&Hv&Hps&Htl).
  { destruct Hd as [->|[? ->]].
    - exists dataDescriptorSignature. eexists. split_and!; [done..| |by left]. by rewrite Hp, <-!app_assoc.
    - exists (CRC32 f), sizes. rewrite Hp, <-app_assoc. split_and!; [lia..|done|by right]. }
  rewrite Hps in *. rewrite take_app_length' by (by rewrite length_lePut).
  rewrite drop_app_length' in Hp1 by (by rewrite length_lePut).
  destruct (Z.leb_spec 4 (zlen (lePut 4 v ++ tl ++ rest))); [|rewrite length_app, length_lePut in *; lia].
  unfold rbUint32. rewrite <-(app_nil_r (lePut 4 v)), rbUint_app by (change (256 ^ Z.of_nat 4) with (2 ^ 32); lia).
  cbn [mbind option_bind]. rewrite app_nil_r.
  set (kept := if negb _ then _ else _). apply wp_bind.
  assert (∃ x, kept ++ tl = lePut 4 (CRC32 f) ++ x ∧ length (kept ++ tl) = 12%nat ∧ (length kept ≤ 12)%nat) as (x&Hx&Hl&Hk).
  { unfold kept. destruct Htl as [[-> ->]|(Hne&->&->)].
    - rewrite Z.eqb_refl. exists sizes. simpl. rewrite ?length_app, ?length_lePut. split_and!; [done|simpl; lia|lia].
    - destruct (Z.eqb_spec (CRC32 f) dataDescriptorSignature); [done|]. exists sizes.
      cbn [negb]. rewrite length_app, length_lePut. split_and!; [done|lia|lia]. }
  clearbody kept. eapply wp_mono; [apply ReadFull_spec; lia|].
  intros [[buf err] s2] (->&Hp2&Hf2&_&->). rewrite Hp1. rewrite length_app in Hl.
  replace (Z.to_nat (12 - zlen kept)) with (length tl) by lia. rewrite take_app_length.
  destruct (Z.leb_spec (12 - zlen kept) (zlen (tl ++ rest))); [|rewrite length_app in *; lia].
  rewrite Hx, rbUint_app by (change (256 ^ Z.of_nat 4) with (2 ^ 32); lia). simpl. by rewrite Z.eqb_refl.
Qed.
