(* ===== verification/ZipFileMain.v ===== *)
(** * ziputil: what reading one file guarantees *)
From S2P Require Import Prelude.
From S2P Require Import GoIO.
From S2P Require Import Zip.
From S2P Require Import ZipFile.

(** ** Every reader: what was delivered is what the header promises *)

Section checked.
Context {D : Type} (flateRead : D → stream → Z → Z → list byte * option error * D * stream * Z).

(** [io.Reader]: at most [len(p)] bytes. *)
Hypothesis flate_len : ∀ d s N n x err d' s' N',
  0 ≤ n → flateRead d s N n = (x, err, d', s', N') → zlen x ≤ n.

Lemma bodyRead_zlen b s n x err b' s' :
  0 ≤ n → bodyRead flateRead b s n = (x, err, b', s') → zlen x ≤ n.
Proof using flate_len.
  intros Hn. destruct b as [N|[d|] N]; simpl.
  - destruct (limitedRead s N n) as [[[y e] s1] N1] eqn:E. intros [= <- <- <- <-]. by eapply limitedRead_zlen.
  - destruct (flateRead d s N n) as [[[[y e] d1] s1] N1] eqn:E. intros [= <- <- <- <-]. by eapply flate_len.
  - by intros [= <- <- <- <-].
Qed.

(** The state after [d] has been delivered. *)
Record Checked (f : FileHeader) (desr : bool) (d : list byte) (r : checksumReader (D:=D)) : Prop := {
  ck_f : cr_f r = f;
  ck_desr : cr_desr r = desr;
  ck_bound : zlen d ≤ UncompressedSize64 f;
  ck_open : cr_err r = None → cr_nread r = zlen d ∧ cr_hash r = crc32 d;
  ck_eof : cr_err r = Some EOF →
    zlen d = UncompressedSize64 f ∧ (desr = true ∨ CRC32 f ≠ 0 → crc32 d = CRC32 f);
  ck_closed : cr_err r ≠ None → raw_closed (cr_raw r) = true;
}.

Lemma checksumRead_checked f desr d r n :
  0 ≤ n < 2 ^ 63 → UncompressedSize64 f < 2 ^ 63 → Checked f desr d r →
  wp (checksumRead flateRead r n) (λ '(x, err, r'), Checked f desr (d ++ x) r' ∧ cr_err r' = err).
Proof using flate_len.
  intros Hn HU [Hf Hd Hb Ho He Hc]. unfold checksumRead. destruct (cr_err r) as [e|] eqn:Herr.
  { simpl. rewrite app_nil_r. split; [|done]. split; try done; rewrite Herr; done. }
  destruct (Ho eq_refl) as [Hnr Hh]. clear Ho He Hc.
  destruct (bodyRead _ _ _ _) as [[[x err] body] s] eqn:E.
  apply bodyRead_zlen in E; [|lia]. cbn [cr_nread cr_f cr_err cr_desr cr_hash cr_raw cr_body].
  rewrite Hf, Hd, Hnr, Hh. unfold wrapU. rewrite Z.mod_small by lia.
  replace (zlen d + zlen x) with (zlen (d ++ x)) by (rewrite length_app; lia).
  destruct (Z.ltb_spec (UncompressedSize64 f) (zlen (d ++ x))) as [|Hle].
  { simpl. rewrite app_nil_r. split; [|done]. by split. }
  assert (crcUpdate (crc32 d) x = crc32 (d ++ x)) as -> by apply crcUpdate_app.
  destruct err as [e|]; [|simpl; by split].
  case_bool_decide as Hee; [|simpl; split; [|done]; split; simpl; congruence].
  subst e. destruct (Z.eqb_spec (zlen (d ++ x)) (UncompressedSize64 f)) as [Heq|]; cbn [negb].
  2:{ simpl. rewrite app_nil_r. split; [|done]. by split. }
  destruct desr.
  - apply wp_bind. eapply wp_mono; [apply readDataDescriptor_total|]. intros [err1 s1] _.
    cbn [cr_nread cr_f cr_err cr_desr cr_hash cr_raw cr_body setErr wp]. split; [|done].
    split; try done. simpl. destruct err1 as [e1|]; [case_bool_decide; naive_solver|].
    destruct (Z.eqb_spec (crc32 (d ++ x)) (CRC32 f)); simpl; naive_solver.
  - cbn [cr_nread cr_f cr_err cr_desr cr_hash cr_raw cr_body setErr wp]. split; [|done].
    split; try done. simpl.
    destruct (Z.eqb_spec (CRC32 f) 0), (Z.eqb_spec (crc32 (d ++ x)) (CRC32 f)); simpl; intros; naive_solver.
Qed.

Lemma checksumReads_checked f desr d r ns :
  Forall (λ n, 0 ≤ n < 2 ^ 63) ns → UncompressedSize64 f < 2 ^ 63 → Checked f desr d r →
  wp (checksumReads flateRead r ns) (λ '(xs, r'), Checked f desr (d ++ xs) r').
Proof using flate_len.
  intros Hns HU. revert d r. induction Hns as [|n ns Hn Hns IH]; intros d r Hr; simpl; [by rewrite app_nil_r|].
  apply wp_bind. eapply wp_mono; [by apply (checksumRead_checked f desr d)|].
  intros [[x err] r1] [Hr1 _]. apply wp_bind. eapply wp_mono; [by apply (IH (d ++ x))|].
  intros [xs r2] Hr2. simpl. by rewrite app_assoc.
Qed.
End checked.

(** C18. For every decompressor that is an [io.Reader], every sequence of
    [Read] calls on a fresh [checksumReader] returns; the bytes delivered never
    exceed [UncompressedSize64]; [io.EOF] is only reported when exactly that
    many bytes were delivered and, if there is a data descriptor or the header
    has a checksum, their CRC-32 is the header's; an error closes the raw
    reader and every later [Read] repeats it without delivering anything. *)
Theorem checksumReads_deliver_checked {D} (flateRead : D → stream → Z → Z → list byte * option error * D * stream * Z)
    (r : checksumReader) (ns : list Z) :
  (∀ d s N n x err d' s' N', 0 ≤ n → flateRead d s N n = (x, err, d', s', N') → zlen x ≤ n) →
  cr_err r = None → cr_nread r = 0 → cr_hash r = 0 →
  0 ≤ UncompressedSize64 (cr_f r) < 2 ^ 63 → Forall (λ n, 0 ≤ n < 2 ^ 63) ns →
  wp (checksumReads flateRead r ns) (λ '(d, r'),
    zlen d ≤ UncompressedSize64 (cr_f r) ∧
    (cr_err r' = Some EOF → zlen d = UncompressedSize64 (cr_f r) ∧
       (cr_desr r = true ∨ CRC32 (cr_f r) ≠ 0 → crc32 d = CRC32 (cr_f r))) ∧
    (∀ e, cr_err r' = Some e → raw_closed (cr_raw r') = true ∧
       ∀ n, checksumRead flateRead r' n = Some ([], Some e, r'))).
Proof.
  intros Hfl Herr Hn Hh HU Hns.
  eapply wp_mono; [apply (checksumReads_checked flateRead Hfl (cr_f r) (cr_desr r) []); try done|].
  - lia.
  - split; rewrite ?Herr; try done. simpl. lia.
  - intros [d r'] [Hf Hd Hb Ho He Hc]. simpl in *. split_and!; try done.
    intros e He'. split; [apply Hc; congruence|]. intros n. unfold checksumRead. by rewrite He'.
Qed.

Definition demoFlate (d : unit) (s : stream) (N n : Z) : list byte * option error * unit * stream * Z :=
  ([], Some EOF, d, s, N).
Definition demoHeader (method : Z) (name extra : list byte) (size crc offset flags : Z) : FileHeader :=
  MkFileHeader name [] false 20 20 flags method zeroTime 0 0 crc size size size size extra 0 offset.

Lemma checksumReads_deliver_checked_witness :
  wp (checksumReads demoFlate
        (ChecksumReader (Stored 3) (RawReader (Stream [[x61; x62]; [x63; x64]] EOF) false) 0 0 false
           (demoHeader 0 [] [] 3 (crc32 [x61; x62; x63]) 0 0) None) [2; 2; 2]) (λ '(d, r'),
    d = [x61; x62; x63] ∧ cr_err r' = Some EOF ∧ zlen d ≤ 3).
Proof.
  pose proof (checksumReads_deliver_checked demoFlate
        (ChecksumReader (Stored 3) (RawReader (Stream [[x61; x62]; [x63; x64]] EOF) false) 0 0 false
           (demoHeader 0 [] [] 3 (crc32 [x61; x62; x63]) 0 0) None) [2; 2; 2]) as H.
  assert (∀ (d : unit) (s : stream) (N n : Z) x err d' s' N',
    0 ≤ n → demoFlate d s N n = (x, err, d', s', N') → zlen x ≤ n) as Hfl.
  { intros * Hn [= <- <- <- <- <-]. done. }
  specialize (H Hfl eq_refl eq_refl eq_refl). destruct (checksumReads _ _ _) as [[d r']|] eqn:E.
  - revert E. vm_compute checksumReads. intros [= <- <-]. split_and!; [done..|].
    apply H; [vm_compute; intuition congruence|repeat constructor; done].
  - revert E. by vm_compute.
Defined.

(** ** Opening: positioned behind the local header, or closed *)

(** For every header and every source of raw readers, [OpenWithReader]
    returns. On success the raw reader it asked for stands right behind a local
    file header, whose variable part is at most [openReadSlop] bytes longer
    than the name and the extra field of the directory; when it fails, a raw
    reader it was given has been closed. *)
Theorem OpenWithReader_positions_or_closes {D} (newFlate : D) (h : FileHeader) (getRawReader : Z → Z → result stream) :
  wp (OpenWithReader newFlate h getRawReader) (λ '(res, raw),
    match res with
    | Ok r =>
        (Method h = 0 ∨ Method h = 8) ∧ raw = None ∧
        cr_err r = None ∧ cr_nread r = 0 ∧ cr_hash r = 0 ∧ cr_f r = h ∧ raw_closed (cr_raw r) = false ∧
        ∃ size s hdr var, getRawReader (HeaderOffset h) size = Ok s ∧
          pendingBytes s = hdr ++ var ++ pendingBytes (raw_s (cr_raw r)) ∧
          zlen hdr = fileHeaderLen ∧ leUint (take 4 hdr) = fileHeaderSignature ∧
          zlen var ≤ zlen (Name h) + zlen (Extra h) + openReadSlop
    | Err _ =>
        match raw with
        | Some raw => raw_closed raw = true
        | None => (Method h ≠ 0 ∧ Method h ≠ 8) ∨
                  ∃ size e, getRawReader (HeaderOffset h) size = Err e
        end
    end).
Proof.
  unfold OpenWithReader.
  destruct (Z.eqb_spec (Method h) 0) as [HM|HM0]; [|destruct (Z.eqb_spec (Method h) 8) as [HM|HM8]; [|simpl; by left]].
  all: cbv zeta; set (size := i64 (i64 (_ + _) + _)); destruct (getRawReader (HeaderOffset h) size) as [s|e] eqn:Hs; [|simpl; eauto].
  all: apply wp_bind; eapply wp_mono; [apply skipHeader_total|]; intros [res s1] [Hf Hres].
  all: destruct res as [vl|e]; [|done]; destruct (Z.ltb_spec (zlen (Name h) + zlen (Extra h) + openReadSlop) vl); [done|].
  all: destruct Hres as (Hvl&hdr&var&<-&H1&H2&H3); simpl; split_and!; eauto 10.
Qed.

(** ** Stored files: end to end *)

Lemma lxor_range w a b : 0 ≤ w → 0 ≤ a < 2 ^ w → 0 ≤ b < 2 ^ w → 0 ≤ Z.lxor a b < 2 ^ w.
Proof.
  intros Hw Ha Hb. enough (Z.lxor a b = Z.lxor a b mod 2 ^ w) as ->.
  { apply Z.mod_pos_bound. lia. }
  apply Z.bits_inj'. intros i Hi. destruct (decide (i < w)).
  - by rewrite Z.mod_pow2_bits_low by lia.
  - rewrite Z.mod_pow2_bits_high by lia. rewrite <-(Z.mod_small a (2 ^ w)), <-(Z.mod_small b (2 ^ w)) by done.
    by rewrite Z.lxor_spec, !Z.mod_pow2_bits_high by lia.
Qed.

Lemma crcByte_range c b : 0 ≤ c < 2 ^ 32 → 0 ≤ crcByte c b < 2 ^ 32.
Proof.
  intros Hc. unfold crcByte. apply Nat.iter_invariant.
  - intros x Hx. unfold crcBit. assert (0 ≤ Z.shiftr x 1 < 2 ^ 32) by (rewrite Z.shiftr_div_pow2 by done; zlia).
    destruct (Z.testbit x 0); [|done]. by apply lxor_range.
  - apply lxor_range; [done..|]. pose proof (b2z_range b). lia.
Qed.

Lemma crc32_range d : 0 ≤ crc32 d < 2 ^ 32.
Proof.
  unfold crc32, crcUpdate. apply lxor_range; [done..|].
  assert (0 ≤ Z.lxor crcMask 0 < 2 ^ 32) as H by done. revert H. generalize (Z.lxor crcMask 0).
  induction d as [|b d IH]; intros c Hc; [done|]. by apply IH, crcByte_range.
Qed.

Lemma limitedRead_pending s x rest n :
  0 < n → pendingBytes s = x ++ rest → x ≠ [] →
  ∃ y z s', limitedRead s (zlen x) n = (y, None, s', zlen z) ∧ x = y ++ z ∧ pendingBytes s' = z ++ rest ∧
    (length (chunks s') + length z < length (chunks s) + length x)%nat.
Proof.
  intros Hn Hp Hx. unfold limitedRead.
  assert (0 < zlen x) by (destruct x; [done|simpl; lia]).
  destruct (Z.leb_spec (zlen x) 0); [lia|]. set (m := if _ <? _ then _ else _).
  assert (0 < m ≤ zlen x) as Hm by (unfold m; destruct (Z.ltb_spec (zlen x) n); lia).
  destruct (streamRead s m) as [[y err] s1] eqn:E.
  apply streamRead_spec in E as (Hps&Hy&Hfin&Herr); [|lia]. destruct err as [e|].
  { destruct Herr as (_&_&Hc&_). unfold pendingBytes in Hp. rewrite Hc in Hp. by destruct x. }
  rewrite Hp in Hps. exists y, (drop (length y) x), s1.
  assert (take (length y) x = y) as Hty.
  { rewrite <-(take_app_le x rest) by lia. rewrite Hps. by rewrite take_app_length. }
  assert (x = y ++ drop (length y) x) as Hxy by (rewrite <-Hty at 1; by rewrite take_drop).
  split_and!; [f_equal; rewrite length_drop; lia|done| |rewrite length_drop; lia].
  apply (app_inv_head y). by rewrite <-Hps, app_assoc, <-Hxy.
Qed.

Lemma readToEOF_stored {D} (flateRead : D → stream → Z → Z → list byte * option error * D * stream * Z)
    (r : checksumReader) d x rest n fuel :
  0 < n → cr_err r = None → cr_body r = Stored (zlen x) → pendingBytes (raw_s (cr_raw r)) = x ++ rest →
  cr_nread r = zlen d → cr_hash r = crc32 d →
  UncompressedSize64 (cr_f r) = zlen (d ++ x) → zlen (d ++ x) < 2 ^ 63 → CRC32 (cr_f r) = crc32 (d ++ x) →
  (cr_desr r = true → ∃ desc rest', rest = desc ++ rest' ∧ DataDescriptor (CRC32 (cr_f r)) desc) →
  (length (chunks (raw_s (cr_raw r))) + length x < fuel)%nat →
  readToEOF flateRead fuel r n = Some (x, EOF).
Proof.
  intros Hn. revert r d x. induction fuel as [|fuel IH]; intros r d x Herr Hb Hp Hnr Hh HU Hlt Hcrc Hd Hfuel; [lia|].
  cbn [readToEOF]. unfold checksumRead. rewrite Herr, Hb. cbn [bodyRead].
  destruct (decide (x = [])) as [->|Hx].
  - assert (limitedRead (raw_s (cr_raw r)) (zlen (@nil byte)) n = ([], Some EOF, raw_s (cr_raw r), 0)) as -> by done.
    cbn [cr_nread cr_f cr_err cr_desr cr_hash cr_raw cr_body raw_s withStream]. rewrite app_nil_r in *.
    rewrite Hnr, HU, Hh, Hcrc. change (zlen (@nil byte)) with 0. rewrite Z.add_0_r, wrapU_small by lia.
    rewrite Z.ltb_irrefl, bool_decide_true, Z.eqb_refl by done. cbn [negb].
    assert (crcUpdate (crc32 d) [] = crc32 d) as -> by (unfold crc32; by rewrite crcUpdate_app, app_nil_r).
    destruct (cr_desr r).
    + destruct Hd as (desc&rest'&->&Hdesc); [done|]. simpl in Hp.
      assert (wp (readDataDescriptor (raw_s (cr_raw r)) (cr_f r)) (λ '(err, _), err = None)) as (res&->&He)%wp_elim.
      { eapply readDataDescriptor_descriptor; [|done|done]. rewrite Hcrc. apply crc32_range. }
      destruct res as [err s1]. subst err. cbn [mbind option_bind]. simpl. by rewrite Z.eqb_refl.
    + rewrite Z.eqb_refl. cbn [negb]. by rewrite andb_false_r.
  - destruct (limitedRead_pending (raw_s (cr_raw r)) x rest n) as (y&z&s'&->&Hyz&Hp'&Hl); [done..|].
    subst x. cbn [cr_nread cr_f cr_err cr_desr cr_hash cr_raw cr_body raw_s withStream].
    rewrite !length_app in HU. rewrite HU, Hnr, wrapU_small by (rewrite !length_app in *; lia).
    destruct (Z.ltb_spec (Z.of_nat (length d + (length y + length z))) (zlen d + zlen y)); [lia|].
    cbn [mbind option_bind]. erewrite (IH _ (d ++ y) z); [by simpl|done|done|done| | | | | |done|simpl in *; lia]; simpl.
    + rewrite length_app. lia.
    + by rewrite Hh; unfold crc32; rewrite crcUpdate_app.
    + rewrite !length_app. lia.
    + rewrite !length_app in *. lia.
    + by rewrite <-app_assoc.
Qed.

(** C27. Reading a stored file out of an archive with one range request. Let
    the archive hold, at [HeaderOffset], a local header whose name and extra
    field are at most [openReadSlop] bytes longer than the directory's, the
    contents [data], and a data descriptor if the flags announce one; let
    [getRawReader] answer any request with a reader of exactly the requested
    range, cut into chunks in any way. Then [OpenWithReader] succeeds, and
    reading to the end with buffers of any size [n] delivers [data] and
    [io.EOF]. *)
Theorem stored_file_reads_back {D} (newFlate : D)
    (flateRead : D → stream → Z → Z → list byte * option error * D * stream * Z)
    (h : FileHeader) (getRawReader : Z → Z → result stream) (pre hdr var data desc post : list byte) (n : Z) :
  (∀ off size, 0 ≤ off → 0 ≤ size → ∃ s, getRawReader off size = Ok s ∧
     pendingBytes s = take (Z.to_nat size) (drop (Z.to_nat off) (pre ++ hdr ++ var ++ data ++ desc ++ post))) →
  HeaderOffset h = zlen pre → Method h = 0 →
  CompressedSize64 h = zlen data → UncompressedSize64 h = zlen data → CRC32 h = crc32 data →
  LocalHeader hdr var → zlen var ≤ zlen (Name h) + zlen (Extra h) + openReadSlop →
  (if hasDataDesc h then DataDescriptor (CRC32 h) desc else desc = []) →
  zlen data + zlen (Name h) + zlen (Extra h) < 2 ^ 62 → 0 < n →
  ∃ r fuel, OpenWithReader newFlate h getRawReader = Some (Ok r, None) ∧
    ∀ fuel', (fuel ≤ fuel')%nat → readToEOF flateRead fuel' r n = Some (data, EOF).
Proof.
  intros Hget Hoff HM Hcs Hus Hcrc Hlh Hvar Hdesc Hsize Hn. unfold OpenWithReader. rewrite HM. cbn [Z.eqb]. cbv zeta.
  set (descSize := if hasDataDesc h then dataDescriptorLen else 0).
  assert (zlen desc ≤ descSize ∧ descSize ≤ 16) as [Hds Hds'].
  { unfold descSize, dataDescriptorLen. destruct (hasDataDesc h); [|by subst].
    destruct Hdesc as (sizes&Hsz&[->|[_ ->]]); rewrite ?length_app, ?length_lePut; lia. }
  unfold openReadSlop in *.
  assert (zlen hdr = 30) as Hh.
  { destruct Hlh as (mid&nl&el&Hm&_&_&->&_). rewrite !length_app, !length_lePut. lia. }
  rewrite Hcs, (wrapS_small 64 (zlen data)), (wrapS_small 64 (zlen data + descSize)) by (unfold descSize, dataDescriptorLen; destruct (hasDataDesc h); lia).
  unfold fileHeaderLen. rewrite (wrapS_small 64 (zlen data + descSize + 30)), wrapS_small by (unfold descSize, dataDescriptorLen; destruct (hasDataDesc h); lia).
  destruct (Hget (HeaderOffset h) (zlen data + descSize + 30 + (zlen (Name h) + zlen (Extra h) + 512))) as (s&->&Hp); [lia..|].
  rewrite Hoff, Nat2Z.id, drop_app_length in Hp.
  assert (∃ rest, pendingBytes s = hdr ++ var ++ data ++ desc ++ rest) as [rest Hs].
  { set (k := Z.to_nat _) in Hp. exists (take (k - length (hdr ++ var ++ data ++ desc)) post).
    replace (hdr ++ var ++ data ++ desc ++ post) with ((hdr ++ var ++ data ++ desc) ++ post) in Hp by (by rewrite <-!app_assoc).
    rewrite take_app_ge in Hp by (rewrite !length_app; lia). by rewrite Hp, <-!app_assoc. }
  destruct (wp_elim _ _ (skipHeader_header s hdr var _ Hlh Hs)) as ([res s1]&->&->&Hp1&_). cbn [mbind option_bind].
  destruct (Z.ltb_spec (zlen (Name h) + zlen (Extra h) + 512) (zlen var)); [lia|].
  eexists. exists (S (length (chunks s1) + length data)). split; [done|]. intros fuel' Hf.
  apply (readToEOF_stored flateRead _ [] data (desc ++ rest)); simpl; try done.
  - lia.
  - intros Hd. rewrite Hd in Hdesc. eauto.
Qed.

Definition demoLocal : list byte := lePut 4 fileHeaderSignature ++ replicate 22 x00 ++ lePut 2 1 ++ lePut 2 0.

Lemma stored_file_reads_back_witness :
  let data := [x61; x62; x63] in
  let h := demoHeader 0 [x6e] [] 3 (crc32 data) 2 8 in
  let file := [x01; x02] ++ demoLocal ++ [x6e] ++ data ++ (lePut 4 (crc32 data) ++ replicate 8 x00) ++ [x05] in
  ∃ r fuel, OpenWithReader tt h (λ off size, Ok (Stream [take (Z.to_nat size) (drop (Z.to_nat off) file)] EOF))
            = Some (Ok r, None) ∧
    ∀ fuel', (fuel ≤ fuel')%nat → readToEOF demoFlate fuel' r 2 = Some (data, EOF).
Proof.
  intros data h file. apply (stored_file_reads_back tt demoFlate h _ [x01; x02] demoLocal [x6e] data
    (lePut 4 (crc32 data) ++ replicate 8 x00) [x05]); try done.
  - intros off size Hoff Hsize. eexists. split; [done|]. unfold pendingBytes. cbn [chunks concat]. by rewrite app_nil_r.
  - exists (replicate 22 x00), 1, 0. split_and!; done.
  - exists (replicate 8 x00). split; [done|]. right. split; [vm_compute; congruence|done].
Defined.
