(* ===== verification/Bmff.v ===== *)
(** * media/heif/bmff: reading ISO BMFF boxes

    [Reader.ReadBox], [bufReader] and the box parsers of bmff.go and
    quicktime.go. The input of a reader is the list of the bytes it has left
    and the error that it returns behind the last of them: [io.EOF], or that of
    a read that fails. A box carries the bytes of its body, and what ends them.
    A method of [*bufReader] is a computation over the bytes left and the
    sticky error. *)
From S2P Require Import Prelude.
From S2P Require Import GoIO.

Definition bs (s : string) : list byte := String.list_byte_of_string s.

(** *** BoxType *)

Definition TypeFtyp : list byte := bs "ftyp".
Definition TypeMeta : list byte := bs "meta".
Definition TypeMoov : list byte := bs "moov".
Definition BoxTypeString (t : list byte) : string := String.string_of_list_byte t.
Definition EqualString (t s : list byte) : bool := (length s =? 4)%nat && bool_decide (take 4 s = t).

(** ** Boxes *)

Record box := MkBox {
  size : Z;
  boxType : list byte;     (* BoxType, 4 bytes *)
  offset : Z;
  headerSize : Z;
  body : list byte;        (* body, or slurp once it has been read *)
  bodyEnd : error;         (* EOF, or the error of the read that ends body *)
}.

Definition ErrUnknownBox : error := Errorf "heif: unknown box".

(** [io.ReadFull] of [n] bytes from the bytes left. *)
Definition readFull (n : nat) (rest : list byte) (ending : error) : result (list byte * list byte) :=
  if decide (n ≤ length rest)%nat then Ok (take n rest, drop n rest)
  else Err (if decide (ending = EOF ∧ rest ≠ []) then ErrUnexpectedEOF else ending).

(** Reading to the end, or what is there of [n] bytes. *)
Definition readToEnd (rest : list byte) (ending : error) : result (list byte) :=
  if decide (ending = EOF) then Ok rest else Err ending.
Definition readUpTo (n : nat) (rest : list byte) (ending : error) : result (list byte) :=
  if decide (n ≤ length rest)%nat then Ok (take n rest) else readToEnd rest ending.

(** *** [Reader]

    [input] begins at the next box header: skipping the unread rest of the
    last box ([skipRest]), by seeking or by reading, leaves the reader there. *)
Record Reader := MkReader {
  input : list byte;
  ending : error;
  pos : Z;
  noMoreBoxes : bool;
}.

(** A reader of an input that ends with an error, and of one that is read
    without errors. *)
Definition NewReaderOf (r : list byte) (ending : error) : Reader := MkReader r ending 0 false.
Definition NewReader (r : list byte) : Reader := NewReaderOf r EOF.

(** The end of a body of [n] bytes: its limit, or that of the input. *)
Definition limitEnd (n : Z) (rest : list byte) (ending : error) : error :=
  if n <=? zlen rest then EOF else ending.

Definition ReadBox (r : Reader) : result (box * Reader) :=
  if noMoreBoxes r then Err EOF
  else
    match readFull 4 (input r) (ending r) with
    | Err e => Err e
    | Ok (sz, rest) =>
      match readFull 4 rest (ending r) with
      | Err e => Err e
      | Ok (typ, rest) =>
        let size := beUint sz in
        if size =? 1 then
          match readFull 8 rest (ending r) with
          | Err e => Err e
          | Ok (sz8, rest) =>
            let size := i64 (beUint sz8) in
            if size <? 0 then Err (Errorf "unexpectedly large box %q")
            else
              let remain := size - 2 * 4 - 8 in
              if remain <? 0 then Err (Errorf "Box header for %q has size %d, suggesting %d (negative) bytes remain")
              else Ok (MkBox size typ (pos r) 16 (take (Z.to_nat remain) rest) (limitEnd remain rest (ending r)),
                       MkReader (drop (Z.to_nat remain) rest) (ending r) (i64 (pos r + size)) false)
          end
        else if size =? 0 then
          Ok (MkBox 0 typ (pos r) 8 rest (ending r), MkReader [] (ending r) (pos r) true)
        else
          let remain := size - 2 * 4 in
          if remain <? 0 then Err (Errorf "Box header for %q has size %d, suggesting %d (negative) bytes remain")
          else Ok (MkBox size typ (pos r) 8 (take (Z.to_nat remain) rest) (limitEnd remain rest (ending r)),
                   MkReader (drop (Z.to_nat remain) rest) (ending r) (i64 (pos r + size)) false)
      end
    end.

(** [readBody]: what [io.ReadAll], or [io.ReadFull] into a buffer of the
    declared size, gets. *)
Definition readBody (b : box) : result (list byte) :=
  let n := size b - headerSize b in
  if (size b <=? 0) || (2 ^ 20 <? n) then readToEnd (body b) (bodyEnd b)
  else readUpTo (Z.to_nat n) (body b) (bodyEnd b).

(** ** [bufReader] *)

Record bufReader := BufReader {
  br_rest : list byte;
  br_err : option error;
  br_end : error;          (* what the reads behind [br_rest] return *)
}.

(** A method of [*bufReader] that may fail; [None] is exhausted fuel. *)
Definition P (A : Type) := bufReader → option (result A * bufReader).

Definition pret {A} (x : A) : P A := λ br, Some (Ok x, br).
Definition pfail {A} (e : error) : P A := λ br, Some (Err e, br).

(** [x, err := m; if err != nil { return nil, err }] *)
Definition pbind {A B} (m : P A) (f : A → P B) : P B := λ br,
  match m br with
  | Some (Ok x, br) => f x br
  | Some (Err e, br) => Some (Err e, br)
  | None => None
  end.

(** [x, _ := m], where [m] returns [d] along with an error. *)
Definition soft {A} (d : A) (m : P A) : P A := λ br,
  match m br with
  | Some (Err _, br) => Some (Ok d, br)
  | r => r
  end.

(** [x, err := m; if err != nil { return nil, e }] *)
Definition orFail {A} (e : error) (m : P A) : P A := λ br,
  match m br with
  | Some (Err _, br) => Some (Err e, br)
  | r => r
  end.

Notation "x ←p m ; k" := (pbind m (λ x, k))
  (at level 20, m at level 100, k at level 200, right associativity).

Definition ok : P bool := λ br, Some (Ok (bool_decide (br_err br = None)), br).

(** [return nil, br.err] *)
Definition failSticky {A} (x : A) : P A := λ br,
  match br_err br with Some e => Some (Err e, br) | None => Some (Ok x, br) end.

(** Recording an error in [br.err] and returning it. *)
Definition sticky {A} (e : error) : P A := λ br, Some (Err e, BufReader (br_rest br) (Some e) (br_end br)).

(** [br.Peek(n)] *)
Definition Peek (n : nat) : P (list byte) := λ br,
  if decide (n ≤ length (br_rest br))%nat then Some (Ok (take n (br_rest br)), br) else Some (Err (br_end br), br).

Definition Discard (n : nat) : P unit := λ br,
  Some (Ok tt, BufReader (drop n (br_rest br)) (br_err br) (br_end br)).

(** [if br.err != nil { return br.err }] before [m]. *)
Definition guard {A} (m : P A) : P A := λ br,
  match br_err br with Some e => Some (Err e, br) | None => m br end.

(** [m], its error being recorded. *)
Definition recording {A} (m : P A) : P A := λ br,
  match m br with
  | Some (Err e, br) => Some (Err e, BufReader (br_rest br) (Some e) (br_end br))
  | r => r
  end.

Definition anyRemain : P bool := λ br,
  match br_err br with
  | Some _ => Some (Ok false, br)
  | None => Some (Ok (0 <? zlen (br_rest br)), br)
  end.

Definition readUint (n : nat) : P Z :=
  guard (buf ←p recording (Peek n); _ ←p Discard n; pret (beUint buf)).

Definition readUint8 : P Z := readUint 1.
Definition readUint16 : P Z := readUint 2.
Definition readUint32 : P Z := readUint 4.

Definition readUintN (bits : Z) : P Z :=
  guard
    (if bits =? 0 then pret 0
     else
       let nbyte := Z.to_nat (bits / 8) in
       buf ←p recording (Peek nbyte);
       _ ←p Discard nbyte;
       if (bits =? 8) || (bits =? 16) || (bits =? 32) || (bits =? 64) then pret (beUint buf)
       else sticky (Errorf "invalid uintn read size")).

(** [br.ReadString(0)]: up to and including the first zero byte, or all that
    is left and the error behind it. *)
Fixpoint cutZero (s : list byte) : option (list byte * list byte) :=
  match s with
  | [] => None
  | c :: s =>
      if decide (c = x00) then Some ([c], s)
      else match cutZero s with Some (a, b) => Some (c :: a, b) | None => None end
  end.

(** [strings.TrimSuffix(s, NUL)] *)
Definition trimZero (s : list byte) : list byte :=
  match last s with Some x00 => take (length s - 1) s | _ => s end.

Definition readString : P (list byte) := λ br,
  match br_err br with
  | Some e => Some (Err e, br)
  | None =>
      match cutZero (br_rest br) with
      | None => Some (Err (br_end br), BufReader [] (Some (br_end br)) (br_end br))
      | Some (s0, rest) =>
          let s := trimZero s0 in
          if decide (length s = length s0)
          then Some (Err (Errorf "unexpected non-null terminated string"),
                     BufReader rest (Some (Errorf "unexpected non-null terminated string")) (br_end br))
          else Some (Ok s, BufReader rest None (br_end br))
      end
  end.

(** [parseAppendBoxes]; every box takes at least 8 bytes. *)
Fixpoint appendBoxes (fuel : nat) (r : Reader) : option (result (list box)) :=
  match fuel with
  | O => None
  | S fuel =>
      match ReadBox r with
      | Err e => Some (if decide (e = EOF) then Ok [] else Err e)
      | Ok (inner, r) =>
          match readBody inner with
          | Err e => Some (Err e)
          | Ok slurp =>
              let inner := MkBox (size inner) (boxType inner) (offset inner) (headerSize inner) slurp EOF in
              match appendBoxes fuel r with
              | Some (Ok l) => Some (Ok (inner :: l))
              | x => x
              end
          end
      end
  end.

Definition parseAppendBoxes : P (list box) :=
  guard (λ br,
    match appendBoxes (S (length (br_rest br))) (NewReaderOf (br_rest br) (br_end br)) with
    | Some (Ok l) => Some (Ok l, BufReader [] None (br_end br))
    | Some (Err e) => Some (Err e, BufReader [] (Some e) (br_end br))
    | None => None
    end).

(** ** Parsed boxes *)

Record FullBox := MkFullBox { fb_box : box; Version : Z; Flags : Z }.

Record FileTypeBox := MkFileType {
  ft_box : box; MajorBrand : list byte; MinorVersion : list byte; Compatible : list (list byte) }.
Record MetaBox := MkMeta { mb_full : FullBox; QuickTime : bool; mb_Children : list box }.
Record ItemInfoEntry := MkItemInfoEntry {
  ie_full : FullBox; ie_ItemID : Z; ProtectionIndex : Z; ItemType : list byte; ie_Name : list byte;
  ContentType : list byte; ContentEncoding : list byte; ItemURIType : list byte }.
Record ItemInfoBox := MkItemInfo { ib_full : FullBox; ib_Count : Z; ItemInfos : list ItemInfoEntry }.
Record ItemPropertyContainerBox := MkContainer { ipc_box : box; Properties : list box }.
Record ItemProperty := MkItemProperty { Essential : bool; Index : Z }.
Record ItemPropertyAssociationItem := MkAssociationItem {
  ai_ItemID : Z; AssociationsCount : Z; ai_Associations : list ItemProperty }.
Record ItemPropertyAssociation := MkAssociation {
  ipa_full : FullBox; ipa_EntryCount : Z; Entries : list ItemPropertyAssociationItem }.
Record ItemPropertiesBox := MkItemProperties {
  ip_box : box; PropertyContainer : ItemPropertyContainerBox; Associations : list ItemPropertyAssociation }.
Record ImageSpatialExtentsProperty := MkSpatialExtents { se_full : FullBox; ImageWidth : Z; ImageHeight : Z }.
Record OffsetLength := MkOffsetLength { Offset : Z; Length : Z }.
Record ItemLocationBoxEntry := MkLocationEntry {
  le_ItemID : Z; ConstructionMethod : Z; DataReferenceIndex : Z; BaseOffset : Z; ExtentCount : Z;
  Extents : list OffsetLength }.
Record ItemLocationBox := MkItemLocation {
  il_full : FullBox; offsetSize : Z; lengthSize : Z; baseOffsetSize : Z; indexSize : Z;
  ItemCount : Z; il_Items : list ItemLocationBoxEntry }.
Record HandlerBox := MkHandler { hb_full : FullBox; HandlerType : list byte; hb_Name : list byte }.
Record DataInformationBox := MkDataInformation { dib_box : box; dib_Children : list box }.
Record DataReferenceBox := MkDataReference { drb_full : FullBox; drb_EntryCount : Z; drb_Children : list box }.
Record PrimaryItemBox := MkPrimaryItem { pib_full : FullBox; pib_ItemID : Z }.
Record ItemReference := MkItemReference { ref_Type : list byte; FromItemID : Z; ToItemIDs : list Z }.
Record ItemReferenceBox := MkItemReferences { irb_full : FullBox; References : list ItemReference }.
Record ImageRotation := MkRotation { ir_box : box; Angle : Z }.
Record MovieHeaderBox := MkMovieHeader {
  mh_full : FullBox; CreationTime : Z; ModificationTime : Z; TimeScale : Z; Duration : Z }.
Record MetadataKey := MkKey { Namespace : list byte; mk_Name : list byte }.
Record KeysBox := MkKeys { kb_full : FullBox; Keys : list MetadataKey }.
Record DataBox := MkData { db_box : box; DataType : Z; Locale : Z; Value : list byte }.
Record MetadataItem := MkMetadataItem { mi_box : box; KeyIndex : Z; mi_Data : list DataBox }.
Record ItemListBox := MkItemList { ilb_box : box; mi_Items : list MetadataItem }.

(** The dynamic types of a [Box]. *)
Inductive Box :=
| Unparsed (b : box)
| FileType (b : FileTypeBox)
| Meta (b : MetaBox)
| ItemInfoE (b : ItemInfoEntry)
| ItemInfo (b : ItemInfoBox)
| Container (b : ItemPropertyContainerBox)
| ItemProperties (b : ItemPropertiesBox)
| Association (b : ItemPropertyAssociation)
| SpatialExtents (b : ImageSpatialExtentsProperty)
| ItemLocation (b : ItemLocationBox)
| Handler (b : HandlerBox)
| DataInformation (b : DataInformationBox)
| DataReference (b : DataReferenceBox)
| PrimaryItem (b : PrimaryItemBox)
| ItemReferences (b : ItemReferenceBox)
| Rotation (b : ImageRotation)
| MovieHeader (b : MovieHeaderBox)
| KeysB (b : KeysBox)
| Data (b : DataBox)
| ItemList (b : ItemListBox).

(** ** Parsers *)

Definition readFullBox (outer : box) : P FullBox :=
  buf ←p orFail (Errorf "failed to read 4 bytes of FullBox: %v") (Peek 4);
  _ ←p Discard 4;
  pret (MkFullBox outer (beUint (take 1 buf)) (beUint (drop 1 buf))).

Fixpoint readBrands (fuel : nat) : P (list (list byte)) := λ br,
  match fuel with
  | O => None
  | S fuel =>
      match Peek 4 br with
      | Some (Ok buf, br) =>
          (_ ←p Discard 4; l ←p readBrands fuel; pret (buf :: l)) br
      | Some (Err e, br) => Some (if decide (e = EOF) then Ok [] else Err e, br)
      | None => None
      end
  end.

Definition parseFileTypeBox (outer : box) : P Box :=
  buf ←p Peek 8;
  _ ←p Discard 8;
  l ←p (λ br, readBrands (S (length (br_rest br))) br);
  pret (FileType (MkFileType outer (take 4 buf) (drop 4 buf) l)).

Definition parseMetaBox (outer : box) : P Box := λ br,
  match Peek 8 br with
  | Some (Ok buf, br) =>
      if decide (drop 4 buf = bs "hdlr") then
        (l ←p parseAppendBoxes; pret (Meta (MkMeta (MkFullBox outer 0 0) true l))) br
      else
        (fb ←p readFullBox outer; l ←p parseAppendBoxes; pret (Meta (MkMeta fb false l))) br
  | _ => (fb ←p readFullBox outer; l ←p parseAppendBoxes; pret (Meta (MkMeta fb false l))) br
  end.

Definition parseItemInfoEntry (outer : box) : P Box :=
  fb ←p readFullBox outer;
  if negb (Version fb =? 2) then pfail (Errorf "TODO: found version %d infe box. Only 2 is supported now.")
  else
    id ←p soft 0 readUint16;
    prot ←p soft 0 readUint16;
    _ ←p failSticky tt;
    buf ←p Peek 4;
    name ←p soft [] readString;
    let ie := MkItemInfoEntry fb id prot buf name in
    ie ←p (if decide (buf = bs "mime") then
             ct ←p soft [] readString;
             more ←p anyRemain;
             ce ←p (if more : bool then soft [] readString else pret []);
             pret (ie ct ce [])
           else if decide (buf = bs "uri ") then
             uri ←p soft [] readString;
             pret (ie [] [] uri)
           else pret (ie [] [] []));
    failSticky (ItemInfoE ie).

(** The loop that parses the children of an "iinf" box. *)
Fixpoint parseEntries (parse : box → option (result Box)) (l : list box) :
    option (result (list ItemInfoEntry)) :=
  match l with
  | [] => Some (Ok [])
  | b :: l =>
      match parse b with
      | Some (Ok pb) =>
          match parseEntries parse l with
          | Some (Ok ies) => Some (Ok (match pb with ItemInfoE ie => ie :: ies | _ => ies end))
          | x => x
          end
      | Some (Err _) => Some (Err (Errorf "error parsing ItemInfoEntry in ItemInfoBox: %v"))
      | None => None
      end
  end.

(** A call that does not use [br]. *)
Definition lift {A} (m : option (result A)) : P A := λ br,
  match m with Some r => Some (r, br) | None => None end.

Definition parseItemInfoBox (parse : box → option (result Box)) (outer : box) : P Box :=
  fb ←p readFullBox outer;
  count ←p soft 0 readUint16;
  boxes ←p soft [] parseAppendBoxes;
  good ←p ok;
  ies ←p (if good : bool then lift (parseEntries parse boxes) else pret []);
  failSticky (ItemInfo (MkItemInfo fb count ies)).

Definition parseItemPropertyContainerBox (outer : box) : P Box :=
  l ←p parseAppendBoxes; pret (Container (MkContainer outer l)).

(** The association boxes of an "iprp" box. *)
Fixpoint parseAssociations (parse : box → option (result Box)) (l : list box) :
    option (result (list ItemPropertyAssociation)) :=
  match l with
  | [] => Some (Ok [])
  | b :: l =>
      match parse b with
      | Some (Ok (Association ipa)) =>
          match parseAssociations parse l with
          | Some (Ok ipas) => Some (Ok (ipa :: ipas))
          | x => x
          end
      | Some (Ok _) => Some (Err (Errorf "unexpected box %q instead of ItemPropertyAssociation"))
      | Some (Err _) => Some (Err (Errorf "failed to parse association box: %v"))
      | None => None
      end
  end.

Definition parseItemPropertiesBox (parse : box → option (result Box)) (outer : box) : P Box :=
  boxes ←p parseAppendBoxes;
  match boxes with
  | b0 :: ((_ :: _) as rest) =>
      cb ←p orFail (Errorf "failed to parse first box, %q: %v") (lift (parse b0));
      match cb with
      | Container ipc =>
          ipas ←p lift (parseAssociations parse rest);
          pret (ItemProperties (MkItemProperties outer ipc ipas))
      | _ => pfail (Errorf "unexpected type %T for ItemPropertieBox.PropertyContainer")
      end
  | _ => pfail (Errorf "expect at least 2 boxes in children; got 0")
  end.

(** [for i := 0; i < count && br.ok(); i++], collecting what [m] returns. *)
Fixpoint repeatOk {A} (fuel : nat) (count : Z) (m : P A) : P (list A) := λ br,
  match br_err br with
  | Some _ => Some (Ok [], br)
  | None =>
      if count <=? 0 then Some (Ok [], br)
      else
        match fuel with
        | O => None
        | S fuel => (x ←p m; l ←p repeatOk fuel (count - 1) m; pret (x :: l)) br
        end
  end.

(** The same with fuel for an [m] that takes a byte or fails. *)
Definition repeatBytes {A} (count : Z) (m : P A) : P (list A) := λ br,
  repeatOk (S (length (br_rest br))) count m br.

Definition readAssociation (flags : Z) : P ItemProperty :=
  first ←p soft 0 readUint8;
  let essential := negb (Z.land first (Z.shiftl 1 7) =? 0) in
  let first := Z.ldiff first (Z.shiftl 1 7) in
  if negb (Z.land flags 1 =? 0) then
    second ←p soft 0 readUint8;
    pret (MkItemProperty essential (Z.lor (u16 (Z.shiftl first 8)) second))
  else pret (MkItemProperty essential first).

Definition readAssociationItem (fb : FullBox) : P ItemPropertyAssociationItem :=
  itemID ←p (if Version fb <? 1 then soft 0 readUint16 else soft 0 readUint32);
  assocCount ←p soft 0 readUint8;
  l ←p repeatOk (Z.to_nat assocCount) assocCount (readAssociation (Flags fb));
  pret (MkAssociationItem itemID assocCount l).

Definition parseItemPropertyAssociation (outer : box) : P Box :=
  fb ←p readFullBox outer;
  count ←p soft 0 readUint32;
  entries ←p repeatBytes count (readAssociationItem fb);
  failSticky (Association (MkAssociation fb count entries)).

Definition parseImageSpatialExtentsProperty (outer : box) : P Box :=
  fb ←p readFullBox outer;
  w ←p readUint32;
  h ←p readUint32;
  pret (SpatialExtents (MkSpatialExtents fb w h)).

Definition readExtent (fb : FullBox) (offsetSize lengthSize indexSize : Z) : P OffsetLength :=
  _ ←p (if 0 <? Version fb then soft 0 (readUintN (u8 (indexSize * 8))) else pret 0);
  off ←p soft 0 (readUintN (u8 (offsetSize * 8)));
  len ←p soft 0 (readUintN (u8 (lengthSize * 8)));
  failSticky (MkOffsetLength off len).

Definition readLocation (fb : FullBox) (offsetSize lengthSize baseOffsetSize indexSize : Z) : P ItemLocationBoxEntry :=
  id ←p (if Version fb <? 2 then soft 0 readUint16 else soft 0 readUint32);
  cmeth ←p (if 0 <? Version fb then cmeth ←p soft 0 readUint16; pret (Z.land cmeth 15) else pret 0);
  ref ←p soft 0 readUint16;
  base ←p soft 0 (readUintN (u8 (baseOffsetSize * 8)));
  count ←p soft 0 readUint16;
  l ←p repeatOk (Z.to_nat count) count (readExtent fb offsetSize lengthSize indexSize);
  pret (MkLocationEntry id cmeth ref base count l).

Definition parseItemLocationBox (outer : box) : P Box :=
  fb ←p readFullBox outer;
  buf ←p Peek 4;
  let b0 := beUint (take 1 buf) in
  let b1 := beUint (take 1 (drop 1 buf)) in
  let offsetSize := Z.shiftr b0 4 in
  let lengthSize := Z.land b0 15 in
  let baseOffsetSize := Z.shiftr b1 4 in
  let indexSize := if 0 <? Version fb then Z.land b1 15 else 0 in
  _ ←p Discard 2;
  count ←p (if Version fb <? 2 then soft 0 readUint16 else soft 0 readUint32);
  items ←p repeatBytes count (readLocation fb offsetSize lengthSize baseOffsetSize indexSize);
  failSticky (ItemLocation (MkItemLocation fb offsetSize lengthSize baseOffsetSize indexSize count items)).

(** [br.ReadString(0)] with [io.EOF] tolerated. *)
Definition readRest : P (list byte) := λ br,
  match cutZero (br_rest br) with
  | Some (s0, rest) => Some (Ok s0, BufReader rest (br_err br) (br_end br))
  | None => Some (readToEnd (br_rest br) (br_end br), BufReader [] (br_err br) (br_end br))
  end.

Definition parseHandlerBox (gen : box) : P Box :=
  fb ←p readFullBox gen;
  buf ←p Peek 20;
  _ ←p Discard 20;
  name ←p readRest;
  pret (Handler (MkHandler fb (take 4 (drop 4 buf)) (trimZero name))).

Definition parseDataInformationBox (gen : box) : P Box :=
  l ←p parseAppendBoxes; pret (DataInformation (MkDataInformation gen l)).

Definition parseDataReferenceBox (gen : box) : P Box :=
  fb ←p readFullBox gen;
  count ←p soft 0 readUint32;
  l ←p parseAppendBoxes;
  pret (DataReference (MkDataReference fb count l)).

Definition parsePrimaryItemBox (gen : box) : P Box :=
  fb ←p readFullBox gen;
  id ←p (if Version fb =? 0 then soft 0 readUint16 else soft 0 readUint32);
  failSticky (PrimaryItem (MkPrimaryItem fb id)).

(** One reference, read from a [bufReader] of its own. *)
Definition readReference (fb : FullBox) (rb : box) : option (result ItemReference) :=
  let readID := if Version fb =? 0 then soft 0 readUint16 else soft 0 readUint32 in
  match (from ←p readID;
         n ←p soft 0 readUint16;
         ids ←p repeatOk (Z.to_nat n) n readID;
         failSticky (MkItemReference (boxType rb) from ids)) (BufReader (body rb) None (bodyEnd rb)) with
  | Some (Ok r, _) => Some (Ok r)
  | Some (Err _, _) => Some (Err (Errorf "error parsing %q item reference: %v"))
  | None => None
  end.

Fixpoint readReferences (fb : FullBox) (l : list box) : option (result (list ItemReference)) :=
  match l with
  | [] => Some (Ok [])
  | rb :: l =>
      match readReference fb rb with
      | Some (Ok r) =>
          match readReferences fb l with
          | Some (Ok rs) => Some (Ok (r :: rs))
          | x => x
          end
      | Some (Err e) => Some (Err e)
      | None => None
      end
  end.

Definition parseItemReferenceBox (gen : box) : P Box :=
  fb ←p readFullBox gen;
  refs ←p parseAppendBoxes;
  l ←p lift (readReferences fb refs);
  pret (ItemReferences (MkItemReferences fb l)).

Definition parseImageRotation (gen : box) : P Box :=
  v ←p readUint8;
  pret (Rotation (MkRotation gen (Z.land v 3))).

(** ** quicktime.go *)

Definition parseMovieHeaderBox (outer : box) : P Box :=
  fb ←p readFullBox outer;
  mh ←p (if Version fb =? 0 then
           ct ←p soft 0 readUint32;
           mt ←p soft 0 readUint32;
           ts ←p soft 0 readUint32;
           d ←p soft 0 readUint32;
           pret (MkMovieHeader fb ct mt ts d)
         else if Version fb =? 1 then
           ct ←p soft 0 (readUintN 64);
           mt ←p soft 0 (readUintN 64);
           ts ←p soft 0 readUint32;
           d ←p soft 0 (readUintN 64);
           pret (MkMovieHeader fb ct mt ts d)
         else pfail (Errorf "unsupported mvhd version %d"));
  failSticky (MovieHeader mh).

(** [io.ReadFull(br, buf)] *)
Definition fill (n : nat) : P (list byte) := λ br,
  match readFull n (br_rest br) (br_end br) with
  | Ok (x, rest) => Some (Ok x, BufReader rest (br_err br) (br_end br))
  | Err e => Some (Err e, BufReader [] (br_err br) (br_end br))
  end.

(** [io.ReadAll(io.LimitReader(br, n))] *)
Definition readAtMost (n : Z) : P (list byte) := λ br,
  Some (readUpTo (Z.to_nat n) (br_rest br) (br_end br), BufReader (drop (Z.to_nat n) (br_rest br)) (br_err br) (br_end br)).

Definition readKey : P MetadataKey :=
  size ←p soft 0 readUint32;
  _ ←p failSticky tt;
  if size <? 8 then pfail (Errorf "invalid keys entry size %d")
  else
    ns ←p fill 4;
    name ←p readAtMost (size - 8);
    if negb (zlen name =? size - 8) then pfail ErrUnexpectedEOF
    else pret (MkKey ns name).

Definition parseKeysBox (outer : box) : P Box :=
  fb ←p readFullBox outer;
  count ←p soft 0 readUint32;
  keys ←p repeatBytes count readKey;
  failSticky (KeysB (MkKeys fb keys)).

(** The boxes of one item; [parse] is [b.Parse]. *)
Fixpoint readItemData (fuel : nat) (parse : box → option (result Box)) (r : Reader) :
    option (result (list DataBox)) :=
  match fuel with
  | O => None
  | S fuel =>
      match ReadBox r with
      | Err e => Some (if decide (e = EOF) then Ok [] else Err (Errorf "reading ilst item %q: %v"))
      | Ok (b, r) =>
          if decide (boxType b = bs "data") then
            match parse b with
            | Some (Ok (Data db)) =>
                match readItemData fuel parse r with
                | Some (Ok l) => Some (Ok (db :: l))
                | x => x
                end
            | Some (Ok _) => None     (* the panic of pb.( *DataBox) *)
            | Some (Err _) => Some (Err (Errorf "parsing ilst item %q data: %v"))
            | None => None
            end
          else readItemData fuel parse r
      end
  end.

Fixpoint readItems (parse : box → option (result Box)) (l : list box) : option (result (list MetadataItem)) :=
  match l with
  | [] => Some (Ok [])
  | cb :: l =>
      match readItemData (S (length (body cb))) parse (NewReader (body cb)) with
      | Some (Ok data) =>
          match readItems parse l with
          | Some (Ok items) => Some (Ok (MkMetadataItem cb (beUint (boxType cb)) data :: items))
          | x => x
          end
      | Some (Err e) => Some (Err e)
      | None => None
      end
  end.

Definition parseItemListBox (parse : box → option (result Box)) (outer : box) : P Box :=
  children ←p parseAppendBoxes;
  items ←p lift (readItems parse children);
  pret (ItemList (MkItemList outer items)).

Definition readAll : P (list byte) := λ br,
  Some (readToEnd (br_rest br) (br_end br), BufReader [] (br_err br) (br_end br)).

Definition parseDataBox (outer : box) : P Box :=
  typ ←p soft 0 readUint32;
  locale ←p soft 0 readUint32;
  _ ←p orFail (Errorf "short data box") (failSticky tt);
  val ←p readAll;
  pret (Data (MkData outer typ locale val)).

(** ** [box.Parse] *)

Definition parsers (parse : box → option (result Box)) : list (list byte * (box → P Box)) :=
  [(bs "data", parseDataBox);
   (bs "dinf", parseDataInformationBox);
   (bs "dref", parseDataReferenceBox);
   (bs "ftyp", parseFileTypeBox);
   (bs "hdlr", parseHandlerBox);
   (bs "iinf", parseItemInfoBox parse);
   (bs "ilst", parseItemListBox parse);
   (bs "infe", parseItemInfoEntry);
   (bs "iloc", parseItemLocationBox);
   (bs "ipco", parseItemPropertyContainerBox);
   (bs "ipma", parseItemPropertyAssociation);
   (bs "iprp", parseItemPropertiesBox parse);
   (bs "iref", parseItemReferenceBox);
   (bs "irot", parseImageRotation);
   (bs "ispe", parseImageSpatialExtentsProperty);
   (bs "keys", parseKeysBox);
   (bs "meta", parseMetaBox);
   (bs "mvhd", parseMovieHeaderBox);
   (bs "pitm", parsePrimaryItemBox)].

Fixpoint findParser (l : list (list byte * (box → P Box))) (t : list byte) : option (box → P Box) :=
  match l with
  | [] => None
  | (t', p) :: l => if decide (t = t') then Some p else findParser l t
  end.

(** [b.Parse()]; a box is parsed by parsing boxes of shorter bodies. *)
Fixpoint Parse (fuel : nat) (b : box) : option (result Box) :=
  match fuel with
  | O => None
  | S fuel =>
      match findParser (parsers (Parse fuel)) (boxType b) with
      | None => Some (Err ErrUnknownBox)
      | Some parser =>
          match parser b (BufReader (body b) None (bodyEnd b)) with
          | Some (r, _) => Some r
          | None => None
          end
      end
  end.

Definition ParseBox (b : box) : option (result Box) := Parse (S (length (body b))) b.

(** [r.ReadAndParseBox(typ)], with the reader behind the box. *)
Definition ReadAndParseBox (r : Reader) (typ : list byte) : option (result (Box * Reader)) :=
  match ReadBox r with
  | Err _ => Some (Err (Errorf "error reading %q box: %v"))
  | Ok (b, r) =>
      if decide (boxType b = typ) then
        match ParseBox b with
        | Some (Ok pb) => Some (Ok (pb, r))
        | Some (Err _) => Some (Err (Errorf "error parsing read %q box: %v"))
        | None => None
        end
      else Some (Err (Errorf "error reading %q box: got box type %q instead"))
  end.
