(* ===== verification/BmffLaws.v ===== *)
(** * media/heif/bmff: laws of the reader and the parsers

    Every parser returns on every input (the fuel of its loops and of the
    recursion of [Parse] is enough), and boxes read back as they were
    written. *)
From S2P Require Import Prelude.
From S2P Require Import GoIO.
From S2P Require Import Bmff.

(** ** Totality of parsers

    [runs n m Q]: on at most [n] bytes, [m] returns without adding bytes, and
    a value it returns satisfies [Q]. *)
Definition runs {A} (n : nat) (m : P A) (Q : A → Prop) : Prop :=
  ∀ br, (length (br_rest br) ≤ n)%nat →
    wp (m br) (λ '(r, br'), (length (br_rest br') ≤ length (br_rest br))%nat ∧
      match r with Ok x => Q x | Err _ => True end).

Definition anything {A} (x : A) : Prop := True.

Create HintDb bmff.

Lemma runs_ret {A} n (x : A) (Q : A → Prop) : Q x → runs n (pret x) Q.
Proof. intros HQ br Hn. simpl. split; [lia|done]. Qed.

Lemma runs_fail {A} n e (Q : A → Prop) : runs n (pfail e) Q.
Proof. intros br Hn. simpl. split; [lia|done]. Qed.

Lemma runs_bind {A B} n (m : P A) (f : A → P B) Q R :
  runs n m Q → (∀ x, Q x → runs n (f x) R) → runs n (pbind m f) R.
Proof.
  intros Hm Hf br Hn. unfold pbind. specialize (Hm br Hn). destruct (m br) as [[[x|e] br']|]; simpl in *; [|lia|done].
  destruct Hm as [Hl HQ]. eapply wp_mono; [apply (Hf x HQ); lia|]. intros [r br2] [? ?]. split; [lia|done].
Qed.

Lemma runs_mono {A} n (m : P A) (Q R : A → Prop) : runs n m Q → (∀ x, Q x → R x) → runs n m R.
Proof.
  intros Hm HQR br Hn. eapply wp_mono; [by apply Hm|]. intros [[x|e] br'] [? ?]; split; auto.
Qed.

Lemma runs_soft {A} n (d : A) (m : P A) : runs n m anything → runs n (soft d m) anything.
Proof.
  intros Hm br Hn. unfold soft. specialize (Hm br Hn). by destruct (m br) as [[[x|e] br']|]; simpl in *.
Qed.

Lemma runs_soft_Q {A} n (d : A) (m : P A) (Q : A → Prop) : Q d → runs n m Q → runs n (soft d m) Q.
Proof.
  intros Hd Hm br Hn. unfold soft. specialize (Hm br Hn). destruct (m br) as [[[x|e] br']|]; simpl in *; [done| |done].
  split; [lia|done].
Qed.

Lemma runs_orFail {A} n e (m : P A) Q : runs n m Q → runs n (orFail e m) Q.
Proof.
  intros Hm br Hn. unfold orFail. specialize (Hm br Hn). by destruct (m br) as [[[x|e'] br']|]; simpl in *.
Qed.

Lemma runs_guard {A} n (m : P A) Q : runs n m Q → runs n (guard m) Q.
Proof. intros Hm br Hn. unfold guard. destruct (br_err br); [simpl; split; [lia|done]|by apply Hm]. Qed.

Lemma runs_recording {A} n (m : P A) Q : runs n m Q → runs n (recording m) Q.
Proof.
  intros Hm br Hn. unfold recording. specialize (Hm br Hn). by destruct (m br) as [[[x|e'] br']|]; simpl in *.
Qed.

Lemma runs_ok n : runs n ok anything.
Proof. intros br Hn. simpl. split; [lia|done]. Qed.

Lemma runs_failSticky {A} n (x : A) (Q : A → Prop) : Q x → runs n (failSticky x) Q.
Proof. intros HQ br Hn. unfold failSticky. destruct (br_err br); simpl; (split; [lia|done]). Qed.

Lemma runs_sticky {A} n e (Q : A → Prop) : runs n (sticky e) Q.
Proof. intros br Hn. simpl. split; [lia|done]. Qed.

Lemma runs_Peek n k : runs n (Peek k) anything.
Proof. intros br Hn. unfold Peek. destruct (decide _); simpl; (split; [lia|done]). Qed.

Lemma runs_Discard n k : runs n (Discard k) anything.
Proof. intros br Hn. unfold Discard. simpl. rewrite length_drop. split; [lia|done]. Qed.

Lemma runs_anyRemain n : runs n anyRemain anything.
Proof. intros br Hn. unfold anyRemain. destruct (br_err br); simpl; (split; [lia|done]). Qed.

Lemma runs_if {A} n (b : bool) (m1 m2 : P A) Q :
  runs n m1 Q → runs n m2 Q → runs n (if b then m1 else m2) Q.
Proof. by destruct b. Qed.

Lemma runs_decide {A} n (Pr : Prop) `{!Decision Pr} (m1 m2 : P A) Q :
  runs n m1 Q → runs n m2 Q → runs n (if decide Pr then m1 else m2) Q.
Proof. by destruct (decide Pr). Qed.

Lemma runs_lift {A} n (m : option (result A)) Q :
  wp m (λ r, match r with Ok x => Q x | Err _ => True end) → runs n (lift m) Q.
Proof. intros Hm br Hn. unfold lift. destruct m; [|done]. simpl in *. split; [lia|done]. Qed.

(** Parsers are run through by applying these rules. *)
Ltac runs_step :=
  lazymatch goal with
  | |- runs _ (pret _) _ => apply runs_ret
  | |- runs _ (pfail _) _ => apply runs_fail
  | |- runs _ (sticky _) _ => apply runs_sticky
  | |- runs _ (pbind _ _) _ => apply (runs_bind _ _ _ anything); [|intros ? _]
  | |- runs _ (soft _ _) _ => apply runs_soft
  | |- runs _ (orFail _ _) _ => apply runs_orFail
  | |- runs _ (guard _) _ => apply runs_guard
  | |- runs _ (recording _) _ => apply runs_recording
  | |- runs _ ok _ => apply runs_ok
  | |- runs _ (failSticky _) _ => apply runs_failSticky
  | |- runs _ (Peek _) _ => apply runs_Peek
  | |- runs _ (Discard _) _ => apply runs_Discard
  | |- runs _ anyRemain _ => apply runs_anyRemain
  | |- runs _ (if decide _ then _ else _) _ => apply runs_decide
  | |- runs _ (if _ then _ else _) _ => apply runs_if
  | |- anything _ => done
  | |- runs _ _ _ => solve [eauto with bmff]
  | |- runs _ _ _ => eapply runs_mono; [solve [eauto with bmff]|done]
  end.
Ltac runs_all := repeat runs_step; try done.

Lemma runs_readUint n k : runs n (readUint k) anything.
Proof. unfold readUint. runs_all. Qed.

Lemma runs_readUint8 n : runs n readUint8 anything.
Proof. apply runs_readUint. Qed.
Lemma runs_readUint16 n : runs n readUint16 anything.
Proof. apply runs_readUint. Qed.
Lemma runs_readUint32 n : runs n readUint32 anything.
Proof. apply runs_readUint. Qed.
#[export] Hint Resolve runs_readUint8 runs_readUint16 runs_readUint32 : bmff.

Lemma runs_readUintN n bits : runs n (readUintN bits) anything.
Proof. unfold readUintN. runs_all. Qed.

Lemma cutZero_length s a b : cutZero s = Some (a, b) → (length b < length s)%nat.
Proof.
  revert a b. induction s as [|c s IH]; intros a b; [done|]. simpl.
  destruct (decide (c = x00)); [intros [= <- <-]; simpl; lia|].
  destruct (cutZero s) as [[a' b']|]; [|done]. intros [= <- <-]. specialize (IH _ _ eq_refl). lia.
Qed.

Lemma runs_readString n : runs n readString anything.
Proof.
  intros br Hn. unfold readString. destruct (br_err br); [simpl; split; [lia|done]|].
  destruct (cutZero (br_rest br)) as [[s0 rest]|] eqn:E; [|simpl; split; [lia|done]].
  apply cutZero_length in E. destruct (decide _); simpl; (split; [lia|done]).
Qed.

Lemma runs_readRest n : runs n readRest anything.
Proof.
  intros br Hn. unfold readRest. destruct (cutZero (br_rest br)) as [[s0 rest]|] eqn:E; simpl;
    [|split; [lia|by destruct (readToEnd _ _)]].
  apply cutZero_length in E. split; [lia|done].
Qed.

Lemma runs_fill n k : runs n (fill k) anything.
Proof.
  intros br Hn. unfold fill, readFull. destruct (decide _); simpl; [rewrite length_drop|]; (split; [lia|done]).
Qed.

Lemma runs_readAtMost n k : runs n (readAtMost k) anything.
Proof.
  intros br Hn. unfold readAtMost. simpl. rewrite length_drop. split; [lia|by destruct (readUpTo _ _ _)].
Qed.

Lemma runs_readAll n : runs n readAll anything.
Proof. intros br Hn. simpl. split; [lia|by destruct (readToEnd _ _)]. Qed.
#[export] Hint Resolve runs_readUintN runs_readString runs_readRest runs_fill runs_readAtMost runs_readAll : bmff.

Lemma runs_readFullBox n b : runs n (readFullBox b) anything.
Proof. unfold readFullBox. runs_all. Qed.
#[export] Hint Resolve runs_readFullBox : bmff.

(** *** Loops *)

Lemma runs_repeatOk {A} n fuel count (m : P A) :
  runs n m anything → count ≤ Z.of_nat fuel → runs n (repeatOk fuel count m) anything.
Proof.
  intros Hm. revert count. induction fuel as [|fuel IH]; intros count Hc br Hn; simpl.
  - destruct (br_err br); [simpl; split; [lia|done]|]. destruct (Z.leb_spec count 0); [|lia].
    simpl. split; [lia|done].
  - destruct (br_err br); [simpl; split; [lia|done]|].
    destruct (Z.leb_spec count 0); [simpl; split; [lia|done]|].
    eapply (runs_bind n); [exact Hm| |done]. intros x _. eapply runs_bind; [apply IH; lia|]. intros l _.
    by apply runs_ret.
Qed.

(** [m] takes a byte, fails, or leaves a sticky error. *)
Definition eats {A} (m : P A) : Prop :=
  ∀ br r br', m br = Some (r, br') → br_err br = None →
    (length (br_rest br') < length (br_rest br))%nat ∨ br_err br' ≠ None ∨ ∃ e, r = Err e.

Lemma runs_repeatBytes {A} n count (m : P A) :
  (∀ k, runs k m anything) → eats m → runs n (repeatBytes count m) anything.
Proof.
  intros Hm He br _. unfold repeatBytes.
  enough (∀ fuel count br, (length (br_rest br) < fuel ∨ br_err br ≠ None)%nat →
    wp (repeatOk fuel count m br) (λ '(r, br'), (length (br_rest br') ≤ length (br_rest br))%nat ∧ True)) as H.
  { eapply wp_mono; [apply H; lia|]. intros [[|] ?] [? _]; done. }
  clear br count. induction fuel as [|fuel IH]; intros count br Hf; simpl.
  - destruct (br_err br); [simpl; split; [lia|done]|]. destruct Hf; [lia|done].
  - destruct (br_err br) eqn:Eerr; [simpl; split; [lia|done]|].
    destruct (_ <=? 0); [simpl; split; [lia|done]|].
    pose proof (Hm _ br (le_n _)) as Hr. unfold pbind at 1.
    destruct (m br) as [[[x|e] br1]|] eqn:Em; simpl in Hr; [|simpl; split; [lia|done]|done].
    destruct Hf as [Hf|]; [|done].
    assert (length (br_rest br1) < fuel ∨ br_err br1 ≠ None)%nat as Hf1.
    { destruct (He _ _ _ Em Eerr) as [Hlt|[Hne|[e' [=]]]]; [left; lia|by right]. }
    unfold pbind. pose proof (IH (count - 1) br1 Hf1) as IH1.
    destruct (repeatOk fuel (count - 1) m br1) as [[[l|e2] br2]|]; simpl in *; [| |done];
      (split; [lia|done]).
Qed.

Lemma runs_readBrands fuel n : (n < fuel)%nat → runs n (readBrands fuel) anything.
Proof.
  revert n. induction fuel as [|fuel IH]; intros n Hf br Hn; [lia|]. simpl. unfold Peek.
  destruct (decide (4 ≤ length (br_rest br))%nat).
  - unfold pbind, Discard. simpl. specialize (IH (n - 4)%nat ltac:(lia) (BufReader (drop 4 (br_rest br)) (br_err br) (br_end br))).
    simpl in IH. rewrite length_drop in IH. specialize (IH ltac:(lia)).
    destruct (readBrands fuel _) as [[[ls|e] br']|]; simpl in *; (split; [lia|done]) || done.
  - simpl. split; [lia|by destruct (decide _)].
Qed.

(** *** Boxes *)

Lemma readFull_spec n rest e x rest' :
  readFull n rest e = Ok (x, rest') → rest = x ++ rest' ∧ length x = n.
Proof.
  unfold readFull. destruct (decide _); [|done]. intros [= <- <-].
  rewrite take_drop, length_take. split; [done|lia].
Qed.

Lemma ReadBox_spec r b r' :
  ReadBox r = Ok (b, r') →
  ∃ hdr, input r = hdr ++ body b ++ input r' ∧ zlen hdr = headerSize b ∧ offset b = pos r ∧
    length (boxType b) = 4%nat ∧ (headerSize b = 8 ∨ headerSize b = 16) ∧ noMoreBoxes r = false ∧
    (size b = 0 ∧ noMoreBoxes r' = true ∧ input r' = [] ∨
     headerSize b ≤ size b ∧ noMoreBoxes r' = false ∧ pos r' = i64 (pos r + size b) ∧
     body b = take (Z.to_nat (size b - headerSize b)) (body b ++ input r') ).
Proof.
  unfold ReadBox. destruct (noMoreBoxes r) eqn:Enm; [done|].
  destruct (readFull 4 (input r) _) as [[sz rest]|] eqn:E1; [|done]. apply readFull_spec in E1 as [E1 L1].
  destruct (readFull 4 rest _) as [[typ rest2]|] eqn:E2; [|done]. apply readFull_spec in E2 as [E2 L2].
  destruct (beUint sz =? 1).
  - destruct (readFull 8 rest2 _) as [[sz8 rest3]|] eqn:E3; [|done]. apply readFull_spec in E3 as [E3 L3].
    destruct (Z.ltb_spec (i64 (beUint sz8)) 0); [done|].
    destruct (Z.ltb_spec (i64 (beUint sz8) - 2 * 4 - 8) 0); [done|]. intros [= <- <-].
    exists (sz ++ typ ++ sz8). cbn [body input headerSize offset boxType size noMoreBoxes pos].
    rewrite take_drop, E1, E2, E3, <-!app_assoc. split_and!; try (done || lia); [rewrite !length_app; lia|].
    right. split_and!; try (done || lia). f_equal. lia.
  - destruct (Z.eqb_spec (beUint sz) 0) as [E0|].
    + intros [= <- <-]. exists (sz ++ typ). cbn [body input headerSize offset boxType size noMoreBoxes pos].
      rewrite app_nil_r, E1, E2, <-!app_assoc. split_and!; try (done || lia); [rewrite length_app; lia|by left].
    + destruct (Z.ltb_spec (beUint sz - 2 * 4) 0); [done|]. intros [= <- <-].
      exists (sz ++ typ). cbn [body input headerSize offset boxType size noMoreBoxes pos].
      rewrite take_drop, E1, E2, <-!app_assoc. split_and!; try (done || lia); [rewrite length_app; lia|].
      right. split_and!; (done || lia || (f_equal; lia)).
Qed.

Lemma ReadBox_shorter r b r' :
  ReadBox r = Ok (b, r') → (length (input r') + length (body b) + 8 ≤ length (input r))%nat.
Proof.
  intros (hdr&->&Hh&_&_&Hs&_)%ReadBox_spec. rewrite !length_app. lia.
Qed.

(** What ends the body, and that the error of the input stays where it is. *)
Lemma ReadBox_bodyEnd r b r' :
  ReadBox r = Ok (b, r') → ending r' = ending r ∧
    bodyEnd b = if size b =? 0 then ending r else limitEnd (size b - headerSize b) (body b ++ input r') (ending r).
Proof.
  unfold ReadBox. destruct (noMoreBoxes r); [done|]. destruct (readFull 4 (input r) _) as [[sz rest]|]; [|done].
  destruct (readFull 4 rest _) as [[typ rest2]|]; [|done]. destruct (beUint sz =? 1).
  - destruct (readFull 8 rest2 _) as [[sz8 rest3]|]; [|done]. destruct (_ <? 0); [done|].
    destruct (Z.ltb_spec (i64 (beUint sz8) - 2 * 4 - 8) 0); [done|]. intros [= <- <-].
    cbn [ending bodyEnd size headerSize body input]. destruct (Z.eqb_spec (i64 (beUint sz8)) 0); [lia|].
    rewrite take_drop. split; [done|]. f_equal. lia.
  - destruct (Z.eqb_spec (beUint sz) 0); [by intros [= <- <-]|].
    destruct (Z.ltb_spec (beUint sz - 2 * 4) 0); [done|]. intros [= <- <-]. cbn [ending bodyEnd size headerSize body input].
    destruct (Z.eqb_spec (beUint sz) 0); [lia|]. by rewrite take_drop.
Qed.

Lemma ReadBox_ending r b r' :
  ReadBox r = Ok (b, r') → ending r' = ending r ∧ (size b = 0 → bodyEnd b = ending r) ∧
    (bodyEnd b = EOF ∨ bodyEnd b = ending r ∧ input r' = [] ∧ (size b = 0 ∨ zlen (body b) < size b - headerSize b)).
Proof.
  intros H. pose proof (ReadBox_bodyEnd _ _ _ H) as [He Hend]. apply ReadBox_spec in H as (_&_&_&_&_&Hh&_&Hc).
  destruct Hc as [(Hz&_&Hi)|(Hle&_&_&Hb)]; [rewrite Hz in Hend; cbn in Hend; by eauto 7|].
  destruct (Z.eqb_spec (size b) 0); [lia|]. split_and!; [done|lia|]. unfold limitEnd in Hend.
  destruct (Z.leb_spec (size b - headerSize b) (zlen (body b ++ input r'))) as [|Hlt]; [by left|right].
  rewrite length_app in Hlt. rewrite take_ge in Hb by (rewrite length_app; lia).
  assert (input r' = []) as Hi by (apply (f_equal length) in Hb; rewrite length_app in Hb; destruct (input r'); [done|cbn in *; lia]).
  rewrite Hi in Hlt. cbn in Hlt. split_and!; [done|done|right; lia].
Qed.

(** A body is read as it is, unless an error ends it. *)
Lemma readBody_body r b r' : ReadBox r = Ok (b, r') →
  readBody b = if decide (bodyEnd b = EOF) then Ok (body b) else Err (bodyEnd b).
Proof.
  intros H. pose proof (ReadBox_ending _ _ _ H) as (_&_&He).
  apply ReadBox_spec in H as (hdr&_&_&_&_&_&_&Hcases). unfold readBody, readUpTo. fold (readToEnd (body b) (bodyEnd b)).
  destruct (Z.leb_spec (size b) 0); [done|]. destruct (Z.ltb_spec (2 ^ 20) (size b - headerSize b)); [done|]. cbn [orb].
  destruct Hcases as [(?&_&_)|(_&_&_&Hb)]; [lia|]. destruct (decide _) as [Hn|]; [|done].
  assert (bodyEnd b = EOF) as -> by (destruct He as [?|(_&_&[?|?])]; [done|lia|lia]). rewrite take_ge; [done|].
  apply (f_equal length) in Hb. rewrite length_take in Hb. lia.
Qed.

(** A child read by [parseAppendBoxes] is the box read by [ReadBox]. *)
Lemma slurped r b r' x : ReadBox r = Ok (b, r') → readBody b = Ok x →
  MkBox (size b) (boxType b) (offset b) (headerSize b) x EOF = b.
Proof.
  intros H. rewrite (readBody_body _ _ _ H). destruct (decide _) as [He|]; [|done]. intros [= <-].
  destruct b. cbn in *. by rewrite He.
Qed.

Lemma appendBoxes_spec fuel r :
  (length (input r) < fuel)%nat →
  wp (appendBoxes fuel r) (λ res, match res with
    | Ok l => Forall (λ b, length (body b) + 8 ≤ length (input r))%nat l
    | Err _ => True end).
Proof.
  revert r. induction fuel as [|fuel IH]; intros r Hf; [lia|]. simpl.
  destruct (ReadBox r) as [[b r']|e] eqn:E; [|destruct (decide (e = EOF)); [by constructor|done]].
  destruct (readBody b) as [x|e] eqn:Ex; [|done]. rewrite (slurped _ _ _ _ E Ex). pose proof (ReadBox_shorter _ _ _ E) as Hs.
  specialize (IH r' ltac:(lia)). destruct (appendBoxes fuel r') as [[l|e]|]; simpl in *; [|done|done].
  constructor; [lia|]. eapply Forall_impl; [exact IH|]. simpl. intros b' Hb'. lia.
Qed.

Lemma runs_parseAppendBoxes n :
  runs n parseAppendBoxes (Forall (λ b, length (body b) + 8 ≤ n)%nat).
Proof.
  unfold parseAppendBoxes. apply runs_guard. intros br Hn.
  pose proof (appendBoxes_spec (S (length (br_rest br))) (NewReaderOf (br_rest br) (br_end br))) as H.
  specialize (H ltac:(simpl; lia)).
  destruct (appendBoxes _ _) as [[l|e]|]; simpl in *; [|split; [lia|done]|done].
  split; [lia|]. eapply Forall_impl; [exact H|]. simpl. intros b Hb. lia.
Qed.

Lemma runs_parseAppendBoxes' n : runs n parseAppendBoxes anything.
Proof. eapply runs_mono; [apply runs_parseAppendBoxes|done]. Qed.
#[export] Hint Resolve runs_parseAppendBoxes' : bmff.

(** *** The parsers *)

Section parsers.
Context (n : nat) (parse : box → option (result Box)).
Context (Hparse : ∀ b, (length (body b) + 8 ≤ n)%nat → is_Some (parse b)).

Lemma parse_ok b Q : (length (body b) + 8 ≤ n)%nat → (∀ r, parse b = Some r → Q r) → wp (parse b) Q.
Proof. intros Hb HQ. destruct (Hparse b Hb) as [r Hr]. rewrite Hr. simpl. by apply HQ. Qed.

Lemma parseEntries_total l :
  Forall (λ b, length (body b) + 8 ≤ n)%nat l → is_Some (parseEntries parse l).
Proof.
  induction 1 as [|b l Hb Hl IH]; simpl; [by eexists|]. destruct (Hparse b Hb) as [[pb|e] ->]; [|by eexists].
  destruct IH as [[ies|e] ->]; by eexists.
Qed.

Lemma parseAssociations_total l :
  Forall (λ b, length (body b) + 8 ≤ n)%nat l → is_Some (parseAssociations parse l).
Proof.
  induction 1 as [|b l Hb Hl IH]; simpl; [by eexists|]. destruct (Hparse b Hb) as [[pb|e] ->]; [|by eexists].
  destruct IH as [[ies|e] ->]; destruct pb; by eexists.
Qed.

Lemma wp_is_Some {A} (m : option (result A)) :
  is_Some m → wp m (λ r, match r with Ok x => anything x | Err _ => True end).
Proof. by intros [[] ->]. Qed.

Lemma runs_parseItemInfoBox outer : runs n (parseItemInfoBox parse outer) anything.
Proof.
  unfold parseItemInfoBox. eapply runs_bind; [runs_all|intros fb _].
  eapply runs_bind; [apply runs_soft; runs_all|intros count _].
  eapply (runs_bind _ _ _ (Forall (λ b, length (body b) + 8 ≤ n)%nat)).
  { apply runs_soft_Q; [by constructor|apply runs_parseAppendBoxes]. }
  intros boxes Hb. eapply runs_bind; [apply runs_ok|intros good _].
  eapply (runs_bind _ _ _ anything); [|intros; by apply runs_failSticky].
  apply runs_if; [|by apply runs_ret]. apply runs_lift, wp_is_Some. by apply parseEntries_total.
Qed.

Lemma runs_parseItemPropertiesBox outer : runs n (parseItemPropertiesBox parse outer) anything.
Proof.
  unfold parseItemPropertiesBox. eapply runs_bind; [apply runs_parseAppendBoxes|].
  intros boxes Hb. destruct boxes as [|b0 [|b1 rest]]; [runs_all..|].
  apply Forall_cons in Hb as [Hb0 Hb]. eapply runs_bind.
  { apply runs_orFail, runs_lift, wp_is_Some. by apply Hparse. }
  intros cb _. destruct cb; try apply runs_fail. eapply runs_bind; [|intros; by apply runs_ret].
  apply runs_lift, wp_is_Some. by apply parseAssociations_total.
Qed.

Context (Hdata : ∀ b r, boxType b = bs "data" → parse b = Some (Ok r) → ∃ db, r = Data db).

Lemma readItemData_total fuel r :
  (length (input r) < fuel)%nat → (length (input r) ≤ n)%nat → is_Some (readItemData fuel parse r).
Proof.
  revert r. induction fuel as [|fuel IH]; intros r Hf Hn; [lia|]. simpl.
  destruct (ReadBox r) as [[b r']|e] eqn:E; [|by eexists].
  pose proof (ReadBox_shorter _ _ _ E) as Hs. destruct (IH r') as [x Hx]; [lia|lia|].
  destruct (decide _) as [Hd|]; [|by rewrite Hx; eexists].
  destruct (Hparse b) as [[pb|e] Hpb]; [lia| |rewrite Hpb; by eexists]. rewrite Hpb.
  destruct (Hdata _ _ Hd Hpb) as [db ->]. rewrite Hx. destruct x; by eexists.
Qed.

Lemma readItems_total l :
  Forall (λ b, length (body b) + 8 ≤ n)%nat l → is_Some (readItems parse l).
Proof.
  induction 1 as [|b l Hb Hl IH]; [by eexists|]. cbn [readItems].
  destruct (readItemData_total (S (length (body b))) (NewReader (body b))) as [x Hx]; [simpl; lia|simpl; lia|].
  rewrite Hx. destruct x; [|by eexists]. destruct IH as [[l'|] ->]; by eexists.
Qed.

Lemma runs_parseItemListBox outer : runs n (parseItemListBox parse outer) anything.
Proof.
  unfold parseItemListBox. eapply runs_bind; [apply runs_parseAppendBoxes|]. intros l Hl.
  eapply runs_bind; [|intros; by apply runs_ret]. apply runs_lift, wp_is_Some. by apply readItems_total.
Qed.
End parsers.

(** *** Loops over entries

    A sticky error stays, so a parser that begins with a read of an integer
    takes a byte or leaves an error. *)
Definition steady {A} (m : P A) : Prop :=
  ∀ br r br', m br = Some (r, br') → br_err br ≠ None → br_err br' ≠ None.

Lemma steady_id {A} (m : P A) :
  (∀ br r br', m br = Some (r, br') → br_err br' = br_err br ∨ br_err br' ≠ None) → steady m.
Proof. intros Hm br r br' H Hne. destruct (Hm _ _ _ H) as [->|]; done. Qed.

Lemma steady_bind {A B} (m : P A) (f : A → P B) : steady m → (∀ x, steady (f x)) → steady (pbind m f).
Proof.
  intros Hm Hf br r br' H Hne. unfold pbind in H. destruct (m br) as [[[x|e] br1]|] eqn:E; [| |done].
  - eapply Hf; [done|]. by eapply Hm.
  - injection H as <- <-. by eapply Hm.
Qed.

Lemma steady_soft {A} (d : A) (m : P A) : steady m → steady (soft d m).
Proof.
  intros Hm br r br' H Hne. unfold soft in H. destruct (m br) as [[[x|e] br1]|] eqn:E; [| |done];
    injection H as <- <-; by eapply Hm.
Qed.

Lemma steady_guard {A} (m : P A) : steady (guard m).
Proof.
  intros br r br' H Hne. unfold guard in H. destruct (br_err br) eqn:E; [|done]. injection H as <- <-. by rewrite E.
Qed.

Lemma steady_repeatOk {A} fuel count (m : P A) : steady (repeatOk fuel count m).
Proof.
  intros br r br' H Hne. destruct fuel; simpl in H; (destruct (br_err br) eqn:E; [|done]);
    injection H as <- <-; by rewrite E.
Qed.

Lemma steady_if {A} (b : bool) (m1 m2 : P A) : steady m1 → steady m2 → steady (if b then m1 else m2).
Proof. by destruct b. Qed.

Lemma steady_ret {A} (x : A) : steady (pret x).
Proof. apply steady_id. intros br r br' [= <- <-]. by left. Qed.
Lemma steady_fail {A} e : steady (@pfail A e).
Proof. apply steady_id. intros br r br' [= <- <-]. by left. Qed.
Lemma steady_failSticky {A} (x : A) : steady (failSticky x).
Proof.
  apply steady_id. intros br r br' H. left. unfold failSticky in H.
  destruct (br_err br) eqn:E; by injection H as <- <-.
Qed.
Lemma steady_fill n : steady (fill n).
Proof.
  apply steady_id. intros br r br' H. left. unfold fill in H. destruct (readFull _ _ _) as [[? ?]|]; by injection H as <- <-.
Qed.
Lemma steady_readAtMost n : steady (readAtMost n).
Proof. apply steady_id. intros br r br' [= <- <-]. by left. Qed.

Ltac steady_all := repeat first
  [ apply steady_guard | apply steady_repeatOk | apply steady_ret | apply steady_fail
  | apply steady_failSticky | apply steady_fill | apply steady_readAtMost
  | apply steady_bind; [|intros ?] | apply steady_soft | apply steady_if ].

Lemma eats_readUint {B} k (d : Z) (f : Z → P B) :
  (0 < k)%nat → (∀ x, steady (f x)) → (∀ x n, runs n (f x) anything) →
  eats (pbind (soft d (readUint k)) f).
Proof.
  intros Hk Hfs Hfr br r br' H Herr.
  assert (∀ br1 x, f x br1 = Some (r, br') →
    (length (br_rest br') ≤ length (br_rest br1))%nat ∧ (br_err br1 ≠ None → br_err br' ≠ None)) as Hcont.
  { intros br1 x H1. split.
    - pose proof (Hfr x _ br1 (le_n _)) as Hr. rewrite H1 in Hr. by destruct Hr.
    - by apply (Hfs x br1 r br'). }
  revert H. unfold readUint, pbind at 1, soft, guard. rewrite Herr. unfold recording, Peek, pbind at 1.
  destruct (decide (k ≤ length (br_rest br))%nat) as [Hle|Hgt].
  - cbn [br_rest br_err Discard pbind pret]. intros H.
    edestruct (Hcont (BufReader (drop k (br_rest br)) (br_err br) (br_end br))) as [Hl _]; [exact H|].
    simpl in Hl. rewrite length_drop in Hl. left. lia.
  - intros H. right. left. edestruct (Hcont (BufReader (br_rest br) (Some (br_end br)) (br_end br))) as [_ Hl]; [exact H|].
    by apply Hl.
Qed.

Lemma runs_readAssociation n flags : runs n (readAssociation flags) anything.
Proof. unfold readAssociation. runs_all. Qed.

Lemma runs_repeat16 {A} n count (m : P A) :
  (∀ n, runs n m anything) → runs n (repeatOk (Z.to_nat count) count m) anything.
Proof. intros Hm. apply runs_repeatOk; [apply Hm|lia]. Qed.

#[export] Hint Resolve runs_readAssociation runs_repeat16 : bmff.

Lemma runs_readAssociationItem n fb : runs n (readAssociationItem fb) anything.
Proof. unfold readAssociationItem. runs_all. Qed.

Lemma eats_readAssociationItem fb : eats (readAssociationItem fb).
Proof.
  unfold readAssociationItem. destruct (Version fb <? 1); apply eats_readUint; try lia;
    intros; [steady_all|runs_all|steady_all|runs_all].
Qed.

Lemma runs_readExtent n fb os ls xs : runs n (readExtent fb os ls xs) anything.
Proof. unfold readExtent. runs_all. Qed.
#[export] Hint Resolve runs_readExtent : bmff.

Lemma runs_readLocation n fb os ls bo xs : runs n (readLocation fb os ls bo xs) anything.
Proof. unfold readLocation. runs_all. Qed.

Lemma eats_readLocation fb os ls bo xs : eats (readLocation fb os ls bo xs).
Proof.
  unfold readLocation. destruct (Version fb <? 2); apply eats_readUint; try lia;
    intros; [steady_all|runs_all|steady_all|runs_all].
Qed.

Lemma runs_readKey n : runs n readKey anything.
Proof. unfold readKey. runs_all. Qed.

Lemma eats_readKey : eats readKey.
Proof. apply eats_readUint; [lia|intros; steady_all|intros; runs_all]. Qed.

Lemma readReference_total fb rb : is_Some (readReference fb rb).
Proof.
  unfold readReference.
  assert (∀ n (readID : P Z), (∀ n, runs n readID anything) → runs n
    (from ←p readID; n ←p soft 0 readUint16; ids ←p repeatOk (Z.to_nat n) n readID;
     failSticky (MkItemReference (boxType rb) from ids)) anything) as Hr.
  { intros n readID Hid. eapply runs_bind; [apply Hid|]. intros. runs_all. }
  match goal with |- context [pbind ?m ?f] => pose proof (Hr _ m
    ltac:(intros; runs_all) (BufReader (body rb) None (bodyEnd rb)) (le_n _)) as H end.
  cbv beta zeta in *. destruct (pbind _ _ _) as [[[x|e] br]|]; [by eexists..|done].
Qed.

Lemma readReferences_total fb l : is_Some (readReferences fb l).
Proof.
  induction l as [|rb l IH]; simpl; [by eexists|]. destruct (readReference_total fb rb) as [[x|e] ->]; [|by eexists].
  destruct IH as [[]  ->]; by eexists.
Qed.

Lemma pbind_Ok {A B} (m : P A) (f : A → P B) br x br' :
  pbind m f br = Some (Ok x, br') →
  ∃ y br1, m br = Some (Ok y, br1) ∧ f y br1 = Some (Ok x, br').
Proof. unfold pbind. destruct (m br) as [[[y|e] br1]|]; [|done..]. eauto. Qed.

Lemma Parse_data fuel b r : boxType b = bs "data" → Parse fuel b = Some (Ok r) → ∃ db, r = Data db.
Proof.
  intros Ht. destruct fuel as [|fuel]; [done|]. cbn [Parse]. rewrite Ht.
  assert (findParser (parsers (Parse fuel)) (bs "data") = Some parseDataBox) as -> by done.
  destruct (parseDataBox b _) as [[[x|e] br]|] eqn:E; [|done..]. intros [= <-].
  unfold parseDataBox in E. repeat (apply pbind_Ok in E as (?&?&_&E)). injection E as <- _. by eexists.
Qed.

Lemma findParser_elem l t p : findParser l t = Some p → (t, p) ∈ l.
Proof.
  induction l as [|[t' p'] l IH]; [done|]. simpl. destruct (decide (t = t')) as [->|].
  - intros [= ->]. apply list_elem_of_here.
  - intros H. apply list_elem_of_further. auto.
Qed.

(** [Parse] returns on every box. *)
Lemma Parse_total fuel b : (length (body b) < fuel)%nat → is_Some (Parse fuel b).
Proof.
  revert b. induction fuel as [|fuel IH]; intros b Hf; [lia|]. cbn [Parse].
  destruct (findParser _ _) as [p|] eqn:E; [|by eexists]. apply findParser_elem in E.
  enough (runs (length (body b)) (p b) anything) as Hr.
  { specialize (Hr (BufReader (body b) None (bodyEnd b)) (le_n _)). destruct (p b _) as [[r br]|]; [by eexists|done]. }
  assert (∀ c, (length (body c) + 8 ≤ length (body b))%nat → is_Some (Parse fuel c)) as Hp.
  { intros c Hc. apply IH. lia. }
  revert E. generalize (boxType b). intros t E. unfold parsers in E.
  repeat (apply elem_of_cons in E as [[= _ ->]|E]); [..|by apply not_elem_of_nil in E].
  - unfold parseDataBox. runs_all.
  - unfold parseDataInformationBox. runs_all.
  - unfold parseDataReferenceBox. runs_all.
  - unfold parseFileTypeBox. runs_step; [runs_all|]. runs_step; [runs_all|]. runs_step; [|runs_all].
    intros br Hn. apply (runs_readBrands _ (length (br_rest br))); lia.
  - unfold parseHandlerBox. runs_all.
  - by apply runs_parseItemInfoBox.
  - apply runs_parseItemListBox; [done|]. intros c r. apply Parse_data.
  - unfold parseItemInfoEntry. runs_all.
  - unfold parseItemLocationBox. runs_all.
    apply runs_repeatBytes; [intros; apply runs_readLocation|apply eats_readLocation].
  - unfold parseItemPropertyContainerBox. runs_all.
  - unfold parseItemPropertyAssociation. runs_all.
    apply runs_repeatBytes; [intros; apply runs_readAssociationItem|apply eats_readAssociationItem].
  - by apply runs_parseItemPropertiesBox.
  - unfold parseItemReferenceBox. runs_all. apply runs_lift, wp_is_Some, readReferences_total.
  - unfold parseImageRotation. runs_all.
  - unfold parseImageSpatialExtentsProperty. runs_all.
  - unfold parseKeysBox. runs_all.
    apply runs_repeatBytes; [intros; apply runs_readKey|apply eats_readKey].
  - intros br Hn. unfold parseMetaBox. unfold Peek.
    assert (runs (length (body b)) (fb ←p readFullBox b; l ←p parseAppendBoxes; pret (Meta (MkMeta fb false l))) anything) as H1 by runs_all.
    assert (runs (length (body b)) (l ←p parseAppendBoxes; pret (Meta (MkMeta (MkFullBox b 0 0) true l))) anything) as H2 by runs_all.
    destruct (decide _); [|by apply H1]. destruct (decide _); [by apply H2|by apply H1].
  - unfold parseMovieHeaderBox. runs_all.
  - unfold parsePrimaryItemBox. runs_all.
Qed.

(** ** Positions *)

Section positions.
Context (s : list byte) (Hs : zlen s < 2 ^ 63).

(** The reader is behind [pos] bytes of [s], or behind a truncated box. *)
Definition readerAt (r : Reader) : Prop :=
  input r = [] ∨ 0 ≤ pos r ≤ zlen s ∧ input r = drop (Z.to_nat (pos r)) s.

(** The body of [b] is where its offset, header size and size say. *)
Definition located (b : box) : Prop :=
  0 ≤ offset b ∧ offset b + headerSize b ≤ zlen s ∧
  let rest := drop (Z.to_nat (offset b + headerSize b)) s in
  body b = if size b =? 0 then rest else take (Z.to_nat (size b - headerSize b)) rest.

Lemma ReadBox_located r b r' : readerAt r → ReadBox r = Ok (b, r') → located b ∧ readerAt r'.
Proof.
  intros Hr H. pose proof (ReadBox_spec _ _ _ H) as (hdr&Hin&Hh&Ho&_&Hsz&_&Hcases).
  assert (0 < length hdr)%nat as Hpos by lia.
  destruct Hr as [Hr|[Hp Hr]].
  { rewrite Hr in Hin. destruct hdr; simpl in *; [lia|done]. }
  rewrite Hr in Hin.
  assert (drop (Z.to_nat (offset b + headerSize b)) s = body b ++ input r') as Hd.
  { rewrite Ho, <-Hh. replace (Z.to_nat (pos r + zlen hdr)) with (Z.to_nat (pos r) + length hdr)%nat by lia.
    by rewrite <-drop_drop, Hin, drop_app_length. }
  assert (offset b + headerSize b + zlen (body b) + zlen (input r') = zlen s) as Hlen.
  { apply (f_equal length) in Hin. rewrite length_drop, !length_app in Hin. rewrite Ho. lia. }
  unfold located, readerAt. rewrite Hd. destruct Hcases as [(Hz&_&Hi)|(Hle&_&Hp'&Hb)].
  - rewrite Hz, Hi, app_nil_r. simpl. split_and!; [lia|lia|done|by left].
  - destruct (Z.eqb_spec (size b) 0); [lia|]. split; [split_and!; [lia|lia|done]|].
    destruct (decide (input r' = [])) as [|Hne]; [by left|right].
    assert (zlen (body b) = size b - headerSize b) as Hbl.
    { apply (f_equal length) in Hb. rewrite length_take, length_app in Hb.
      assert (0 < length (input r'))%nat by (destruct (input r'); [done|simpl; lia]). lia. }
    rewrite Hp', wrapS_small; [|done|change (2 ^ (64 - 1)) with (2 ^ 63); lia].
    split; [lia|]. rewrite <-(drop_app_length (body b) (input r')), <-Hd, drop_drop. f_equal. lia.
Qed.

Lemma appendBoxes_located fuel r l :
  readerAt r → appendBoxes fuel r = Some (Ok l) → Forall located l.
Proof.
  revert r l. induction fuel as [|fuel IH]; intros r l Hr H; [done|]. simpl in H.
  destruct (ReadBox r) as [[b r']|e] eqn:E.
  - destruct (readBody b) as [x|e] eqn:Ex; [|done]. rewrite (slurped _ _ _ _ E Ex) in H. destruct (ReadBox_located _ _ _ Hr E) as [Hb Hr'].
    destruct (appendBoxes fuel r') as [[l'|]|] eqn:E'; [|done..]. injection H as <-.
    constructor; [done|]. by eapply IH.
  - destruct (decide _); [|done]. injection H as <-. constructor.
Qed.
End positions.

(** ** Reading what has been written *)

(** A box with a 32-bit size. *)
Definition encodeBox (typ body : list byte) : list byte := bePut 4 (8 + zlen body) ++ typ ++ body.

Lemma readFull_app n x rest e : length x = n → readFull n (x ++ rest) e = Ok (x, rest).
Proof.
  intros <-. unfold readFull. rewrite decide_True by (rewrite length_app; lia).
  by rewrite take_app_length, drop_app_length.
Qed.

Lemma ReadBox_encode typ body rest p :
  length typ = 4%nat → 8 + zlen body < 2 ^ 32 →
  ReadBox (MkReader (encodeBox typ body ++ rest) EOF p false)
  = Ok (MkBox (8 + zlen body) typ p 8 body EOF, MkReader rest EOF (i64 (p + (8 + zlen body))) false).
Proof.
  intros Ht Hb. unfold ReadBox, encodeBox. cbn [noMoreBoxes input pos ending].
  rewrite <-!app_assoc, readFull_app by apply length_bePut. rewrite readFull_app by done.
  rewrite beUint_bePut. change (256 ^ Z.of_nat 4) with (2 ^ 32). rewrite Z.mod_small by lia.
  destruct (Z.eqb_spec (8 + zlen body) 1), (Z.eqb_spec (8 + zlen body) 0); try lia.
  destruct (Z.ltb_spec (8 + zlen body - 2 * 4) 0); [lia|].
  replace (Z.to_nat (8 + zlen body - 2 * 4)) with (length body) by lia.
  rewrite take_app_length, drop_app_length. unfold limitEnd. cbn [ending]. rewrite length_app.
  by destruct (Z.leb_spec (8 + zlen body - 2 * 4) (Z.of_nat (length body + length rest))); [|lia].
Qed.

Lemma ReadBox_end p : ReadBox (MkReader [] EOF p false) = Err EOF.
Proof. done. Qed.

(** The children of a body made of boxes. *)
Fixpoint boxesAt (p : Z) (l : list (list byte * list byte)) : list box :=
  match l with
  | [] => []
  | (typ, body) :: l => MkBox (8 + zlen body) typ p 8 body EOF :: boxesAt (i64 (p + (8 + zlen body))) l
  end.

Definition encodeBoxes (l : list (list byte * list byte)) : list byte :=
  concat ((λ p, encodeBox p.1 p.2) <$> l).

Lemma length_encodeBox typ body : length (encodeBox typ body) = (4 + length typ + length body)%nat.
Proof. unfold encodeBox. rewrite !length_app, length_bePut. lia. Qed.

Definition encodable (p : list byte * list byte) : Prop := length p.1 = 4%nat ∧ 8 + zlen p.2 < 2 ^ 32.

Lemma appendBoxes_encode fuel l p :
  Forall encodable l → (length l < fuel)%nat →
  appendBoxes fuel (MkReader (encodeBoxes l) EOF p false) = Some (Ok (boxesAt p l)).
Proof.
  intros Hl. revert p fuel. induction Hl as [|[typ body] l [Ht Hb] Hl IH]; intros p [|fuel] Hf; simpl in Hf; try lia; [done|].
  simpl in Ht, Hb. change (encodeBoxes ((typ, body) :: l)) with (encodeBox typ body ++ encodeBoxes l).
  cbn [appendBoxes boxesAt]. rewrite ReadBox_encode by done.
  pose proof (ReadBox_encode typ body [] p Ht Hb) as E. rewrite (readBody_body _ _ _ E), decide_True by done.
  cbn [size boxType offset headerSize Bmff.body]. by rewrite IH by lia.
Qed.

Lemma parseAppendBoxes_encode l :
  Forall encodable l →
  parseAppendBoxes (BufReader (encodeBoxes l) None EOF) = Some (Ok (boxesAt 0 l), BufReader [] None EOF).
Proof.
  intros Hl. unfold parseAppendBoxes, guard. cbn [br_err br_rest].
  cbn [br_end]. unfold NewReaderOf. rewrite appendBoxes_encode; [done|done|].
  enough (length l ≤ length (encodeBoxes l))%nat by lia. clear. induction l as [|[typ body] l IH]; [done|].
  change (encodeBoxes ((typ, body) :: l)) with (encodeBox typ body ++ encodeBoxes l).
  rewrite length_app, length_encodeBox. simpl. lia.
Qed.
