(* ===== verification/BmffTypes.v ===== *)
(** * media/heif/bmff: the types of parsed boxes

    What [Parse] returns has the Go type registered for the box's type, the
    box itself embedded, and every field within its type: integers in their
    width or in the bits they were cut out of, lists no longer than their
    counts. *)
From S2P Require Import Prelude.
From S2P Require Import GoIO.
From S2P Require Import Bmff.
From S2P Require Import BmffLaws.

(** ** Types *)

(** An unsigned integer of [n] bits. *)
Definition uint (n : Z) (v : Z) : Prop := 0 ≤ v < 2 ^ n.

(** The embedded [*box] of what a parser returns. *)
Definition outerBox (pb : Box) : box :=
  match pb with
  | Unparsed b => b
  | FileType b => ft_box b
  | Meta b => fb_box (mb_full b)
  | ItemInfoE b => fb_box (ie_full b)
  | ItemInfo b => fb_box (ib_full b)
  | Container b => ipc_box b
  | ItemProperties b => ip_box b
  | Association b => fb_box (ipa_full b)
  | SpatialExtents b => fb_box (se_full b)
  | ItemLocation b => fb_box (il_full b)
  | Handler b => fb_box (hb_full b)
  | DataInformation b => dib_box b
  | DataReference b => fb_box (drb_full b)
  | PrimaryItem b => fb_box (pib_full b)
  | ItemReferences b => fb_box (irb_full b)
  | Rotation b => ir_box b
  | MovieHeader b => fb_box (mh_full b)
  | KeysB b => fb_box (kb_full b)
  | Data b => db_box b
  | ItemList b => ilb_box b
  end.

(** The box type whose parser returns a Go type; a box itself has none. *)
Definition typeOf (pb : Box) : option (list byte) :=
  match pb with
  | Unparsed _ => None
  | FileType _ => Some (bs "ftyp")
  | Meta _ => Some (bs "meta")
  | ItemInfoE _ => Some (bs "infe")
  | ItemInfo _ => Some (bs "iinf")
  | Container _ => Some (bs "ipco")
  | ItemProperties _ => Some (bs "iprp")
  | Association _ => Some (bs "ipma")
  | SpatialExtents _ => Some (bs "ispe")
  | ItemLocation _ => Some (bs "iloc")
  | Handler _ => Some (bs "hdlr")
  | DataInformation _ => Some (bs "dinf")
  | DataReference _ => Some (bs "dref")
  | PrimaryItem _ => Some (bs "pitm")
  | ItemReferences _ => Some (bs "iref")
  | Rotation _ => Some (bs "irot")
  | MovieHeader _ => Some (bs "mvhd")
  | KeysB _ => Some (bs "keys")
  | Data _ => Some (bs "data")
  | ItemList _ => Some (bs "ilst")
  end.

Definition fullTyped (fb : FullBox) : Prop := uint 8 (Version fb) ∧ uint 24 (Flags fb).
Definition children (l : list box) : Prop := Forall (λ b, length (boxType b) = 4%nat) l.
(** At most [count] elements, each one well typed. *)
Definition counted {A} (count : Z) (Q : A → Prop) (l : list A) : Prop := Forall Q l ∧ zlen l ≤ count.

(** IDs have 16 bits in the early versions of a box. *)
Definition idTyped (fb : FullBox) (wide : Z) (id : Z) : Prop := uint (if Version fb <? wide then 16 else 32) id.

Definition entryTyped (e : ItemInfoEntry) : Prop :=
  fullTyped (ie_full e) ∧ Version (ie_full e) = 2 ∧ uint 16 (ie_ItemID e) ∧ uint 16 (ProtectionIndex e) ∧
  length (ItemType e) = 4%nat ∧ (ContentType e ≠ [] ∨ ContentEncoding e ≠ [] → ItemType e = bs "mime") ∧
  (ItemURIType e ≠ [] → ItemType e = bs "uri ").
Definition associationItemTyped (fb : FullBox) (it : ItemPropertyAssociationItem) : Prop :=
  idTyped fb 1 (ai_ItemID it) ∧ uint 8 (AssociationsCount it) ∧
  counted (AssociationsCount it) (λ p, uint (if Z.land (Flags fb) 1 =? 0 then 7 else 15) (Index p)) (ai_Associations it).
Definition associationTyped (a : ItemPropertyAssociation) : Prop :=
  fullTyped (ipa_full a) ∧ uint 32 (ipa_EntryCount a) ∧
  counted (ipa_EntryCount a) (associationItemTyped (ipa_full a)) (Entries a).
Definition extentTyped (o : OffsetLength) : Prop := uint 64 (Offset o) ∧ uint 64 (Length o).
Definition locationTyped (fb : FullBox) (e : ItemLocationBoxEntry) : Prop :=
  idTyped fb 2 (le_ItemID e) ∧ uint (if 0 <? Version fb then 4 else 0) (ConstructionMethod e) ∧
  uint 16 (DataReferenceIndex e) ∧ uint 64 (BaseOffset e) ∧ uint 16 (ExtentCount e) ∧
  counted (ExtentCount e) extentTyped (Extents e).
Definition referenceTyped (fb : FullBox) (r : ItemReference) : Prop :=
  length (ref_Type r) = 4%nat ∧ idTyped fb 1 (FromItemID r) ∧ counted (2 ^ 16 - 1) (idTyped fb 1) (ToItemIDs r).
Definition dataTyped (d : DataBox) : Prop :=
  uint 32 (DataType d) ∧ uint 32 (Locale d).
Definition metadataTyped (i : MetadataItem) : Prop :=
  length (boxType (mi_box i)) = 4%nat ∧ uint 32 (KeyIndex i) ∧ Forall (λ d, boxType (db_box d) = bs "data" ∧ dataTyped d) (mi_Data i).

Definition wellTyped (pb : Box) : Prop :=
  match pb with
  | Unparsed _ => True
  | FileType b => length (MajorBrand b) = 4%nat ∧ length (MinorVersion b) = 4%nat ∧ Forall (λ s, length s = 4%nat) (Compatible b)
  | Meta b => fullTyped (mb_full b) ∧ children (mb_Children b)
  | ItemInfoE b => entryTyped b
  | ItemInfo b => fullTyped (ib_full b) ∧ uint 16 (ib_Count b) ∧
      Forall (λ e, boxType (fb_box (ie_full e)) = bs "infe" ∧ entryTyped e) (ItemInfos b)
  | Container b => children (Properties b)
  | ItemProperties b =>
      boxType (ipc_box (PropertyContainer b)) = bs "ipco" ∧ children (Properties (PropertyContainer b)) ∧
      Forall (λ a, boxType (fb_box (ipa_full a)) = bs "ipma" ∧ associationTyped a) (Associations b)
  | Association b => associationTyped b
  | SpatialExtents b => fullTyped (se_full b) ∧ uint 32 (ImageWidth b) ∧ uint 32 (ImageHeight b)
  | ItemLocation b =>
      fullTyped (il_full b) ∧ uint 4 (offsetSize b) ∧ uint 4 (lengthSize b) ∧ uint 4 (baseOffsetSize b) ∧
      uint (if 0 <? Version (il_full b) then 4 else 0) (indexSize b) ∧ idTyped (il_full b) 2 (ItemCount b) ∧
      counted (ItemCount b) (locationTyped (il_full b)) (il_Items b)
  | Handler b => fullTyped (hb_full b) ∧ length (HandlerType b) = 4%nat
  | DataInformation b => children (dib_Children b)
  | DataReference b => fullTyped (drb_full b) ∧ uint 32 (drb_EntryCount b) ∧ children (drb_Children b)
  | PrimaryItem b => fullTyped (pib_full b) ∧ idTyped (pib_full b) 1 (pib_ItemID b)
  | ItemReferences b => fullTyped (irb_full b) ∧ Forall (referenceTyped (irb_full b)) (References b)
  | Rotation b => uint 2 (Angle b)
  | MovieHeader b =>
      fullTyped (mh_full b) ∧ uint 32 (TimeScale b) ∧
      let n := if Version (mh_full b) =? 0 then 32 else 64 in
      uint n (CreationTime b) ∧ uint n (ModificationTime b) ∧ uint n (Duration b)
  | KeysB b => fullTyped (kb_full b) ∧ ∃ count, uint 32 count ∧ counted count (λ k, length (Namespace k) = 4%nat) (Keys b)
  | Data b => dataTyped b
  | ItemList b => Forall metadataTyped (mi_Items b)
  end.

(** [pb] is a well-typed result of the parser for boxes of type [t]. *)
Definition typed (b : box) (t : list byte) (pb : Box) : Prop :=
  outerBox pb = b ∧ typeOf pb = Some t ∧ wellTyped pb.

(** ** What computations return

    [yields m Q]: [m] returns only values that satisfy [Q]. *)
Definition yields {A} (m : P A) (Q : A → Prop) : Prop :=
  ∀ br x br', m br = Some (Ok x, br') → Q x.

Create HintDb yields.

Lemma yields_bind {A B} (m : P A) (f : A → P B) Q R :
  yields m Q → (∀ x, Q x → yields (f x) R) → yields (pbind m f) R.
Proof. intros Hm Hf br x br' (y&br1&H1&H2)%pbind_Ok. eapply Hf; [by eapply Hm|done]. Qed.

Lemma yields_mono {A} (m : P A) (Q R : A → Prop) : yields m Q → (∀ x, Q x → R x) → yields m R.
Proof. intros Hm HQ br x br' H. by eapply HQ, Hm. Qed.

Lemma yields_any {A} (m : P A) : yields m anything.
Proof. done. Qed.

Lemma yields_ret {A} (x : A) (Q : A → Prop) : Q x → yields (pret x) Q.
Proof. by intros HQ br y br' [= <- <-]. Qed.

Lemma yields_fail {A} e (Q : A → Prop) : yields (pfail e) Q.
Proof. by intros br y br' H. Qed.

Lemma yields_failSticky {A} (x : A) (Q : A → Prop) : Q x → yields (failSticky x) Q.
Proof. intros HQ br y br' H. unfold failSticky in H. destruct (br_err br); [done|]. by injection H as <- <-. Qed.

Lemma yields_soft {A} (d : A) (m : P A) (Q : A → Prop) : Q d → yields m Q → yields (soft d m) Q.
Proof. intros Hd Hm br x br' H. unfold soft in H. destruct (m br) as [[[y|e] br1]|] eqn:E; [|by injection H as <- _|done].
  injection H as <- _. by eapply Hm. Qed.

Lemma yields_orFail {A} e (m : P A) (Q : A → Prop) : yields m Q → yields (orFail e m) Q.
Proof. intros Hm br x br' H. unfold orFail in H. destruct (m br) as [[[y|e'] br1]|] eqn:E; [|done|done].
  injection H as <- _. by eapply Hm. Qed.

Lemma yields_guard {A} (m : P A) (Q : A → Prop) : yields m Q → yields (guard m) Q.
Proof. intros Hm br x br' H. unfold guard in H. destruct (br_err br); [done|]. by eapply Hm. Qed.

Lemma yields_recording {A} (m : P A) (Q : A → Prop) : yields m Q → yields (recording m) Q.
Proof. intros Hm br x br' H. unfold recording in H. destruct (m br) as [[[y|e'] br1]|] eqn:E; [|done|done].
  injection H as <- _. by eapply Hm. Qed.

Lemma yields_if {A} (c : bool) (m1 m2 : P A) (Q : A → Prop) :
  (c = true → yields m1 Q) → (c = false → yields m2 Q) → yields (if c then m1 else m2) Q.
Proof. destruct c; auto. Qed.

Lemma yields_Peek n : yields (Peek n) (λ l, length l = n).
Proof. intros br x br' H. unfold Peek in H. destruct (decide _); [|done]. injection H as <- _. rewrite length_take. lia. Qed.

Lemma yields_repeatOk {A} fuel count (m : P A) (Q : A → Prop) :
  yields m Q → 0 ≤ count → yields (repeatOk fuel count m) (counted count Q).
Proof.
  intros Hm. revert count. induction fuel as [|fuel IH]; intros count Hc br x br' H; simpl in H;
    destruct (br_err br); try (injection H as <- <-; by repeat constructor);
    destruct (Z.leb_spec count 0); try (injection H as <- <-; by repeat constructor); [done|].
  apply pbind_Ok in H as (y&br1&H1&H2). apply pbind_Ok in H2 as (l&br2&H2&H3). injection H3 as <- <-.
  apply IH in H2 as [HF Hl]; [|lia]. split; [constructor; [by eapply Hm|done]|cbn [length]; lia].
Qed.

#[local] Hint Resolve yields_orFail yields_guard yields_recording yields_Peek : yields.
#[local] Hint Resolve yields_any | 100 : yields.

(** One step through a computation: what the rest may assume of a value. *)
Ltac yields_step :=
  lazymatch goal with
  | |- yields (pbind _ _) _ => eapply yields_bind; [typeclasses eauto with yields nocore|intros ? ?; cbv beta in *]
  | |- yields (if _ then _ else _) _ => apply yields_if; intros ?
  | |- yields (pret _) _ => apply yields_ret
  | |- yields (failSticky _) _ => apply yields_failSticky
  | |- yields (pfail _) _ => apply yields_fail
  end.

Lemma uint_0 n : 0 ≤ n → uint n 0.
Proof. intros Hn. split; [done|]. by apply Z.pow_pos_nonneg. Qed.

Lemma uint_le n m v : uint n v → n ≤ m → uint m v.
Proof. intros [? ?] Hm. split; [done|]. assert (2 ^ n ≤ 2 ^ m) by (by apply Z.pow_le_mono_r). lia. Qed.

Lemma beUint_uint k b : length b = k → uint (8 * Z.of_nat k) (beUint b).
Proof. intros <-. unfold uint. rewrite Z.pow_mul_r by lia. apply beUint_range. Qed.

Lemma yields_readUint k : yields (readUint k) (uint (8 * Z.of_nat k)).
Proof.
  unfold readUint. apply yields_guard. yields_step. eapply yields_bind; [apply yields_any|]. intros _ _.
  yields_step. by apply beUint_uint.
Qed.

Lemma yields_soft_uint k n : n = 8 * Z.of_nat k → yields (soft 0 (readUint k)) (uint n).
Proof. intros ->. apply yields_soft; [apply uint_0; lia|apply yields_readUint]. Qed.

Lemma yields_uint8 : yields (soft 0 readUint8) (uint 8).
Proof. by apply yields_soft_uint. Qed.
Lemma yields_uint16 : yields (soft 0 readUint16) (uint 16).
Proof. by apply yields_soft_uint. Qed.
Lemma yields_uint32 : yields (soft 0 readUint32) (uint 32).
Proof. by apply yields_soft_uint. Qed.

Lemma yields_uintN bits : yields (soft 0 (readUintN bits)) (uint 64).
Proof.
  apply yields_soft; [by apply uint_0|]. unfold readUintN. apply yields_guard. yields_step; yields_step; [by apply uint_0|].
  eapply yields_bind; [apply yields_any|]. intros _ _. yields_step; [|by intros br v br' ?].
  assert (bits ≤ 64) as Hb by lia.
  yields_step. apply (uint_le (8 * Z.of_nat (Z.to_nat (bits / 8)))); [by apply beUint_uint|].
  assert (bits / 8 ≤ 8) by (apply Z.div_le_upper_bound; lia). lia.
Qed.
#[local] Hint Resolve yields_uint8 yields_uint16 yields_uint32 yields_uintN : yields.

Lemma yields_readFullBox b : yields (readFullBox b) (λ fb, fb_box fb = b ∧ fullTyped fb).
Proof.
  unfold readFullBox. yields_step. eapply yields_bind; [apply yields_any|]. intros _ _. yields_step.
  split; [done|]. cbn [Version Flags]. split.
  - apply (beUint_uint 1). rewrite length_take. lia.
  - apply (beUint_uint 3). rewrite length_drop. lia.
Qed.

Lemma appendBoxes_children fuel r l : appendBoxes fuel r = Some (Ok l) → children l.
Proof.
  revert r l. induction fuel as [|fuel IH]; intros r l; [done|]. cbn [appendBoxes].
  destruct (ReadBox r) as [[b r']|e] eqn:E; [|case_decide; [|done]; intros [= <-]; constructor].
  destruct (readBody b) as [x|]; [|done].
  destruct (appendBoxes fuel r') as [[l'|e]|] eqn:El; [|done..]. intros [= <-]. constructor; [|by eapply IH].
  cbn [boxType]. by apply ReadBox_spec in E as (_&_&_&_&?&_).
Qed.

Lemma yields_parseAppendBoxes : yields parseAppendBoxes children.
Proof.
  unfold parseAppendBoxes. apply yields_guard. intros br l br' H.
  destruct (appendBoxes _ _) as [[l'|e]|] eqn:E; [|done..]. injection H as <- _. by eapply appendBoxes_children.
Qed.
#[local] Hint Resolve yields_readFullBox yields_parseAppendBoxes : yields.

(** ** Parsers *)

Lemma yields_readBrands fuel : yields (readBrands fuel) (Forall (λ s, length s = 4%nat)).
Proof.
  induction fuel as [|fuel IH]; intros br l br' H; [done|]. cbn [readBrands] in H.
  destruct (Peek 4 br) as [[[buf|e] br1]|] eqn:E; [|case_decide; [|done]; by injection H as <- _|done].
  apply yields_Peek in E. apply pbind_Ok in H as (?&?&_&H). apply pbind_Ok in H as (l'&?&Hl&H). injection H as <- _.
  constructor; [done|by eapply IH].
Qed.

Lemma length_take_drop {A} n m (l : list A) : length l = (n + m)%nat → length (take n l) = n ∧ length (drop n l) = m.
Proof. intros H. rewrite length_take, length_drop. lia. Qed.

Lemma ftyp_typed b : yields (parseFileTypeBox b) (typed b (bs "ftyp")).
Proof.
  unfold parseFileTypeBox. yields_step. do 1 yields_step.
  eapply (yields_bind _ _ (Forall (λ s, length s = 4%nat))); [intros br; apply yields_readBrands|]. intros l Hl. yields_step.
  apply (length_take_drop 4 4) in H as [? ?]. by split_and!.
Qed.

Lemma meta_typed b : yields (parseMetaBox b) (typed b (bs "meta")).
Proof.
  assert (yields (fb ←p readFullBox b; l ←p parseAppendBoxes; pret (Meta (MkMeta fb false l))) (typed b (bs "meta"))) as H1.
  { yields_step. destruct H as [<- ?]. yields_step. yields_step. by split_and!. }
  assert (yields (l ←p parseAppendBoxes; pret (Meta (MkMeta (MkFullBox b 0 0) true l))) (typed b (bs "meta"))) as H2.
  { yields_step. yields_step. by split_and!. }
  intros br. unfold parseMetaBox. destruct (Peek 8 br) as [[[buf|] br1]|]; [case_decide| |]; [apply H2|apply H1..].
Qed.

Lemma infe_typed b : yields (parseItemInfoEntry b) (typed b (bs "infe")).
Proof.
  unfold parseItemInfoEntry. yields_step. destruct H as [<- ?]. yields_step; [yields_step|].
  apply negb_false_iff, Z.eqb_eq in H0. do 5 yields_step.
  eapply (yields_bind _ _ (λ ie, ie_full ie = x ∧ entryTyped ie)).
  - case_decide as Hm; [|case_decide as Hu].
    + do 2 yields_step. eapply yields_bind; [apply yields_any|]. intros ce _. yields_step. split; [done|]. unfold entryTyped. by split_and!.
    + yields_step. yields_step. split; [done|]. unfold entryTyped. split_and!; try done. by intros [?|?].
    + yields_step. split; [done|]. unfold entryTyped. split_and!; try done. by intros [?|?].
  - intros ie [<- Hie]. yields_step. by split_and!.
Qed.

(** What the recursion assumes of [b.Parse]. *)
Definition parses (parse : box → option (result Box)) : Prop := ∀ b pb, parse b = Some (Ok pb) → typed b (boxType b) pb.

Lemma yields_lift {A} (m : option (result A)) (Q : A → Prop) : (∀ x, m = Some (Ok x) → Q x) → yields (lift m) Q.
Proof. intros Hm br x br' H. unfold lift in H. destruct m as [[y|e]|]; [|done..]. injection H as <- _. by apply Hm. Qed.

Lemma Some_bs_inj t t' : Some (bs t) = Some t' → t' = bs t.
Proof. by intros [= <-]. Qed.

Lemma parseEntries_typed parse l ies :
  parses parse → parseEntries parse l = Some (Ok ies) → Forall (λ e, boxType (fb_box (ie_full e)) = bs "infe" ∧ entryTyped e) ies.
Proof.
  intros Hp. revert ies. induction l as [|b l IH]; intros ies H; cbn in H; [by injection H as <-|].
  destruct (parse b) as [[pb|]|] eqn:E; [|done..]. apply Hp in E as (Eo&Et&Ew).
  destruct (parseEntries parse l) as [[ies'|]|]; [|done..]. injection H as <-. specialize (IH _ eq_refl).
  destruct pb; try done. constructor; [|done]. cbn in Eo, Ew. split; [|done]. rewrite Eo. by apply (Some_bs_inj _ _ Et).
Qed.

Lemma parseAssociations_typed parse l ipas :
  parses parse → parseAssociations parse l = Some (Ok ipas) →
  Forall (λ a, boxType (fb_box (ipa_full a)) = bs "ipma" ∧ associationTyped a) ipas.
Proof.
  intros Hp. revert ipas. induction l as [|b l IH]; intros ipas H; cbn in H; [by injection H as <-|].
  destruct (parse b) as [[pb|]|] eqn:E; [|done..]. apply Hp in E as (Eo&Et&Ew). destruct pb; try done.
  destruct (parseAssociations parse l) as [[ips|]|]; [|done..]. injection H as <-. specialize (IH _ eq_refl).
  constructor; [|done]. cbn in Eo, Ew. split; [|done]. rewrite Eo. by apply (Some_bs_inj _ _ Et).
Qed.

Lemma iinf_typed parse b : parses parse → yields (parseItemInfoBox parse b) (typed b (bs "iinf")).
Proof.
  intros Hp. unfold parseItemInfoBox. yields_step. destruct H as [<- ?]. do 3 yields_step.
  eapply yields_bind.
  { yields_step; [apply yields_lift; intros ies; by apply parseEntries_typed|by apply yields_ret]. }
  intros ies Hies. yields_step. by split_and!.
Qed.

Lemma iprp_typed parse b : parses parse → yields (parseItemPropertiesBox parse b) (typed b (bs "iprp")).
Proof.
  intros Hp. unfold parseItemPropertiesBox. yields_step. destruct x as [|b0 [|b1 rest]]; [yields_step..|].
  eapply yields_bind; [apply yields_orFail, yields_lift, Hp|]. intros cb (Eo&Et&Ew).
  destruct cb; try apply yields_fail. cbn in Eo, Ew.
  eapply yields_bind; [apply yields_lift; intros ipas; by apply parseAssociations_typed|]. intros ipas Hipas.
  yields_step. split_and!; try done. split; [|done]. cbn [wellTyped PropertyContainer]. rewrite Eo. by apply (Some_bs_inj _ _ Et).
Qed.

Lemma data_typed b : yields (parseDataBox b) (typed b (bs "data")).
Proof.
  unfold parseDataBox. do 2 yields_step. eapply yields_bind; [apply yields_any|]. intros _ _.
  do 2 yields_step. by split_and!.
Qed.

Lemma leaf_typed b :
  yields (parseDataInformationBox b) (typed b (bs "dinf")) ∧ yields (parseDataReferenceBox b) (typed b (bs "dref")) ∧
  yields (parseItemPropertyContainerBox b) (typed b (bs "ipco")) ∧
  yields (parseImageSpatialExtentsProperty b) (typed b (bs "ispe")).
Proof.
  split_and!.
  - unfold parseDataInformationBox. do 2 yields_step. by split_and!.
  - unfold parseDataReferenceBox. yields_step. destruct H as [<- ?]. do 3 yields_step. by split_and!.
  - unfold parseItemPropertyContainerBox. do 2 yields_step. by split_and!.
  - unfold parseImageSpatialExtentsProperty. yields_step. destruct H as [<- ?].
    do 2 (eapply yields_bind; [apply (yields_readUint 4)|]; intros ? ?). yields_step. by split_and!.
Qed.

Lemma hdlr_typed b : yields (parseHandlerBox b) (typed b (bs "hdlr")).
Proof.
  unfold parseHandlerBox. yields_step. destruct H as [<- ?]. do 4 yields_step. split_and!; try done. split; [done|].
  cbn [HandlerType]. rewrite length_take, length_drop. lia.
Qed.

Lemma irot_typed b : yields (parseImageRotation b) (typed b (bs "irot")).
Proof.
  unfold parseImageRotation. do 2 yields_step. split_and!; try done. cbn. unfold uint.
  change 3 with (Z.ones 2). rewrite Z.land_ones by done. by apply Z.mod_pos_bound.
Qed.

(** IDs of a version-dependent width. *)
Lemma yields_id fb wide c : fullTyped fb → (c = true ↔ Version fb < wide) →
  yields (if c then soft 0 readUint16 else soft 0 readUint32) (idTyped fb wide).
Proof.
  intros _ Hc. apply yields_if; intros Hb; unfold idTyped; destruct (Z.ltb_spec (Version fb) wide); auto with yields;
    [by apply Hc in Hb; lia|]. exfalso. assert (c = true) as -> by (by apply Hc). done.
Qed.

Lemma version_zero fb : fullTyped fb → (Version fb =? 0) = true ↔ Version fb < 1.
Proof. intros [[? _] _]. rewrite Z.eqb_eq. lia. Qed.

Lemma pitm_typed b : yields (parsePrimaryItemBox b) (typed b (bs "pitm")).
Proof.
  unfold parsePrimaryItemBox. yields_step. destruct H as [<- ?].
  eapply yields_bind; [apply (yields_id x 1); [done|by apply version_zero]|]. intros id Hid. yields_step. by split_and!.
Qed.

Lemma mvhd_typed b : yields (parseMovieHeaderBox b) (typed b (bs "mvhd")).
Proof.
  unfold parseMovieHeaderBox. yields_step. destruct H as [<- Hf].
  eapply (yields_bind _ _ (λ mh, mh_full mh = x ∧ wellTyped (MovieHeader mh))).
  - yields_step; [|yields_step; [|yields_step]].
    + do 5 yields_step. cbn. rewrite H. by split_and!.
    + do 5 yields_step. cbn. rewrite H. by split_and!.
  - intros mh [<- ?]. yields_step. by split_and!.
Qed.

(** *** Loops *)

Lemma uint_bits n v : 0 ≤ n → uint n v ↔ 0 ≤ v ∧ ∀ i, n ≤ i → Z.testbit v i = false.
Proof.
  intros Hn. split.
  - intros [H0 Hv]. split; [done|]. intros i Hi. rewrite <-(Z.mod_small v (2 ^ n)) by done. by apply Z.mod_pow2_bits_high.
  - intros [H0 Hv]. assert (v mod 2 ^ n = v) as Hm; [|split; [done|]; rewrite <-Hm; by apply Z.mod_pos_bound, Z.pow_pos_nonneg].
    apply Z.bits_inj'. intros i Hi. destruct (Z.lt_ge_cases i n); [by apply Z.mod_pow2_bits_low|].
    rewrite Z.mod_pow2_bits_high by lia. symmetry. by apply Hv.
Qed.

Lemma uint_lor n a b : 0 ≤ n → uint n a → uint n b → uint n (Z.lor a b).
Proof.
  intros Hn Ha Hb. apply uint_bits in Ha as [? Ha]; [|done]. apply uint_bits in Hb as [? Hb]; [|done].
  apply uint_bits; [done|]. split; [by apply Z.lor_nonneg|]. intros i Hi. by rewrite Z.lor_spec, Ha, Hb.
Qed.

Lemma index_uint v : uint 8 v → uint 7 (Z.ldiff v (Z.shiftl 1 7)).
Proof.
  intros [? Hv]%uint_bits; [|done]. apply uint_bits; [done|]. split; [by apply Z.ldiff_nonneg; left|].
  intros i Hi. rewrite Z.ldiff_spec. destruct (decide (i = 7)) as [->|]; [by rewrite andb_false_r|]. rewrite Hv; [done|lia].
Qed.

Lemma yields_readAssociation flags : yields (readAssociation flags) (λ p, uint (if Z.land flags 1 =? 0 then 7 else 15) (Index p)).
Proof.
  unfold readAssociation. yields_step. cbn zeta. apply index_uint in H. destruct (Z.land flags 1 =? 0); cbn [negb]; [by yields_step|].
  do 2 yields_step. cbn [Index]. apply uint_lor; [done| |by eapply uint_le].
  destruct H. rewrite wrapU_small; rewrite Z.shiftl_mul_pow2 by done; unfold uint; lia.
Qed.

Lemma yields_counted {A} count (m : P A) (Q : A → Prop) : yields m Q → 0 ≤ count → yields (repeatBytes count m) (counted count Q).
Proof. intros Hm Hc br. by apply yields_repeatOk. Qed.

Lemma version_below fb n : (Version fb <? n) = true ↔ Version fb < n.
Proof. apply Z.ltb_lt. Qed.

Lemma idTyped_nonneg fb n v : idTyped fb n v → 0 ≤ v.
Proof. by intros [? _]. Qed.

Lemma ipma_typed b : yields (parseItemPropertyAssociation b) (typed b (bs "ipma")).
Proof.
  unfold parseItemPropertyAssociation. yields_step. destruct H as [<- Hf]. yields_step. destruct (id H) as [H0 _].
  eapply yields_bind; [apply (yields_counted _ _ (associationItemTyped x)); [|done]|].
  - unfold readAssociationItem. eapply yields_bind; [apply (yields_id x 1); [done|apply version_below]|]. intros i Hi.
    yields_step. eapply yields_bind; [apply yields_repeatOk; [apply yields_readAssociation|by destruct H1]|]. intros l Hl.
    by yields_step.
  - intros l Hl. yields_step. by split_and!.
Qed.

Lemma yields_readLocation fb os ls bo xs : fullTyped fb → yields (readLocation fb os ls bo xs) (locationTyped fb).
Proof.
  intros Hf. unfold readLocation. eapply yields_bind; [apply (yields_id fb 2); [done|apply version_below]|]. intros i Hi.
  eapply (yields_bind _ _ (uint (if 0 <? Version fb then 4 else 0))).
  { destruct (0 <? Version fb); [|by apply yields_ret]. do 2 yields_step. unfold uint. change 15 with (Z.ones 4).
    rewrite Z.land_ones by done. by apply Z.mod_pos_bound. }
  intros cm Hcm. do 3 yields_step.
  eapply yields_bind; [apply (yields_repeatOk _ _ _ extentTyped); [|by destruct H1]|].
  - unfold readExtent. eapply yields_bind; [apply yields_any|]. intros _ _. do 2 yields_step. by yields_step.
  - intros l Hl. by yields_step.
Qed.

Lemma high_nibble v : uint 8 v → uint 4 (Z.shiftr v 4).
Proof.
  intros [? Hv]. unfold uint. rewrite Z.shiftr_div_pow2 by done. split; [by apply Z.div_pos|]. apply Z.div_lt_upper_bound; lia.
Qed.

Lemma low_nibble v : uint 4 (Z.land v 15).
Proof. unfold uint. change 15 with (Z.ones 4). rewrite Z.land_ones by done. by apply Z.mod_pos_bound. Qed.

Lemma first_byte (b : list byte) : uint 8 (beUint (take 1 b)).
Proof.
  apply (uint_le (8 * Z.of_nat (length (take 1 b)))); [by apply beUint_uint|]. rewrite length_take. lia.
Qed.

Lemma iloc_typed b : yields (parseItemLocationBox b) (typed b (bs "iloc")).
Proof.
  unfold parseItemLocationBox. yields_step. destruct H as [<- Hf]. yields_step.
  eapply yields_bind; [apply yields_any|]. intros _ _.
  eapply yields_bind; [apply (yields_id x 2); [done|apply version_below]|]. intros n Hn.
  eapply yields_bind; [apply (yields_counted _ _ (locationTyped x)); [by apply yields_readLocation|by eapply idTyped_nonneg]|].
  intros l Hl. yields_step. split; [done|]. split; [done|]. cbn [wellTyped offsetSize lengthSize baseOffsetSize indexSize il_full ItemCount il_Items].
  split_and!; try done; try (apply high_nibble, first_byte); [apply low_nibble|].
  destruct (0 <? Version x); [apply low_nibble|done].
Qed.

Lemma readReference_typed fb rb r :
  fullTyped fb → length (boxType rb) = 4%nat → readReference fb rb = Some (Ok r) → referenceTyped fb r.
Proof.
  intros Hf Hrb H. unfold readReference in H.
  destruct (pbind _ _ _) as [[[x|e] br]|] eqn:E; [|done..]. injection H as <-. revert E.
  match goal with |- ?m ?br0 = _ → _ => enough (yields m (referenceTyped fb)) as Hm by (intros E; by apply (Hm _ _ _ E)) end.
  eapply yields_bind; [apply (yields_id fb 1); [done|by apply version_zero]|]. intros i Hi. yields_step.
  eapply yields_bind; [apply (yields_repeatOk _ _ _ (idTyped fb 1)); [apply yields_id; [done|by apply version_zero]|by destruct H]|].
  intros l [Hl Hc]. destruct H. yields_step. split; [done|]. split; [done|]. split; [done|]. cbn [ToItemIDs]. lia.
Qed.

Lemma readReferences_typed fb l rs : fullTyped fb → children l → readReferences fb l = Some (Ok rs) → Forall (referenceTyped fb) rs.
Proof.
  intros Hf Hl. revert rs. induction Hl as [|rb l Hrb _ IH]; intros rs H; cbn in H; [by injection H as <-|].
  destruct (readReference fb rb) as [[r|e]|] eqn:E; [|done..]. destruct (readReferences fb l) as [[rs'|e]|]; [|done..].
  injection H as <-. constructor; [by eapply readReference_typed|by apply IH].
Qed.

Lemma iref_typed b : yields (parseItemReferenceBox b) (typed b (bs "iref")).
Proof.
  unfold parseItemReferenceBox. yields_step. destruct H as [<- Hf]. yields_step.
  eapply yields_bind; [apply yields_lift; intros rs; by apply readReferences_typed|]. intros rs Hrs. yields_step. by split_and!.
Qed.

Lemma keys_typed b : yields (parseKeysBox b) (typed b (bs "keys")).
Proof.
  unfold parseKeysBox. yields_step. destruct H as [<- Hf]. yields_step. destruct (id H) as [H0 _].
  eapply yields_bind; [apply (yields_counted _ _ (λ k, length (Namespace k) = 4%nat)); [|done]|].
  - unfold readKey. do 2 yields_step. yields_step; [yields_step|].
    eapply (yields_bind _ _ (λ l, length l = 4%nat)).
    { intros br y br' Hy. unfold fill in Hy. destruct (readFull _ _ _) as [[z rest]|] eqn:E; [|done]. injection Hy as <- _.
      by apply readFull_spec in E as [_ ?]. }
    intros ns Hns. eapply yields_bind; [apply yields_any|]. intros name _. yields_step; by yields_step.
  - intros l Hl. yields_step. split; [done|]. split; [done|]. split; [done|]. by exists x0.
Qed.

(** The items of an "ilst" box: every child is one, with its "data" boxes. *)
Lemma readItemData_typed fuel parse r l :
  parses parse → readItemData fuel parse r = Some (Ok l) → Forall (λ d, boxType (db_box d) = bs "data" ∧ dataTyped d) l.
Proof.
  intros Hp. revert r l. induction fuel as [|fuel IH]; intros r l H; [done|]. cbn [readItemData] in H.
  destruct (ReadBox r) as [[b r']|e]; [|case_decide; [|done]; by injection H as <-].
  case_decide as Ht; [|by eapply IH].
  destruct (parse b) as [[pb|e]|] eqn:E; [|done..]. apply Hp in E as (Eo&Et&Ew). destruct pb; try done.
  destruct (readItemData fuel parse r') as [[l'|e]|] eqn:El; [|done..]. injection H as <-.
  constructor; [|by eapply IH]. cbn in Eo, Ew. by rewrite Eo.
Qed.

Lemma readItems_typed parse l items : parses parse → children l → readItems parse l = Some (Ok items) → Forall metadataTyped items.
Proof.
  intros Hp Hl. revert items. induction Hl as [|cb l Hcb _ IH]; intros items H; cbn [readItems] in H; [by injection H as <-|].
  destruct (readItemData _ _ _) as [[d|e]|] eqn:E; [|done..]. destruct (readItems parse l) as [[items'|e]|]; [|done..].
  injection H as <-. constructor; [|by apply IH]. split; [done|]. split; [by apply (beUint_uint 4)|by eapply readItemData_typed].
Qed.

Lemma ilst_typed parse b : parses parse → yields (parseItemListBox parse b) (typed b (bs "ilst")).
Proof.
  intros Hp. unfold parseItemListBox. yields_step.
  eapply yields_bind; [apply yields_lift; intros items; by apply readItems_typed|]. intros items Hi. yields_step. by split_and!.
Qed.

(** Every parser returns the Go type that is registered with it. *)
Lemma parsers_typed parse t p b : parses parse → (t, p) ∈ parsers parse → yields (p b) (typed b t).
Proof.
  intros Hp E. unfold parsers in E. destruct (leaf_typed b) as (?&?&?&?).
  repeat (apply elem_of_cons in E as [[= -> ->]|E]); [..|by apply not_elem_of_nil in E];
    auto using ftyp_typed, meta_typed, infe_typed, iinf_typed, iprp_typed, data_typed, hdlr_typed, irot_typed, pitm_typed,
      mvhd_typed, ipma_typed, iloc_typed, iref_typed, keys_typed, ilst_typed.
Qed.

Lemma Parse_typed fuel : parses (Parse fuel).
Proof.
  induction fuel as [|fuel IH]; intros b pb; [done|]. cbn [Parse].
  destruct (findParser _ _) as [p|] eqn:E; [|done]. apply findParser_elem in E.
  destruct (p b _) as [[[x|e] br]|] eqn:Ep; [|done..]. intros [= <-]. by eapply parsers_typed.
Qed.

(** C12. What [Parse] returns for a box embeds that box, has the Go type
    registered for the box's type, so that the type assertions on it succeed,
    and is well typed: integers and IDs fit the width of their version, sizes
    and angles the bits they were cut out of, brands, types and namespaces
    have 4 bytes, lists are no longer than their counts, and the boxes inside
    have the types of their places. *)
Theorem Parse_well_typed b pb :
  ParseBox b = Some (Ok pb) → outerBox pb = b ∧ typeOf pb = Some (boxType b) ∧ wellTyped pb.
Proof. apply Parse_typed. Qed.

(** An "ipma" box with two associations of one item, one of them essential. *)
Definition sampleIpma : box :=
  MkBox 21 (bs "ipma") 0 8 [x00; x00; x00; x00; x00; x00; x00; x01; x00; x05; x02; x81; x02] EOF.

Lemma Parse_well_typed_witness :
  ∃ pb, ParseBox sampleIpma = Some (Ok pb) ∧ outerBox pb = sampleIpma ∧ typeOf pb = Some (bs "ipma") ∧ wellTyped pb.
Proof.
  eexists. split; [vm_compute; reflexivity|]. apply (Parse_well_typed sampleIpma). vm_compute. reflexivity.
Defined.
