(* ===== verification/BmffFail.v ===== *)
(** * media/heif/bmff: inputs whose reads fail

    A read that fails with an error other than [io.EOF] is told apart from the
    end of the input: boxes that are read to their end are not parsed from a
    part of their bodies. *)
From S2P Require Import Prelude.
From S2P Require Import GoIO.
From S2P Require Import Bmff.
From S2P Require Import BmffLaws.

(** ** The reader *)

(** [ReadBox] only says that there are no more boxes where the input ends. *)
Lemma ReadBox_EOF r : ReadBox r = Err EOF → noMoreBoxes r = true ∨ ending r = EOF.
Proof.
  assert (∀ n rest e, readFull n rest e = Err EOF → e = EOF) as Hf.
  { intros n rest e. unfold readFull. destruct (decide (n ≤ _)%nat); [done|]. destruct (decide _); [done|]. by intros [= ->]. }
  unfold ReadBox. destruct (noMoreBoxes r); [by left|intros H; right].
  destruct (readFull 4 (input r) _) as [[sz rest]|e] eqn:E1; [|injection H as ->; by eapply Hf].
  destruct (readFull 4 rest _) as [[typ rest2]|e] eqn:E2; [|injection H as ->; by eapply Hf].
  destruct (beUint sz =? 1).
  - destruct (readFull 8 rest2 _) as [[sz8 rest3]|e] eqn:E3; [|injection H as ->; by eapply Hf].
    destruct (_ <? 0); [done|]. by destruct (_ <? 0).
  - destruct (beUint sz =? 0); [done|]. by destruct (_ <? 0).
Qed.

Lemma appendBoxes_fails fuel r l :
  noMoreBoxes r = false → ending r ≠ EOF → appendBoxes fuel r ≠ Some (Ok l).
Proof.
  revert r l. induction fuel as [|fuel IH]; intros r l Hm He; [done|]. cbn [appendBoxes].
  destruct (ReadBox r) as [[b r']|e] eqn:E.
  - rewrite (readBody_body _ _ _ E). destruct (decide (bodyEnd b = EOF)) as [Hb|]; [|done].
    pose proof (ReadBox_ending _ _ _ E) as (Her&Hz&_).
    assert (noMoreBoxes r' = false) as Hm'.
    { apply ReadBox_spec in E as (_&_&_&_&_&_&_&[(Hsz&_&_)|(_&?&_)]); [|done]. rewrite Hz in Hb by done. done. }
    pose proof (IH r') as H. destruct (appendBoxes fuel r') as [[l'|]|]; [|done..].
    exfalso. apply (H l'); [done|congruence|done].
  - destruct (decide (e = EOF)) as [->|]; [|done]. apply ReadBox_EOF in E as [?|?]; congruence.
Qed.

(** ** Methods of a reader whose input fails *)

(** [m] stays on its input; [m] returns no value if the input fails. *)
Definition keeps {A} (m : P A) : Prop := ∀ br r br', m br = Some (r, br') → br_end br' = br_end br.
Definition fails {A} (m : P A) : Prop := ∀ br x br', br_end br ≠ EOF → m br ≠ Some (Ok x, br').

Lemma keeps_bind {A B} (m : P A) (f : A → P B) : keeps m → (∀ x, keeps (f x)) → keeps (pbind m f).
Proof.
  intros Hm Hf br r br' H. unfold pbind in H. destruct (m br) as [[[x|e] br1]|] eqn:E; [|by injection H as _ <-; eapply Hm|done].
  apply Hf in H. rewrite H. by eapply Hm.
Qed.
Lemma keeps_soft {A} (d : A) (m : P A) : keeps m → keeps (soft d m).
Proof.
  intros Hm br r br' H. unfold soft in H. destruct (m br) as [[[x|e] br1]|] eqn:E; [..|done]; injection H as _ <-; by eapply Hm.
Qed.
Lemma keeps_orFail {A} e (m : P A) : keeps m → keeps (orFail e m).
Proof.
  intros Hm br r br' H. unfold orFail in H. destruct (m br) as [[[x|e'] br1]|] eqn:E; [..|done]; injection H as _ <-; by eapply Hm.
Qed.
Lemma keeps_guard {A} (m : P A) : keeps m → keeps (guard m).
Proof. intros Hm br r br' H. unfold guard in H. destruct (br_err br); [by injection H as _ <-|by eapply Hm]. Qed.
Lemma keeps_recording {A} (m : P A) : keeps m → keeps (recording m).
Proof.
  intros Hm br r br' H. unfold recording in H. destruct (m br) as [[[x|e'] br1]|] eqn:E; [..|done]; injection H as _ <-; cbn; by eapply Hm.
Qed.
Lemma keeps_Peek n : keeps (Peek n).
Proof. intros br r br' H. unfold Peek in H. by destruct (decide _); injection H as _ <-. Qed.
Lemma keeps_Discard n : keeps (Discard n).
Proof. by intros br r br' [= _ <-]. Qed.
Lemma keeps_ret {A} (x : A) : keeps (pret x).
Proof. by intros br r br' [= _ <-]. Qed.
Lemma keeps_failSticky {A} (x : A) : keeps (failSticky x).
Proof. intros br r br' H. unfold failSticky in H. by destruct (br_err br); injection H as _ <-. Qed.

Ltac keeps_all := repeat first
  [ apply keeps_bind; [|intros ?] | apply keeps_soft | apply keeps_orFail | apply keeps_guard | apply keeps_recording
  | apply keeps_Peek | apply keeps_Discard | apply keeps_ret | apply keeps_failSticky ].

Lemma keeps_readFullBox b : keeps (readFullBox b).
Proof. unfold readFullBox. keeps_all. Qed.
Lemma keeps_readUint k : keeps (readUint k).
Proof. unfold readUint. keeps_all. Qed.

Lemma fails_here {A B} (m : P A) (f : A → P B) : fails m → fails (pbind m f).
Proof.
  intros Hm br x br' He H. unfold pbind in H. destruct (m br) as [[[y|e] br1]|] eqn:E; [|done..]. by eapply Hm.
Qed.
Lemma fails_later {A B} (m : P A) (f : A → P B) : keeps m → (∀ x, fails (f x)) → fails (pbind m f).
Proof.
  intros Hm Hf br x br' He H. unfold pbind in H. destruct (m br) as [[[y|e] br1]|] eqn:E; [|done..].
  apply Hm in E. eapply Hf, H. congruence.
Qed.

Lemma fails_parseAppendBoxes : fails parseAppendBoxes.
Proof.
  intros br x br' He H. unfold parseAppendBoxes, guard in H. destruct (br_err br); [done|].
  destruct (appendBoxes _ _) as [[l|e]|] eqn:E; [|done..]. by eapply appendBoxes_fails in E.
Qed.

Lemma fails_readAll : fails readAll.
Proof. intros br x br' He H. unfold readAll, readToEnd in H. by rewrite decide_False in H. Qed.

Lemma fails_readBrands fuel : fails (readBrands fuel).
Proof.
  induction fuel as [|fuel IH]; intros br x br' He H; [done|]. cbn [readBrands] in H. unfold Peek in H.
  destruct (decide _); [|by rewrite decide_False in H].
  revert H. apply fails_later; [apply keeps_Discard|intros _; by apply fails_here|done].
Qed.

Ltac fails_all := repeat first
  [ apply fails_here; solve [apply fails_parseAppendBoxes | apply fails_readAll | intros ?; apply fails_readBrands]
  | apply fails_later; [solve [keeps_all; auto using keeps_readFullBox, keeps_readUint]|intros ?] ].

Lemma fails_parseMetaBox b : fails (parseMetaBox b).
Proof.
  intros br x br' He. unfold parseMetaBox.
  assert (fails (fb ←p readFullBox b; l ←p parseAppendBoxes; pret (Meta (MkMeta fb false l)))) as Hf by fails_all.
  pose proof (keeps_Peek 8 br) as Hk. destruct (Peek 8 br) as [[[buf|e] br1]|] eqn:E; [|by apply Hf..].
  specialize (Hk _ _ eq_refl). destruct (decide _); [|apply Hf; congruence].
  assert (fails (l ←p parseAppendBoxes; pret (Meta (MkMeta (MkFullBox b 0 0) true l)))) as Hf' by fails_all. apply Hf'. congruence.
Qed.

(** [parseItemInfoBox] does not look at the result of [parseAppendBoxes], but
    at the error that it leaves. *)
Lemma fails_parseItemInfoBox parse b : fails (parseItemInfoBox parse b).
Proof.
  unfold parseItemInfoBox. fails_all. intros br y br' He H.
  assert (∃ l br1, soft [] parseAppendBoxes br = Some (Ok l, br1) ∧ br_err br1 ≠ None ∨ soft [] parseAppendBoxes br = None) as Hs.
  { pose proof (fails_parseAppendBoxes br) as Hf. unfold soft. unfold parseAppendBoxes, guard in *.
    destruct (br_err br) eqn:Ee; [exists [], br; left; split; [done|by rewrite Ee]|].
    destruct (appendBoxes _ _) as [[l|e]|]; [by destruct (Hf _ _ He eq_refl)| |by exists [], br; right].
    eexists _, _. left. by split. }
  destruct Hs as (l&br1&[[E Hne]|E]); unfold pbind at 1 in H; rewrite E in H; [|done].
  unfold pbind, ok, failSticky, pret in H. cbn in H. destruct (br_err br1) as [e|] eqn:Ee; [|done].
  rewrite bool_decide_false in H by done. by rewrite Ee in H.
Qed.

(** ** The property *)

(** The boxes that are read to the end of their bodies. *)
Definition readsToEnd : list (list byte) :=
  [bs "ftyp"; bs "meta"; bs "iinf"; bs "ipco"; bs "iprp"; bs "dinf"; bs "dref"; bs "iref"; bs "ilst"; bs "data"].

(** C19. [Parse] returns on every box, with a value or an error, without a panic
    and whatever the body holds; and a read that fails is reported: if the
    body cannot be read to its end and the type is one that is read to the end,
    [Parse] gives an error. (Other types may have what they need before the
    error; one, "infe", takes the error for the end of the body, see
    [infe_hides_error].) *)
Theorem Parse_returns_and_reports (b : box) :
  ∃ r, ParseBox b = Some r ∧ (bodyEnd b ≠ EOF → boxType b ∈ readsToEnd → ∃ e, r = Err e).
Proof.
  pose proof (Parse_total (S (length (body b))) b ltac:(lia)) as [r Hr]. exists r. split; [done|]. intros He Ht.
  destruct r as [v|e]; [exfalso|by exists e]. revert Hr. cbn [Parse].
  assert (∀ p, fails (p b) → match p b (BufReader (body b) None (bodyEnd b)) with Some (r, _) => Some r | None => None end ≠ Some (Ok v)) as Hp.
  { intros p Hp. specialize (Hp (BufReader (body b) None (bodyEnd b))). destruct (p b _) as [[[x|] br]|]; [|done..].
    by destruct (Hp x br). }
  unfold readsToEnd in Ht. repeat (apply elem_of_cons in Ht as [->|Ht]); [..|by apply not_elem_of_nil in Ht];
    cbn [findParser parsers]; apply Hp;
    first [apply fails_parseMetaBox | apply fails_parseItemInfoBox
          | unfold parseFileTypeBox, parseItemPropertyContainerBox, parseItemPropertiesBox, parseDataInformationBox,
              parseDataReferenceBox, parseItemReferenceBox, parseItemListBox, parseDataBox; fails_all].
Qed.

(** An item of type "mime" whose content encoding cannot be read is taken for
    one that has none: [anyRemain] does not tell the errors apart. *)
Example infe_hides_error :
  ∃ ie, ParseBox (MkBox 40 (bs "infe") 0 8
    ([x02; x00; x00; x00; x00; x01; x00; x00] ++ bs "mime" ++ [x00] ++ bs "text" ++ [x00]) (Errorf "read failed")) = Some (Ok (ItemInfoE ie)) ∧
    ContentType ie = bs "text" ∧ ContentEncoding ie = [].
Proof. by eexists. Qed.
