(* ===== verification/BmffSeek.v ===== *)
(** * media/heif/bmff: skipping the rest of a box

    [Reader.skipRest] over a buffered reader of an input that may be able to
    seek. [Bmff.v] reads from the bytes that are left; here are the two ways
    in which the code gets there. *)
From S2P Require Import Prelude.
From S2P Require Import GoIO.
From S2P Require Import Bmff.
From S2P Require Import BmffLaws.

(** ** Buffered readers *)

(** [r.br]: the bytes in its buffer, and what the input [r.src] has left. *)
Record bufioReader := Bufio { buffered : list byte; src : list byte }.

(** What the reader still delivers. *)
Definition remaining (b : bufioReader) : list byte := buffered b ++ src b.

(** The input's [Seek(n, io.SeekCurrent)]: possible if it is a seeker, and
    without error if it is not a pipe, say. Seeking behind the end works. *)
Inductive seeking := NoSeeker | SeekFails | Seeks.

Definition seekCurrent (n : Z) (b : bufioReader) : bufioReader := Bufio (buffered b) (drop (Z.to_nat n) (src b)).
(** [r.br.Reset(r.src)] *)
Definition Reset (b : bufioReader) : bufioReader := Bufio [] (src b).

(** [io.Copy(io.Discard, lr)]: takes bytes until the limit or the end. The
    buffer is refilled with some part of the input whenever it is empty. *)
Definition copyAll (n : Z) (b : bufioReader) : Z * bufioReader :=
  let taken := Z.min n (zlen (remaining b)) in
  (n - taken, Bufio (drop (Z.to_nat taken) (buffered b)) (drop (Z.to_nat taken - length (buffered b)) (src b))).

(** [skipRest]; [N] is the limit of the body's [io.LimitedReader], [None] for
    a body that is the reader itself. *)
Definition skipRest (s : seeking) (N : option Z) (b : bufioReader) : option Z * bufioReader :=
  match N with
  | None => (None, b)
  | Some n =>
      let copy := let '(n, b) := copyAll n b in (Some n, b) in
      if match s with NoSeeker => false | _ => zlen (buffered b) <? n end then
        match s with
        | Seeks => (Some 0, Reset (seekCurrent (n - zlen (buffered b)) b))
        | _ => copy
        end
      else copy
  end.

(** ** Reading a body *)

(** Reading from the limited reader takes up to [N] bytes off the front, and
    may leave any part of what remains in the buffer. *)
Inductive reads : Z → bufioReader → Z → bufioReader → Prop :=
| ReadsSome n b k b' :
    0 ≤ k ≤ n → k ≤ zlen (remaining b) → remaining b' = drop (Z.to_nat k) (remaining b) → reads n b (n - k) b'.

Lemma remaining_drop k b :
  drop k (buffered b) ++ drop (k - length (buffered b)) (src b) = drop k (remaining b).
Proof. unfold remaining. by rewrite drop_app. Qed.

(** Seeking and reading leave the same bytes. *)
Lemma skipRest_remaining s n b : 0 ≤ n → remaining (skipRest s (Some n) b).2 = drop (Z.to_nat n) (remaining b).
Proof.
  intros Hn.
  assert (remaining (copyAll n b).2 = drop (Z.to_nat n) (remaining b)) as Hc.
  { unfold copyAll. cbn [snd]. unfold remaining at 1. cbn [buffered src]. rewrite remaining_drop.
    destruct (Z.le_ge_cases n (zlen (remaining b))); [by rewrite Z.min_l|]. rewrite Z.min_r by done.
    rewrite (drop_ge _ (Z.to_nat n)) by lia. apply drop_ge. lia. }
  unfold skipRest. destruct (copyAll n b) as [n' b'] eqn:E. cbn [snd] in Hc.
  destruct s; [done|by destruct (_ <? _)|]. destruct (Z.ltb_spec (zlen (buffered b)) n); [|done].
  cbn [snd]. unfold remaining, Reset, seekCurrent. cbn [buffered src app]. rewrite drop_app.
  rewrite (drop_ge (buffered b)) by lia. cbn [app]. f_equal. lia.
Qed.

(** However much of a box's body was read, and whether the input can seek
    or only be read, [skipRest] leaves the reader at the end of the body, or
    at the end of the input if the body is truncated: what remains is what
    [ReadBox] of the list model goes on with. *)
Theorem skipRest_reaches_next_box s (r r' : Reader) (b : box) st n st' :
  ReadBox r = Ok (b, r') → size b ≠ 0 →
  remaining st = body b ++ input r' → reads (size b - headerSize b) st n st' →
  remaining (skipRest s (Some n) st').2 = input r'.
Proof.
  intros Hr Hsz Hst Hreads.
  apply ReadBox_spec in Hr as (hdr'&_&_&_&_&_&_&[(?&_)|(Hle&_&_&Hb)]); [done|].
  inversion Hreads as [n0 b0 k b' Hk Hk2 Hrem]; subst.
  rewrite skipRest_remaining by lia. rewrite Hrem, drop_drop, Hst.
  replace (Z.to_nat k + Z.to_nat (size b - headerSize b - k))%nat with (Z.to_nat (size b - headerSize b)) by lia.
  apply (app_inv_head (body b)). rewrite Hb at 1. by rewrite take_drop.
Qed.

(** A box of five body bytes before another box, two bytes read, the rest of
    the body in part in the buffer: by seeking or by reading, the next box is
    what remains. *)
Lemma skipRest_reaches_next_box_witness :
  ∃ b r', ReadBox (NewReader ([x00; x00; x00; x0d] ++ bs "free" ++ [x01; x02; x03; x04; x05] ++ [x00; x00; x00; x08] ++ bs "free")) = Ok (b, r') ∧
    remaining (skipRest Seeks (Some 3) (Bufio [x03] ([x04; x05; x00; x00; x00; x08] ++ bs "free"))).2 = input r' ∧
    input r' = [x00; x00; x00; x08] ++ bs "free".
Proof.
  eexists _, _. split; [vm_compute; reflexivity|]. split; [|reflexivity].
  eapply (skipRest_reaches_next_box Seeks
    (NewReader ([x00; x00; x00; x0d] ++ bs "free" ++ [x01; x02; x03; x04; x05] ++ [x00; x00; x00; x08] ++ bs "free"))
    _ _ (Bufio ([x01; x02; x03; x04; x05; x00; x00; x00; x08] ++ bs "free") [])); [vm_compute; reflexivity|done|reflexivity|].
  apply (ReadsSome 5 _ 2); [lia|vm_compute; congruence|reflexivity].
Defined.
