(* ===== verification/BmffBox.v ===== *)
(** * media/heif/bmff: box objects that share a reader

    The boxes that a [Reader] returns are objects: their bodies are parts of
    the reader's input, reading or parsing one moves the reader, and [Parse]
    keeps what it has returned. [Bmff.v] has the boxes with all of their
    bodies; here they are read, parsed and skipped in any order, and calls of
    [ReadBox] may fail. *)
From S2P Require Import Prelude.
From S2P Require Import GoIO.
From S2P Require Import Bmff.
From S2P Require Import BmffLaws.

(** ** Objects *)

(** A [*box]: [ob_box] is the box with the body that it had when it was read,
    [ob_left] the limit of its [io.LimitedReader] ([None] for a body that is
    the reader itself). *)
Record object := Object { ob_box : box; ob_left : option Z; ob_parsed : option Box }.

(** [r.br] with its position, and the boxes that have been returned; the last
    one is [r.lastBox]. *)
Record shared := Shared { stream : list byte; sh_end : error; sh_pos : Z; sh_noMore : bool; objects : list object }.

Definition newShared (input : list byte) (ending : error) : shared := Shared input ending 0 false [].

(** What a read of the object gets at most. *)
Definition available (st : shared) (o : object) : list byte :=
  match ob_left o with Some n => take (Z.to_nat n) (stream st) | None => stream st end.

(** [k] bytes have been taken out of the body. *)
Definition advance (k : nat) (o : object) : object :=
  Object (ob_box o) ((λ n, n - Z.of_nat k) <$> ob_left o) (ob_parsed o).

Definition lastObject (st : shared) : option object := objects st !! (length (objects st) - 1)%nat.

(** The stream behind the rest of the last box: [skipRest] of [BmffSeek.v]. *)
Definition skipped (st : shared) : list byte :=
  match lastObject st with
  | Some o => match ob_left o with Some n => drop (Z.to_nat n) (stream st) | None => stream st end
  | None => stream st
  end.

(** The objects after [skipRest]: nothing of the last one is left. *)
Definition exhaust (l : list object) : list object :=
  alter (λ o, Object (ob_box o) ((λ _, 0) <$> ob_left o) (ob_parsed o)) (length l - 1)%nat l.

(** Where a call of [ReadBox] that fails leaves the reader: behind what it has
    read of the header, 16 bytes if the size is one of 64 bits. *)
Definition failedReadBox (r : Reader) : Reader :=
  if noMoreBoxes r then r
  else
    let header := if (4 <=? zlen (input r)) && (beUint (take 4 (input r)) =? 1) then 16%nat else 8%nat in
    MkReader (drop header (input r)) (ending r) (pos r) false.

(** The parser that [Parse] calls on an object, on what is left of its body. *)
Definition parseLeft (st : shared) (o : object) : option (result Box) :=
  let b := ob_box o in
  let rest := available st o in
  let e := match ob_left o with Some n => limitEnd n (stream st) (sh_end st) | None => sh_end st end in
  ParseBox (MkBox (size b) (boxType b) (offset b) (headerSize b) rest e).

Inductive event :=
| ReturnsBox (b : box)                      (* ReadBox *)
| FailsBox (e : error)                      (* ReadBox *)
| ReadsBody (i : nat) (x : list byte)       (* a read of Body() *)
| Parses (i : nat) (r : result Box).        (* Parse *)

(** The reader that [ReadBox] reads a header from. *)
Definition headerReader (st : shared) : Reader := MkReader (skipped st) (sh_end st) (sh_pos st) (sh_noMore st).

(** [ReadBox] fails at a header, or, by reading, in [skipRest]: where the input
    ends with another error than [io.EOF] before the last body does. [Parse]
    fetches its input in pieces: it may take more of the body than the parser
    has looked at, and nothing if there is no parser. *)
Inductive step (st : shared) : event → shared → Prop :=
| StepReadBox b r :
    ReadBox (headerReader st) = Ok (b, r) →
    step st (ReturnsBox b)
      (Shared (body b ++ input r) (sh_end st) (pos r) (noMoreBoxes r)
         (exhaust (objects st) ++ [Object b (if size b =? 0 then None else Some (size b - headerSize b)) None]))
| StepReadBoxFails e :
    ReadBox (headerReader st) = Err e →
    step st (FailsBox e)
      (Shared (input (failedReadBox (headerReader st))) (sh_end st) (sh_pos st) (sh_noMore st) (exhaust (objects st)))
| StepSkipFails o n :
    sh_noMore st = false → lastObject st = Some o → ob_left o = Some n → zlen (stream st) < n → sh_end st ≠ EOF →
    step st (FailsBox (sh_end st))
      (Shared [] (sh_end st) (sh_pos st) (sh_noMore st)
         (<[(length (objects st) - 1)%nat := advance (length (stream st)) o]> (objects st)))
| StepRead i o k :
    objects st !! i = Some o → (k ≤ length (available st o))%nat →
    step st (ReadsBody i (take k (stream st)))
      (Shared (drop k (stream st)) (sh_end st) (sh_pos st) (sh_noMore st) (<[i := advance k o]> (objects st)))
| StepParsed i o v :
    objects st !! i = Some o → ob_parsed o = Some v → step st (Parses i (Ok v)) st
| StepParse i o k v :
    objects st !! i = Some o → ob_parsed o = None → parseLeft st o = Some (Ok v) → (k ≤ length (available st o))%nat →
    step st (Parses i (Ok v))
      (Shared (drop k (stream st)) (sh_end st) (sh_pos st) (sh_noMore st)
         (<[i := Object (ob_box o) ((λ n, n - Z.of_nat k) <$> ob_left o) (Some v)]> (objects st)))
| StepParseFails i o k e :
    objects st !! i = Some o → ob_parsed o = None → parseLeft st o = Some (Err e) → (k ≤ length (available st o))%nat →
    (e = ErrUnknownBox → k = 0%nat) →
    step st (Parses i (Err e))
      (Shared (drop k (stream st)) (sh_end st) (sh_pos st) (sh_noMore st) (<[i := advance k o]> (objects st))).

(** A run from a fresh reader, with its events in order. *)
Inductive run (s : list byte) (e : error) : list event → shared → Prop :=
| RunNil : run s e [] (newShared s e)
| RunStep evs st ev st' : run s e evs st → step st ev st' → run s e (evs ++ [ev]) st'.

(** ** The specification: a reader whose boxes have all of their bodies *)

Definition outcomeOf (r : Reader) : result box := match ReadBox r with Ok (b, _) => Ok b | Err e => Err e end.
Definition nextReader (r : Reader) : Reader := match ReadBox r with Ok (_, r') => r' | Err _ => failedReadBox r end.

(** What [n] calls of [ReadBox] give, one after the other. *)
Definition readBoxes (n : nat) (r : Reader) : list (result box) := (λ k, outcomeOf (Nat.iter k nextReader r)) <$> seq 0 n.

(** What the calls of [ReadBox] have given in a run. *)
Definition outcomes (evs : list event) : list (result box) :=
  omap (λ ev, match ev with ReturnsBox b => Some (Ok b) | FailsBox e => Some (Err e) | _ => None end) evs.

(** What is known from the events: the boxes that have been returned, whether
    nothing has happened to the last one, and how many of them, from the first
    one on, [ReadBox] has left behind. A call that fails leaves the last box
    behind too, unless that goes on to the end of the input. *)
Record view := View { boxesOf : list box; untouched : bool; passed : nat }.

Definition note (v : view) (ev : event) : view :=
  match ev with
  | ReturnsBox b => View (boxesOf v ++ [b]) true (length (boxesOf v))
  | FailsBox _ =>
      match last (boxesOf v) with
      | Some b => if size b =? 0 then v else View (boxesOf v) false (length (boxesOf v))
      | None => v
      end
  | ReadsBody i _ | Parses i _ => if decide (S i = length (boxesOf v)) then View (boxesOf v) false (passed v) else v
  end.
Definition viewOf (evs : list event) : view := foldl note (View [] false 0) evs.

(** ** The last box *)

(** The reader of the specification is [r], and [k] bytes of the body of [o]
    have been taken. *)
Definition lastInv (st : shared) (o : object) (r : Reader) (k : nat) : Prop :=
  let b := ob_box o in
  (k ≤ length (body b))%nat ∧ stream st = drop k (body b) ++ input r ∧
  (size b = 0 ∧ noMoreBoxes r = true ∧ input r = [] ∧ ob_left o = None ∧ bodyEnd b = sh_end st ∨
   size b ≠ 0 ∧ noMoreBoxes r = false ∧ headerSize b ≤ size b ∧ body b = take (Z.to_nat (size b - headerSize b)) (body b ++ input r) ∧
   ob_left o = Some (size b - headerSize b - Z.of_nat k) ∧
   bodyEnd b = limitEnd (size b - headerSize b) (body b ++ input r) (sh_end st)).

Lemma take_part {A} n k (x y : list A) :
  (k ≤ length x)%nat → x = take n (x ++ y) → take (n - k) (drop k x ++ y) = drop k x ∧ drop (n - k) (drop k x ++ y) = y.
Proof.
  intros Hk Hx. pose proof (f_equal length Hx) as Hl. rewrite length_take, length_app in Hl.
  rewrite take_app, drop_app, length_drop. rewrite (take_ge (drop k x)), (drop_ge (drop k x)) by (rewrite length_drop; lia). cbn [app].
  assert (n - k - (length x - k) = 0 ∨ y = [])%nat as [->| ->]; [destruct y; [by right|left; cbn in *; lia]| |].
  - by rewrite take_0, drop_0, app_nil_r.
  - by rewrite take_nil, drop_nil, app_nil_r.
Qed.

Lemma last_available st o r k : lastInv st o r k → available st o = drop k (body (ob_box o)).
Proof.
  intros (Hk&Hs&Hc). unfold available. destruct Hc as [(_&_&Hi&->&_)|(_&_&?&Hb&->&_)]; rewrite Hs; [by rewrite Hi, app_nil_r|].
  destruct (take_part (Z.to_nat (size (ob_box o) - headerSize (ob_box o))) k (body (ob_box o)) (input r)) as [Ht _]; [done..|].
  rewrite <-Ht at 2. f_equal. lia.
Qed.

Lemma last_skipped st o r k :
  lastInv st o r k → lastObject st = Some o → noMoreBoxes r = false → skipped st = input r.
Proof.
  intros (Hk&Hs&Hc) Hl Hm. unfold skipped. rewrite Hl. destruct Hc as [(_&?&_)|(_&_&?&Hb&->&_)]; [congruence|]. rewrite Hs.
  destruct (take_part (Z.to_nat (size (ob_box o) - headerSize (ob_box o))) k (body (ob_box o)) (input r)) as [_ Hd]; [done..|].
  rewrite <-Hd at 2. f_equal. lia.
Qed.

(** An untouched body is parsed whole. *)
Lemma last_parse st o r : lastInv st o r 0 → parseLeft st o = ParseBox (ob_box o).
Proof.
  intros HI. unfold parseLeft. rewrite (last_available _ _ _ _ HI). f_equal. destruct HI as (_&Hs&Hc).
  rewrite drop_0 in *. destruct (ob_box o) as [sz ty off hd bd en] eqn:Eb. cbn in *. f_equal.
  destruct Hc as [(_&_&_&->&->)|(_&_&_&_&->&->)]; [done|]. by rewrite Hs, Z.sub_0_r.
Qed.

Lemma last_advance st o r k k' obs p :
  lastInv st o r k → (k' ≤ length (available st o))%nat →
  lastInv (Shared (drop k' (stream st)) (sh_end st) (sh_pos st) (sh_noMore st) obs)
    (Object (ob_box o) ((λ n, n - Z.of_nat k') <$> ob_left o) p) r (k + k').
Proof.
  intros HI Hk'. rewrite (last_available _ _ _ _ HI), length_drop in Hk'. destruct HI as (Hk&Hs&Hc).
  unfold lastInv. cbn [ob_box ob_left stream sh_end]. split_and!; [lia| |].
  - rewrite Hs, drop_app_le by (rewrite length_drop; lia). by rewrite drop_drop.
  - destruct Hc as [(?&?&?&->&?)|(?&?&?&?&->&?)]; [left|right]; split_and!; try done. cbn. f_equal. lia.
Qed.

Lemma last_new r b r' st :
  ReadBox r = Ok (b, r') → sh_end st = ending r → stream st = body b ++ input r' →
  lastInv st (Object b (if size b =? 0 then None else Some (size b - headerSize b)) None) r' 0.
Proof.
  intros H He Hs. pose proof (ReadBox_bodyEnd _ _ _ H) as (_&Hend). apply ReadBox_spec in H as (_&_&_&_&_&Hh&_&Hc).
  unfold lastInv. cbn [ob_box ob_left]. rewrite drop_0, He. split_and!; [lia|done|].
  destruct Hc as [(Hsz&?&?)|(?&?&_&Hb)]; [left; rewrite Hsz in *; by split_and!|right].
  destruct (Z.eqb_spec (size b) 0); [lia|]. split_and!; [done|done|done|done|by rewrite Z.sub_0_r|done].
Qed.

(** ** The invariant of runs *)

(** [ReadBox] has left the object behind: nothing of its body can be read. *)
Definition stale (st : shared) (o : object) : Prop := ob_left o = Some 0 ∨ stream st = [].

Lemma stale_available st o : stale st o → available st o = [].
Proof. unfold stale, available. intros [->| ->]; [done|]. destruct (ob_left o); [by rewrite take_nil|done]. Qed.

Lemma stale_skipped st o : lastObject st = Some o → stale st o → skipped st = stream st.
Proof. unfold stale, skipped. intros -> [->| ->]; [done|]. destruct (ob_left o); [by rewrite drop_nil|done]. Qed.

(** The last object, before and after a call of [ReadBox] that failed. *)
Definition lastCase (st : shared) (r : Reader) (v : view) : Prop :=
  match lastObject st with
  | None => stream st = input r ∧ noMoreBoxes r = false
  | Some o =>
      if decide (passed v = length (objects st)) then
        size (ob_box o) ≠ 0 ∧ noMoreBoxes r = false ∧ stream st = input r ∧ untouched v = false
      else ∃ k, lastInv st o r k ∧ (untouched v = true → k = 0%nat)
  end.

Record runInv (s : list byte) (e : error) (evs : list event) (st : shared) (r : Reader) : Prop := {
  ri_boxes : boxesOf (viewOf evs) = map ob_box (objects st);
  ri_outcomes : outcomes evs = readBoxes (length (outcomes evs)) (NewReaderOf s e);
  ri_reader : r = Nat.iter (length (outcomes evs)) nextReader (NewReaderOf s e);
  ri_end : sh_end st = e ∧ ending r = e;
  ri_pos : sh_pos st = pos r ∧ sh_noMore st = noMoreBoxes r;
  ri_passed : (length (objects st) ≤ S (passed (viewOf evs)))%nat ∧ (passed (viewOf evs) ≤ length (objects st))%nat;
  ri_stale i o : objects st !! i = Some o → (i < passed (viewOf evs))%nat → stale st o;
  ri_parses i x : Parses i x ∈ evs → (i < length (objects st))%nat;
  ri_parsed i o v : objects st !! i = Some o → ob_parsed o = Some v ↔ Parses i (Ok v) ∈ evs;
  ri_untouched i x : untouched (viewOf evs) = true → Parses i x ∈ evs → S i ≠ length (objects st);
  ri_last : lastCase st r (viewOf evs);
}.

Lemma viewOf_snoc evs ev : viewOf (evs ++ [ev]) = note (viewOf evs) ev.
Proof. unfold viewOf. by rewrite foldl_app. Qed.

Lemma readBoxes_S n r : readBoxes (S n) r = readBoxes n r ++ [outcomeOf (Nat.iter n nextReader r)].
Proof. unfold readBoxes. by rewrite seq_S, fmap_app. Qed.

(** A call of [ReadBox] is one of the specification. *)
Lemma outcomes_snoc s e evs st r ev :
  runInv s e evs st r → outcomes [ev] = [outcomeOf r] →
  outcomes (evs ++ [ev]) = readBoxes (length (outcomes (evs ++ [ev]))) (NewReaderOf s e) ∧
  nextReader r = Nat.iter (length (outcomes (evs ++ [ev]))) nextReader (NewReaderOf s e).
Proof.
  intros HI H. assert (outcomes (evs ++ [ev]) = outcomes evs ++ [outcomeOf r]) as -> by (unfold outcomes in *; by rewrite omap_app, H).
  rewrite length_app, Nat.add_1_r, readBoxes_S, <-(ri_outcomes _ _ _ _ _ HI), Nat.iter_succ. by rewrite <-(ri_reader _ _ _ _ _ HI).
Qed.

Lemma last_lookup_boxes s e evs st r :
  runInv s e evs st r → last (boxesOf (viewOf evs)) = ob_box <$> lastObject st.
Proof.
  intros HI. rewrite (ri_boxes _ _ _ _ _ HI), last_lookup, length_map, list_lookup_fmap. unfold lastObject.
  by replace (Nat.pred (length (objects st))) with (length (objects st) - 1)%nat by lia.
Qed.

Lemma boxes_length s e evs st r : runInv s e evs st r → length (boxesOf (viewOf evs)) = length (objects st).
Proof. intros HI. by rewrite (ri_boxes _ _ _ _ _ HI), length_map. Qed.

(** The header is read where the specification reads it. *)
Lemma headerReader_spec s e evs st r :
  runInv s e evs st r → noMoreBoxes r = false → headerReader st = r.
Proof.
  intros HI Hm. assert (skipped st = input r) as Hsk.
  { pose proof (ri_last _ _ _ _ _ HI) as Hl. unfold lastCase in Hl. destruct (lastObject st) as [o|] eqn:Eo.
    - case_decide as Hp; [|destruct Hl as (k&Hl&_); by eapply last_skipped]. destruct Hl as (_&_&<-&_).
      pose proof (lookup_lt_Some _ _ _ Eo). apply (stale_skipped st o); [done|]. eapply (ri_stale _ _ _ _ _ HI); [exact Eo|lia].
    - unfold skipped. rewrite Eo. by destruct Hl. }
  unfold headerReader. destruct (ri_pos _ _ _ _ _ HI) as [-> ->], (ri_end _ _ _ _ _ HI) as [-> He]. rewrite Hsk, <-He. by destruct r.
Qed.

Lemma ReadBox_noMore r b r' : ReadBox r = Ok (b, r') → noMoreBoxes r = false.
Proof. intros H. by apply ReadBox_spec in H as (_&_&_&_&_&_&?&_). Qed.

(** [Parse] and reads of an object. *)
Lemma runInv_touch s e evs st r i o k p ev :
  runInv s e evs st r → objects st !! i = Some o → (k ≤ length (available st o))%nat →
  ((∃ x, ev = ReadsBody i x ∧ p = ob_parsed o) ∨ ∃ x, ev = Parses i x ∧ ∀ v, p = Some v ↔ ob_parsed o = Some v ∨ x = Ok v) →
  runInv s e (evs ++ [ev])
    (Shared (drop k (stream st)) (sh_end st) (sh_pos st) (sh_noMore st)
       (<[i := Object (ob_box o) ((λ n, n - Z.of_nat k) <$> ob_left o) p]> (objects st))) r.
Proof.
  intros HI Hi Hk Hev. pose proof (lookup_lt_Some _ _ _ Hi) as Hlt. pose proof (boxes_length _ _ _ _ _ HI) as Hbl.
  assert (outcomes (evs ++ [ev]) = outcomes evs) as Hout
    by (unfold outcomes; rewrite omap_app; destruct Hev as [(x&->&_)|(x&->&_)]; by rewrite app_nil_r).
  assert (note (viewOf evs) ev = if decide (S i = length (objects st)) then View (boxesOf (viewOf evs)) false (passed (viewOf evs)) else viewOf evs) as Hnote
    by (rewrite <-Hbl; by destruct Hev as [(x&->&_)|(x&->&_)]).
  assert (∀ j v, Parses j (Ok v) ∈ evs ++ [ev] ↔ Parses j (Ok v) ∈ evs ∨ ev = Parses j (Ok v)) as Hin
    by (intros; rewrite elem_of_app, list_elem_of_singleton; by split; (intros [?| ->]; [by left|by right])).
  assert (∀ v, p = Some v ↔ ob_parsed o = Some v ∨ ev = Parses i (Ok v)) as Hp.
  { intros v. destruct Hev as [(x&->&->)|(x&->&->)]; [by split; [left|intros [?|?]]|]. split; (intros [?|H]; [by left|right]); congruence. }
  assert (∀ j v, i ≠ j → ev ≠ Parses j (Ok v)) as Hother by (intros j v Hne; destruct Hev as [(x&->&_)|(x&->&_)]; congruence).
  split; rewrite ?Hout, ?viewOf_snoc, ?Hnote; cbn [objects sh_end sh_pos sh_noMore stream]; rewrite ?length_insert; try apply HI.
  - assert (boxesOf (if decide (S i = length (objects st)) then View (boxesOf (viewOf evs)) false (passed (viewOf evs)) else viewOf evs) = boxesOf (viewOf evs)) as -> by (by case_decide).
    rewrite (ri_boxes _ _ _ _ _ HI). apply list_eq. intros j. rewrite !list_lookup_fmap.
    destruct (decide (i = j)) as [<-|]; [by rewrite list_lookup_insert_eq, Hi|by rewrite list_lookup_insert_ne].
  - destruct (ri_passed _ _ _ _ _ HI). by case_decide.
  - intros j o' Hj Hs. assert (j < passed (viewOf evs))%nat as Hs' by (by case_decide). clear Hs.
    destruct (decide (i = j)) as [<-|Hne].
    + rewrite list_lookup_insert_eq in Hj by done. injection Hj as <-. pose proof (ri_stale _ _ _ _ _ HI i o Hi Hs') as Hst.
      pose proof (stale_available _ _ Hst) as Ha. rewrite Ha in Hk. cbn in Hk. unfold stale. cbn [ob_left stream].
      destruct Hst as [->| ->]; [left; cbn; f_equal; lia|right; by rewrite drop_nil].
    + rewrite list_lookup_insert_ne in Hj by done. destruct (ri_stale _ _ _ _ _ HI j o' Hj Hs') as [?|Hn]; [by left|right].
      cbn [stream]. by rewrite Hn, drop_nil.
  - intros j x [Hx|Hx%list_elem_of_singleton]%elem_of_app; [by eapply (ri_parses _ _ _ _ _ HI)|].
    destruct Hev as [(y&->&_)|(y&->&_)]; [done|]. by injection Hx as -> _.
  - intros j o' v [(<-&<-&_)|[Hne Hj]]%list_lookup_insert_Some; rewrite Hin; cbn [ob_parsed].
    + by rewrite Hp, (ri_parsed _ _ _ _ _ HI i o v Hi).
    + rewrite (ri_parsed _ _ _ _ _ HI j o' v Hj). split; [by left|]. intros [?|?]; [done|]. by destruct (Hother j v Hne).
  - intros j x. case_decide as HS; [done|]. intros Hu [Hx|Hx%list_elem_of_singleton]%elem_of_app; [by eapply (ri_untouched _ _ _ _ _ HI)|].
    destruct Hev as [(y&->&_)|(y&->&_)]; [done|]. by injection Hx as -> _.
  - pose proof (ri_last _ _ _ _ _ HI) as Hl. unfold lastCase in *. unfold lastObject in *. cbn [objects stream]. rewrite length_insert.
    destruct (decide (S i = length (objects st))) as [HS|HS].
    + replace (length (objects st) - 1)%nat with i in * by lia. rewrite list_lookup_insert_eq by done. rewrite Hi in Hl. cbn [passed untouched].
      case_decide as Hpass; [|destruct Hl as (k0&Hl&_); exists (k0 + k)%nat; by split; [apply last_advance|]].
      destruct Hl as (?&?&?&_). split_and!; try done.
      pose proof (stale_available _ _ (ri_stale _ _ _ _ _ HI i o Hi ltac:(lia))) as Ha. rewrite Ha in Hk. cbn in Hk.
      by replace k with 0%nat by lia.
    + rewrite list_lookup_insert_ne by lia. pose proof (ri_passed _ _ _ _ _ HI) as [Hps _].
      pose proof (stale_available _ _ (ri_stale _ _ _ _ _ HI i o Hi ltac:(lia))) as Ha. rewrite Ha in Hk. cbn in Hk.
      assert (k = 0%nat) as -> by lia. rewrite drop_0. destruct (objects st !! (length (objects st) - 1)%nat); [|done]. by case_decide.
Qed.

Lemma lookup_exhaust l i o' :
  exhaust l !! i = Some o' → ∃ o, l !! i = Some o ∧ ob_box o' = ob_box o ∧ ob_parsed o' = ob_parsed o ∧
    (ob_left o = Some 0 → ob_left o' = Some 0) ∧ (S i = length l → ob_left o' = (λ _, 0) <$> ob_left o).
Proof.
  unfold exhaust. intros H. pose proof (lookup_lt_Some _ _ _ H) as Hlt. rewrite length_alter in Hlt.
  destruct (decide (i = (length l - 1)%nat)) as [->|Hne].
  - rewrite list_lookup_alter_eq in H. apply fmap_Some in H as (o&Ho&->). exists o. split_and!; [done..| |done]. by intros ->.
  - rewrite list_lookup_alter_ne in H by done. exists o'. split_and!; [done..|]. intros. lia.
Qed.

Lemma map_exhaust l : map ob_box (exhaust l) = map ob_box l.
Proof.
  apply list_eq. intros i. rewrite !list_lookup_fmap. unfold exhaust.
  destruct (decide (i = (length l - 1)%nat)) as [->|]; [rewrite list_lookup_alter_eq; by destruct (l !! _)|].
  by rewrite list_lookup_alter_ne.
Qed.

Lemma length_exhaust l : length (exhaust l) = length l.
Proof. apply length_alter. Qed.

(** Once a further header is read, every object is stale. *)
Lemma exhaust_stale s e evs st r i o' st' :
  runInv s e evs st r → noMoreBoxes r = false → exhaust (objects st) !! i = Some o' → (stream st = [] → stream st' = []) → stale st' o'.
Proof.
  intros HI Hm Hi Hst. apply lookup_exhaust in Hi as (o&Hi&_&_&Hz&Hl). pose proof (lookup_lt_Some _ _ _ Hi).
  destruct (ri_passed _ _ _ _ _ HI) as [Hp1 Hp2].
  destruct (decide (i < passed (viewOf evs))%nat) as [Hlt|Hge].
  { destruct (ri_stale _ _ _ _ _ HI i o Hi Hlt) as [?|?]; [left; by apply Hz|right; by apply Hst]. }
  left. rewrite Hl by lia. pose proof (ri_last _ _ _ _ _ HI) as HL. unfold lastCase, lastObject in HL.
  replace (length (objects st) - 1)%nat with i in HL by lia. rewrite Hi in HL. rewrite decide_False in HL by lia.
  destruct HL as (k&(_&_&[(_&?&_)|(_&_&_&_&->&_)])&_); [congruence|done].
Qed.

Lemma runInv_ReadBox s e evs st r b r2 :
  runInv s e evs st r → ReadBox (headerReader st) = Ok (b, r2) →
  runInv s e (evs ++ [ReturnsBox b])
    (Shared (body b ++ input r2) (sh_end st) (pos r2) (noMoreBoxes r2)
       (exhaust (objects st) ++ [Object b (if size b =? 0 then None else Some (size b - headerSize b)) None])) r2.
Proof.
  intros HI H. destruct (ri_pos _ _ _ _ _ HI) as [Hpos Hmore]. destruct (ri_end _ _ _ _ _ HI) as [Hend Hre].
  pose proof (ReadBox_noMore _ _ _ H) as Hm. unfold headerReader in Hm. cbn [noMoreBoxes] in Hm. rewrite Hmore in Hm.
  assert (stream st ≠ []) as Hne.
  { intros Hs. pose proof H as (hdr&Hin&Hhdr&_&_&Hh&_)%ReadBox_spec. unfold headerReader, skipped in Hin. rewrite Hs in Hin.
    assert (hdr = []) as ->; [|cbn in Hhdr; lia]. destruct hdr; [done|]. by destruct (lastObject st) as [o|]; [destruct (ob_left o); rewrite ?drop_nil in Hin|]. }
  rewrite (headerReader_spec _ _ _ _ _ HI Hm) in H. pose proof (ReadBox_ending _ _ _ H) as (Hend2&_).
  assert (nextReader r = r2 ∧ outcomeOf r = Ok b) as [Hnext Hout] by (unfold nextReader, outcomeOf; by rewrite H).
  destruct (outcomes_snoc _ _ _ _ _ (ReturnsBox b) HI) as [Ho1 Ho2]; [by rewrite Hout|]. rewrite Hnext in Ho2.
  pose proof (boxes_length _ _ _ _ _ HI) as Hbl.
  split; rewrite ?viewOf_snoc; cbn [note boxesOf passed objects sh_end sh_pos sh_noMore]; rewrite ?Hbl, ?length_app, ?length_exhaust; cbn [length].
  - rewrite map_app, map_exhaust. cbn. by rewrite (ri_boxes _ _ _ _ _ HI).
  - done.
  - done.
  - split; [done|congruence].
  - done.
  - lia.
  - intros i o [Hi|[Hge Hi]]%lookup_app_Some Hlt; [|rewrite length_exhaust in *; lia]. by eapply exhaust_stale.
  - intros i x [Hin|Hx%list_elem_of_singleton]%elem_of_app; [|done]. pose proof (ri_parses _ _ _ _ _ HI i x Hin). lia.
  - intros i o v Hi. rewrite elem_of_app, list_elem_of_singleton.
    assert (Parses i (Ok v) ∈ evs ∨ Parses i (Ok v) = ReturnsBox b ↔ Parses i (Ok v) ∈ evs) as -> by (split; [by intros [?|?]|by left]).
    apply lookup_app_Some in Hi as [Hi|[Hge Hi]].
    + apply lookup_exhaust in Hi as (o0&Hi&_&->&_). by apply (ri_parsed _ _ _ _ _ HI).
    + rewrite length_exhaust in *. apply list_lookup_singleton_Some in Hi as [Hi <-]. cbn. split; [done|].
      intros Hin%(ri_parses _ _ _ _ _ HI). lia.
  - intros i x _ [Hin|Hx%list_elem_of_singleton]%elem_of_app; [|done]. pose proof (ri_parses _ _ _ _ _ HI i x Hin). lia.
  - unfold lastCase, lastObject. cbn [objects]. rewrite length_app, length_exhaust. cbn [length].
    rewrite lookup_app_r by (rewrite length_exhaust; lia). rewrite length_exhaust.
    replace (length (objects st) + 1 - 1 - length (objects st))%nat with 0%nat by lia. cbn [lookup list_lookup passed].
    rewrite decide_False by lia. exists 0%nat. split; [|done]. eapply last_new; [exact H|cbn; congruence|done].
Qed.

(** A call of [ReadBox] behind a box that goes on to the end. *)
Lemma runInv_noMore s e evs st r :
  runInv s e evs st r → noMoreBoxes r = true → runInv s e (evs ++ [FailsBox EOF]) st r ∧
    skipped st = stream st ∧ exhaust (objects st) = objects st.
Proof.
  intros HI Hm. pose proof (ri_last _ _ _ _ _ HI) as Hl. unfold lastCase in Hl.
  destruct (lastObject st) as [o|] eqn:Eo; [|destruct Hl; congruence]. case_decide; [destruct Hl as (_&?&_); congruence|].
  destruct Hl as (k&Hl&Hk). pose proof Hl as (_&_&[(Hsz&_&_&Hleft&_)|(_&?&_)]); [|congruence].
  assert (note (viewOf evs) (FailsBox EOF) = viewOf evs) as Hv.
  { unfold note. rewrite (last_lookup_boxes _ _ _ _ _ HI), Eo. cbn. by rewrite Hsz. }
  assert (outcomeOf r = Err EOF ∧ nextReader r = r) as [Hout Hnext]
    by (unfold outcomeOf, nextReader, ReadBox, failedReadBox; by rewrite Hm).
  destruct (outcomes_snoc _ _ _ _ _ (FailsBox EOF) HI) as [Ho1 Ho2]; [by rewrite Hout|]. rewrite Hnext in Ho2.
  split_and!.
  - destruct HI. split; rewrite ?viewOf_snoc, ?Hv; try done.
    + intros i x [?|?%list_elem_of_singleton]%elem_of_app; [by eapply ri_parses0|done].
    + intros i o' v Hi. rewrite elem_of_app, list_elem_of_singleton, ri_parsed0 by done. split; [by left|by intros [?|?]].
    + intros i x Hu [?|?%list_elem_of_singleton]%elem_of_app; [by eapply ri_untouched0|done].
  - unfold skipped. by rewrite Eo, Hleft.
  - unfold exhaust. apply list_eq. intros i. destruct (decide (i = (length (objects st) - 1)%nat)) as [->|].
    + rewrite list_lookup_alter_eq. unfold lastObject in Eo. rewrite Eo. cbn. f_equal. destruct o. cbn in *. by rewrite Hleft.
    + by rewrite list_lookup_alter_ne.
Qed.

(** A call of [ReadBox] that fails in a header or before it leaves the last box
    behind. *)
Lemma runInv_fails s e evs st r er obs sm :
  runInv s e evs st r → noMoreBoxes r = false → ReadBox r = Err er → sm = input (failedReadBox r) →
  length obs = length (objects st) →
  (∀ i o', obs !! i = Some o' → stale (Shared sm (sh_end st) (sh_pos st) (sh_noMore st) obs) o' ∧
    ∃ o, objects st !! i = Some o ∧ ob_box o' = ob_box o ∧ ob_parsed o' = ob_parsed o) →
  runInv s e (evs ++ [FailsBox er]) (Shared sm (sh_end st) (sh_pos st) (sh_noMore st) obs) (failedReadBox r).
Proof.
  intros HI Hm H Hsm Hlen Hobs. destruct (ri_pos _ _ _ _ _ HI) as [Hpos Hmore]. destruct (ri_end _ _ _ _ _ HI) as [Hend Hre].
  assert (outcomeOf r = Err er ∧ nextReader r = failedReadBox r) as [Hout Hnext] by (unfold outcomeOf, nextReader; by rewrite H).
  destruct (outcomes_snoc _ _ _ _ _ (FailsBox er) HI) as [Ho1 Ho2]; [by rewrite Hout|]. rewrite Hnext in Ho2.
  assert (ending (failedReadBox r) = ending r ∧ pos (failedReadBox r) = pos r ∧ noMoreBoxes (failedReadBox r) = false) as (Hf1&Hf2&Hf3)
    by (unfold failedReadBox; rewrite Hm; done).
  pose proof (boxes_length _ _ _ _ _ HI) as Hbl. pose proof (last_lookup_boxes _ _ _ _ _ HI) as Hlast.
  assert (∀ o, lastObject st = Some o → size (ob_box o) ≠ 0) as Hsize.
  { intros o Ho. pose proof (ri_last _ _ _ _ _ HI) as Hl. unfold lastCase in Hl. rewrite Ho in Hl. case_decide; [by destruct Hl|].
    destruct Hl as (k&(_&_&[(_&?&_)|(?&_)])&_); [congruence|done]. }
  assert (boxesOf (note (viewOf evs) (FailsBox er)) = boxesOf (viewOf evs)) as Hb1.
  { cbn [note]. destruct (last _) as [b|]; [|done]. by destruct (size b =? 0). }
  assert (passed (note (viewOf evs) (FailsBox er)) = length (objects st) ∧
    (lastObject st = None ∨ untouched (note (viewOf evs) (FailsBox er)) = false)) as [Hb2 Hb3].
  { cbn [note]. rewrite Hlast. destruct (lastObject st) as [o|] eqn:Eo; cbn.
    - destruct (Z.eqb_spec (size (ob_box o)) 0); [by destruct (Hsize o)|]. cbn. by split; [|right].
    - split; [|by left]. apply lookup_ge_None in Eo. destruct (ri_passed _ _ _ _ _ HI). lia. }
  split; rewrite ?viewOf_snoc, ?Hb1, ?Hb2; cbn [objects sh_end sh_pos sh_noMore].
  - rewrite (ri_boxes _ _ _ _ _ HI). apply list_eq. intros i. rewrite !list_lookup_fmap. destruct (obs !! i) as [o'|] eqn:Ei.
    + destruct (Hobs i o' Ei) as (_&o&->&Hbox&_). cbn. by rewrite Hbox.
    + apply lookup_ge_None in Ei. by rewrite (proj2 (lookup_ge_None (objects st) i)) by lia.
  - done.
  - done.
  - split; [done|congruence].
  - split; [congruence|congruence].
  - rewrite Hlen. lia.
  - intros i o Hi _. by apply (Hobs i o).
  - intros i x [Hx|Hx%list_elem_of_singleton]%elem_of_app; [rewrite Hlen; by eapply (ri_parses _ _ _ _ _ HI)|done].
  - intros i o v Hi. destruct (Hobs i o Hi) as (_&o0&Ho0&_&->).
    rewrite elem_of_app, list_elem_of_singleton, (ri_parsed _ _ _ _ _ HI i o0 v Ho0). split; [by left|by intros [?|?]].
  - intros i x Hu [Hx|Hx%list_elem_of_singleton]%elem_of_app; [|done]. destruct Hb3 as [Hn|Hn]; [|congruence].
    apply lookup_ge_None in Hn. pose proof (ri_parses _ _ _ _ _ HI i x Hx). lia.
  - unfold lastCase, lastObject in *. cbn [objects stream]. rewrite Hlen.
    destruct (obs !! (length (objects st) - 1)%nat) as [o'|] eqn:Eo; [|done]. rewrite Hb2, decide_True by done.
    destruct (Hobs _ o' Eo) as (_&o&Ho&->&_). split_and!; [by apply Hsize|done|done|]. destruct Hb3 as [Hn|?]; [congruence|done].
Qed.

Lemma runInv_ReadBoxFails s e evs st r er :
  runInv s e evs st r → ReadBox (headerReader st) = Err er →
  ∃ r', runInv s e (evs ++ [FailsBox er])
    (Shared (input (failedReadBox (headerReader st))) (sh_end st) (sh_pos st) (sh_noMore st) (exhaust (objects st))) r'.
Proof.
  intros HI H. destruct (ri_pos _ _ _ _ _ HI) as [Hpos Hmore]. destruct (noMoreBoxes r) eqn:Hm.
  - destruct (runInv_noMore _ _ _ _ _ HI Hm) as (HI'&Hsk&->). exists r. unfold ReadBox, failedReadBox, headerReader in *.
    cbn [noMoreBoxes input] in *. rewrite Hmore in *. injection H as <-. rewrite Hsk. destruct st. cbn in *. by subst.
  - pose proof (headerReader_spec _ _ _ _ _ HI Hm) as Hr. rewrite Hr in *. exists (failedReadBox r).
    apply runInv_fails; [done..|apply length_exhaust|]. intros i o' Hi. split.
    + eapply exhaust_stale; [exact HI|done|exact Hi|]. cbn [stream]. intros Hs. unfold failedReadBox. rewrite Hm. cbn [input].
      assert (input r = []) as ->; [|by rewrite drop_nil]. rewrite <-Hr. unfold headerReader, skipped. cbn [input]. rewrite Hs.
      destruct (lastObject st) as [o|]; [|done]. destruct (ob_left o); [by rewrite drop_nil|done].
    + apply lookup_exhaust in Hi as (o&?&?&?&_). by exists o.
Qed.

Lemma runInv_skipFails s e evs st r o n :
  runInv s e evs st r → sh_noMore st = false → lastObject st = Some o → ob_left o = Some n →
  zlen (stream st) < n → sh_end st ≠ EOF →
  ∃ r', runInv s e (evs ++ [FailsBox (sh_end st)])
    (Shared [] (sh_end st) (sh_pos st) (sh_noMore st)
       (<[(length (objects st) - 1)%nat := advance (length (stream st)) o]> (objects st))) r'.
Proof.
  intros HI Hm Ho Hn Hlt He. destruct (ri_pos _ _ _ _ _ HI) as [Hpos Hmore]. destruct (ri_end _ _ _ _ _ HI) as [Hend Hre].
  rewrite Hmore in Hm. pose proof (headerReader_spec _ _ _ _ _ HI Hm) as Hr.
  assert (input r = []) as Hi. { rewrite <-Hr. cbn. unfold skipped. rewrite Ho, Hn. apply drop_ge. lia. }
  exists (failedReadBox r). apply runInv_fails; [done|done| | |apply length_insert|].
  - unfold ReadBox, readFull. rewrite Hm, Hi. rewrite decide_False by (cbn; lia). rewrite decide_False by (by intros [_ []]). congruence.
  - unfold failedReadBox. rewrite Hm, Hi. cbn [input]. by rewrite drop_nil.
  - intros i o' [(<-&<-&_)|[Hne Hi']]%list_lookup_insert_Some; (split; [by right|]); [by exists o|by exists o'].
Qed.

Lemma runInv_step s e evs st r ev st' : runInv s e evs st r → step st ev st' → ∃ r', runInv s e (evs ++ [ev]) st' r'.
Proof.
  intros HI H. destruct H as [b r2 H|er H|o n Hm Ho Hn Hlt He|i o k Hi Hk|i o v Hi Hv|i o k v Hi Hn Hv Hk|i o k er Hi Hn Hv Hk _].
  - exists r2. by apply (runInv_ReadBox _ _ _ _ r).
  - by apply (runInv_ReadBoxFails _ _ _ _ r).
  - by apply (runInv_skipFails _ _ _ _ r _ n).
  - exists r. apply (runInv_touch _ _ _ _ _ i o k (ob_parsed o)); [done..|left; by eexists].
  - exists r. pose proof (runInv_touch _ _ _ _ _ i o 0 (ob_parsed o) (Parses i (Ok v)) HI Hi ltac:(lia)) as HT.
    rewrite drop_0 in HT. assert (Object (ob_box o) ((λ n, n - Z.of_nat 0) <$> ob_left o) (ob_parsed o) = o) as Ho.
    { destruct o as [? [n|] ?]; cbn; [|done]. do 2 f_equal. lia. }
    rewrite Ho, list_insert_id in HT by done. destruct st. apply HT. right. eexists. split; [done|].
    intros w. split; [by left|]. intros [?|[= ->]]; done.
  - exists r. apply runInv_touch; [done..|]. right. eexists. split; [done|]. intros w. rewrite Hn.
    split; [intros [= ->]; by right|by intros [?|[= ->]]].
  - exists r. apply (runInv_touch _ _ _ _ _ i o k (ob_parsed o)); [done..|]. right. eexists. split; [done|].
    intros w. split; [by left|by intros [?|?]].
Qed.

Lemma run_inv s e evs st : run s e evs st → ∃ r, runInv s e evs st r.
Proof.
  induction 1 as [|evs st ev st' _ [r IH] H]; [|by eapply runInv_step]. exists (NewReaderOf s e).
  split; cbn; try done; try (intros *; by rewrite lookup_nil).
  - lia.
  - by intros ?? ?%not_elem_of_nil.
Qed.

(** Every event happens in a state that a run reaches. *)
Lemma run_split s e evs1 ev evs2 st :
  run s e (evs1 ++ ev :: evs2) st → ∃ st1 st2, run s e evs1 st1 ∧ step st1 ev st2.
Proof.
  revert st. induction evs2 as [|ev2 evs2 IH] using rev_ind; intros st H; inversion H as [E|evs st1 w st2 Hrun Hstep E]; subst.
  - by destruct evs1.
  - apply app_inj_tail in E as [<- <-]. by eexists _, _.
  - by destruct evs1.
  - change (ev :: evs2 ++ [ev2]) with ((ev :: evs2) ++ [ev2]) in E. rewrite app_assoc in E. apply app_inj_tail in E as [-> _].
    by eapply IH.
Qed.

(** ** The property *)

(** C13. Whatever is read of the boxes' bodies and parsed between the calls of
    [ReadBox], however much a parser fetches, and whichever calls fail: the
    calls of [ReadBox] give, one after the other, what a reader gives whose
    boxes have all of their bodies, the errors included. The first [Parse] of
    the box returned last, if nothing of its body has been read and no further
    [ReadBox] has been tried, gives what its whole body parses to. After a
    [Parse] without error every [Parse] of the box gives the same value again
    (the comment at [Box.Parse] says that it returns nil). The body of a box
    that [ReadBox] has left behind is empty. *)
Theorem boxes_share_reader (s : list byte) (e : error) (evs : list event) (st : shared) :
  run s e evs st →
  outcomes evs = readBoxes (length (outcomes evs)) (NewReaderOf s e) ∧
  (∀ evs1 evs2 i x, evs = evs1 ++ Parses i x :: evs2 →
    (∀ v, Parses i (Ok v) ∈ evs1 → x = Ok v) ∧
    (S i = length (boxesOf (viewOf evs1)) → untouched (viewOf evs1) = true →
      ∃ b, last (boxesOf (viewOf evs1)) = Some b ∧ ParseBox b = Some x)) ∧
  (∀ evs1 evs2 i x, evs = evs1 ++ ReadsBody i x :: evs2 → (i < passed (viewOf evs1))%nat → x = []).
Proof.
  intros H. destruct (run_inv _ _ _ _ H) as [r HI]. split_and!; [apply HI| |].
  - intros evs1 evs2 i x ->. apply run_split in H as (st1&st2&H1&Hs). apply run_inv in H1 as [r1 HI1].
    assert (∃ o, objects st1 !! i = Some o ∧ (ob_parsed o = None ∧ parseLeft st1 o = Some x ∨ ∃ v, ob_parsed o = Some v ∧ x = Ok v))
      as (o&Hi&Ho) by (inversion Hs; subst; eauto 8).
    split.
    + intros v Hv%(ri_parsed _ _ _ _ _ HI1 i o v Hi). destruct Ho as [[? _]|(w&?&->)]; congruence.
    + rewrite (boxes_length _ _ _ _ _ HI1), (last_lookup_boxes _ _ _ _ _ HI1). intros Hlen Hu.
      assert (lastObject st1 = Some o) as Hlo by (unfold lastObject; rewrite <-Hi; f_equal; lia).
      exists (ob_box o). split; [by rewrite Hlo|]. pose proof (ri_last _ _ _ _ _ HI1) as Hlast. unfold lastCase in Hlast. rewrite Hlo in Hlast.
      case_decide; [destruct Hlast as (_&_&_&?); congruence|]. destruct Hlast as (k&HL&Hk). rewrite (Hk Hu) in HL.
      destruct Ho as [[_ Hp]|(w&Hw&->)]; [by rewrite <-(last_parse _ _ _ HL)|].
      exfalso. apply (ri_parsed _ _ _ _ _ HI1 i o w Hi) in Hw. by eapply (ri_untouched _ _ _ _ _ HI1).
  - intros evs1 evs2 i x -> Hlen. apply run_split in H as (st1&st2&H1&Hs). apply run_inv in H1 as [r1 HI1].
    inversion Hs as [| | |? o k Hi Hk| | |]; subst.
    rewrite (stale_available _ _ (ri_stale _ _ _ _ _ HI1 i o Hi Hlen)) in Hk. cbn in Hk. by replace k with 0%nat by lia.
Qed.

(** Two boxes: two bytes of the first are read, then the second is returned,
    and after that nothing is left of the first; a further call meets the end
    of the input, and nothing is left of the second. *)
Lemma boxes_share_reader_witness :
  let s := [x00; x00; x00; x0d] ++ bs "free" ++ bs "abcde" ++ [x00; x00; x00; x0a] ++ bs "skip" ++ bs "xy" in
  ∃ b1 b2 st, run s EOF [ReturnsBox b1; ReadsBody 0 (bs "ab"); ReturnsBox b2; ReadsBody 0 []; FailsBox EOF; ReadsBody 1 []] st ∧
    boxType b1 = bs "free" ∧ body b2 = bs "xy" ∧ [Ok b1; Ok b2; Err EOF] = readBoxes 3 (NewReaderOf s EOF).
Proof.
  intros s. pose proof (RunNil s EOF) as H.
  eapply RunStep in H; [|eapply (StepReadBox (newShared s EOF)); vm_compute; reflexivity].
  eapply RunStep in H; [|eapply (StepRead _ 0 _ 2); [reflexivity|vm_compute; lia]].
  eapply RunStep in H; [|eapply StepReadBox; vm_compute; reflexivity].
  eapply RunStep in H; [|eapply (StepRead _ 0 _ 0); [reflexivity|lia]].
  eapply RunStep in H; [|eapply StepReadBoxFails; vm_compute; reflexivity].
  eapply RunStep in H; [|eapply (StepRead _ 1 _ 0); [reflexivity|lia]].
  eexists _, _, _. split; [exact H|]. split; [reflexivity|]. split; [reflexivity|].
  exact (proj1 (boxes_share_reader _ _ _ _ H)).
Defined.
