(* ===== verification/Heif.v ===== *)
(** * media/heif: HEIF containers

    The methods of [File] and [Item] and [EncodeImage], from heif.go. A file
    is read from an [io.ReaderAt] that gives some bytes, and behind them an
    error, which is EOF where no read fails; the lazily parsed metadata are
    part of the state of a [File]. *)
From S2P Require Import Prelude.
From S2P Require Import GoIO.
From S2P Require Import Bmff.

(** ** Data *)

Record BoxMeta := MkBoxMeta {
  bm_FileType : option FileTypeBox;
  bm_Handler : option HandlerBox;
  bm_PrimaryItem : option PrimaryItemBox;
  bm_ItemInfo : option ItemInfoBox;
  bm_Properties : option ItemPropertiesBox;
  bm_ItemLocation : option ItemLocationBox;
  bm_ItemReference : option ItemReferenceBox;
}.

Record File := MkFile {
  ra : list byte;          (* what ra can read *)
  raEnd : error;           (* what ReadAt gives behind it: EOF, if no read fails *)
  metaErr : option error;
  meta : option BoxMeta;
}.

Record Item := MkItem {
  ID : Z;
  Info : option ItemInfoEntry;
  Location : option ItemLocationBoxEntry;
  it_Properties : list Box;
}.

(** [Open] of a file some reads of which fail, and of one that can be read. *)
Definition OpenOf (f : list byte) (ending : error) : File := MkFile f ending None None.
Definition Open (f : list byte) : File := OpenOf f EOF.

Definition raReadAt (f : File) (n off : Z) : list byte * option error :=
  let '(x, err) := bytesReadAt (ra f) n off in
  (x, if decide (err = Some EOF) then Some (raEnd f) else err).

Definition ErrNoEXIF : error := Errorf "heif: no EXIF found".
Definition ErrUnknownItem : error := Errorf "heif: unknown item".

(** ** Metadata *)

Definition setMetaErr (f : File) (err : error) : File :=
  match metaErr f with
  | Some _ => MkFile (ra f) (raEnd f) (Some err) (meta f)
  | None => f
  end.

(** The switch on the dynamic type of a parsed child of the meta box. *)
Definition setChild (m : BoxMeta) (b : Box) : BoxMeta :=
  let '(MkBoxMeta ft hd pi ii pr il ir) := m in
  match b with
  | Handler v => MkBoxMeta ft (Some v) pi ii pr il ir
  | PrimaryItem v => MkBoxMeta ft hd (Some v) ii pr il ir
  | ItemInfo v => MkBoxMeta ft hd pi (Some v) pr il ir
  | ItemProperties v => MkBoxMeta ft hd pi ii (Some v) il ir
  | ItemLocation v => MkBoxMeta ft hd pi ii pr (Some v) ir
  | ItemReferences v => MkBoxMeta ft hd pi ii pr il (Some v)
  | _ => m
  end.

Fixpoint parseChildren (l : list box) (m : BoxMeta) : fallible BoxMeta :=
  match l with
  | [] => ret m
  | b :: l =>
      match ParseBox b with
      | Some (Ok pb) => parseChildren l (setChild m pb)
      | Some (Err e) => if decide (e = ErrUnknownBox) then parseChildren l m else fail e
      | None => None
      end
  end.

Definition assumedMaxSize : Z := 5 * 2 ^ 40.

(** [io.NewSectionReader(f.ra, 0, assumedMaxSize)] *)
Definition section (f : File) : Reader :=
  if zlen (ra f) <=? assumedMaxSize then NewReaderOf (ra f) (raEnd f)
  else NewReader (take (Z.to_nat assumedMaxSize) (ra f)).

Definition readMeta (f : File) : fallible BoxMeta :=
  '(pbox, bmr) ←! ReadAndParseBox (section f) (bs "ftyp");
  match pbox with
  | FileType ft =>
      '(pbox, _) ←! ReadAndParseBox bmr (bs "meta");
      match pbox with
      | Meta metabox =>
          parseChildren (mb_Children metabox) (MkBoxMeta (Some ft) None None None None None None)
      | _ => None      (* the panic of pbox.( *bmff.MetaBox) *)
      end
  | _ => None
  end.

Definition getMeta (f : File) : option (result BoxMeta * File) :=
  match metaErr f, meta f with
  | Some e, _ => Some (Err e, f)
  | None, Some m => Some (Ok m, f)
  | None, None =>
      match readMeta f with
      | Some (Ok m) => Some (Ok m, MkFile (ra f) (raEnd f) (metaErr f) (Some m))
      | Some (Err e) => Some (Err e, setMetaErr f e)
      | None => None
      end
  end.

(** [meta, err := f.getMeta(); if err != nil { return nil, err }] *)
Definition withMeta {A} (f : File) (k : BoxMeta → File → fallible A) : fallible A :=
  match getMeta f with
  | Some (Ok m, f) => k m f
  | Some (Err e, _) => fail e
  | None => None
  end.

Definition EXIFItemID (m : BoxMeta) : Z :=
  match bm_ItemInfo m with
  | None => 0
  | Some ii =>
      match list_find (λ ife, ItemType ife = bs "Exif") (ItemInfos ii) with
      | Some (_, ife) => ie_ItemID ife
      | None => 0
      end
  end.

(** ** Items *)

Definition extentsOf (b : Box) : option (Z * Z) :=
  match b with SpatialExtents p => Some (ImageWidth p, ImageHeight p) | _ => None end.

Definition rotationOf (b : Box) : option Z :=
  match b with Rotation p => Some (Angle p) | _ => None end.

(** The first property that has the dynamic type looked for. *)
Fixpoint firstOf {A} (f : Box → option A) (l : list Box) : option A :=
  match l with
  | [] => None
  | b :: l => match f b with Some x => Some x | None => firstOf f l end
  end.

Definition itemSpatialExtents (it : Item) : Z * Z * bool :=
  match firstOf extentsOf (it_Properties it) with
  | Some (w, h) => (w, h, true)
  | None => (0, 0, false)
  end.

Definition Rotations (it : Item) : Z := default 0 (firstOf rotationOf (it_Properties it)).

Definition VisualDimensions (it : Item) : Z * Z * bool :=
  let '(width, height, ok) := itemSpatialExtents it in
  let '(width, height) :=
    Nat.iter (Z.to_nat (Rotations it)) (λ '(w, h), (h, w)) (width, height) in
  (width, height, ok).

(** The loop over the association boxes, which stops at the first that has
    associations of the item. *)
Fixpoint associationsOf (id : Z) (nprops : Z) (ipas : list ItemPropertyAssociation) (asses : list ItemProperty) :
    list ItemProperty :=
  match ipas with
  | [] => asses
  | ipa :: ipas =>
      if 0 <? zlen asses then asses
      else associationsOf id nprops ipas
        (asses ++ concat ((λ ipai, if negb (ai_ItemID ipai =? id) then []
                                   else filter (λ ass, Index ass ≠ 0 ∧ Index ass ≤ nprops) (ai_Associations ipai))
                          <$> Entries ipa))
  end.

Definition propertyAssociations (f : File) (id : Z) : list ItemProperty :=
  match meta f with
  | None => []
  | Some m =>
      match bm_Properties m with
      | None => []
      | Some p => associationsOf id (zlen (Properties (PropertyContainer p))) (Associations p) []
      end
  end.

(** The properties of an item, parsed where they can be. *)
Fixpoint itemProperties (allProps : list box) (asses : list ItemProperty) : option (list Box) :=
  match asses with
  | [] => Some []
  | ass :: asses =>
      b ← zidx allProps (Index ass - 1);
      r ← ParseBox b;
      l ← itemProperties allProps asses;
      Some (match r with Ok pb => pb | Err _ => Unparsed b end :: l)
  end.

(** The last element of the loop that satisfies the test. *)
Definition lastWith {A} (f : A → bool) (l : list A) : option A :=
  foldl (λ acc x, if f x then Some x else acc) None l.

Definition ItemByID (f : File) (id : Z) : fallible (Item * File) :=
  withMeta f (λ m f,
    let loc := match bm_ItemLocation m with
               | Some il => lastWith (λ ilbe, le_ItemID ilbe =? id) (il_Items il)
               | None => None
               end in
    let info := match bm_ItemInfo m with
                | Some ii => lastWith (λ iie, ie_ItemID iie =? id) (ItemInfos ii)
                | None => None
                end in
    match info with
    | None => fail ErrUnknownItem
    | Some _ =>
        let allProps := match bm_Properties m with
                        | Some p => Properties (PropertyContainer p)
                        | None => []
                        end in
        props ←? itemProperties allProps (propertyAssociations f id);
        ret (MkItem id info loc props, f)
    end).

Definition primaryItem (f : File) : fallible (Item * File) :=
  withMeta f (λ m f,
    match bm_PrimaryItem m with
    | None => fail (Errorf "heif: HEIF file lacks primary item box")
    | Some p => ItemByID f (pib_ItemID p)
    end).

Definition EXIF (f : File) : fallible (list byte * File) :=
  withMeta f (λ m f,
    let exifID := EXIFItemID m in
    if exifID =? 0 then fail ErrNoEXIF
    else
      '(it, f) ←! ItemByID f exifID;
      match Location it with
      | None => fail (Errorf "heif: file said it contained EXIF, but didn't say where")
      | Some loc =>
          match Extents loc with
          | [offLen] =>
              if 20 * 2 ^ 10 <? Length offLen then fail (Errorf "heif: declared EXIF size %d exceeds threshold of %d bytes")
              else if Length offLen <? 4 then fail (Errorf "heif: declared EXIF size %d is too small")
              else
                let '(buf, err) := raReadAt f (Length offLen - 4)
                  (i64 (i64 (u64 (BaseOffset loc + Offset offLen)) + 4)) in
                match err with
                | Some e => fail e
                | None => ret (buf, f)
                end
          | _ => fail (Errorf "heif: expected 1 EXIF section, saw %d")
          end
      end).

Definition MaxItemDataSize : Z := 64 * 2 ^ 20.

Fixpoint totalLength (es : list OffsetLength) (total : Z) : result Z :=
  match es with
  | [] => Ok total
  | e :: es =>
      if (Length e =? 0) || (MaxItemDataSize - total <? Length e)
      then Err (Errorf "heif: item %d has unsupported extent length %d")
      else totalLength es (total + Length e)
  end.

Fixpoint readExtents (f : File) (base : Z) (es : list OffsetLength) (buf : list byte) : result (list byte) :=
  match es with
  | [] => Ok buf
  | e :: es =>
      let off := u64 (base + Offset e) in
      if (off <? base) || (2 ^ 63 - 1 <? off) then Err (Errorf "heif: item %d has invalid extent offset")
      else
        match raReadAt f (Length e) off with
        | (_, Some _) => Err (Errorf "heif: reading item %d: %w")
        | (part, None) => readExtents f base es (buf ++ part)
        end
  end.

Definition itemData (f : File) (it : Item) : result (list byte) :=
  match Location it with
  | None => Err (Errorf "heif: item %d has no location")
  | Some loc =>
      if negb (ConstructionMethod loc =? 0) || negb (DataReferenceIndex loc =? 0)
      then Err (Errorf "heif: item %d uses unsupported construction method %d, data reference %d")
      else if zlen (Extents loc) =? 0 then Err (Errorf "heif: item %d has no extents")
      else
        match totalLength (Extents loc) 0 with
        | Err e => Err e
        | Ok _ => readExtents f (BaseOffset loc) (Extents loc) []
        end
  end.

Fixpoint thumbnailItems (f : File) (id : Z) (refs : list ItemReference) : fallible (list Item) :=
  match refs with
  | [] => ret []
  | ref :: refs =>
      if decide (ref_Type ref ≠ bs "thmb" ∨ id ∉ ToItemIDs ref) then thumbnailItems f id refs
      else
        '(thumb, f) ←! ItemByID f (FromItemID ref);
        thumbs ←! thumbnailItems f id refs;
        ret (thumb :: thumbs)
  end.

Definition Thumbnails (f : File) (it : Item) : fallible (list Item) :=
  withMeta f (λ m f,
    match bm_ItemReference m with
    | None => ret []
    | Some ir => thumbnailItems f (ID it) (References ir)
    end).

(** ** Writing *)

Record Property := MkProperty { p_Box : list byte; p_Essential : bool }.

Definition appendBox (dst typ body : list byte) : list byte :=
  dst ++ bePut 4 (8 + zlen body) ++ typ ++ body.

Definition zeros (n : nat) : list byte := replicate n x00.

Definition SpatialExtentsProperty (width height : Z) : Property :=
  MkProperty (appendBox [] (bs "ispe") (zeros 4 ++ bePut 4 width ++ bePut 4 height)) false.

Definition RotationProperty (quarterTurns : Z) : Property :=
  MkProperty (appendBox [] (bs "irot") [z2b (Z.land quarterTurns 3)]) true.

(** The loop over the properties: the contents of "ipco" and the
    associations; [i] is the index of the next property. *)
Fixpoint encodeProps (i : Z) (props : list Property) (ipco ipma : list byte) : result (list byte * list byte) :=
  match props with
  | [] => Ok (ipco, ipma)
  | p :: props =>
      if (zlen (p_Box p) <? 8) || negb (beUint (take 4 (p_Box p)) =? u32 (zlen (p_Box p)))
      then Err (Errorf "heif: item property %d isn't a box")
      else
        let v := u8 (i + 1) in
        let v := if p_Essential p then Z.lor v 128 else v in
        encodeProps (i + 1) props (ipco ++ p_Box p) (ipma ++ [z2b v])
  end.

Definition ftypBody (brand : list byte) : list byte := brand ++ zeros 4 ++ bs "mif1" ++ brand.
Definition hdlrBody : list byte := zeros 8 ++ bs "pict" ++ zeros 13.
Definition pitmBody : list byte := zeros 4 ++ bePut 2 1.
Definition infeBody (itemType : list byte) : list byte :=
  [x02; x00; x00; x00] ++ bePut 2 1 ++ bePut 2 0 ++ itemType ++ [x00].
Definition iinfBody (itemType : list byte) : list byte :=
  appendBox (zeros 4 ++ bePut 2 1) (bs "infe") (infeBody itemType).
Definition assocBody (ipma : list byte) : list byte :=
  zeros 4 ++ bePut 4 1 ++ bePut 2 1 ++ [z2b (zlen ipma)] ++ ipma.
Definition iprpBody (ipco ipma : list byte) : list byte :=
  appendBox (appendBox [] (bs "ipco") ipco) (bs "ipma") (assocBody ipma).
Definition ilocBody (off len : Z) : list byte :=
  [x00; x00; x00; x00; x44; x00] ++ bePut 2 1 ++ bePut 2 1 ++ bePut 2 0 ++ bePut 2 1 ++ bePut 4 off ++ bePut 4 len.

Definition buildMeta (itemType ipco ipma : list byte) (datalen off : Z) : list byte :=
  let body := zeros 4 in
  let body := appendBox body (bs "hdlr") hdlrBody in
  let body := appendBox body (bs "pitm") pitmBody in
  let body := appendBox body (bs "iinf") (iinfBody itemType) in
  let body := appendBox body (bs "iloc") (ilocBody off datalen) in
  let body := appendBox body (bs "iprp") (iprpBody ipco ipma) in
  appendBox [] (bs "meta") body.

Definition EncodeImage (brand itemType : list byte) (props : list Property) (data : list byte) : result (list byte) :=
  if negb (zlen brand =? 4) || negb (zlen itemType =? 4) then Err (Errorf "heif: invalid brand %q or item type %q")
  else if 127 <? zlen props then Err (Errorf "heif: too many item properties")
  else
    match encodeProps 0 props [] [] with
    | Err e => Err e
    | Ok (ipco, ipma) =>
        let out := appendBox [] (bs "ftyp") (ftypBody brand) in
        let dataOff := zlen out + zlen (buildMeta itemType ipco ipma (zlen data) 0) + 8 in
        if 2 ^ 32 - 1 <? dataOff + zlen data then Err (Errorf "heif: image data is too large")
        else Ok (appendBox (out ++ buildMeta itemType ipco ipma (zlen data) dataOff) (bs "mdat") data)
    end.

Definition majorBrand (f : File) : list byte :=
  match meta f with
  | Some m =>
      match bm_FileType m with
      | Some ft => if zlen (MajorBrand ft) =? 4 then MajorBrand ft else bs "heic"
      | None => bs "heic"
      end
  | None => bs "heic"
  end.

(** The property boxes of an item, copied. *)
Fixpoint copyProps (allProps : list box) (asses : list ItemProperty) : option (list Property) :=
  match asses with
  | [] => Some []
  | ass :: asses =>
      if (Index ass =? 0) || (zlen allProps <? Index ass) then copyProps allProps asses
      else
        p ← zidx allProps (Index ass - 1);
        l ← copyProps allProps asses;
        Some (MkProperty (appendBox [] (boxType p) (body p)) (Essential ass) :: l)
  end.

Definition derivedTypes : list (list byte) :=
  [bs "grid"; bs "iden"; bs "iovl"; bs "Exif"; bs "mime"; bs "uri "].

Definition StandaloneHEIF (f : File) (it : Item) : fallible (list byte) :=
  withMeta f (λ m f,
    info ←? Info it;
    if decide (ItemType info ∈ derivedTypes) then fail (Errorf "heif: can't make standalone HEIF of %q item %d")
    else
      match itemData f it with
      | Err e => fail e
      | Ok data =>
          let allProps := match bm_Properties m with
                          | Some p => Properties (PropertyContainer p)
                          | None => []
                          end in
          props ←? copyProps allProps (propertyAssociations f (ID it));
          Some (EncodeImage (majorBrand f) (ItemType info) props data)
      end).
