(* ===== verification/HeifLaws.v ===== *)
(** * media/heif: laws of the encoder and the accessors

    Running the box parsers on what [EncodeImage] writes. *)
From S2P Require Import Prelude.
From S2P Require Import GoIO.
From S2P Require Import Bmff.
From S2P Require Import BmffLaws.
From S2P Require Import Heif.

(** ** Running a parser *)

Lemma pbind_run {A B} (m : P A) (f : A → P B) br x br' :
  m br = Some (Ok x, br') → pbind m f br = f x br'.
Proof. intros H. unfold pbind. by rewrite H. Qed.

Lemma soft_run {A} (d x : A) (m : P A) br br' :
  m br = Some (Ok x, br') → soft d m br = Some (Ok x, br').
Proof. intros H. unfold soft. by rewrite H. Qed.

Lemma Peek_run x rest e en : Peek (length x) (BufReader (x ++ rest) e en) = Some (Ok x, BufReader (x ++ rest) e en).
Proof.
  unfold Peek. cbn [br_rest]. rewrite decide_True by (rewrite length_app; lia). by rewrite take_app_length.
Qed.

Lemma Discard_run x rest e en : Discard (length x) (BufReader (x ++ rest) e en) = Some (Ok tt, BufReader rest e en).
Proof. unfold Discard. cbn [br_rest br_err]. by rewrite drop_app_length. Qed.

Lemma readUint_run x rest : readUint (length x) (BufReader (x ++ rest) None EOF) = Some (Ok (beUint x), BufReader rest None EOF).
Proof.
  unfold readUint, guard, recording. cbn [br_err]. unfold pbind at 1. rewrite Peek_run.
  unfold pbind. by rewrite Discard_run.
Qed.

Lemma readUint_put k v rest :
  readUint k (BufReader (bePut k v ++ rest) None EOF) = Some (Ok (v mod 256 ^ Z.of_nat k), BufReader rest None EOF).
Proof. rewrite <-(length_bePut k v) at 1. rewrite readUint_run. by rewrite beUint_bePut. Qed.

Lemma bePut_beUint x : bePut (length x) (beUint x) = x.
Proof.
  induction x as [|b x IH] using rev_ind; [done|].
  rewrite length_app, Nat.add_comm. simpl. rewrite beUint_app. pose proof (b2z_range b).
  replace ((256 * beUint x + b2z b) / 256) with (beUint x) by zlia. rewrite IH. f_equal. f_equal.
  apply (inj b2z). rewrite b2z_z2b. zlia.
Qed.

(** ** Parsing the boxes that [EncodeImage] writes *)

Lemma Parse_hdlr n sz p :
  ∃ hb, Parse (S n) (MkBox sz (bs "hdlr") p 8 hdlrBody EOF) = Some (Ok (Handler hb)) ∧ HandlerType hb = bs "pict".
Proof. eexists. by split. Qed.

Lemma Parse_pitm n sz p :
  ∃ pb, Parse (S n) (MkBox sz (bs "pitm") p 8 pitmBody EOF) = Some (Ok (PrimaryItem pb)) ∧ pib_ItemID pb = 1.
Proof. eexists. by split. Qed.

Lemma Parse_ftyp n sz p brand :
  length brand = 4%nat →
  ∃ fb, Parse (S n) (MkBox sz (bs "ftyp") p 8 (ftypBody brand) EOF) = Some (Ok (FileType fb)) ∧ MajorBrand fb = brand.
Proof.
  intros Hb. do 4 (destruct brand as [|? brand]; [done|]). destruct brand; [|done]. eexists. by split.
Qed.

Lemma cutZero_app s : ∃ a b, cutZero (s ++ [x00]) = Some (a ++ [x00], b).
Proof.
  induction s as [|c s (a&b&IH)]; [by exists [], []|]. simpl. destruct (decide (c = x00)) as [->|].
  - by exists [], (s ++ [x00]).
  - rewrite IH. by exists (c :: a), b.
Qed.

Lemma trimZero_app a : trimZero (a ++ [x00]) = a.
Proof.
  unfold trimZero. rewrite last_snoc, length_app. simpl.
  replace (length a + 1 - 1)%nat with (length a) by lia. apply take_app_length.
Qed.

Lemma readString_run s : ∃ x rest, readString (BufReader (s ++ [x00]) None EOF) = Some (Ok x, BufReader rest None EOF).
Proof.
  unfold readString. cbn [br_err br_rest]. destruct (cutZero_app s) as (a&b&->). rewrite trimZero_app.
  rewrite decide_False by (rewrite length_app; simpl; lia). eauto.
Qed.

Lemma Parse_infe n sz p itemType :
  length itemType = 4%nat → itemType ≠ bs "mime" → itemType ≠ bs "uri " →
  ∃ ie, Parse (S n) (MkBox sz (bs "infe") p 8 (infeBody itemType) EOF) = Some (Ok (ItemInfoE ie)) ∧
    ie_ItemID ie = 1 ∧ ItemType ie = itemType.
Proof.
  intros Hl Hm Hu. cbn [Parse].
  change (findParser _ _) with (Some parseItemInfoEntry). cbn [boxType body].
  unfold parseItemInfoEntry. set (b := MkBox _ _ _ _ _ _).
  change (infeBody itemType) with ([x02; x00; x00; x00] ++ [x00; x01] ++ [x00; x00] ++ itemType ++ [x00]).
  set (rest := itemType ++ [x00]).
  erewrite (pbind_run (readFullBox b)); [|reflexivity]. cbn [Version].
  change (negb (_ =? 2)) with false. cbn iota.
  erewrite pbind_run; [|apply soft_run, (readUint_run [x00; x01])].
  erewrite pbind_run; [|apply soft_run, (readUint_run [x00; x00])].
  erewrite pbind_run; [|reflexivity].
  assert (Peek 4 (BufReader rest None EOF) = Some (Ok itemType, BufReader rest None EOF)) as Hp.
  { rewrite <-Hl. apply Peek_run. }
  erewrite pbind_run; [|exact Hp].
  destruct (readString_run itemType) as (x&rest'&Hs).
  erewrite pbind_run; [|apply soft_run; exact Hs].
  rewrite !decide_False by done. eexists. split; [reflexivity|]. by split.
Qed.

(** An "iinf" box of one entry. *)
Lemma Parse_iinf n sz p itemType :
  length itemType = 4%nat → itemType ≠ bs "mime" → itemType ≠ bs "uri " →
  ∃ ii ie, Parse (S (S n)) (MkBox sz (bs "iinf") p 8 (iinfBody itemType) EOF) = Some (Ok (ItemInfo ii)) ∧
    ItemInfos ii = [ie] ∧ ie_ItemID ie = 1 ∧ ItemType ie = itemType.
Proof.
  intros Hl Hm Hu. cbn [Parse].
  change (findParser _ _) with (Some (parseItemInfoBox (Parse (S n)))). cbn [boxType body].
  unfold parseItemInfoBox. set (b := MkBox _ _ _ _ _ _).
  change (iinfBody itemType) with ([x00; x00; x00; x00] ++ [x00; x01] ++ encodeBox (bs "infe") (infeBody itemType)).
  erewrite (pbind_run (readFullBox b)); [|reflexivity].
  erewrite pbind_run; [|apply soft_run, (readUint_run [x00; x01])].
  assert (encodable (bs "infe", infeBody itemType)) as He.
  { split; [done|]. cbn [snd]. unfold infeBody. rewrite !length_app, Hl. done. }
  erewrite pbind_run; [|apply soft_run; rewrite <-(app_nil_r (encodeBox _ _));
    apply (parseAppendBoxes_encode [(bs "infe", infeBody itemType)]); by constructor].
  erewrite pbind_run; [|reflexivity]. cbn [br_err bool_decide decide_rel].
  destruct (Parse_infe n (8 + zlen (infeBody itemType)) 0 itemType Hl Hm Hu) as (ie&Hie&Hid&Hty).
  erewrite pbind_run; [|unfold lift; cbn [boxesAt parseEntries]; rewrite Hie; reflexivity].
  eexists _, ie. split; [reflexivity|]. done.
Qed.

Lemma readUintN_put32 v rest :
  readUintN 32 (BufReader (bePut 4 v ++ rest) None EOF) = Some (Ok (v mod 2 ^ 32), BufReader rest None EOF).
Proof.
  unfold readUintN, guard, recording. cbn [br_err]. change (32 =? 0) with false. cbn iota.
  change (Z.to_nat (32 / 8)) with 4%nat. cbn zeta. unfold pbind at 1.
  rewrite <-(length_bePut 4 v) at 1. rewrite Peek_run. unfold pbind.
  rewrite <-(length_bePut 4 v) at 1. rewrite Discard_run.
  change ((32 =? 8) || (32 =? 16) || (32 =? 32) || (32 =? 64)) with true. cbn iota. unfold pret.
  by rewrite beUint_bePut.
Qed.

Lemma Parse_iloc n sz p off len :
  ∃ il, Parse (S n) (MkBox sz (bs "iloc") p 8 (ilocBody off len) EOF) = Some (Ok (ItemLocation il)) ∧
    il_Items il = [MkLocationEntry 1 0 0 0 1 [MkOffsetLength (off mod 2 ^ 32) (len mod 2 ^ 32)]].
Proof.
  cbn [Parse]. change (findParser _ _) with (Some parseItemLocationBox). cbn [boxType body].
  unfold parseItemLocationBox. set (b := MkBox _ _ _ _ _ _).
  change (ilocBody off len) with ([x00; x00; x00; x00] ++ [x44; x00; x00; x01] ++ [x00; x01] ++ [x00; x00] ++
    [x00; x01] ++ bePut 4 off ++ bePut 4 len).
  set (ext := bePut 4 off ++ bePut 4 len).
  erewrite (pbind_run (readFullBox b)); [|reflexivity].
  erewrite pbind_run; [|apply (Peek_run [x44; x00; x00; x01])].
  set (fb := MkFullBox _ _ _). cbn zeta. change (Version fb) with 0. change (0 <? 0) with false. cbn iota.
  erewrite pbind_run; [|reflexivity].
  change (drop 2 _) with ([x00; x01] ++ [x00; x01] ++ [x00; x00] ++ [x00; x01] ++ ext).
  change (0 <? 2) with true. cbn iota.
  erewrite pbind_run; [|apply soft_run, (readUint_run [x00; x01])].
  change (beUint [x00; x01]) with 1. cbn [take drop]. change (beUint [x44]) with 68. change (beUint [x00]) with 0.
  change (Z.shiftr 68 4) with 4. change (Z.land 68 15) with 4. change (Z.shiftr 0 4) with 0.
  set (loc := readLocation fb 4 4 0 0).
  assert (loc (BufReader ([x00; x01] ++ [x00; x00] ++ [x00; x01] ++ ext) None EOF) =
    Some (Ok (MkLocationEntry 1 0 0 0 1 [MkOffsetLength (off mod 2 ^ 32) (len mod 2 ^ 32)]), BufReader [] None EOF)) as Hloc.
  { unfold loc, readLocation. change (Version fb) with 0. change (0 <? 2) with true. change (0 <? 0) with false. cbn iota.
    erewrite pbind_run; [|apply soft_run, (readUint_run [x00; x01])].
    erewrite pbind_run; [|reflexivity].
    erewrite pbind_run; [|apply soft_run, (readUint_run [x00; x00])].
    erewrite pbind_run; [|apply soft_run; reflexivity].
    erewrite pbind_run; [|apply soft_run, (readUint_run [x00; x01])].
    change (beUint [x00; x01]) with 1. change (beUint [x00; x00]) with 0. change (Z.to_nat 1) with 1%nat.
    assert (readExtent fb 4 4 0 (BufReader ext None EOF)
            = Some (Ok (MkOffsetLength (off mod 2 ^ 32) (len mod 2 ^ 32)), BufReader [] None EOF)) as Hext.
    { unfold readExtent. change (Version fb) with 0. change (0 <? 0) with false. cbn iota.
      change (u8 (4 * 8)) with 32.
      erewrite pbind_run; [|reflexivity].
      erewrite pbind_run; [|apply soft_run, readUintN_put32].
      erewrite pbind_run; [|apply soft_run; rewrite <-(app_nil_r (bePut 4 len)); apply readUintN_put32].
      done. }
    erewrite pbind_run; [reflexivity|]. cbn [repeatOk br_err]. change (1 <=? 0) with false. cbn iota.
    erewrite pbind_run; [|exact Hext]. done. }
  erewrite pbind_run.
  2:{ unfold repeatBytes. cbn [repeatOk br_err]. change (1 <=? 0) with false. cbn iota.
      erewrite pbind_run; [|exact Hloc]. erewrite pbind_run; [reflexivity|].
      cbn [br_rest]. rewrite !length_app. simpl. reflexivity. }
  eexists. split; [reflexivity|done].
Qed.

(** *** Properties and their associations *)

Definition propBox (p : Property) : list byte * list byte := (take 4 (drop 4 (p_Box p)), drop 8 (p_Box p)).

Definition propOk (p : Property) : Prop := 8 ≤ zlen (p_Box p) ∧ beUint (take 4 (p_Box p)) = u32 (zlen (p_Box p)).

Definition assocByte (i : Z) (p : Property) : byte :=
  z2b (if p_Essential p then Z.lor (u8 (i + 1)) 128 else u8 (i + 1)).

Fixpoint assocBytes (i : Z) (props : list Property) : list byte :=
  match props with [] => [] | p :: props => assocByte i p :: assocBytes (i + 1) props end.

Fixpoint assocItems (i : Z) (props : list Property) : list ItemProperty :=
  match props with [] => [] | p :: props => MkItemProperty (p_Essential p) (i + 1) :: assocItems (i + 1) props end.

Lemma encodeProps_Ok i props ipco ipma ipco' ipma' :
  encodeProps i props ipco ipma = Ok (ipco', ipma') →
  Forall propOk props ∧ ipco' = ipco ++ concat (p_Box <$> props) ∧ ipma' = ipma ++ assocBytes i props.
Proof.
  revert i ipco ipma. induction props as [|p props IH]; intros i ipco ipma; simpl.
  { intros [= <- <-]. by rewrite !app_nil_r. }
  destruct (Z.ltb_spec (zlen (p_Box p)) 8); [done|]. destruct (Z.eqb_spec (beUint (take 4 (p_Box p))) (u32 (zlen (p_Box p)))); [|done].
  simpl. intros (Hp&->&->)%IH. rewrite <-!app_assoc. split_and!; [by constructor|done|done].
Qed.

Lemma propOk_encode p : propOk p → zlen (p_Box p) < 2 ^ 32 →
  p_Box p = encodeBox (propBox p).1 (propBox p).2 ∧ encodable (propBox p).
Proof.
  intros [Hl Hs] Hlt. unfold propBox, encodeBox, encodable. cbn [fst snd].
  rewrite wrapU_small in Hs by lia. rewrite length_take, !length_drop.
  assert (length (take 4 (p_Box p)) = 4%nat) as Ht by (rewrite length_take; lia).
  split; [|lia]. replace (8 + Z.of_nat (length (p_Box p) - 8)) with (beUint (take 4 (p_Box p))) by lia.
  rewrite <-Ht at 1. rewrite bePut_beUint.
  rewrite <-(take_drop 4 (p_Box p)) at 1. f_equal.
  by rewrite <-(take_drop 4 (drop 4 (p_Box p))) at 1; rewrite drop_drop.
Qed.

Lemma props_encode props :
  Forall propOk props → zlen (concat (p_Box <$> props)) < 2 ^ 32 →
  concat (p_Box <$> props) = encodeBoxes (propBox <$> props) ∧ Forall encodable (propBox <$> props).
Proof.
  induction 1 as [|p props Hp Hps IH]; intros Hl; [done|].
  rewrite !fmap_cons in *. simpl in Hl. rewrite length_app in Hl.
  destruct (propOk_encode p Hp) as [E He]; [lia|]. destruct IH as [E' He']; [lia|].
  split; [|by constructor]. change (encodeBoxes (propBox p :: (propBox <$> props)))
    with (encodeBox (propBox p).1 (propBox p).2 ++ encodeBoxes (propBox <$> props)).
  by rewrite <-E, <-E'.
Qed.

(** The value and the essential bit of a one-byte association. *)
Lemma assoc_bits k : 0 < k ≤ 127 →
  (Z.land (b2z (z2b k)) 128 = 0 ∧ Z.ldiff (b2z (z2b k)) 128 = k) ∧
  (Z.land (b2z (z2b (Z.lor k 128))) 128 ≠ 0 ∧ Z.ldiff (b2z (z2b (Z.lor k 128))) 128 = k).
Proof.
  intros Hk.
  assert (Forall (λ k, (Z.land (b2z (z2b k)) 128 = 0 ∧ Z.ldiff (b2z (z2b k)) 128 = k) ∧
    (Z.land (b2z (z2b (Z.lor k 128))) 128 ≠ 0 ∧ Z.ldiff (b2z (z2b (Z.lor k 128))) 128 = k)) (seqZ 1 127)) as Hall.
  { apply (bool_decide_unpack _). vm_compute. exact I. }
  rewrite Forall_forall in Hall. apply Hall, elem_of_seqZ. lia.
Qed.

Lemma readAssociation_run i p rest :
  0 ≤ i < 127 →
  readAssociation 0 (BufReader (assocByte i p :: rest) None EOF)
  = Some (Ok (MkItemProperty (p_Essential p) (i + 1)), BufReader rest None EOF).
Proof.
  intros Hi. unfold readAssociation. erewrite pbind_run; [|apply soft_run, (readUint_run [assocByte i p])].
  cbn zeta. change (negb (Z.land 0 1 =? 0)) with false. cbn iota. unfold pret. do 4 f_equal.
  - change (beUint [assocByte i p]) with (b2z (assocByte i p)). change (Z.shiftl 1 7) with 128.
    unfold assocByte. rewrite wrapU_small by (change (2 ^ 8) with 256; lia).
    destruct (assoc_bits (i + 1) ltac:(lia)) as [[H1 _] [H2 _]].
    destruct (p_Essential p); [apply Z.eqb_neq in H2; by rewrite H2|by rewrite H1].
  - change (beUint [assocByte i p]) with (b2z (assocByte i p)). change (Z.shiftl 1 7) with 128.
    unfold assocByte. rewrite wrapU_small by (change (2 ^ 8) with 256; lia).
    destruct (assoc_bits (i + 1) ltac:(lia)) as [[_ H1] [_ H2]]. by destruct (p_Essential p).
Qed.

Lemma readAssociations_run i props :
  0 ≤ i → i + zlen props ≤ 127 →
  repeatOk (length props) (zlen props) (readAssociation 0) (BufReader (assocBytes i props) None EOF)
  = Some (Ok (assocItems i props), BufReader [] None EOF).
Proof.
  revert i. induction props as [|p props IH]; intros i Hi Hl; [done|].
  cbn [length repeatOk br_err assocBytes]. destruct (Z.leb_spec (Z.of_nat (S (length props))) 0); [lia|].
  simpl in Hl. erewrite pbind_run; [|apply readAssociation_run; lia].
  replace (Z.of_nat (S (length props)) - 1) with (zlen props) by lia.
  erewrite pbind_run; [|apply IH; lia]. done.
Qed.

Lemma length_assocBytes i props : length (assocBytes i props) = length props.
Proof. revert i. induction props as [|p props IH]; intros i; simpl; [done|]. by rewrite IH. Qed.

Lemma Parse_ipma n sz p props :
  zlen props ≤ 127 →
  ∃ ipa, Parse (S n) (MkBox sz (bs "ipma") p 8 (assocBody (assocBytes 0 props)) EOF) = Some (Ok (Association ipa)) ∧
    Entries ipa = [MkAssociationItem 1 (zlen props) (assocItems 0 props)].
Proof.
  intros Hl. cbn [Parse]. change (findParser _ _) with (Some parseItemPropertyAssociation). cbn [boxType body].
  unfold parseItemPropertyAssociation. set (b := MkBox _ _ _ _ _ _). unfold assocBody.
  rewrite length_assocBytes. set (c := z2b (zlen props)). set (rest := assocBytes 0 props).
  assert (b2z c = zlen props) as Hc by (unfold c; rewrite b2z_z2b, Z.mod_small; lia).
  change (zeros 4 ++ bePut 4 1 ++ bePut 2 1 ++ [c] ++ rest) with
    ([x00; x00; x00; x00] ++ [x00; x00; x00; x01] ++ [x00; x01] ++ [c] ++ rest).
  erewrite (pbind_run (readFullBox b)); [|reflexivity].
  set (fb := MkFullBox _ _ _).
  erewrite pbind_run; [|apply soft_run, (readUint_run [x00; x00; x00; x01])].
  change (beUint [x00; x00; x00; x01]) with 1.
  assert (readAssociationItem fb (BufReader ([x00; x01] ++ [c] ++ rest) None EOF) =
    Some (Ok (MkAssociationItem 1 (zlen props) (assocItems 0 props)), BufReader [] None EOF)) as Hitem.
  { unfold readAssociationItem. change (Version fb) with 0. change (Flags fb) with 0. change (0 <? 1) with true. cbn iota.
    erewrite pbind_run; [|apply soft_run, (readUint_run [x00; x01])].
    erewrite pbind_run; [|apply soft_run, (readUint_run [c])].
    change (beUint [c]) with (b2z c). rewrite Hc, Nat2Z.id.
    erewrite pbind_run; [|apply readAssociations_run; lia]. done. }
  erewrite pbind_run.
  2:{ unfold repeatBytes. cbn [repeatOk br_err]. change (1 <=? 0) with false. cbn iota.
      erewrite pbind_run; [|exact Hitem]. erewrite pbind_run; [reflexivity|].
      cbn [br_rest]. rewrite !length_app. simpl. reflexivity. }
  eexists. split; [reflexivity|done].
Qed.

Lemma Parse_ipco n sz p l :
  Forall encodable l →
  ∃ ipc, Parse (S n) (MkBox sz (bs "ipco") p 8 (encodeBoxes l) EOF) = Some (Ok (Container ipc)) ∧
    Properties ipc = boxesAt 0 l.
Proof.
  intros Hl. cbn [Parse]. change (findParser _ _) with (Some parseItemPropertyContainerBox). cbn [boxType body].
  unfold parseItemPropertyContainerBox. erewrite pbind_run; [|by apply parseAppendBoxes_encode].
  eexists. split; [reflexivity|done].
Qed.

Lemma encodable_all l :
  Forall (λ p, length p.1 = 4%nat) l → zlen (encodeBoxes l) < 2 ^ 32 → Forall encodable l.
Proof.
  induction 1 as [|[t b] l Ht Hl IH]; intros Hlen; [done|].
  change (encodeBoxes ((t, b) :: l)) with (encodeBox t b ++ encodeBoxes l) in Hlen.
  rewrite length_app, length_encodeBox in Hlen. simpl in Ht.
  constructor; [split; [done|cbn [snd]; lia]|apply IH; lia].
Qed.

Lemma Parse_iprp n sz p props l :
  zlen props ≤ 127 → Forall encodable l →
  zlen (iprpBody (encodeBoxes l) (assocBytes 0 props)) < 2 ^ 32 →
  ∃ ip ipa, Parse (S (S n)) (MkBox sz (bs "iprp") p 8 (iprpBody (encodeBoxes l) (assocBytes 0 props)) EOF)
            = Some (Ok (ItemProperties ip)) ∧
    Properties (PropertyContainer ip) = boxesAt 0 l ∧ Associations ip = [ipa] ∧
    Entries ipa = [MkAssociationItem 1 (zlen props) (assocItems 0 props)].
Proof.
  intros Hp Hl Hlen. cbn [Parse]. change (findParser _ _) with (Some (parseItemPropertiesBox (Parse (S n)))).
  cbn [boxType body]. unfold parseItemPropertiesBox. set (b := MkBox _ _ _ _ _ _).
  set (ab := assocBody (assocBytes 0 props)).
  assert (iprpBody (encodeBoxes l) (assocBytes 0 props)
          = encodeBoxes [(bs "ipco", encodeBoxes l); (bs "ipma", ab)]) as Hb.
  { unfold iprpBody, appendBox, encodeBoxes, encodeBox. cbn [fmap list_fmap concat fst snd app].
    by rewrite app_nil_r, <-!app_assoc. }
  rewrite Hb in Hlen |- *.
  erewrite pbind_run; [|apply parseAppendBoxes_encode].
  2:{ apply encodable_all; [by repeat constructor|done]. }
  cbn [boxesAt]. destruct (Parse_ipco n (8 + zlen (encodeBoxes l)) 0 l Hl) as (ipc&Hipc&Hprops).
  erewrite pbind_run; [|unfold orFail, lift; rewrite Hipc; reflexivity].
  edestruct (Parse_ipma n) as (ipa&Hipa&Hent); [exact Hp|].
  erewrite pbind_run; [|unfold lift; cbn [parseAssociations]; rewrite Hipa; reflexivity].
  eexists _, ipa. split; [reflexivity|done].
Qed.

(** ** The metadata of an encoded image *)

Section encoded.
Context (brand itemType : list byte) (props : list Property) (data : list byte) (off : Z).
Context (Hbrand : length brand = 4%nat) (Htype : length itemType = 4%nat).
Context (Hmime : itemType ≠ bs "mime") (Huri : itemType ≠ bs "uri ").
Context (Hnum : zlen props ≤ 127) (Hprops : Forall propOk props).

Let ipco := concat (p_Box <$> props).
Let ipma := assocBytes 0 props.

Definition metaChildren : list (list byte * list byte) :=
  [(bs "hdlr", hdlrBody); (bs "pitm", pitmBody); (bs "iinf", iinfBody itemType);
   (bs "iloc", ilocBody off (zlen data)); (bs "iprp", iprpBody ipco ipma)].

Context (Hmeta : zlen (buildMeta itemType ipco ipma (zlen data) off) < 2 ^ 32).

Lemma buildMeta_boxes :
  buildMeta itemType ipco ipma (zlen data) off = encodeBox (bs "meta") (zeros 4 ++ encodeBoxes metaChildren).
Proof.
  unfold buildMeta, metaChildren, encodeBoxes. cbn [fmap list_fmap concat fst snd].
  unfold appendBox, encodeBox. cbn [app]. by rewrite app_nil_r, <-!app_assoc.
Qed.

Lemma metaChildren_encodable : Forall encodable metaChildren.
Proof.
  apply encodable_all; [by repeat constructor|].
  rewrite buildMeta_boxes, length_encodeBox, length_app in Hmeta. lia.
Qed.

Lemma ipco_small : zlen ipco < 2 ^ 32 ∧ zlen (iprpBody ipco ipma) < 2 ^ 32.
Proof.
  pose proof metaChildren_encodable as H. unfold metaChildren in H.
  do 4 apply Forall_cons in H as [_ H]. apply Forall_cons in H as [[_ H] _]. cbn [snd] in H.
  split; [|lia]. unfold iprpBody, appendBox in H. rewrite !length_app in H. lia.
Qed.

Lemma Parse_meta n sz p :
  ∃ mb, Parse (S n) (MkBox sz (bs "meta") p 8 (zeros 4 ++ encodeBoxes metaChildren) EOF) = Some (Ok (Meta mb)) ∧
    mb_Children mb = boxesAt 0 metaChildren.
Proof.
  cbn [Parse]. change (findParser _ _) with (Some parseMetaBox). cbn [boxType body].
  set (b := MkBox _ _ _ _ _ _). set (br := BufReader _ _ _).
  assert (∃ x, br = BufReader ([x00; x00; x00; x00; x00; x00; x00; x21] ++ x) None EOF) as [x Hx].
  { eexists. reflexivity. }
  assert (∃ mb, (fb ←p readFullBox b; l ←p parseAppendBoxes; pret (Meta (MkMeta fb false l))) br
    = Some (Ok (Meta mb), BufReader [] None EOF) ∧ mb_Children mb = boxesAt 0 metaChildren) as (mb&Hmb&Hc).
  { unfold br. erewrite (pbind_run (readFullBox b)); [|reflexivity].
    erewrite pbind_run; [|apply parseAppendBoxes_encode, metaChildren_encodable].
    eexists. split; [reflexivity|done]. }
  exists mb. split; [|done]. unfold parseMetaBox.
  assert (Peek 8 br = Some (Ok [x00; x00; x00; x00; x00; x00; x00; x21], br)) as -> by (rewrite Hx; reflexivity).
  rewrite decide_False by done. by rewrite Hmb.
Qed.

Lemma parseChildren_encoded m :
  ∃ hb pb ii ie ip ipa il,
    parseChildren (boxesAt 0 metaChildren) m
    = ret (MkBoxMeta (bm_FileType m) (Some hb) (Some pb) (Some ii) (Some ip) (Some il) (bm_ItemReference m)) ∧
    pib_ItemID pb = 1 ∧ ItemInfos ii = [ie] ∧ ie_ItemID ie = 1 ∧ ItemType ie = itemType ∧
    Properties (PropertyContainer ip) = boxesAt 0 (propBox <$> props) ∧ Associations ip = [ipa] ∧
    Entries ipa = [MkAssociationItem 1 (zlen props) (assocItems 0 props)] ∧
    il_Items il = [MkLocationEntry 1 0 0 0 1 [MkOffsetLength (off mod 2 ^ 32) (zlen data mod 2 ^ 32)]].
Proof.
  destruct ipco_small as [Hsmall Hsmall'].
  destruct (props_encode props Hprops Hsmall) as [Henc Hall].
  unfold metaChildren. cbn [boxesAt parseChildren].
  unfold ParseBox. cbn [body].
  edestruct Parse_hdlr as (hb&->&_). edestruct Parse_pitm as (pb&->&Hpb).
  assert (∃ n, length (iinfBody itemType) = S n) as [n ->].
  { unfold iinfBody, appendBox. rewrite !length_app. by eexists. }
  edestruct (Parse_iinf n) as (ii&ie&->&Hii&Hid&Hty); [done..|].
  edestruct Parse_iloc as (il&->&Hil).
  assert (∃ n, length (iprpBody ipco ipma) = S n) as [n' ->].
  { unfold iprpBody, appendBox. rewrite !length_app. by eexists. }
  unfold ipco, ipma in *. rewrite Henc in Hsmall' |- *.
  edestruct (Parse_iprp n') as (ip&ipa&->&Hp1&Hp2&Hp3); [done..|].
  destruct m as [ft hd pi ii0 pr il0 ir]. cbn [setChild].
  exists hb, pb, ii, ie, ip, ipa, il. split; [reflexivity|]. done.
Qed.
End encoded.
