(* ===== verification/HeifMain.v ===== *)
(** * media/heif: the properties of bmff and heif

    Parsing never gets stuck, boxes are where they say they are, and an
    encoded image reads back. *)
From S2P Require Import Prelude.
From S2P Require Import GoIO.
From S2P Require Import Bmff.
From S2P Require Import BmffLaws.
From S2P Require Import BmffTypes.
From S2P Require Import Heif.
From S2P Require Import HeifLaws.

(** ** Reading an encoded image back *)

Lemma EncodeImage_Ok brand itemType props data file :
  EncodeImage brand itemType props data = Ok file →
  length brand = 4%nat ∧ length itemType = 4%nat ∧ zlen props ≤ 127 ∧ Forall propOk props ∧
  let ipco := concat (p_Box <$> props) in
  let ipma := assocBytes 0 props in
  let dataOff := 32 + zlen (buildMeta itemType ipco ipma (zlen data) 0) in
  dataOff + zlen data < 2 ^ 32 ∧
  file = encodeBox (bs "ftyp") (ftypBody brand) ++ buildMeta itemType ipco ipma (zlen data) dataOff
         ++ encodeBox (bs "mdat") data.
Proof.
  unfold EncodeImage. destruct (Z.eqb_spec (zlen brand) 4); [|done]. destruct (Z.eqb_spec (zlen itemType) 4); [|done].
  cbn [negb orb]. destruct (Z.ltb_spec 127 (zlen props)); [done|].
  destruct (encodeProps 0 props [] []) as [[ipco ipma]|] eqn:E; [|done].
  apply encodeProps_Ok in E as (Hp&->&->). cbn [app].
  assert (zlen (appendBox [] (bs "ftyp") (ftypBody brand)) = 24) as ->.
  { unfold appendBox, ftypBody. rewrite !length_app, length_bePut. simpl. lia. }
  set (m := zlen (buildMeta _ _ _ _ 0)). replace (24 + m + 8) with (32 + m) by lia.
  destruct (Z.ltb_spec (2 ^ 32 - 1) (32 + m + zlen data)); [done|].
  intros [= <-]. cbn zeta. split_and!; try (done || lia).
  unfold appendBox, encodeBox. cbn [app]. by rewrite <-!app_assoc.
Qed.

Lemma length_buildMeta itemType ipco ipma n o1 o2 :
  length (buildMeta itemType ipco ipma n o1) = length (buildMeta itemType ipco ipma n o2).
Proof. unfold buildMeta, appendBox, ilocBody. rewrite !length_app, !length_bePut. simpl. lia. Qed.


Lemma ReadAndParseBox_encode typ body rest p pb :
  length typ = 4%nat → 8 + zlen body < 2 ^ 32 →
  ParseBox (MkBox (8 + zlen body) typ p 8 body EOF) = Some (Ok pb) →
  ReadAndParseBox (MkReader (encodeBox typ body ++ rest) EOF p false) typ
  = Some (Ok (pb, MkReader rest EOF (i64 (p + (8 + zlen body))) false)).
Proof.
  intros Ht Hb Hp. unfold ReadAndParseBox. rewrite ReadBox_encode by done. cbn [boxType].
  rewrite decide_True by done. by rewrite Hp.
Qed.

Section image.
Context (brand itemType : list byte) (props : list Property) (data file : list byte).
Context (Henc : EncodeImage brand itemType props data = Ok file).
Context (Hmime : itemType ≠ bs "mime") (Huri : itemType ≠ bs "uri ").

Definition dataOffset : Z := zlen file - zlen data.

(** The metadata read from the file. *)
Definition encodedMeta (m : BoxMeta) : Prop :=
  ∃ ft pb ii ie ip ipa il,
    bm_FileType m = Some ft ∧ MajorBrand ft = brand ∧
    bm_PrimaryItem m = Some pb ∧ pib_ItemID pb = 1 ∧
    bm_ItemInfo m = Some ii ∧ ItemInfos ii = [ie] ∧ ie_ItemID ie = 1 ∧ ItemType ie = itemType ∧
    bm_Properties m = Some ip ∧ Properties (PropertyContainer ip) = boxesAt 0 (propBox <$> props) ∧
    Associations ip = [ipa] ∧ Entries ipa = [MkAssociationItem 1 (zlen props) (assocItems 0 props)] ∧
    bm_ItemLocation m = Some il ∧
    il_Items il = [MkLocationEntry 1 0 0 0 1 [MkOffsetLength dataOffset (zlen data)]].

Lemma file_layout :
  let m := buildMeta itemType (concat (p_Box <$> props)) (assocBytes 0 props) (zlen data) dataOffset in
  length brand = 4%nat ∧ length itemType = 4%nat ∧ zlen props ≤ 127 ∧ Forall propOk props ∧
  0 ≤ dataOffset ∧ zlen file < 2 ^ 32 ∧ zlen m < 2 ^ 32 ∧
  file = encodeBox (bs "ftyp") (ftypBody brand) ++ m ++ encodeBox (bs "mdat") data.
Proof.
  destruct (EncodeImage_Ok _ _ _ _ _ Henc) as (Hb&Ht&Hn&Hp&Hlt&Hf). cbv zeta in Hlt, Hf.
  set (m0 := buildMeta _ _ _ _ 0) in *.
  assert (zlen file = 32 + zlen m0 + zlen data) as Hl.
  { rewrite Hf, !length_app, !length_encodeBox, (length_buildMeta _ _ _ _ (32 + zlen m0) 0).
    fold m0. unfold ftypBody. rewrite !length_app, Hb. change (length (bs "ftyp")) with 4%nat.
    change (length (bs "mdat")) with 4%nat. change (length (bs "mif1")) with 4%nat.
    change (length (zeros 4)) with 4%nat. lia. }
  assert (dataOffset = 32 + zlen m0) as Hd by (unfold dataOffset; lia).
  cbv zeta. rewrite Hd, (length_buildMeta _ _ _ _ (32 + zlen m0) 0). fold m0.
  split_and!; (done || lia).
Qed.

Lemma readMeta_encoded : ∃ m, readMeta (Open file) = Some (Ok m) ∧ encodedMeta m.
Proof.
  destruct file_layout as (Hb&Ht&Hn&Hp&Hd&Hl&Hm&Hf). cbv zeta in Hm, Hf. unfold readMeta.
  assert (section (Open file) = NewReader file) as ->.
  { unfold section, assumedMaxSize. cbn [Open OpenOf ra raEnd]. destruct (Z.leb_spec (zlen file) (5 * 2 ^ 40)); [done|lia]. }
  rewrite Hf. unfold NewReader, NewReaderOf.
  destruct (Parse_ftyp (length (ftypBody brand)) (8 + zlen (ftypBody brand)) 0 brand Hb) as (ft&Hft&Hbr).
  erewrite ReadAndParseBox_encode; [|done| |exact Hft].
  2:{ unfold ftypBody. rewrite !length_app, Hb. simpl. lia. }
  cbn [andThen].
  pose proof (buildMeta_boxes itemType props data dataOffset) as Hbox. cbv zeta in Hbox. rewrite Hbox.
  set (mbody := zeros 4 ++ _) in *.
  destruct (Parse_meta brand itemType props data dataOffset Hb Ht Hm (length mbody) (8 + zlen mbody)
    (i64 (0 + (8 + zlen (ftypBody brand))))) as (mb&Hmb&Hch).
  erewrite ReadAndParseBox_encode; [|done| |exact Hmb].
  2:{ rewrite Hbox, length_encodeBox in Hm. fold mbody in Hm. change (length (bs "meta")) with 4%nat in Hm. lia. }
  cbn [andThen]. rewrite Hch.
  destruct (parseChildren_encoded brand itemType props data dataOffset Hb Ht Hmime Huri Hn Hp Hm
    (MkBoxMeta (Some ft) None None None None None None)) as (hb&pb&ii&ie&ip&ipa&il&->&?&?&?&?&?&?&?&Hil).
  eexists. split; [reflexivity|]. exists ft, pb, ii, ie, ip, ipa, il. cbn.
  rewrite !Z.mod_small in Hil by (unfold dataOffset in *; lia). done.
Qed.

Lemma boxesAt_lookup p l i q :
  l !! i = Some q → ∃ off, boxesAt p l !! i = Some (MkBox (8 + zlen q.2) q.1 off 8 q.2 EOF).
Proof.
  revert p i. induction l as [|[t b] l IH]; intros p [|i] H; [done..| |by apply IH].
  injection H as <-. by eexists.
Qed.

Lemma length_boxesAt p l : length (boxesAt p l) = length l.
Proof. revert p. induction l as [|[t b] l IH]; intros p; simpl; [done|]. by rewrite IH. Qed.

Lemma assocItems_range i (ps : list Property) ass :
  0 ≤ i → ass ∈ assocItems i ps → i + 1 ≤ Index ass ≤ i + zlen ps.
Proof.
  revert i. induction ps as [|p ps IH]; intros i Hi; simpl; [by intros ?%not_elem_of_nil|].
  intros [->|H]%elem_of_cons; simpl; [lia|]. apply IH in H; lia.
Qed.

Lemma prop_lookup (all : list Property) i p :
  all !! i = Some p → ∃ off, zidx (boxesAt 0 (propBox <$> all)) (Z.of_nat i) =
    Some (MkBox (8 + zlen (propBox p).2) (propBox p).1 off 8 (propBox p).2 EOF).
Proof.
  intros H. destruct (boxesAt_lookup 0 (propBox <$> all) i (propBox p)) as [off Ho].
  { by rewrite list_lookup_fmap, H. }
  exists off. unfold zidx. destruct (Z.ltb_spec (Z.of_nat i) 0); [lia|]. by rewrite Nat2Z.id.
Qed.

Lemma itemProperties_encoded (pre ps : list Property) :
  is_Some (itemProperties (boxesAt 0 (propBox <$> pre ++ ps)) (assocItems (zlen pre) ps)).
Proof.
  revert pre. induction ps as [|p ps IH]; intros pre; [by eexists|]. cbn [assocItems itemProperties Index].
  destruct (prop_lookup (pre ++ p :: ps) (length pre) p) as [off Ho]; [by apply list_lookup_middle|].
  replace (zlen pre + 1 - 1) with (zlen pre) by lia. rewrite Ho. cbn [mbind option_bind].
  unfold ParseBox. edestruct Parse_total as [r ->]; [apply Nat.lt_succ_diag_r|]. cbn [mbind option_bind].
  specialize (IH (pre ++ [p])). rewrite <-app_assoc, length_app in IH. simpl in IH.
  replace (Z.of_nat (length pre + 1)) with (zlen pre + 1) in IH by lia.
  destruct IH as [l ->]. by eexists.
Qed.

Lemma copyProps_encoded (pre ps : list Property) :
  Forall propOk ps → Forall (λ p, zlen (p_Box p) < 2 ^ 32) ps →
  copyProps (boxesAt 0 (propBox <$> pre ++ ps)) (assocItems (zlen pre) ps) = Some ps.
Proof.
  revert pre. induction ps as [|p ps IH]; intros pre Hok Hlt; [done|]. cbn [assocItems copyProps Index Essential].
  apply Forall_cons in Hok as [Hp Hok]. apply Forall_cons in Hlt as [Hl Hlt].
  rewrite length_boxesAt, length_fmap, length_app. cbn [length].
  destruct (Z.eqb_spec (zlen pre + 1) 0); [lia|].
  destruct (Z.ltb_spec (Z.of_nat (length pre + S (length ps))) (zlen pre + 1)); [lia|]. cbn [orb].
  destruct (prop_lookup (pre ++ p :: ps) (length pre) p) as [off Ho]; [by apply list_lookup_middle|].
  replace (zlen pre + 1 - 1) with (zlen pre) by lia. rewrite Ho. cbn [mbind option_bind boxType body].
  specialize (IH (pre ++ [p]) Hok Hlt). rewrite <-app_assoc, length_app in IH. simpl in IH.
  replace (Z.of_nat (length pre + 1)) with (zlen pre + 1) in IH by lia. rewrite IH. cbn [mbind option_bind].
  destruct (propOk_encode p Hp Hl) as [E _].
  assert (appendBox [] (propBox p).1 (propBox p).2 = p_Box p) as -> by (symmetry; exact E).
  by destruct p.
Qed.

Lemma props_small : Forall (λ p, zlen (p_Box p) < 2 ^ 32) props.
Proof.
  destruct file_layout as (Hb&Ht&Hn&Hp&Hd&Hl&Hm&Hf). cbv zeta in Hm.
  pose proof (ipco_small brand itemType props data dataOffset Hb Ht Hm) as [Hs _]. clear -Hs.
  induction props as [|p ps IH]; [done|]. rewrite fmap_cons in Hs. simpl in Hs. rewrite length_app in Hs.
  constructor; [lia|apply IH; lia].
Qed.

Lemma associations_encoded m : encodedMeta m →
  propertyAssociations (MkFile file EOF None (Some m)) 1 = assocItems 0 props.
Proof.
  intros (ft&pb&ii&ie&ip&ipa&il&_&_&_&_&_&_&_&_&Hpr&Hprops&Has&Hent&_). unfold propertyAssociations. cbn [meta].
  rewrite Hpr, Has, Hprops. cbn [associationsOf length]. change (0 <? Z.of_nat 0) with false. cbn iota.
  rewrite Hent. cbn [fmap list_fmap ai_ItemID ai_Associations concat]. change (negb (1 =? 1)) with false. cbn iota.
  rewrite app_nil_r, length_boxesAt, length_fmap. cbn [app].
  assert (Forall (λ ass, Index ass ≠ 0 ∧ Index ass ≤ zlen props) (assocItems 0 props)) as Hall.
  { apply Forall_forall. intros ass Hin. apply assocItems_range in Hin; lia. }
  revert Hall. clear. generalize (zlen props) as k. intros k. induction 1 as [|ass l Ha Hall IH]; [done|].
  rewrite filter_cons_True by done. by rewrite IH.
Qed.

Lemma bytesReadAt_data : 0 < zlen data → bytesReadAt file (zlen data) dataOffset = (data, None).
Proof.
  intros Hpos. destruct file_layout as (_&_&_&_&Hd&_&_&Hf). cbv zeta in Hf. unfold bytesReadAt.
  destruct (Z.ltb_spec dataOffset 0), (Z.leb_spec (zlen file) dataOffset); try (unfold dataOffset in *; lia).
  assert (drop (Z.to_nat dataOffset) file = data) as ->.
  { assert (∃ x, encodeBox (bs "mdat") data = x ++ data) as [y Hy].
    { eexists. unfold encodeBox. rewrite app_assoc. reflexivity. }
    rewrite Hy in Hf. assert (∃ x, file = x ++ data) as [x Hx].
    { eexists. rewrite Hf, !app_assoc. reflexivity. }
    unfold dataOffset. rewrite Hx, length_app, Nat2Z.inj_add, Z.add_simpl_r, Nat2Z.id. apply drop_app_length. }
  rewrite Nat2Z.id, firstn_all. by destruct (Z.ltb_spec (zlen data) (zlen data)); [lia|].
Qed.

Lemma ItemByID_encoded m :
  encodedMeta m →
  ∃ it, ItemByID (MkFile file EOF None (Some m)) 1 = Some (Ok (it, MkFile file EOF None (Some m))) ∧
    ID it = 1 ∧ (∃ ie, Info it = Some ie ∧ ItemType ie = itemType) ∧
    Location it = Some (MkLocationEntry 1 0 0 0 1 [MkOffsetLength dataOffset (zlen data)]).
Proof.
  intros Hm. pose proof Hm as (ft&pb&ii&ie&ip&ipa&il&_&_&_&_&Hii&Hies&Hie&Hty&Hpr&Hprops&_&_&Hil&Hitems).
  unfold ItemByID, withMeta, getMeta. cbn [metaErr meta]. rewrite (associations_encoded m Hm).
  rewrite Hii, Hies, Hil, Hitems, Hpr, Hprops. cbn [lastWith foldl le_ItemID]. rewrite Hie.
  change (1 =? 1) with true. cbn iota.
  destruct (itemProperties_encoded [] props) as [l Hl]. cbn [app length] in Hl. change (Z.of_nat 0) with 0 in Hl. rewrite Hl. cbn [orPanic].
  eexists. split; [reflexivity|]. cbn. eauto.
Qed.
End image.

(** ** Association indices are unsigned *)

Definition itemOk (it : ItemPropertyAssociationItem) : Prop := Forall (λ p, 0 ≤ Index p) (ai_Associations it).
Definition ipaOk (ipa : ItemPropertyAssociation) : Prop := Forall itemOk (Entries ipa).
Definition boxOk (b : Box) : Prop :=
  match b with
  | Association ipa => ipaOk ipa
  | ItemProperties ip => Forall ipaOk (Associations ip)
  | _ => True
  end.

Lemma associationTyped_ok a : associationTyped a → ipaOk a.
Proof.
  intros (_&_&Hes&_). eapply Forall_impl; [exact Hes|]. intros it (_&_&Has&_).
  eapply Forall_impl; [exact Has|]. by intros p [? _].
Qed.

Lemma Parse_boxOk fuel b r : Parse fuel b = Some (Ok r) → boxOk r.
Proof.
  intros (_&_&Hw)%Parse_typed. destruct r; try done; cbn in Hw |- *; [|by apply associationTyped_ok].
  destruct Hw as (_&_&Hw). eapply Forall_impl; [exact Hw|]. intros a [_ Ha]. by apply associationTyped_ok.
Qed.

(** ** Accessors never panic *)

Definition metaOk (m : BoxMeta) : Prop :=
  ∀ ip, bm_Properties m = Some ip → Forall ipaOk (Associations ip).

Lemma parseChildren_total l m :
  metaOk m → wp (parseChildren l m) (λ r, match r with Ok m => metaOk m | Err _ => True end).
Proof.
  revert m. induction l as [|b l IH]; intros m Hm; [done|]. cbn [parseChildren].
  unfold ParseBox. edestruct Parse_total as [r Hr]; [apply Nat.lt_succ_diag_r|]. rewrite Hr.
  destruct r as [pb|e].
  - apply Parse_boxOk in Hr. apply IH. destruct m as [ft hd pi ii pr il ir]. destruct pb; try done.
    intros ip [= <-]. done.
  - destruct (decide _); [by apply IH|done].
Qed.

Lemma ParseBox_total b : is_Some (ParseBox b).
Proof. apply Parse_total. lia. Qed.

Lemma Parse_ftyp_type fuel b r : boxType b = bs "ftyp" → Parse fuel b = Some (Ok r) → ∃ v, r = FileType v.
Proof. intros Ht (_&Hr&_)%Parse_typed. rewrite Ht in Hr. destruct r; try done. by eexists. Qed.

Lemma Parse_meta_type fuel b r : boxType b = bs "meta" → Parse fuel b = Some (Ok r) → ∃ v, r = Meta v.
Proof. intros Ht (_&Hr&_)%Parse_typed. rewrite Ht in Hr. destruct r; try done. by eexists. Qed.

Lemma ReadAndParseBox_total r typ :
  wp (ReadAndParseBox r typ) (λ x, match x with
    | Ok (pb, _) => ∃ fuel b, boxType b = typ ∧ Parse fuel b = Some (Ok pb) | Err _ => True end).
Proof.
  unfold ReadAndParseBox. destruct (ReadBox r) as [[b r']|]; [|done]. destruct (decide _) as [Ht|]; [|done].
  destruct (ParseBox_total b) as [[pb|e] Hp]; rewrite Hp; simpl; [|done]. by exists (S (length (body b))), b.
Qed.

Lemma readMeta_total c : wp (readMeta c) (λ r, match r with Ok m => metaOk m | Err _ => True end).
Proof.
  unfold readMeta. apply wp_andThen. eapply wp_mono; [apply ReadAndParseBox_total|].
  intros [[pb bmr]|e] H1; [|done]. destruct H1 as (fuel&b&Ht&Hp).
  destruct (Parse_ftyp_type _ _ _ Ht Hp) as [ft ->].
  apply wp_andThen. eapply wp_mono; [apply ReadAndParseBox_total|].
  intros [[pb2 bmr2]|e] H2; [|done]. destruct H2 as (fuel2&b2&Ht2&Hp2).
  destruct (Parse_meta_type _ _ _ Ht2 Hp2) as [mb ->]. by apply parseChildren_total.
Qed.

(** The state of a [File] that [Open] and the accessors produce. *)
Definition fileOk (f : File) : Prop := ∀ m, meta f = Some m → metaOk m.

Lemma getMeta_total f :
  fileOk f → wp (getMeta f) (λ '(r, f'), fileOk f' ∧ ra f' = ra f ∧
    match r with Ok m => meta f' = Some m | Err _ => True end).
Proof.
  intros Hf. unfold getMeta, setMetaErr. destruct (metaErr f) eqn:Ee; [done|]. destruct (meta f) eqn:Em; [done|].
  pose proof (readMeta_total f) as H. destruct (readMeta f) as [[m|e]|]; simpl in *; [|done..].
  split_and!; [|done|done]. by intros m' [= <-].
Qed.

Lemma withMeta_total {A} f (k : BoxMeta → File → fallible A) Q :
  fileOk f →
  (∀ m f', fileOk f' → ra f' = ra f → meta f' = Some m → wp (k m f') (λ r, match r with Ok x => Q x | Err _ => True end)) →
  wp (withMeta f k) (λ r, match r with Ok x => Q x | Err _ => True end).
Proof.
  intros Hf Hk. unfold withMeta. pose proof (getMeta_total f Hf) as H.
  destruct (getMeta f) as [[[m|e] f']|]; simpl in H; [|done..]. destruct H as (?&?&?). by apply Hk.
Qed.

Lemma associationsOf_range id n ipas asses :
  Forall ipaOk ipas → Forall (λ a, 1 ≤ Index a ≤ n) asses →
  Forall (λ a, 1 ≤ Index a ≤ n) (associationsOf id n ipas asses).
Proof.
  intros Hi. revert asses. induction Hi as [|ipa ipas Hipa Hi IH]; intros asses Ha; simpl; [done|].
  destruct (_ <? _); [done|]. apply IH, Forall_app. split; [done|].
  apply Forall_concat, Forall_fmap. eapply Forall_impl; [exact Hipa|]. intros it Hit. simpl.
  destruct (negb _); [constructor|]. apply Forall_forall. intros a [[H1 H2] Hin]%list_elem_of_filter.
  unfold itemOk in Hit. rewrite Forall_forall in Hit. specialize (Hit a Hin). lia.
Qed.

Lemma itemProperties_total all asses :
  Forall (λ a, 1 ≤ Index a ≤ zlen all) asses → is_Some (itemProperties all asses).
Proof.
  induction 1 as [|a asses Ha Has IH]; [by eexists|]. cbn [itemProperties].
  destruct (zidx_Some all (Index a - 1)) as (b&->&_); [lia|]. cbn [mbind option_bind].
  destruct (ParseBox_total b) as [r ->]. cbn [mbind option_bind]. destruct IH as [l ->]. by eexists.
Qed.

Definition itemFor (f f' : File) (it : Item) : Prop := fileOk f' ∧ ra f' = ra f ∧ is_Some (Info it).

Lemma ItemByID_total f id :
  fileOk f → wp (ItemByID f id) (λ r, match r with Ok x => itemFor f x.2 x.1 | Err _ => True end).
Proof.
  intros Hf. apply (withMeta_total f _ (λ x : Item * File, itemFor f x.2 x.1)); [done|].
  intros m f' Hf' Hra Hm. cbv zeta.
  set (info := match bm_ItemInfo m with Some _ => _ | None => _ end). destruct info as [ie|]; [|done].
  assert (is_Some (itemProperties match bm_Properties m with
    | Some p => Properties (PropertyContainer p) | None => [] end (propertyAssociations f' id))) as [l Hl].
  { unfold propertyAssociations. rewrite Hm. destruct (bm_Properties m) as [ip|] eqn:Ep; [|by eexists].
    apply itemProperties_total, associationsOf_range; [|constructor]. by apply (Hf' m). }
  rewrite Hl. simpl. split_and!; [done|done|by eexists].
Qed.

Lemma primaryItem_total f :
  fileOk f → wp (primaryItem f) (λ r, match r with Ok x => itemFor f x.2 x.1 | Err _ => True end).
Proof.
  intros Hf. apply (withMeta_total f _ (λ x : Item * File, itemFor f x.2 x.1)); [done|].
  intros m f' Hf' Hra Hm. destruct (bm_PrimaryItem m) as [p|]; [|done].
  eapply wp_mono; [by apply ItemByID_total|]. intros [[it f2]|]; [|done]. intros (?&?&?).
  split_and!; [done|simpl in *; congruence|done].
Qed.

(** A read that gave no error was one of the bytes that can be read. *)
Lemma raReadAt_ok f n off x :
  raReadAt f n off = (x, None) → bytesReadAt (ra f) n off = (x, None).
Proof.
  unfold raReadAt. destruct (bytesReadAt _ _ _) as [y err]. case_decide; [done|]. by intros [= -> ->].
Qed.

Lemma EXIF_total f :
  fileOk f → wp (EXIF f) (λ r, match r with Ok x => zlen x.1 ≤ 20 * 2 ^ 10 - 4 | Err _ => True end).
Proof.
  intros Hf. apply (withMeta_total f _ (λ x : list byte * File, zlen x.1 ≤ 20 * 2 ^ 10 - 4)); [done|].
  intros m f' Hf' Hra Hm. cbv zeta. destruct (EXIFItemID m =? 0); [done|]. apply wp_andThen.
  eapply wp_mono; [by apply ItemByID_total|]. intros [[it f2]|]; [|done]. intros _.
  destruct (Location it) as [loc|]; [|done]. destruct (Extents loc) as [|e [|]]; try done.
  destruct (Z.ltb_spec (20 * 2 ^ 10) (Length e)); [done|]. destruct (Z.ltb_spec (Length e) 4); [done|].
  destruct (raReadAt _ _ _) as [buf [err|]] eqn:E; [done|]. apply raReadAt_ok in E. simpl.
  unfold bytesReadAt in E. destruct (_ <? 0); [done|]. destruct (_ <=? _); [done|].
  injection E as <- _. rewrite length_take. lia.
Qed.

Lemma thumbnailItems_total f id refs :
  fileOk f → wp (thumbnailItems f id refs) (λ r, match r with Ok l => (length l ≤ length refs)%nat | Err _ => True end).
Proof.
  revert f. induction refs as [|ref refs IH]; intros f Hf; [simpl; lia|]. cbn [thumbnailItems].
  case_decide.
  - eapply wp_mono; [by apply IH|]. intros [l|]; [simpl; lia|done].
  - apply wp_andThen. eapply wp_mono; [by apply ItemByID_total|]. intros [[it f']|]; [|done]. intros (Hf'&_&_).
    apply wp_andThen. eapply wp_mono; [by apply IH|]. intros [l|]; [simpl; lia|done].
Qed.

Lemma Thumbnails_total f it : fileOk f → wp (Thumbnails f it) (λ _, True).
Proof.
  intros Hf. eapply wp_mono; [apply (withMeta_total f _ (λ _ : list Item, True)); [done|]|by intros []].
  intros m f' Hf' _ _. destruct (bm_ItemReference m); [|done].
  eapply wp_mono; [by apply thumbnailItems_total|by intros []].
Qed.

Lemma copyProps_total all asses :
  Forall (λ a, 1 ≤ Index a ≤ zlen all) asses → is_Some (copyProps all asses).
Proof.
  induction 1 as [|a asses Ha Has IH]; [by eexists|]. cbn [copyProps].
  destruct (_ || _); [done|]. destruct (zidx_Some all (Index a - 1)) as (b&->&_); [lia|].
  cbn [mbind option_bind]. destruct IH as [l ->]. by eexists.
Qed.

Lemma StandaloneHEIF_total f it : fileOk f → is_Some (Info it) → wp (StandaloneHEIF f it) (λ _, True).
Proof.
  intros Hf [info Hi]. eapply wp_mono; [apply (withMeta_total f _ (λ _ : list byte, True)); [done|]|by intros []].
  intros m f' Hf' Hra Hm. rewrite Hi. cbn [orPanic]. destruct (decide _); [done|].
  destruct (itemData f' it); [|done].
  assert (is_Some (copyProps match bm_Properties m with
    | Some p => Properties (PropertyContainer p) | None => [] end (propertyAssociations f' (ID it)))) as [l Hl].
  { unfold propertyAssociations. rewrite Hm. destruct (bm_Properties m) as [ip|] eqn:Ep; [|by eexists].
    apply copyProps_total, associationsOf_range; [|constructor]. by apply (Hf' m). }
  rewrite Hl. simpl. by destruct (EncodeImage _ _ _ _).
Qed.

(** ** Item data *)

Lemma totalLength_spec es total n :
  totalLength es total = Ok n → Forall (λ e, 0 ≤ Length e) es → total ≤ MaxItemDataSize →
  n = foldr (λ e s, Length e + s) total es ∧ n ≤ MaxItemDataSize ∧ Forall (λ e, 0 < Length e) es.
Proof.
  revert total. induction es as [|e es IH]; intros total; simpl; [by intros [= <-]|].
  destruct (Z.eqb_spec (Length e) 0); [done|]. destruct (Z.ltb_spec (MaxItemDataSize - total) (Length e)); [done|].
  intros Htl Hnn Ht. apply Forall_cons in Hnn as [Hn Hnn]. destruct (IH _ Htl Hnn) as (->&?&?); [lia|].
  split_and!; [|done|constructor; [lia|done]]. clear. induction es; simpl; lia.
Qed.

(** The bytes of the extents, in order. *)
Definition extentBytes (content : list byte) (base : Z) (es : list OffsetLength) : list byte :=
  concat ((λ e, take (Z.to_nat (Length e)) (drop (Z.to_nat (u64 (base + Offset e))) content)) <$> es).

Lemma readExtents_spec f base es buf out (content := ra f) :
  Forall (λ e, 0 < Length e) es → readExtents f base es buf = Ok out →
  out = buf ++ extentBytes content base es ∧ zlen out = foldr (λ e s, Length e + s) (zlen buf) es ∧
  Forall (λ e, base ≤ u64 (base + Offset e) ∧ u64 (base + Offset e) + Length e ≤ zlen content) es.
Proof.
  intros Hpos. revert buf. induction Hpos as [|e es He Hpos IH]; intros buf; simpl.
  { intros [= <-]. unfold extentBytes. by rewrite app_nil_r. }
  destruct (Z.ltb_spec (u64 (base + Offset e)) base); [done|].
  destruct (Z.ltb_spec (2 ^ 63 - 1) (u64 (base + Offset e))); [done|]. cbn [orb].
  destruct (raReadAt _ _ _) as [part [err|]] eqn:E; [done|]. apply raReadAt_ok in E. fold content in E.
  unfold bytesReadAt in E. destruct (Z.ltb_spec (u64 (base + Offset e)) 0); [done|].
  destruct (Z.leb_spec (zlen content) (u64 (base + Offset e))); [done|].
  set (x := take _ _) in E. destruct (Z.ltb_spec (zlen x) (Length e)); [done|]. injection E as <-.
  intros Ho. destruct (IH _ Ho) as (->&Hl&Hall).
  assert (zlen x = Length e) as Hx by (unfold x in *; rewrite length_take in *; lia).
  split_and!.
  - rewrite <-app_assoc. done.
  - rewrite Hl, length_app. clear -Hx. induction es; simpl in *; lia.
  - constructor; [|done]. split; [done|]. unfold x in Hx. rewrite length_take, length_drop in Hx. lia.
Qed.

(** ** Behaviours worth knowing *)

(** The error of a failed [getMeta] is never recorded. *)
Lemma getMeta_forgets_errors f r f' :
  metaErr f = None → getMeta f = Some (r, f') → metaErr f' = None.
Proof.
  intros He. unfold getMeta, setMetaErr. rewrite He. destruct (meta f); [by intros [= <- <-]|].
  destruct (readMeta f) as [[m|e]|]; [by intros [= <- <-]..|done].
Qed.

(** The name of an "infe" entry begins with its item type, which [Peek] leaves
    in the reader: the entry of type "hvc1" named "pic" gets the name
    "hvc1pic". *)
Example infe_name_keeps_type :
  ∃ ie, ParseBox (MkBox 24 (bs "infe") 0 8
    ([x02; x00; x00; x00; x00; x01; x00; x00] ++ bs "hvc1" ++ bs "pic" ++ [x00]) EOF) = Some (Ok (ItemInfoE ie)) ∧
    ItemType ie = bs "hvc1" ∧ ie_Name ie = bs "hvc1pic".
Proof. by eexists. Qed.

(** A header cut off right after its size field ends the input cleanly. *)
Example ReadBox_truncated_after_size : ReadBox (NewReader [x00; x00; x00; x10]) = Err EOF.
Proof. reflexivity. Qed.

Lemma iter_swap n (w h : Z) :
  Nat.iter n (λ '(w, h), (h, w)) (w, h) = if Nat.odd n then (h, w) else (w, h).
Proof.
  induction n as [|n IH]; [done|]. rewrite Nat.odd_succ, <-Nat.negb_odd. simpl. rewrite IH.
  by destruct (Nat.odd n).
Qed.

(** [VisualDimensions] swaps width and height for an odd number of quarter
    turns. *)
Lemma VisualDimensions_spec it :
  VisualDimensions it =
  let '(w, h, ok) := itemSpatialExtents it in
  if Nat.odd (Z.to_nat (Rotations it)) then (h, w, ok) else (w, h, ok).
Proof.
  unfold VisualDimensions. destruct (itemSpatialExtents it) as [[w h] ok]. rewrite iter_swap.
  by destruct (Nat.odd _).
Qed.

(** ** Properties *)

(** C7. Reading back an image that [EncodeImage] wrote: for nonempty data of
    at most [MaxItemDataSize] bytes and an item type that is not a derived
    one, the file's primary item has ID 1 and exactly the data, the major
    brand is kept, and [StandaloneHEIF] of the item is the same file again, so
    its type and its properties with their order and their essential bits are
    kept too. *)
Theorem EncodeImage_reads_back brand itemType props data file :
  EncodeImage brand itemType props data = Ok file →
  itemType ∉ derivedTypes → 0 < zlen data ≤ MaxItemDataSize →
  ∃ it f, primaryItem (Open file) = Some (Ok (it, f)) ∧ ID it = 1 ∧ itemData f it = Ok data ∧
    majorBrand f = brand ∧ StandaloneHEIF f it = Some (Ok file).
Proof.
  intros Henc Hty Hdata. pose proof Hty as Hty'. unfold derivedTypes in Hty'. rewrite !elem_of_cons in Hty'.
  assert (itemType ≠ bs "mime" ∧ itemType ≠ bs "uri ") as [Hmime Huri] by naive_solver. clear Hty'.
  destruct (readMeta_encoded _ _ _ _ _ Henc Hmime Huri) as (m&Hread&Hm).
  destruct (file_layout _ _ _ _ _ Henc) as (Hb&_&_&Hok&_&_&_&_).
  destruct (ItemByID_encoded _ _ _ _ _ m Hm) as (it&Hit&Hid&(ie&Hie&Hietype)&Hloc).
  pose proof Hm as (ft&pb&ii&_&ip&_&_&Hft&Hbr&Hpb&Hpid&_&_&_&_&Hpr&Hprops&_).
  exists it, (MkFile file EOF None (Some m)).
  assert (itemData (MkFile file EOF None (Some m)) it = Ok data) as Hd.
  { unfold itemData. rewrite Hloc. cbn [ConstructionMethod DataReferenceIndex Extents BaseOffset totalLength Length ra].
    change (negb (0 =? 0) || negb (0 =? 0)) with false. change (zlen [MkOffsetLength _ _] =? 0) with false. cbn iota.
    destruct (Z.eqb_spec (zlen data) 0); [lia|]. destruct (Z.ltb_spec (MaxItemDataSize - 0) (zlen data)); [lia|].
    cbn [orb readExtents Offset Length]. destruct (file_layout _ _ _ _ _ Henc) as (_&_&_&_&Hoff&Hlen&_&_).
    assert (u64 (0 + dataOffset data file) = dataOffset data file) as ->.
    { apply wrapU_small. unfold dataOffset in *. lia. }
    destruct (Z.ltb_spec (dataOffset data file) 0); [lia|].
    destruct (Z.ltb_spec (2 ^ 63 - 1) (dataOffset data file)); [unfold dataOffset in *; lia|]. cbn [orb].
    unfold raReadAt. cbn [ra]. rewrite (bytesReadAt_data _ _ _ _ _ Henc) by lia. done. }
  assert (majorBrand (MkFile file EOF None (Some m)) = brand) as Hmb.
  { unfold majorBrand. cbn [meta]. rewrite Hft, Hbr, Hb. done. }
  split_and!; [| |exact Hd|exact Hmb|].
  - unfold primaryItem, withMeta, getMeta. cbn [Open OpenOf metaErr meta ra raEnd]. fold (OpenOf file EOF). fold (Open file).
    rewrite Hread. cbn iota beta. rewrite Hpb, Hpid. exact Hit.
  - exact Hid.
  - unfold StandaloneHEIF, withMeta, getMeta. cbn [metaErr meta]. rewrite Hie. cbn [orPanic].
    rewrite Hietype. rewrite decide_False by done. rewrite Hd, Hid, Hpr, Hprops.
    rewrite (associations_encoded _ _ _ _ _ m Hm).
    pose proof (copyProps_encoded [] props Hok ltac:(by eapply props_small)) as Hcopy.
    cbn [app length] in Hcopy. change (Z.of_nat 0) with 0 in Hcopy. rewrite Hcopy. cbn [orPanic].
    by rewrite Hmb, Henc.
Qed.

Lemma EncodeImage_reads_back_witness :
  let props := [SpatialExtentsProperty 640 480; RotationProperty 3] in
  match EncodeImage (bs "heic") (bs "hvc1") props (bs "DATA") with
  | Ok file =>
      ∃ it f, primaryItem (Open file) = Some (Ok (it, f)) ∧ ID it = 1 ∧ itemData f it = Ok (bs "DATA") ∧
        majorBrand f = bs "heic" ∧ StandaloneHEIF f it = Some (Ok file)
  | Err _ => False
  end.
Proof.
  cbv zeta. destruct (EncodeImage (bs "heic") (bs "hvc1") [SpatialExtentsProperty 640 480; RotationProperty 3] (bs "DATA")) as [file|e] eqn:E.
  - apply (EncodeImage_reads_back (bs "heic") (bs "hvc1") [SpatialExtentsProperty 640 480; RotationProperty 3] (bs "DATA") file E).
    + apply (bool_decide_unpack _). vm_compute. exact I.
    + unfold MaxItemDataSize. simpl. lia.
  - vm_compute in E. discriminate E.
Defined.

(** [Parse] of any box returns, with a box or with an error: its loops
    end, its recursion into children ends, and no type assertion panics. *)
Theorem Parse_always_returns (b : box) : ∃ r, ParseBox b = Some r.
Proof. destruct (ParseBox_total b) as [r Hr]. by exists r. Qed.

(** C28. Whatever bytes can be read of a file, and whatever error the reads
    behind them give, no accessor panics: not looking up an item by any ID, not
    the primary item or the EXIF data, and not the thumbnails or the standalone
    copy of an item that was found. *)
Theorem accessors_never_panic (content : list byte) (ending : error) (id : Z) :
  let file := OpenOf content ending in
  is_Some (primaryItem file) ∧ is_Some (EXIF file) ∧
  wp (ItemByID file id) (λ r, match r with
    | Ok (it, f) => is_Some (Thumbnails f it) ∧ is_Some (StandaloneHEIF f it)
    | Err _ => True end).
Proof.
  intros file. assert (fileOk file) as Hf by done.
  assert (∀ A (m : option A) Q, wp m Q → is_Some m) as Hs by (intros A [x|] Q H; [by eexists|done]).
  split_and!.
  - eapply Hs, primaryItem_total, Hf.
  - eapply Hs, EXIF_total, Hf.
  - eapply wp_mono; [apply ItemByID_total, Hf|]. intros [[it f]|e]; [|done]. intros (Hf'&_&Hi). split.
    + eapply Hs, Thumbnails_total, Hf'.
    + by eapply Hs, StandaloneHEIF_total.
Qed.

(** [Item.Data], when it succeeds, returns the bytes of the item's
    extents in order, all of them inside the file, and at most
    [MaxItemDataSize] bytes in total; it succeeds only for an item stored in
    the file itself. *)
Theorem Data_is_extents f it loc buf :
  Location it = Some loc → Forall (λ e, 0 ≤ Length e) (Extents loc) → itemData f it = Ok buf →
  buf = extentBytes (ra f) (BaseOffset loc) (Extents loc) ∧
  zlen buf = foldr (λ e s, Length e + s) 0 (Extents loc) ∧ 0 < zlen buf ≤ MaxItemDataSize ∧
  Forall (λ e, u64 (BaseOffset loc + Offset e) + Length e ≤ zlen (ra f)) (Extents loc) ∧
  ConstructionMethod loc = 0 ∧ DataReferenceIndex loc = 0.
Proof.
  intros Hloc Hnn. unfold itemData. rewrite Hloc.
  destruct (Z.eqb_spec (ConstructionMethod loc) 0), (Z.eqb_spec (DataReferenceIndex loc) 0); try done.
  cbn [negb orb]. destruct (Z.eqb_spec (zlen (Extents loc)) 0); [done|].
  destruct (totalLength (Extents loc) 0) as [n0|] eqn:Et; [|done].
  apply totalLength_spec in Et as (Hn0&Hmax&Hpos); [|done|done].
  intros Hr. apply readExtents_spec in Hr as (->&Hl&Hall); [|done]. cbn [length] in Hl.
  change (Z.of_nat 0) with 0 in Hl. cbn [app] in *. rewrite Hl, <-Hn0. split_and!; try done.
  - rewrite Hn0. destruct (Extents loc) as [|e1 es]; [done|]. apply Forall_cons in Hpos as [He Hpos].
    simpl. assert (0 ≤ foldr (λ e s, Length e + s) 0 es); [|lia]. clear -Hpos. induction Hpos; simpl; lia.
  - eapply Forall_impl; [exact Hall|]. simpl. lia.
Qed.

Lemma Data_is_extents_witness :
  let f := Open (bs "0123456789") in
  let es := [MkOffsetLength 6 2; MkOffsetLength 1 3] in
  let it := MkItem 1 None (Some (MkLocationEntry 1 0 0 1 2 es)) [] in
  bs "78234" = extentBytes (ra f) 1 es ∧ zlen (bs "78234") = foldr (λ e s, Length e + s) 0 es ∧
  0 < zlen (bs "78234") ≤ MaxItemDataSize ∧
  Forall (λ e, u64 (1 + Offset e) + Length e ≤ zlen (ra f)) es ∧ 0 = 0 ∧ 0 = 0.
Proof.
  apply (Data_is_extents (Open (bs "0123456789"))
    (MkItem 1 None (Some (MkLocationEntry 1 0 0 1 2 [MkOffsetLength 6 2; MkOffsetLength 1 3])) [])
    (MkLocationEntry 1 0 0 1 2 [MkOffsetLength 6 2; MkOffsetLength 1 3])).
  - reflexivity.
  - repeat constructor; simpl; lia.
  - reflexivity.
Defined.

(** Every child that a container's parser finds is where it says it is:
    its body is the part of the container's body that begins [HeaderSize]
    bytes behind [Offset] and is as long as [Size] declares, or shorter only
    where the input ends. *)
Theorem children_are_located (s : list byte) l br :
  zlen s < 2 ^ 63 → parseAppendBoxes (BufReader s None EOF) = Some (Ok l, br) → Forall (located s) l.
Proof.
  intros Hs H. unfold parseAppendBoxes, guard in H. cbn [br_err br_rest] in H.
  destruct (appendBoxes _ _) as [[l'|e]|] eqn:E; [|done..]. injection H as <- _.
  eapply appendBoxes_located; [done| |exact E]. right. simpl. split; [lia|done].
Qed.

Lemma children_are_located_witness :
  Forall (located ([x00; x00; x00; x0a] ++ bs "free" ++ bs "ab" ++ [x00; x00; x00; x00] ++ bs "mdatxyz"))
    [MkBox 10 (bs "free") 0 8 (bs "ab") EOF; MkBox 0 (bs "mdat") 10 8 (bs "xyz") EOF].
Proof.
  eapply children_are_located; [reflexivity|]. reflexivity.
Defined.
