(* ===== verification/DumpHeif.v ===== *)
(** * media/heif/dumpheif: printing the boxes of a file

    dumpheif.go, as a program that collects the lines it prints, with what a
    line says instead of its formatted text. Decoding EXIF data is a
    parameter. *)
From S2P Require Import Prelude.
From S2P Require Import GoIO.
From S2P Require Import Bmff.
From S2P Require Import BmffLaws.
From S2P Require Import BmffTypes.
From S2P Require Import Heif.
From S2P Require Import HeifMain.

(** ** Programs that print *)

(** What the calls of [Printf] say; [depth] is the indentation. *)
Inductive line :=
| PrimaryItemID (id : Z)
| Extents (width height : Z)
| PropertiesTitle | PropertyLine (prop : Box) | NoProperties
| ExifTitle | ExifField (name value : list byte) | ExifEnd
| BoxesTitle
| BoxLine (depth : nat) (typ : list byte) (size : Z)
| Contents (depth : nat) (slurp : list byte)
| ContentsStart (depth : nat) (len : Z) (start : list byte)
| ValueLine (depth : nat) (v : Box)                           (* - %T: %+v *)
| TypeLine (depth : nat) (v : Box)                            (* - %T *)
| ChildrenLine (depth : nat) (v : Box) (n : Z)
| InfosLine (depth : nat) (v : Box) (count n : Z)
| DeclaredLine (depth : nat) (v : Box) (count n : Z)
| ItemLine (depth : nat) (id count n : Z)
| AssociationLine (depth : nat) (index : Z) (essential : bool)
| LocationLine (depth : nat) (e : ItemLocationBoxEntry)
| DimensionsLine (depth : nat) (v : Box) (width height : Z)
| GoTypeLine (depth : nat) (v : Box).

(** The output, and the two variables of the package. *)
Record dumpState := DumpState { out : list line; exifItemID : Z; exifLoc : option ItemLocationBoxEntry }.

Inductive exit := Usage | Fatal (msg : string).

(** A program goes on, or ends the process; [None] is the lack of fuel. *)
Definition prog : Type := dumpState → option (dumpState * option exit).

Definition skip : prog := λ st, Some (st, None).
Definition fatal (e : exit) : prog := λ st, Some (st, Some e).
Definition print (l : line) : prog := λ st, Some (DumpState (out st ++ [l]) (exifItemID st) (exifLoc st), None).
Definition andThen (m1 m2 : prog) : prog := λ st,
  match m1 st with Some (st, None) => m2 st | r => r end.
Notation "m1 ;; m2" := (andThen m1 m2) (at level 100, right associativity).

Fixpoint forEach {A} (f : A → prog) (l : list A) : prog :=
  match l with [] => skip | x :: l => f x;; forEach f l end.

(** ** dumpBox *)

Definition noteExifItem (e : ItemInfoEntry) : prog := λ st,
  Some (if decide (ItemType e = bs "Exif") then DumpState (out st) (ie_ItemID e) (exifLoc st) else st, None).
Definition noteExifLoc (e : ItemLocationBoxEntry) : prog := λ st,
  Some (if bool_decide (exifItemID st ≠ 0 ∧ le_ItemID e = exifItemID st) then DumpState (out st) (exifItemID st) (Some e) else st, None).

Definition dumpUnknown (depth : nat) (slurp : list byte) : prog :=
  if zlen slurp <? 5000 then print (Contents depth slurp)
  else print (ContentsStart depth (zlen slurp) (take 100 slurp)).

(** The switch on the dynamic type, with the dump of a child. *)
Definition dumpParsed (dump : box → prog) (depth : nat) (v : Box) : prog :=
  match v with
  | FileType _ | Handler _ | PrimaryItem _ => print (ValueLine depth v)
  | Meta m => print (ChildrenLine depth v (zlen (mb_Children m)));; forEach dump (mb_Children m)
  | ItemInfo i =>
      print (InfosLine depth v (ib_Count i) (zlen (ItemInfos i)));;
      forEach (λ e, dump (fb_box (ie_full e))) (ItemInfos i)
  | ItemInfoE e => print (ValueLine depth v);; noteExifItem e
  | ItemProperties ip =>
      print (TypeLine depth v);;
      dump (ipc_box (PropertyContainer ip));;
      forEach (λ a, dump (fb_box (ipa_full a))) (Associations ip)
  | Association a =>
      print (DeclaredLine depth v (ipa_EntryCount a) (zlen (Entries a)));;
      forEach (λ ai,
        print (ItemLine depth (ai_ItemID ai) (AssociationsCount ai) (zlen (ai_Associations ai)));;
        forEach (λ ass, print (AssociationLine depth (Index ass) (Essential ass))) (ai_Associations ai)) (Entries a)
  | DataInformation d => print (TypeLine depth v);; forEach dump (dib_Children d)
  | DataReference d => print (TypeLine depth v);; forEach dump (drb_Children d)
  | Container c => print (TypeLine depth v);; forEach dump (Properties c)
  | ItemLocation l =>
      print (DeclaredLine depth v (ItemCount l) (zlen (il_Items l)));;
      forEach (λ lbe, print (LocationLine depth lbe);; noteExifLoc lbe) (il_Items l)
  | SpatialExtents p => print (DimensionsLine depth v (ImageWidth p) (ImageHeight p))
  | _ => print (GoTypeLine depth v)
  end.

(** [dumpBox(box, depth)]. The [Parse] of a child that has been parsed, such
    as an item info entry, is what it was parsed to. *)
Fixpoint dumpBox (fuel : nat) (depth : nat) (b : box) : prog :=
  match fuel with
  | O => λ _, None
  | S fuel =>
      print (BoxLine depth (boxType b) (size b));;
      λ st,
        match ParseBox b with
        | None => None
        | Some (Err e) =>
            if decide (e = ErrUnknownBox) then dumpUnknown depth (body b) st
            else fatal (Fatal "Parse box type %q: %v; slurp: %q") st
        | Some (Ok v) => dumpParsed (dumpBox fuel (S depth)) depth v st
        end
  end.

(** The loop of [main] over the boxes of the file. *)
Fixpoint dumpBoxes (fuel : nat) (r : Reader) : prog :=
  match fuel with
  | O => λ _, None
  | S fuel =>
      match ReadBox r with
      | Err e => if decide (e = EOF) then skip else fatal (Fatal "ReadBox: %v")
      | Ok (b, r) => dumpBox (S (length (body b))) 0 b;; dumpBoxes fuel r
      end
  end.

(** ** main *)

Section main.
(** [exif.Decode], and the names and tags that [Walk] visits. *)
Variable decodeExif : list byte → option (list (list byte * list byte)).

Definition dumpItem (it : Item) : prog :=
  print (PrimaryItemID (ID it));;
  (let '(w, h, ok) := itemSpatialExtents it in if ok : bool then print (Extents w h) else skip);;
  print PropertiesTitle;;
  forEach (λ p, print (PropertyLine p)) (it_Properties it);;
  if decide (it_Properties it = []) then print NoProperties else skip.

Definition dumpExif (ex : list byte) : prog :=
  print ExifTitle;;
  match decodeExif ex with
  | None => fatal (Fatal "EXIF decode: %v")
  | Some fields => forEach (λ '(n, v), print (ExifField n v)) fields;; print ExifEnd
  end.

(** [main()] with its arguments and the files it can open. *)
Definition main (args : list string) (files : string → option (list byte)) : prog := λ st,
  match args with
  | [name] =>
      match files name with
      | None => fatal (Fatal "%v") st
      | Some f =>
          match primaryItem (Open f) with
          | None => None
          | Some (Err _) => fatal (Fatal "PrimaryItem: %v") st
          | Some (Ok (it, hf)) =>
              match EXIF hf with
              | None => None
              | Some ex =>
                  (dumpItem it;;
                   match ex with Ok (x, _) => dumpExif x | Err _ => skip end;;
                   print BoxesTitle;;
                   dumpBoxes (S (length f)) (NewReader f)) st
              end
          end
      end
  | _ => fatal Usage st
  end.
End main.

(** ** Boxes inside a box *)

(** What [dumpParsed] dumps. *)
Definition subBoxes (v : Box) : list box :=
  match v with
  | Meta m => mb_Children m
  | ItemInfo i => map (λ e, fb_box (ie_full e)) (ItemInfos i)
  | ItemProperties ip => ipc_box (PropertyContainer ip) :: map (λ a, fb_box (ipa_full a)) (Associations ip)
  | DataInformation d => dib_Children d
  | DataReference d => drb_Children d
  | Container c => Properties c
  | _ => []
  end.

Definition shorter (n : nat) (c : box) : Prop := (length (body c) + 8 ≤ n)%nat.
Definition subsShorter (n : nat) (v : Box) : Prop := Forall (shorter n) (subBoxes v).

Lemma parseEntries_boxes parse l ies n :
  parses parse → Forall (shorter n) l → parseEntries parse l = Some (Ok ies) →
  Forall (shorter n) (map (λ e, fb_box (ie_full e)) ies).
Proof.
  intros Hp Hl. revert ies. induction Hl as [|b l Hb _ IH]; intros ies H; cbn in H; [by injection H as <-|].
  destruct (parse b) as [[pb|]|] eqn:E; [|done..]. apply Hp in E as (Eo&_&_).
  destruct (parseEntries parse l) as [[ies'|]|]; [|done..]. injection H as <-. specialize (IH _ eq_refl).
  destruct pb; try done. constructor; [|done]. cbn in Eo. by rewrite Eo.
Qed.

Lemma parseAssociations_boxes parse l ipas n :
  parses parse → Forall (shorter n) l → parseAssociations parse l = Some (Ok ipas) →
  Forall (shorter n) (map (λ a, fb_box (ipa_full a)) ipas).
Proof.
  intros Hp Hl. revert ipas. induction Hl as [|b l Hb _ IH]; intros ipas H; cbn in H; [by injection H as <-|].
  destruct (parse b) as [[pb|]|] eqn:E; [|done..]. apply Hp in E as (Eo&_&_). destruct pb; try done.
  destruct (parseAssociations parse l) as [[ips|]|]; [|done..]. injection H as <-. specialize (IH _ eq_refl).
  constructor; [|done]. cbn in Eo. by rewrite Eo.
Qed.

(** [m] on at most [n] bytes returns only values that satisfy [Q]. *)
Definition within {A} (n : nat) (m : P A) (Q : A → Prop) : Prop :=
  ∀ br x br', (length (br_rest br) ≤ n)%nat → m br = Some (Ok x, br') → Q x.

Lemma within_bind {A B} n (m : P A) (f : A → P B) Q R :
  runs n m anything → within n m Q → (∀ x, Q x → within n (f x) R) → within n (pbind m f) R.
Proof.
  intros Hr Hm Hf br x br' Hn H. apply pbind_Ok in H as (y&br1&H1&H2). specialize (Hr br Hn). rewrite H1 in Hr. cbn in Hr.
  eapply Hf; [by eapply Hm| |done]. lia.
Qed.

Lemma within_any {A} n (m : P A) : within n m anything.
Proof. done. Qed.

Lemma within_yields {A} n (m : P A) Q : yields m Q → within n m Q.
Proof. intros H br x br' _. apply H. Qed.

Lemma within_children n : within n parseAppendBoxes (Forall (shorter n)).
Proof.
  intros br l br' Hn H. pose proof (runs_parseAppendBoxes n br Hn) as Hr. rewrite H in Hr. by destruct Hr.
Qed.

Lemma within_soft_children n : within n (soft [] parseAppendBoxes) (Forall (shorter n)).
Proof.
  intros br l br' Hn H. unfold soft in H. destruct (parseAppendBoxes br) as [[[x|e] br1]|] eqn:E; [| |done]; injection H as <- _.
  - by eapply within_children.
  - constructor.
Qed.

(** Steps before and after the children. *)
Ltac pass := eapply within_bind; [by runs_all|apply within_any|intros ? _].
Ltac children := eapply within_bind; [by auto with bmff|apply within_children|intros ? ?].
Ltac finish := apply within_yields; first [apply yields_ret|apply yields_failSticky].

Lemma containers_within n b :
  within n (parseMetaBox b) (subsShorter n) ∧ within n (parseDataInformationBox b) (subsShorter n) ∧
  within n (parseDataReferenceBox b) (subsShorter n) ∧ within n (parseItemPropertyContainerBox b) (subsShorter n).
Proof.
  split_and!.
  - assert (within n (fb ←p readFullBox b; l ←p parseAppendBoxes; pret (Meta (MkMeta fb false l))) (subsShorter n)) as H1
      by (pass; children; by finish).
    assert (within n (l ←p parseAppendBoxes; pret (Meta (MkMeta (MkFullBox b 0 0) true l))) (subsShorter n)) as H2
      by (children; by finish).
    intros br x br' Hn. unfold parseMetaBox, Peek.
    destruct (decide _); [|by apply H1]. destruct (decide _); [by apply H2|by apply H1].
  - unfold parseDataInformationBox. children. by finish.
  - unfold parseDataReferenceBox. pass. pass. children. by finish.
  - unfold parseItemPropertyContainerBox. children. by finish.
Qed.

Lemma iinf_within n parse b : parses parse → (∀ c, shorter n c → is_Some (parse c)) →
  within n (parseItemInfoBox parse b) (subsShorter n).
Proof.
  intros Hp Ht. unfold parseItemInfoBox. pass. pass.
  eapply within_bind; [by runs_all|apply within_soft_children|intros l Hl]. pass.
  eapply (within_bind _ _ _ (λ ies, Forall (shorter n) (map (λ e, fb_box (ie_full e)) ies))).
  - destruct x1; [|by runs_all]. apply runs_lift, wp_is_Some. by eapply parseEntries_total.
  - apply within_yields, yields_if; intros _; [|by apply yields_ret].
    apply yields_lift. intros ies. by apply parseEntries_boxes.
  - intros ies Hies. by finish.
Qed.

Lemma iprp_within n parse b : parses parse → (∀ c, shorter n c → is_Some (parse c)) →
  within n (parseItemPropertiesBox parse b) (subsShorter n).
Proof.
  intros Hp Ht. unfold parseItemPropertiesBox. children. destruct x as [|b0 [|b1 rest]]; [by intros ?? ??..|].
  inversion H as [|?? Hb0 Hrest]; subst.
  eapply (within_bind _ _ _ (λ cb, outerBox cb = b0)).
  - apply runs_orFail, runs_lift, wp_is_Some. by apply Ht.
  - apply within_yields, yields_orFail, yields_lift. intros pb E. by apply Hp in E as (?&_&_).
  - intros cb Hcb. destruct cb; try by intros ?? ??.
    eapply (within_bind _ _ _ (λ ipas, Forall (shorter n) (map (λ a, fb_box (ipa_full a)) ipas))).
    + apply runs_lift, wp_is_Some. by eapply parseAssociations_total.
    + apply within_yields, yields_lift. intros ipas. by apply parseAssociations_boxes.
    + intros ipas Hipas. finish. cbn in Hcb. subst b0. by constructor.
Qed.

(** The boxes in a parsed box are shorter than the box. *)
Lemma Parse_subBoxes b v : ParseBox b = Some (Ok v) → subsShorter (length (body b)) v.
Proof.
  intros H. pose proof (Parse_typed _ _ _ H) as (_&Ht&_). unfold ParseBox in H. cbn [Parse] in H.
  set (n := length (body b)) in *. destruct (containers_within n b) as (Hm&Hd&Hr&Hc).
  assert (parses (Parse n)) as Hp by apply Parse_typed.
  assert (∀ c, shorter n c → is_Some (Parse n c)) as Htot by (intros c Hs; apply Parse_total; unfold shorter in Hs; lia).
  destruct (findParser (parsers (Parse n)) (boxType b)) as [p|] eqn:E; [|done].
  destruct (p b (BufReader (body b) None (bodyEnd b))) as [[r br]|] eqn:Ep; [|done]. injection H as ->.
  assert (∀ t, typeOf v = Some t → findParser (parsers (Parse n)) t = Some p) as Hf by (intros t Hv; congruence).
  assert (within n (p b) (subsShorter n) → subsShorter n v) as Hdone by (intros Hw; eapply (Hw _ _ _); [|exact Ep]; done).
  assert (∀ q, findParser (parsers (Parse n)) (boxType b) = Some q → within n (q b) (subsShorter n) → subsShorter n v) as Hd'.
  { intros q Hq Hw. rewrite E in Hq. injection Hq as <-. by apply Hdone. }
  clear Hdone Hf. destruct v; try apply Forall_nil_2; cbn [typeOf] in Ht; injection Ht as Ht; rewrite <-Ht in Hd';
    (eapply Hd'; [reflexivity|]); auto using iinf_within, iprp_within.
Qed.

(** ** Termination *)

(** [m] does not run out of fuel. *)
Definition ends (m : prog) : Prop := ∀ st, is_Some (m st).

Lemma ends_print l : ends (print l).
Proof. intros st. by eexists. Qed.

Lemma ends_andThen m1 m2 : ends m1 → ends m2 → ends (m1;; m2).
Proof. intros H1 H2 st. unfold andThen. destruct (H1 st) as [[st1 [e|]] ->]; [by eexists|apply H2]. Qed.

Lemma ends_forEach {A} (f : A → prog) l : (∀ x, x ∈ l → ends (f x)) → ends (forEach f l).
Proof.
  induction l as [|x l IH]; intros Hf; [intros st; by eexists|]. apply ends_andThen; [apply Hf; by left|]. apply IH. intros y Hy. apply Hf. by right.
Qed.

Lemma ends_any (m : prog) : (∀ st, is_Some (m st)) → ends m.
Proof. done. Qed.

#[local] Hint Resolve ends_print ends_andThen ends_forEach : ends.

Lemma ends_each {A} (g : A → box) (dump : box → prog) (l : list A) :
  (∀ c, c ∈ map g l → ends (dump c)) → ends (forEach (λ x, dump (g x)) l).
Proof. intros H. apply ends_forEach. intros x Hx. apply H. by apply list_elem_of_fmap_2. Qed.

Lemma dumpParsed_ends dump depth v : (∀ c, c ∈ subBoxes v → ends (dump c)) → ends (dumpParsed dump depth v).
Proof.
  intros H. destruct v; cbn [dumpParsed subBoxes] in *; try apply ends_print;
    (apply ends_andThen; [apply ends_print|]); try (by apply ends_forEach).
  - apply ends_any. intros st. by eexists.
  - by apply (ends_each (λ e, fb_box (ie_full e))).
  - apply ends_andThen; [apply H; by left|]. apply (ends_each (λ a, fb_box (ipa_full a))). intros c Hc. apply H. by right.
  - apply ends_forEach. intros ai _. apply ends_andThen; [apply ends_print|]. apply ends_forEach. intros ass _. apply ends_print.
  - apply ends_forEach. intros lbe _. apply ends_andThen; [apply ends_print|]. intros st. by eexists.
Qed.

Lemma dumpBox_ends fuel depth b : (length (body b) < fuel)%nat → ends (dumpBox fuel depth b).
Proof.
  revert depth b. induction fuel as [|fuel IH]; intros depth b Hf; [lia|]. cbn [dumpBox].
  apply ends_andThen; [apply ends_print|]. intros st. destruct (ParseBox_total b) as [[v|e] Hp]; rewrite Hp.
  - apply dumpParsed_ends. intros c Hc. apply IH. apply Parse_subBoxes in Hp. unfold subsShorter in Hp.
    rewrite Forall_forall in Hp. specialize (Hp c Hc). unfold shorter in Hp. lia.
  - case_decide; [unfold dumpUnknown; destruct (_ <? _); apply ends_print|by eexists].
Qed.

Lemma dumpBoxes_ends fuel r : (length (input r) < fuel)%nat → ends (dumpBoxes fuel r).
Proof.
  revert r. induction fuel as [|fuel IH]; intros r Hf; [lia|]. cbn [dumpBoxes].
  destruct (ReadBox r) as [[b r']|e] eqn:E; [|case_decide; intros st; by eexists].
  apply ends_andThen; [apply dumpBox_ends; lia|]. apply IH. apply ReadBox_shorter in E. lia.
Qed.

(** ** What is printed *)

(** The boxes that a list of lines is about: depth, type and size. *)
Definition boxLines (l : list line) : list (nat * list byte * Z) :=
  omap (λ x, match x with BoxLine d t s => Some (d, t, s) | _ => None end) l.

(** A box and the boxes in it, outer before inner. *)
Fixpoint preorder (fuel depth : nat) (b : box) : list (nat * list byte * Z) :=
  match fuel with
  | O => []
  | S fuel =>
      (depth, boxType b, size b) ::
      match ParseBox b with Some (Ok v) => concat (map (preorder fuel (S depth)) (subBoxes v)) | _ => [] end
  end.

(** The boxes of a file with those in them, up to its end. *)
Fixpoint fileTree (fuel : nat) (r : Reader) : list (nat * list byte * Z) :=
  match fuel with
  | O => []
  | S fuel =>
      match ReadBox r with
      | Ok (b, r) => preorder (S (length (body b))) 0 b ++ fileTree fuel r
      | Err _ => []
      end
  end.

(** [m], if it goes on, has printed lines about the boxes [L]. *)
Definition emits (m : prog) (L : list (nat * list byte * Z)) : Prop :=
  ∀ st st', m st = Some (st', None) → boxLines (out st') = boxLines (out st) ++ L.

Lemma emits_print l : emits (print l) (boxLines [l]).
Proof. intros st st' [= <-]. cbn [out]. unfold boxLines. by rewrite omap_app. Qed.

Lemma emits_quiet l : boxLines [l] = [] → emits (print l) [].
Proof. intros <-. apply emits_print. Qed.

Lemma emits_skip : emits skip [].
Proof. intros st st' [= <-]. by rewrite app_nil_r. Qed.

Lemma emits_fatal e L : emits (fatal e) L.
Proof. by intros st st'. Qed.

Lemma emits_andThen m1 m2 L1 L2 : emits m1 L1 → emits m2 L2 → emits (m1;; m2) (L1 ++ L2).
Proof.
  intros H1 H2 st st' H. unfold andThen in H. destruct (m1 st) as [[st1 [e|]]|] eqn:E; [done| |done].
  rewrite (H2 _ _ H), (H1 _ _ E). by rewrite app_assoc.
Qed.

Lemma emits_quietly m1 m2 L : emits m1 [] → emits m2 L → emits (m1;; m2) L.
Proof. apply (emits_andThen m1 m2 [] L). Qed.

Lemma emits_forEach {A} (f : A → prog) (g : A → list (nat * list byte * Z)) l :
  (∀ x, emits (f x) (g x)) → emits (forEach f l) (concat (map g l)).
Proof. intros Hf. induction l as [|x l IH]; [apply emits_skip|]. by apply emits_andThen. Qed.

Lemma emits_loop {A} (f : A → prog) l : (∀ x, emits (f x) []) → emits (forEach f l) [].
Proof. intros Hf. induction l as [|x l IH]; [apply emits_skip|]. by apply emits_quietly. Qed.

Lemma emits_note (f : dumpState → dumpState) : (∀ st, out (f st) = out st) → emits (λ st, Some (f st, None)) [].
Proof. intros Hf st st' [= <-]. by rewrite Hf, app_nil_r. Qed.

Lemma dumpParsed_emits dump depth v (g : box → list (nat * list byte * Z)) :
  (∀ c, emits (dump c) (g c)) → emits (dumpParsed dump depth v) (concat (map g (subBoxes v))).
Proof.
  intros H. destruct v; cbn [dumpParsed subBoxes map concat]; try (by apply emits_quiet);
    (apply emits_quietly; [by apply emits_quiet|]); try (by apply emits_forEach).
  - unfold noteExifItem. apply (emits_note (λ st, if decide (ItemType b = bs "Exif") then _ else st)). intros st. by case_decide.
  - rewrite map_map. by apply (emits_forEach (λ e, dump (fb_box (ie_full e)))).
  - apply emits_andThen; [apply H|]. rewrite map_map. by apply (emits_forEach (λ a, dump (fb_box (ipa_full a)))).
  - apply emits_loop. intros ai. apply emits_quietly; [by apply emits_quiet|]. apply emits_loop. intros ass. by apply emits_quiet.
  - apply emits_loop. intros lbe. apply emits_quietly; [by apply emits_quiet|]. unfold noteExifLoc.
    apply (emits_note (λ st, if bool_decide (exifItemID st ≠ 0 ∧ le_ItemID lbe = exifItemID st) then _ else st)).
    intros st. by destruct (bool_decide _).
Qed.

Lemma dumpBox_emits fuel depth b : emits (dumpBox fuel depth b) (preorder fuel depth b).
Proof.
  revert depth b. induction fuel as [|fuel IH]; intros depth b; [by intros st st'|]. cbn [dumpBox preorder].
  change (?x :: ?l) with ([x] ++ l). apply emits_andThen; [apply emits_print|]. intros st st' H.
  destruct (ParseBox b) as [[v|e]|]; [|case_decide|done].
  - by eapply dumpParsed_emits.
  - unfold dumpUnknown in H. revert H. destruct (_ <? _); by apply emits_quiet.
  - done.
Qed.

Lemma dumpBoxes_emits fuel r : emits (dumpBoxes fuel r) (fileTree fuel r).
Proof.
  revert r. induction fuel as [|fuel IH]; intros r; [by intros st st'|]. cbn [dumpBoxes fileTree].
  destruct (ReadBox r) as [[b r']|e]; [apply emits_andThen; [apply dumpBox_emits|apply IH]|].
  case_decide; [apply emits_skip|apply emits_fatal].
Qed.

Section mainLaws.
Variable decodeExif : list byte → option (list (list byte * list byte)).

Lemma dumpItem_ends it : ends (dumpItem it).
Proof.
  unfold dumpItem. destruct (itemSpatialExtents it) as [[w h] []];
    repeat (apply ends_andThen; [first [apply ends_print|by intros st; eexists|apply ends_forEach; intros; apply ends_print]|]);
    case_decide; by (intros st; eexists).
Qed.

Lemma dumpItem_emits it : emits (dumpItem it) [].
Proof.
  unfold dumpItem. destruct (itemSpatialExtents it) as [[w h] []];
    repeat (apply emits_quietly; [first [by apply emits_quiet|apply emits_skip|apply emits_loop; intros; by apply emits_quiet]|]);
    case_decide; (by apply emits_quiet) || apply emits_skip.
Qed.

Lemma dumpExif_ends x : ends (dumpExif decodeExif x).
Proof.
  unfold dumpExif. apply ends_andThen; [apply ends_print|]. destruct (decodeExif x); [|by intros st; eexists].
  apply ends_andThen; [|apply ends_print]. apply ends_forEach. intros [n v] _. apply ends_print.
Qed.

Lemma dumpExif_emits x : emits (dumpExif decodeExif x) [].
Proof.
  unfold dumpExif. apply emits_quietly; [by apply emits_quiet|]. destruct (decodeExif x); [|apply emits_fatal].
  apply emits_quietly; [|by apply emits_quiet]. apply emits_loop. intros [n v]. by apply emits_quiet.
Qed.

(** C39. The program ends on every file, without a panic of a type assertion,
    and if it does not end with a message, it has printed one line for every
    box of the file and for every box in a box that can be parsed, in the
    order of the file, outer boxes before the ones in them, with depth, type
    and size. *)
Theorem main_prints_tree (args : list string) (files : string → option (list byte)) :
  ∃ st e, main decodeExif args files (DumpState [] 0 None) = Some (st, e) ∧
    (e = None → ∃ name f, args = [name] ∧ files name = Some f ∧
      boxLines (out st) = fileTree (S (length f)) (NewReader f)).
Proof.
  destruct args as [|name [|]]; [by eexists _, _| |by eexists _, _]. cbn [main].
  destruct (files name) as [f|] eqn:Hf; [|by eexists _, _].
  pose proof (primaryItem_total (Open f) ltac:(done)) as Hp.
  destruct (primaryItem (Open f)) as [[[it hf]|e]|]; [|by eexists _, _|done]. destruct Hp as (Hok&_&_).
  pose proof (EXIF_total hf Hok) as Hx. destruct (EXIF hf) as [ex|]; [|done].
  set (rest := match ex with Ok (x, _) => dumpExif decodeExif x | Err _ => skip end).
  set (m := dumpItem it;; rest;; print BoxesTitle;; dumpBoxes (S (length f)) (NewReader f)).
  assert (ends m) as Hends.
  { unfold m, rest. apply ends_andThen; [apply dumpItem_ends|].
    apply ends_andThen; [destruct ex as [[x ?]|]; [apply dumpExif_ends|by intros st; eexists]|].
    apply ends_andThen; [apply ends_print|]. apply dumpBoxes_ends. cbn. lia. }
  assert (emits m (fileTree (S (length f)) (NewReader f))) as Hemits.
  { unfold m, rest. apply emits_quietly; [apply dumpItem_emits|].
    apply emits_quietly; [destruct ex as [[x ?]|]; [apply dumpExif_emits|apply emits_skip]|].
    apply emits_quietly; [by apply emits_quiet|]. apply dumpBoxes_emits. }
  destruct (Hends (DumpState [] 0 None)) as [[st e] Hm]. exists st, e. split; [done|]. intros ->. exists name, f.
  split_and!; [done|done|]. by apply Hemits in Hm.
Qed.
End mainLaws.

(** The boxes of an encoded image, by depth and type; an item info entry is
    printed below its "iinf" box. *)
Example encoded_tree :
  match EncodeImage (bs "heic") (bs "hvc1") [SpatialExtentsProperty 640 480] (bs "DATA") with
  | Ok file =>
      match main (λ _, None) ["a.heic"%string] (λ _, Some file) (DumpState [] 0 None) with
      | Some (st, None) =>
          List.map (λ '(d, t, _), (d, t)) (boxLines (out st)) =
          [(0, bs "ftyp"); (0, bs "meta"); (1, bs "hdlr"); (1, bs "pitm"); (1, bs "iinf"); (2, bs "infe"); (1, bs "iloc");
           (1, bs "iprp"); (2, bs "ipco"); (3, bs "ispe"); (2, bs "ipma"); (0, bs "mdat")]%nat
      | _ => False
      end
  | Err _ => False
  end.
Proof. vm_compute. reflexivity. Qed.
