(* ===== verification/SingleFlight.v ===== *)
(** * syncutil/singleflight: duplicate call suppression

    singleflight.go. A step of the machine is one critical section of the
    mutex, or one access between two of them, by one goroutine; a state is
    reachable under every interleaving. [fn] is any function that returns. *)
From S2P Require Import Prelude.

(** ** The group *)

Section group.
Context {K V : Type} `{Countable K}.

(** A [call]: its WaitGroup, and [val] and [err] together. *)
Record call := Call { c_done : bool; c_res : option V }.

(** The calls are on the heap; a nil map is an empty one. *)
Record group := Group { g_m : gmap K nat; g_calls : list call }.

Definition emptyGroup : group := Group ∅ [].

(** The first critical section of [Do]: the call to wait for, or a new one. *)
Definition enter (key : K) (g : group) : nat * bool * group :=
  match g_m g !! key with
  | Some c => (c, false, g)
  | None =>
      let c := length (g_calls g) in
      (c, true, Group (<[key := c]> (g_m g)) (g_calls g ++ [Call false None]))
  end.

Definition updCall (c : nat) (f : call → call) (g : group) : group :=
  Group (g_m g) (alter f c (g_calls g)).

(** [c.val, c.err = v] *)
Definition assign (c : nat) (v : V) : group → group := updCall c (λ x, Call (c_done x) (Some v)).
(** [c.wg.Done()] *)
Definition signal (c : nat) : group → group := updCall c (λ x, Call true (c_res x)).
(** [delete(g.m, key)] *)
Definition remove (key : K) (g : group) : group := Group (delete key (g_m g)) (g_calls g).

(** [c.val, c.err], and the same after [c.wg.Wait()] has returned. *)
Definition resultOf (c : nat) (g : group) : option V := x ← g_calls g !! c; c_res x.
Definition awaited (c : nat) (g : group) : option V :=
  x ← g_calls g !! c; if c_done x : bool then c_res x else None.

(** ** Goroutines that call [Do] *)

Inductive pc :=
| Entering (key : K)            (* before g.mu.Lock *)
| Waiting (key : K) (c : nat)   (* in c.wg.Wait *)
| Running (key : K) (c : nat)   (* in fn *)
| Assigned (key : K) (c : nat)  (* before c.wg.Done *)
| Signalled (key : K) (c : nat) (* before delete *)
| Returned (key : K) (v : V).

Record state := State { st_group : group; st_threads : list pc }.

Inductive event :=
| ECall (t : nat) (key : K)
| EStart (t : nat) (key : K) (c : nat)
| EFinish (t : nat) (key : K) (c : nat) (v : V)
| EReturn (t : nat) (key : K) (v : V).

Definition goto (t : nat) (p : pc) (g : group) (st : state) : state := State g (<[t := p]> (st_threads st)).

Inductive step (st : state) : list event → state → Prop :=
| StepCall key :
    step st [ECall (length (st_threads st)) key]
      (State (st_group st) (st_threads st ++ [Entering key]))
| StepJoin t key c g :
    st_threads st !! t = Some (Entering key) → enter key (st_group st) = (c, false, g) →
    step st [] (goto t (Waiting key c) g st)
| StepStart t key c g :
    st_threads st !! t = Some (Entering key) → enter key (st_group st) = (c, true, g) →
    step st [EStart t key c] (goto t (Running key c) g st)
| StepAssign t key c v :
    st_threads st !! t = Some (Running key c) →
    step st [EFinish t key c v] (goto t (Assigned key c) (assign c v (st_group st)) st)
| StepSignal t key c :
    st_threads st !! t = Some (Assigned key c) →
    step st [] (goto t (Signalled key c) (signal c (st_group st)) st)
| StepDelete t key c v :
    st_threads st !! t = Some (Signalled key c) → resultOf c (st_group st) = Some v →
    step st [EReturn t key v] (goto t (Returned key v) (remove key (st_group st)) st)
| StepWait t key c v :
    st_threads st !! t = Some (Waiting key c) → awaited c (st_group st) = Some v →
    step st [EReturn t key v] (goto t (Returned key v) (st_group st) st).

Inductive reach : state → list event → Prop :=
| ReachInit : reach (State emptyGroup []) []
| ReachStep st tr ev st' : reach st tr → step st ev st' → reach st' (tr ++ ev).

(** The call a goroutine executes [fn] for, until it has left the map. *)
Definition owns (p : pc) : option (K * nat) :=
  match p with
  | Running key c | Assigned key c | Signalled key c => Some (key, c)
  | _ => None
  end.

(** ** Laws of the group *)

Lemma enter_spec key g c new g' :
  enter key g = (c, new, g') →
  (new = false ∧ g_m g !! key = Some c ∧ g' = g) ∨
  (new = true ∧ g_m g !! key = None ∧ c = length (g_calls g) ∧
   g_m g' = <[key := c]> (g_m g) ∧ g_calls g' = g_calls g ++ [Call false None]).
Proof.
  unfold enter. destruct (g_m g !! key) as [c'|] eqn:E; intros [= <- <- <-]; [left|right]; done.
Qed.

Lemma resultOf_upd c c' f g :
  (∀ x, c_res (f x) = c_res x) ∨ c ≠ c' → resultOf c' (updCall c f g) = resultOf c' g.
Proof.
  intros Hf. unfold resultOf, updCall. cbn [g_calls]. destruct (decide (c = c')) as [->|Hne].
  - rewrite list_lookup_alter_eq. destruct (g_calls g !! c'); [|done]. cbn. destruct Hf as [Hf|]; [by rewrite Hf|done].
  - by rewrite list_lookup_alter_ne.
Qed.

Lemma resultOf_assign c v g : (c < length (g_calls g))%nat → resultOf c (assign c v g) = Some v.
Proof.
  intros Hc. unfold resultOf, assign, updCall. cbn [g_calls]. rewrite list_lookup_alter_eq.
  destruct (lookup_lt_is_Some_2 _ _ Hc) as [x ->]. done.
Qed.

Lemma awaited_result c g v : awaited c g = Some v → resultOf c g = Some v.
Proof. unfold awaited, resultOf. destruct (g_calls g !! c) as [x|]; [|done]. cbn. by destruct (c_done x). Qed.

(** ** The invariant *)

(** No return of [t'] precedes the call of [t]. *)
Definition overlaps (tr : list event) (t t' : nat) : Prop :=
  ∀ tr1 tr2 key, tr = tr1 ++ ECall t key :: tr2 → ∀ key' v, EReturn t' key' v ∉ tr1.

(** The result [v] of [t] for [key] comes from an execution by an overlapping
    call. *)
Definition justified (tr : list event) (t : nat) (key : K) (v : V) : Prop :=
  ∃ t' c, EFinish t' key c v ∈ tr ∧ overlaps tr t t'.

Definition threadOk (st : state) (tr : list event) (t : nat) (p : pc) : Prop :=
  match p with
  | Entering _ => True
  | Waiting key c => ∃ t', EStart t' key c ∈ tr ∧ overlaps tr t t'
  | Running key c => EStart t key c ∈ tr ∧ resultOf c (st_group st) = None
  | Assigned key c | Signalled key c => EStart t key c ∈ tr ∧ is_Some (resultOf c (st_group st))
  | Returned key v => justified tr t key v
  end.

Record Inv (st : state) (tr : list event) : Prop := {
  inv_owner t p key c : st_threads st !! t = Some p → owns p = Some (key, c) →
    g_m (st_group st) !! key = Some c ∧ (c < length (g_calls (st_group st)))%nat;
  inv_map key c : g_m (st_group st) !! key = Some c →
    ∃ t p, st_threads st !! t = Some p ∧ owns p = Some (key, c);
  inv_distinct t1 t2 p1 p2 k1 k2 c : st_threads st !! t1 = Some p1 → st_threads st !! t2 = Some p2 →
    owns p1 = Some (k1, c) → owns p2 = Some (k2, c) → t1 = t2;
  inv_thread t p : st_threads st !! t = Some p → threadOk st tr t p;
  inv_result c v : resultOf c (st_group st) = Some v → ∃ t key, EFinish t key c v ∈ tr;
  inv_finish t key c v : EFinish t key c v ∈ tr → EStart t key c ∈ tr;
  inv_start t key c t' key' : EStart t key c ∈ tr → EStart t' key' c ∈ tr → t = t' ∧ key = key';
  inv_started t key c : EStart t key c ∈ tr → (c < length (g_calls (st_group st)))%nat;
  inv_return t key v : EReturn t key v ∈ tr → st_threads st !! t = Some (Returned key v);
  inv_call t key : ECall t key ∈ tr → (t < length (st_threads st))%nat;
}.

Lemma overlaps_silent tr t t' : (∀ key v, EReturn t' key v ∉ tr) → overlaps tr t t'.
Proof. intros Hno tr1 tr2 key -> key' v Hin. apply (Hno key' v). set_solver. Qed.

Lemma overlaps_snoc tr t t' ev :
  (∀ e, ev = [e] → ∀ key, e ≠ ECall t key) → (length ev ≤ 1)%nat → overlaps tr t t' → overlaps (tr ++ ev) t t'.
Proof.
  intros Hev Hlen Ho. destruct ev as [|e [|? ?]]; [by rewrite app_nil_r| |simpl in Hlen; lia].
  intros tr1 tr2 key Heq key' v. destruct tr2 as [|e' tr2 _] using rev_ind.
  - apply app_inj_tail in Heq as [_ ->]. by destruct (Hev _ eq_refl key).
  - rewrite app_comm_cons, app_assoc in Heq. apply app_inj_tail in Heq as [-> _]. by apply (Ho tr1 tr2 key).
Qed.

(** What a thread knows stays true. *)
Lemma threadOk_mono st st' tr ev t p :
  (∀ e, ev = [e] → ∀ key, e ≠ ECall t key) → (length ev ≤ 1)%nat →
  (∀ key c, owns p = Some (key, c) → resultOf c (st_group st') = resultOf c (st_group st)) →
  threadOk st tr t p → threadOk st' (tr ++ ev) t p.
Proof.
  intros Hev Hlen Hres. destruct p; cbn [threadOk owns] in *; rewrite ?elem_of_app.
  - done.
  - intros (t'&Hs&Ho). exists t'. split; [rewrite elem_of_app; by left|by apply overlaps_snoc].
  - intros [? ?]. rewrite (Hres key c) by done. auto.
  - intros [? ?]. rewrite (Hres key c) by done. auto.
  - intros [? ?]. rewrite (Hres key c) by done. auto.
  - intros (t'&c&Hf&Ho). exists t', c. split; [rewrite elem_of_app; by left|by apply overlaps_snoc].
Qed.

Ltac lookups :=
  repeat match goal with
  | H : <[?t := ?p]> ?l !! ?t' = Some _ |- _ =>
      apply list_lookup_insert_Some in H as [(<-&<-&_)|[? H]]
  end.

(** Events of one thread that keep the trace well-formed. *)
Definition quietEvents (tr : list event) (t : nat) (p' : pc) (ev : list event) : Prop :=
  ev = [] ∨ (∃ key c v, ev = [EFinish t key c v] ∧ EStart t key c ∈ tr) ∨
  (∃ key v, ev = [EReturn t key v] ∧ p' = Returned key v).

Lemma quiet_no_call tr t p' ev e key t' : quietEvents tr t p' ev → ev = [e] → e ≠ ECall t' key.
Proof. intros [->|[(?&?&?&->&_)|(?&?&->&_)]]; naive_solver. Qed.

Lemma quiet_length tr t p' ev : quietEvents tr t p' ev → (length ev ≤ 1)%nat.
Proof. intros [->|[(?&?&?&->&_)|(?&?&->&_)]]; simpl; lia. Qed.

(** A step of one thread that does not start or end an execution. *)
Lemma flight_Inv_goto st tr ev t p p' g' :
  Inv st tr → st_threads st !! t = Some p → owns p' = owns p → (∀ key v, p ≠ Returned key v) →
  g_m g' = g_m (st_group st) → length (g_calls g') = length (g_calls (st_group st)) →
  quietEvents tr t p' ev →
  (∀ c v, resultOf c g' = Some v → ∃ t key, EFinish t key c v ∈ tr ++ ev) →
  (∀ t2 p2 key c, t2 ≠ t → st_threads st !! t2 = Some p2 → owns p2 = Some (key, c) →
     resultOf c g' = resultOf c (st_group st)) →
  threadOk (goto t p' g' st) (tr ++ ev) t p' →
  Inv (goto t p' g' st) (tr ++ ev).
Proof.
  intros [HA HB HC HT HR HF HS HSc HE HL] Hp Howns Hnr Hm Hlen Hev Hres Hsame Hok.
  assert (∀ t key c, EStart t key c ∈ tr ++ ev → EStart t key c ∈ tr) as Hstart.
  { intros t0 key c. rewrite elem_of_app. intros [?|Hin]; [done|].
    destruct Hev as [->|[(?&?&?&->&_)|(?&?&->&_)]]; set_solver. }
  split; unfold goto; cbn [st_group st_threads]; rewrite ?Hm, ?Hlen.
  - intros t0 p0 key c Ht0 Ho. lookups; [rewrite Howns in Ho|]; eauto.
  - intros key c Hk. destruct (HB key c Hk) as (t0&p0&Ht0&Ho0). destruct (decide (t0 = t)) as [->|].
    + exists t, p'. rewrite list_lookup_insert_eq by (by eapply lookup_lt_Some). rewrite Howns. naive_solver.
    + exists t0, p0. by rewrite list_lookup_insert_ne.
  - intros t1 t2 p1 p2 k1 k2 c H1 H2 Ho1 Ho2. lookups; rewrite ?Howns in *; eauto; try done.
  - intros t0 p0 Ht0. apply list_lookup_insert_Some in Ht0 as [(<-&<-&_)|[Hne Ht0]]; [exact Hok|].
    apply (threadOk_mono st); [intros e He key; by eapply quiet_no_call|by eapply quiet_length| |by apply HT].
    intros key c Ho. by eapply Hsame.
  - exact Hres.
  - intros t0 key c v. rewrite !elem_of_app. intros [Hin|Hin]; [left; eauto|].
    destruct Hev as [->|[(?&?&?&->&Hs)|(?&?&->&_)]]; set_solver.
  - intros t0 key c t0' key' H1%Hstart H2%Hstart. eauto.
  - intros t0 key c H1%Hstart. eauto.
  - intros t0 key v. rewrite elem_of_app. intros [Hin|Hin].
    + apply HE in Hin. rewrite list_lookup_insert_ne; [done|]. intros ->. naive_solver.
    + destruct Hev as [->|[(?&?&?&->&_)|(?&?&->&->)]]; [set_solver..|].
      apply list_elem_of_singleton in Hin as [= -> -> ->]. rewrite list_lookup_insert_eq; [done|]. by eapply lookup_lt_Some.
  - intros t0 key. rewrite elem_of_app, length_insert. intros [Hin|Hin]; [eauto|].
    destruct Hev as [->|[(?&?&?&->&_)|(?&?&->&_)]]; set_solver.
Qed.

(** Results across the updates of a call. *)
Lemma result_signal c c' g : resultOf c' (signal c g) = resultOf c' g.
Proof. apply resultOf_upd. by left. Qed.

Lemma result_assign_ne c c' v g : c ≠ c' → resultOf c' (assign c v g) = resultOf c' g.
Proof. intros. apply resultOf_upd. by right. Qed.

Lemma length_updCall c f g : length (g_calls (updCall c f g)) = length (g_calls g).
Proof. apply length_alter. Qed.

(** Distinct threads own distinct calls. *)
Lemma owner_ne st tr t t2 p p2 k1 k2 c c2 :
  Inv st tr → st_threads st !! t = Some p → st_threads st !! t2 = Some p2 → t2 ≠ t →
  owns p = Some (k1, c) → owns p2 = Some (k2, c2) → c ≠ c2.
Proof. intros HI H1 H2 Hne Ho1 Ho2 ->. apply Hne. by eapply (inv_distinct _ _ HI). Qed.

Lemma Inv_call st tr key :
  Inv st tr →
  Inv (State (st_group st) (st_threads st ++ [Entering key])) (tr ++ [ECall (length (st_threads st)) key]).
Proof.
  intros [HA HB HC HT HR HF HS HSc HE HL].
  assert (∀ t p, (st_threads st ++ [Entering key]) !! t = Some p →
    st_threads st !! t = Some p ∨ t = length (st_threads st) ∧ p = Entering key) as Hl.
  { intros t p [H1|[H1 H2]]%lookup_app_Some; [by left|]. apply list_lookup_singleton_Some in H2 as [H2 <-]. right. split; [lia|done]. }
  assert (∀ t p, st_threads st !! t = Some p → (st_threads st ++ [Entering key]) !! t = Some p) as Hl2.
  { intros t p Ht. by apply lookup_app_l_Some. }
  split; cbn [st_group st_threads].
  - intros t p k c [Ht|[-> ->]]%Hl Ho; eauto. done.
  - intros k c Hk. destruct (HB k c Hk) as (t&p&Ht&Ho). eauto.
  - intros t1 t2 p1 p2 k1 k2 c [H1|[-> ->]]%Hl [H2|[-> ->]]%Hl Ho1 Ho2; eauto; done.
  - intros t p [Ht|[-> ->]]%Hl; [|done]. apply HT in Ht as Hok.
    assert (t < length (st_threads st))%nat by (by eapply lookup_lt_Some).
    (* the call of a new thread leaves the overlaps of the others alone *)
    assert (∀ t', overlaps tr t t' → overlaps (tr ++ [ECall (length (st_threads st)) key]) t t') as Hov.
    { intros t'. apply overlaps_snoc; [|done]. intros e [= <-] k [= ? _]. lia. }
    destruct p; cbn [threadOk] in *; rewrite ?elem_of_app; try done.
    + destruct Hok as (t'&?&?). exists t'. rewrite elem_of_app. auto.
    + tauto.
    + tauto.
    + tauto.
    + destruct Hok as (t'&c&?&?). exists t', c. rewrite elem_of_app. auto.
  - intros c v Hv. destruct (HR c v Hv) as (t&k&Hin). exists t, k. rewrite elem_of_app. by left.
  - intros t k c v. rewrite !elem_of_app. intros [?|?]; [eauto|set_solver].
  - intros t k c t' k'. rewrite !elem_of_app. intros [?|?] [?|?]; [eauto|set_solver..].
  - intros t k c. rewrite elem_of_app. intros [?|?]; [eauto|set_solver].
  - intros t k v. rewrite elem_of_app. intros [?|?]; [eauto|set_solver].
  - intros t k. rewrite elem_of_app, length_app. cbn [length]. intros [Hin|Hin]; [apply HL in Hin; lia|].
    apply list_elem_of_singleton in Hin as [= -> _]. lia.
Qed.

Lemma flight_Inv_start st tr t key c g :
  Inv st tr → st_threads st !! t = Some (Entering key) → enter key (st_group st) = (c, true, g) →
  Inv (goto t (Running key c) g st) (tr ++ [EStart t key c]).
Proof.
  intros HI Ht He. apply enter_spec in He as [(?&_)|(_&Hnone&->&Hm&Hcalls)]; [done|].
  destruct HI as [HA HB HC HT HR HF HS HSc HE HL].
  set (c := length (g_calls (st_group st))) in *.
  assert (∀ c', resultOf c' g = if decide (c' = c) then None else resultOf c' (st_group st)) as Hres.
  { intros c'. unfold resultOf. rewrite Hcalls. destruct (decide (c' = c)) as [->|Hne].
    - unfold c. by rewrite list_lookup_middle.
    - destruct (decide (c' < c)%nat); [by rewrite lookup_app_l|]. rewrite !lookup_ge_None_2; [done| |].
      + unfold c in *. lia.
      + rewrite length_app. cbn [length]. unfold c in *. lia. }
  assert (∀ t' p k c', st_threads st !! t' = Some p → owns p = Some (k, c') → (c' < c)%nat) as Hlt.
  { intros t' p k c' Ht' Ho. by destruct (HA t' p k c' Ht' Ho). }
  split; unfold goto; cbn [st_group st_threads]; rewrite ?Hm.
  - intros t0 p0 k c0 Ht0 Ho. rewrite Hcalls, length_app. cbn [length]. lookups.
    + injection Ho as <- <-. rewrite lookup_insert_eq. split; [done|]. unfold c. lia.
    + destruct (HA t0 p0 k c0 Ht0 Ho) as [H1 H2]. rewrite lookup_insert_ne by congruence. split; [done|lia].
  - intros k c0 Hk. apply lookup_insert_Some in Hk as [[<- <-]|[Hne Hk]].
    + exists t, (Running key c). rewrite list_lookup_insert_eq by (by eapply lookup_lt_Some). done.
    + destruct (HB k c0 Hk) as (t0&p0&Ht0&Ho). exists t0, p0. rewrite list_lookup_insert_ne; [done|]. intros ->.
      rewrite Ht in Ht0. by injection Ht0 as <-.
  - intros t1 t2 p1 p2 k1 k2 c0 H1 H2 Ho1 Ho2. lookups; eauto; exfalso.
    + injection Ho2 as _ <-. specialize (Hlt _ _ _ _ H1 Ho1). lia.
    + injection Ho1 as _ <-. specialize (Hlt _ _ _ _ H2 Ho2). lia.
  - intros t0 p0 Ht0. lookups.
    + cbn [threadOk goto st_group]. split; [set_solver|]. rewrite Hres. by rewrite decide_True.
    + apply (threadOk_mono st); [by intros e [= <-]|simpl; lia| |by apply HT].
      intros k c0 Ho. cbn [st_group]. rewrite Hres, decide_False; [done|]. specialize (Hlt _ _ _ _ Ht0 Ho). lia.
  - intros c0 v. rewrite Hres. case_decide; [done|]. intros Hv. destruct (HR c0 v Hv) as (t0&k&Hin).
    exists t0, k. rewrite elem_of_app. by left.
  - intros t0 k c0 v. rewrite !elem_of_app. intros [?|?]; [eauto|set_solver].
  - intros t0 k c0 t0' k'. rewrite !elem_of_app, !list_elem_of_singleton. intros [H1|E1] [H2|E2]; [eauto|injection E2 as -> -> ->|injection E1 as -> -> ->|naive_solver].
    + apply HSc in H1. fold c in H1. lia.
    + apply HSc in H2. fold c in H2. lia.
  - intros t0 k c0. rewrite elem_of_app, list_elem_of_singleton, Hcalls, length_app. cbn [length].
    intros [H1|E1]; [apply HSc in H1; lia|injection E1 as -> -> ->; unfold c; lia].
  - intros t0 k v. rewrite elem_of_app. intros [Hin|Hin]; [|set_solver]. apply HE in Hin.
    rewrite list_lookup_insert_ne; [done|]. intros ->. congruence.
  - intros t0 k. rewrite elem_of_app, length_insert. intros [?|?]; [eauto|set_solver].
Qed.

Lemma Inv_delete st tr t key c v :
  Inv st tr → st_threads st !! t = Some (Signalled key c) → resultOf c (st_group st) = Some v →
  Inv (goto t (Returned key v) (remove key (st_group st)) st) (tr ++ [EReturn t key v]).
Proof.
  intros HI Ht Hv. pose proof HI as [HA HB HC HT HR HF HS HSc HE HL].
  destruct (HA t _ key c Ht eq_refl) as [Hkey Hc].
  assert (∀ t' p k c', t' ≠ t → st_threads st !! t' = Some p → owns p = Some (k, c') → k ≠ key) as Hother.
  { intros t' p k c' Hne Ht' Ho ->. destruct (HA t' p key c' Ht' Ho) as [Hk' _].
    assert (c' = c) as -> by congruence. apply Hne. by eapply HC. }
  split; unfold goto; cbn [st_group st_threads remove g_m g_calls].
  - intros t0 p0 k c0 Ht0 Ho. lookups; [done|]. rewrite lookup_delete_ne; [eauto|]. intros ->. by eapply Hother.
  - intros k c0 Hk. apply lookup_delete_Some in Hk as [Hne Hk]. destruct (HB k c0 Hk) as (t0&p0&Ht0&Ho).
    exists t0, p0. rewrite list_lookup_insert_ne; [done|]. intros ->. rewrite Ht in Ht0. injection Ht0 as <-. by injection Ho as ->.
  - intros t1 t2 p1 p2 k1 k2 c0 H1 H2 Ho1 Ho2. lookups; eauto; done.
  - intros t0 p0 Ht0. lookups.
    + cbn [threadOk]. destruct (HT t _ Ht) as [Hstart _]. destruct (HR c v Hv) as (t'&k'&Hin).
      destruct (HS _ _ _ _ _ (HF _ _ _ _ Hin) Hstart) as [-> ->].
      exists t, c. split; [rewrite elem_of_app; by left|]. apply overlaps_snoc; [by intros e [= <-]|simpl; lia|].
      apply overlaps_silent. intros k' v' Hret. apply HE in Hret. congruence.
    + apply (threadOk_mono st); [by intros e [= <-]|simpl; lia|done|by apply HT].
  - intros c0 v0 Hv0. destruct (HR c0 v0 Hv0) as (t0&k&Hin). exists t0, k. rewrite elem_of_app. by left.
  - intros t0 k c0 v0. rewrite !elem_of_app. intros [?|?]; [eauto|set_solver].
  - intros t0 k c0 t0' k'. rewrite !elem_of_app. intros [?|?] [?|?]; [eauto|set_solver..].
  - intros t0 k c0. rewrite elem_of_app. intros [?|?]; [eauto|set_solver].
  - intros t0 k v0. rewrite elem_of_app, list_elem_of_singleton. intros [Hin|[= -> -> ->]].
    + apply HE in Hin. rewrite list_lookup_insert_ne; [done|]. intros ->. congruence.
    + rewrite list_lookup_insert_eq; [done|]. by eapply lookup_lt_Some.
  - intros t0 k. rewrite elem_of_app, length_insert. intros [?|?]; [eauto|set_solver].
Qed.

Lemma flight_Inv_step st tr ev st' : Inv st tr → step st ev st' → Inv st' (tr ++ ev).
Proof.
  intros HI Hstep. pose proof HI as [HA HB HC HT HR HF HS HSc HE HL]. destruct Hstep as [key|t key c g Ht He|t key c g Ht He|t key c v Ht|t key c Ht|t key c v Ht Hv|t key c v Ht Hv].
  - by apply Inv_call.
  - apply enter_spec in He as [(_&Hm&->)|(?&_)]; [|done].
    destruct (HB key c Hm) as (t'&p'&Ht'&Ho').
    assert (EStart t' key c ∈ tr ∧ ∀ k v, EReturn t' k v ∉ tr) as [Hs Hnr].
    { pose proof (HT t' p' Ht') as Hok. split; [destruct p'; try done; injection Ho' as -> ->; apply Hok|].
      intros k v Hret. apply HE in Hret. rewrite Ht' in Hret. by injection Hret as ->. }
    eapply flight_Inv_goto; [exact HI|exact Ht|done..|by left| |done|].
    + rewrite app_nil_r. exact HR.
    + cbn [threadOk]. rewrite app_nil_r. exists t'. split; [done|]. by apply overlaps_silent.
  - by apply flight_Inv_start.
  - destruct (HT t _ Ht) as [Hs _]. destruct (HA t _ key c Ht eq_refl) as [_ Hc].
    eapply flight_Inv_goto; [exact HI|exact Ht|done..|apply length_updCall|right; left; eauto 10| | |].
    + intros c0 v0. destruct (decide (c = c0)) as [<-|Hne].
      * rewrite resultOf_assign by done. intros [= <-]. exists t, key. set_solver.
      * rewrite result_assign_ne by done. intros H0. destruct (HR c0 v0 H0) as (t0&k0&?). exists t0, k0. set_solver.
    + intros t2 p2 k2 c2 Hne Ht2 Ho2. apply result_assign_ne. by eapply (owner_ne st tr t t2).
    + cbn [threadOk goto st_group]. rewrite resultOf_assign by done. split; [set_solver|eauto].
  - destruct (HT t _ Ht) as [Hs Hr]. eapply flight_Inv_goto; [exact HI|exact Ht|done..|apply length_updCall|by left| | |].
    + intros c0 v0. rewrite result_signal, app_nil_r. apply HR.
    + intros. by rewrite result_signal.
    + cbn [threadOk goto st_group]. by rewrite result_signal, app_nil_r.
  - by eapply Inv_delete.
  - apply awaited_result in Hv. destruct (HT t _ Ht) as (t'&Hs&Ho). destruct (HR c v Hv) as (t0&k0&Hin).
    destruct (HS _ _ _ _ _ (HF _ _ _ _ Hin) Hs) as [-> ->].
    eapply flight_Inv_goto; [exact HI|exact Ht|done..|right; right; eauto| |done|].
    + intros c0 v0 H0. destruct (HR c0 v0 H0) as (t1&k1&?). exists t1, k1. set_solver.
    + cbn [threadOk]. exists t', c. split; [set_solver|]. apply overlaps_snoc; [by intros e [= <-]|simpl; lia|done].
Qed.

Lemma flight_reach_inv st tr : reach st tr → Inv st tr.
Proof.
  induction 1 as [|st tr ev st' _ IH Hstep]; [|by eapply flight_Inv_step].
  split; cbn; try (intros; set_solver). all: intros *; try by rewrite lookup_nil.
Qed.

(** ** Progress *)

(** A waiter's result is there, or the owner of its call has yet to signal. *)
Definition waits (st : state) (c : nat) (key : K) : Prop :=
  is_Some (awaited c (st_group st)) ∨
  ∃ t p, st_threads st !! t = Some p ∧ (p = Running key c ∨ p = Assigned key c).

Definition threadLive (st : state) (p : pc) : Prop :=
  match p with
  | Waiting key c => waits st c key
  | Signalled key c => is_Some (awaited c (st_group st))
  | _ => True
  end.

Definition live (st : state) : Prop := ∀ t p, st_threads st !! t = Some p → threadLive st p.

(** The steps that a goroutine has left. *)
Definition work1 (p : pc) : Z :=
  match p with
  | Entering _ => 4
  | Running _ _ => 3
  | Assigned _ _ => 2
  | Signalled _ _ | Waiting _ _ => 1
  | Returned _ _ => 0
  end.

Definition work (st : state) : Z := sumZ work1 (st_threads st).

Lemma awaited_upd c c' f g :
  (∀ x, c_done x = true → is_Some (c_res x) → c_done (f x) = true ∧ is_Some (c_res (f x))) →
  is_Some (awaited c' g) → is_Some (awaited c' (updCall c f g)).
Proof.
  intros Hf. unfold awaited, updCall. cbn [g_calls]. destruct (decide (c = c')) as [->|Hne].
  - rewrite list_lookup_alter_eq. destruct (g_calls g !! c') as [x|]; [|done]. cbn.
    destruct (c_done x) eqn:E; [|by intros [? ?]]. intros Hs. by destruct (Hf x E Hs) as [-> ?].
  - by rewrite list_lookup_alter_ne.
Qed.

Lemma awaited_signal c g : is_Some (resultOf c g) → is_Some (awaited c (signal c g)).
Proof.
  unfold awaited, resultOf, signal, updCall. cbn [g_calls]. rewrite list_lookup_alter_eq.
  by destruct (g_calls g !! c).
Qed.

Lemma awaited_enter key g c g' c' :
  enter key g = (c, true, g') → is_Some (awaited c' g) → is_Some (awaited c' g').
Proof.
  intros [(?&_)|(_&_&_&_&Hcalls)]%enter_spec; [done|]. unfold awaited. rewrite Hcalls.
  destruct (g_calls g !! c') as [x|] eqn:E; [|by intros [? ?]]. by rewrite (lookup_app_l_Some _ _ _ _ E).
Qed.

(** A step of one thread keeps the others live. *)
Lemma live_goto st t p p' g' :
  live st → st_threads st !! t = Some p → threadLive (goto t p' g' st) p' →
  (∀ c, is_Some (awaited c (st_group st)) → is_Some (awaited c g')) →
  (∀ key c, p = Running key c ∨ p = Assigned key c →
     p' = Running key c ∨ p' = Assigned key c ∨ is_Some (awaited c g')) →
  live (goto t p' g' st).
Proof.
  intros HL Ht Hp' Hmono Hown t0 p0 Ht0. unfold goto in Ht0. cbn [st_threads] in Ht0. lookups; [done|].
  specialize (HL t0 p0 Ht0). destruct p0; cbn [threadLive] in *; try done; [|by apply Hmono].
  destruct HL as [Hs|(t1&p1&Ht1&Hp1)]; [left; by apply Hmono|]. destruct (decide (t1 = t)) as [->|].
  - rewrite Ht in Ht1. injection Ht1 as <-. destruct (Hown _ _ Hp1) as [->|[->|?]]; [right|right|by left].
    all: eexists t, _; unfold goto; cbn [st_threads]; rewrite list_lookup_insert_eq by (by eapply lookup_lt_Some); auto.
  - right. exists t1, p1. unfold goto. cbn [st_threads]. by rewrite list_lookup_insert_ne.
Qed.

Lemma live_step st tr ev st' : Inv st tr → live st → step st ev st' → live st'.
Proof.
  intros HI HL Hstep. pose proof HI as [HA HB HC HT HR HF HS HSc HE HLn].
  destruct Hstep as [key|t key c g Ht He|t key c g Ht He|t key c v Ht|t key c Ht|t key c v Ht Hv|t key c v Ht Hv].
  - intros t p [Ht|[? Hp%list_lookup_singleton_Some]]%lookup_app_Some; cbn [st_threads] in *; [|by destruct Hp as [_ <-]].
    specialize (HL t p Ht). destruct p; cbn [threadLive] in *; try done.
    destruct HL as [?|(t1&p1&Ht1&?)]; [by left|right]. exists t1, p1. split; [by apply lookup_app_l_Some|done].
  - apply enter_spec in He as [(_&Hm&->)|(?&_)]; [|done]. destruct (HB key c Hm) as (t'&p'&Ht'&Ho').
    eapply live_goto; [done|exact Ht| |done|by intros ? ? [?|?]]. cbn [threadLive]. unfold waits, goto. cbn [st_group st_threads].
    assert (t' ≠ t) by (intros ->; rewrite Ht in Ht'; by injection Ht' as <-).
    pose proof (HL t' p' Ht') as Hl. destruct p'; try done; injection Ho' as -> ->.
    + right. exists t'. rewrite list_lookup_insert_ne by done. eauto.
    + right. exists t'. rewrite list_lookup_insert_ne by done. eauto.
    + left. exact Hl.
  - eapply live_goto; [done|exact Ht|done| |by intros ? ? [?|?]]. intros c'. by eapply awaited_enter.
  - eapply live_goto; [done|exact Ht|done| |]; [|intros k0 c0 [[= <- <-]|?]; [auto|done]].
    intros c'. apply awaited_upd. intros x Hd _. cbn. split; [done|eauto].
  - destruct (HT t _ Ht) as [_ Hr]. assert (is_Some (awaited c (signal c (st_group st)))) by by apply awaited_signal.
    eapply live_goto; [done|exact Ht|done| |]; [|intros k0 c0 [?|[= <- <-]]; [done|auto]].
    intros c'. apply awaited_upd. intros x _ Hs. by cbn.
  - eapply live_goto; [done|exact Ht|done|done|by intros ? ? [?|?]].
  - eapply live_goto; [done|exact Ht|done|done|by intros ? ? [?|?]].
Qed.

Lemma reach_live st tr : reach st tr → live st.
Proof.
  induction 1 as [|st tr ev st' Hr IH Hstep]; [intros t p Ht; cbn [st_threads] in Ht; by rewrite lookup_nil in Ht|].
  eapply live_step; [by apply flight_reach_inv|done|done].
Qed.

Lemma work_goto st t p p' g : st_threads st !! t = Some p → work (goto t p' g st) = work st - work1 p + work1 p'.
Proof. intros Ht. unfold work, goto. cbn [st_threads]. by apply sumZ_insert. Qed.

Lemma step_works st ev st' :
  step st ev st' → (∀ t key, ev ≠ [ECall t key]) → work st' < work st.
Proof.
  destruct 1 as [key|t key c g Ht He|t key c g Ht He|t key c v Ht|t key c Ht|t key c v Ht Hv|t key c v Ht Hv]; intros Hev.
  { by destruct (Hev (length (st_threads st)) key). }
  all: rewrite (work_goto _ _ _ _ _ Ht); cbn [work1]; lia.
Qed.

End group.

Arguments call _ : clear implicits.
Arguments group _ _ {_ _}.
Arguments pc _ _ : clear implicits.
Arguments state _ _ {_ _}.
Arguments event _ _ : clear implicits.

(** ** Properties *)

(** C6. Duplicate suppression, under every interleaving of the callers: two
    goroutines never execute functions for the same key at the same time, and
    what [Do] returns is what the function of some execution for that key
    returned, one whose own call of [Do] had not returned when this caller
    called. (The entry leaves the map after the result is signalled, so a
    caller can be given a result that was computed before it called.) *)
Theorem Do_suppresses_duplicates {K V : Type} `{Countable K} (st : state K V) (tr : list (event K V)) :
  reach st tr →
  (∀ t1 t2 key c1 c2, st_threads st !! t1 = Some (Running key c1) →
     st_threads st !! t2 = Some (Running key c2) → t1 = t2) ∧
  (∀ t key v, st_threads st !! t = Some (Returned key v) →
     ∃ t' c, EFinish t' key c v ∈ tr ∧ overlaps tr t t').
Proof.
  intros Hr%flight_reach_inv. pose proof Hr as [HA HB HC HT HR HF HS HSc HE HL]. split.
  - intros t1 t2 key c1 c2 H1 H2. destruct (HA t1 _ key c1 H1 eq_refl) as [Hk1 _].
    destruct (HA t2 _ key c2 H2 eq_refl) as [Hk2 _]. assert (c1 = c2) as -> by congruence. by eapply HC.
  - intros t key v Ht. exact (HT t _ Ht).
Qed.

(** C17. No caller is left waiting: once no new calls are made every step of
    the goroutines brings the group nearer to rest, and while some goroutine
    has not returned from [Do] one of them can make a step, whatever the
    functions return. *)
Theorem Do_returns {K V : Type} `{Countable K} (v0 : V) (st : state K V) (tr : list (event K V)) :
  reach st tr →
  (∀ ev st', step st ev st' → (∀ t key, ev ≠ [ECall t key]) → 0 ≤ work st' < work st) ∧
  ((∃ t p, st_threads st !! t = Some p ∧ ∀ key v, p ≠ Returned key v) →
     ∃ ev st', step st ev st' ∧ ∀ t key, ev ≠ [ECall t key]).
Proof.
  intros Hr. split.
  { intros ev st' Hs Hev. split; [apply sumZ_nonneg; by intros []|by eapply step_works]. }
  apply reach_live in Hr as HL. apply flight_reach_inv in Hr as HI. intros (t&p&Ht&Hp).
  assert (∀ t p, st_threads st !! t = Some p → (∃ key c, p = Running key c ∨ p = Assigned key c) →
    ∃ ev st', step st ev st' ∧ ∀ t key, ev ≠ [ECall t key]) as Hown.
  { intros t0 p0 Ht0 (key&c&[->| ->]).
    - eexists _, _. split; [by apply (StepAssign st t0 key c v0)|done].
    - eexists _, _. split; [by apply (StepSignal st t0 key c)|done]. }
  destruct p as [key|key c|key c|key c|key c|key v].
  - destruct (enter key (st_group st)) as [[c [|]] g] eqn:E.
    + eexists _, _. split; [by eapply StepStart|done].
    + eexists _, _. split; [by eapply StepJoin|done].
  - destruct (HL t _ Ht) as [[v Hv]|(t'&p'&Ht'&Hp')]; [|by eauto].
    eexists _, _. split; [by eapply StepWait|done].
  - by eauto 10.
  - by eauto 10.
  - destruct (HL t _ Ht) as [v Hv%awaited_result]. eexists _, _. split; [by eapply StepDelete|done].
  - by destruct (Hp key v).
Qed.


(** Two callers of one key: the second waits and gets the first one's result. *)
Lemma demo_reach :
  ∃ (st : state nat Z) tr, reach st tr ∧ st_threads st = [Returned 0%nat 7; Returned 0%nat 7] ∧
    tr = [ECall 0 0%nat; ECall 1 0%nat; EStart 0 0%nat 0; EFinish 0 0%nat 0 7; EReturn 0 0%nat 7; EReturn 1 0%nat 7].
Proof.
  pose proof (@ReachInit nat Z _ _) as H.
  eapply ReachStep in H; [|apply (StepCall _ 0%nat)]. eapply ReachStep in H; [|apply (StepCall _ 0%nat)].
  eapply ReachStep in H; [|by eapply (StepStart _ 0%nat 0%nat)].
  eapply ReachStep in H; [|by eapply (StepJoin _ 1%nat 0%nat)].
  eapply ReachStep in H; [|by eapply (StepAssign _ 0%nat 0%nat 0%nat 7)].
  eapply ReachStep in H; [|by eapply (StepSignal _ 0%nat 0%nat 0%nat)].
  eapply ReachStep in H; [|by eapply (StepDelete _ 0%nat 0%nat 0%nat 7)].
  eapply ReachStep in H; [|by eapply (StepWait _ 1%nat 0%nat 0%nat 7)].
  eexists _, _. split; [exact H|]. split; reflexivity.
Qed.

Lemma Do_suppresses_duplicates_witness :
  ∃ (st : state nat Z) tr, reach st tr ∧ st_threads st !! 1%nat = Some (Returned 0%nat 7) ∧
    ∃ t' c, EFinish t' 0%nat c 7 ∈ tr ∧ overlaps tr 1 t'.
Proof.
  destruct demo_reach as (st&tr&Hr&Hth&_). exists st, tr. split; [exact Hr|]. rewrite Hth. split; [reflexivity|].
  destruct (Do_suppresses_duplicates st tr Hr) as [_ H]. apply (H 1%nat 0%nat 7). by rewrite Hth.
Defined.

Lemma Do_returns_witness :
  ∃ (st : state nat Z), st_threads st = [Entering 3%nat] ∧ ∃ ev st', step st ev st' ∧ ∀ t key, ev ≠ [ECall t key].
Proof.
  pose proof (@ReachInit nat Z _ _) as H. eapply ReachStep in H; [|apply (StepCall _ 3%nat)].
  eexists. split; [|eapply (Do_returns 0 _ _ H)]; [reflexivity|]. exists 0%nat, (Entering 3%nat). done.
Defined.
