(* ===== verification/SingleReader.v ===== *)
(** * readerutil/singlereader: shared file descriptors

    opener.go. [Open] calls [singleflight.Group.Do] with a function that opens
    the file: the machine below runs the group's critical sections
    ([SingleFlight]) and those of [openFileMu] in any order. Opening and
    closing a [wkfs.File] are single actions that may fail. *)
From S2P Require Import Prelude.
From S2P Require Import SingleFlight.

Section opener.
Context {K E : Type} `{Countable K}.

(** ** State *)

(** An [openFile]; [of_closed] counts the calls of its [File.Close]. *)
Record openFile := OpenFile { of_path : K; of_refs : Z; of_closed : Z }.

Record openFileHandle := OpenFileHandle { h_closed : bool; h_file : nat }.

(** What the function given to [Do] returns: an error or an [*openFile]. *)
Abbreviation opened := (E + nat)%type.

(** Where a goroutine is in [Open] or [Close]. *)
Inductive pc :=
| Opening (path : K)                               (* before openFileMu.Lock *)
| Missed (path : K)                                (* before openerGroup.Do *)
| Waiting (path : K) (c : nat)                     (* duplicate call, in c.wg.Wait *)
| InFn (path : K) (c : nat)                        (* before wkfs.Open *)
| FnOpened (path : K) (c : nat) (f : nat)          (* before openFiles[path] = of *)
| FnReturned (path : K) (c : nat) (r : opened)     (* before c.val, c.err = r *)
| Assigned (path : K) (c : nat) (r : opened)       (* before c.wg.Done *)
| Signalled (path : K) (c : nat) (r : opened)      (* before delete(g.m, key) *)
| Suppressed (path : K) (f : nat)                  (* Do returned, not winner *)
| Opened (path : K) (h : nat)                      (* Open returned a handle *)
| Failed (path : K) (e : E)                        (* Open returned an error *)
| Closing (h : nat)                                (* Close, before the lock *)
| ClosingFile (f : nat)                            (* before f.openFile.File.Close *)
| Closed.

Record state := State {
  s_group : group K opened;
  s_open : gmap K nat;            (* openFiles *)
  s_files : list openFile;
  s_handles : list openFileHandle;
  s_threads : list pc;
}.

Definition initial : state := State emptyGroup ∅ [] [] [].

(** ** Operations *)

Definition addThread (p : pc) (st : state) : state :=
  State (s_group st) (s_open st) (s_files st) (s_handles st) (s_threads st ++ [p]).

Definition goto (t : nat) (p : pc) (st : state) : state :=
  State (s_group st) (s_open st) (s_files st) (s_handles st) (<[t := p]> (s_threads st)).

Definition setGroup (g : group K opened) (st : state) : state :=
  State g (s_open st) (s_files st) (s_handles st) (s_threads st).

(** [of.refCount += n] *)
Definition addRef (n : Z) (f : nat) (st : state) : state :=
  State (s_group st) (s_open st)
    (alter (λ x, OpenFile (of_path x) (of_refs x + n) (of_closed x)) f (s_files st))
    (s_handles st) (s_threads st).

(** [&openFile{File: f, path: path, refCount: 1}] *)
Definition newFile (path : K) (st : state) : nat * state :=
  (length (s_files st),
   State (s_group st) (s_open st) (s_files st ++ [OpenFile path 1 0]) (s_handles st) (s_threads st)).

(** [&openFileHandle{false, of}] *)
Definition newHandle (f : nat) (st : state) : nat * state :=
  (length (s_handles st),
   State (s_group st) (s_open st) (s_files st) (s_handles st ++ [OpenFileHandle false f]) (s_threads st)).

Definition setOpen (m : gmap K nat) (st : state) : state :=
  State (s_group st) m (s_files st) (s_handles st) (s_threads st).

(** The first critical section of [Open]: a handle, or nothing. *)
Definition openFast (path : K) (st : state) : option (nat * state) :=
  match s_open st !! path with
  | Some f => Some (newHandle f (addRef 1 f st))
  | None => None
  end.

(** The last one, of a goroutine whose open was suppressed; [None] is a retry. *)
Definition openSuppressed (f : nat) (st : state) : option (nat * state) :=
  x ← s_files st !! f;
  if of_refs x =? 0 then None else Some (newHandle f (addRef 1 f st)).

Definition setClosed (h : nat) (st : state) : state :=
  State (s_group st) (s_open st) (s_files st)
    (alter (λ x, OpenFileHandle true (h_file x)) h (s_handles st)) (s_threads st).

(** The critical section of [Close]: the file that is to be closed, if any.
    [None] is the panic. *)
Definition closeLocked (h : nat) (st : state) : option (option nat * state) :=
  hd ← s_handles st !! h;
  if h_closed hd : bool then Some (None, st)
  else
    x ← s_files st !! h_file hd;
    let st' := addRef (-1) (h_file hd) (setClosed h st) in
    if of_refs x - 1 <? 0 then None
    else if of_refs x - 1 =? 0 then Some (Some (h_file hd), setOpen (delete (of_path x) (s_open st')) st')
    else Some (None, st').

(** [File.Close()] *)
Definition closeFile (f : nat) (st : state) : state :=
  State (s_group st) (s_open st)
    (alter (λ x, OpenFile (of_path x) (of_refs x) (of_closed x + 1)) f (s_files st))
    (s_handles st) (s_threads st).

(** ** Steps *)

Definition closePc (o : option nat) : pc := match o with Some f => ClosingFile f | None => Closed end.

Definition inThread (st : state) (t : nat) (p : pc) : Prop := s_threads st !! t = Some p.

Inductive step (st : state) : state → Prop :=
| StepOpen path : step st (addThread (Opening path) st)
| StepFast t path h st' :
    inThread st t (Opening path) → openFast path st = Some (h, st') →
    step st (goto t (Opened path h) st')
| StepMiss t path :
    inThread st t (Opening path) → openFast path st = None → step st (goto t (Missed path) st)
| StepJoin t path c g :
    inThread st t (Missed path) → enter path (s_group st) = (c, false, g) →
    step st (goto t (Waiting path c) (setGroup g st))
| StepStart t path c g :
    inThread st t (Missed path) → enter path (s_group st) = (c, true, g) →
    step st (goto t (InFn path c) (setGroup g st))
| StepFnOpen t path c f st' :
    inThread st t (InFn path c) → newFile path st = (f, st') →
    step st (goto t (FnOpened path c f) st')
| StepFnFail t path c e :
    inThread st t (InFn path c) → step st (goto t (FnReturned path c (inl e)) st)
| StepInsert t path c f :
    inThread st t (FnOpened path c f) →
    step st (goto t (FnReturned path c (inr f)) (setOpen (<[path := f]> (s_open st)) st))
| StepAssign t path c r :
    inThread st t (FnReturned path c r) →
    step st (goto t (Assigned path c r) (setGroup (assign c r (s_group st)) st))
| StepSignal t path c r :
    inThread st t (Assigned path c r) →
    step st (goto t (Signalled path c r) (setGroup (signal c (s_group st)) st))
| StepWinnerFails t path c r e :
    inThread st t (Signalled path c r) → resultOf c (s_group st) = Some (inl e) →
    step st (goto t (Failed path e) (setGroup (remove path (s_group st)) st))
| StepWinner t path c r f h st' :
    inThread st t (Signalled path c r) → resultOf c (s_group st) = Some (inr f) →
    newHandle f (setGroup (remove path (s_group st)) st) = (h, st') →
    step st (goto t (Opened path h) st')
| StepWaitFails t path c e :
    inThread st t (Waiting path c) → awaited c (s_group st) = Some (inl e) →
    step st (goto t (Failed path e) st)
| StepWait t path c f :
    inThread st t (Waiting path c) → awaited c (s_group st) = Some (inr f) →
    step st (goto t (Suppressed path f) st)
| StepSuppressed t path f h st' :
    inThread st t (Suppressed path f) → openSuppressed f st = Some (h, st') →
    step st (goto t (Opened path h) st')
| StepRetry t path f :
    inThread st t (Suppressed path f) → openSuppressed f st = None →
    step st (goto t (Opening path) st)
| StepClose h : (h < length (s_handles st))%nat → step st (addThread (Closing h) st)
| StepCloseLocked t h o st' :
    inThread st t (Closing h) → closeLocked h st = Some (o, st') →
    step st (goto t (closePc o) st')
| StepCloseFile t f :
    inThread st t (ClosingFile f) → step st (goto t Closed (closeFile f st)).

Inductive reach : state → Prop :=
| ReachInit : reach initial
| ReachStep st st' : reach st → step st st' → reach st'.

(** ** The invariant *)

Definition hasPath (st : state) (f : nat) (path : K) : Prop :=
  ∃ x, s_files st !! f = Some x ∧ of_path x = path.

(** References: the open handles, and the goroutines between opening a file
    and making its handle. *)
Definition held (f : nat) (hd : openFileHandle) : bool := negb (h_closed hd) && (h_file hd =? f)%nat.
Definition holds (f : nat) (p : pc) : bool :=
  match p with
  | FnOpened _ _ f' | FnReturned _ _ (inr f') | Assigned _ _ (inr f') | Signalled _ _ (inr f') => (f' =? f)%nat
  | _ => false
  end.
Definition closes (f : nat) (p : pc) : bool := match p with ClosingFile f' => (f' =? f)%nat | _ => false end.

Definition handleRefs (f : nat) (st : state) : Z := sumZ (λ x, b2n (held f x)) (s_handles st).
Definition threadRefs (f : nat) (st : state) : Z := sumZ (λ p, b2n (holds f p)) (s_threads st).
Definition closings (f : nat) (st : state) : Z := sumZ (λ p, b2n (closes f p)) (s_threads st).

(** The count is the number of references, and a file without one has been
    closed once, or is about to be. *)
Definition fileOk (st : state) (f : nat) : Prop :=
  match s_files st !! f with
  | Some x => of_refs x = handleRefs f st + threadRefs f st ∧
      of_closed x + closings f st = b2n (of_refs x =? 0) ∧ 0 ≤ of_closed x
  | None => handleRefs f st + threadRefs f st = 0 ∧ closings f st = 0
  end.

Definition ownsCall (p : pc) : option nat :=
  match p with
  | InFn _ c | FnOpened _ c _ | FnReturned _ c _ | Assigned _ c _ | Signalled _ c _ => Some c
  | _ => None
  end.

Definition goodResult (st : state) (path : K) (r : opened) : Prop := ∀ f, r = inr f → hasPath st f path.

(** [keys] lists the key of every call that was ever made of the group. *)
Definition pcOk (keys : list K) (st : state) (p : pc) : Prop :=
  match p with
  | Opening _ | Missed _ | Failed _ _ | ClosingFile _ | Closed => True
  | Waiting path c | InFn path c => keys !! c = Some path
  | FnOpened path c f => keys !! c = Some path ∧ hasPath st f path
  | FnReturned path c r => keys !! c = Some path ∧ goodResult st path r
  | Assigned path c r | Signalled path c r =>
      keys !! c = Some path ∧ goodResult st path r ∧ resultOf c (s_group st) = Some r
  | Suppressed path f => hasPath st f path
  | Opened path h => ∃ hd, s_handles st !! h = Some hd ∧ hasPath st (h_file hd) path
  | Closing h => is_Some (s_handles st !! h)
  end.

Definition openOk (st : state) : Prop := ∀ path f,
  s_open st !! path = Some f → ∃ x, s_files st !! f = Some x ∧ of_path x = path ∧ 0 < of_refs x.

Record groupOk (keys : list K) (st : state) : Prop := {
  go_length : length keys = length (g_calls (s_group st));
  go_map path c : g_m (s_group st) !! path = Some c → keys !! c = Some path;
  go_result c f : resultOf c (s_group st) = Some (inr f) → ∃ path, keys !! c = Some path ∧ hasPath st f path;
}.

Record Inv (keys : list K) (st : state) : Prop := {
  iv_file f : fileOk st f;
  iv_open : openOk st;
  iv_group : groupOk keys st;
  iv_pc t p : inThread st t p → pcOk keys st p;
  iv_owner t1 t2 p1 p2 c : inThread st t1 p1 → inThread st t2 p2 →
    ownsCall p1 = Some c → ownsCall p2 = Some c → t1 = t2;
}.

(** What the steps of one goroutine leave to the others. *)
Record frame (keys : list K) (st : state) (keys' : list K) (st' : state) : Prop := {
  fr_keys c path : keys !! c = Some path → keys' !! c = Some path;
  fr_path f path : hasPath st f path → hasPath st' f path;
  fr_handle h hd : s_handles st !! h = Some hd → ∃ hd', s_handles st' !! h = Some hd' ∧ h_file hd' = h_file hd;
}.

Lemma frame_refl keys st g m : frame keys st keys (State g m (s_files st) (s_handles st) (s_threads st)).
Proof. split; eauto. Qed.

Lemma pcOk_frame keys st keys' st' p :
  frame keys st keys' st' →
  (∀ c, ownsCall p = Some c → resultOf c (s_group st') = resultOf c (s_group st)) →
  pcOk keys st p → pcOk keys' st' p.
Proof.
  intros [Hk Hp Hh] Hr. destruct p; cbn [pcOk ownsCall] in *; unfold goodResult; try (by eauto).
  - intros [? ?]. split; [by apply Hk|by apply Hp].
  - intros [? Hg]. split; [by apply Hk|]. intros f Hf. by apply Hp, Hg.
  - intros (?&Hg&?). rewrite (Hr c eq_refl). split_and!; [by apply Hk| |done]. intros f Hf. by apply Hp, Hg.
  - intros (?&Hg&?). rewrite (Hr c eq_refl). split_and!; [by apply Hk| |done]. intros f Hf. by apply Hp, Hg.
  - intros (hd&Hhd&?). destruct (Hh h hd Hhd) as (hd'&?&Heq). exists hd'. rewrite Heq. auto.
  - intros [hd Hhd]. destruct (Hh h hd Hhd) as (hd'&?&?). eauto.
Qed.

Lemma ownsCall_key keys st p c : pcOk keys st p → ownsCall p = Some c → is_Some (keys !! c).
Proof. destruct p; cbn; intros Hok [= <-]; destruct_and?; eauto. all: destruct Hok; eauto. Qed.

(** A step of goroutine [t] from [p] to [p'] with the shared state [st']. *)
Lemma opener_Inv_goto keys st t p keys' st' p' :
  Inv keys st → inThread st t p → s_threads st' = s_threads st →
  frame keys st keys' st' →
  (∀ c, ownsCall p ≠ Some c → is_Some (keys !! c) → resultOf c (s_group st') = resultOf c (s_group st)) →
  (∀ c, ownsCall p' = Some c → ownsCall p = Some c ∨ keys !! c = None) →
  (∀ f, fileOk (goto t p' st') f) → openOk st' → groupOk keys' st' → pcOk keys' st' p' →
  Inv keys' (goto t p' st').
Proof.
  intros [HF HO HG HP HW] Ht Hth Hfr Hres Hown HF' HO' [HG1 HG2 HG3] HP'.
  assert (∀ t0 p0, inThread (goto t p' st') t0 p0 → t0 = t ∧ p0 = p' ∨ t0 ≠ t ∧ inThread st t0 p0) as Hin.
  { intros t0 p0 H0. unfold inThread, goto in H0. cbn [s_threads] in H0. rewrite Hth in H0.
    apply list_lookup_insert_Some in H0 as [(<-&<-&_)|[? H0]]; [by left|right]. split; [congruence|done]. }
  assert (∀ t0 p0 c, t0 ≠ t → inThread st t0 p0 → ownsCall p0 = Some c → ownsCall p ≠ Some c ∧ is_Some (keys !! c)) as Hoth.
  { intros t0 p0 c Hne H0 Hc. split; [|eapply ownsCall_key; [by eapply HP|done]]. intros Hp. apply Hne. by eapply HW. }
  split.
  - exact HF'.
  - exact HO'.
  - by split.
  - intros t0 p0 [[-> ->]|[Hne H0]]%Hin; [exact HP'|]. change (pcOk keys' st' p0).
    apply (pcOk_frame keys st); [done| |by eapply HP]. intros c Hc. destruct (Hoth t0 p0 c Hne H0 Hc). by apply Hres.
  - intros t1 t2 p1 p2 c [[-> ->]|[Hne1 H1]]%Hin [[-> ->]|[Hne2 H2]]%Hin Hc1 Hc2; [done|exfalso..|by eapply HW].
    + destruct (Hoth t2 p2 c Hne2 H2 Hc2) as [Hn [k Hk]]. destruct (Hown c Hc1); [done|congruence].
    + destruct (Hoth t1 p1 c Hne1 H1 Hc1) as [Hn [k Hk]]. destruct (Hown c Hc2); [done|congruence].
Qed.

(** The sums after a step. *)
Lemma threadRefs_goto f st t p p' st' :
  inThread st t p → s_threads st' = s_threads st →
  threadRefs f (goto t p' st') = threadRefs f st - b2n (holds f p) + b2n (holds f p').
Proof. intros Ht Hth. unfold threadRefs, goto. cbn [s_threads]. rewrite Hth. exact (sumZ_insert _ _ _ p p' Ht). Qed.

Lemma closings_goto f st t p p' st' :
  inThread st t p → s_threads st' = s_threads st →
  closings f (goto t p' st') = closings f st - b2n (closes f p) + b2n (closes f p').
Proof. intros Ht Hth. unfold closings, goto. cbn [s_threads]. rewrite Hth. exact (sumZ_insert _ _ _ p p' Ht). Qed.

Lemma fileOk_goto st t p p' st' f :
  inThread st t p → s_threads st' = s_threads st → s_files st' = s_files st → s_handles st' = s_handles st →
  holds f p' = holds f p → closes f p' = closes f p → fileOk st f → fileOk (goto t p' st') f.
Proof.
  intros Ht Hth Hfi Hha Hh Hc. unfold fileOk. rewrite (threadRefs_goto f st t p p' st'), (closings_goto f st t p p' st') by done.
  unfold handleRefs, goto. cbn [s_handles s_files]. rewrite Hfi, Hha, Hh, Hc.
  destruct (s_files st !! f); rewrite !Z.sub_add; done.
Qed.

(** Steps that change the group and the goroutine only. *)
Lemma Inv_group keys st t p keys' g' p' :
  Inv keys st → inThread st t p →
  (∀ c path, keys !! c = Some path → keys' !! c = Some path) →
  (∀ c, ownsCall p ≠ Some c → is_Some (keys !! c) → resultOf c g' = resultOf c (s_group st)) →
  (∀ c, ownsCall p' = Some c → ownsCall p = Some c ∨ keys !! c = None) →
  (∀ f, holds f p' = holds f p) → (∀ f, closes f p' = closes f p) →
  groupOk keys' (setGroup g' st) → pcOk keys' (setGroup g' st) p' →
  Inv keys' (goto t p' (setGroup g' st)).
Proof.
  intros HI Ht Hk Hr Hown Hh Hc HG HP. eapply opener_Inv_goto; [exact HI|exact Ht|done| |done|done| |apply HI|done|done].
  - split; [done|done|eauto].
  - intros f. eapply fileOk_goto; [exact Ht|done..|apply HI].
Qed.

Lemma setGroup_same st : setGroup (s_group st) st = st.
Proof. by destruct st. Qed.

(** Steps that change the goroutine only. *)
Lemma Inv_pc keys st t p p' :
  Inv keys st → inThread st t p →
  (∀ c, ownsCall p' = Some c → ownsCall p = Some c) →
  (∀ f, holds f p' = holds f p) → (∀ f, closes f p' = closes f p) → pcOk keys st p' →
  Inv keys (goto t p' st).
Proof.
  intros HI Ht Hown Hh Hc HP. rewrite <-(setGroup_same st). eapply Inv_group; [exact HI|exact Ht|done|done|auto|done|done| |].
  - rewrite setGroup_same. apply HI.
  - by rewrite setGroup_same.
Qed.

Lemma Inv_addThread keys st p :
  Inv keys st → ownsCall p = None → (∀ f, holds f p = false) → (∀ f, closes f p = false) → pcOk keys st p →
  Inv keys (addThread p st).
Proof.
  intros [HF HO HG HP HW] Hown Hh Hc Hok.
  assert (∀ t0 p0, inThread (addThread p st) t0 p0 → inThread st t0 p0 ∨ p0 = p) as Hin.
  { intros t0 p0 [H0|[_ H0]]%lookup_app_Some; [by left|right]. by apply list_lookup_singleton_Some in H0 as [_ <-]. }
  split; [|exact HO|by destruct HG; split| |].
  - intros f. specialize (HF f). unfold fileOk, threadRefs, closings, addThread in *. cbn [s_files s_threads] in *.
    rewrite !sumZ_app, !sumZ_cons, Hh, Hc. cbn [b2n sumZ foldr]. rewrite !Z.add_0_r. exact HF.
  - intros t0 p0 [H0| ->]%Hin; [by eapply HP|done].
  - intros t1 t2 p1 p2 c [H1| ->]%Hin [H2| ->]%Hin Hc1 Hc2; try congruence. by eapply HW.
Qed.

Lemma threadRefs_pos f st t p : inThread st t p → b2n (holds f p) ≤ threadRefs f st.
Proof. apply sumZ_b2n_lookup. Qed.

Lemma handleRefs_pos f st h hd : s_handles st !! h = Some hd → b2n (held f hd) ≤ handleRefs f st.
Proof. apply sumZ_b2n_lookup. Qed.

Lemma closings_nonneg f st : 0 ≤ closings f st.
Proof. apply sumZ_nonneg. intros p. by destruct (closes f p). Qed.

Lemma closings_pos f st t : inThread st t (ClosingFile f) → 1 ≤ closings f st.
Proof.
  intros Ht. pose proof (sumZ_b2n_lookup (closes f) _ _ _ Ht) as Hs. cbn [closes] in Hs. by rewrite Nat.eqb_refl in Hs.
Qed.

Lemma refs_nonneg f st : 0 ≤ handleRefs f st ∧ 0 ≤ threadRefs f st.
Proof. split; apply sumZ_nonneg; intros p; [by destruct (held f p)|by destruct (holds f p)]. Qed.

Lemma addRef_lookup n f st f' :
  s_files (addRef n f st) !! f' =
    if decide (f' = f) then (λ x, OpenFile (of_path x) (of_refs x + n) (of_closed x)) <$> s_files st !! f
    else s_files st !! f'.
Proof. unfold addRef. cbn [s_files]. case_decide; [subst; apply list_lookup_alter_eq|by apply list_lookup_alter_ne]. Qed.

Lemma addRef_path n f st f' path : hasPath st f' path → hasPath (addRef n f st) f' path.
Proof.
  intros (x&Hx&Hp). unfold hasPath. rewrite addRef_lookup. case_decide; [subst f'|by eauto].
  rewrite Hx. eexists. by split.
Qed.

(** Files never lose their path. *)
Lemma groupOk_frame keys st st' :
  s_group st' = s_group st → (∀ f path, hasPath st f path → hasPath st' f path) → groupOk keys st → groupOk keys st'.
Proof.
  intros Hg Hp [H1 H2 H3]. split; rewrite Hg; try done. intros c f Hr. destruct (H3 c f Hr) as (path&?&?). eauto.
Qed.

Lemma handleRefs_newHandle f f0 n st :
  handleRefs f0 (newHandle f (addRef n f st)).2 = handleRefs f0 st + b2n (f =? f0)%nat.
Proof. unfold handleRefs, newHandle, addRef. cbn [snd s_handles]. rewrite sumZ_app, sumZ_cons. cbn. lia. Qed.

(** A goroutine makes a handle, and adds the reference it does not have yet. *)
Lemma Inv_newHandle keys st t p path f n x :
  Inv keys st → inThread st t p → s_files st !! f = Some x → of_path x = path → 0 < of_refs x →
  n = 1 - b2n (holds f p) → (∀ f0, f0 ≠ f → holds f0 p = false) → (∀ f0, closes f0 p = false) →
  Inv keys (goto t (Opened path (newHandle f (addRef n f st)).1) (newHandle f (addRef n f st)).2).
Proof.
  intros HI Ht Hx Hpath Hpos Hn Hh Hc. pose proof HI as [HF HO HG HP HW].
  assert (0 ≤ n) by (subst n; destruct (holds f p); cbn; lia).
  eapply opener_Inv_goto; [exact HI|exact Ht|done| |done|done| | | |].
  - split; [done|by intros ? ?; apply addRef_path|]. intros h hd Hhd. exists hd. split; [by apply lookup_app_l_Some|done].
  - intros f0. specialize (HF f0). unfold fileOk in *. rewrite (threadRefs_goto _ st t p), (closings_goto _ st t p) by done.
    change (handleRefs f0 (goto ?t1 ?p1 ?s1)) with (handleRefs f0 s1).
    rewrite Hc, handleRefs_newHandle. change (s_files (goto _ _ ?s1)) with (s_files s1).
    change (s_files (newHandle f (addRef n f st)).2) with (s_files (addRef n f st)). rewrite addRef_lookup.
    change (holds f0 (Opened _ _)) with false. change (closes f0 (Opened _ _)) with false. cbn [b2n].
    case_decide as Hf0; [subst f0|].
    + rewrite Hx in HF |- *. cbn [fmap option_fmap option_map of_refs of_closed]. rewrite Nat.eqb_refl. cbn [b2n].
      destruct HF as [HF1 HF2]. rewrite (proj2 (Z.eqb_neq _ _)) in HF2 by lia. rewrite (proj2 (Z.eqb_neq _ _)) by lia.
      cbn [b2n] in *. lia.
    + rewrite (Hh f0), (proj2 (Nat.eqb_neq f f0)) by done. cbn [b2n]. destruct (s_files st !! f0); [destruct HF; split; lia|lia].
  - intros path0 f0 Hm. destruct (HO path0 f0 Hm) as (y&Hy&Hp&Hr). unfold newHandle. cbn [snd s_files]. rewrite addRef_lookup.
    case_decide; [subst f0|by eauto]. rewrite Hy. eexists. split; [done|]. cbn. split; [done|lia].
  - apply (groupOk_frame keys st); [done|intros ? ?; apply addRef_path|done].
  - cbn [pcOk]. exists (OpenFileHandle false f). split; [by apply list_lookup_middle|]. apply addRef_path. by exists x.
Qed.

Lemma Inv_fnOpen keys st t path c :
  Inv keys st → inThread st t (InFn path c) →
  Inv keys (goto t (FnOpened path c (newFile path st).1) (newFile path st).2).
Proof.
  intros HI Ht. pose proof HI as [HF HO HG HP HW]. set (n := length (s_files st)).
  assert (∀ f x, s_files st !! f = Some x → s_files (newFile path st).2 !! f = Some x) as Hmono.
  { intros f x Hx. by apply lookup_app_l_Some. }
  assert (∀ f path0, hasPath st f path0 → hasPath (newFile path st).2 f path0) as Hpath.
  { intros f path0 (x&Hx&?). exists x. auto. }
  eapply opener_Inv_goto; [exact HI|exact Ht|done| |done|by left| | | |].
  - split; [done|exact Hpath|eauto].
  - intros f. specialize (HF f). unfold fileOk in *. rewrite (threadRefs_goto _ st t (InFn path c)), (closings_goto _ st t (InFn path c)) by done.
    change (handleRefs f (goto ?t1 ?p1 ?s1)) with (handleRefs f st). change (s_files (goto _ _ ?s1)) with (s_files s1).
    cbn [holds closes newFile fst snd s_files]. fold n. destruct (decide (f = n)) as [->|Hne].
    + unfold n in *. rewrite lookup_ge_None_2 in HF by lia. rewrite list_lookup_middle, Nat.eqb_refl by done.
      cbn [of_refs of_closed b2n]. rewrite (proj2 (Z.eqb_neq 1 0)) by done. cbn [b2n]. lia.
    + rewrite (proj2 (Nat.eqb_neq n f)) by done. cbn [b2n]. destruct (s_files st !! f) as [x|] eqn:Hx.
      * rewrite (lookup_app_l_Some _ _ _ _ Hx). destruct HF. lia.
      * rewrite lookup_ge_None_2; [lia|]. rewrite length_app. cbn [length]. apply lookup_ge_None in Hx. unfold n in *. lia.
  - intros path0 f Hm. destruct (HO path0 f Hm) as (x&Hx&?). eauto.
  - apply (groupOk_frame keys st); done.
  - cbn [pcOk]. split; [exact (HP t _ Ht)|]. exists (OpenFile path 1 0). split; [by apply list_lookup_middle|done].
Qed.

Lemma refs_held keys st t p f x :
  Inv keys st → inThread st t p → holds f p = true → s_files st !! f = Some x → 0 < of_refs x.
Proof.
  intros HI Ht Hh Hx. pose proof (iv_file _ _ HI f) as HF. unfold fileOk in HF. rewrite Hx in HF.
  pose proof (threadRefs_pos f st t p Ht) as Hp. rewrite Hh in Hp. cbn in Hp. pose proof (refs_nonneg f st). lia.
Qed.

Lemma Inv_insert keys st t path c f :
  Inv keys st → inThread st t (FnOpened path c f) →
  Inv keys (goto t (FnReturned path c (inr f)) (setOpen (<[path := f]> (s_open st)) st)).
Proof.
  intros HI Ht. pose proof HI as [HF HO HG HP HW]. destruct (HP t _ Ht) as [Hk (x&Hx&Hpath)].
  eapply opener_Inv_goto; [exact HI|exact Ht|done| |done|by left| | | |].
  - split; [done|done|eauto].
  - intros f0. eapply fileOk_goto; [exact Ht|done..|apply HI].
  - intros path0 f0 Hm. cbn [setOpen s_open] in Hm. apply lookup_insert_Some in Hm as [[<- <-]|[_ Hm]]; [|by apply HO]. exists x. split_and!; [done|done|].
    eapply (refs_held keys st t); [done|exact Ht|apply Nat.eqb_refl|done].
  - by apply (groupOk_frame keys st).
  - split; [done|]. intros f0 [= <-]. by exists x.
Qed.

Lemma Inv_closeFile keys st t f :
  Inv keys st → inThread st t (ClosingFile f) → Inv keys (goto t Closed (closeFile f st)).
Proof.
  intros HI Ht. pose proof HI as [HF HO HG HP HW].
  assert (∀ f0 path, hasPath st f0 path → hasPath (closeFile f st) f0 path) as Hpath.
  { intros f0 path (x&Hx&?). destruct (decide (f = f0)) as [->|].
    - eexists. cbn [closeFile s_files]. rewrite list_lookup_alter_eq, Hx. by split.
    - exists x. cbn [closeFile s_files]. by rewrite list_lookup_alter_ne. }
  eapply opener_Inv_goto; [exact HI|exact Ht|done| |done|done| | | |done].
  - split; [done|exact Hpath|eauto].
  - intros f0. specialize (HF f0). unfold fileOk in *. rewrite (threadRefs_goto _ st t (ClosingFile f)), (closings_goto _ st t (ClosingFile f)) by done.
    change (handleRefs f0 (goto ?t1 ?p1 ?s1)) with (handleRefs f0 st). change (s_files (goto _ _ ?s1)) with (s_files s1).
    cbn [holds closes closeFile s_files]. cbn [b2n]. destruct (decide (f = f0)) as [->|Hne].
    + rewrite list_lookup_alter_eq, Nat.eqb_refl. destruct (s_files st !! f0) as [x|] eqn:Hx.
      * cbn [fmap option_fmap option_map of_refs of_closed b2n]. destruct HF. lia.
      * pose proof (closings_pos f0 st t Ht). cbn. lia.
    + rewrite list_lookup_alter_ne by done. rewrite (proj2 (Nat.eqb_neq f f0)) by done. cbn [b2n].
      destruct (s_files st !! f0); rewrite ?Z.sub_0_r, ?Z.add_0_r; exact HF.
  - intros path0 f0 Hm. destruct (HO path0 f0 Hm) as (x&Hx&?&?). destruct (decide (f = f0)) as [->|].
    + eexists. cbn [closeFile s_files]. rewrite list_lookup_alter_eq, Hx. by split.
    + exists x. cbn [closeFile s_files]. by rewrite list_lookup_alter_ne.
  - by apply (groupOk_frame keys st).
Qed.

Lemma handleRefs_setClosed f0 n f h hd st :
  s_handles st !! h = Some hd → h_closed hd = false →
  handleRefs f0 (addRef n f (setClosed h st)) = handleRefs f0 st - b2n (h_file hd =? f0)%nat.
Proof.
  intros Hhd Hc. unfold handleRefs, addRef, setClosed. cbn [s_handles]. rewrite (sumZ_alter _ _ _ _ hd Hhd).
  unfold held. cbn [h_closed h_file negb andb]. rewrite Hc. cbn. lia.
Qed.

(** The open handle [h] of the file [f] gives its reference up. *)
Definition droppedFile (o : option nat) (f : nat) (x : openFile) (h : nat) (st : state) : state :=
  setOpen (if o then delete (of_path x) (s_open st) else s_open st) (addRef (-1) f (setClosed h st)).

Lemma Inv_drop keys st t h hd x o :
  Inv keys st → inThread st t (Closing h) → s_handles st !! h = Some hd → h_closed hd = false →
  s_files st !! h_file hd = Some x → 0 < of_refs x →
  o = (if of_refs x - 1 =? 0 then Some (h_file hd) else None) →
  Inv keys (goto t (closePc o) (droppedFile o (h_file hd) x h st)).
Proof.
  intros HI Ht Hhd Hc Hx Hpos Ho. pose proof HI as [HF HO HG HP HW]. set (f := h_file hd) in *.
  assert (∀ f0 path, hasPath st f0 path → hasPath (droppedFile o f x h st) f0 path) as Hpath.
  { intros f0 path Hp. exact (addRef_path (-1) f (setClosed h st) f0 path Hp). }
  eapply opener_Inv_goto; [exact HI|exact Ht|done| |done|by destruct o| | | |by destruct o].
  - split; [done|exact Hpath|]. intros h0 hd0 Hh0. cbn [droppedFile setOpen addRef setClosed s_handles].
    destruct (decide (h = h0)) as [->|]; [rewrite list_lookup_alter_eq, Hh0|rewrite list_lookup_alter_ne by done]; eexists; by split.
  - intros f0. specialize (HF f0). unfold fileOk in *. rewrite (threadRefs_goto _ st t (Closing h)), (closings_goto _ st t (Closing h)) by done.
    change (handleRefs f0 (goto ?t1 ?p1 ?s1)) with (handleRefs f0 (addRef (-1) f (setClosed h st))).
    rewrite (handleRefs_setClosed _ _ _ _ hd) by done. change (s_files (goto _ _ ?s1)) with (s_files (addRef (-1) f (setClosed h st))).
    rewrite addRef_lookup. change (s_files (setClosed h st)) with (s_files st). fold f.
    replace (holds f0 (closePc o)) with false by (by destruct o).
    assert (closes f0 (closePc o) = (f =? f0)%nat && (of_refs x - 1 =? 0)) as ->
      by (rewrite Ho; destruct (of_refs x - 1 =? 0); cbn [closePc closes]; by rewrite ?andb_true_r, ?andb_false_r).
    cbn [holds closes b2n]. case_decide as Hf0; [subst f0|].
    + rewrite Hx in HF |- *. cbn [fmap option_fmap option_map of_refs of_closed]. rewrite Nat.eqb_refl. cbn [b2n andb].
      destruct HF as [HF1 HF2]. rewrite (proj2 (Z.eqb_neq _ _)) in HF2 by lia. change (of_refs x + -1) with (of_refs x - 1).
      cbn [b2n] in HF2. split; [lia|]. destruct (of_refs x - 1 =? 0); cbn [b2n]; lia.
    + rewrite (proj2 (Nat.eqb_neq f f0)) by done. cbn [b2n andb]. destruct (s_files st !! f0); [destruct HF; split; lia|lia].
  - intros path0 f0 Hm. change (s_files (droppedFile o f x h st)) with (s_files (addRef (-1) f (setClosed h st))).
    rewrite addRef_lookup. change (s_files (setClosed h st)) with (s_files st).
    assert (s_open st !! path0 = Some f0 ∧ (o = None ∨ path0 ≠ of_path x)) as [Hm' Hcase].
    { cbn [droppedFile setOpen s_open] in Hm. destruct o; [apply lookup_delete_Some in Hm as [? ?]|]; auto. }
    destruct (HO path0 f0 Hm') as (y&Hy&Hp&Hr). case_decide; [subst f0|by eauto]. rewrite Hx. eexists. split; [done|].
    assert (y = x) as -> by congruence. split; [done|]. cbn [of_refs].
    destruct Hcase as [Hnone|?]; [|congruence]. rewrite Hnone in Ho. destruct (Z.eqb_spec (of_refs x - 1) 0); [done|lia].
  - by apply (groupOk_frame keys st).
Qed.

Lemma Inv_closeLocked keys st t h :
  Inv keys st → inThread st t (Closing h) →
  ∃ o st', closeLocked h st = Some (o, st') ∧ Inv keys (goto t (closePc o) st').
Proof.
  intros HI Ht. pose proof HI as [HF HO HG HP HW]. destruct (HP t _ Ht) as [hd Hhd].
  unfold closeLocked. rewrite Hhd. cbn [mbind option_bind]. destruct (h_closed hd) eqn:Hc.
  { exists None, st. split; [done|]. by eapply Inv_pc. }
  pose proof (HF (h_file hd)) as HFf. unfold fileOk in HFf. pose proof (handleRefs_pos (h_file hd) st h hd Hhd) as Hpos.
  unfold held in Hpos. rewrite Hc, Nat.eqb_refl in Hpos. cbn [negb andb b2n] in Hpos. pose proof (refs_nonneg (h_file hd) st).
  destruct (s_files st !! h_file hd) as [x|] eqn:Hx; [|lia]. cbn [mbind option_bind].
  assert (0 < of_refs x) by lia. rewrite (proj2 (Z.ltb_ge _ _)) by lia.
  pose proof (Inv_drop keys st t h hd x _ HI Ht Hhd Hc Hx ltac:(done) eq_refl) as Hdrop.
  destruct (of_refs x - 1 =? 0); (eexists _, _; split; [done|exact Hdrop]).
Qed.

(** The group's results survive the other operations of the group. *)
Lemma groupOk_results keys keys' st g' :
  groupOk keys st → (∀ c path, keys !! c = Some path → keys' !! c = Some path) →
  length keys' = length (g_calls g') →
  (∀ path c, g_m g' !! path = Some c → keys' !! c = Some path) →
  (∀ c r, resultOf c g' = Some r → resultOf c (s_group st) = Some r ∨ ∃ path, keys' !! c = Some path ∧ goodResult st path r) →
  groupOk keys' (setGroup g' st).
Proof.
  intros [H1 H2 H3] Hk Hl Hm Hr. split; [done|exact Hm|]. intros c f Hc.
  destruct (Hr c _ Hc) as [Hc'|(path&?&Hg)].
  - destruct (H3 c f Hc') as (path&?&?). exists path. split; [by apply Hk|done].
  - exists path. split; [done|]. exact (Hg f eq_refl).
Qed.

Lemma opener_Inv_start keys st t path c g :
  Inv keys st → inThread st t (Missed path) → enter path (s_group st) = (c, true, g) →
  Inv (keys ++ [path]) (goto t (InFn path c) (setGroup g st)).
Proof.
  intros HI Ht He. pose proof HI as [_ _ HG _ _]. pose proof HG as [Hlen Hmap Hres].
  apply enter_spec in He as [(?&_)|(_&Hnone&->&Hm&Hcalls)]; [done|]. rewrite <-Hlen in *.
  assert (∀ c p, keys !! c = Some p → (keys ++ [path]) !! c = Some p) as Hk by (intros; by apply lookup_app_l_Some).
  assert (∀ c, c ≠ length keys → resultOf c g = resultOf c (s_group st)) as Hsame.
  { intros c Hne. unfold resultOf. rewrite Hcalls. destruct (decide (c < length keys)%nat).
    - rewrite lookup_app_l by lia. done.
    - rewrite !lookup_ge_None_2; [done|lia|]. rewrite length_app. cbn [length]. lia. }
  eapply Inv_group; [exact HI|exact Ht|exact Hk| | |done..| |by apply list_lookup_middle].
  - intros c _ Hsome%lookup_lt_is_Some. apply Hsame. lia.
  - intros c [= <-]. right. by apply lookup_ge_None_2.
  - apply (groupOk_results keys); [done|exact Hk|rewrite Hcalls, !length_app; cbn [length]; lia| |].
    + intros path0 c Hc. rewrite Hm in Hc. apply lookup_insert_Some in Hc as [[<- <-]|[_ Hc]]; [by apply list_lookup_middle|].
      by apply Hk, Hmap.
    + intros c r Hr. left. rewrite <-Hsame; [done|]. intros ->. unfold resultOf in Hr. rewrite Hcalls, list_lookup_middle in Hr by lia. done.
Qed.

Lemma Inv_assign keys st t path c r :
  Inv keys st → inThread st t (FnReturned path c r) →
  Inv keys (goto t (Assigned path c r) (setGroup (assign c r (s_group st)) st)).
Proof.
  intros HI Ht. pose proof HI as [_ _ HG HP _]. pose proof HG as [Hlen Hmap Hres].
  destruct (HP t _ Ht) as [Hk Hgood]. assert (c < length (g_calls (s_group st)))%nat as Hc
    by (rewrite <-Hlen; by eapply lookup_lt_Some).
  eapply Inv_group; [exact HI|exact Ht|done| |by left|done|done| |].
  - intros c0 Hne _. apply result_assign_ne. cbn [ownsCall] in Hne. congruence.
  - apply (groupOk_results keys); [done|done|rewrite Hlen; symmetry; apply length_updCall|exact Hmap|].
    intros c0 r0. destruct (decide (c = c0)) as [<-|]; [|rewrite result_assign_ne by done; by left].
    rewrite resultOf_assign by done. intros [= <-]. eauto.
  - cbn [pcOk]. split_and!; [done|exact Hgood|by apply resultOf_assign].
Qed.

Lemma Inv_remove keys st t path c r :
  Inv keys st → inThread st t (Signalled path c r) →
  groupOk keys (setGroup (remove path (s_group st)) st).
Proof.
  intros HI Ht. pose proof (iv_group _ _ HI) as HG. pose proof HG as [Hlen Hmap Hres].
  apply (groupOk_results keys); [done|done|done| |by left].
  intros path0 c0 Hc. cbn [remove g_m] in Hc. apply lookup_delete_Some in Hc as [_ Hc]. by apply Hmap.
Qed.

Lemma goto_same t p st : inThread st t p → goto t p st = st.
Proof. intros Ht. unfold goto. rewrite list_insert_id by done. by destruct st. Qed.

Lemma addRef_zero f st : addRef 0 f st = st.
Proof.
  destruct st as [g m fs hs ts]. unfold addRef. cbn. f_equal. apply list_eq. intros i.
  destruct (decide (f = i)) as [->|]; [rewrite list_lookup_alter_eq|by rewrite list_lookup_alter_ne].
  destruct (fs !! i) as [[? ? ?]|]; [cbn; by rewrite Z.add_0_r|done].
Qed.

Lemma Inv_winner keys st t path c r f :
  Inv keys st → inThread st t (Signalled path c r) → resultOf c (s_group st) = Some (inr f) →
  let st' := newHandle f (setGroup (remove path (s_group st)) st) in
  Inv keys (goto t (Opened path st'.1) st'.2).
Proof.
  intros HI Ht Hr. destruct (iv_pc _ _ HI t _ Ht) as (Hk&Hgood&Hr'). assert (r = inr f) as -> by congruence.
  destruct (Hgood f eq_refl) as (x&Hx&Hpath). set (st1 := setGroup (remove path (s_group st)) st).
  assert (Inv keys st1) as HI1.
  { rewrite <-(goto_same t (Signalled path c (inr f)) st1) by exact Ht.
    eapply Inv_group; [exact HI|exact Ht|done|done|by left|done|done|by eapply Inv_remove|done]. }
  pose proof (Inv_newHandle keys st1 t _ path f 0 x HI1 Ht Hx Hpath) as H1. rewrite addRef_zero in H1. apply H1.
  - by eapply (refs_held keys st t); [|exact Ht|apply Nat.eqb_refl|].
  - cbn [holds]. by rewrite Nat.eqb_refl.
  - intros f0 Hne. cbn [holds]. apply Nat.eqb_neq. congruence.
  - done.
Qed.

Lemma Inv_open keys st t p path f :
  Inv keys st → inThread st t p → (p = Opening path ∨ p = Suppressed path f) →
  (∃ x, s_files st !! f = Some x ∧ of_path x = path ∧ 0 < of_refs x) →
  let st' := newHandle f (addRef 1 f st) in Inv keys (goto t (Opened path st'.1) st'.2).
Proof.
  intros HI Ht Hp (x&Hx&Hpath&Hpos).
  by apply (Inv_newHandle keys st t p path f 1 x); destruct Hp as [->| ->].
Qed.

Lemma refs_known keys st f x : Inv keys st → s_files st !! f = Some x → 0 ≤ of_refs x.
Proof.
  intros HI Hx. pose proof (iv_file _ _ HI f) as HF. unfold fileOk in HF. rewrite Hx in HF.
  pose proof (refs_nonneg f st). lia.
Qed.

Lemma opener_Inv_step keys st st' : Inv keys st → step st st' → ∃ keys', Inv keys' st'.
Proof.
  intros HI Hstep. pose proof HI as [HF HO HG HP HW]. pose proof HG as [Hlen Hmap Hres].
  destruct Hstep as [path|t path h st' Ht Hf|t path Ht Hf|t path c g Ht He|t path c g Ht He|t path c f st' Ht Hn|t path c e Ht|
    t path c f Ht|t path c r Ht|t path c r Ht|t path c r e Ht Hr|t path c r f h st' Ht Hr Hn|t path c e Ht Hr|t path c f Ht Hr|
    t path f h st' Ht Hs|t path f Ht Hs|h Hh|t h o st' Ht Hc|t f Ht].
  - exists keys. by apply Inv_addThread.
  - exists keys. unfold openFast in Hf. destruct (s_open st !! path) as [f|] eqn:Ho; [|done]. injection Hf as <- <-.
    eapply Inv_open; [done|exact Ht|by left|by apply HO].
  - exists keys. by eapply Inv_pc.
  - exists keys. apply enter_spec in He as [(_&Hm&->)|(?&_)]; [|done]. rewrite setGroup_same.
    eapply Inv_pc; [done|exact Ht|done..|]. by apply Hmap.
  - exists (keys ++ [path]). by apply opener_Inv_start.
  - exists keys. pose proof (Inv_fnOpen keys st t path c HI Ht) as H1. by rewrite Hn in H1.
  - exists keys. eapply Inv_pc; [done|exact Ht|done..|]. split; [exact (HP t _ Ht)|by intros ?].
  - exists keys. by apply Inv_insert.
  - exists keys. by apply Inv_assign.
  - exists keys. destruct (HP t _ Ht) as (Hk&Hgood&Hr).
    eapply Inv_group; [exact HI|exact Ht|done| |by left|done|done| |].
    + intros c0 _ _. apply result_signal.
    + apply (groupOk_results keys); [done|done|rewrite Hlen; symmetry; apply length_updCall|exact Hmap|].
      intros c0 r0. rewrite result_signal. by left.
    + cbn [pcOk setGroup s_group]. by rewrite result_signal.
  - exists keys. destruct (HP t _ Ht) as (Hk&Hgood&Hr'). assert (r = inl e) as -> by congruence.
    eapply Inv_group; [exact HI|exact Ht|done..|by eapply Inv_remove|done].
  - exists keys. pose proof (Inv_winner keys st t path c r f HI Ht Hr) as H1. cbn zeta in H1. by rewrite Hn in H1.
  - exists keys. by eapply Inv_pc.
  - exists keys. eapply Inv_pc; [done|exact Ht|done..|]. apply awaited_result in Hr.
    pose proof (HP t _ Ht) as Hk. destruct (Hres c f Hr) as (path'&Hk'&?). cbn [pcOk] in *. by assert (path' = path) as -> by congruence.
  - exists keys. destruct (HP t _ Ht) as (x&Hx&Hpath). unfold openSuppressed in Hs. rewrite Hx in Hs. cbn [mbind option_bind] in Hs.
    pose proof (refs_known _ _ _ _ HI Hx). destruct (Z.eqb_spec (of_refs x) 0); [done|]. injection Hs as <- <-.
    eapply Inv_open; [done|exact Ht|by right|]. exists x. split_and!; [done|done|lia].
  - exists keys. by eapply Inv_pc.
  - exists keys. apply Inv_addThread; try done. by apply lookup_lt_is_Some.
  - exists keys. destruct (Inv_closeLocked keys st t h HI Ht) as (o'&st1&Hc'&HI'). rewrite Hc in Hc'. by injection Hc' as <- <-.
  - exists keys. by apply Inv_closeFile.
Qed.

Lemma opener_reach_inv st : reach st → ∃ keys, Inv keys st.
Proof.
  induction 1 as [|st st' _ [keys IH] Hstep]; [|by eapply opener_Inv_step]. exists []. by split.
Qed.

End opener.

Arguments State {_ _ _ _}.
Arguments pc _ _ : clear implicits.
Arguments state _ _ {_ _}.
Arguments openFile _ : clear implicits.

(** A goroutine that is in neither [Open] nor [Close]. *)
Definition idle {K E} (p : pc K E) : bool :=
  match p with Opened _ _ | Failed _ _ | Closed => true | _ => false end.

(** C5. Whatever calls of [Open] and [Close] run at the same time, for any
    number of paths, and whichever opens fail: the file of a handle that has
    not been closed is open and nobody is about to close it; the handle that
    [Open(path)] returned is of a file opened at that path; [Close] never
    panics, even when a handle is closed several times; and a file is closed
    at most once, and exactly once when all its handles have been closed and
    no goroutine is left in [Open] or [Close], so that no descriptor leaks. *)
Theorem handles_share_open_files {K E : Type} `{Countable K} (st : state K E) :
  reach st →
  (∀ h hd, s_handles st !! h = Some hd → h_closed hd = false →
     ∃ x, s_files st !! h_file hd = Some x ∧ of_closed x = 0 ∧ ∀ t, ¬ inThread st t (ClosingFile (h_file hd))) ∧
  (∀ t path h, inThread st t (Opened path h) →
     ∃ hd x, s_handles st !! h = Some hd ∧ s_files st !! h_file hd = Some x ∧ of_path x = path) ∧
  (∀ t h, inThread st t (Closing h) → is_Some (closeLocked h st)) ∧
  (∀ f x, s_files st !! f = Some x → 0 ≤ of_closed x ≤ 1 ∧
     ((∀ t p, inThread st t p → idle p = true) →
      (∀ h hd, s_handles st !! h = Some hd → h_file hd = f → h_closed hd = true) → of_closed x = 1)).
Proof.
  intros [keys HI]%opener_reach_inv. pose proof HI as [HF HO HG HP HW]. split_and!.
  - intros h hd Hhd Hc. pose proof (HF (h_file hd)) as HFf. unfold fileOk in HFf.
    pose proof (handleRefs_pos (h_file hd) st h hd Hhd) as Hpos. unfold held in Hpos. rewrite Hc, Nat.eqb_refl in Hpos.
    cbn [negb andb b2n] in Hpos. pose proof (refs_nonneg (h_file hd) st). pose proof (closings_nonneg (h_file hd) st) as Hcl.
    destruct (s_files st !! h_file hd) as [x|] eqn:Hx; [|lia]. exists x. destruct HFf as (H1&H2&H3).
    rewrite (proj2 (Z.eqb_neq _ _)) in H2 by lia. cbn [b2n] in H2.
    split_and!; [done|lia|]. intros t Ht. pose proof (closings_pos _ _ _ Ht). lia.
  - intros t path h Ht. destruct (HP t _ Ht) as (hd&Hhd&x&Hx&Hp). eauto.
  - intros t h Ht. destruct (Inv_closeLocked keys st t h HI Ht) as (o&st'&Hc&_). by eexists.
  - intros f x Hx. pose proof (HF f) as HFf. unfold fileOk in HFf. rewrite Hx in HFf. destruct HFf as (H1&H2&H3).
    pose proof (closings_nonneg f st). split.
    { destruct (of_refs x =? 0); cbn [b2n] in H2; lia. }
    intros Hidle Hclosed.
    assert (handleRefs f st = 0 ∧ threadRefs f st = 0 ∧ closings f st = 0) as (Hh&Ht&Hc).
    { split_and!; apply sumZ_zero; cbn beta; intros i y Hy.
      - unfold held. destruct (Nat.eqb_spec (h_file y) f) as [Heq|]; [by rewrite (Hclosed i y Hy Heq)|by rewrite andb_false_r].
      - specialize (Hidle i y Hy). by destruct y.
      - specialize (Hidle i y Hy). by destruct y. }
    rewrite Hh, Ht in H1. rewrite H1 in H2. change (b2n (0 + 0 =? 0)) with 1 in H2. lia.
Qed.

Tactic Notation "walk" uconstr(s) :=
  match goal with H : reach _ |- _ => eapply ReachStep in H; [|eapply s; vm_compute; reflexivity] end.

(** [t1] joins the open of [t0]; both get a handle of the one file, and the
    first handle is closed twice. *)
Lemma shared_reach :
  ∃ st : state nat Z, reach st ∧
    s_files st = [OpenFile 5%nat 1 0] ∧ s_handles st = [OpenFileHandle true 0; OpenFileHandle false 0] ∧
    s_threads st = [Opened 5%nat 0; Opened 5%nat 1; Closed; Closed].
Proof.
  pose proof (@ReachInit nat Z _ _) as H.
  do 2 (eapply ReachStep in H; [|apply (StepOpen _ 5%nat)]).
  walk (StepMiss _ 0 5%nat). walk (StepMiss _ 1 5%nat).
  walk (StepStart _ 0 5%nat 0). walk (StepJoin _ 1 5%nat 0).
  walk (StepFnOpen _ 0 5%nat 0 0). walk (StepInsert _ 0 5%nat 0 0).
  walk (StepAssign _ 0 5%nat 0). walk (StepSignal _ 0 5%nat 0).
  walk (StepWinner _ 0 5%nat 0 _ 0 0). walk (StepWait _ 1 5%nat 0 0).
  walk (StepSuppressed _ 1 5%nat 0 1).
  do 2 (eapply ReachStep in H; [|apply (StepClose _ 0); vm_compute; lia]).
  walk (StepCloseLocked _ 2 0). walk (StepCloseLocked _ 3 0).
  eexists. split; [exact H|]. split_and!; vm_compute; reflexivity.
Qed.

Lemma handles_share_open_files_witness :
  ∃ st : state nat Z, reach st ∧ s_handles st = [OpenFileHandle true 0; OpenFileHandle false 0] ∧
    ∃ x, s_files st !! 0%nat = Some x ∧ of_closed x = 0 ∧ ∀ t, ¬ inThread st t (ClosingFile 0).
Proof.
  destruct shared_reach as (st&Hr&_&Hh&_). exists st. split; [exact Hr|]. split; [exact Hh|].
  destruct (handles_share_open_files st Hr) as [H1 _]. apply (H1 1%nat (OpenFileHandle false 0)); by rewrite ?Hh.
Defined.

(** A goroutine that has missed the file in [openFiles] and calls [Do] only
    when the first open is over opens the path again, and replaces the entry:
    two open files of one path, of which only the second is found. *)
Example late_caller_opens_again :
  ∃ st : state nat Z, reach st ∧ s_files st = [OpenFile 5%nat 1 0; OpenFile 5%nat 1 0] ∧ s_open st !! 5%nat = Some 1%nat.
Proof.
  pose proof (@ReachInit nat Z _ _) as H.
  do 2 (eapply ReachStep in H; [|apply (StepOpen _ 5%nat)]).
  walk (StepMiss _ 0 5%nat). walk (StepMiss _ 1 5%nat).
  walk (StepStart _ 0 5%nat 0). walk (StepFnOpen _ 0 5%nat 0 0).
  walk (StepInsert _ 0 5%nat 0 0). walk (StepAssign _ 0 5%nat 0).
  walk (StepSignal _ 0 5%nat 0). walk (StepWinner _ 0 5%nat 0 _ 0 0).
  walk (StepStart _ 1 5%nat 1). walk (StepFnOpen _ 1 5%nat 1 1).
  walk (StepInsert _ 1 5%nat 1 1).
  eexists. split; [exact H|]. split; vm_compute; reflexivity.
Qed.
