(* ===== verification/Sem.v ===== *)
(** * syncutil: weighted semaphore

    sem.go. As in [SingleFlight], a step is one critical section,
    or one access outside of one, of one goroutine. A
    [sync.Cond] keeps a waiter parked until a broadcast. *)
From S2P Require Import Prelude.

Record Sem := { max : Z; free : Z }.

Definition NewSem (max : Z) : Sem := {| max := max; free := max |}.

(** [n > s.max]: the only error of [Acquire]. *)
Definition tooBig (n : Z) (s : Sem) : bool := max s <? n.

(** One iteration of the loop of [Acquire]: the units, or [s.c.Wait]. *)
Definition tryAcquire (n : Z) (s : Sem) : option Sem :=
  if n <=? free s then Some {| max := max s; free := free s - n |} else None.

Definition giveBack (n : Z) (s : Sem) : Sem := {| max := max s; free := free s + n |}.

Inductive pc :=
| Calling (n : Z)      (* Acquire, before the test of n *)
| Locking (n : Z)      (* before s.c.L.Lock, also when woken in s.c.Wait *)
| Parked (n : Z)       (* in s.c.Wait *)
| Holding (n : Z)      (* Acquire has returned nil; n units are not released *)
| Refused (n : Z).     (* Acquire has returned an error *)

(** [s.c.Broadcast()] *)
Definition wake (p : pc) : pc := match p with Parked n => Locking n | _ => p end.

Record state := State { sem : Sem; threads : list pc }.

(** [Acquire] is called with any size that is not negative, and [Release]
    with what the caller, or somebody for it, still holds, or a part of it. *)
Inductive step (st : state) : state → Prop :=
| StepCall n : 0 ≤ n → step st (State (sem st) (threads st ++ [Calling n]))
| StepRefuse t n :
    threads st !! t = Some (Calling n) → tooBig n (sem st) = true →
    step st (State (sem st) (<[t := Refused n]> (threads st)))
| StepEnter t n :
    threads st !! t = Some (Calling n) → tooBig n (sem st) = false →
    step st (State (sem st) (<[t := Locking n]> (threads st)))
| StepAcquire t n s :
    threads st !! t = Some (Locking n) → tryAcquire n (sem st) = Some s →
    step st (State s (<[t := Holding n]> (threads st)))
| StepWait t n :
    threads st !! t = Some (Locking n) → tryAcquire n (sem st) = None →
    step st (State (sem st) (<[t := Parked n]> (threads st)))
| StepRelease t n k :
    threads st !! t = Some (Holding n) → 0 ≤ k ≤ n →
    step st (State (giveBack k (sem st)) (wake <$> <[t := Holding (n - k)]> (threads st))).

Inductive reach (m : Z) : state → Prop :=
| ReachInit : reach m (State (NewSem m) [])
| ReachStep st st' : reach m st → step st st' → reach m st'.

(** The units a goroutine has. *)
Definition units (p : pc) : Z := match p with Holding n => n | _ => 0 end.

Definition held (st : state) : Z := sumZ units (threads st).

Definition pcOk (s : Sem) (p : pc) : Prop :=
  match p with
  | Calling n => 0 ≤ n
  | Locking n => 0 ≤ n ≤ max s
  | Parked n => 0 ≤ n ≤ max s ∧ free s < n
  | Holding n => 0 ≤ n
  | Refused n => max s < n
  end.

Record Inv (m : Z) (st : state) : Prop := {
  inv_max : max (sem st) = m;
  inv_sum : free (sem st) + held st = m;
  inv_free : 0 ≤ free (sem st);
  inv_pc t p : threads st !! t = Some p → pcOk (sem st) p;
}.

Lemma held_wake l : sumZ units (wake <$> l) = sumZ units l.
Proof. induction l as [|p l IH]; [done|]. rewrite fmap_cons, !sumZ_cons, IH. by destruct p. Qed.

Lemma pcOk_less s s' p : max s' = max s → free s' ≤ free s → pcOk s p → pcOk s' p.
Proof. intros Hm Hf. destruct p; cbn; lia. Qed.

Lemma pcOk_wake s s' p : max s' = max s → pcOk s p → pcOk s' (wake p).
Proof. intros Hm. destruct p; cbn; lia. Qed.

(** A step of one goroutine that leaves no more units free. *)
Lemma semInv_goto m st t p p' s' :
  Inv m st → threads st !! t = Some p → max s' = max (sem st) → 0 ≤ free s' ≤ free (sem st) →
  free s' + units p' = free (sem st) + units p → pcOk s' p' → Inv m (State s' (<[t := p']> (threads st))).
Proof.
  intros [HM HS HF HP] Ht Hm Hf Hu Hok. split; cbn [sem threads]; [lia| |lia|].
  - unfold held in *. cbn [threads]. rewrite (sumZ_insert _ _ _ p) by done. lia.
  - intros t0 p0 [(<-&<-&_)|[_ H0]]%list_lookup_insert_Some; [done|]. apply (pcOk_less (sem st)); [done|lia|eauto].
Qed.

Lemma semInv_step m st st' : Inv m st → step st st' → Inv m st'.
Proof.
  intros HI Hstep. pose proof HI as [HM HS HF HP].
  destruct Hstep as [n Hn|t n Ht Hb|t n Ht Hb|t n s Ht Ha|t n Ht Ha|t n k Ht Hk].
  - split; cbn [sem threads]; [done| |done|].
    + unfold held in *. cbn [threads]. rewrite sumZ_app. cbn. lia.
    + intros t p [?|[_ H]]%lookup_app_Some; [eauto|]. apply list_lookup_singleton_Some in H as [_ <-]. done.
  - pose proof (HP t _ Ht). unfold tooBig in Hb. eapply semInv_goto; [done|exact Ht|done|lia|done|cbn; lia].
  - pose proof (HP t _ Ht) as Hn. cbn in Hn. unfold tooBig in Hb. eapply semInv_goto; [done|exact Ht|done|lia|done|cbn; lia].
  - pose proof (HP t _ Ht) as Hn. cbn in Hn. unfold tryAcquire in Ha. destruct (Z.leb_spec n (free (sem st))); [|done].
    injection Ha as <-. eapply semInv_goto; [done|exact Ht|done|cbn; lia|cbn; lia|cbn; lia].
  - pose proof (HP t _ Ht) as Hn. cbn in Hn. unfold tryAcquire in Ha. destruct (Z.leb_spec n (free (sem st))); [done|].
    eapply semInv_goto; [done|exact Ht|done|lia|done|cbn; lia].
  - pose proof (HP t _ Ht) as Hn. cbn in Hn. split; cbn [sem threads giveBack max free]; [done| |lia|].
    + unfold held in *. cbn [threads]. rewrite held_wake, (sumZ_insert _ _ _ _ _ Ht). cbn [units]. lia.
    + intros t0 p0. rewrite list_lookup_fmap, fmap_Some. intros (p1&H1&->). apply (pcOk_wake (sem st)); [done|].
      apply list_lookup_insert_Some in H1 as [(<-&<-&_)|[_ H1]]; [cbn; lia|eauto].
Qed.

Lemma sem_reach_inv m st : 0 ≤ m → reach m st → Inv m st.
Proof.
  intros Hm. induction 1 as [|st st' _ IH Hstep]; [|by eapply semInv_step]. split; cbn; [done|unfold held; cbn; lia|done|].
  intros t p H. by rewrite lookup_nil in H.
Qed.

(** The goroutines that can move. *)
Definition active (p : pc) : bool := match p with Calling _ | Locking _ => true | _ => false end.

(** C14. A semaphore of [m] units, under every interleaving of goroutines
    that release no more than they hold: the free units and the held ones are
    always [m], neither is ever negative, so never more than [m] units are
    held; [Acquire] fails exactly for a request that could never be granted.
    No wake-up is lost: a goroutine waits only while there are not enough free
    units for it, so at rest (nobody in [Acquire] can move) with no unit held,
    every call has returned. *)
Theorem Sem_accounts_for_units (m : Z) (st : state) :
  0 ≤ m → reach m st →
  free (sem st) + held st = m ∧ 0 ≤ free (sem st) ∧ 0 ≤ held st ∧
  (∀ t n, threads st !! t = Some (Parked n) → free (sem st) < n ≤ m) ∧
  (∀ t n, threads st !! t = Some (Refused n) → m < n) ∧
  (∀ t n, threads st !! t = Some (Holding n) → n ≤ m) ∧
  (∀ t p, threads st !! t = Some p → active p = true → ∃ st', step st st' ∧ threads st' !! t ≠ Some p) ∧
  (held st = 0 → ∀ t n, threads st !! t ≠ Some (Parked n)).
Proof.
  intros Hm Hr%sem_reach_inv; [|done]. pose proof Hr as [HM HS HF HP].
  assert (∀ t p, threads st !! t = Some p → 0 ≤ units p) as Hu.
  { intros t p Ht. specialize (HP t p Ht). destruct p; cbn in *; lia. }
  assert (0 ≤ held st) as Hh. { apply sumZ_nonneg_lookup. exact Hu. }
  assert (∀ t n, threads st !! t = Some (Parked n) → free (sem st) < n ≤ m) as Hpark.
  { intros t n Ht. specialize (HP t _ Ht). cbn in HP. lia. }
  split_and!; try done.
  - intros t n Ht. specialize (HP t _ Ht). cbn in HP. lia.
  - intros t n Ht. assert (n ≤ held st) by (by apply (sumZ_le_lookup units _ t (Holding n))). lia.
  - intros t p Ht Ha. assert (t < length (threads st))%nat by (by eapply lookup_lt_Some). destruct p; try done.
    + destruct (tooBig n (sem st)) eqn:E; eexists; (split; [by econstructor|]); cbn; by rewrite list_lookup_insert_eq.
    + destruct (tryAcquire n (sem st)) as [s|] eqn:E; eexists; (split; [by econstructor|]); cbn; by rewrite list_lookup_insert_eq.
  - intros H0 t n Ht. specialize (Hpark t n Ht). lia.
Qed.

Lemma Sem_accounts_for_units_witness :
  ∃ st, reach 3 st ∧ threads st = [Holding 2; Parked 2] ∧ free (sem st) + held st = 3.
Proof.
  pose proof (ReachInit 3) as H.
  eapply ReachStep in H; [|apply (StepCall _ 2); lia]. eapply ReachStep in H; [|apply (StepCall _ 2); lia].
  eapply ReachStep in H; [|by eapply (StepEnter _ 0 2)]. eapply ReachStep in H; [|by eapply (StepEnter _ 1 2)].
  eapply ReachStep in H; [|by eapply (StepAcquire _ 0 2)]. eapply ReachStep in H; [|by eapply (StepWait _ 1 2)].
  eexists. split; [exact H|]. split; [reflexivity|]. apply (Sem_accounts_for_units 3 _); [lia|exact H].
Defined.
