(* ===== verification/Once.v ===== *)
(** * syncutil: Once with errors

    once.go. As in [SingleFlight], a step is one critical section,
    or one access outside of one, of one goroutine.
    A function may succeed, fail or panic. *)
From S2P Require Import Prelude.

Section once.
Context {E : Type}.

(** [m] held or not, and [done]. *)
Record Once := { locked : bool; done : bool }.

Inductive pc :=
| Checking                (* before atomic.LoadUint32 *)
| Locking                 (* before o.m.Lock *)
| Testing                 (* the mutex is held *)
| Running                 (* in f *)
| Storing                 (* f has returned nil, before StoreUint32 *)
| Unlocking (r : option E)
| Returned (r : option E) (* None is the nil error *)
| Panicking | Panicked.   (* f has panicked; the mutex is released by the defer *)

Record state := State { once : Once; threads : list pc }.

Inductive event := ERun (t : nat) | EOk (t : nat) | EErr (t : nat) (e : E) | EPanic (t : nat) | ENil (t : nat).

Definition setLocked (b : bool) (o : Once) : Once := {| locked := b; done := done o |}.
Definition setDone (o : Once) : Once := {| locked := locked o; done := true |}.

Definition goto (t : nat) (p : pc) (o : Once) (st : state) : state := State o (<[t := p]> (threads st)).

(** The event of returning. *)
Definition returns (t : nat) (r : option E) : list event := match r with None => [ENil t] | Some _ => [] end.

Inductive step (st : state) : list event → state → Prop :=
| StepCall : step st [] (State (once st) (threads st ++ [Checking]))
| StepFast t : threads st !! t = Some Checking → done (once st) = true →
    step st (returns t None) (goto t (Returned None) (once st) st)
| StepSlow t : threads st !! t = Some Checking → done (once st) = false → step st [] (goto t Locking (once st) st)
| StepLock t : threads st !! t = Some Locking → locked (once st) = false →
    step st [] (goto t Testing (setLocked true (once st)) st)
| StepSkip t : threads st !! t = Some Testing → done (once st) = true →
    step st [] (goto t (Unlocking None) (once st) st)
| StepRun t : threads st !! t = Some Testing → done (once st) = false →
    step st [ERun t] (goto t Running (once st) st)
| StepOk t : threads st !! t = Some Running → step st [EOk t] (goto t Storing (once st) st)
| StepErr t e : threads st !! t = Some Running → step st [EErr t e] (goto t (Unlocking (Some e)) (once st) st)
| StepPanic t : threads st !! t = Some Running → step st [EPanic t] (goto t Panicking (once st) st)
| StepStore t : threads st !! t = Some Storing → step st [] (goto t (Unlocking None) (setDone (once st)) st)
| StepUnlock t r : threads st !! t = Some (Unlocking r) →
    step st (returns t r) (goto t (Returned r) (setLocked false (once st)) st)
| StepPanicked t : threads st !! t = Some Panicking →
    step st [] (goto t Panicked (setLocked false (once st)) st).

Inductive reach : state → list event → Prop :=
| ReachInit : reach (State {| locked := false; done := false |} []) []
| ReachStep st tr ev st' : reach st tr → step st ev st' → reach st' (tr ++ ev).

Definition holdsLock (p : pc) : bool :=
  match p with Testing | Running | Storing | Unlocking _ | Panicking => true | _ => false end.

(** [f] has succeeded, with the store to come. *)
Definition storing (p : pc) : bool := match p with Storing => true | _ => false end.

Definition okEvents (tr : list event) : Z := sumZ (λ e, b2n (match e with EOk _ => true | _ => false end)) tr.

(** Every execution of [f], and every nil result, in its place. *)
Definition onceTrace (tr : list event) : Prop :=
  ∀ tr1 e tr2, tr = tr1 ++ e :: tr2 →
    match e with
    | ERun _ => okEvents tr1 = 0
    | ENil _ => okEvents tr1 = 1
    | _ => True
    end.

Record Inv (st : state) (tr : list event) : Prop := {
  inv_lock : b2n (locked (once st)) = sumZ (λ p, b2n (holdsLock p)) (threads st);
  inv_ok : okEvents tr = b2n (done (once st)) + sumZ (λ p, b2n (storing p)) (threads st);
  inv_run t p : threads st !! t = Some p → (p = Running ∨ p = Storing) → done (once st) = false;
  inv_nil t p : threads st !! t = Some p → p = Unlocking None → done (once st) = true;
  inv_trace : onceTrace tr;
}.

Lemma okEvents_snoc tr e : okEvents (tr ++ [e]) = okEvents tr + b2n (match e with EOk _ => true | _ => false end).
Proof. unfold okEvents. rewrite sumZ_app, sumZ_cons. cbn. lia. Qed.

Lemma onceTrace_snoc tr e :
  onceTrace tr → match e with ERun _ => okEvents tr = 0 | ENil _ => okEvents tr = 1 | _ => True end → onceTrace (tr ++ [e]).
Proof.
  intros Htr He tr1 e' tr2 Heq. destruct tr2 as [|e2 tr2 _] using rev_ind.
  - apply app_inj_tail in Heq as [<- <-]. exact He.
  - rewrite app_comm_cons, app_assoc in Heq. apply app_inj_tail in Heq as [-> _]. by apply (Htr tr1 e' tr2).
Qed.

Lemma locked_held st tr t p :
  Inv st tr → threads st !! t = Some p → holdsLock p = true → locked (once st) = true.
Proof.
  intros HI Ht Hp. pose proof (sumZ_b2n_lookup holdsLock _ _ _ Ht) as H1. rewrite <-(inv_lock _ _ HI), Hp in H1.
  by destruct (locked (once st)).
Qed.

(** Nobody else holds the mutex. *)
Lemma alone st tr t p t' p' :
  Inv st tr → threads st !! t = Some p → holdsLock p = true → threads st !! t' = Some p' → holdsLock p' = true → t' = t.
Proof.
  intros HI Ht Hp Ht' Hp'. destruct (decide (t' = t)) as [|Hne]; [done|exfalso].
  pose proof (inv_lock _ _ HI) as HL. rewrite (locked_held _ _ _ _ HI Ht Hp) in HL.
  pose proof (sumZ_insert (λ p, b2n (holdsLock p)) (threads st) t p Checking Ht) as H1. cbn beta in H1.
  assert (<[t:=Checking]> (threads st) !! t' = Some p') as H2 by by rewrite list_lookup_insert_ne.
  pose proof (sumZ_b2n_lookup holdsLock _ _ _ H2) as H3. rewrite Hp in H1. rewrite Hp' in H3.
  cbn [holdsLock b2n] in *. lia.
Qed.

Lemma once_Inv_goto st tr ev t p p' o' :
  Inv st tr → threads st !! t = Some p →
  b2n (locked o') - b2n (holdsLock p') = b2n (locked (once st)) - b2n (holdsLock p) →
  okEvents (tr ++ ev) = okEvents tr + (b2n (done o') + b2n (storing p')) - (b2n (done (once st)) + b2n (storing p)) →
  (p' = Running ∨ p' = Storing → done o' = false) → (p' = Unlocking None → done o' = true) →
  (done (once st) = true → done o' = true) → (done o' = done (once st) ∨ holdsLock p = true) →
  onceTrace (tr ++ ev) → Inv (goto t p' o' st) (tr ++ ev).
Proof.
  intros HI Ht Hl Hok Hrun Hnil Hmono Hd Htr. pose proof HI as [HL HO HR HN HT].
  split; unfold goto; cbn [once threads]; [..|done].
  - rewrite (sumZ_insert _ _ _ _ _ Ht). lia.
  - rewrite (sumZ_insert _ _ _ _ _ Ht). lia.
  - intros t0 p0 [(<-&<-&_)|[Hne H0]]%list_lookup_insert_Some Hp0; [by apply Hrun|].
    destruct Hd as [->|Hlock]; [by eapply HR|]. exfalso. apply Hne. symmetry.
    eapply (alone st tr t p); [done|done|done|exact H0|]. by destruct Hp0 as [->| ->].
  - intros t0 p0 [(<-&<-&_)|[_ H0]]%list_lookup_insert_Some Hp0; [by apply Hnil|]. by apply Hmono, (HN t0 p0).
Qed.

(** Once done, nothing is being stored. *)
Lemma done_ok st tr : Inv st tr → done (once st) = true → okEvents tr = 1.
Proof.
  intros HI Hd. rewrite (inv_ok _ _ HI), Hd, sumZ_zero; [done|]. intros i p Hp. destruct p; try done.
  by rewrite (inv_run _ _ HI i Storing Hp (or_intror eq_refl)) in Hd.
Qed.

(** The holder of the mutex that stores nothing sees [done] as it is. *)
Lemma testing_ok st tr t p :
  Inv st tr → threads st !! t = Some p → holdsLock p = true → storing p = false →
  okEvents tr = b2n (done (once st)).
Proof.
  intros HI Ht Hl Hs. rewrite (inv_ok _ _ HI), sumZ_zero; [lia|]. intros i q Hq.
  destruct (decide (i = t)) as [->|Hne]; [assert (q = p) as -> by congruence; by rewrite Hs|].
  destruct q; try done. exfalso. apply Hne. by eapply (alone st tr t p).
Qed.

Lemma quiet_returns st tr t r :
  Inv st tr → (r = None → done (once st) = true) →
  okEvents (tr ++ returns t r) = okEvents tr ∧ onceTrace (tr ++ returns t r).
Proof.
  intros HI Hr. pose proof (inv_trace _ _ HI). destruct r as [e|]; cbn [returns]; [by rewrite app_nil_r|]. rewrite okEvents_snoc. cbn [b2n].
  split; [lia|]. apply onceTrace_snoc; [done|]. eapply done_ok; [done|by apply Hr].
Qed.

Lemma once_Inv_step st tr ev st' : Inv st tr → step st ev st' → Inv st' (tr ++ ev).
Proof.
  intros HI Hstep. pose proof HI as [HL HO HR HN HT].
  destruct Hstep as [|t Ht Hd|t Ht Hd|t Ht Hlk|t Ht Hd|t Ht Hd|t Ht|t e Ht|t Ht|t Ht|t r Ht|t Ht].
  - rewrite app_nil_r. split; cbn [once threads]; rewrite ?sumZ_app, ?sumZ_cons; [cbn; lia|cbn; lia| | |done].
    + intros t p [?|[_ H]]%lookup_app_Some; [by eapply HR|]. apply list_lookup_singleton_Some in H as [_ <-]. by intros [?|?].
    + intros t p [?|[_ H]]%lookup_app_Some; [by eapply HN|]. apply list_lookup_singleton_Some in H as [_ <-]. done.
  - destruct (quiet_returns st tr t None HI) as [H1 H2]; [done|].
    eapply once_Inv_goto; [done|exact Ht|done|rewrite H1; cbn; lia|by intros [?|?]|done|done|by left|done].
  - eapply once_Inv_goto; [done|exact Ht|done|rewrite app_nil_r; cbn; lia|by intros [?|?]|done|done|by left|by rewrite app_nil_r].
  - eapply once_Inv_goto; [done|exact Ht|rewrite Hlk; done|rewrite app_nil_r; cbn; lia|by intros [?|?]|done|done|by left|by rewrite app_nil_r].
  - eapply once_Inv_goto; [done|exact Ht|done|rewrite app_nil_r; cbn; lia|by intros [?|?]|done|done|by left|by rewrite app_nil_r].
  - pose proof (testing_ok _ _ _ _ HI Ht eq_refl eq_refl) as H0. rewrite Hd in H0.
    eapply once_Inv_goto; [done|exact Ht|done|rewrite okEvents_snoc; cbn; lia|done|done|done|by left|by apply onceTrace_snoc].
  - pose proof (HR t _ Ht (or_introl eq_refl)) as Hd.
    eapply once_Inv_goto; [done|exact Ht|done|rewrite okEvents_snoc; cbn; lia|done|done|done|by left|by apply onceTrace_snoc].
  - eapply once_Inv_goto; [done|exact Ht|done|rewrite okEvents_snoc; cbn; lia|by intros [?|?]|done|done|by left|by apply onceTrace_snoc].
  - eapply once_Inv_goto; [done|exact Ht|done|rewrite okEvents_snoc; cbn; lia|by intros [?|?]|done|done|by left|by apply onceTrace_snoc].
  - pose proof (HR t _ Ht (or_intror eq_refl)) as Hd.
    eapply once_Inv_goto; [done|exact Ht|done|rewrite app_nil_r, Hd; cbn; lia|by intros [?|?]|done|done|by right|by rewrite app_nil_r].
  - destruct (quiet_returns st tr t r HI) as [H1 H2]; [intros ->; by eapply HN|].
    eapply once_Inv_goto; [done|exact Ht| |rewrite H1; cbn; lia|by intros [?|?]|done|done|by left|done].
    by rewrite (locked_held st tr t _ HI Ht).
  - eapply once_Inv_goto; [done|exact Ht| |rewrite app_nil_r; cbn; lia|by intros [?|?]|done|done|by left|by rewrite app_nil_r].
    by rewrite (locked_held st tr t _ HI Ht).
Qed.

Lemma once_reach_inv st tr : reach st tr → Inv st tr.
Proof.
  induction 1 as [|st tr ev st' _ IH Hstep]; [|by eapply once_Inv_step]. split; try done.
  intros tr1 e tr2 Heq. by destruct tr1.
Qed.

Definition finished (p : pc) : bool := match p with Returned _ | Panicked => true | _ => false end.

(** The goroutine that holds the mutex can move. *)
Lemma holder_moves st tr t p :
  Inv st tr → threads st !! t = Some p → holdsLock p = true →
  ∃ ev p' o', step st ev (goto t p' o' st).
Proof.
  intros HI Ht Hp. destruct p; try done.
  - destruct (done (once st)) eqn:Hd; eexists _, _, _; [by eapply StepSkip|by eapply StepRun].
  - eexists _, _, _. by eapply StepOk.
  - eexists _, _, _. by eapply StepStore.
  - eexists _, _, _. by eapply StepUnlock.
  - eexists _, _, _. by eapply StepPanicked.
Qed.

End once.

Arguments pc _ : clear implicits.
Arguments state _ : clear implicits.
Arguments event _ : clear implicits.

(** C15. [Once.Do] under every interleaving, with functions that may fail or
    panic: two calls never run their functions at the same time; at most one
    function ever succeeds; none is run after one has succeeded, though any
    number may be run and fail before; and a call returns nil only after a
    function has succeeded. As long as some call has not returned, some
    goroutine can move. *)
Theorem Once_succeeds_once {E : Type} (st : state E) (tr : list (event E)) :
  reach st tr →
  (∀ t1 t2, threads st !! t1 = Some Running → threads st !! t2 = Some Running → t1 = t2) ∧
  okEvents tr ≤ 1 ∧
  (∀ tr1 t tr2, tr = tr1 ++ ERun t :: tr2 → okEvents tr1 = 0) ∧
  (∀ tr1 t tr2, tr = tr1 ++ ENil t :: tr2 → okEvents tr1 = 1) ∧
  (∀ t p, threads st !! t = Some p → finished p = false → ∃ ev t' p' o', step st ev (goto t' p' o' st)).
Proof.
  intros HI%once_reach_inv. pose proof HI as [HL HO HR HN HT]. split_and!.
  - intros t1 t2 H1 H2. by eapply (alone st tr t2).
  - destruct (done (once st)) eqn:Hd; [by rewrite (done_ok st tr HI Hd)|]. rewrite HO, ?Hd.
    assert (sumZ (λ p, b2n (storing p)) (threads st) ≤ sumZ (λ p, b2n (holdsLock p)) (threads st)).
    { apply sumZ_mono. intros p. by destruct p. }
    destruct (locked (once st)); cbn [b2n] in *; lia.
  - intros tr1 t tr2 ->. exact (HT _ _ _ eq_refl).
  - intros tr1 t tr2 ->. exact (HT _ _ _ eq_refl).
  - intros t p Ht Hp. destruct (holdsLock p) eqn:Hlk.
    { destruct (holder_moves st tr t p HI Ht Hlk) as (ev&p'&o'&?). eauto. }
    destruct p; try done.
    + destruct (done (once st)) eqn:Hd; eexists _, t, _, _; [by eapply StepFast|by eapply StepSlow].
    + destruct (locked (once st)) eqn:Hld; [|eexists _, t, _, _; by eapply StepLock].
      destruct (sumZ_b2n_pos holdsLock (threads st)) as (t'&p'&Ht'&Hp'); [rewrite <-HL; cbn; lia|].
      destruct (holder_moves st tr t' p' HI Ht' Hp') as (ev&p2&o'&?). eauto.
Qed.

Lemma Once_succeeds_once_witness :
  ∃ (st : state nat) tr, reach st tr ∧ tr = [ERun 0; EErr 0 7%nat; ERun 1; EOk 1; ENil 1] ∧ okEvents tr ≤ 1.
Proof.
  pose proof (@ReachInit nat) as H. do 2 (eapply ReachStep in H; [|apply StepCall]).
  eapply ReachStep in H; [|by apply (StepSlow _ 0)]. eapply ReachStep in H; [|by apply (StepSlow _ 1)].
  eapply ReachStep in H; [|by apply (StepLock _ 0)]. eapply ReachStep in H; [|by apply (StepRun _ 0)].
  eapply ReachStep in H; [|by apply (StepErr _ 0 7%nat)]. eapply ReachStep in H; [|by apply (StepUnlock _ 0 (Some 7%nat))].
  eapply ReachStep in H; [|by apply (StepLock _ 1)]. eapply ReachStep in H; [|by apply (StepRun _ 1)].
  eapply ReachStep in H; [|by apply (StepOk _ 1)]. eapply ReachStep in H; [|by apply (StepStore _ 1)].
  eapply ReachStep in H; [|by apply (StepUnlock _ 1 None)].
  eexists _, _. split; [exact H|]. split; [reflexivity|]. by apply (Once_succeeds_once _ _ H).
Defined.
