(* ===== verification/SyncGroup.v ===== *)
(** * syncutil: Gate and Group

    gate.go and group.go. As in [SingleFlight], a step is one critical section,
    or one access outside of one, of one goroutine. *)
From S2P Require Import Prelude.

(** ** Gate *)


(** A [chan struct{}]: its capacity and the number of values in it. *)
Record Gate := { capacity : Z; inside : Z }.

Definition NewGate (max : Z) : Gate := {| capacity := max; inside := 0 |}.

(** [g.c <- struct{}{}]; [None] while the channel is full. *)
Definition Start (g : Gate) : option Gate :=
  if inside g <? capacity g then Some {| capacity := capacity g; inside := inside g + 1 |} else None.

(** [None] is the panic. *)
Definition Done (g : Gate) : option Gate :=
  if 0 <? inside g then Some {| capacity := capacity g; inside := inside g - 1 |} else None.

Definition ok (g : Gate) : Prop := 0 ≤ inside g ≤ capacity g.

Lemma NewGate_ok max : 0 ≤ max → ok (NewGate max).
Proof. unfold ok, NewGate. cbn. lia. Qed.

Lemma Start_ok g g' : ok g → Start g = Some g' → ok g' ∧ inside g' = inside g + 1.
Proof. unfold ok, Start. destruct (Z.ltb_spec (inside g) (capacity g)); [|done]. intros ? [= <-]. cbn. lia. Qed.

Lemma Done_ok g g' : ok g → Done g = Some g' → ok g' ∧ inside g' = inside g - 1.
Proof. unfold ok, Done. destruct (Z.ltb_spec 0 (inside g)); [|done]. intros ? [= <-]. cbn. lia. Qed.

(** A [Done] after every [Start] does not panic. *)
Lemma Start_Done g g' : ok g → Start g = Some g' → Done g' = Some g.
Proof.
  destruct g as [c i]. unfold ok, Start, Done. cbn. destruct (Z.ltb_spec i c); [|done]. intros ? [= <-]. cbn.
  destruct (Z.ltb_spec 0 (i + 1)); [|lia]. do 2 f_equal. lia.
Qed.

(** ** Group *)

Section group.
Context {E : Type}.

(** [wg] and [errs]. *)
Record Group := { wg : Z; errs : list E }.

Definition Go (g : Group) : Group := {| wg := wg g + 1; errs := errs g |}.

(** A goroutine whose [fn] has returned [err]: the append, then [wg.Done]. *)
Definition record (err : option E) (g : Group) : Group :=
  match err with Some e => {| wg := wg g; errs := errs g ++ [e] |} | None => g end.
Definition finish (g : Group) : Group := {| wg := wg g - 1; errs := errs g |}.

(** [Wait] returns when the counter is zero. *)
Definition Wait (g : Group) : option Group := if wg g =? 0 then Some g else None.
Definition Err (g : Group) : option (option E) :=
  g ← Wait g; Some (if 0 <? Z.of_nat (length (errs g)) then head (errs g) else None).
Definition Errs (g : Group) : option (list E) := g ← Wait g; Some (errs g).

(** The goroutines that the group has started. *)
Inductive task := Working | Recorded | Finished.

Inductive step : Group * list task → option E → Group * list task → Prop :=
| StepGo g ts : step (g, ts) None (Go g, ts ++ [Working])
| StepRecord g ts i err : ts !! i = Some Working → step (g, ts) err (record err g, <[i := Recorded]> ts)
| StepFinish g ts i : ts !! i = Some Recorded → step (g, ts) None (finish g, <[i := Finished]> ts).

(** With the errors that the functions returned, in the order of the appends. *)
Inductive reach : Group * list task → list E → Prop :=
| ReachInit : reach ({| wg := 0; errs := [] |}, []) []
| ReachStep st es err st' : reach st es → step st err st' → reach st' (es ++ option_list err).

Definition pending (t : task) : Z := match t with Finished => 0 | _ => 1 end.

Lemma group_reach_inv st es : reach st es → wg st.1 = sumZ pending st.2 ∧ errs st.1 = es.
Proof.
  induction 1 as [|st es err st' _ [IH1 IH2] Hstep]; [done|]. destruct Hstep as [g ts|g ts i err Ht|g ts i Ht]; cbn [fst snd] in *.
  - rewrite app_nil_r. cbn. rewrite sumZ_app, IH1. split; [cbn; lia|done].
  - rewrite (sumZ_insert _ _ _ _ _ Ht). destruct err; cbn; [rewrite IH2|rewrite app_nil_r]; (split; [lia|done]).
  - rewrite (sumZ_insert _ _ _ _ _ Ht), app_nil_r. cbn. split; [lia|done].
Qed.

(** When [Wait] returns every function has, and [Errs] has all their errors. *)
Lemma Errs_complete g ts es l :
  reach (g, ts) es → Errs g = Some l → l = es ∧ ∀ i t, ts !! i = Some t → t = Finished.
Proof.
  intros [Hwg Herrs]%group_reach_inv. cbn [fst snd] in *. unfold Errs, Wait. destruct (Z.eqb_spec (wg g) 0) as [H0|]; [|done].
  intros [= <-]. split; [done|]. intros i t Ht. pose proof (sumZ_le_lookup pending ts i t) as Hle.
  rewrite <-Hwg, H0 in Hle. destruct t; [| |done]; cbn [pending] in Hle; exfalso.
  all: assert (1 ≤ 0) by (apply Hle; [intros j x _; by destruct x|done]); lia.
Qed.

Lemma Err_first g ts es e :
  reach (g, ts) es → Err g = Some e → e = head es.
Proof.
  intros [_ Herrs]%group_reach_inv. cbn [fst snd] in Herrs. unfold Err, Wait. destruct (wg g =? 0); [|done]. cbn. rewrite Herrs.
  intros [= <-]. by destruct es.
Qed.

End group.
