(* ===== verification/Rollsum.v ===== *)
(** * rollsum: the rolling checksum

    rollsum.go: the state machine of the checksum, and its meaning as a
    function of the last 64 bytes. *)
From S2P Require Import Prelude.

Definition windowSize : Z := 64.
Definition charOffset : Z := 31.
Definition blobBits : Z := 13.
Definition blobSize : Z := 8192.

Record RollSum := MkRollSum {
  s1 : Z; s2 : Z;             (* uint32 *)
  window : list byte;         (* an array of windowSize bytes *)
  wofs : Z }.

Definition New : RollSum :=
  MkRollSum (windowSize * charOffset) (windowSize * (windowSize - 1) * charOffset)
    (replicate (Z.to_nat windowSize) x00) 0.

Definition add (rs : RollSum) (drop add : Z) : RollSum :=
  let s := u32 (u32 (s1 rs + add) - drop) in
  MkRollSum s (u32 (s2 rs + u32 (s - u32 (windowSize * u32 (drop + charOffset))))) (window rs) (wofs rs).

(** [None] is the panic of an index outside the array. *)
Definition Roll (rs : RollSum) (ch : byte) : option RollSum :=
  wp ← zidx (window rs) (wofs rs);
  let rs := add rs (b2z wp) (b2z ch) in
  w ← zset (window rs) (wofs rs) ch;
  Some (MkRollSum (s1 rs) (s2 rs) w (Z.land (wofs rs + 1) (windowSize - 1))).

Definition OnSplit (rs : RollSum) : bool :=
  Z.land (s2 rs) (blobSize - 1) =? Z.land (-1) (blobSize - 1).

(** A shift by 32 or more gives 0. *)
Definition OnSplitWithBits (rs : RollSum) (n : Z) : bool :=
  let mask := u32 (u32 (Z.shiftl 1 n) - 1) in
  Z.land (s2 rs) mask =? Z.land (2 ^ 32 - 1) mask.

Definition Digest (rs : RollSum) : Z :=
  Z.lor (u32 (Z.shiftl (s1 rs) 16)) (Z.land (s2 rs) 65535).

(** [bits.TrailingZeros32(x)] *)
Fixpoint trailingZeros (fuel : nat) (x : Z) : Z :=
  match fuel with
  | O => 0
  | S fuel => if Z.testbit x 0 then 0 else 1 + trailingZeros fuel (Z.shiftr x 1)
  end.

Definition Bits (rs : RollSum) : Z :=
  let rsum := Z.shiftr (Digest rs) (blobBits + 1) in
  blobBits + trailingZeros 32 (u32 (Z.lnot rsum)).

Fixpoint rollAll (rs : RollSum) (bs : list byte) : option RollSum :=
  match bs with
  | [] => Some rs
  | b :: bs => rs ← Roll rs b; rollAll rs bs
  end.

(** ** Reference definition *)

(** The sum of the bytes, and the sum weighted by age: the newest byte counts
    once, the oldest of 64 counts 64 times. *)
Fixpoint plainSum (w : list byte) : Z :=
  match w with [] => 0 | b :: w => b2z b + plainSum w end.
Fixpoint agedSum (w : list byte) : Z :=
  match w with [] => 0 | b :: w => Z.of_nat (S (length w)) * b2z b + agedSum w end.

Definition refS1 (w : list byte) : Z := (windowSize * charOffset + plainSum w) mod 2 ^ 32.
Definition refS2 (w : list byte) : Z := (windowSize * (windowSize - 1) * charOffset + agedSum w) mod 2 ^ 32.

(** The last 64 bytes of a stream that begins with 64 zeros. *)
Definition lastWindow (bs : list byte) : list byte :=
  drop (length bs) (replicate (Z.to_nat windowSize) x00 ++ bs).

(** ** Lemmas *)

Lemma plainSum_app a b : plainSum (a ++ b) = plainSum a + plainSum b.
Proof. induction a as [|x a IH]; simpl; lia. Qed.

Lemma agedSum_snoc w b : agedSum (w ++ [b]) = agedSum w + plainSum w + b2z b.
Proof.
  induction w as [|x w IH]; [cbn; lia|]. cbn [app agedSum plainSum]. rewrite IH, length_app. cbn [length].
  replace (Z.of_nat (S (length w + 1))) with (Z.of_nat (S (length w)) + 1) by lia. lia.
Qed.

(** The window, oldest byte first. *)
Definition ring (rs : RollSum) : list byte :=
  drop (Z.to_nat (wofs rs)) (window rs) ++ take (Z.to_nat (wofs rs)) (window rs).

(** The state agrees with the reference on its window. *)
Record Agrees (rs : RollSum) (w : list byte) : Prop := {
  ag_len : length (window rs) = Z.to_nat windowSize;
  ag_ofs : 0 ≤ wofs rs < windowSize;
  ag_ring : ring rs = w;
  ag_s1 : s1 rs = refS1 w;
  ag_s2 : s2 rs = refS2 w;
}.

Lemma agrees_length rs w : Agrees rs w → length w = 64%nat.
Proof.
  intros [Hl Ho <- _ _]. unfold ring. rewrite length_app, length_drop, length_take, Hl. unfold windowSize in *. lia.
Qed.

Lemma land_63 x : Z.land x (windowSize - 1) = x mod 64.
Proof. change (windowSize - 1) with (Z.ones 6). by rewrite Z.land_ones. Qed.

(** Rotating the array: dropping the oldest byte and adding the newest. *)
Lemma ring_set (l : list byte) (k : nat) (old new : byte) :
  l !! k = Some old →
  drop k l ++ take k l = old :: (drop (S k) l ++ take k l) ∧
  (if decide (S k = length l) then <[k:=new]> l else drop (S k) (<[k:=new]> l) ++ take (S k) (<[k:=new]> l))
  = (drop (S k) l ++ take k l) ++ [new].
Proof.
  intros Hk. pose proof (lookup_lt_Some _ _ _ Hk) as Hlt. split.
  - by rewrite (drop_S l old k Hk).
  - assert (take (S k) (<[k:=new]> l) = take k l ++ [new]) as Ht.
    { rewrite (take_S_r _ k new) by (apply list_lookup_insert_eq; lia). by rewrite take_insert_ge by lia. }
    assert (drop (S k) (<[k:=new]> l) = drop (S k) l) as Hd by (apply drop_insert_lt; lia).
    case_decide as Hend.
    + rewrite <-(take_drop (S k) (<[k:=new]> l)), Ht, Hd. rewrite (drop_ge l) by lia. by rewrite app_nil_r.
    + by rewrite Ht, Hd, app_assoc.
Qed.

Lemma mod_eq_add a b m c : a mod m = b → (a + c) mod m = (b + c) mod m.
Proof. intros <-. by rewrite Zplus_mod_idemp_l. Qed.

Lemma add_sums s s' drop new w :
  s = refS1 (drop :: w) → s' = refS2 (drop :: w) → length w = 63%nat →
  s1 (add (MkRollSum s s' [] 0) (b2z drop) (b2z new)) = refS1 (w ++ [new]) ∧
  s2 (add (MkRollSum s s' [] 0) (b2z drop) (b2z new)) = refS2 (w ++ [new]).
Proof.
  intros -> -> Hl. unfold add, refS1, refS2, u32, wrapU. cbn [s1 s2 agedSum plainSum].
  rewrite Hl, plainSum_app, agedSum_snoc. change (Z.of_nat 64) with 64. cbn [plainSum]. unfold windowSize, charOffset.
  generalize (plainSum w) as p, (agedSum w) as a, (b2z drop) as d, (b2z new) as n. intros p a d n.
  split; zlia.
Qed.

(** One byte: the oldest leaves the window. *)
Lemma Roll_agrees rs w ch old :
  Agrees rs (old :: w) → wp (Roll rs ch) (λ rs', Agrees rs' (w ++ [ch])).
Proof.
  intros Hag. pose proof (agrees_length _ _ Hag) as Hw. destruct Hag as [Hl Ho Hr H1 H2].
  unfold windowSize in Hl, Ho. unfold Roll.
  destruct (zidx_Some (window rs) (wofs rs)) as (o&->&Hlk); [lia|]. cbn [mbind option_bind].
  destruct (ring_set (window rs) (Z.to_nat (wofs rs)) o ch Hlk) as [Hold Hnew].
  unfold ring in Hr. rewrite Hold in Hr. injection Hr as -> Hrest.
  cbn [window wofs add]. unfold zset. rewrite (proj2 (Z.ltb_ge (wofs rs) 0)) by lia.
  rewrite (proj2 (Z.leb_gt (zlen (window rs)) (wofs rs))) by lia. cbn [orb mbind option_bind].
  destruct (add_sums _ _ old ch w H1 H2) as [Hs1 Hs2]; [simpl in Hw; lia|].
  apply wp_Some. rewrite land_63. split; cbn [window wofs s1 s2].
  - by rewrite length_insert.
  - unfold windowSize. zlia.
  - unfold ring. cbn [window wofs]. rewrite <-Hrest, <-Hnew. clear Hnew Hold. case_decide as Hend; rewrite Hl in Hend.
    + replace ((wofs rs + 1) mod 64) with 0 by (replace (wofs rs + 1) with 64 by lia; done).
      cbn [Z.to_nat drop take]. by rewrite app_nil_r.
    + rewrite Z.mod_small by lia. by replace (Z.to_nat (wofs rs + 1)) with (S (Z.to_nat (wofs rs))) by lia.
  - exact Hs1.
  - exact Hs2.
Qed.

Lemma rollAll_agrees rs w bs :
  Agrees rs w → wp (rollAll rs bs) (λ rs', Agrees rs' (drop (length bs) (w ++ bs))).
Proof.
  revert rs w. induction bs as [|b bs IH]; intros rs w Hag; cbn [rollAll length].
  { rewrite app_nil_r. by apply wp_Some. }
  pose proof (agrees_length _ _ Hag). destruct w as [|old w]; [done|].
  apply wp_bind. eapply wp_mono; [by eapply Roll_agrees|]. intros rs' Hag'.
  cbn [app drop]. replace (w ++ b :: bs) with ((w ++ [b]) ++ bs) by (by rewrite <-app_assoc). by apply IH.
Qed.

Lemma New_agrees : Agrees New (replicate (Z.to_nat windowSize) x00).
Proof. split; done. Qed.

(** ** The number of trailing ones *)

(** The bits of [x] below [k] are ones, and bit [k] is zero. *)
Definition trailingOnes (x k : Z) : Prop := 0 ≤ k ∧ x mod 2 ^ (k + 1) = 2 ^ k - 1.

Lemma trailingOnes_unique x k k' : trailingOnes x k → trailingOnes x k' → k = k'.
Proof.
  assert (∀ k k', k < k' → trailingOnes x k → ¬ trailingOnes x k') as Hlt.
  { clear. intros k k' Hk [Hk0 H1] [_ H2].
    assert (Z.testbit (x mod 2 ^ (k + 1)) k = Z.testbit (x mod 2 ^ (k' + 1)) k) as E
      by (by rewrite !Z.mod_pow2_bits_low by lia).
    rewrite H1, H2, !Z.sub_1_r, <-!Z.ones_equiv in E. rewrite Z.ones_spec_high, Z.ones_spec_low in E by lia. done. }
  intros H H'. destruct (Z.lt_trichotomy k k') as [Hk|[Hk|Hk]]; [by destruct (Hlt _ _ Hk H)|done|by destruct (Hlt _ _ Hk H')].
Qed.

Lemma trailingZeros_spec fuel x k :
  0 ≤ k < Z.of_nat fuel → Z.testbit x k = true → (∀ i, 0 ≤ i < k → Z.testbit x i = false) → trailingZeros fuel x = k.
Proof.
  revert x k. induction fuel as [|fuel IH]; intros x k Hk Hx Hlow; [lia|]. cbn [trailingZeros].
  destruct (decide (k = 0)) as [->|]; [by rewrite Hx|]. rewrite Hlow by lia. rewrite (IH _ (k - 1)); [lia|lia| |].
  - rewrite Z.shiftr_spec by lia. by replace (k - 1 + 1) with k by lia.
  - intros i Hi. rewrite Z.shiftr_spec by lia. apply Hlow. lia.
Qed.

(** The first zero of a number below [2 ^ n]. *)
Lemma first_zero n x :
  0 ≤ x < 2 ^ Z.of_nat n → ∃ k, 0 ≤ k ≤ Z.of_nat n ∧ Z.testbit x k = false ∧ ∀ i, 0 ≤ i < k → Z.testbit x i = true.
Proof.
  intros Hx. assert (∀ m, (m ≤ n)%nat → (∀ i, 0 ≤ i < Z.of_nat m → Z.testbit x i = true) ∨
    ∃ k, 0 ≤ k < Z.of_nat m ∧ Z.testbit x k = false ∧ ∀ i, 0 ≤ i < k → Z.testbit x i = true) as H.
  { induction m as [|m IH]; intros Hm; [left; lia|]. destruct IH as [IH|(k&Hk&?)]; [lia| |right; exists k; split; [lia|done]].
    destruct (Z.testbit x (Z.of_nat m)) eqn:E; [left|right; exists (Z.of_nat m); split_and!; [lia|lia|done|done]].
    intros i Hi. destruct (decide (i = Z.of_nat m)) as [->|]; [done|apply IH; lia]. }
  destruct (H n ltac:(done)) as [Hall|(k&Hk&?)]; [|exists k; split; [lia|done]].
  exists (Z.of_nat n). split_and!; [lia|lia| |done]. rewrite <-(Z.mod_small x (2 ^ Z.of_nat n)) by done.
  apply Z.mod_pow2_bits_high. lia.
Qed.

(** [bits.TrailingZeros32(^x)] counts the trailing ones of [x], if [x] does not
    fill the 32 bits. *)
Lemma trailingZeros_lnot n x :
  (n < 32)%nat → 0 ≤ x < 2 ^ Z.of_nat n →
  trailingOnes x (trailingZeros 32 (u32 (Z.lnot x))) ∧ trailingZeros 32 (u32 (Z.lnot x)) ≤ Z.of_nat n.
Proof.
  intros Hn Hx. destruct (first_zero n x Hx) as (k&Hk&Hzero&Hones).
  assert (∀ i, 0 ≤ i < 32 → Z.testbit (u32 (Z.lnot x)) i = negb (Z.testbit x i)) as Hbit.
  { intros i Hi. unfold wrapU. by rewrite Z.mod_pow2_bits_low, Z.lnot_spec by lia. }
  rewrite (trailingZeros_spec 32 _ k); [|lia|by rewrite Hbit, Hzero by lia|intros i Hi; by rewrite Hbit, Hones by lia].
  split; [|lia]. split; [lia|]. rewrite Z.sub_1_r, <-Z.ones_equiv. apply Z.bits_inj'. intros i Hi.
  destruct (decide (i < k)); [by rewrite Z.mod_pow2_bits_low, Hones, Z.ones_spec_low by lia|].
  rewrite Z.ones_spec_high by lia. destruct (decide (i = k)) as [->|]; [by rewrite Z.mod_pow2_bits_low by lia|].
  by rewrite Z.mod_pow2_bits_high by lia.
Qed.

(** ** Properties *)

(** The digest of a window. *)
Definition refDigest (w : list byte) : Z := refS1 w mod 2 ^ 16 * 2 ^ 16 + refS2 w mod 2 ^ 16.

Lemma Digest_spec rs w : s1 rs = refS1 w → s2 rs = refS2 w → Digest rs = refDigest w.
Proof.
  intros H1 H2. unfold Digest, refDigest. rewrite <-H1, <-H2. unfold wrapU. rewrite Z.shiftl_mul_pow2 by done.
  change 65535 with (Z.ones 16). rewrite Z.land_ones by done.
  change (2 ^ 32) with (2 ^ 16 * 2 ^ 16). rewrite Z.mul_mod_distr_r by done.
  rewrite Z.add_nocarry_lor; [done|]. apply Z.bits_inj'. intros i Hi. rewrite Z.land_spec, Z.bits_0.
  destruct (decide (i < 16)).
  + by rewrite Z.mul_pow2_bits_low.
  + by rewrite (Z.mod_pow2_bits_high (s2 rs)), andb_false_r by lia.
Qed.

Lemma refDigest_range w : 0 ≤ refDigest w < 2 ^ 32.
Proof.
  unfold refDigest. pose proof (Z.mod_pos_bound (refS1 w) (2 ^ 16)). pose proof (Z.mod_pos_bound (refS2 w) (2 ^ 16)). lia.
Qed.

(** C25. After any bytes, the checksum is a function of the last 64 of them (of
    zeros, before the first 64): the sums with their weights, modulo 2^32,
    computed from scratch, the digest made of them, the split test, and [Bits],
    which is 13 and the number of trailing ones of the digest without its lowest
    14 bits. In particular streams that end in the same 64 bytes have the same
    digest and split at the same place. *)
Theorem Roll_depends_on_window (bs : list byte) :
  wp (rollAll New bs) (λ rs,
    s1 rs = refS1 (lastWindow bs) ∧ s2 rs = refS2 (lastWindow bs) ∧
    Digest rs = refDigest (lastWindow bs) ∧
    (∀ n, 0 ≤ n ≤ 32 → OnSplitWithBits rs n = true ↔ refS2 (lastWindow bs) mod 2 ^ n = 2 ^ n - 1) ∧
    OnSplit rs = OnSplitWithBits rs blobBits ∧
    trailingOnes (refDigest (lastWindow bs) / 2 ^ 14) (Bits rs - blobBits)).
Proof.
  eapply wp_mono; [by apply rollAll_agrees, New_agrees|]. intros rs [_ _ _ H1 H2].
  fold (lastWindow bs) in *. pose proof (Digest_spec rs _ H1 H2) as Hdig. split_and!; [done|done|exact Hdig| | |].
  - intros n Hn. unfold OnSplitWithBits. rewrite <-H2. cbv zeta.
    assert (u32 (u32 (Z.shiftl 1 n) - 1) = Z.ones n) as ->.
    { unfold wrapU. rewrite Z.shiftl_1_l, Z.ones_equiv, <-Z.sub_1_r. assert (0 < 2 ^ n ≤ 2 ^ 32).
      { split; [by apply Z.pow_pos_nonneg; lia|apply Z.pow_le_mono_r; lia]. }
      destruct (decide (n = 32)) as [->|]; [done|].
      assert (2 ^ n < 2 ^ 32) by (apply Z.pow_lt_mono_r; lia). rewrite !Z.mod_small by (rewrite ?Z.mod_small; lia). done. }
    rewrite !Z.land_ones by lia.
    assert ((2 ^ 32 - 1) mod 2 ^ n = 2 ^ n - 1) as ->; [|by rewrite Z.eqb_eq].
    assert (0 < 2 ^ n) by (apply Z.pow_pos_nonneg; lia).
    assert (2 ^ 32 = 2 ^ n * 2 ^ (32 - n)) as E by (rewrite <-Z.pow_add_r by lia; f_equal; lia).
    symmetry. apply Z.mod_unique_pos with (2 ^ (32 - n) - 1); [lia|]. rewrite E. ring.
  - unfold OnSplit, OnSplitWithBits, blobSize, blobBits. done.
  - unfold Bits. rewrite Z.shiftr_div_pow2, Hdig by done. change (blobBits + 1) with 14. rewrite Z.add_simpl_l.
    apply (trailingZeros_lnot 18); [lia|]. pose proof (refDigest_range (lastWindow bs)). change (2 ^ Z.of_nat 18) with (2 ^ 18).
    split; [apply Z.div_pos; lia|]. apply Z.div_lt_upper_bound; lia.
Qed.
