(* ===== verification/WriterUtil.v ===== *)
(** * writerutil: the prefix and suffix of what was written

    writerutil.go: a [PrefixSuffixSaver] with its ring buffer, against the
    whole stream of bytes written. *)
From S2P Require Import Prelude.

Record PrefixSuffixSaver := Saver {
  N : Z;
  prefix : list byte;
  suffix : list byte;       (* a ring buffer once it is full *)
  suffixOff : Z;
  skipped : Z }.

Definition minInt (a b : Z) : Z := if a <? b then a else b.

(** [w.fill(dst, p)]: the new [*dst] and the remaining [p]. *)
Definition fill (n : Z) (dst p : list byte) : option (list byte * list byte) :=
  let remain := n - zlen dst in
  if 0 <? remain then
    let add := minInt (zlen p) remain in
    a ← zslice p 0 add;
    r ← zslice p add (zlen p);
    Some (dst ++ a, r)
  else Some (dst, p).

(** The loop of [Write]. *)
Definition writeBody (st : PrefixSuffixSaver * list byte) :
    option (PrefixSuffixSaver * list byte + PrefixSuffixSaver) :=
  let '(w, p) := st in
  if 0 <? zlen p then
    room ← zslice (suffix w) (suffixOff w) (zlen (suffix w));
    let n := minInt (zlen room) (zlen p) in
    let suf := take (Z.to_nat (suffixOff w)) (suffix w) ++ take (Z.to_nat n) p ++ drop (Z.to_nat n) room in
    rest ← zslice p n (zlen p);
    let off := suffixOff w + n in
    continue (Saver (N w) (prefix w) suf (if off =? N w then 0 else off) (skipped w + n), rest)
  else break w.

(** [w.Write(p)]; an overage longer than [p] is the panic of [p[overage:]],
    and a full buffer of length 0 would loop for ever. *)
Definition Write (w : PrefixSuffixSaver) (p : list byte) : option (Z * PrefixSuffixSaver) :=
  let lenp := zlen p in
  '(pre, p) ← fill (N w) (prefix w) p;
  let w := Saver (N w) pre (suffix w) (suffixOff w) (skipped w) in
  let overage := zlen p - N w in
  '(p, w) ← (if 0 <? overage then
               p ← zslice p overage (zlen p);
               Some (p, Saver (N w) (prefix w) (suffix w) (suffixOff w) (skipped w + overage))
             else Some (p, w));
  '(suf, p) ← fill (N w) (suffix w) p;
  let w := Saver (N w) (prefix w) suf (suffixOff w) (skipped w) in
  w ← loop (length p + 1) writeBody (w, p);
  Some (lenp, w).

(** Decimal digits ([strconv.FormatInt] of a number that is not negative). *)
Fixpoint digits (fuel : nat) (n : Z) : list byte :=
  match fuel with
  | O => []
  | S fuel => (if n <? 10 then [] else digits fuel (n / 10)) ++ [z2b (48 + n mod 10)]
  end.
Definition formatInt (n : Z) : list byte := digits 20 n.

Definition omitting (n : Z) : list byte :=
  String.list_byte_of_string "
... omitting " ++ formatInt n ++ String.list_byte_of_string " bytes ...
".

(** [w.Bytes()] *)
Definition Bytes (w : PrefixSuffixSaver) : list byte :=
  match suffix w with
  | [] => prefix w
  | _ =>
      if skipped w =? 0 then prefix w ++ suffix w
      else prefix w ++ omitting (skipped w) ++
           drop (Z.to_nat (suffixOff w)) (suffix w) ++ take (Z.to_nat (suffixOff w)) (suffix w)
  end.

Definition newSaver (n : Z) : PrefixSuffixSaver := Saver n [] [] 0 0.

Fixpoint writeAll (w : PrefixSuffixSaver) (ps : list (list byte)) : option PrefixSuffixSaver :=
  match ps with
  | [] => Some w
  | p :: ps => '(_, w) ← Write w p; writeAll w ps
  end.

(** ** Specification: what is kept of the stream [all] *)

(** The last [k] bytes. *)
Definition lastn (k : nat) (l : list byte) : list byte := drop (length l - k) l.

Definition kept (n : Z) (all : list byte) : list byte :=
  if zlen all <=? 2 * n then all
  else take (Z.to_nat n) all ++ omitting (zlen all - 2 * n) ++ lastn (Z.to_nat n) all.

(** The saver represents the stream [all]. *)
Record Represents (n : Z) (all : list byte) (w : PrefixSuffixSaver) : Prop := {
  rp_N : N w = n;
  rp_prefix : prefix w = take (Z.to_nat n) all;
  rp_off : 0 ≤ suffixOff w < n ∨ suffixOff w = 0;
  rp_skipped : skipped w = Z.max 0 (zlen all - 2 * n);
  rp_suffix : drop (Z.to_nat (suffixOff w)) (suffix w) ++ take (Z.to_nat (suffixOff w)) (suffix w) =
              lastn (Z.to_nat n) (drop (Z.to_nat n) all);
  rp_linear : skipped w = 0 → suffixOff w = 0;
}.

Lemma lastn_app_le k a b : (length b ≤ k)%nat → lastn k (a ++ b) = lastn (k - length b) a ++ b.
Proof.
  intros H. unfold lastn. rewrite length_app, drop_app.
  replace (length a + length b - k - length a)%nat with 0%nat by lia. rewrite drop_0. f_equal. f_equal. lia.
Qed.

Lemma lastn_all k l : (length l ≤ k)%nat → lastn k l = l.
Proof. intros. unfold lastn. by replace (length l - k)%nat with 0%nat by lia. Qed.

Lemma lastn_app_ge k a b : (k ≤ length b)%nat → lastn k (a ++ b) = lastn k b.
Proof. intros H. unfold lastn. rewrite length_app, drop_app_ge by lia. f_equal. lia. Qed.

Lemma length_lastn k l : length (lastn k l) = Nat.min k (length l).
Proof. unfold lastn. rewrite length_drop. lia. Qed.

Lemma fill_spec n dst p :
  0 ≤ n → zlen dst ≤ n →
  fill n dst p = Some (take (Z.to_nat n) (dst ++ p), drop (Z.to_nat n - length dst) p).
Proof.
  intros Hn Hd. unfold fill, minInt. rewrite take_app. destruct (Z.ltb_spec 0 (n - zlen dst)).
  - rewrite !zslice_Some by (destruct (Z.ltb_spec (zlen p) (n - zlen dst)); lia). cbn [mbind option_bind].
    rewrite Z.sub_0_r, (take_ge dst) by lia. change (Z.to_nat 0) with 0%nat. rewrite drop_0.
    destruct (Z.ltb_spec (zlen p) (n - zlen dst)).
    + rewrite Z.sub_diag, Nat2Z.id, (take_ge p (length p)), (take_ge p), (drop_ge p (_ - _)) by lia. done.
    + replace (Z.to_nat (n - zlen dst)) with (Z.to_nat n - length dst)%nat by lia. do 2 f_equal.
      apply take_ge. rewrite length_drop. lia.
  - replace (Z.to_nat n - length dst)%nat with 0%nat by lia. rewrite take_ge by lia. by rewrite app_nil_r, drop_0.
Qed.

(** The ring buffer, oldest byte first. *)
Definition oldestFirst (w : PrefixSuffixSaver) : list byte :=
  drop (Z.to_nat (suffixOff w)) (suffix w) ++ take (Z.to_nat (suffixOff w)) (suffix w).

(** Overwriting [k] bytes from [off] on. *)
Lemma ring_write (l x : list byte) (off k : nat) :
  length x = k → (off + k ≤ length l)%nat →
  let l' := take off l ++ x ++ drop k (drop off l) in
  let off' := if decide (off + k = length l)%nat then 0%nat else (off + k)%nat in
  length l' = length l ∧ drop off' l' ++ take off' l' = drop k (drop off l ++ take off l) ++ x.
Proof.
  intros Hx Hle l' off'. assert (length l' = length l) as Hl.
  { unfold l'. rewrite !length_app, length_take, !length_drop. lia. }
  split; [done|]. rewrite (drop_app_le (drop off l)) by (rewrite length_drop; lia).
  assert (l' = (take off l ++ x) ++ drop k (drop off l)) as Hl' by (unfold l'; by rewrite app_assoc).
  assert (length (take off l ++ x) = (off + k)%nat) as Hlen by (rewrite length_app, length_take; lia).
  unfold off'. case_decide.
  - rewrite drop_0, take_0, app_nil_r, Hl'. rewrite (drop_ge (drop off l)) by (rewrite length_drop; lia). by rewrite app_nil_r.
  - rewrite Hl', drop_app_length', take_app_length' by done. by rewrite app_assoc.
Qed.

Lemma writeLoop_spec w p fuel :
  zlen (suffix w) = N w → 0 ≤ suffixOff w < N w → zlen p ≤ N w → (length p < fuel)%nat →
  wp (loop fuel writeBody (w, p)) (λ w',
    N w' = N w ∧ prefix w' = prefix w ∧ zlen (suffix w') = N w ∧ 0 ≤ suffixOff w' < N w ∧
    oldestFirst w' = drop (length p) (oldestFirst w ++ p) ∧ skipped w' = skipped w + zlen p).
Proof.
  revert w p. induction fuel as [|fuel IH]; intros w p Hs Hoff Hp Hf; [lia|]. cbn [loop writeBody].
  destruct (Z.ltb_spec 0 (zlen p)) as [Hpos|]; cbn [mbind option_bind].
  2:{ destruct p; [|simpl in *; lia]. cbn. rewrite app_nil_r. split_and!; (done || lia). }
  rewrite zslice_Some by lia. cbn [mbind option_bind].
  assert (take (Z.to_nat (zlen (suffix w) - suffixOff w)) (drop (Z.to_nat (suffixOff w)) (suffix w))
          = drop (Z.to_nat (suffixOff w)) (suffix w)) as -> by (apply take_ge; rewrite length_drop; lia).
  set (room := drop _ (suffix w)). assert (zlen room = N w - suffixOff w) as Hroom by (unfold room; rewrite length_drop; lia).
  set (n := minInt (zlen room) (zlen p)).
  assert (0 < n ∧ n ≤ zlen p ∧ n ≤ zlen room) as (Hn&Hnp&Hnr) by (unfold n, minInt; destruct (Z.ltb_spec (zlen room) (zlen p)); lia).
  rewrite zslice_Some by lia. unfold continue. cbn [mbind option_bind]. rewrite (take_ge (drop (Z.to_nat n) p)) by (rewrite length_drop; lia).
  pose proof (ring_write (suffix w) (take (Z.to_nat n) p) (Z.to_nat (suffixOff w)) (Z.to_nat n)) as Hring.
  cbv zeta in Hring. fold room in Hring. destruct Hring as [Hlen Hring]; [rewrite length_take; lia|lia|].
  set (w1 := Saver _ _ _ _ _).
  assert (oldestFirst w1 = drop (Z.to_nat n) (oldestFirst w) ++ take (Z.to_nat n) p ∧ 0 ≤ suffixOff w1 < N w) as [Hold Hoff1].
  { unfold oldestFirst, w1. cbn [suffix suffixOff]. fold room. rewrite <-Hring.
    destruct (Z.eqb_spec (suffixOff w + n) (N w)); case_decide; try lia.
    - split; [done|lia].
    - replace (Z.to_nat (suffixOff w + n)) with (Z.to_nat (suffixOff w) + Z.to_nat n)%nat by lia. split; [done|lia]. }
  assert (length (oldestFirst w) = length (suffix w)) as Hlo.
  { unfold oldestFirst. rewrite length_app, length_drop, length_take. lia. }
  eapply wp_mono; [apply IH|].
  - unfold w1. cbn [suffix N]. rewrite Hlen. done.
  - done.
  - unfold w1. cbn [N]. rewrite length_drop. lia.
  - rewrite length_drop. lia.
  - intros w' (H1&H2&H3&[H4a H4b]&H5&H6). split_and!; try done.
    + rewrite H5, Hold, length_drop. rewrite <-app_assoc, take_drop.
      rewrite (drop_app_le (oldestFirst w) p (length p)) by lia.
      rewrite drop_app_le by (rewrite length_drop; lia). rewrite drop_drop. do 2 f_equal. lia.
    + rewrite H6, length_drop. unfold w1. cbn [skipped]. lia.
Qed.

(** Filling the buffer up, and appending what did not fit, leaves the last
    bytes. *)
Lemma ring_after_fill (m : nat) (A suf p2 : list byte) (off : nat) :
  (length p2 ≤ m)%nat → length suf = Nat.min m (length A) → ((length suf < m)%nat → off = 0%nat) →
  drop off suf ++ take off suf = lastn m A →
  let p3 := drop (m - length suf) p2 in
  let suf' := take m (suf ++ p2) in
  drop (length p3) ((drop off suf' ++ take off suf') ++ p3) = lastn m (A ++ p2).
Proof.
  intros Hp Hs Hoff Hring p3 suf'. rewrite lastn_app_le by done. unfold suf'.
  assert (length p3 = length p2 - (m - length suf))%nat as Hp3 by (unfold p3; by rewrite length_drop).
  destruct (decide (length suf < m)%nat) as [Hsmall|Hfull].
  - rewrite (Hoff Hsmall) in *. rewrite drop_0, take_0, app_nil_r in *. rewrite lastn_all in Hring by lia. subst suf.
    assert (take m (A ++ p2) ++ p3 = A ++ p2) as ->.
    { unfold p3. rewrite take_app, <-app_assoc. rewrite (take_ge A) by lia. f_equal. apply take_drop. }
    unfold lastn. rewrite drop_app_le by lia. do 2 f_equal. lia.
  - rewrite take_app_le by lia. rewrite (take_ge suf) by lia. rewrite Hring.
    assert (p3 = p2) as -> by (unfold p3; by replace (m - length suf)%nat with 0%nat by lia).
    rewrite drop_app_le by (rewrite length_lastn; lia). f_equal. unfold lastn. rewrite drop_drop. f_equal. lia.
Qed.

(** Only the last [n] bytes of what does not fit the prefix are looked at. *)
Lemma trim_spec n pre suf off sk p :
  0 ≤ n →
  (if 0 <? zlen p - n
   then q ← zslice p (zlen p - n) (zlen p); Some (q, Saver n pre suf off (sk + (zlen p - n)))
   else Some (p, Saver n pre suf off sk)) =
  Some (lastn (Z.to_nat n) p, Saver n pre suf off (sk + Z.max 0 (zlen p - n))).
Proof.
  intros Hn. destruct (Z.ltb_spec 0 (zlen p - n)).
  - rewrite zslice_Some by lia. cbn [mbind option_bind]. rewrite take_ge by (rewrite length_drop; lia).
    rewrite Z.max_r by lia. do 2 f_equal. unfold lastn. f_equal. lia.
  - rewrite lastn_all, Z.max_l, Z.add_0_r by lia. done.
Qed.

Lemma lastn_lastn k a b : lastn k (a ++ lastn k b) = lastn k (a ++ b).
Proof.
  destruct (decide (length b ≤ k)%nat) as [Hle|Hgt]; [by rewrite (lastn_all k b)|].
  rewrite !lastn_app_ge by (rewrite ?length_lastn; lia). apply lastn_all. rewrite length_lastn. lia.
Qed.

(** The second part of [Write], from a buffer of the last bytes of [A]. *)
Lemma suffix_written n A pre suf off sk p :
  0 ≤ n → zlen p ≤ n → length suf = Nat.min (Z.to_nat n) (length A) → (0 ≤ off < n ∨ off = 0) →
  (zlen suf < n → off = 0) → drop (Z.to_nat off) suf ++ take (Z.to_nat off) suf = lastn (Z.to_nat n) A →
  let p' := drop (Z.to_nat n - length suf) p in
  wp (loop (length p' + 1) writeBody (Saver n pre (take (Z.to_nat n) (suf ++ p)) off sk, p')) (λ w',
    N w' = n ∧ prefix w' = pre ∧ (0 ≤ suffixOff w' < n ∨ suffixOff w' = 0) ∧
    oldestFirst w' = lastn (Z.to_nat n) (A ++ p) ∧ skipped w' = sk + zlen p' ∧
    (zlen p' = 0 → suffixOff w' = off)).
Proof.
  intros Hn Hp Hsuf Hoff Hlin Hring p'. set (w := Saver n pre _ off sk).
  assert (drop (length p') (oldestFirst w ++ p') = lastn (Z.to_nat n) (A ++ p)) as Hall.
  { unfold oldestFirst, w. cbn [suffix suffixOff]. apply ring_after_fill; [lia|done|intros; rewrite Hlin; lia|done]. }
  assert (length p' = length p - (Z.to_nat n - length suf))%nat as Hp' by apply length_drop.
  clearbody p'. destruct p' as [|b p'].
  - rewrite app_nil_r in Hall. cbn [length Nat.add loop writeBody]. change (0 <? zlen (@nil byte)) with false.
    unfold break. cbn [mbind option_bind wp]. unfold w. cbn [N prefix suffixOff skipped].
    split_and!; [done..|exact Hoff|exact Hall|cbn; lia|done].
  - set (q := b :: p') in *. assert (0 < zlen q) by (unfold q; cbn [length]; lia). clearbody q.
    eapply wp_mono; [apply writeLoop_spec; unfold w; cbn [N suffix suffixOff]|].
    + rewrite length_take, length_app. lia.
    + lia.
    + lia.
    + lia.
    + intros w' (H1&H2&H3&H4&H5&H6). split_and!; [done|done|by left|by rewrite H5|done|lia].
Qed.

Lemma Write_represents n all w p :
  0 ≤ n → Represents n all w →
  wp (Write w p) (λ '(k, w'), k = zlen p ∧ Represents n (all ++ p) w').
Proof.
  intros Hn [HN Hpre Hoff Hskip Hsuf Hlin]. unfold Write. rewrite HN, Hpre.
  rewrite fill_spec by (rewrite ?length_take; lia). cbn [mbind option_bind N prefix suffix suffixOff skipped].
  set (p1 := drop _ p). set (A := drop (Z.to_nat n) all) in *.
  assert (take (Z.to_nat n) (take (Z.to_nat n) all ++ p) = take (Z.to_nat n) (all ++ p)) as ->.
  { rewrite !take_app, take_take, length_take, Nat.min_id. f_equal. f_equal. lia. }
  assert (drop (Z.to_nat n) (all ++ p) = A ++ p1) as Hdrop.
  { rewrite drop_app. f_equal. unfold p1. rewrite length_take. f_equal. lia. }
  assert (zlen A = Z.max 0 (zlen all - n)) as HlA by (unfold A; rewrite length_drop; lia).
  assert (zlen A + zlen p1 = Z.max 0 (zlen all + zlen p - n)) as HlAp.
  { apply (f_equal length) in Hdrop. rewrite length_drop, !length_app in Hdrop. lia. }
  clearbody A p1. rewrite trim_spec by done. cbn [mbind option_bind N prefix suffix suffixOff skipped].
  assert (length (suffix w) = Nat.min (Z.to_nat n) (length A)) as Hls.
  { apply (f_equal length) in Hsuf. rewrite length_app, length_drop, length_take, length_lastn in Hsuf. lia. }
  rewrite fill_spec by lia. cbn [mbind option_bind]. pose proof (length_lastn (Z.to_nat n) p1) as Hlast.
  apply wp_bind. eapply wp_mono; [eapply (suffix_written n A); [done|lia|done|done| |done]|].
  - intros Hlt. apply Hlin. rewrite Hskip. clear - Hlt HlA Hls Hn. lia.
  - intros w' (H1&H2&H3&H4&H5&H6). cbn [wp]. split; [done|]. rewrite length_drop in H5, H6.
    split; [done|by rewrite H2|done| |by rewrite Hdrop, <-lastn_lastn|].
    + rewrite H5, length_app, Hskip, Hlast. clear - HlA HlAp Hls Hn. lia.
    + intros Hs0. rewrite H5, Hskip in Hs0. rewrite H6, Hlin; [done|..].
      all: clear - Hs0 HlA HlAp Hls Hlast Hn Hskip; lia.
Qed.

Lemma newSaver_represents n : 0 ≤ n → Represents n [] (newSaver n).
Proof.
  intros Hn. split; cbn; rewrite ?take_nil, ?drop_nil; try done; try lia.
Qed.

Lemma writeAll_represents n all w ps :
  0 ≤ n → Represents n all w → wp (writeAll w ps) (λ w', Represents n (all ++ concat ps) w').
Proof.
  intros Hn. revert all w. induction ps as [|p ps IH]; intros all w Hw; cbn [writeAll concat]; [by rewrite app_nil_r|].
  apply wp_bind. eapply wp_mono; [by apply (Write_represents n all)|]. intros [k w'] [_ Hw'].
  rewrite app_assoc. by apply IH.
Qed.

(** C21. For every [N > 0] and every sequence of writes, in pieces of any size,
    the saver returns everything if at most [2 N] bytes were written, and
    otherwise the first [N] bytes, the number of bytes left out and the last [N]
    bytes. *)
Theorem Bytes_keeps_both_ends (n : Z) (ps : list (list byte)) :
  0 < n → wp (writeAll (newSaver n) ps) (λ w, Bytes w = kept n (concat ps)).
Proof.
  intros Hn. eapply wp_mono; [apply (writeAll_represents n [] _ ps); [lia|by apply newSaver_represents; lia]|].
  intros w [HN Hpre Hoff Hskip Hsuf Hlin]. rewrite app_nil_l in *. set (all := concat ps) in *.
  unfold Bytes, kept. rewrite Hpre.
  assert (length (suffix w) = Nat.min (Z.to_nat n) (length all - Z.to_nat n)) as Hls.
  { apply (f_equal length) in Hsuf. rewrite length_app, length_drop, length_take, length_lastn, length_drop in Hsuf. lia. }
  destruct (suffix w) as [|b suf] eqn:Hs; [|rewrite <-Hs in *].
  { cbn [length] in Hls. destruct (Z.leb_spec (zlen all) (2 * n)); [|lia]. apply take_ge. lia. }
  assert (0 < length (suffix w))%nat by (rewrite Hs; simpl; lia).
  destruct (Z.eqb_spec (skipped w) 0) as [H0|H0], (Z.leb_spec (zlen all) (2 * n)); try lia.
  - rewrite (Hlin H0) in Hsuf. change (Z.to_nat 0) with 0%nat in Hsuf. rewrite drop_0, take_0, app_nil_r in Hsuf. rewrite Hsuf.
    rewrite lastn_all by (rewrite length_drop; lia). apply take_drop.
  - rewrite Hsuf. f_equal. rewrite Hskip, Z.max_r by lia. f_equal. unfold lastn. rewrite drop_drop, length_drop. f_equal. lia.
Qed.

Lemma Bytes_keeps_both_ends_witness :
  wp (writeAll (newSaver 2) [[x61; x62; x63]; [x64; x65]; [x66]]) (λ w, Bytes w = kept 2 [x61; x62; x63; x64; x65; x66]).
Proof. apply (Bytes_keeps_both_ends 2 [[x61; x62; x63]; [x64; x65]; [x66]]). lia. Defined.

(** With [N = 0] nothing is kept and the message is missing. *)
Example zero_drops_silently : (w ← writeAll (newSaver 0) [[x61]]; Some (Bytes w, skipped w)) = Some ([], 1).
Proof. reflexivity. Qed.
