(* ===== verification/Strutil.v ===== *)
(** * strutil: splitting, parsing and folding of strings

    strutil.go, strconv.go and intern.go. [unicode.SimpleFold] is a parameter
    of the case-insensitive searches. *)
From S2P Require Import Prelude.
From S2P Require Import Utf8.

(** ** strings.Count and slices *)

(** Is [sep] in front of [s]? *)
Fixpoint hasPrefix (s sep : list byte) : bool :=
  match sep, s with
  | [], _ => true
  | c :: sep, b :: s => bool_decide (b = c) && hasPrefix s sep
  | _ :: _, [] => false
  end.

(** The index of the first occurrence of [sep] in [s]. *)
Fixpoint indexOf (s sep : list byte) : option nat :=
  if hasPrefix s sep then Some 0%nat
  else match s with
       | [] => None
       | _ :: s => S <$> indexOf s sep
       end.

(** [strings.Count(s, sep)] for a [sep] that is not empty. *)
Fixpoint countSep (fuel : nat) (s sep : list byte) : Z :=
  match fuel with
  | O => 0
  | S fuel =>
      match indexOf s sep with
      | None => 0
      | Some i => 1 + countSep fuel (drop (i + length sep) s) sep
      end
  end.

(** ** genSplit *)

(** The variables of the loop. *)
Record splitState := SplitState { sp_i : Z; sp_start : Z; sp_na : Z; sp_dst : list (list byte) }.

Definition splitBody (s sep : list byte) (c : byte) (sepSave n : Z) (st : splitState) :
    option (splitState + splitState) :=
  let '(SplitState i start na dst) := st in
  if (i + zlen sep <=? zlen s) && (na + 1 <? n) then
    b ← zidx s i;
    here ← (if bool_decide (b = c) then
              if zlen sep =? 1 then Some true
              else x ← zslice s i (i + zlen sep); Some (bool_decide (x = sep))
            else Some false);
    if here : bool then
      x ← zslice s start (i + sepSave);
      let start := i + zlen sep in
      let i := i + (zlen sep - 1) in
      continue (SplitState (i + 1) start (na + 1) (dst ++ [x]))
    else continue (SplitState (i + 1) start na dst)
  else break st.

(** The result is nil, which is not [dst], if [n] is 0. *)
Definition genSplit (dst : list (list byte)) (s sep : list byte) (sepSave n : Z) : option (list (list byte)) :=
  if n =? 0 then Some []
  else
    match sep with
    | [] => None                       (* panic *)
    | c :: _ =>
        let n := if n <? 0 then countSep (S (length s)) s sep + 1 else n in
        st ← loop (length s + 2) (splitBody s sep c sepSave n) (SplitState 0 0 0 dst);
        x ← zslice s (sp_start st) (zlen s);
        Some (sp_dst st ++ [x])
    end.

Definition AppendSplitN (dst : list (list byte)) (s sep : list byte) (n : Z) : option (list (list byte)) :=
  genSplit dst s sep 0 n.

(** *** Specification *)

(** At most [k] cuts, each at the first occurrence of [sep] in the rest. *)
Fixpoint splitAt (k : nat) (s sep : list byte) : list (list byte) :=
  match k with
  | O => [s]
  | S k =>
      match indexOf s sep with
      | None => [s]
      | Some i => take i s :: splitAt k (drop (i + length sep) s) sep
      end
  end.

Fixpoint join (sep : list byte) (parts : list (list byte)) : list byte :=
  match parts with
  | [] => []
  | [p] => p
  | p :: parts => p ++ sep ++ join sep parts
  end.

(** ** ParseUintBytes *)

Inductive numError := ErrSyntax | ErrRange | ErrBase.

#[global] Instance numError_eq_dec : EqDecision numError.
Proof. solve_decision. Defined.

Definition maxUint64 : Z := 2 ^ 64 - 1.

Definition cutoff64 (base : Z) : Z := if base <? 2 then 0 else u64 (maxUint64 / base + 1).

(** The value of a digit, [None] for any other character. *)
Definition digitVal (d : byte) : option Z :=
  let d := b2z d in
  if (48 <=? d) && (d <=? 57) then Some (d - 48)
  else if (97 <=? d) && (d <=? 122) then Some (d - 97 + 10)
  else if (65 <=? d) && (d <=? 90) then Some (d - 65 + 10)
  else None.

Fixpoint parseDigits (base cutoff maxVal n : Z) (s : list byte) : Z * option numError :=
  match s with
  | [] => (n, None)
  | d :: s =>
      match digitVal d with
      | None => (0, Some ErrSyntax)
      | Some v =>
          if base <=? v then (0, Some ErrSyntax)
          else if cutoff <=? n then (maxUint64, Some ErrRange)
          else
            let n := u64 (n * base) in
            let n1 := u64 (n + v) in
            if (n1 <? n) || (maxVal <? n1) then (maxUint64, Some ErrRange)
            else parseDigits base cutoff maxVal n1 s
      end
  end.

(** [1<<uint(bitSize) - 1]: a negative size shifts everything out. *)
Definition maxValOf (bitSize : Z) : Z :=
  u64 ((if (bitSize <? 0) || (64 <=? bitSize) then 0 else 2 ^ bitSize) - 1).

(** The value and the error, which a [strconv.NumError] wraps. *)
Definition ParseUintBytes (s : list byte) (base bitSize : Z) : Z * option numError :=
  let bitSize := if bitSize =? 0 then 64 else bitSize in
  let go base s := parseDigits base (cutoff64 base) (maxValOf bitSize) 0 s in
  match s with
  | [] => (0, Some ErrSyntax)
  | c :: rest =>
      if (2 <=? base) && (base <=? 36) then go base s
      else if base =? 0 then
        if bool_decide (c = x30) then
          match rest with
          | x :: rest' =>
              if bool_decide (x = x78) || bool_decide (x = x58) then
                match rest' with [] => (0, Some ErrSyntax) | _ => go 16 rest' end
              else go 8 s
          | [] => go 8 s
          end
        else go 10 s
      else (0, Some ErrBase)
  end.

(** *** Specification *)

(** All of [s] as digits of a base. *)
Fixpoint digitsOf (base : Z) (s : list byte) : option (list Z) :=
  match s with
  | [] => Some []
  | d :: s =>
      v ← digitVal d;
      if v <? base then vs ← digitsOf base s; Some (v :: vs) else None
  end.
Definition valueOf (base : Z) (vs : list Z) : Z := foldl (λ n v, n * base + v) 0 vs.

(** ** IsPlausibleJSON *)

Definition isASCIIWhite (b : byte) : bool :=
  bool_decide (b = x20) || bool_decide (b = x0a) || bool_decide (b = x0d) || bool_decide (b = x09).

Fixpoint startsWithOpenBrace (s : list byte) : bool :=
  match s with
  | [] => false
  | b :: s' => if bool_decide (b = x7b) then true else if isASCIIWhite b then startsWithOpenBrace s' else false
  end.

(** From the last byte down. *)
Fixpoint endsLoop (fuel : nat) (s : list byte) : option bool :=
  match fuel with
  | O => None
  | S fuel =>
      if 0 <? zlen s then
        b ← zidx s (zlen s - 1);
        if bool_decide (b = x7d) then Some true
        else if isASCIIWhite b then s' ← zslice s 0 (zlen s - 1); endsLoop fuel s'
        else Some false
      else Some false
  end.
Definition endsWithCloseBrace (s : list byte) : option bool := endsLoop (S (length s)) s.

Definition IsPlausibleJSON (s : list byte) : option bool :=
  if startsWithOpenBrace s then endsWithCloseBrace s else Some false.

(** ** Case-insensitive searches *)

Section fold.
  (** [unicode.SimpleFold] *)
  Context (SimpleFold : Z → Z).

(** The loop over the orbit of [sr]: [None] if it does not end. *)
Fixpoint foldLoop (fuel : nat) (sr tr r : Z) : option Z :=
  match fuel with
  | O => None
  | S fuel => if negb (r =? sr) && (r <? tr) then foldLoop fuel sr tr (SimpleFold r) else Some r
  end.

(** Every round of the loop moves up, below [tr]. *)
Definition equalFoldRune (sr tr : Z) : option bool :=
  if sr =? tr then Some true
  else
    let '(sr, tr) := if tr <? sr then (tr, sr) else (sr, tr) in
    if (tr <? 128) && (65 <=? sr) && (sr <=? 90) then Some (tr =? sr + 97 - 65)
    else
      r ← foldLoop (Z.to_nat (tr - sr) + 2) sr tr (SimpleFold sr);
      Some (r =? tr).

(** [for _, pr := range prefix] of [HasPrefixFold], one rune per round. *)
Fixpoint prefixLoop (fuel : nat) (s prefix : list byte) : option bool :=
  match fuel with
  | O => None
  | S fuel =>
      match prefix with
      | [] => Some true
      | _ =>
          let '(pr, psize) := decodeRune prefix in
          match s with
          | [] => Some false
          | _ =>
              let '(sr, size) := decodeRune s in
              if sr =? RuneError then Some false
              else
                eq ← equalFoldRune sr pr;
                if eq : bool then prefixLoop fuel (drop (Z.to_nat size) s) (drop (Z.to_nat psize) prefix)
                else Some false
          end
      end
  end.
Definition HasPrefixFold (s prefix : list byte) : option bool := prefixLoop (S (length prefix)) s prefix.

(** [utf8.DecodeLastRuneInString(s)]: back from the byte before the last one,
    over at most two more bytes, to one that may start a rune. *)
Fixpoint lastStart (fuel : nat) (s : list byte) (lim start : Z) : Z :=
  match fuel with
  | O => start
  | S fuel =>
      if start <? lim then start
      else
        match zidx s start with
        | Some b => if (128 <=? b2z b) && (b2z b <=? 191) then lastStart fuel s lim (start - 1) else start
        | None => start
        end
  end.
Definition decodeLastRune (s : list byte) : Z * Z :=
  match last s with
  | None => (RuneError, 0)
  | Some b =>
      if b2z b <? 128 then (b2z b, 1)
      else
        let lim := Z.max 0 (zlen s - 4) in
        let start := Z.max 0 (lastStart 4 s lim (zlen s - 2)) in
        let '(r, size) := decodeRune (drop (Z.to_nat start) s) in
        if start + size =? zlen s then (r, size) else (RuneError, 1)
  end.

Fixpoint suffixLoop (fuel : nat) (s suffix : list byte) (bo so : Z) : option bool :=
  match fuel with
  | O => None
  | S fuel =>
      if (0 <? bo) && (0 <? so) then
        sb ← zslice s 0 bo;
        let '(r, size) := decodeLastRune sb in
        if r =? RuneError then Some false
        else
          let bo := bo - size in
          ss ← zslice suffix 0 so;
          let '(sr, size) := decodeLastRune ss in
          if sr =? RuneError then Some false
          else
            let so := so - size in
            eq ← equalFoldRune r sr;
            if eq : bool then suffixLoop fuel s suffix bo so else Some false
      else Some (so =? 0)
  end.
Definition HasSuffixFold (s suffix : list byte) : option bool :=
  match suffix with
  | [] => Some true
  | _ => suffixLoop (S (length s)) s suffix (zlen s) (zlen suffix)
  end.

(** [for i, rune := range s] of [ContainsFold]. *)
Fixpoint containsLoop (fuel : nat) (firstRune : Z) (s substr : list byte) : option bool :=
  match fuel with
  | O => None
  | S fuel =>
      match s with
      | [] => Some false
      | _ =>
          let '(r, size) := decodeRune s in
          eq ← equalFoldRune r firstRune;
          here ← (if eq : bool then HasPrefixFold s substr else Some false);
          if here : bool then Some true else containsLoop fuel firstRune (drop (Z.to_nat size) s) substr
      end
  end.
Definition ContainsFold (s substr : list byte) : option bool :=
  match substr with
  | [] => Some true
  | c :: _ =>
      match s with
      | [] => Some false
      | _ =>
          let firstRune := if 128 <=? b2z c then (decodeRune substr).1 else b2z c in
          containsLoop (S (length s)) firstRune s substr
      end
  end.
End fold.

(** ** The interned strings *)

Definition internStr := gmap (list byte) (list byte).

Definition RegisterCommonString (m : internStr) (ss : list (list byte)) : internStr :=
  foldl (λ m v, <[v := v]> m) m ss.

Definition StringFromBytes (m : internStr) (v : list byte) : list byte :=
  match m !! v with Some s => s | None => v end.

(** ** Splitting *)

Lemma hasPrefix_take s sep : hasPrefix s sep = bool_decide (take (length sep) s = sep).
Proof.
  revert s. induction sep as [|c sep IH]; intros [|b s]; try done. cbn [hasPrefix length take].
  rewrite IH, <-bool_decide_and. apply bool_decide_ext. split; [intros [-> ->]; done|by intros [= -> ->]].
Qed.

Lemma hasPrefix_short s sep : (length s < length sep)%nat → hasPrefix s sep = false.
Proof.
  intros H. rewrite hasPrefix_take. apply bool_decide_eq_false. intros E. apply (f_equal length) in E.
  rewrite length_take in E. lia.
Qed.

Lemma indexOf_Some s sep i :
  hasPrefix (drop i s) sep = true → (∀ j, (j < i)%nat → hasPrefix (drop j s) sep = false) → (i ≤ length s)%nat →
  indexOf s sep = Some i.
Proof.
  revert i. induction s as [|b s IH]; intros i Hi Hno Hle; cbn [indexOf].
  - assert (i = 0)%nat as -> by (simpl in Hle; lia). cbn [drop] in Hi. by rewrite Hi.
  - destruct i as [|i]; [cbn [drop] in Hi; by rewrite Hi|].
    pose proof (Hno 0%nat ltac:(lia)) as H0. cbn [drop] in H0. rewrite H0.
    rewrite (IH i); [done|done| |simpl in Hle; lia]. intros j Hj. apply (Hno (S j)). lia.
Qed.

Lemma indexOf_None s sep : (∀ j, (j ≤ length s)%nat → hasPrefix (drop j s) sep = false) → indexOf s sep = None.
Proof.
  induction s as [|b s IH]; intros Hno; cbn [indexOf]; pose proof (Hno 0%nat ltac:(simpl; lia)) as H0; cbn [drop] in H0; rewrite H0; [done|].
  rewrite IH; [done|]. intros j Hj. apply (Hno (S j)). simpl. lia.
Qed.

Lemma indexOf_inv s sep i :
  indexOf s sep = Some i →
  s = take i s ++ sep ++ drop (i + length sep) s ∧ (i + length sep ≤ length s)%nat.
Proof.
  revert i. induction s as [|b s IH]; intros i; cbn [indexOf]; destruct (hasPrefix _ sep) eqn:Hp.
  - intros [= <-]. rewrite hasPrefix_take in Hp. apply bool_decide_eq_true in Hp. rewrite take_nil in Hp. by subst sep.
  - done.
  - intros [= <-]. rewrite hasPrefix_take in Hp. apply bool_decide_eq_true in Hp. cbn [take app Nat.add].
    split; [rewrite <-Hp at 1; by rewrite take_drop|]. apply (f_equal length) in Hp. rewrite length_take in Hp. lia.
  - destruct (indexOf s sep) as [k|] eqn:E; [|done]. intros [= <-]. destruct (IH k eq_refl) as [H1 H2].
    cbn [take drop app Nat.add length]. split; [by f_equal|lia].
Qed.

Lemma join_splitAt k s sep : join sep (splitAt k s sep) = s.
Proof.
  revert s. induction k as [|k IH]; intros s; [done|]. cbn [splitAt].
  destruct (indexOf s sep) as [i|] eqn:E; [|done]. apply indexOf_inv in E as [E _].
  assert (∃ p ps, splitAt k (drop (i + length sep) s) sep = p :: ps) as (p&ps&Hps).
  { destruct k; cbn [splitAt]; [by eexists _, _|]. destruct (indexOf _ _); by eexists _, _. }
  specialize (IH (drop (i + length sep) s)). rewrite Hps in IH |- *.
  change (take i s ++ sep ++ join sep (p :: ps) = s). by rewrite IH.
Qed.

(** Further cuts change nothing once there is no occurrence left. *)
Lemma splitAt_count fuel s sep k :
  sep ≠ [] → (length s < fuel)%nat → (length s ≤ k)%nat →
  splitAt (Z.to_nat (countSep fuel s sep)) s sep = splitAt k s sep ∧ 0 ≤ countSep fuel s sep.
Proof.
  intros Hsep. revert s k. induction fuel as [|fuel IH]; intros s k Hf Hk; [lia|]. cbn [countSep].
  destruct (indexOf s sep) as [i|] eqn:E.
  - pose proof (indexOf_inv _ _ _ E) as [_ Hle]. assert (0 < length sep)%nat by (destruct sep; [done|simpl; lia]).
    destruct k as [|k]; [lia|]. destruct (IH (drop (i + length sep) s) k) as [H1 H2]; [rewrite length_drop; lia..|].
    split; [|lia]. rewrite Z2Nat.inj_add by lia. cbn [splitAt Nat.add]. change (Z.to_nat 1) with 1%nat. cbn [Nat.add splitAt].
    by rewrite E, H1.
  - split; [|done]. destruct k; cbn; by rewrite ?E.
Qed.

Section split_loop.
Context (s sep : list byte) (n : Z) (dst : list (list byte)) (Hsep : sep ≠ []) (Hn : 0 < n).

Record SplitInv (st : splitState) : Prop := {
  si_range : 0 ≤ sp_start st ∧ sp_start st ≤ sp_i st ∧ sp_start st ≤ zlen s ∧ 0 ≤ sp_na st < n;
  si_none : ∀ j, sp_start st ≤ j < sp_i st → hasPrefix (drop (Z.to_nat j) s) sep = false;
  si_dst : sp_dst st ++ splitAt (Z.to_nat (n - 1 - sp_na st)) (drop (Z.to_nat (sp_start st)) s) sep =
           dst ++ splitAt (Z.to_nat (n - 1)) s sep;
}.

(** The test of the loop. *)
Lemma here_hasPrefix c rest i b :
  sep = c :: rest → 0 ≤ i → i + zlen sep ≤ zlen s → zidx s i = Some b →
  (if bool_decide (b = c) then
     if zlen sep =? 1 then Some true
     else x ← zslice s i (i + zlen sep); Some (bool_decide (x = sep))
   else Some false) = Some (hasPrefix (drop (Z.to_nat i) s) sep).
Proof using.
  clear Hsep. intros Hs Hi Hle Hb. rewrite zslice_Some by lia. rewrite Z.add_simpl_l, Nat2Z.id. cbn [mbind option_bind].
  unfold zidx in Hb. destruct (Z.ltb_spec i 0); [lia|]. rewrite hasPrefix_take.
  apply drop_S in Hb. rewrite Hb, Hs. cbn [length take].
  case_bool_decide as Hbc; [subst b|].
  - destruct (Z.eqb_spec (Z.of_nat (S (length rest))) 1); [|done].
    destruct rest; [|simpl in *; lia]. by rewrite bool_decide_true.
  - rewrite bool_decide_eq_false_2 by naive_solver. done.
Qed.

Lemma splitBody_spec c rest st :
  sep = c :: rest → SplitInv st →
  wp (splitBody s sep c 0 n st) (λ r, match r with
    | inl st' => SplitInv st' ∧ (Z.to_nat (zlen s + 1 - sp_i st') < Z.to_nat (zlen s + 1 - sp_i st))%nat
    | inr st' => st' = st ∧ (zlen s < sp_i st + zlen sep ∨ n = sp_na st + 1)
    end).
Proof using Hsep.
  intros Hs [(Hs0&Hsi&Hsl&Hna) Hnone Hd]. destruct st as [i start na d]. cbn [sp_i sp_start sp_na sp_dst] in *. cbn [splitBody].
  assert (0 < zlen sep) as Hpos by (rewrite Hs; simpl; lia).
  destruct (Z.leb_spec (i + zlen sep) (zlen s)) as [Hin|]; [|cbn; split; [done|lia]].
  destruct (Z.ltb_spec (na + 1) n); [|cbn; split; [done|right; lia]]. cbn [andb].
  destruct (zidx_Some s i) as (b&Hb&_); [lia|]. rewrite Hb. cbn [mbind option_bind].
  rewrite (here_hasPrefix c rest) by (done || lia). cbn [mbind option_bind].
  destruct (hasPrefix (drop (Z.to_nat i) s) sep) eqn:Hp.
  - rewrite zslice_Some by lia. cbn [mbind option_bind continue]. unfold continue. cbn [wp].
    split; [|cbn [sp_i]; lia]. split; cbn [sp_i sp_start sp_na sp_dst].
    + lia.
    + intros j Hj. lia.
    + rewrite <-Hd, <-app_assoc. f_equal.
      replace (Z.to_nat (n - 1 - na)) with (S (Z.to_nat (n - 1 - (na + 1)))) by lia. cbn [splitAt].
      rewrite (indexOf_Some _ _ (Z.to_nat (i - start))).
      * rewrite Z.add_0_r, drop_drop. cbn [app]. do 2 f_equal. f_equal. lia.
      * rewrite drop_drop. by replace (Z.to_nat start + Z.to_nat (i - start))%nat with (Z.to_nat i) by lia.
      * intros j Hj. rewrite drop_drop. specialize (Hnone (start + Z.of_nat j) ltac:(lia)).
        by replace (Z.to_nat (start + Z.of_nat j)) with (Z.to_nat start + j)%nat in Hnone by lia.
      * rewrite length_drop. lia.
  - unfold continue. cbn [wp]. split; [|cbn [sp_i]; lia]. split; cbn [sp_i sp_start sp_na sp_dst]; [lia| |done].
    intros j Hj. destruct (decide (j = i)) as [->|]; [done|]. apply Hnone. lia.
Qed.

Lemma splitLoop_spec c rest :
  sep = c :: rest →
  wp (loop (length s + 2) (splitBody s sep c 0 n) (SplitState 0 0 0 dst)) (λ st,
    0 ≤ sp_start st ≤ zlen s ∧
    sp_dst st ++ [drop (Z.to_nat (sp_start st)) s] = dst ++ splitAt (Z.to_nat (n - 1)) s sep).
Proof using Hsep Hn.
  intros Hs. assert (0 < zlen sep) as Hpos by (rewrite Hs; simpl; lia).
  apply (wp_loop SplitInv (λ st, Z.to_nat (zlen s + 1 - sp_i st))).
  - intros st Hst. eapply wp_mono; [by apply (splitBody_spec c rest)|]. intros [st'|st']; [done|].
    intros [-> Hend]. destruct Hst as [(Hs0&Hsi&Hsl&Hna) Hnone Hd]. split; [lia|]. rewrite <-Hd. f_equal.
    destruct Hend as [Hend|Hend].
    + destruct (Z.to_nat (n - 1 - sp_na st)); cbn [splitAt]; [done|]. rewrite indexOf_None; [done|].
      intros j Hj. rewrite drop_drop, length_drop in *.
      destruct (decide (sp_start st + Z.of_nat j < sp_i st)).
      * specialize (Hnone (sp_start st + Z.of_nat j) ltac:(lia)).
        by replace (Z.to_nat (sp_start st + Z.of_nat j)) with (Z.to_nat (sp_start st) + j)%nat in Hnone by lia.
      * apply hasPrefix_short. rewrite length_drop. lia.
    + replace (n - 1 - sp_na st) with 0 by lia. done.
  - split; cbn; [lia| |by rewrite Z.sub_0_r]. intros j Hj. lia.
  - cbn. lia.
Qed.
End split_loop.

(** For a separator that is not empty, [AppendSplitN] appends to [dst] the
    pieces of [s] cut at the first [n - 1] occurrences of the separator from the
    left (at all of them if [n] is negative); joined with the separator they
    give [s] back. An empty separator panics unless [n] is 0, which gives no
    pieces. *)
Theorem AppendSplitN_splits (dst : list (list byte)) (s sep : list byte) (n : Z) :
  let k := if n <? 0 then length s else Z.to_nat (n - 1) in
  AppendSplitN dst s sep n =
    (if n =? 0 then Some []
     else if bool_decide (sep = []) then None
     else Some (dst ++ splitAt k s sep)) ∧
  join sep (splitAt k s sep) = s ∧ (0 < n → zlen (splitAt k s sep) ≤ n).
Proof.
  intros k. split_and!; [|apply join_splitAt|].
  - unfold AppendSplitN, genSplit. destruct (Z.eqb_spec n 0); [done|].
    destruct sep as [|c rest] eqn:Hs; [done|]. rewrite <-Hs. rewrite bool_decide_eq_false_2 by (by rewrite Hs).
    assert (sep ≠ []) as Hsep by (by rewrite Hs).
    destruct (splitAt_count (S (length s)) s sep (length s) Hsep) as [Hc Hc0]; [lia..|].
    set (n' := if n <? 0 then _ else n).
    assert (0 < n' ∧ splitAt (Z.to_nat (n' - 1)) s sep = splitAt k s sep) as [Hn' <-].
    { unfold n', k. destruct (Z.ltb_spec n 0); [|split; [lia|done]]. rewrite Z.add_simpl_r. split; [lia|done]. }
    destruct (wp_elim _ _ (splitLoop_spec s sep n' dst Hsep Hn' c rest Hs)) as (st&->&Hst&Hd). cbn [mbind option_bind].
    rewrite zslice_Some by lia. cbn [mbind option_bind]. rewrite take_ge by (rewrite length_drop; lia). by rewrite Hd.
  - intros Hn. unfold k. destruct (Z.ltb_spec n 0); [lia|]. clear k. replace n with (Z.of_nat (S (Z.to_nat (n - 1)))) at 2 by lia.
    generalize (Z.to_nat (n - 1)) as m. clear. intros m. revert s. induction m as [|m IH]; intros s; cbn [splitAt]; [done|].
    destruct (indexOf s sep); [|simpl; lia]. cbn [length]. specialize (IH (drop (n + length sep) s)). lia.
Qed.

(** ** Parsing numbers *)

Lemma digitVal_range d v : digitVal d = Some v → 0 ≤ v < 36.
Proof.
  unfold digitVal. pose proof (b2z_range d).
  destruct ((48 <=? b2z d) && (b2z d <=? 57)) eqn:E1; [intros [= <-]; rewrite andb_true_iff, !Z.leb_le in E1; lia|].
  destruct ((97 <=? b2z d) && (b2z d <=? 122)) eqn:E2; [intros [= <-]; rewrite andb_true_iff, !Z.leb_le in E2; lia|].
  destruct ((65 <=? b2z d) && (b2z d <=? 90)) eqn:E3; [intros [= <-]; rewrite andb_true_iff, !Z.leb_le in E3; lia|done].
Qed.

(** What [parseDigits] reports, in terms of the digits of [s] after a number
    [n]. *)
Definition digitsReport (base maxVal n : Z) (s : list byte) (r : Z * option numError) : Prop :=
  match r with
  | (v, None) => ∃ vs, digitsOf base s = Some vs ∧ v = foldl (λ n v, n * base + v) n vs ∧ v ≤ maxVal
  | (v, Some ErrRange) => v = maxUint64 ∧
      ∃ p q vs, s = p ++ q ∧ digitsOf base p = Some vs ∧ maxVal < foldl (λ n v, n * base + v) n vs
  | (v, Some ErrSyntax) => v = 0 ∧
      ∃ p d q vs, s = p ++ d :: q ∧ digitsOf base p = Some vs ∧
        foldl (λ n v, n * base + v) n vs ≤ maxVal ∧ digitsOf base [d] = None
  | (_, Some ErrBase) => False
  end.

Lemma digitsReport_cons base maxVal n d s v r :
  digitVal d = Some v → v < base → digitsReport base maxVal (n * base + v) s r → digitsReport base maxVal n (d :: s) r.
Proof.
  intros Hd Hv. assert (∀ p vs, digitsOf base p = Some vs → digitsOf base (d :: p) = Some (v :: vs)) as Hc.
  { intros p vs Hp. cbn [digitsOf]. rewrite Hd. cbn [mbind option_bind]. destruct (Z.ltb_spec v base); [|lia]. by rewrite Hp. }
  destruct r as [x [[| |]|]]; cbn [digitsReport].
  - intros (->&p&e&q&vs&->&Hp&Hle&He). split; [done|]. exists (d :: p), e, q, (v :: vs). auto.
  - intros (->&p&q&vs&->&Hp&Hlt). split; [done|]. exists (d :: p), q, (v :: vs). auto.
  - done.
  - intros (vs&Hp&->&Hle). exists (v :: vs). auto.
Qed.

(** [n * base] fits 64 bits exactly below the cutoff. *)
Lemma cutoff64_spec base n : 2 ≤ base ≤ 36 → 0 ≤ n → (cutoff64 base ≤ n ↔ 2 ^ 64 ≤ n * base).
Proof.
  intros Hb Hn. unfold cutoff64, maxUint64, wrapU. destruct (Z.ltb_spec base 2); [lia|].
  assert (0 < (2 ^ 64 - 1) / base + 1 < 2 ^ 64) as Hr.
  { split; [pose proof (Z.div_pos (2 ^ 64 - 1) base); lia|]. pose proof (Z.div_le_compat_l (2 ^ 64 - 1) 2 base ltac:(lia) ltac:(lia)) as H1.
    change ((2 ^ 64 - 1) / 2) with (2 ^ 63 - 1) in H1. lia. }
  rewrite Z.mod_small by lia.
  pose proof (Z.div_mod (2 ^ 64 - 1) base ltac:(lia)). pose proof (Z.mod_pos_bound (2 ^ 64 - 1) base ltac:(lia)). split; intros; nia.
Qed.

Lemma parseDigits_spec base maxVal n s :
  2 ≤ base ≤ 36 → 0 ≤ maxVal < 2 ^ 64 → 0 ≤ n ≤ maxVal →
  digitsReport base maxVal n s (parseDigits base (cutoff64 base) maxVal n s).
Proof.
  intros Hb Hm. revert n. induction s as [|d s IH]; intros n Hn; cbn [parseDigits].
  { exists []. split_and!; [done|done|lia]. }
  assert (digitsOf base [d] = None → digitsReport base maxVal n (d :: s) (0, Some ErrSyntax)) as Hsyn.
  { intros Hd. split; [done|]. exists [], d, s, []. split_and!; try done. simpl. lia. }
  destruct (digitVal d) as [v|] eqn:Hd; [|apply Hsyn; cbn [digitsOf]; by rewrite Hd].
  pose proof (digitVal_range d v Hd) as Hv.
  destruct (Z.leb_spec base v) as [Hbv|Hbv].
  { apply Hsyn. cbn [digitsOf]. rewrite Hd. cbn [mbind option_bind]. destruct (Z.ltb_spec v base); [lia|done]. }
  assert (maxVal < n * base + v → digitsReport base maxVal n (d :: s) (maxUint64, Some ErrRange)) as Hrange.
  { intros Hlt. split; [done|]. exists [d], s, [v]. split_and!; [done| |done]. cbn [digitsOf]. rewrite Hd. cbn [mbind option_bind].
    destruct (Z.ltb_spec v base); [done|lia]. }
  pose proof (cutoff64_spec base n Hb ltac:(lia)) as Hcut.
  destruct (Z.leb_spec (cutoff64 base) n) as [Hc|Hc]; [apply Hrange; lia|].
  assert (n * base < 2 ^ 64) as Hnb by lia. rewrite (wrapU_small 64 (n * base)) by nia.
  destruct (decide (n * base + v < 2 ^ 64)) as [Hfit|Hfit].
  - rewrite wrapU_small by nia. destruct (Z.ltb_spec (n * base + v) (n * base)); [lia|]. cbn [orb].
    destruct (Z.ltb_spec maxVal (n * base + v)); [apply Hrange; lia|].
    apply (digitsReport_cons _ _ _ _ _ v); [done|done|]. apply IH. nia.
  - assert (u64 (n * base + v) = n * base + v - 2 ^ 64) as ->.
    { unfold wrapU. symmetry. apply Z.mod_unique_pos with 1; lia. }
    destruct (Z.ltb_spec (n * base + v - 2 ^ 64) (n * base)); [|lia]. cbn [orb]. apply Hrange. lia.
Qed.

(** The base and the digits that base 0 stands for. *)
Definition effective (base : Z) (s : list byte) : Z * list byte :=
  if base =? 0 then
    if bool_decide (take 2 s = [x30; x78] ∨ take 2 s = [x30; x58]) then (16, drop 2 s)
    else if bool_decide (head s = Some x30) then (8, s)
    else (10, s)
  else (base, s).

(** The largest number that is accepted: a size that is 0, negative or above
    64 stands for 64 bits. *)
Definition maxOf (bitSize : Z) : Z :=
  if (0 <? bitSize) && (bitSize <? 64) then 2 ^ bitSize - 1 else maxUint64.

Lemma maxValOf_spec bitSize :
  maxValOf (if bitSize =? 0 then 64 else bitSize) = maxOf bitSize ∧ 0 ≤ maxOf bitSize < 2 ^ 64.
Proof.
  assert (0 < bitSize < 64 → 2 ≤ 2 ^ bitSize ≤ 2 ^ 63) as Hpow.
  { intros. split; [change 2 with (2 ^ 1) at 1|]; apply Z.pow_le_mono_r; lia. }
  unfold maxValOf, maxOf, maxUint64. destruct (Z.eqb_spec bitSize 0) as [->|Hne]; [by vm_compute|].
  destruct (Z.ltb_spec 0 bitSize), (Z.ltb_spec bitSize 0), (Z.leb_spec 64 bitSize), (Z.ltb_spec bitSize 64); try lia;
    cbn [orb andb]; (split; [|lia]); [done|rewrite wrapU_small by lia; done|done].
Qed.

(** C23. For every string, base and size. If there is no digit (behind the
    prefix [0x] of base 0), the error is [ErrSyntax]. Otherwise, for base 0,
    which stands for 16 with a prefix [0x], 8 with a leading 0 and 10, and for
    the bases 2 to 36: [ParseUintBytes] returns a number exactly if all
    characters are digits of the base and the number they spell fits the size;
    [ErrRange] exactly if the digits up to some place spell a number that does
    not fit; [ErrSyntax] exactly if a character that is no digit comes before
    that. For every other base it returns 0 and [ErrBase]. *)
Theorem ParseUintBytes_correct (s : list byte) (base bitSize : Z) :
  let '(b, ds) := effective base s in
  if bool_decide (ds = []) then ParseUintBytes s base bitSize = (0, Some ErrSyntax)
  else if (2 <=? b) && (b <=? 36) then digitsReport b (maxOf bitSize) 0 ds (ParseUintBytes s base bitSize)
  else ParseUintBytes s base bitSize = (0, Some ErrBase).
Proof.
  destruct (maxValOf_spec bitSize) as [Hmax Hrange].
  assert (∀ b ds, 2 ≤ b ≤ 36 → digitsReport b (maxOf bitSize) 0 ds
    (parseDigits b (cutoff64 b) (maxValOf (if bitSize =? 0 then 64 else bitSize)) 0 ds)) as Hgo.
  { intros b ds Hb'. rewrite Hmax. apply parseDigits_spec; [done|lia|lia]. }
  unfold ParseUintBytes, effective. cbv zeta. destruct (Z.eqb_spec base 0) as [->|Hb].
  - change ((2 <=? 0) && (0 <=? 36)) with false. cbv iota. destruct s as [|c rest]; [done|].
    cbn [take head drop]. destruct (decide (c = x30)) as [->|Hc].
    + rewrite (bool_decide_eq_true_2 (x30 = x30)), (bool_decide_eq_true_2 (Some x30 = Some x30)) by done.
      destruct rest as [|x rest]; [rewrite bool_decide_eq_false_2 by naive_solver; by apply Hgo|]. cbn [take].
      destruct (decide (x = x78 ∨ x = x58)) as [Hx|Hx].
      * rewrite bool_decide_eq_true_2 by naive_solver. rewrite <-bool_decide_or, (bool_decide_eq_true_2 (x = x78 ∨ x = x58)) by done.
        destruct rest; [done|]. by apply Hgo.
      * rewrite bool_decide_eq_false_2 by naive_solver. rewrite <-bool_decide_or, (bool_decide_eq_false_2 (x = x78 ∨ x = x58)) by done.
        by apply Hgo.
    + rewrite (bool_decide_eq_false_2 (c = x30)) by done. rewrite !bool_decide_eq_false_2 by naive_solver. by apply Hgo.
  - destruct s as [|c rest]; [done|]. rewrite bool_decide_eq_false_2 by done.
    destruct (Z.leb_spec 2 base), (Z.leb_spec base 36); cbn [andb]; [by apply Hgo|done..].
Qed.

(** *** Where strconv.ParseUint does something else *)

(** The number returned with [ErrRange] is that of 64 bits, whatever the size;
    strconv.ParseUint returns the largest number of the size. *)
Example ErrRange_returns_64_bits : ParseUintBytes [x32; x35; x36] 10 8 = (maxUint64, Some ErrRange).
Proof. reflexivity. Qed.

(** In base 0 strconv.ParseUint also reads [0b1] and [0o7], and underscores
    between digits. *)
Example base0_has_no_binary_octal_underscores :
  ParseUintBytes (String.list_byte_of_string "0b1") 0 64 = (0, Some ErrSyntax) ∧
  ParseUintBytes (String.list_byte_of_string "0o7") 0 64 = (0, Some ErrSyntax) ∧
  ParseUintBytes (String.list_byte_of_string "1_000") 0 64 = (0, Some ErrSyntax).
Proof. done. Qed.

(** A size below 0 or above 64 is an error of strconv.ParseUint. *)
Example bitSize_is_not_checked :
  ParseUintBytes (String.list_byte_of_string "300") 10 (-8) = (300, None) ∧ ParseUintBytes (String.list_byte_of_string "300") 10 65 = (300, None).
Proof. done. Qed.

(** ** Plausible JSON *)

Lemma startsWithOpenBrace_spec s :
  startsWithOpenBrace s = true ↔ ∃ ws rest, s = ws ++ x7b :: rest ∧ Forall (λ b, isASCIIWhite b = true) ws.
Proof.
  induction s as [|b s IH]; cbn [startsWithOpenBrace].
  - split; [done|]. intros (ws&rest&H&_). by destruct ws.
  - case_bool_decide as Hb; [subst b|]; [split; [|done]; intros _; by exists [], s|].
    destruct (isASCIIWhite b) eqn:Hw.
    + rewrite IH. split.
      * intros (ws&rest&->&Hws). exists (b :: ws), rest. split; [done|by constructor].
      * intros (ws&rest&H&Hws). destruct Hws as [|b' ws Hb' Hws]; [by injection H as -> _|]. injection H as -> ->. eauto.
    + split; [done|]. intros (ws&rest&H&Hws). destruct Hws as [|b' ws Hb' Hws]; injection H as -> _; congruence.
Qed.

Lemma endsLoop_spec fuel s :
  (length s < fuel)%nat →
  ∃ r, endsLoop fuel s = Some r ∧
    (r = true ↔ ∃ rest ws, s = rest ++ x7d :: ws ∧ Forall (λ b, isASCIIWhite b = true) ws).
Proof.
  revert s. induction fuel as [|fuel IH]; intros s Hf; [lia|]. cbn [endsLoop].
  destruct s as [|b s _] using rev_ind.
  { exists false. split; [done|]. split; [done|]. intros (rest&ws&H&_). by destruct rest. }
  rewrite length_app in *. cbn [length] in *. destruct (Z.ltb_spec 0 (Z.of_nat (length s + 1))); [|lia].
  unfold zidx. destruct (Z.ltb_spec (Z.of_nat (length s + 1) - 1) 0); [lia|].
  replace (Z.to_nat (Z.of_nat (length s + 1) - 1)) with (length s) by lia. rewrite list_lookup_middle by done. cbn [mbind option_bind].
  case_bool_decide as Hb; [subst b; exists true; split; [done|]; split; [|done]; intros _; by exists s, []|].
  rewrite zslice_Some by (rewrite ?length_app; simpl; lia).
  cbn [mbind option_bind]. rewrite Z.sub_0_r. change (drop (Z.to_nat 0) (s ++ [b])) with (s ++ [b]).
  replace (Z.to_nat (Z.of_nat (length s + 1) - 1)) with (length s) by lia. rewrite take_app_length.
  assert (∀ rest ws, s ++ [b] = rest ++ x7d :: ws → ∃ ws', ws = ws' ++ [b] ∧ s = rest ++ x7d :: ws') as Hinv.
  { intros rest ws H1. destruct ws as [|w ws _] using rev_ind.
    - apply app_inj_tail in H1 as [_ ->]. done.
    - rewrite app_comm_cons, app_assoc in H1. apply app_inj_tail in H1 as [-> ->]. eauto. }
  destruct (isASCIIWhite b) eqn:Hw.
  - destruct (IH s) as (r&->&Hr); [lia|]. exists r. split; [done|]. rewrite Hr. split.
    + intros (rest&ws&->&Hws). exists rest, (ws ++ [b]). split; [by rewrite <-app_assoc|]. apply Forall_app. by repeat constructor.
    + intros (rest&ws&H1&Hws). destruct (Hinv _ _ H1) as (ws'&->&->). apply Forall_app in Hws as [Hws _]. eauto.
  - exists false. split; [done|]. split; [done|]. intros (rest&ws&H1&Hws). destruct (Hinv _ _ H1) as (ws'&->&_).
    apply Forall_app in Hws as [_ Hws]. inversion Hws. congruence.
Qed.

(** [IsPlausibleJSON] accepts the strings with a brace at each end, white space
    aside. *)
Lemma IsPlausibleJSON_spec s :
  ∃ r, IsPlausibleJSON s = Some r ∧
    (r = true ↔ (∃ ws rest, s = ws ++ x7b :: rest ∧ Forall (λ b, isASCIIWhite b = true) ws) ∧
                (∃ rest ws, s = rest ++ x7d :: ws ∧ Forall (λ b, isASCIIWhite b = true) ws)).
Proof.
  unfold IsPlausibleJSON. pose proof (startsWithOpenBrace_spec s) as H1.
  destruct (endsLoop_spec (S (length s)) s) as (r&Hr&H2); [lia|]. unfold endsWithCloseBrace.
  destruct (startsWithOpenBrace s); [exists r; split; [done|]; tauto|].
  exists false. split; [done|]. split; [done|]. intros [H _]. by apply H1 in H.
Qed.
