(* ===== verification/JsonConfig.v ===== *)
(** * jsonconfig: reading configuration files

    eval.go: expressions ["_env", ...] and ["_fileobj", ...] in decoded JSON
    objects, files that include files, and the detection of include cycles. *)
From stdpp Require Import strings.
From Stdlib Require Import Ascii Floats.SpecFloat.
From S2P Require Import Prelude.

(** ** Values *)

(** The errors that an [Obj] collects (jsonconfig.go). *)
Inductive objError :=
| MissingKey (key : string)
| NotOfType (key : string)
| BadBoolean (key v : string)
| NotStringAt (key : string) (i : Z)
| UnknownKey (key : string).

(** What an [interface{}] of a configuration holds: what encoding/json
    decodes, what jsonconfig.go keeps in an [Obj] beside it ([map[string]bool]
    and [[]error]), and any other Go type. A map is listed in the order in
    which a [range] over it visits it. *)
Inductive value :=
| VNull
| VBool (b : bool)
| VNum (f : spec_float)
| VStr (s : string)
| VList (l : list value)
| VObj (m : list (string * value))
| VKnown (keys : list string)
| VErrors (es : list objError)
| VOther.

Definition Obj := list (string * value).

Inductive error :=
| ErrEnvArgs (n : Z)
| ErrEnvString
| ErrEnvDefault (s : string)
| ErrEnvUnset (envVar : string)
| ErrParseBool (s : string)
| ErrFileArgs (n : Z)
| ErrNotExist (path : string)
| ErrIncluded (from : string) (e : error)
| ErrValue (path : list string) (e : error)
| ErrType (path : list string)
| ErrAbs (path : string)
| ErrCycle (path : string)
| ErrOpen
| ErrParsing (name : string)
| ErrExpanding (name : string) (e : error)
| ErrNoHook
| ErrFunc (s : string).

(** How a call ends; [OutOfFuel] stands for a recursion that is too deep. *)
Inductive outcome (A : Type) :=
| Ret (a : A)
| Err (e : error)
| Panic
| OutOfFuel.
Arguments Ret {_} _.
Arguments Err {_} _.
Arguments Panic {_}.
Arguments OutOfFuel {_}.

(** The changing part of a [ConfigParser]; a nil map is [None]. *)
Record parser := Parser { touchedFiles : option (list string); includeStack : list string }.

(** What [c.open] and [dj.Decode] make of a path. *)
Inductive source :=
| NoFile
| Malformed (name : string)
| Decoded (name : string) (m : Obj).

(** The outside: the operating system, package filepath, the files, the other
    fields of the parser and the registered functions. *)
Record env := Env {
  getenv : string → string;
  windows : bool;
  stat : string → bool;
  isAbs : string → bool;
  join : string → string → string;
  abs : string → option string;
  openFile : string → source;
  openHook : bool;
  includeDirs : list string;
  regFunc : string → option (parser → list value → parser * outcome value);
}.

(** ** stringVector *)

Definition Push (s : string) (v : list string) : list string := v ++ [s].
Definition Pop (v : list string) : option (list string) :=
  if (0 <? zlen v) then Some (take (length v - 1) v) else None.
Definition Last (v : list string) : option string := zidx v (zlen v - 1).

(** ** _env *)

(** A character of [[A-Za-z0-9_]]. *)
Definition wordChar (a : Ascii.ascii) : bool :=
  let n := Z.of_nat (Ascii.nat_of_ascii a) in
  ((65 <=? n) && (n <=? 90)) || ((97 <=? n) && (n <=? 122)) || ((48 <=? n) && (n <=? 57)) || (n =? 95).

Fixpoint spanWord (s : string) : string * string :=
  match s with
  | String a s' => if wordChar a then let '(w, r) := spanWord s' in (String a w, r) else (EmptyString, s)
  | EmptyString => (EmptyString, EmptyString)
  end.

(** A match of [envPattern] at the start: the variable and what follows. *)
Definition envMatch (s : string) : option (string * string) :=
  match s with
  | String a (String b s') =>
      if Ascii.eqb a "$"%char && Ascii.eqb b "{"%char then
        match spanWord s' with
        | (String _ _ as w, String c r) => if Ascii.eqb c "}"%char then Some (w, r) else None
        | _ => None
        end
      else None
  | _ => None
  end.

(** [envPattern.ReplaceAllStringFunc]: matches from left to right, each
    replaced by [f]; the state is threaded through the calls. *)
Fixpoint replaceAll {S} (fuel : nat) (f : string → S → string * S) (s : string) (st : S) : string * S :=
  match fuel with
  | O => (s, st)
  | Datatypes.S fuel =>
      match envMatch s with
      | Some (w, r) =>
          let '(x, st) := f w st in
          let '(y, st) := replaceAll fuel f r st in (String.append x y, st)
      | None =>
          match s with
          | EmptyString => (EmptyString, st)
          | String a s => let '(y, st) := replaceAll fuel f s st in (String a y, st)
          end
      end
  end.

Definition ParseBool (s : string) : option bool :=
  if bool_decide (s ∈ ["1"; "t"; "T"; "true"; "TRUE"; "True"]%string) then Some true
  else if bool_decide (s ∈ ["0"; "f"; "F"; "false"; "FALSE"; "False"]%string) then Some false
  else None.

(** The function that [expandEnv] gives to [ReplaceAllStringFunc]. *)
Definition expandVar (E : env) (def : option string) (envVar : string) (err : option error) : string * option error :=
  let val := getenv E envVar in
  let val := if (String.eqb val "" && String.eqb envVar "USER" && windows E)%string then getenv E "USERNAME" else val in
  if String.eqb val "" then
    match def with
    | Some d => (d, err)
    | None => (val, Some (ErrEnvUnset envVar))
    end
  else (val, err).

Definition expandEnv (E : env) (v : list value) : outcome value :=
  if (zlen v <? 1) || (2 <? zlen v) then Err (ErrEnvArgs (zlen v))
  else match v with
  | VStr s :: rest =>
      (* hasDefault and def; wantsBool and boolDefault *)
      let default : outcome (option string * option bool) :=
        match rest with
        | [] => Ret (None, None)
        | VStr d :: _ => Ret (Some d, None)
        | VBool b :: _ => Ret (Some EmptyString, Some b)
        | _ => Err (ErrEnvDefault s)
        end in
      match default with
      | Ret (def, wants) =>
          let '(expanded, err) := replaceAll (String.length s + 1) (expandVar E def) s None in
          match wants with
          | Some boolDefault =>
              if String.eqb expanded "" then Ret (VBool boolDefault)
              else match ParseBool expanded with
              | Some b => Ret (VBool b)
              | None => Err (ErrParseBool expanded)
              end
          | None => match err with Some e => Err e | None => Ret (VStr expanded) end
          end
      | Err e => Err e
      | Panic => Panic
      | OutOfFuel => OutOfFuel
      end
  | _ => Err ErrEnvString
  end.

(** ** _fileobj *)

Definition ConfigFilePath (E : env) (configFile : string) : option string :=
  if stat E configFile then Some configFile
  else if isAbs E configFile then None
  else
    (fix search (dirs : list string) : option string :=
       match dirs with
       | [] => None
       | d :: dirs => if stat E (join E d configFile) then Some (join E d configFile) else search dirs
       end) (includeDirs E).

(** The functions that follow call each other through files: [readJSON] is
    [recursiveReadJSON] of the files below. *)
Section eval.
Context (E : env) (readJSON : string → parser → parser * outcome value).

Definition expandFile (c : parser) (v : list value) : parser * outcome value :=
  if negb (zlen v =? 1) then (c, Err (ErrFileArgs (zlen v)))
  else match v with
  | VStr p :: _ =>
      match ConfigFilePath E p with
      | None => (c, Err (ErrNotExist p))
      | Some incPath =>
          let '(c, exp) := readJSON incPath c in
          match exp with
          | Ret exp => (c, Ret exp)
          | Err e =>
              match Last (includeStack c) with
              | Some from => (c, Err (ErrIncluded from e))
              | None => (c, Panic)
              end
          | Panic => (c, Panic)
          | OutOfFuel => (c, OutOfFuel)
          end
      end
  | _ => (c, Panic)
  end.

Definition namedExpander (name : string) : option (parser → list value → parser * outcome value) :=
  if String.eqb name "_env" then Some (λ c v, (c, expandEnv E v))
  else if String.eqb name "_fileobj" then Some expandFile
  else regFunc E name.

(** The expander that [sl[0]] names. *)
Definition expanderOf (x : value) : option (parser → list value → parser * outcome value) :=
  match x with VStr name => namedExpander name | _ => None end.

(** The loop [for i, oldval := range sl] of [evalValue]: with the elements
    that it leaves in [sl]. *)
Definition evalElements (evalValue : value → parser → parser * value * outcome value) :=
  fix elements (sl : list value) (c : parser) : parser * list value * outcome unit :=
    match sl with
    | [] => (c, [], Ret tt)
    | oldval :: rest =>
        let '(c, oldval', r) := evalValue oldval c in
        match r with
        | Ret newval => let '(c, rest, o) := elements rest c in (c, newval :: rest, o)
        | Err e => (c, oldval' :: rest, Err e)
        | Panic => (c, oldval' :: rest, Panic)
        | OutOfFuel => (c, oldval' :: rest, OutOfFuel)
        end
    end.

(** [c.evalValue(v)]: with the result, what has become of [v], whose elements
    are assigned to. *)
Fixpoint evalValue (v : value) (c : parser) : parser * value * outcome value :=
  match v with
  | VList [] => (c, v, Panic)
  | VList ((x :: args) as sl) =>
      match expanderOf x with
      | Some expander => let '(c, newval) := expander c args in (c, v, newval)
      | None =>
          let '(c, sl, o) := evalElements evalValue sl c in
          match o with
          | Ret _ => (c, VList sl, Ret (VList sl))
          | Err e => (c, VList sl, Err e)
          | Panic => (c, VList sl, Panic)
          | OutOfFuel => (c, VList sl, OutOfFuel)
          end
      end
  | _ => (c, v, Ret v)
  end.

(** The loop [for k, ei := range m] of [evaluateExpressions]; [inner] is
    [evaluateExpressions] of a value of [m]. *)
Definition evalEntries (inner : value → list string → parser → parser * value * outcome unit)
    (seenKeys : list string) (testOnly : bool) :=
  fix entries (m : list (string * value)) (c : parser) : parser * list (string * value) * outcome unit :=
    match m with
    | [] => (c, [], Ret tt)
    | (k, ei) :: rest =>
        let thisPath := seenKeys ++ [k] in
        match ei with
        | VStr _ | VBool _ | VNum _ | VNull | VList [] =>
            let '(c, rest, o) := entries rest c in (c, (k, ei) :: rest, o)
        | VList _ =>
            let '(c, subval, r) := evalValue ei c in
            match r with
            | Ret evaled =>
                let '(c, rest, o) := entries rest c in
                (c, (k, if testOnly then subval else evaled) :: rest, o)
            | Err e => (c, (k, subval) :: rest, Err (ErrValue thisPath e))
            | Panic => (c, (k, subval) :: rest, Panic)
            | OutOfFuel => (c, (k, subval) :: rest, OutOfFuel)
            end
        | VObj _ =>
            let '(c, subval, r) := inner ei thisPath c in
            match r with
            | Ret _ => let '(c, rest, o) := entries rest c in (c, (k, subval) :: rest, o)
            | _ => (c, (k, subval) :: rest, r)
            end
        | _ => (c, m, Err (ErrType thisPath))
        end
    end.

(** [c.evaluateExpressions(m, seenKeys, testOnly)] and what has become of [m]. *)
Fixpoint evaluateExpressions (v : value) (seenKeys : list string) (testOnly : bool) (c : parser) :
    parser * value * outcome unit :=
  match v with
  | VObj m =>
      let '(c, m, o) := evalEntries (λ v seen c, evaluateExpressions v seen testOnly c) seenKeys testOnly m c in
      (c, VObj m, o)
  | _ => (c, v, Ret tt)
  end.

End eval.

(** ** Files *)

(** The rest of [recursiveReadJSON] once the path has been noted. *)
Definition readDecoded (E : env) (readJSON : string → parser → parser * outcome value) (configPath : string) (c : parser) :
    parser * outcome value :=
  match openFile E configPath with
  | NoFile => (c, Err ErrOpen)
  | Malformed name => (c, Err (ErrParsing name))
  | Decoded name m =>
      let '(c, decodedObject, r) := evaluateExpressions E readJSON (VObj m) [] false c in
      match r with
      | Ret _ => (c, Ret decodedObject)
      | Err e => (c, Err (ErrExpanding name e))
      | Panic => (c, Panic)
      | OutOfFuel => (c, OutOfFuel)
      end
  end.

Fixpoint recursiveReadJSON (E : env) (fuel : nat) (configPath : string) (c : parser) : parser * outcome value :=
  match fuel with
  | O => (c, OutOfFuel)
  | S fuel =>
      if String.eqb configPath "" then readDecoded E (recursiveReadJSON E fuel) configPath c
      else
        match abs E configPath with
        | None => (c, Err (ErrAbs configPath))
        | Some absConfigPath =>
            if bool_decide (absConfigPath ∈ default [] (touchedFiles c)) then (c, Err (ErrCycle absConfigPath))
            else
              match touchedFiles c with
              | None => (c, Panic)
              | Some touched =>
                  let c := Parser (Some (absConfigPath :: touched)) (Push absConfigPath (includeStack c)) in
                  let '(c, r) := readDecoded E (recursiveReadJSON E fuel) configPath c in
                  match Pop (includeStack c) with
                  | Some st => (Parser (touchedFiles c) st, r)
                  | None => (c, Panic)
                  end
              end
        end
  end.

Definition ReadFile (E : env) (fuel : nat) (path : string) (c : parser) : parser * outcome value :=
  if String.eqb path "" && negb (openHook E) then (c, Err ErrNoHook)
  else recursiveReadJSON E fuel path (Parser (Some []) (includeStack c)).

(** [c.CheckTypes(m)] *)
Definition CheckTypes (E : env) (fuel : nat) (m : value) (c : parser) : parser * value * outcome unit :=
  evaluateExpressions E (recursiveReadJSON E fuel) m [] true c.

(** [RegisterFunc(name, fn)]; [None] is a panic. *)
Definition RegisterFunc {A} (reg : gmap string A) (name : string) (fn : A) : option (gmap string A) :=
  if (Z.of_nat (String.length name) <? 2) || negb (String.prefix "_" name) then None
  else match reg !! name with
  | Some _ => None
  | None => Some (<[name := fn]> reg)
  end.

(** ** Contents that cannot panic *)

(** [v[0].(string)] in [expandFile]. *)
Definition fileArgsOk (args : list value) : bool :=
  match args with [VStr _] => true | [_] => false | _ => true end.

(** No empty list where [evalValue] looks at [sl[0]]. *)
Fixpoint safeValue (E : env) (v : value) : bool :=
  match v with
  | VList [] => false
  | VList ((x :: args) as sl) =>
      match x with
      | VStr name =>
          if String.eqb name "_env" then true
          else if String.eqb name "_fileobj" then fileArgsOk args
          else if regFunc E name then true
          else forallb (safeValue E) sl
      | _ => forallb (safeValue E) sl
      end
  | _ => true
  end.

Fixpoint safeObj (E : env) (v : value) : bool :=
  match v with
  | VObj m =>
      forallb (λ '(_, ei), match ei with
                           | VList [] => true
                           | VList _ => safeValue E ei
                           | VObj _ => safeObj E ei
                           | _ => true
                           end) m
  | _ => true
  end.

(** ** Laws *)

Definition fine {A} (r : outcome A) : Prop := match r with Ret _ | Err _ => True | _ => False end.

Section value_ind.
Context (P : value → Prop) (Hnull : P VNull) (Hbool : ∀ b, P (VBool b)) (Hnum : ∀ f, P (VNum f)) (Hstr : ∀ s, P (VStr s))
  (Hlist : ∀ l, Forall P l → P (VList l)) (Hobj : ∀ m, Forall (λ kv, P kv.2) m → P (VObj m))
  (Hknown : ∀ k, P (VKnown k)) (Herrors : ∀ e, P (VErrors e)) (Hother : P VOther).

(** Induction through the lists. *)
Fixpoint value_nested_ind (v : value) : P v :=
  match v with
  | VNull => Hnull
  | VBool b => Hbool b
  | VNum f => Hnum f
  | VStr s => Hstr s
  | VList l => Hlist l ((fix all l : Forall P l := match l with [] => Forall_nil_2 P | x :: l => Forall_cons_2 _ _ _ (value_nested_ind x) (all l) end) l)
  | VObj m => Hobj m ((fix all m : Forall (λ kv, P kv.2) m := match m with [] => Forall_nil_2 _ | kv :: m => Forall_cons_2 _ _ _ (value_nested_ind kv.2) (all m) end) m)
  | VKnown k => Hknown k
  | VErrors e => Herrors e
  | VOther => Hother
  end.
End value_ind.

Lemma Push_Last s v : Last (Push s v) = Some s.
Proof.
  unfold Last, Push. destruct (zidx_Some (v ++ [s]) (zlen (v ++ [s]) - 1)) as (x&->&Hx); [rewrite length_app; cbn [length]; lia|].
  rewrite length_app, list_lookup_middle in Hx by (cbn [length]; lia). by injection Hx as ->.
Qed.

Lemma Push_Pop s v : Pop (Push s v) = Some v.
Proof.
  unfold Pop, Push. rewrite length_app. cbn [length]. destruct (Z.ltb_spec 0 (Z.of_nat (length v + 1))); [|lia].
  f_equal. rewrite take_app_le by lia. apply take_ge. lia.
Qed.

Lemma Last_nonempty v : v ≠ [] → is_Some (Last v).
Proof.
  destruct v as [|x v _] using rev_ind; [done|]. intros _. exists x. exact (Push_Last x v).
Qed.

Lemma ConfigFilePath_stat E p q : ConfigFilePath E p = Some q → stat E q = true.
Proof.
  unfold ConfigFilePath. destruct (stat E p) eqn:Hp; [by intros [= <-]|]. destruct (isAbs E p); [done|].
  induction (includeDirs E) as [|d ds IH]; [done|]. destruct (stat E (join E d p)) eqn:Hd; [by intros [= <-]|done].
Qed.

Lemma expandEnv_fine E v : fine (expandEnv E v).
Proof.
  unfold expandEnv. destruct (_ || _); [done|]. destruct v as [|[| | |s| | | | |] rest]; try done.
  assert (∀ def wants, fine (let '(expanded, err) := replaceAll (String.length s + 1) (expandVar E def) s None in
    match wants with
    | Some boolDefault => if String.eqb expanded "" then Ret (VBool boolDefault)
        else match ParseBool expanded with Some b => Ret (VBool b) | None => Err (ErrParseBool expanded) end
    | None => match err with Some e => Err e | None => Ret (VStr expanded) end
    end)) as Hf.
  { intros def wants. destruct (replaceAll _ _ _ _) as [x err]. destruct wants; [|by destruct err].
    destruct (String.eqb x ""); [done|]. by destruct (ParseBool x). }
  destruct rest as [|[|b| |d| | | | |] ?]; try done;
    [exact (Hf None None)|exact (Hf (Some EmptyString) (Some b))|exact (Hf (Some d) None)].
Qed.

Lemma filter_length_le {A} (P Q : A → Prop) `{∀ x, Decision (P x), ∀ x, Decision (Q x)} l :
  (∀ x, P x → Q x) → (length (filter P l) ≤ length (filter Q l))%nat.
Proof.
  intros HPQ. induction l as [|x l IH]; [done|]. destruct (decide (P x)).
  - rewrite !filter_cons_True by auto. cbn [length]. lia.
  - rewrite filter_cons_False by done. destruct (decide (Q x)).
    + rewrite filter_cons_True by done. cbn [length]. lia.
    + by rewrite filter_cons_False.
Qed.

(** ** Termination and safety *)

Section returns.
Context (E : env) (U : list string).

(** The files of [U] that have not been read. *)
Definition room (t : list string) : nat := length (filter (λ a, a ∉ t) U).

Lemma room_lt a t : a ∈ U → a ∉ t → (room (a :: t) < room t)%nat.
Proof.
  unfold room. intros HU Ht. induction HU as [a l|a b l HU IH].
  - rewrite filter_cons_False by set_solver. rewrite filter_cons_True by done. cbn [length].
    enough (length (filter (λ x, x ∉ a :: t) l) ≤ length (filter (λ x, x ∉ t) l))%nat by lia.
    apply filter_length_le. set_solver.
  - specialize (IH Ht). destruct (decide (b ∉ t)), (decide (b ∉ a :: t)).
    + rewrite !filter_cons_True by done. cbn [length]. lia.
    + rewrite filter_cons_False, filter_cons_True by done. cbn [length]. lia.
    + set_solver.
    + rewrite !filter_cons_False by done. done.
Qed.

(** The parser while files are read: what has been read, each file once, and
    less than [n] of the files left. *)
Definition good (n : nat) (c : parser) : Prop :=
  ∃ t, touchedFiles c = Some t ∧ NoDup t ∧ (room t < n)%nat.

(** A result, or a panic for which there is a reason. *)
Context (reason : Prop).
Definition tame {A} (r : outcome A) : Prop :=
  match r with Ret _ | Err _ => True | Panic => reason | OutOfFuel => False end.

Lemma fine_tame {A} (r : outcome A) : fine r → tame r.
Proof. by destruct r. Qed.

(** A call that ends, with the includes as they were. *)
Definition ends {A} (n : nat) (c c' : parser) (r : outcome A) : Prop :=
  good n c' ∧ includeStack c' = includeStack c ∧ tame r.

Context (Hreg : ∀ name fn, regFunc E name = Some fn → ∀ c v, (fn c v).1 = c ∧ tame (fn c v).2).
Context (Hstat : stat E "" = false).

Section eval.
Context (n : nat) (readJSON : string → parser → parser * outcome value).
Context (Hread : ∀ p c, p ≠ ""%string → good n c → ends n c (readJSON p c).1 (readJSON p c).2).

Lemma expandFile_ends c v :
  (fileArgsOk v = false → reason) → good n c → (includeStack c = [] → reason) →
  ends n c (expandFile E readJSON c v).1 (expandFile E readJSON c v).2.
Proof.
  intros Hv Hc Hst. unfold expandFile. destruct (negb _) eqn:Hlen; [done|].
  apply negb_false_iff, Z.eqb_eq in Hlen. destruct v as [|x [|]]; cbn [length] in Hlen; [lia| |lia].
  destruct x as [| | |p| | | | |]; try (split_and!; [done|done|by apply Hv]). destruct (ConfigFilePath E p) as [q|] eqn:Hq; [|done].
  assert (q ≠ ""%string) as Hne. { intros ->. apply ConfigFilePath_stat in Hq. congruence. }
  destruct (Hread q c Hne Hc) as (H1&H2&H3). destruct (readJSON q c) as [c' r]. cbn [fst snd] in *.
  destruct r; try done. unfold Last. destruct (zidx _ _) as [from|] eqn:El; [done|].
  split_and!; [done|done|]. cbn [tame snd]. apply Hst. rewrite <-H2. destruct (includeStack c') as [|x st]; [done|].
  destruct (Last_nonempty (x :: st)) as [from Hfrom]; [done|]. unfold Last in Hfrom. congruence.
Qed.

Lemma evalValue_ends v c :
  (safeValue E v = false → reason) → good n c → (includeStack c = [] → reason) →
  ends n c (evalValue E readJSON v c).1.1 (evalValue E readJSON v c).2.
Proof.
  revert c. induction v as [|b|f|s|l IH|m _|k|es|] using value_nested_ind; intros c Hv Hc Hst; try done.
  destruct l as [|x args]; [split_and!; [done|done|by apply Hv]|]. cbn [evalValue].
  destruct (expanderOf E readJSON x) as [fn|] eqn:Hfn.
  - assert (ends n c (fn c args).1 (fn c args).2) as Hends.
    { destruct x as [| | |name| | | | |]; try done. cbn [expanderOf] in Hfn. unfold namedExpander in Hfn. cbn [safeValue] in Hv.
      destruct (String.eqb name "_env"); [injection Hfn as <-; split; [done|split; [done|apply fine_tame, expandEnv_fine]]|].
      destruct (String.eqb name "_fileobj"); [injection Hfn as <-; by apply expandFile_ends|].
      destruct (Hreg name fn Hfn c args) as [H1 H2]. split; rewrite H1; [done|split; done]. }
    by destruct (fn c args) as [c' r].
  - assert (forallb (safeValue E) (x :: args) = false → reason) as Hall.
    { destruct x as [| | |name| | | | |]; try exact Hv. cbn [expanderOf] in Hfn. unfold namedExpander in Hfn. cbn [safeValue] in Hv.
      destruct (String.eqb name "_env"); [done|]. destruct (String.eqb name "_fileobj"); [done|]. by rewrite Hfn in Hv. }
    clear Hv Hfn. generalize dependent (x :: args). clear x args. intros sl IH Hall.
    set (go := evalElements (evalValue E readJSON)).
    enough (ends n c (go sl c).1.1 (go sl c).2) as Hgo.
    { destruct (go sl c) as [[c' sl'] o]. cbn [fst snd] in Hgo. by destruct o. }
    revert c Hc Hst. induction IH as [|v sl Hv _ IHl]; intros c Hc Hst; [done|]. cbn [forallb] in Hall.
    assert (safeValue E v = false → reason) as Hv1 by (intros Hv1; apply Hall; by rewrite Hv1).
    assert (forallb (safeValue E) sl = false → reason) as Hall' by (intros Hs; apply Hall; by rewrite Hs, andb_false_r).
    clear Hall. unfold go. cbn [evalElements]. fold go. destruct (Hv c Hv1 Hc Hst) as (H1&H2&H3).
    destruct (evalValue E readJSON v c) as [[c1 v'] r]. cbn [fst snd] in *. destruct r; try done.
    destruct (IHl Hall' c1 H1) as (H4&H5&H6); [by rewrite H2|]. destruct (go sl c1) as [[c2 sl'] o].
    cbn [fst snd] in *. split; [done|split; [congruence|done]].
Qed.

Lemma evaluateExpressions_ends v seen testOnly c :
  (safeObj E v = false → reason) → good n c → (includeStack c = [] → reason) →
  ends n c (evaluateExpressions E readJSON v seen testOnly c).1.1 (evaluateExpressions E readJSON v seen testOnly c).2.
Proof.
  revert seen c. induction v as [|b|f|s|l _|m IH|k|es|] using value_nested_ind; intros seen c Hv Hc Hst; try done.
  cbn [evaluateExpressions]. set (go := evalEntries _ _ _ seen testOnly).
  enough (ends n c (go m c).1.1 (go m c).2) as Hgo. { by destruct (go m c) as [[c' m'] o]. }
  revert c Hc Hst. induction IH as [|[k ei] m Hei _ IHm]; intros c Hc Hst; [done|]. cbn [safeObj forallb] in Hv.
  assert (safeObj E (VObj m) = false → reason) as Hm by (intros Hs; apply Hv; cbn [safeObj] in Hs; by rewrite Hs, andb_false_r).
  assert (match ei with VList [] => true | VList _ => safeValue E ei | VObj _ => safeObj E ei | _ => true end = false → reason) as Hv1
    by (intros Hs; apply Hv; by rewrite Hs).
  clear Hv. cbn [snd] in Hei.
  assert (∀ c1 k1 v1, good n c1 → includeStack c1 = includeStack c →
    ends n c (let '(c2, rest, o) := go m c1 in (c2, (k1, v1) :: rest, o)).1.1 (let '(c2, rest, o) := go m c1 in (c2, (k1, v1) :: rest, o)).2) as Hrest.
  { intros c1 k1 v1 Hc1 Hst1. destruct (IHm Hm c1 Hc1) as (H1&H2&H3); [by rewrite Hst1|].
    destruct (go m c1) as [[c2 m'] o]. cbn [fst snd] in *. split; [done|split; [congruence|done]]. }
  unfold go. cbn [evalEntries]. fold go. destruct ei as [|b|f|s|l|m'|ks|es|]; try (by apply Hrest); try done.
  - destruct l as [|x args]; [by apply Hrest|].
    destruct (evalValue_ends (VList (x :: args)) c Hv1 Hc Hst) as (H1&H2&H3).
    destruct (evalValue E readJSON (VList (x :: args)) c) as [[c1 v'] r]. cbn [fst snd] in *. destruct r; try done. by apply Hrest.
  - destruct (Hei (seen ++ [k]) c Hv1 Hc Hst) as (H1&H2&H3).
    destruct (evaluateExpressions E readJSON (VObj m') (seen ++ [k]) testOnly c) as [[c1 v'] r]. cbn [fst snd] in *.
    destruct r; try done. by apply Hrest.
Qed.

End eval.

Context (Hfiles : ∀ p a name m, p ≠ ""%string → abs E p = Some a → openFile E p = Decoded name m → a ∈ U).
Context (Hcontents : ∀ p name m, openFile E p = Decoded name m → safeObj E (VObj m) = false → reason).

Lemma room_le a t : (room (a :: t) ≤ room t)%nat.
Proof. apply filter_length_le. set_solver. Qed.

Lemma good_mono n n' c : (n ≤ n')%nat → good n c → good n' c.
Proof. intros Hn (t&?&?&?). exists t. split_and!; [done|done|lia]. Qed.

(** A file whose path has just been noted, or that of the hook. *)
Lemma readDecoded_ends n p c :
  (∀ p c, p ≠ ""%string → good n c → ends n c (recursiveReadJSON E n p c).1 (recursiveReadJSON E n p c).2) →
  good (S n) c → (∀ name m, openFile E p = Decoded name m → good n c) → (includeStack c = [] → reason) →
  ends (S n) c (readDecoded E (recursiveReadJSON E n) p c).1 (readDecoded E (recursiveReadJSON E n) p c).2.
Proof.
  intros IH Hc Hc' Hst. unfold readDecoded. destruct (openFile E p) as [|name|name m] eqn:Hopen; [done|done|].
  destruct (evaluateExpressions_ends n _ IH (VObj m) [] false c (Hcontents p name m Hopen) (Hc' _ _ eq_refl) Hst) as (H1&H2&H3).
  destruct (evaluateExpressions E (recursiveReadJSON E n) (VObj m) [] false c) as [[c' m'] r]. cbn [fst snd] in *.
  destruct r; try done; (split; [by eapply good_mono, H1; lia|done]).
Qed.

Lemma recursiveReadJSON_ends fuel p c :
  p ≠ ""%string → good fuel c → ends fuel c (recursiveReadJSON E fuel p c).1 (recursiveReadJSON E fuel p c).2.
Proof.
  revert p c. induction fuel as [|n IH]; intros p c Hp Hc; [destruct Hc as (t&_&_&?); lia|].
  pose proof Hc as (t&Ht&Hnd&Hroom). cbn [recursiveReadJSON]. rewrite (proj2 (String.eqb_neq p "")) by done.
  destruct (abs E p) as [a|] eqn:Ha; [|done]. rewrite Ht. cbn [default]. case_bool_decide as Hat; [done|].
  destruct (readDecoded_ends n p (Parser (Some (a :: t)) (Push a (includeStack c))) IH) as (H1&H2&H3).
  - exists (a :: t). pose proof (room_le a t). split_and!; [done|by constructor|lia].
  - intros name m Hopen. exists (a :: t). pose proof (room_lt a t (Hfiles p a name m Hp Ha Hopen) Hat).
    split_and!; [done|by constructor|lia].
  - unfold Push. cbn. by destruct (includeStack c).
  - destruct (readDecoded _ _ _ _) as [c' r]. cbn [fst snd includeStack] in *. rewrite H2, Push_Pop. done.
Qed.

(** The configuration of the hook: there is no path to note. *)
Lemma readHook_ends n c :
  good n c → (includeStack c = [] → reason) →
  ends (S n) c (recursiveReadJSON E (S n) "" c).1 (recursiveReadJSON E (S n) "" c).2.
Proof.
  intros Hc Hst. cbn [recursiveReadJSON]. change (String.eqb "" "") with true. cbv iota.
  apply readDecoded_ends; [intros; by apply recursiveReadJSON_ends|eapply good_mono; [|exact Hc]; lia|done|done].
Qed.

End returns.

(** Why reading may panic: the configuration of the hook with no file around
    it, contents that no file should have, or a registered function. *)
Definition panicReason (E : env) (path : string) (c : parser) : Prop :=
  (path = ""%string ∧ includeStack c = []) ∨
  (∃ p name m, openFile E p = Decoded name m ∧ safeObj E (VObj m) = false) ∨
  (∃ name fn c v, regFunc E name = Some fn ∧ (fn c v).2 = Panic).


(** A file system of decoded files at absolute paths; [USER] is set. *)
Definition demoEnv (files : list (string * Obj)) (hook : bool) : env :=
  {| getenv := λ v, if String.eqb v "USER" then "gopher"%string else EmptyString;
     windows := false;
     stat := λ p, bool_decide (p ≠ ""%string ∧ p ∈ files.*1);
     isAbs := λ _, true;
     join := String.append;
     abs := Some;
     openFile := λ p, match list_find (λ kv, kv.1 = p) files with Some (_, kv) => Decoded p kv.2 | None => NoFile end;
     openHook := hook;
     includeDirs := [];
     regFunc := λ _, None |}.

Definition fresh : parser := Parser None [].
Definition env1 (v : string) : value := VList [VStr "_env"; VStr v].
Definition include1 (p : string) : value := VList [VStr "_fileobj"; VStr p].

Definition demoFiles : list (string * Obj) :=
  [("/main", [("user", env1 "u-${USER}"); ("more", include1 "/sub")]); ("/sub", [("n", VList [VStr "x"; env1 "${USER}"])])]%string.

(** A configuration and the file that it includes, expanded. *)
Example reads_demo :
  (ReadFile (demoEnv demoFiles false) 3 "/main" fresh).2 =
  Ret (VObj [("user", VStr "u-gopher"); ("more", VObj [("n", VList [VStr "x"; VStr "gopher"])])])%string.
Proof. vm_compute. reflexivity. Qed.

Lemma demoEnv_decoded files hook p name m :
  openFile (demoEnv files hook) p = Decoded name m → p ∈ files.*1 ∧ m ∈ files.*2.
Proof.
  cbn [openFile demoEnv]. destruct (list_find _ files) as [[i [q m']]|] eqn:Hf; [|done]. intros [= <- <-].
  apply list_find_Some in Hf as (Hi&<-&_). apply list_elem_of_lookup_2 in Hi. cbn. split.
  - apply list_elem_of_fmap. by exists (q, m').
  - apply list_elem_of_fmap. by exists (q, m').
Qed.


(** ** What surprises *)

(** A file that two others include, without a cycle, is reported as one. *)
Example diamond_is_a_cycle :
  (ReadFile (demoEnv [("/main", [("a", include1 "/sub"); ("b", include1 "/sub")]); ("/sub", [])]%string false) 4 "/main" fresh).2 =
  Err (ErrExpanding "/main" (ErrValue ["b"] (ErrIncluded "/main" (ErrCycle "/sub"))))%string.
Proof. vm_compute. reflexivity. Qed.

(** [[[]]] in a configuration: [sl[0]] of an empty list. *)
Example empty_inner_list_panics :
  (ReadFile (demoEnv [("/main", [("a", VList [VList []])])]%string false) 2 "/main" fresh).2 = Panic.
Proof. vm_compute. reflexivity. Qed.

(** [["_fileobj", 1]]: the type assertion. *)
Example fileobj_of_number_panics :
  (ReadFile (demoEnv [("/main", [("a", VList [VStr "_fileobj"; VNull])])]%string false) 2 "/main" fresh).2 = Panic.
Proof. vm_compute. reflexivity. Qed.

(** An include that fails in a configuration read from the [Open] hook with
    an empty path: [includeStack.Last] of an empty stack. *)
Example failing_include_of_hook_panics :
  (ReadFile (demoEnv [("", [("a", include1 "/sub")]); ("/sub", [("b", include1 "/none")])]%string true) 4 "" fresh).2 = Panic.
Proof. vm_compute. reflexivity. Qed.

(** [CheckTypes] of a parser that has read no file writes to a nil map. *)
Example CheckTypes_panics_on_include :
  (CheckTypes (demoEnv [("/sub", [])]%string false) 3 (VObj [("a", include1 "/sub")])%string fresh).2 = Panic.
Proof. vm_compute. reflexivity. Qed.

(** [CheckTypes] replaces expressions inside lists, though it only checks. *)
Example CheckTypes_expands_inner_lists :
  (CheckTypes (demoEnv [] false) 3 (VObj [("a", VList [VStr "x"; env1 "${USER}"])])%string fresh).1.2 =
  VObj [("a", VList [VStr "x"; VStr "gopher"])]%string.
Proof. vm_compute. reflexivity. Qed.
