(* ===== verification/JsonObj.v ===== *)
(** * jsonconfig: typed access to an object

    jsonconfig.go: an [Obj] remembers, under two keys of its own, the keys that
    were asked for and the errors met, and [Validate] reports them. *)
From stdpp Require Import strings.
From Stdlib Require Import Floats.SpecFloat.
From S2P Require Import Prelude.
From S2P Require Import JsonConfig.

(** ** The map *)

Fixpoint getKey (key : string) (jc : Obj) : option value :=
  match jc with
  | [] => None
  | (k, v) :: jc => if String.eqb k key then Some v else getKey key jc
  end.

Fixpoint setKey (key : string) (v : value) (jc : Obj) : Obj :=
  match jc with
  | [] => [(key, v)]
  | (k, w) :: jc => if String.eqb k key then (k, v) :: jc else (k, w) :: setKey key v jc
  end.

(** ** Notes; [None] is the panic of a failed type assertion *)

Definition noteKnownKey (key : string) (jc : Obj) : option Obj :=
  let jc := match getKey "_knownkeys" jc with Some _ => jc | None => setKey "_knownkeys" (VKnown []) jc end in
  match getKey "_knownkeys" jc with
  | Some (VKnown known) => Some (setKey "_knownkeys" (VKnown (key :: known)) jc)
  | _ => None
  end.

Definition appendError (err : objError) (jc : Obj) : option Obj :=
  match getKey "_errors" jc with
  | Some (VErrors es) => Some (setKey "_errors" (VErrors (es ++ [err])) jc)
  | Some _ => None
  | None => Some (setKey "_errors" (VErrors [err]) jc)
  end.

(** Report an error and answer [a]. *)
Definition complain {A} (err : objError) (a : A) (jc : Obj) : option (A * Obj) :=
  jc ← appendError err jc; Some (a, jc).

(** ** Accessors *)

(** [jc.obj(key, optional)] *)
Definition getObj (key : string) (optional : bool) (jc : Obj) : option (Obj * Obj) :=
  jc ← noteKnownKey key jc;
  match getKey key jc with
  | None => if optional then Some ([], jc) else complain (MissingKey key) [] jc
  | Some (VObj m) => Some (m, jc)
  | Some _ => complain (NotOfType key) [] jc
  end.

(** [jc.string(key, def)] *)
Definition getString (key : string) (def : option string) (jc : Obj) : option (string * Obj) :=
  jc ← noteKnownKey key jc;
  match getKey key jc with
  | None => match def with Some d => Some (d, jc) | None => complain (MissingKey key) EmptyString jc end
  | Some (VStr s) => Some (s, jc)
  | Some _ => complain (NotOfType key) EmptyString jc
  end.

(** [jc.stringOrObject(key, required)] *)
Definition stringOrObject (key : string) (required : bool) (jc : Obj) : option (value * Obj) :=
  jc ← noteKnownKey key jc;
  match getKey key jc with
  | None => if required then complain (MissingKey key) (VStr EmptyString) jc else Some (VNull, jc)
  | Some (VObj m) => Some (VObj m, jc)
  | Some (VStr s) => Some (VStr s, jc)
  | Some _ => complain (NotOfType key) (VStr EmptyString) jc
  end.

(** [jc.bool(key, def)] *)
Definition getBool (key : string) (def : option bool) (jc : Obj) : option (bool * Obj) :=
  jc ← noteKnownKey key jc;
  match getKey key jc with
  | None => match def with Some d => Some (d, jc) | None => complain (MissingKey key) false jc end
  | Some (VBool v) => Some (v, jc)
  | Some (VStr v) =>
      match ParseBool v with
      | Some b => Some (b, jc)
      | None => complain (BadBoolean key v) false jc
      end
  | Some _ => complain (NotOfType key) false jc
  end.

(** [int(f)] and [int64(f)]: truncated; the language leaves the result for
    values out of range to the implementation ([wild]). *)
Definition toInt64 (wild : spec_float → Z) (f : spec_float) : Z :=
  match f with
  | S754_zero _ => 0
  | S754_finite s m e =>
      let n := if 0 <=? e then Zpos m * 2 ^ e else Zpos m / 2 ^ (- e) in
      let v := if s : bool then - n else n in
      if (- 2 ^ 63 <=? v) && (v <? 2 ^ 63) then v else wild f
  | _ => wild f
  end.

(** [jc.int(key, def)] and [jc.int64(key, def)] *)
Definition getInt (wild : spec_float → Z) (key : string) (def : option Z) (jc : Obj) : option (Z * Obj) :=
  jc ← noteKnownKey key jc;
  match getKey key jc with
  | None => match def with Some d => Some (d, jc) | None => complain (MissingKey key) 0 jc end
  | Some (VNum b) => Some (toInt64 wild b, jc)
  | Some _ => complain (NotOfType key) 0 jc
  end.

(** The loop of [requiredList]: the strings, or the index of what is none. *)
Fixpoint listStrings (i : Z) (eil : list value) : list string + Z :=
  match eil with
  | [] => inl []
  | VStr s :: eil => match listStrings (i + 1) eil with inl sl => inl (s :: sl) | inr j => inr j end
  | _ :: _ => inr i
  end.

(** [jc.requiredList(key, required)] *)
Definition requiredList (key : string) (required : bool) (jc : Obj) : option (list string * Obj) :=
  jc ← noteKnownKey key jc;
  match getKey key jc with
  | None => if required then complain (MissingKey key) [] jc else Some ([], jc)
  | Some (VList eil) =>
      match listStrings 0 eil with
      | inl sl => Some (sl, jc)
      | inr i => complain (NotStringAt key i) [] jc
      end
  | Some _ => complain (NotOfType key) [] jc
  end.

(** The exported methods. *)
Definition RequiredObject (key : string) := getObj key false.
Definition OptionalObject (key : string) := getObj key true.
Definition RequiredString (key : string) := getString key None.
Definition OptionalString (key def : string) := getString key (Some def).
Definition RequiredStringOrObject (key : string) := stringOrObject key true.
Definition OptionalStringOrObject (key : string) := stringOrObject key false.
Definition RequiredBool (key : string) := getBool key None.
Definition OptionalBool (key : string) (def : bool) := getBool key (Some def).
Definition RequiredInt (wild : spec_float → Z) (key : string) := getInt wild key None.
Definition OptionalInt (wild : spec_float → Z) (key : string) (def : Z) := getInt wild key (Some def).
Definition RequiredList (key : string) := requiredList key true.
Definition OptionalList (key : string) := requiredList key false.

(** ** Validation *)

(** [sort.Strings] *)
Fixpoint insertString (s : string) (l : list string) : list string :=
  match l with
  | [] => [s]
  | x :: l' => if String.leb s x then s :: l else x :: insertString s l'
  end.
Definition sortStrings (l : list string) : list string := foldr insertString [] l.

Definition UnknownKeys (jc : Obj) : option (list string) :=
  known ← (match getKey "_knownkeys" jc with
           | Some (VKnown known) => Some known
           | Some _ => None
           | None => Some []
           end);
  Some (sortStrings (filter (λ k, k ∉ known ∧ String.prefix "_" k = false) jc.*1)).

Fixpoint appendUnknown (unknown : list string) (jc : Obj) : option Obj :=
  match unknown with
  | [] => Some jc
  | k :: unknown => jc ← appendError (UnknownKey k) jc; appendUnknown unknown jc
  end.

(** The errors joined; the empty list is the nil error. *)
Definition Validate (jc : Obj) : option (list objError * Obj) :=
  unknown ← UnknownKeys jc;
  jc ← appendUnknown unknown jc;
  match getKey "_errors" jc with
  | None => Some ([], jc)
  | Some (VErrors errList) => Some (errList, jc)
  | Some _ => None
  end.

(** ** Specification *)

Inductive request :=
| AskObject (key : string) (optional : bool)
| AskString (key : string) (def : option string)
| AskStringOrObject (key : string) (required : bool)
| AskBool (key : string) (def : option bool)
| AskInt (key : string) (def : option Z)
| AskList (key : string) (required : bool).

Inductive answer :=
| IsObject (m : Obj) | IsString (s : string) | IsValue (v : value) | IsBool (b : bool) | IsInt (n : Z) | IsList (l : list string).

Definition keyOf (r : request) : string :=
  match r with
  | AskObject k _ | AskString k _ | AskStringOrObject k _ | AskBool k _ | AskInt k _ | AskList k _ => k
  end.

Section requests.
Context (wild : spec_float → Z).

Definition perform (r : request) (jc : Obj) : option (answer * Obj) :=
  match r with
  | AskObject k o => '(a, jc) ← getObj k o jc; Some (IsObject a, jc)
  | AskString k d => '(a, jc) ← getString k d jc; Some (IsString a, jc)
  | AskStringOrObject k r => '(a, jc) ← stringOrObject k r jc; Some (IsValue a, jc)
  | AskBool k d => '(a, jc) ← getBool k d jc; Some (IsBool a, jc)
  | AskInt k d => '(a, jc) ← getInt wild k d jc; Some (IsInt a, jc)
  | AskList k r => '(a, jc) ← requiredList k r jc; Some (IsList a, jc)
  end.

Fixpoint performAll (rs : list request) (jc : Obj) : option (list answer * Obj) :=
  match rs with
  | [] => Some ([], jc)
  | r :: rs => '(a, jc) ← perform r jc; '(l, jc) ← performAll rs jc; Some (a :: l, jc)
  end.

(** The default of a missing key ([None] where it is required), and the
    answer to a request that fails. *)
Definition whenMissing (r : request) : option answer :=
  match r with
  | AskObject _ o => if o then Some (IsObject []) else None
  | AskString _ d => IsString <$> d
  | AskStringOrObject _ r => if r then None else Some (IsValue VNull)
  | AskBool _ d => IsBool <$> d
  | AskInt _ d => IsInt <$> d
  | AskList _ r => if r then None else Some (IsList [])
  end.

Definition whenWrong (r : request) : answer :=
  match r with
  | AskObject _ _ => IsObject []
  | AskString _ _ => IsString EmptyString
  | AskStringOrObject _ _ => IsValue (VStr EmptyString)
  | AskBool _ _ => IsBool false
  | AskInt _ _ => IsInt 0
  | AskList _ _ => IsList []
  end.

(** What a value is to a request. *)
Definition readAs (r : request) (v : value) : answer + objError :=
  match r, v with
  | AskObject _ _, VObj m => inl (IsObject m)
  | AskString _ _, VStr s => inl (IsString s)
  | AskStringOrObject _ _, (VStr _ | VObj _) => inl (IsValue v)
  | AskBool _ _, VBool b => inl (IsBool b)
  | AskBool k _, VStr s => match ParseBool s with Some b => inl (IsBool b) | None => inr (BadBoolean k s) end
  | AskInt _ _, VNum f => inl (IsInt (toInt64 wild f))
  | AskList k _, VList l => match listStrings 0 l with inl sl => inl (IsList sl) | inr i => inr (NotStringAt k i) end
  | r, _ => inr (NotOfType (keyOf r))
  end.

(** The answer to a request of the configuration [m], and its error. *)
Definition expected (m : Obj) (r : request) : answer * list objError :=
  match getKey (keyOf r) m with
  | None => match whenMissing r with Some a => (a, []) | None => (whenWrong r, [MissingKey (keyOf r)]) end
  | Some v => match readAs r v with inl a => (a, []) | inr e => (whenWrong r, [e]) end
  end.

(** A key under which an [Obj] keeps its notes. *)
Definition special (key : string) : bool := String.eqb key "_knownkeys" || String.eqb key "_errors".

Definition plain (m : Obj) : Prop := getKey "_knownkeys" m = None ∧ getKey "_errors" m = None.

Definition namedKeys (jc : Obj) : list string := filter (λ k, String.prefix "_" k = false) jc.*1.

(** The keys of [m] that nobody asked for. *)
Definition unasked (m : Obj) (ks : list string) : list string :=
  sortStrings (filter (λ k, k ∉ ks ∧ String.prefix "_" k = false) m.*1).

(** ** Laws *)

Lemma getKey_setKey key v jc k : getKey k (setKey key v jc) = if String.eqb key k then Some v else getKey k jc.
Proof.
  induction jc as [|[k' w] jc IH]; cbn [setKey getKey]; [done|].
  destruct (String.eqb_spec k' key) as [->|Hne]; cbn [getKey].
  - by destruct (String.eqb key k).
  - rewrite IH. destruct (String.eqb_spec k' k) as [->|]; [|done]. by rewrite (proj2 (String.eqb_neq key k)) by congruence.
Qed.

Lemma namedKeys_setKey key v jc : String.prefix "_" key = true → namedKeys (setKey key v jc) = namedKeys jc.
Proof.
  intros Hkey. unfold namedKeys. induction jc as [|[k' w] jc IH]; cbn [setKey fmap list_fmap fst].
  - rewrite filter_cons_False; [done|congruence].
  - destruct (String.eqb_spec k' key) as [->|]; cbn [fmap list_fmap fst].
    + by rewrite !filter_cons_False by congruence.
    + destruct (String.prefix "_" k') eqn:Hk; [rewrite !filter_cons_False by congruence|rewrite !filter_cons_True by done]; cbn; by rewrite IH.
Qed.

Lemma filter_named (ks l : list string) :
  filter (λ k, k ∉ ks ∧ String.prefix "_" k = false) l = filter (λ k, k ∉ ks) (filter (λ k, String.prefix "_" k = false) l).
Proof. by rewrite list_filter_filter. Qed.

(** [jc] is the configuration [m] with the notes of the keys [ks] and the
    errors [es]. *)
Record Notes (m : Obj) (ks : list string) (es : list objError) (jc : Obj) : Prop := {
  nt_key k : special k = false → getKey k jc = getKey k m;
  nt_names : namedKeys jc = namedKeys m;
  nt_known : getKey "_knownkeys" jc = match ks with [] => None | _ => Some (VKnown ks) end;
  nt_errors : getKey "_errors" jc = match es with [] => None | _ => Some (VErrors es) end;
}.

Lemma plain_Notes m : plain m → Notes m [] [] m.
Proof. intros [H1 H2]. by split. Qed.

Lemma special_eqb key k : special key = true → special k = false → String.eqb key k = false.
Proof. intros H1 H2. apply String.eqb_neq. intros ->. congruence. Qed.

Lemma Notes_set m ks es jc key v ks' es' :
  Notes m ks es jc → special key = true →
  getKey "_knownkeys" (setKey key v jc) = match ks' with [] => None | _ => Some (VKnown ks') end →
  getKey "_errors" (setKey key v jc) = match es' with [] => None | _ => Some (VErrors es') end →
  Notes m ks' es' (setKey key v jc).
Proof.
  intros [H1 H2 H3 H4] Hs Hk He. split; [|rewrite namedKeys_setKey; [done|]|done|done].
  - intros k Hk'. rewrite getKey_setKey, special_eqb by done. by apply H1.
  - unfold special in Hs. apply orb_true_iff in Hs as [->%String.eqb_eq| ->%String.eqb_eq]; reflexivity.
Qed.

Lemma noteKnownKey_spec m ks es jc key :
  Notes m ks es jc → ∃ jc', noteKnownKey key jc = Some jc' ∧ Notes m (key :: ks) es jc'.
Proof.
  intros HN. pose proof HN as [H1 H2 H3 H4]. unfold noteKnownKey.
  assert (∃ jc1, (match getKey "_knownkeys" jc with Some _ => jc | None => setKey "_knownkeys" (VKnown []) jc end) = jc1 ∧
    getKey "_knownkeys" jc1 = Some (VKnown ks) ∧ getKey "_errors" jc1 = getKey "_errors" jc ∧
    (jc1 = jc ∨ jc1 = setKey "_knownkeys" (VKnown []) jc)) as (jc1&->&Hk&He&Hj).
  { rewrite H3. destruct ks as [|k ks]; eexists; (split; [done|]).
    - rewrite !getKey_setKey. split_and!; [done|done|by right].
    - split_and!; [done|done|by left]. }
  rewrite Hk. eexists. split; [done|]. destruct Hj as [->| ->].
  - eapply Notes_set; [exact HN|done|by rewrite getKey_setKey|by rewrite getKey_setKey].
  - assert (∀ v w l, setKey "_knownkeys" v (setKey "_knownkeys" w l) = setKey "_knownkeys" v l) as ->.
    { intros v w l. induction l as [|[k' u] l IH]; [done|]. cbn [setKey]. destruct (String.eqb k' "_knownkeys") eqn:E; cbn [setKey]; rewrite E; [done|by rewrite IH]. }
    eapply Notes_set; [exact HN|done|by rewrite getKey_setKey|by rewrite getKey_setKey].
Qed.

Lemma appendError_spec m ks es jc e :
  Notes m ks es jc → ∃ jc', appendError e jc = Some jc' ∧ Notes m ks (es ++ [e]) jc'.
Proof.
  intros HN. pose proof HN as [H1 H2 H3 H4]. unfold appendError. rewrite H4.
  destruct es as [|e0 es]; eexists; (split; [done|]).
  all: eapply Notes_set; [exact HN|done|by rewrite getKey_setKey|by rewrite getKey_setKey].
Qed.

Lemma complain_spec {A} m ks es jc e (a : A) :
  Notes m ks es jc → ∃ jc', complain e a jc = Some (a, jc') ∧ Notes m ks (es ++ [e]) jc'.
Proof.
  intros HN. destruct (appendError_spec m ks es jc e HN) as (jc'&Hjc&HN'). exists jc'. unfold complain. by rewrite Hjc.
Qed.

(** Where an accessor ends: with its answer, or with a complaint. *)
Definition Answers (m : Obj) (ks : list string) (es : list objError) (e : answer * list objError) (x : option (answer * Obj)) : Prop :=
  ∃ jc', x = Some (e.1, jc') ∧ Notes m ks (es ++ e.2) jc'.

Lemma Answers_ret m ks es jc a : Notes m ks es jc → Answers m ks es (a, []) (Some (a, jc)).
Proof. intros HN. exists jc. cbn [fst snd]. by rewrite app_nil_r. Qed.

Lemma Answers_complain {A} m ks es jc e (a : A) (f : A → answer) :
  Notes m ks es jc → Answers m ks es (f a, [e]) ('(a, jc) ← complain e a jc; Some (f a, jc)).
Proof.
  intros HN. destruct (appendError_spec m ks es jc e HN) as (jc'&Hjc&HN'). exists jc'. unfold complain. by rewrite Hjc.
Qed.

Lemma perform_spec m ks es jc r :
  Notes m ks es jc → special (keyOf r) = false → Answers m (keyOf r :: ks) es (expected m r) (perform r jc).
Proof.
  intros HN Hs. destruct (noteKnownKey_spec m ks es jc (keyOf r) HN) as (jc1&Hjc&HN1).
  pose proof (nt_key _ _ _ _ HN1 _ Hs) as Hget. clear HN. unfold expected.
  destruct r as [k o|k d|k o|k d|k d|k o]; cbn [perform keyOf whenMissing whenWrong] in *;
    unfold getObj, getString, stringOrObject, getBool, getInt, requiredList; rewrite Hjc; cbn [mbind option_bind]; rewrite Hget;
    (destruct (getKey k m) as [v|]; [destruct v as [|b|f|s|l|o'|known|errs|]|]); cbn [readAs keyOf];
    try (destruct o); try (destruct d); try (destruct (ParseBool s)); try (destruct (listStrings 0 l));
    first [by apply Answers_ret | by apply (Answers_complain _ _ _ _ _ _ IsObject) | by apply (Answers_complain _ _ _ _ _ _ IsString)
          | by apply (Answers_complain _ _ _ _ _ _ IsValue) | by apply (Answers_complain _ _ _ _ _ _ IsBool)
          | by apply (Answers_complain _ _ _ _ _ _ IsInt) | by apply (Answers_complain _ _ _ _ _ _ IsList)].
Qed.

Lemma performAll_spec m ks es jc rs :
  Notes m ks es jc → Forall (λ r, special (keyOf r) = false) rs →
  ∃ jc', performAll rs jc = Some ((λ r, (expected m r).1) <$> rs, jc') ∧
    Notes m (rev (keyOf <$> rs) ++ ks) (es ++ concat ((λ r, (expected m r).2) <$> rs)) jc'.
Proof.
  intros HN Hrs. revert ks es jc HN. induction Hrs as [|r rs Hr _ IH]; intros ks es jc HN.
  - exists jc. cbn. by rewrite app_nil_r.
  - destruct (perform_spec m ks es jc r HN Hr) as (jc1&Hjc1&HN1). destruct (IH _ _ _ HN1) as (jc2&Hjc2&HN2).
    exists jc2. cbn [performAll fmap list_fmap concat rev]. rewrite Hjc1. cbn [mbind option_bind].
    change (performAll rs jc1 ≫= ?k) with (performAll rs jc1 ≫= k). rewrite Hjc2. split; [done|].
    by rewrite <-!app_assoc in *.
Qed.

Lemma appendUnknown_spec m ks es jc unknown :
  Notes m ks es jc → ∃ jc', appendUnknown unknown jc = Some jc' ∧ Notes m ks (es ++ (UnknownKey <$> unknown)) jc'.
Proof.
  revert es jc. induction unknown as [|k unknown IH]; intros es jc HN; cbn [appendUnknown fmap list_fmap].
  - exists jc. by rewrite app_nil_r.
  - destruct (appendError_spec m ks es jc (UnknownKey k) HN) as (jc1&->&HN1). destruct (IH _ _ HN1) as (jc2&Hjc2&HN2).
    exists jc2. cbn [mbind option_bind]. rewrite Hjc2. split; [done|]. by rewrite <-app_assoc in HN2.
Qed.

Lemma UnknownKeys_spec m ks es jc : Notes m ks es jc → UnknownKeys jc = Some (unasked m ks).
Proof.
  intros [H1 H2 H3 H4]. unfold UnknownKeys, unasked. rewrite H3.
  assert (filter (λ k, k ∉ ks ∧ String.prefix "_" k = false) jc.*1 = filter (λ k, k ∉ ks ∧ String.prefix "_" k = false) m.*1) as Heq.
  { rewrite !filter_named. unfold namedKeys in H2. by rewrite H2. }
  destruct ks as [|k ks]; cbn [mbind option_bind]; by rewrite Heq.
Qed.

Lemma Validate_spec m ks es jc :
  Notes m ks es jc → fst <$> Validate jc = Some (es ++ (UnknownKey <$> unasked m ks)).
Proof.
  intros HN. unfold Validate. rewrite (UnknownKeys_spec m ks es jc HN). cbn [mbind option_bind].
  destruct (appendUnknown_spec m ks es jc (unasked m ks) HN) as (jc'&->&HN'). cbn [mbind option_bind].
  rewrite (nt_errors _ _ _ _ HN'). by destruct (es ++ _).
Qed.

End requests.

Lemma unasked_perm m ks ks' : (∀ k, k ∈ ks ↔ k ∈ ks') → unasked m ks = unasked m ks'.
Proof. intros H. unfold unasked. f_equal. apply list_filter_iff. intros k. by rewrite H. Qed.

(** C9. An object decoded from JSON answers each request from its own value
    of the key: the value when it has the type asked for (a string that
    strconv.ParseBool takes is also a boolean, a number is truncated), the
    default when the key is missing, and a zero value with one error
    otherwise; no request panics or disturbs a later one. Validate then
    returns exactly these errors, in the order of the requests, and an error
    for every key without a leading underscore that was never asked for; so
    it returns nil just when there is neither. *)
Theorem Validate_reports (wild : spec_float → Z) (m : Obj) (rs : list request) :
  plain m → Forall (λ r, special (keyOf r) = false) rs →
  ∃ jc, performAll wild rs m = Some ((λ r, (expected wild m r).1) <$> rs, jc) ∧
    fst <$> Validate jc =
      Some (concat ((λ r, (expected wild m r).2) <$> rs) ++ (UnknownKey <$> unasked m (keyOf <$> rs))).
Proof.
  intros Hm Hrs. destruct (performAll_spec wild m [] [] m rs (plain_Notes m Hm) Hrs) as (jc&Hjc&HN).
  exists jc. split; [done|]. rewrite (Validate_spec _ _ _ _ HN), app_nil_l. do 3 f_equal.
  apply unasked_perm. intros k. rewrite app_nil_r, !list_elem_of_In, <-in_rev. done.
Qed.

Definition demoObj : Obj :=
  [("port", VNum (S754_finite false 5 3)); ("tls", VStr "true"); ("_comment", VNull); ("extra", VNull); ("name", VNull)]%string.

Lemma Validate_reports_witness :
  ∃ jc, performAll (λ _, 0) [AskInt "port" None; AskBool "tls" None; AskString "name" None; AskList "dirs" true] demoObj =
          Some ([IsInt 40; IsBool true; IsString ""; IsList []], jc) ∧
    fst <$> Validate jc = Some [NotOfType "name"; MissingKey "dirs"; UnknownKey "extra"]%string.
Proof.
  apply (Validate_reports (λ _, 0) demoObj [AskInt "port" None; AskBool "tls" None; AskString "name" None; AskList "dirs" true]).
  - by split.
  - repeat constructor.
Defined.

(** A configuration with the key "_knownkeys", a legal comment, panics. *)
Example knownkeys_comment_panics : getString "a" None [("_knownkeys", VNull)]%string = None.
Proof. reflexivity. Qed.
