(* ===== verification/Lock.v ===== *)
(** * lock: lock files

    lock.go, lock_unix.go and lock_sigzero.go, for one path and any number of
    processes. A step is one system call, and any of them may fail. [Lock] and
    [unlocker.close] run under [lockmu], so a process is in one of them at a
    time; [locked[abs]] is true just while it has an unclosed Closer. A process
    may end when it is in none of them, or, in a crash, at any point. *)
From S2P Require Import Prelude.

(** ** Files *)

(** What a lock file has in it: nothing, a part of what [Encode] writes, or the
    JSON text of a pid. *)
Inductive text := Empty | Torn | Pid (n : nat).

(** The inodes that have been at the path, each with its text, and the one that
    the path names. *)
Record files := Files { path : option nat; contents : list text }.

Definition noFile : files := Files None [].

(** [fi.Size() > 0] after a successful [os.Stat]. *)
Definition hasContents (fs : files) : bool :=
  match path fs with
  | Some i => match contents fs !! i with Some (Torn | Pid _) => true | _ => false end
  | None => false
  end.

Definition create (fs : files) : nat * files :=
  let i := length (contents fs) in (i, Files (Some i) (contents fs ++ [Empty])).

Definition writeText (i : nat) (t : text) (fs : files) : files := Files (path fs) (<[i := t]> (contents fs)).

(** [os.Remove] *)
Definition unlink (fs : files) : files := Files None (contents fs).

(** ** The portable lock *)

Inductive pc :=
| Unlocked
| Stating                (* before os.Stat *)
| Opening                (* portableLockStatus, before os.Open *)
| Reading (i : nat)      (* before Decode *)
| Probing (i pid : nat)  (* before p.Signal; i has been read *)
| Removing (i : nat)     (* statusStale, before os.Remove; i has been read *)
| Creating               (* before os.OpenFile *)
| Writing (i : nat)      (* before Encode *)
| Holding (i : nat)      (* Lock has returned a Closer *)
| Closing (i : nat)      (* u.close, before u.f.Close *)
| Unlinking (i : nat)    (* before os.Remove(u.abs) *)
| Dead.

(** [misses] counts the times that [os.Remove] has removed another file than
    the stale one; no process knows it. *)
Record state := State { fs : files; procs : list pc; misses : nat }.

Definition goto (p : nat) (c : pc) (f : files) (st : state) : state := State f (<[p := c]> (procs st)) (misses st).

(** Is the file at the path another one than [i]? *)
Definition missed (i : nat) (fs : files) : nat :=
  match path fs with Some j => if decide (i = j) then 0 else 1 | None => 0 end.

Definition alive (st : state) (p : nat) : bool :=
  match procs st !! p with Some Dead | None => false | Some _ => true end.

Section portable.
(** What [os.FindProcess] and, where [signalZero] is set, the signal tell the
    process [p] of the process [pid], dead or alive: that it is there. *)
Context (found : nat → nat → bool → bool).

(** Processes have positive pids; here they are their positions, which are not
    used again. *)
Inductive step (st : state) : state → Prop :=
| StepSpawn : step st (State (fs st) (procs st ++ [Unlocked]) (misses st))
| StepExit p : procs st !! p = Some Unlocked → step st (goto p Dead (fs st) st)    (* the process ends *)
| StepLock p : procs st !! p = Some Unlocked → step st (goto p Stating (fs st) st)
| StepStatFull p :
    procs st !! p = Some Stating → hasContents (fs st) = true → step st (goto p Opening (fs st) st)
| StepStatEmpty p :
    procs st !! p = Some Stating → hasContents (fs st) = false → step st (goto p Creating (fs st) st)
| StepStatFails p : procs st !! p = Some Stating → step st (goto p Creating (fs st) st)
| StepOpen p i :
    procs st !! p = Some Opening → path (fs st) = Some i → step st (goto p (Reading i) (fs st) st)
| StepOpenFails p : procs st !! p = Some Opening → step st (goto p Creating (fs st) st)
| StepDecode p i pid :
    procs st !! p = Some (Reading i) → contents (fs st) !! i = Some (Pid pid) →
    step st (goto p (Probing i pid) (fs st) st)
| StepInvalid p i t :
    procs st !! p = Some (Reading i) → contents (fs st) !! i = Some t →
    step st (goto p Unlocked (fs st) st)     (* no JSON, or the read fails *)
| StepLocked p i pid :
    procs st !! p = Some (Probing i pid) → found p pid (alive st pid) = true → step st (goto p Unlocked (fs st) st)
| StepStale p i pid :
    procs st !! p = Some (Probing i pid) → found p pid (alive st pid) = false → step st (goto p (Removing i) (fs st) st)
| StepRemoveStale p i :
    procs st !! p = Some (Removing i) →
    step st (State (unlink (fs st)) (<[p := Creating]> (procs st)) (misses st + missed i (fs st)))
| StepRemoveFails p i :
    procs st !! p = Some (Removing i) → step st (goto p Creating (fs st) st)
| StepCreate p i f :
    procs st !! p = Some Creating → path (fs st) = None → create (fs st) = (i, f) →
    step st (goto p (Writing i) f st)
| StepCreateFails p :                        (* also as the file exists: O_EXCL *)
    procs st !! p = Some Creating → step st (goto p Unlocked (fs st) st)
| StepWrite p i :
    procs st !! p = Some (Writing i) → step st (goto p (Holding i) (writeText i (Pid p) (fs st)) st)
| StepWriteFails p i t :
    procs st !! p = Some (Writing i) → t = Empty ∨ t = Torn →
    step st (goto p Unlocked (writeText i t (fs st)) st)
| StepUnlock p i : procs st !! p = Some (Holding i) → step st (goto p (Closing i) (fs st) st)
| StepClose p i : procs st !! p = Some (Closing i) → step st (goto p (Unlinking i) (fs st) st)
| StepUnlink p i : procs st !! p = Some (Unlinking i) → step st (goto p Unlocked (unlink (fs st)) st)
| StepUnlinkFails p i : procs st !! p = Some (Unlinking i) → step st (goto p Unlocked (fs st) st).

(** A process ends, whatever it is doing: also while it holds the lock. *)
Inductive crash (st : state) : state → Prop :=
| Crash p c : procs st !! p = Some c → crash st (goto p Dead (fs st) st).

(** With and without crashes. *)
Inductive reach (crashes : bool) : state → Prop :=
| ReachInit : reach crashes (State noFile [] 0)
| ReachStep st st' : reach crashes st → step st st' → reach crashes st'
| ReachCrash st st' : crashes = true → reach crashes st → crash st st' → reach crashes st'.

End portable.

(** ** The lock of lock_unix.go *)

(** The holder of the write lock of an inode. *)
Record locks := Locks { upath : option nat; owners : list (option nat) }.

Inductive upc :=
| UUnlocked
| UStating              (* before os.Stat *)
| UCreating             (* before os.Create *)
| ULocking (i : nat)    (* before FcntlFlock *)
| UHolding (i : nat)
| UUnlinking (i : nat)  (* u.close, before os.Remove(u.abs) *)
| UClosing (i : nat).   (* before u.f.Close *)

Record ustate := UState { ufs : locks; uprocs : list upc }.

Definition ugoto (p : nat) (c : upc) (f : locks) (st : ustate) : ustate := UState f (<[p := c]> (uprocs st)).

(** [os.Create]: the file at the path, or a new one. *)
Definition openOrCreate (f : locks) : nat * locks :=
  match upath f with
  | Some i => (i, f)
  | None => (length (owners f), Locks (Some (length (owners f))) (owners f ++ [None]))
  end.

(** [F_SETLK] of the file [i] by [p]; the close of a file gives its lock up. *)
Definition setLock (i p : nat) (f : locks) : option locks :=
  match owners f !! i with
  | Some None => Some (Locks (upath f) (<[i := Some p]> (owners f)))
  | _ => None
  end.
Definition freeLock (i : nat) (f : locks) : locks := Locks (upath f) (<[i := None]> (owners f)).

Inductive ustep (st : ustate) : ustate → Prop :=
| UStepSpawn : ustep st (UState (ufs st) (uprocs st ++ [UUnlocked]))
| UStepLock p : uprocs st !! p = Some UUnlocked → ustep st (ugoto p UStating (ufs st) st)
| UStepStat p :                              (* size zero, or the call fails *)
    uprocs st !! p = Some UStating → ustep st (ugoto p UCreating (ufs st) st)
| UStepStatFull p :                          (* others have written to the file *)
    uprocs st !! p = Some UStating → ustep st (ugoto p UUnlocked (ufs st) st)
| UStepCreate p i f :
    uprocs st !! p = Some UCreating → openOrCreate (ufs st) = (i, f) → ustep st (ugoto p (ULocking i) f st)
| UStepCreateFails p : uprocs st !! p = Some UCreating → ustep st (ugoto p UUnlocked (ufs st) st)
| UStepSet p i f :
    uprocs st !! p = Some (ULocking i) → setLock i p (ufs st) = Some f → ustep st (ugoto p (UHolding i) f st)
| UStepBusy p i :                            (* also if the call fails otherwise *)
    uprocs st !! p = Some (ULocking i) → ustep st (ugoto p UUnlocked (ufs st) st)
| UStepUnlock p i : uprocs st !! p = Some (UHolding i) → ustep st (ugoto p (UUnlinking i) (ufs st) st)
| UStepUnlink p i :
    uprocs st !! p = Some (UUnlinking i) →
    ustep st (ugoto p (UClosing i) (Locks None (owners (ufs st))) st)
| UStepUnlinkFails p i : uprocs st !! p = Some (UUnlinking i) → ustep st (ugoto p (UClosing i) (ufs st) st)
| UStepClose p i :
    uprocs st !! p = Some (UClosing i) → ustep st (ugoto p UUnlocked (freeLock i (ufs st)) st).

Inductive ureach : ustate → Prop :=
| UReachInit : ureach (UState (Locks None []) [])
| UReachStep st st' : ureach st → ustep st st' → ureach st'.

(** ** The invariants of the portable lock *)

(** The file that a process has created and not yet removed. *)
Definition ownFile (c : pc) : option nat :=
  match c with Writing i | Holding i | Closing i | Unlinking i => Some i | _ => None end.

(** Whatever happens: pids are those of processes, and nobody removes a file as
    stale before a process has ended. *)
Record pidInv (st : state) : Prop := {
  pi_pids i pid : contents (fs st) !! i = Some (Pid pid) → (pid < length (procs st))%nat;
  pi_probed p i pid : procs st !! p = Some (Probing i pid) → (pid < length (procs st))%nat;
  pi_calm : (∃ p, procs st !! p = Some Dead) ∨ misses st = 0%nat ∧ ∀ p i, procs st !! p ≠ Some (Removing i);
}.

(** As long as only stale files have been removed as such: the file of a process
    is at the path and has its pid, and what has been found stale has the pid of
    a process that has ended. *)
Record lockInv (st : state) : Prop := {
  li_path p c i : procs st !! p = Some c → ownFile c = Some i → path (fs st) = Some i;
  li_unique p1 p2 c1 c2 i1 i2 : procs st !! p1 = Some c1 → procs st !! p2 = Some c2 →
    ownFile c1 = Some i1 → ownFile c2 = Some i2 → p1 = p2;
  li_text p c i pid : procs st !! p = Some c → ownFile c = Some i → contents (fs st) !! i = Some (Pid pid) → pid = p;
  li_empty p i : procs st !! p = Some (Writing i) → contents (fs st) !! i = Some Empty;
  li_read p i pid : procs st !! p = Some (Probing i pid) → contents (fs st) !! i = Some (Pid pid);
  li_stale p i : procs st !! p = Some (Removing i) →
    ∃ pid, contents (fs st) !! i = Some (Pid pid) ∧ procs st !! pid = Some Dead;
}.

(** A process that goes on. *)
Lemma pidInv_goto st p c c' f m :
  pidInv st → procs st !! p = Some c → (c = Dead → c' = Dead) →
  (∀ i pid, contents f !! i = Some (Pid pid) → (pid < length (procs st))%nat) →
  (∀ i pid, c' = Probing i pid → (pid < length (procs st))%nat) →
  ((∃ q, procs st !! q = Some Dead) ∨ m = misses st ∧ ∀ i, c' ≠ Removing i) →
  pidInv (State f (<[p := c']> (procs st)) m).
Proof.
  intros [HC HB HQ] Hp Hd Hpid Hprobe Hcalm. split; cbn [fs procs misses].
  - intros i pid. rewrite length_insert. apply Hpid.
  - intros q i pid [(<-&->&_)|[_ Hq]]%list_lookup_insert_Some; rewrite length_insert; [by eapply Hprobe|by eapply HB].
  - assert ((∃ q, procs st !! q = Some Dead) → ∃ q, <[p := c']> (procs st) !! q = Some Dead) as Hdead.
    { intros [q Hq]. exists q. destruct (decide (p = q)) as [->|]; [|by rewrite list_lookup_insert_ne].
      rewrite list_lookup_insert_eq by (by eapply lookup_lt_Some). rewrite Hd; [done|congruence]. }
    destruct Hcalm as [?|[-> Hr]]; [by left; apply Hdead|]. destruct HQ as [?|[H1 H2]]; [by left; apply Hdead|]. right.
    split; [done|]. intros q i [(<-&->&_)|[_ Hq]]%list_lookup_insert_Some; [by eapply Hr|by eapply H2].
Qed.

(** The same: it takes no file or a new one, no other process' file is removed,
    and texts stay as they are but for the one that it writes. *)
Lemma lockInv_goto st p c c' f m :
  lockInv st → procs st !! p = Some c → (c = Dead → c' = Dead) →
  (∀ i t, contents (fs st) !! i = Some t → contents f !! i = Some t ∨ c = Writing i) →
  (path f = path (fs st) ∨ ∀ q d j, q ≠ p → procs st !! q = Some d → ownFile d ≠ Some j) →
  (∀ i, ownFile c' = Some i → path f = Some i ∧
    (ownFile c = None → ∀ q d j, procs st !! q = Some d → ownFile d ≠ Some j) ∧
    (∀ pid, contents f !! i = Some (Pid pid) → pid = p) ∧ (c' = Writing i → contents f !! i = Some Empty)) →
  (∀ i pid, contents f !! i = Some (Pid pid) → contents (fs st) !! i = Some (Pid pid) ∨ ownFile c = Some i) →
  (∀ i pid, c' = Probing i pid → contents f !! i = Some (Pid pid)) →
  (∀ i, c' = Removing i → ∃ pid, contents f !! i = Some (Pid pid) ∧ procs st !! pid = Some Dead) →
  lockInv (State f (<[p := c']> (procs st)) m).
Proof.
  intros [HP HU HT HE HR HS] Hp Hd Htext Hpath Hown Hnew Hprobe Hstale.
  assert (∀ i pid, contents (fs st) !! i = Some (Pid pid) → contents f !! i = Some (Pid pid)) as Hkeep.
  { intros i pid Hi. destruct (Htext i _ Hi) as [?| ->]; [done|]. rewrite (HE p i Hp) in Hi. done. }
  assert (∀ pid, procs st !! pid = Some Dead → <[p := c']> (procs st) !! pid = Some Dead) as Hdead.
  { intros q Hq. destruct (decide (p = q)) as [->|]; [|by rewrite list_lookup_insert_ne].
    rewrite list_lookup_insert_eq by (by eapply lookup_lt_Some). rewrite Hd; [done|congruence]. }
  split; cbn [fs procs].
  - intros q d i [(<-&<-&_)|[Hne Hq]]%list_lookup_insert_Some Hi; [by apply Hown|].
    destruct Hpath as [->|Hno]; [by eapply HP|]. exfalso. by eapply (Hno q d i).
  - intros p1 p2 c1 c2 i1 i2 [(<-&<-&_)|[Hne1 H1]]%list_lookup_insert_Some [(<-&<-&_)|[Hne2 H2]]%list_lookup_insert_Some Ho1 Ho2;
      [done| | |by eapply HU].
    + destruct (ownFile c) as [j|] eqn:Hc; [by eapply HU|]. exfalso. by eapply (proj1 (proj2 (Hown i1 Ho1)) eq_refl p2).
    + destruct (ownFile c) as [j|] eqn:Hc; [by eapply HU|]. exfalso. by eapply (proj1 (proj2 (Hown i2 Ho2)) eq_refl p1).
  - intros q d i pid [(<-&<-&_)|[Hne Hq]]%list_lookup_insert_Some Hi Hpid; [by eapply Hown|].
    destruct (Hnew i pid Hpid) as [?|Hc]; [by eapply HT|]. destruct Hne. by eapply (HU p q c d i i).
  - intros q i [(<-&->&_)|[Hne Hq]]%list_lookup_insert_Some; [by apply Hown|].
    destruct (Htext i Empty (HE q i Hq)) as [?| ->]; [done|]. destruct Hne. by eapply (HU p q _ _ i i Hp Hq).
  - intros q i pid [(<-&->&_)|[_ Hq]]%list_lookup_insert_Some; [by apply Hprobe|]. by eapply Hkeep, HR.
  - intros q i [(<-&->&_)|[_ Hq]]%list_lookup_insert_Some.
    + destruct (Hstale i eq_refl) as (pid&?&?). exists pid. by split; [|apply Hdead].
    + destruct (HS q i Hq) as (pid&?&?). exists pid. split; [by apply Hkeep|by apply Hdead].
Qed.

(** Nobody owns a file while there is none, and only [p] owns its file. *)
Lemma no_owner st : lockInv st → path (fs st) = None → ∀ q d j, procs st !! q = Some d → ownFile d ≠ Some j.
Proof. intros HI Hn q d j Hq Hj. pose proof (li_path _ HI q d j Hq Hj). congruence. Qed.

Lemma sole_owner st p c i : lockInv st → procs st !! p = Some c → ownFile c = Some i →
  ∀ q d j, q ≠ p → procs st !! q = Some d → ownFile d ≠ Some j.
Proof. intros HI Hp Hi q d j Hne Hq Hj. apply Hne. by eapply (li_unique _ HI q p). Qed.

(** Nobody owns a stale file. *)
Lemma stale_owner st p i : lockInv st → procs st !! p = Some (Removing i) → path (fs st) = Some i →
  ∀ q d j, procs st !! q = Some d → ownFile d ≠ Some j.
Proof.
  intros HI Hp Hpath q d j Hq Hj. pose proof (li_path _ HI q d j Hq Hj) as Hj'. rewrite Hpath in Hj'. injection Hj' as ->.
  destruct (li_stale _ HI p j Hp) as (pid&Htext&Hdead). rewrite (li_text _ HI q d j pid Hq Hj Htext) in Hdead.
  rewrite Hq in Hdead. by injection Hdead as ->.
Qed.

(** Steps without effect on the files. *)
Lemma lockInv_quiet st p c c' :
  lockInv st → procs st !! p = Some c → (c = Dead → c' = Dead) → (∀ i, c' ≠ Writing i) →
  (ownFile c' = ownFile c ∨ ownFile c' = None) →
  (∀ i pid, c' = Probing i pid → contents (fs st) !! i = Some (Pid pid)) →
  (∀ i, c' = Removing i → ∃ pid, contents (fs st) !! i = Some (Pid pid) ∧ procs st !! pid = Some Dead) →
  lockInv (goto p c' (fs st) st).
Proof.
  intros HI Hp Hd Hw Ho Hprobe Hstale. eapply lockInv_goto; [done|exact Hp|done|by left|by left| |by left|done|done].
  intros i Hi. destruct Ho as [Ho|Ho]; [|congruence]. rewrite Ho in Hi.
  split_and!; [by eapply (li_path _ HI)|congruence|intros pid; by apply (li_text _ HI p c i)|by intros ?%Hw].
Qed.

Lemma pidInv_quiet st p c c' :
  pidInv st → procs st !! p = Some c → (c = Dead → c' = Dead) →
  (∀ i pid, c' = Probing i pid → contents (fs st) !! i = Some (Pid pid)) → (∀ i, c' ≠ Removing i) →
  pidInv (goto p c' (fs st) st).
Proof.
  intros HI Hp Hd Hprobe Hr. eapply pidInv_goto; [done|exact Hp|done|apply HI| |by right].
  intros i pid Hc. by eapply (pi_pids _ HI), Hprobe.
Qed.

(** A process that has been found dead is. *)
Lemma stale_dead found st p i pid :
  (∀ p pid, found p pid true = true) → pidInv st → procs st !! p = Some (Probing i pid) →
  found p pid (alive st pid) = false → procs st !! pid = Some Dead.
Proof.
  intros Hf HI Hp Hal. pose proof (pi_probed _ HI p i pid Hp) as Hlt. apply lookup_lt_is_Some in Hlt as [d Hd].
  unfold alive in Hal. rewrite Hd in Hal. by destruct d; rewrite ?Hf in Hal.
Qed.

Lemma spawned st q d : (procs st ++ [Unlocked]) !! q = Some d → procs st !! q = Some d ∨ d = Unlocked.
Proof. intros [H|[_ H]]%lookup_app_Some; [by left|right]. by apply list_lookup_singleton_Some in H as [_ <-]. Qed.

Lemma pidInv_step found st st' :
  (∀ p pid, found p pid true = true) → pidInv st → step found st st' → pidInv st'.
Proof.
  intros Hf HI Hstep. destruct Hstep as [|p Hp|p Hp|p Hp _|p Hp _|p Hp|p i Hp _|p Hp|p i pid Hp Hc|p i t Hp _|p i pid Hp _|
    p i pid Hp Hal|p i Hp|p i Hp|p i f Hp Hpath Hcr|p Hp|p i Hp|p i t Hp Ht|p i Hp|p i Hp|p i Hp|p i Hp];
    try (by (eapply pidInv_quiet; [exact HI|exact Hp|done|by intros ? ? [= <- <-]|done])).
  - destruct HI as [HC HB HQ]. split; cbn [fs procs misses]; rewrite ?length_app.
    + intros i pid Hi. specialize (HC i pid Hi). lia.
    + intros q i pid [Hq| ?]%spawned; [specialize (HB q i pid Hq); lia|done].
    + destruct HQ as [[q Hq]|[H1 H2]]; [left; exists q; by apply lookup_app_l_Some|right]. split; [done|].
      intros q i [Hq|?]%spawned; [by eapply H2|done].
  - eapply pidInv_goto; [done|exact Hp|done|apply HI|done|]. left. exists pid. by eapply stale_dead.
  - eapply pidInv_goto; [done|exact Hp|done|apply HI|done|]. left. destruct (pi_calm _ HI) as [?|[_ H]]; [done|by destruct (H p i)].
  - injection Hcr as <- <-. eapply pidInv_goto; [done|exact Hp|done| |done|by right]. cbn [contents].
    intros j pid [Hj|[_ Hj]]%lookup_app_Some; [by eapply (pi_pids _ HI)|]. by apply list_lookup_singleton_Some in Hj as [_ ?].
  - eapply pidInv_goto; [done|exact Hp|done| |done|by right]. intros j pid. cbn [writeText contents].
    intros [(<-&Hj&_)|[_ Hj]]%list_lookup_insert_Some; [injection Hj as <-; by eapply lookup_lt_Some|by eapply (pi_pids _ HI)].
  - eapply pidInv_goto; [done|exact Hp|done| |done|by right]. intros j pid. cbn [writeText contents].
    intros [(<-&Hj&_)|[_ Hj]]%list_lookup_insert_Some; [by destruct Ht; subst|by eapply (pi_pids _ HI)].
  - eapply pidInv_goto; [done|exact Hp|done|apply HI|done|by right].
Qed.

Lemma lockInv_step found st st' :
  (∀ p pid, found p pid true = true) → pidInv st → lockInv st → step found st st' → misses st' = 0%nat → lockInv st'.
Proof.
  intros Hf HB HI Hstep Hm. pose proof HI as [HP HU HT HE HR HS].
  destruct Hstep as [|p Hp|p Hp|p Hp _|p Hp _|p Hp|p i Hp _|p Hp|p i pid Hp Hc|p i t Hp _|p i pid Hp _|
    p i pid Hp Hal|p i Hp|p i Hp|p i f Hp Hpath Hcr|p Hp|p i Hp|p i t Hp Ht|p i Hp|p i Hp|p i Hp|p i Hp];
    try (by (eapply lockInv_quiet; [exact HI|exact Hp|done|done|auto|by intros ? ? [= <- <-]|done])).
  - split; cbn [fs procs].
    + intros q d i [Hq| ->]%spawned Hi; [by eapply HP|done].
    + intros p1 p2 c1 c2 i1 i2 [H1| ->]%spawned [H2| ->]%spawned Ho1 Ho2; try done. by eapply HU.
    + intros q d i pid [Hq| ->]%spawned; [by apply (HT q)|done].
    + intros q i [Hq|?]%spawned; [by apply (HE q)|done].
    + intros q i pid [Hq|?]%spawned; [by apply (HR q)|done].
    + intros q i [Hq|?]%spawned; [|done]. destruct (HS q i Hq) as (pid&?&?). exists pid. split; [done|by apply lookup_app_l_Some].
  - eapply lockInv_quiet; [exact HI|exact Hp|done|done|auto|done|]. intros j [= <-]. exists pid.
    split; [by eapply HR|by eapply stale_dead].
  - cbn [misses] in Hm. unfold missed in Hm.
    eapply lockInv_goto; [done|exact Hp|done|by left| |done|by left|done|done]. right. intros q d j _.
    destruct (path (fs st)) as [k|] eqn:Hpath; [|by apply no_owner]. case_decide; [subst|lia]. by eapply stale_owner.
  - injection Hcr as <- <-. pose proof (no_owner _ HI Hpath) as Hno. eapply lockInv_goto; [done|exact Hp|done| | | | |done|done]; cbn [contents path].
    + intros i t Hi. left. by apply lookup_app_l_Some.
    + right. intros q d j _. by apply Hno.
    + intros i [= <-]. rewrite lookup_app_r, Nat.sub_diag by done. by split_and!.
    + intros i pid [Hi|[_ Hi]]%lookup_app_Some; [by left|]. by apply list_lookup_singleton_Some in Hi as [_ ?].
  - pose proof (HE p i Hp) as Hlt%lookup_lt_Some.
    eapply lockInv_goto; [done|exact Hp|done| |by left| | |done|done]; cbn [writeText contents path].
    + intros j t Hj. destruct (decide (i = j)) as [->|]; [by right|left; by rewrite list_lookup_insert_ne].
    + intros j [= <-]. split_and!; [by eapply (HP p)|done| |done]. rewrite list_lookup_insert_eq by done. by intros pid [= <-].
    + intros j pid [(<-&Hj&_)|[_ Hj]]%list_lookup_insert_Some; [by right|by left].
  - eapply lockInv_goto; [done|exact Hp|done| |by left|done| |done|done]; cbn [writeText contents].
    + intros j t' Hj. destruct (decide (i = j)) as [->|]; [by right|left; by rewrite list_lookup_insert_ne].
    + intros j pid [(<-&Hj&_)|[_ Hj]]%list_lookup_insert_Some; [by right|by left].
  - eapply lockInv_goto; [done|exact Hp|done|by left| |done|by left|done|done]. right. by eapply sole_owner.
Qed.

Lemma misses_step found st st' : step found st st' → misses st' = 0%nat → misses st = 0%nat.
Proof. destruct 1; cbn [misses goto]; lia. Qed.

Lemma lock_reach_inv found crashes st :
  (∀ p pid, found p pid true = true) → reach found crashes st → pidInv st ∧ (misses st = 0%nat → lockInv st).
Proof.
  intros Hf. induction 1 as [|st st' _ [HB HI] Hstep|st st' _ _ [HB HI] [p c Hp]].
  - split; [split; cbn; try (intros *; by rewrite lookup_nil); right; by split; [|intros *; rewrite lookup_nil]|].
    intros _. split; cbn; intros *; by rewrite lookup_nil.
  - split; [by eapply pidInv_step|]. intros Hm. eapply lockInv_step; [done|done|apply HI|done|done]. by eapply misses_step.
  - split; [by eapply pidInv_quiet|]. intros Hm. eapply lockInv_quiet; [by apply HI|exact Hp|done|done|by right|done|done].
Qed.

(** ** Properties *)

(** C35. The portable lock excludes: if a process that is alive is found when its
    pid is looked up, and
    - either no process has ended yet,
    - or processes have ended, after [Close] or while they held the lock or were
      in the middle of a call, but whenever a process has removed a lock file as
      stale, the file at the path was still the one whose pid it had read,
    then two processes do not hold the lock of a path at the same time, whatever
    the order of their system calls and whichever of these fail; and the
    holder's file is the one at the path. (The condition on removals cannot be
    left out: see [exit_misleads_prober], where processes only end after
    [Close], and [stale_lock_taken_twice]. For a process that may not be
    signalled see [live_owner_taken_for_stale].) *)
Theorem portable_lock_excludes (found : nat → nat → bool → bool) (crashes : bool) (st : state) :
  (∀ p pid, found p pid true = true) → reach found crashes st →
  (∀ p, procs st !! p ≠ Some Dead) ∨ misses st = 0%nat →
  (∀ p1 p2 i1 i2, procs st !! p1 = Some (Holding i1) → procs st !! p2 = Some (Holding i2) → p1 = p2) ∧
  (∀ p i, procs st !! p = Some (Holding i) → path (fs st) = Some i).
Proof.
  intros Hf [HB HI]%lock_reach_inv Hm; [|done].
  assert (misses st = 0%nat) as Hm0 by (destruct Hm as [Hd|?]; [destruct (pi_calm _ HB) as [[p Hp]|[? _]]; [by destruct (Hd p)|done]|done]).
  destruct (HI Hm0) as [HP HU _ _ _ _]. split.
  - intros p1 p2 i1 i2 H1 H2. by eapply HU.
  - intros p i Hp. by eapply HP.
Qed.

(** The signal zero of lock_sigzero.go, among the processes of one user. *)
Definition signalZero (_ _ : nat) (alive : bool) : bool := alive.

(** Take a step, and compute the state that it leads to. *)
Ltac tidy H :=
  match type of H with
  | reach ?f ?b ?x => let v := eval vm_compute in x in change (reach f b v) in H
  | ureach ?x => let v := eval vm_compute in x in change (ureach v) in H
  end.

Tactic Notation "run" uconstr(s) :=
  match goal with
  | H : reach _ _ _ |- _ => eapply ReachStep in H; [|eapply s; reflexivity]; tidy H
  | H : ureach _ |- _ => eapply UReachStep in H; [|eapply s; reflexivity]; tidy H
  end.

(** The owner dies with the lock, and another process finds its file stale,
    removes it and has the lock. *)
Lemma portable_lock_excludes_witness :
  ∃ st, reach signalZero true st ∧ procs st = [Dead; Holding 1; Unlocked] ∧ misses st = 0%nat ∧
    path (fs st) = Some 1%nat ∧ ∀ p i, procs st !! p = Some (Holding i) → p = 1%nat.
Proof.
  pose proof (ReachInit signalZero true) as H. do 3 (eapply ReachStep in H; [|apply StepSpawn]).
  run (StepLock _ _ 0). run (StepStatEmpty _ _ 0). run (StepCreate _ _ 0). run (StepWrite _ _ 0).
  eapply ReachCrash in H; [|done|by eapply (Crash _ 0)]. tidy H.
  run (StepLock _ _ 1). run (StepStatFull _ _ 1). run (StepOpen _ _ 1). run (StepDecode _ _ 1). run (StepStale _ _ 1).
  run (StepRemoveStale _ _ 1). run (StepCreate _ _ 1). run (StepWrite _ _ 1).
  run (StepLock _ _ 2). run (StepStatFull _ _ 2). run (StepOpen _ _ 2). run (StepDecode _ _ 2). run (StepLocked _ _ 2).
  destruct (portable_lock_excludes signalZero true _ (λ _ _, eq_refl) H (or_intror eq_refl)) as [H1 H2].
  eexists. split; [exact H|]. split; [reflexivity|]. split; [reflexivity|]. split; [by apply (H2 1%nat)|].
  intros p i Hp. by apply (H1 p 1%nat i 1%nat).
Defined.

(** ** The invariant of the fcntl lock *)

(** The inode whose lock a process has. *)
Definition ulocked (c : upc) : option nat :=
  match c with UHolding i | UUnlinking i | UClosing i => Some i | _ => None end.
(** The inode that a process has open without the lock. *)
Definition uopened (c : upc) : option nat := match c with ULocking i => Some i | _ => None end.

Record fcntlInv (st : ustate) : Prop := {
  fi_owner p i : (∃ c, uprocs st !! p = Some c ∧ ulocked c = Some i) ↔ owners (ufs st) !! i = Some (Some p);
  fi_path i : upath (ufs st) = Some i → (i < length (owners (ufs st)))%nat;
  fi_open p c i : uprocs st !! p = Some c → uopened c = Some i → (i < length (owners (ufs st)))%nat;
}.

(** A process that goes on has, or has not, the lock that it had before. *)
Lemma locked_goto st p c c' f q i :
  uprocs st !! p = Some c →
  (∃ d, uprocs (ugoto p c' f st) !! q = Some d ∧ ulocked d = Some i) ↔
  (q = p ∧ ulocked c' = Some i) ∨ (q ≠ p ∧ ∃ d, uprocs st !! q = Some d ∧ ulocked d = Some i).
Proof.
  intros Hp. cbn [ugoto uprocs]. split.
  - intros (d&[(<-&<-&_)|[Hne Hq]]%list_lookup_insert_Some&Hl); [by left|right]. split; [done|by exists d].
  - intros [[-> Hl]|[Hne (d&Hq&Hl)]]; [exists c'|exists d]; (split; [|done]).
    + apply list_lookup_insert_eq. by eapply lookup_lt_Some.
    + by rewrite list_lookup_insert_ne.
Qed.

(** Steps that keep the locks of all inodes. *)
Lemma fcntlInv_goto st p c c' f :
  fcntlInv st → uprocs st !! p = Some c → ulocked c' = ulocked c →
  (∀ i q, owners f !! i = Some (Some q) ↔ owners (ufs st) !! i = Some (Some q)) →
  (length (owners (ufs st)) ≤ length (owners f))%nat →
  (∀ i, upath f = Some i ∨ uopened c' = Some i → (i < length (owners f))%nat) →
  fcntlInv (ugoto p c' f st).
Proof.
  intros [HO HP HU] Hp Hl Hown Hlen Hin. split.
  - intros q i. rewrite (locked_goto _ _ _ _ _ _ _ Hp), Hl. cbn [ugoto ufs]. rewrite Hown, <-HO. split.
    + intros [[-> ?]|[_ ?]]; [by exists c|done].
    + intros (d&Hq&Hd). destruct (decide (q = p)) as [->|]; [left; split; [done|congruence]|right; split; [done|by exists d]].
  - intros i Hi. apply Hin. by left.
  - intros q d i [(<-&<-&_)|[Hne Hq]]%list_lookup_insert_Some Hd; cbn [ugoto ufs]; [apply Hin; by right|].
    specialize (HU q d i Hq Hd). lia.
Qed.

(** Steps that change the lock of the inode [i]: [p] takes or gives it up. *)
Lemma fcntlInv_lock st p c c' i (o : bool) :
  fcntlInv st → uprocs st !! p = Some c → (i < length (owners (ufs st)))%nat →
  (∀ q, owners (ufs st) !! i = Some (Some q) → q = p) → (ulocked c = None ∨ ulocked c = Some i) →
  ulocked c' = (if o then Some i else None) → uopened c' = None →
  fcntlInv (ugoto p c' (Locks (upath (ufs st)) (<[i := if o then Some p else None]> (owners (ufs st)))) st).
Proof.
  intros [HO HP HU] Hp Hi Hq Hc Hc' Hopen. split.
  - intros q j. rewrite (locked_goto _ _ _ _ _ _ _ Hp), Hc'. cbn [ugoto ufs owners]. rewrite list_lookup_insert_Some, HO. split.
    + intros [[-> Hj]|[Hne Hj]].
      * left. destruct o; [|done]. injection Hj as ->. by split_and!.
      * right. split; [|done]. intros ->. by apply Hne, Hq.
    + intros [(->&Ho&_)|[Hne Hj]].
      * left. destruct o; [|done]. by injection Ho as ->.
      * right. split; [|done]. intros ->. apply HO in Hj as (d&Hd&Hl). rewrite Hp in Hd. injection Hd as <-.
        destruct Hc as [Hc|Hc]; congruence.
  - intros j Hj. cbn [ugoto ufs owners]. rewrite length_insert. by apply HP.
  - intros q d j [(<-&<-&_)|[Hne Hd]]%list_lookup_insert_Some Hj; cbn [ugoto ufs owners]; rewrite length_insert; [congruence|by eapply HU].
Qed.

Lemma fcntlInv_step st st' : fcntlInv st → ustep st st' → fcntlInv st'.
Proof.
  intros HI Hstep. pose proof HI as [HO HP HU].
  destruct Hstep as [|p Hp|p Hp|p Hp|p i f Hp Hc|p Hp|p i f Hp Hs|p i Hp|p i Hp|p i Hp|p i Hp|p i Hp];
    try (by (eapply fcntlInv_goto; [done|exact Hp|done|done|done|]; intros j [Hj|Hj]; [by apply HP|done])).
  - split; cbn [uprocs ufs]; [|done|].
    + intros p i. rewrite <-HO. split; intros (c&Hc&Hl); exists c; (split; [|done]); [|by apply lookup_app_l_Some].
      apply lookup_app_Some in Hc as [Hc|[_ Hc]]; [done|]. by apply list_lookup_singleton_Some in Hc as [_ <-].
    + intros p c i [Hc|[_ Hc]]%lookup_app_Some Hi; [by eapply HU|]. by apply list_lookup_singleton_Some in Hc as [_ <-].
  - unfold openOrCreate in Hc. destruct (upath (ufs st)) as [i'|] eqn:Hpath; injection Hc as <- <-.
    + eapply fcntlInv_goto; [done|exact Hp|done|done|done|]. intros j [Hj|Hj]; [apply HP; congruence|]. injection Hj as <-. by apply HP.
    + eapply fcntlInv_goto; [done|exact Hp|done| | |]; cbn [owners upath]; [|rewrite length_app; lia|].
      * intros j q. split; [|by apply lookup_app_l_Some]. intros [Hj|[_ Hj]]%lookup_app_Some; [done|].
        by apply list_lookup_singleton_Some in Hj as [_ ?].
      * rewrite length_app. cbn [length]. intros j [Hj|Hj]; injection Hj as <-; lia.
  - unfold setLock in Hs. destruct (owners (ufs st) !! i) as [[q|]|] eqn:Hi; [done| |done]. injection Hs as <-.
    eapply (fcntlInv_lock st p (ULocking i) (UHolding i) i true); [done|done|by eapply lookup_lt_Some| |by left|done|done].
    intros q Hq. congruence.
  - eapply (fcntlInv_lock st p (UClosing i) UUnlocked i false); [done|done| | |by right|done|done];
      assert (owners (ufs st) !! i = Some (Some p)) as Hi by (apply HO; by exists (UClosing i)).
    + by eapply lookup_lt_Some.
    + intros q Hq. congruence.
Qed.

Lemma fcntl_reach_inv st : ureach st → fcntlInv st.
Proof.
  induction 1 as [|st st' _ IH Hstep]; [|by eapply fcntlInv_step]. split; cbn; try done.
  intros p i. rewrite lookup_nil. split; [intros (c&Hc&_)|]; done.
Qed.

(** C36. What the fcntl lock does guarantee: two processes never hold the lock
    of the same file, so at most one holder has the file that the path names,
    whatever the order of the system calls; and the lock of a file is taken
    exactly while a process is between [Lock] and the end of [Close] with
    it. *)
Theorem fcntl_lock_excludes_per_file (st : ustate) :
  ureach st →
  (∀ p1 p2 i, uprocs st !! p1 = Some (UHolding i) → uprocs st !! p2 = Some (UHolding i) → p1 = p2) ∧
  (∀ p i, owners (ufs st) !! i = Some (Some p) ↔ ∃ c, uprocs st !! p = Some c ∧ ulocked c = Some i).
Proof.
  intros [HO HP HU]%fcntl_reach_inv. split; [|intros p i; by rewrite HO].
  intros p1 p2 i H1 H2.
  assert (owners (ufs st) !! i = Some (Some p1)) as E1 by (apply HO; by exists (UHolding i)).
  assert (owners (ufs st) !! i = Some (Some p2)) as E2 by (apply HO; by exists (UHolding i)). congruence.
Qed.

Lemma fcntl_lock_excludes_per_file_witness :
  ∃ st, ureach st ∧ uprocs st = [UHolding 0; UUnlocked] ∧ owners (ufs st) !! 0%nat = Some (Some 0%nat) ∧
    ∀ p, uprocs st !! p = Some (UHolding 0) → p = 0%nat.
Proof.
  pose proof UReachInit as H. do 2 (eapply UReachStep in H; [|apply UStepSpawn]).
  run (UStepLock _ 0). run (UStepStat _ 0). run (UStepCreate _ 0). run (UStepSet _ 0).
  run (UStepLock _ 1). run (UStepStat _ 1). run (UStepCreate _ 1). run (UStepBusy _ 1).
  eexists. split; [exact H|]. split; [reflexivity|]. split; [reflexivity|].
  intros p Hp. destruct (fcntl_lock_excludes_per_file _ H) as [H1 _]. by apply (H1 p 0%nat 0%nat).
Defined.

(** ** What surprises *)

(** A holder dies and two processes find its file stale: the second removes
    the file that the first has just made, and both hold the lock. *)
Example stale_lock_taken_twice :
  ∃ st, reach signalZero true st ∧ procs st = [Dead; Holding 1; Holding 2].
Proof.
  pose proof (ReachInit signalZero true) as H. do 3 (eapply ReachStep in H; [|apply StepSpawn]).
  run (StepLock _ _ 0). run (StepStatEmpty _ _ 0). run (StepCreate _ _ 0). run (StepWrite _ _ 0).
  eapply ReachCrash in H; [|done|by eapply (Crash _ 0)]. tidy H.
  run (StepLock _ _ 1). run (StepStatFull _ _ 1). run (StepOpen _ _ 1). run (StepDecode _ _ 1). run (StepStale _ _ 1).
  run (StepLock _ _ 2). run (StepStatFull _ _ 2). run (StepOpen _ _ 2). run (StepDecode _ _ 2). run (StepStale _ _ 2).
  run (StepRemoveStale _ _ 1). run (StepCreate _ _ 1). run (StepWrite _ _ 1).
  run (StepRemoveStale _ _ 2). run (StepCreate _ _ 2). run (StepWrite _ _ 2).
  eexists. split; [exact H|]. reflexivity.
Qed.

(** No process dies: the owner closes its lock and ends. Another process has
    read its pid before; it finds the file stale and removes the one of a third
    process, which holds the lock by now. *)
Example exit_misleads_prober :
  ∃ st, reach signalZero false st ∧ procs st = [Dead; Holding 2; Holding 1].
Proof.
  pose proof (ReachInit signalZero false) as H. do 3 (eapply ReachStep in H; [|apply StepSpawn]).
  run (StepLock _ _ 0). run (StepStatEmpty _ _ 0). run (StepCreate _ _ 0). run (StepWrite _ _ 0).
  run (StepLock _ _ 1). run (StepStatFull _ _ 1). run (StepOpen _ _ 1). run (StepDecode _ _ 1).
  run (StepUnlock _ _ 0). run (StepClose _ _ 0). run (StepUnlink _ _ 0). run (StepExit _ _ 0).
  run (StepLock _ _ 2). run (StepStatEmpty _ _ 2). run (StepCreate _ _ 2). run (StepWrite _ _ 2).
  run (StepStale _ _ 1). run (StepRemoveStale _ _ 1). run (StepCreate _ _ 1). run (StepWrite _ _ 1).
  eexists. split; [exact H|]. reflexivity.
Qed.

(** The second process may not signal the first, which lives and holds the
    lock: it takes the refusal of the signal for the death of the owner, and
    both hold the lock, though no process has died. *)
Example live_owner_taken_for_stale :
  ∃ st, reach (λ _ _ _, false) false st ∧ procs st = [Holding 0; Holding 1].
Proof.
  pose proof (ReachInit (λ _ _ _, false) false) as H. do 2 (eapply ReachStep in H; [|apply StepSpawn]).
  run (StepLock _ _ 0). run (StepStatEmpty _ _ 0). run (StepCreate _ _ 0). run (StepWrite _ _ 0).
  run (StepLock _ _ 1). run (StepStatFull _ _ 1). run (StepOpen _ _ 1). run (StepDecode _ _ 1). run (StepStale _ _ 1).
  run (StepRemoveStale _ _ 1). run (StepCreate _ _ 1). run (StepWrite _ _ 1).
  eexists. split; [exact H|]. reflexivity.
Qed.

(** The fcntl lock, without any crash: [p1] has opened the file when [p0]
    removes it and then gives its lock up; [p1] locks the removed file and
    [p2] a new one. *)
Example fcntl_lock_held_twice :
  ∃ st, ureach st ∧ uprocs st = [UUnlocked; UHolding 0; UHolding 1].
Proof.
  pose proof UReachInit as H. do 3 (eapply UReachStep in H; [|apply UStepSpawn]).
  run (UStepLock _ 0). run (UStepStat _ 0). run (UStepCreate _ 0). run (UStepSet _ 0).
  run (UStepLock _ 1). run (UStepStat _ 1). run (UStepCreate _ 1).
  run (UStepUnlock _ 0). run (UStepUnlink _ 0). run (UStepClose _ 0).
  run (UStepSet _ 1).
  run (UStepLock _ 2). run (UStepStat _ 2). run (UStepCreate _ 2). run (UStepSet _ 2).
  eexists. split; [exact H|]. reflexivity.
Qed.
