(* ===== verification/LockTable.v ===== *)
(** * lock: the locks of one process

    [Lock] and the [Close] of what it returns, with the table [locked] under
    [lockmu], over any [lockFn]; and the lockFns of lock_plan9.go and
    lock_windows.go over the system's exclusive opens. [Lock.v] has the other
    two lockFns, one system call at a time. *)
From S2P Require Import Prelude.

(** ** Errors *)

Inductive error :=
| SysErr (code : Z)
| AlreadyLocked (path : string)                   (* file %q already locked *)
| CannotAcquire (e : error)                       (* cannot acquire lock: %v *)
| NonZeroSize (path : string)                     (* can't lock file %q: has non-zero size *)
| CreateFailed (path : string) (e : error).       (* creation of %s failed *)

(** ** Locking *)

Section table.
Context {W F : Type}.
Variable Abs : W → string → error + string.                     (* filepath.Abs *)
Variable lockFn : W → string → W * (error + F).
(** The part of the Closers' close that comes after the table's update. *)
Variable closeFile : W → F → string → W * option error.

(** An [unlocker] or [winUnlocker], with whether its [once] has run. *)
Record unlocker := Unlocker { file : F; abs : string; once : bool; err : option error }.

(** A process: what is outside, the keys of [locked], and all the Closers that
    [Lock] has returned. *)
Record process := Process { world : W; locked : gset string; closers : list unlocker }.

Definition Lock (name : string) (st : process) : process * (error + nat) :=
  match Abs (world st) name with
  | inl e => (st, inl e)
  | inr path =>
      if decide (path ∈ locked st) then (st, inl (AlreadyLocked path))
      else
        match lockFn (world st) path with
        | (w, inl e) => (Process w (locked st) (closers st), inl (CannotAcquire e))
        | (w, inr f) =>
            (Process w ({[path]} ∪ locked st) (closers st ++ [Unlocker f path false None]), inr (length (closers st)))
        end
  end.

(** [Close] of the [i]th Closer. *)
Definition Close (i : nat) (st : process) : process * option error :=
  match closers st !! i with
  | None => (st, None)
  | Some u =>
      if once u then (st, err u)
      else
        let locked := locked st ∖ {[abs u]} in
        let '(w, e) := closeFile (world st) (file u) (abs u) in
        (Process w locked (<[i := Unlocker (file u) (abs u) true e]> (closers st)), e)
  end.

(** ** What the table is for *)

Inductive op := OpLock (name : string) | OpClose (i : nat).
Definition run (o : op) (st : process) : process :=
  match o with OpLock name => (Lock name st).1 | OpClose i => (Close i st).1 end.
Definition runs (ops : list op) (w : W) : process := foldl (λ st o, run o st) (Process w ∅ []) ops.

(** The [i]th Closer holds [path]. *)
Definition holds (st : process) (i : nat) (path : string) : Prop :=
  ∃ u, closers st !! i = Some u ∧ once u = false ∧ abs u = path.

Record tableInv (st : process) : Prop := {
  ti_locked path : path ∈ locked st ↔ ∃ i, holds st i path;
  ti_unique i j path : holds st i path → holds st j path → i = j }.

Lemma holds_app st w l u i path :
  once u = false → holds (Process w l (closers st ++ [u])) i path ↔ holds st i path ∨ i = length (closers st) ∧ abs u = path.
Proof.
  intros Hu. unfold holds. cbn [closers]. split.
  - intros (v&[Hv|[Hlen Hv]]%lookup_app_Some&Ho&Hp); [by left; eauto|right].
    apply list_lookup_singleton_Some in Hv as [Hi <-]. split; [lia|done].
  - intros [(v&Hv&?&?)|[-> Hp]]; [exists v; split; [by apply lookup_app_l_Some|done]|].
    exists u. by rewrite list_lookup_middle.
Qed.

Lemma holds_close st w l i u e j path :
  closers st !! i = Some u →
  holds (Process w l (<[i := Unlocker (file u) (abs u) true e]> (closers st))) j path ↔ holds st j path ∧ j ≠ i.
Proof.
  intros Hu. unfold holds. cbn [closers]. split.
  - intros (v&[(<-&<-&_)|[Hne Hv]]%list_lookup_insert_Some&Ho&Hp); [done|]. split; [by exists v|done].
  - intros [(v&Hv&?&?) Hne]. exists v. by rewrite list_lookup_insert_ne.
Qed.

Lemma tableInv_run o st : tableInv st → tableInv (run o st).
Proof.
  intros [HL HU]. destruct o as [name|i]; cbn [run].
  - unfold Lock. destruct (Abs _ _) as [e|path]; [done|]. case_decide as Hin; [done|].
    destruct (lockFn _ _) as [w [e|f]]; [by split|]. cbn [fst].
    assert (∀ i, ¬ holds st i path) as Hno by (intros i Hi; apply Hin, HL; eauto).
    split; cbn [locked].
    + intros p. setoid_rewrite holds_app; [|done]. cbn [abs]. rewrite elem_of_union, elem_of_singleton, HL. naive_solver.
    + intros i j p. rewrite !holds_app by done. cbn [abs]. intros [Hi|[-> <-]] [Hj|[-> Hp]]; [by eapply HU| | |done].
      * subst p. by destruct (Hno i).
      * by destruct (Hno j).
  - unfold Close. destruct (closers st !! i) as [u|] eqn:Hu; [|done]. destruct (once u) eqn:Ho; [done|].
    destruct (closeFile _ _ _) as [w e]. cbn [fst].
    assert (holds st i (abs u)) as Hi by (by exists u).
    split; cbn [locked].
    + intros p. setoid_rewrite holds_close; [|done]. rewrite elem_of_difference, elem_of_singleton, HL. split.
      * intros [[j Hj] Hp]. exists j. split; [done|]. intros ->. destruct Hj as (v&Hv&_&<-). congruence.
      * intros (j&Hj&Hne). split; [by exists j|]. intros ->. by apply Hne, (HU j i (abs u)).
    + intros j k p. rewrite !holds_close by done. intros [Hj _] [Hk _]. by eapply HU.
Qed.

Lemma runs_inv ops w : tableInv (runs ops w).
Proof.
  unfold runs.
  assert (tableInv (Process w ∅ [])) as H0.
  { split; unfold holds; cbn [locked closers]; [|intros i j p (u&Hu&_); by rewrite lookup_nil in Hu].
    intros p. split; [set_solver|]. intros (i&u&Hu&_). by rewrite lookup_nil in Hu. }
  revert H0. generalize (Process w ∅ []). induction ops as [|o ops IH]; intros st Hst; [done|].
  cbn [foldl]. by apply IH, tableInv_run.
Qed.

(** C29. Whatever [Lock] and [Close] calls a process has made, its Closers that
    are not closed hold different paths; [Lock] refuses exactly the held
    paths, without asking the system, and for the others it succeeds exactly
    if the lockFn does; [Close] frees the path, and closing again does nothing
    but return the same error. *)
Theorem Lock_tracks_open_closers (ops : list op) (w : W) :
  let st := runs ops w in
  (∀ i j path, holds st i path → holds st j path → i = j) ∧
  (∀ name path, Abs (world st) name = inr path →
    (Lock name st).2 =
      if decide (path ∈ locked st) then inl (AlreadyLocked path)
      else match (lockFn (world st) path).2 with inl e => inl (CannotAcquire e) | inr _ => inr (length (closers st)) end) ∧
  (∀ path, path ∈ locked st ↔ ∃ i, holds st i path) ∧
  (∀ i path, holds st i path →
    let st' := (Close i st).1 in
    (∀ j, ¬ holds st' j path) ∧ path ∉ locked st' ∧ Close i st' = (st', (Close i st).2)).
Proof.
  intros st. destruct (runs_inv ops w) as [HL HU]. fold st in HL, HU. split_and!; [done| |done|].
  - intros name path Ha. unfold Lock. rewrite Ha. case_decide; [done|]. by destruct (lockFn _ _) as [w' [e|f]].
  - intros i path (u&Hu&Ho&<-). destruct (closeFile (world st) (file u) (abs u)) as [w' e] eqn:Hc.
    assert (Close i st = (Process w' (locked st ∖ {[abs u]}) (<[i := Unlocker (file u) (abs u) true e]> (closers st)), e)) as ->.
    { unfold Close. by rewrite Hu, Ho, Hc. }
    cbn [fst snd locked]. split_and!; [|set_solver|].
    + intros j Hj. rewrite holds_close in Hj by done. destruct Hj as [Hj Hne]. apply Hne, (HU j i (abs u)); [done|]. by exists u.
    + unfold Close. cbn [closers]. rewrite list_lookup_insert_eq by (by eapply lookup_lt_Some). done.
Qed.

End table.

(** ** The systems *)

Section systems.
Context {W F : Type}.
Variable statSize : W → string → option Z.                         (* os.Stat: the size if there is no error *)
Variable remove : W → string → W * option error.                   (* os.Remove *)
Variable close : W → F → W * option error.                         (* f.Close, windows.CloseHandle *)

(** [unlocker.close] *)
Definition unlockerClose (portable : bool) (w : W) (f : F) (abs : string) : W * option error :=
  if portable then
    let '(w, e1) := close w f in
    let '(w, e2) := remove w abs in
    (w, match e2 with Some e => Some e | None => e1 end)
  else
    let '(w, _) := remove w abs in
    close w f.

(** [winUnlocker.close] *)
Definition winUnlockerClose (w : W) (h : F) (abs : string) : W * option error := close w h.

Definition hasContents (w : W) (name : string) : bool :=
  match statSize w name with Some n => 0 <? n | None => false end.

(** [os.OpenFile] with [O_RDWR|O_CREATE], [os.ModeExclusive|0644]. *)
Variable openExclusive : W → string → W * (error + F).
Definition lockPlan9 (w : W) (name : string) : W * (error + F) :=
  if hasContents w name then (w, inl (NonZeroSize name))
  else match openExclusive w name with
       | (w, inl e) => (w, inl (CreateFailed name e))
       | (w, inr f) => (w, inr f)
       end.

(** [windows.CreateFile] with its access, share mode, disposition and
    attributes. *)
Variable createFile : W → string → Z → Z → Z → Z → W * (error + F).
Definition FILE_ATTRIBUTE_TEMPORARY : Z := 0x100.
Definition FILE_FLAG_DELETE_ON_CLOSE : Z := 0x04000000.
Definition OPEN_ALWAYS : Z := 4.
Definition winCreateEphemeral (w : W) (name : string) : W * (error + F) :=
  createFile w name 0 0 OPEN_ALWAYS (Z.lor FILE_ATTRIBUTE_TEMPORARY FILE_FLAG_DELETE_ON_CLOSE).
Definition lockWindows (w : W) (name : string) : W * (error + F) :=
  if hasContents w name then (w, inl (NonZeroSize name))
  else match winCreateEphemeral w name with
       | (w, inl e) => (w, inl (CreateFailed name e))
       | (w, inr h) => (w, inr h)
       end.

(** A file with contents is never locked, opened or deleted. *)
Lemma contents_are_safe w name :
  hasContents w name = true →
  lockPlan9 w name = (w, inl (NonZeroSize name)) ∧ lockWindows w name = (w, inl (NonZeroSize name)).
Proof. intros H. unfold lockPlan9, lockWindows. by rewrite H. Qed.

(** Of two failures of the portable close the one of the removal counts; the
    file is closed whatever the removal says. *)
Lemma portable_close_error w f abs w1 e1 w2 e2 :
  close w f = (w1, e1) → remove w1 abs = (w2, e2) →
  unlockerClose true w f abs = (w2, match e2 with Some e => Some e | None => e1 end).
Proof. intros H1 H2. unfold unlockerClose. by rewrite H1, H2. Qed.

End systems.
