(* ===== verification/Throttle.v ===== *)
(** * net/throttle: delayed connections

    throttle.go. A connection is a machine: the goroutines that call Write,
    Read and Close, the goroutine of [writeLoop] behind its channel, and a
    clock. The underlying [net.Conn] is a parameter. *)
From S2P Require Import Prelude.

Definition unitSize : Z := 1400.
Definition second : Z := 1000000000.

Record Rate := { KBps : Z; Latency : Z }.

(** [r.byteTime(n)]. The quotient is computed with float64 and truncated by
    the conversion. The code asks for less than 2^20 bytes: there the division
    by 1024 is exact, the exact quotient is at least 1/(1024*KBps) away from
    the next integer unless it is one, and rounding does not reach that far,
    so the conversion gives the integer quotient, rounded towards 0. *)
Definition byteTime (r : Rate) (n : Z) : Z :=
  if KBps r =? 0 then 0 else i64 (Z.quot n (1024 * KBps r) * second).

Section throttle.
Context {C E L : Type}.
Variable connWrite : C → list byte → C * Z * option E.        (* c.Conn.Write *)
Variable connRead : C → Z → C * list byte * option E.         (* c.Conn.Read of a buffer of that length *)
Variable connClose : C → C * option E.                        (* c.Conn.Close *)
Variable accept : L → L * (E + C).                            (* ln.Listener.Accept *)

(** What the callers see: an error of the connection, or the one that
    [Write] makes out of a panic, [fmt.Errorf("%v", err)] of its own nil [err]. *)
Inductive error := ConnErr (e : E) | NilErr.

Record nErr := NErr { n : Z; err : option E }.

(** A request holds the bytes that are left; [resc], the channel of the
    answer, is named by the call that made it. *)
Record writeReq := { writeAt : Z; p : list byte; resc : nat }.

Inductive loopPc :=
| Ranging                                  (* at the range over wchan *)
| Waiting (r : writeReq)                   (* in the sleep until writeAt *)
| Writing (r : writeReq) (res : nErr)      (* at the test of the inner loop *)
| Pacing (until : Z) (r : writeReq) (res : nErr)   (* in the sleep after a Write *)
| Exited.

Inductive pc :=
| Sending (r : writeReq)                         (* Write, at the send on wchan *)
| Receiving (p : list byte) (res : option nErr)  (* Write, at <-resc, and what is in resc *)
| Returned (p : list byte) (n : Z) (e : option error)
| ReadCalled (len : Z)
| ReadPacing (until : Z) (bs : list byte) (e : option E)
| ReadReturned (bs : list byte) (e : option E)
| CloseCalled                                    (* at closeOnce.Do *)
| ClosingConn | ClosingChan (e : option E) | ClosingErr (e : option E)
| CloseReturned (e : option E).

Inductive onceState := Fresh | Running | Done.

(** A call of the underlying Write by [writeLoop]. *)
Record event := { at_ : Z; call : nat; chunk : list byte; wrote : Z }.

(** The fields of [conn] (with the underlying connection and what is in the
    channel), the program counters and the clock; then the history: the
    underlying writes, the requests sent, the times of the calls and the
    number of underlying Close calls. *)
Record conn := Conn {
  under : C; Down : Rate; Up : Rate;
  wchan : list writeReq; wclosed : bool;
  once : onceState; closeErr : option E;
  writer : loopPc; calls : list pc; now : Z;
  log : list event; sent : list writeReq; starts : list Z; closes : Z }.

(** [start]: a channel of 1024 requests, and the goroutine [writeLoop]. *)
Definition start (c : C) (down up : Rate) (t : Z) : conn :=
  Conn c down up [] false Fresh None Ranging [] t [] [] [] 0.

(** [ln.Accept()] at a time: the latency has passed when it returns, also
    with an error. *)
Definition Accept (ln : L) (down up : Rate) (t : Z) : L * (E + conn) :=
  let '(ln, r) := accept ln in
  let t := t + Z.max 0 (Latency up) in
  match r with
  | inl e => (ln, inl e)
  | inr c => (ln, inr (start c down up t))
  end.

Definition setCall (st : conn) (t : nat) (q : pc) : conn :=
  Conn (under st) (Down st) (Up st) (wchan st) (wclosed st) (once st) (closeErr st) (writer st)
       (<[t := q]> (calls st)) (now st) (log st) (sent st) (starts st) (closes st).
Definition newCall (st : conn) (q : pc) : conn :=
  Conn (under st) (Down st) (Up st) (wchan st) (wclosed st) (once st) (closeErr st) (writer st)
       (calls st ++ [q]) (now st) (log st) (sent st) (starts st ++ [now st]) (closes st).
Definition setWriter (st : conn) (w : loopPc) (q : list writeReq) : conn :=
  Conn (under st) (Down st) (Up st) q (wclosed st) (once st) (closeErr st) w
       (calls st) (now st) (log st) (sent st) (starts st) (closes st).
Definition tick (d : Z) (st : conn) : conn :=
  Conn (under st) (Down st) (Up st) (wchan st) (wclosed st) (once st) (closeErr st) (writer st)
       (calls st) (now st + d) (log st) (sent st) (starts st) (closes st).

(** [c.wchan <- req] *)
Definition enqueue (st : conn) (t : nat) (r : writeReq) : conn :=
  Conn (under st) (Down st) (Up st) (wchan st ++ [r]) (wclosed st) (once st) (closeErr st) (writer st)
       (<[t := Receiving (p r) None]> (calls st)) (now st) (log st) (sent st ++ [r]) (starts st) (closes st).

Definition chunkOf (bs : list byte) : list byte :=
  if unitSize <? zlen bs then take (Z.to_nat unitSize) bs else bs.

(** One turn of the inner loop up to its sleep; [req.p[n:]] may panic. *)
Definition writeChunk (st : conn) (r : writeReq) (res : nErr) : option conn :=
  let ch := chunkOf (p r) in
  let '(c, k, e) := connWrite (under st) ch in
  rest ← zslice (p r) k (zlen (p r));
  Some (Conn c (Down st) (Up st) (wchan st) (wclosed st) (once st) (closeErr st)
             (Pacing (now st + byteTime (Up st) (zlen ch))
                     {| writeAt := writeAt r; p := rest; resc := resc r |} (NErr (n res + k) e))
             (calls st) (now st)
             (log st ++ [{| at_ := now st; call := resc r; chunk := ch; wrote := k |}])
             (sent st) (starts st) (closes st)).

(** [req.resc <- res]; the channel has room for it. *)
Definition answer (q : pc) (res : nErr) : pc :=
  match q with Receiving p None => Receiving p (Some res) | _ => q end.
Definition reply (st : conn) (r : writeReq) (res : nErr) : conn :=
  Conn (under st) (Down st) (Up st) (wchan st) (wclosed st) (once st) (closeErr st) Ranging
       (alter (λ q, answer q res) (resc r) (calls st)) (now st) (log st) (sent st) (starts st) (closes st).

(** [c.Conn.Read(p)] with [p] cut to 1024 bytes *)
Definition readConn (st : conn) (t : nat) (len : Z) : conn :=
  let '(c, bs, e) := connRead (under st) (if 1024 <? len then 1024 else len) in
  Conn c (Down st) (Up st) (wchan st) (wclosed st) (once st) (closeErr st) (writer st)
       (<[t := ReadPacing (now st + byteTime (Down st) (zlen bs)) bs e]> (calls st))
       (now st) (log st) (sent st) (starts st) (closes st).

(** The function that [Close] gives to [closeOnce.Do], one access at a time. *)
Definition setOnce (st : conn) (o : onceState) (t : nat) (q : pc) : conn :=
  Conn (under st) (Down st) (Up st) (wchan st) (wclosed st) o (closeErr st) (writer st)
       (<[t := q]> (calls st)) (now st) (log st) (sent st) (starts st) (closes st).
Definition closeConn (st : conn) (t : nat) : conn :=
  let '(c, e) := connClose (under st) in
  Conn c (Down st) (Up st) (wchan st) (wclosed st) (once st) (closeErr st) (writer st)
       (<[t := ClosingChan e]> (calls st)) (now st) (log st) (sent st) (starts st) (closes st + 1).
Definition closeChan (st : conn) (t : nat) (e : option E) : conn :=
  Conn (under st) (Down st) (Up st) (wchan st) true (once st) (closeErr st) (writer st)
       (<[t := ClosingErr e]> (calls st)) (now st) (log st) (sent st) (starts st) (closes st).
Definition setCloseErr (st : conn) (t : nat) (e : option E) : conn :=
  Conn (under st) (Down st) (Up st) (wchan st) (wclosed st) Done e (writer st)
       (<[t := CloseReturned e]> (calls st)) (now st) (log st) (sent st) (starts st) (closes st).

(** What the environment does: time passes and calls are made. *)
Inductive envStep (st : conn) : conn → Prop :=
| StepTick d : 0 ≤ d → envStep st (tick d st)
| StepCallWrite bs :
    envStep st (newCall st (Sending {| writeAt := now st + Latency (Up st); p := bs; resc := length (calls st) |}))
| StepCallRead len : 0 ≤ len → envStep st (newCall st (ReadCalled len))
| StepCallClose : envStep st (newCall st CloseCalled).

(** What the goroutines do. *)
Inductive run (st : conn) : conn → Prop :=
(* writeLoop *)
| StepTake r q : writer st = Ranging → wchan st = r :: q → run st (setWriter st (Waiting r) q)
| StepExit : writer st = Ranging → wchan st = [] → wclosed st = true → run st (setWriter st Exited [])
| StepWake r : writer st = Waiting r → writeAt r ≤ now st →
    run st (setWriter st (Writing r (NErr 0 None)) (wchan st))
| StepWrite r res st' :
    writer st = Writing r res → 0 < zlen (p r) → err res = None → writeChunk st r res = Some st' → run st st'
| StepPaced u r res : writer st = Pacing u r res → u ≤ now st → run st (setWriter st (Writing r res) (wchan st))
| StepReply r res : writer st = Writing r res → p r = [] ∨ err res ≠ None → run st (reply st r res)
(* Write *)
| StepSend t r :
    calls st !! t = Some (Sending r) → wclosed st = false → zlen (wchan st) < 1024 → run st (enqueue st t r)
| StepSendPanics t r :
    calls st !! t = Some (Sending r) → wclosed st = true → run st (setCall st t (Returned (p r) 0 (Some NilErr)))
| StepReceive t bs res :
    calls st !! t = Some (Receiving bs (Some res)) →
    run st (setCall st t (Returned bs (n res) (ConnErr <$> err res)))
(* Read *)
| StepRead t len : calls st !! t = Some (ReadCalled len) → run st (readConn st t len)
| StepReadPaced t u bs e :
    calls st !! t = Some (ReadPacing u bs e) → u ≤ now st → run st (setCall st t (ReadReturned bs e))
(* Close *)
| StepCloseFirst t : calls st !! t = Some CloseCalled → once st = Fresh → run st (setOnce st Running t ClosingConn)
| StepCloseConn t : calls st !! t = Some ClosingConn → run st (closeConn st t)
| StepCloseChan t e : calls st !! t = Some (ClosingChan e) → run st (closeChan st t e)
| StepCloseErr t e : calls st !! t = Some (ClosingErr e) → run st (setCloseErr st t e)
| StepCloseAgain t :
    calls st !! t = Some CloseCalled → once st = Done → run st (setCall st t (CloseReturned (closeErr st))).

Definition step (st st' : conn) : Prop := envStep st st' ∨ run st st'.

(** The states of a connection that [Accept] has returned. *)
Inductive reach (st0 : conn) : conn → Prop :=
| ReachInit : reach st0 st0
| ReachStep st st' : reach st0 st → step st st' → reach st0 st'.

(** ** Specification: a connection whose writes are atomic

    A write, done by a call in one go: it puts the first [opN] of its bytes on
    the stream, all of them if there is no error. *)
Record op := Op { opCall : nat; opBytes : list byte; opN : Z; opErr : option E }.

Definition opOk (o : op) : Prop := 0 ≤ opN o ≤ zlen (opBytes o) ∧ (opErr o = None → opN o = zlen (opBytes o)).

(** One more write, by a call that has not written yet. *)
Inductive atomicWrite (d : list op) : list op → Prop :=
| AtomicWrite o : opCall o ∉ opCall <$> d → opOk o → atomicWrite d (d ++ [o]).

Definition upto (k : Z) (bs : list byte) : list byte := take (Z.to_nat k) bs.

(** The bytes that the specification has put on the stream. *)
Definition stream (d : list op) : list byte := d ≫= λ o, upto (opN o) (opBytes o).

(** The bytes that the underlying connection has taken. *)
Definition taken (l : list event) : list byte := l ≫= λ ev, upto (wrote ev) (chunk ev).

(** The contract of [io.Writer]. *)
Definition writerContract : Prop := ∀ c bs,
  let '(_, k, e) := connWrite c bs in 0 ≤ k ≤ zlen bs ∧ (k < zlen bs → e ≠ None).

(** ** The refinement relation

    [acc]: the bytes of the request in service that are on the stream. *)
Definition reqKey (r : writeReq) : nat * list byte := (resc r, p r).
Definition opKey (o : op) : nat * list byte := (opCall o, opBytes o).

Definition serving (w : loopPc) (acc : list byte) : list (nat * list byte) :=
  match w with
  | Ranging | Exited => []
  | Waiting r | Writing r _ | Pacing _ r _ => [(resc r, acc ++ p r)]
  end.

Definition writerOk (w : loopPc) (acc : list byte) : Prop :=
  match w with
  | Ranging | Exited | Waiting _ => acc = []
  | Writing _ res | Pacing _ _ res => n res = zlen acc
  end.

Definition callOk (d : list op) (open sentCalls : list (nat * list byte)) (t : nat) (q : pc) : Prop :=
  match q with
  | Sending r => resc r = t ∧ t ∉ sentCalls.*1
  | Receiving bs None => (t, bs) ∈ open
  | Receiving bs (Some res) => Op t bs (n res) (err res) ∈ d
  | Returned bs k e =>
      (e = Some NilErr ∧ k = 0 ∧ t ∉ sentCalls.*1) ∨ (∃ e', e = ConnErr <$> e' ∧ Op t bs k e' ∈ d)
  | _ => t ∉ sentCalls.*1
  end.

Record refines (st : conn) (d : list op) (acc : list byte) : Prop := {
  ref_stream : taken (log st) = stream d ++ acc;
  ref_order : (opKey <$> d) ++ serving (writer st) acc ++ (reqKey <$> wchan st) = reqKey <$> sent st;
  ref_writer : writerOk (writer st) acc;
  ref_ops : Forall opOk d;
  ref_calls t q : calls st !! t = Some q →
    callOk d (serving (writer st) acc ++ (reqKey <$> wchan st)) (reqKey <$> sent st) t q;
  ref_nodup : NoDup (reqKey <$> sent st).*1;
  ref_bound t : t ∈ (reqKey <$> sent st).*1 → (t < length (calls st))%nat;
}.

Lemma callOk_mono d d' open open' S S' t q :
  callOk d open S t q → d ⊆ d' → (∀ bs, q = Receiving bs None → (t, bs) ∈ open → (t, bs) ∈ open') →
  (t ∉ S.*1 → t ∉ S'.*1) → callOk d' open' S' t q.
Proof. intros H Hd Ho HS. destruct q as [r|bs [res|]|bs k e| | | | | | | | ]; cbn in *; try exact (HS H); auto; [naive_solver|].
  destruct H as [(?&?&?)|(e'&?&?)]; [left; auto|right; eauto].
Qed.

(** Steps that change only the program counter of one call. *)
Lemma refines_call st st' d acc t q :
  refines st d acc → writer st' = writer st → wchan st' = wchan st → sent st' = sent st → log st' = log st →
  calls st' = <[t := q]> (calls st) →
  callOk d (serving (writer st) acc ++ (reqKey <$> wchan st)) (reqKey <$> sent st) t q →
  refines st' d acc.
Proof.
  intros [H1 H2 H3 H4 H5 H6 H7] Hw Hq Hs Hl Hc Hok.
  split; rewrite ?Hw, ?Hq, ?Hs, ?Hl, ?Hc; try done.
  - intros t0 q0 [(<-&<-&_)|[_ H]]%list_lookup_insert_Some; [done|by apply H5].
  - intros t0 H0. rewrite length_insert. by apply H7.
Qed.

(** Steps of [writeLoop] that leave the open requests as they are. *)
Lemma refines_writer st w q d acc :
  refines st d acc → serving w acc ++ (reqKey <$> q) = serving (writer st) acc ++ (reqKey <$> wchan st) →
  writerOk w acc → refines (setWriter st w q) d acc.
Proof.
  intros [H1 H2 H3 H4 H5 H6 H7] Ho Hw. split; cbn [log writer wchan sent calls setWriter]; rewrite ?Ho; try done.
Qed.

Lemma refines_env st st' d acc : refines st d acc → envStep st st' → refines st' d acc.
Proof.
  intros Href Hstep. pose proof Href as [H1 H2 H3 H4 H5 H6 H7].
  assert (∀ q, (length (calls st) ∉ (reqKey <$> sent st).*1 →
               callOk d (serving (writer st) acc ++ (reqKey <$> wchan st)) (reqKey <$> sent st) (length (calls st)) q) →
               refines (newCall st q) d acc) as Hnew.
  { intros q Hq. split; cbn [log writer wchan sent calls newCall]; try done.
    - intros t0 q0 [H|[H0 H]]%lookup_app_Some; [by apply H5|].
      apply list_lookup_singleton_Some in H as [Ht <-]. replace t0 with (length (calls st)) by lia.
      apply Hq. intros Hin%H7. lia.
    - intros t0 H%H7. rewrite length_app. cbn. lia. }
  destruct Hstep as [dt Hd|bs|len Hlen|]; try (apply Hnew; cbn; auto).
  destruct st. split; done.
Qed.

Lemma chunkOf_split bs k :
  0 ≤ k ≤ zlen (chunkOf bs) → k ≤ zlen bs ∧ bs = upto k (chunkOf bs) ++ drop (Z.to_nat k) bs.
Proof.
  intros Hk. assert (chunkOf bs = take (Z.to_nat (zlen (chunkOf bs))) bs ∧ zlen (chunkOf bs) ≤ zlen bs) as [H Hle].
  { unfold chunkOf, unitSize in *. destruct (Z.ltb_spec 1400 (zlen bs)).
    - rewrite length_take. split; [f_equal; lia|lia].
    - rewrite take_ge by lia. done. }
  split; [lia|]. unfold upto. rewrite H, take_take, Nat.min_l by lia. by rewrite take_drop.
Qed.

Lemma stream_snoc d o : stream (d ++ [o]) = stream d ++ upto (opN o) (opBytes o).
Proof. unfold stream. by rewrite bind_app, bind_singleton. Qed.

Lemma taken_snoc l ev : taken (l ++ [ev]) = taken l ++ upto (wrote ev) (chunk ev).
Proof. unfold taken. by rewrite bind_app, bind_singleton. Qed.

Lemma writeChunk_inv st r res st' :
  writerContract → writeChunk st r res = Some st' →
  ∃ k e u rest, 0 ≤ k ≤ zlen (chunkOf (p r)) ∧ (k < zlen (chunkOf (p r)) → e ≠ None) ∧
    p r = upto k (chunkOf (p r)) ++ rest ∧
    writer st' = Pacing u {| writeAt := writeAt r; p := rest; resc := resc r |} (NErr (n res + k) e) ∧
    log st' = log st ++ [{| at_ := now st; call := resc r; chunk := chunkOf (p r); wrote := k |}] ∧
    u = now st + byteTime (Up st) (zlen (chunkOf (p r))) ∧
    calls st' = calls st ∧ wchan st' = wchan st ∧ sent st' = sent st ∧ wclosed st' = wclosed st ∧ once st' = once st ∧
    closeErr st' = closeErr st ∧ now st' = now st ∧ starts st' = starts st ∧ closes st' = closes st ∧ Up st' = Up st.
Proof.
  intros HC H. unfold writeChunk in H. specialize (HC (under st) (chunkOf (p r))).
  destruct (connWrite (under st) (chunkOf (p r))) as [[c k] e]. destruct HC as [Hk He].
  destruct (chunkOf_split _ _ Hk) as [Hle Hp]. rewrite zslice_Some in H by lia. cbn [mbind option_bind] in H.
  rewrite take_ge in H by (rewrite length_drop; lia). injection H as <-.
  eexists k, e, _, (drop (Z.to_nat k) (p r)). cbn. split_and!; try reflexivity; try done; lia.
Qed.

Lemma refines_write st st' r res d acc :
  writerContract → refines st d acc → writer st = Writing r res → writeChunk st r res = Some st' →
  ∃ acc', refines st' d acc'.
Proof.
  intros HC [H1 H2 H3 H4 H5 H6 H7] Hw Hst. apply writeChunk_inv in Hst as (k&e&u&rest&Hk&He&Hp&Hw'&Hl&Hu&Hc&Hq&Hs&_); [|done].
  exists (acc ++ upto k (chunkOf (p r))).
  assert (serving (writer st') (acc ++ upto k (chunkOf (p r))) = serving (writer st) acc) as Hserv.
  { rewrite Hw', Hw. cbn. do 2 f_equal. by rewrite <-app_assoc, <-Hp. }
  split; rewrite ?Hserv, ?Hq, ?Hs, ?Hc; try done.
  - rewrite Hl, taken_snoc, H1. cbn. by rewrite app_assoc.
  - rewrite Hw'. rewrite Hw in H3. cbn in *. rewrite length_app. unfold upto. rewrite length_take. lia.
Qed.

Lemma refines_reply st r res d acc :
  refines st d acc → writer st = Writing r res → p r = [] ∨ err res ≠ None →
  ∃ d', atomicWrite d d' ∧ refines (reply st r res) d' [].
Proof.
  intros [H1 H2 H3 H4 H5 H6 H7] Hw Hend. rewrite Hw in H2, H3, H5. cbn in H2, H3, H5.
  set (o := Op (resc r) (acc ++ p r) (n res) (err res)).
  assert (opOk o) as Ho.
  { split; cbn; rewrite length_app, H3; [lia|]. intros He. destruct Hend as [->|]; [cbn; lia|done]. }
  assert (upto (opN o) (opBytes o) = acc) as Hpre.
  { cbn. rewrite H3. unfold upto. rewrite take_app_le, take_ge; [done|lia|lia]. }
  rewrite <-H2, !fmap_app in H6. cbn [fmap list_fmap fst] in H6.
  exists (d ++ [o]). split.
  { constructor; [|done]. apply NoDup_app in H6 as (_&H6&_). intros Hin.
    apply (H6 (resc r)); [|by left]. rewrite <-list_fmap_compose. exact Hin. }
  split; cbn [log writer wchan sent calls reply serving writerOk app].
  - by rewrite stream_snoc, Hpre, app_nil_r.
  - rewrite <-H2, fmap_app, <-!app_assoc. done.
  - done.
  - apply Forall_app. split; [done|by constructor].
  - intros t q Hq. rewrite list_lookup_alter in Hq.
    case_decide as Ht; [subst t; apply fmap_Some in Hq as (q0&Hq&->)|].
    + apply H5 in Hq. destruct q0 as [r0|bs [res0|]|bs k e| | | | | | | | ]; cbn in *; try exact Hq.
      * apply elem_of_app. by left.
      * apply elem_of_app. right. apply list_elem_of_singleton. unfold o. f_equal.
        apply elem_of_cons in Hq as [[=]|Hin]; [done|exfalso].
        apply NoDup_app in H6 as (_&_&[Hn _]%NoDup_cons).
        apply Hn. apply list_elem_of_fmap. by exists (resc r, bs).
      * destruct Hq as [?|(e'&?&?)]; [by left|right]. exists e'. split; [done|]. apply elem_of_app. by left.
    + apply H5 in Hq. eapply callOk_mono; [exact Hq| | |done].
      * intros x Hx. apply elem_of_app. by left.
      * intros bs _ [[=]|Hin]%elem_of_cons; [done|done].
  - rewrite <-H2, !fmap_app. exact H6.
  - intros t Ht. rewrite length_alter. by apply H7.
Qed.

Lemma refines_send st t r d acc :
  refines st d acc → calls st !! t = Some (Sending r) → refines (enqueue st t r) d acc.
Proof.
  intros [H1 H2 H3 H4 H5 H6 H7] Ht. destruct (H5 _ _ Ht) as [Hr Hn].
  split; cbn [log writer wchan sent calls enqueue]; rewrite ?fmap_app; try done.
  - rewrite <-H2, <-!app_assoc. done.
  - intros t0 q0 [(<-&<-&_)|[Hne Hq]]%list_lookup_insert_Some; cbn.
    + rewrite !elem_of_app. right. right. unfold reqKey. rewrite Hr. by left.
    + apply H5 in Hq. eapply callOk_mono; [exact Hq|done| |].
      * intros bs _. rewrite !elem_of_app. naive_solver.
      * rewrite fmap_app, elem_of_app. intros ? [?|Hx%list_elem_of_singleton]; [done|]. cbn in Hx. congruence.
  - apply NoDup_app. split_and!; [done| |apply NoDup_singleton].
    intros x Hx Hx'%list_elem_of_singleton. subst x. cbn in Hx. by rewrite Hr in Hx.
  - intros t0. rewrite elem_of_app, length_insert. intros [?|Hx%list_elem_of_singleton]; [by apply H7|].
    subst t0. cbn. rewrite Hr. by eapply lookup_lt_Some.
Qed.

Lemma refines_run st st' d acc :
  writerContract → refines st d acc → run st st' →
  ∃ d' acc', (d' = d ∨ atomicWrite d d') ∧ refines st' d' acc'.
Proof.
  intros HC Href Hrun. pose proof Href as [_ _ Hwr _ Hcalls _ _].
  assert (∀ t q, calls st !! t = Some q →
    callOk d (serving (writer st) acc ++ (reqKey <$> wchan st)) (reqKey <$> sent st) t q) as Hc by exact Hcalls.
  destruct Hrun as [r q Hw Hq|Hw Hq Hcl|r Hw Hat|r res st' Hw Hp He Hst|u r res Hw Hu|r res Hw Hend
    |t r Ht Hcl Hlen|t r Ht Hcl|t bs res Ht|t len Ht|t u bs e Ht Hu|t Ht Ho|t Ht|t e Ht|t e Ht|t Ht Ho].
  1,2,3,5: exists d, acc; split; [by left|]; rewrite Hw in Hwr; cbn in Hwr;
    eapply refines_writer; [done|by rewrite Hw, ?Hwr, ?Hq|by rewrite ?Hwr].
  1: destruct (refines_write _ _ _ _ _ _ HC Href Hw Hst) as [acc' H]; exists d, acc'; auto.
  1: destruct (refines_reply _ _ _ _ _ Href Hw Hend) as (d'&?&?); exists d', []; auto.
  1: exists d, acc; split; [by left|]; by apply refines_send.
  all: exists d, acc; split; [by left|].
  all: apply Hc in Ht as Hok; cbn in Hok.
  3: unfold readConn; destruct (connRead _ _) as [[c bs] e].
  6: unfold closeConn; destruct (connClose _) as [c e].
  all: eapply refines_call; try exact Href; try reflexivity; cbn; try exact Hok.
  - left. by destruct Hok.
  - right. eauto.
Qed.

Lemma refines_reach c down up t0 st :
  writerContract → reach (start c down up t0) st → ∃ d acc, rtc atomicWrite [] d ∧ refines st d acc.
Proof.
  intros HC. induction 1 as [|st st' _ (d&acc&Hd&Href) [Henv|Hrun]].
  - exists [], []. split; [constructor|]. split; cbn; try done; try constructor.
    intros t H. by apply elem_of_nil in H.
  - exists d, acc. split; [done|]. by eapply refines_env.
  - destruct (refines_run _ _ _ _ HC Href Hrun) as (d'&acc'&[->|?]&?); [by exists d, acc'|].
    exists d', acc'. split; [by eapply rtc_r|done].
Qed.

(** C11. Writes through a throttled connection are atomic writes: for an
    underlying connection that keeps the contract of [io.Writer], in every
    interleaving of the goroutines and of closing, there is a sequence of
    atomic writes, at most one for each call and in the order in which the
    calls sent their requests, whose stream is what the underlying connection
    has taken (while a request is being served in chunks, followed by the part
    of it that is written); and a [Write] that has returned gives the count
    and the error of its atomic write, or else 0 and the error made of the
    panic, and has written nothing. Each step does nothing to the atomic
    connection or adds one write to it. *)
Theorem writes_refine_atomic_writes :
  writerContract →
  (∀ st st' d acc, refines st d acc → step st st' →
     ∃ d' acc', (d' = d ∨ atomicWrite d d') ∧ refines st' d' acc') ∧
  (∀ c down up t0 st, reach (start c down up t0) st →
     ∃ d acc, rtc atomicWrite [] d ∧
       taken (log st) = stream d ++ acc ∧
       (writer st = Ranging ∨ writer st = Exited → acc = []) ∧
       (opKey <$> d) `prefix_of` (reqKey <$> sent st) ∧
       (∀ t bs k e, calls st !! t = Some (Returned bs k e) →
          (e = Some NilErr ∧ k = 0 ∧ t ∉ opCall <$> d) ∨ (∃ e', e = ConnErr <$> e' ∧ Op t bs k e' ∈ d))).
Proof.
  intros HC.
  assert (∀ st st' d acc, refines st d acc → step st st' →
     ∃ d' acc', (d' = d ∨ atomicWrite d d') ∧ refines st' d' acc') as Hsim.
  { intros st st' d acc Href [Henv|Hrun]; [|by eapply refines_run].
    exists d, acc. split; [by left|]. by eapply refines_env. }
  split; [done|]. intros c down up t0 st Hr.
  destruct (refines_reach _ _ _ _ _ HC Hr) as (d&acc&Hd&[H1 H2 H3 H4 H5 H6 H7]).
  exists d, acc. split_and!; try done.
  - intros [Hw|Hw]; by rewrite Hw in H3.
  - rewrite <-H2. by apply prefix_app_r.
  - intros t bs k e Ht. apply H5 in Ht as [(?&?&Hn)|?]; [left|by right]. split_and!; try done.
    rewrite <-H2, fmap_app, <-list_fmap_compose in Hn. intros Hin. apply Hn, elem_of_app. by left.
Qed.

(** ** Delays *)

Definition requests (st : conn) : list writeReq :=
  match writer st with Ranging | Exited => [] | Waiting r | Writing r _ | Pacing _ r _ => [r] end ++ wchan st.

Definition reqOk (st : conn) (r : writeReq) : Prop :=
  ∃ s, starts st !! resc r = Some s ∧ writeAt r = s + Latency (Up st).

(** The time until which [writeLoop] sleeps after an underlying write. *)
Definition slot (up : Rate) (ev : event) : Z := at_ ev + byteTime up (zlen (chunk ev)).

Definition delayed (st : conn) (ev : event) : Prop :=
  ∃ s, starts st !! call ev = Some s ∧ s + Latency (Up st) ≤ at_ ev.

Record paced (st : conn) : Prop := {
  pace_spaced i e1 e2 : log st !! i = Some e1 → log st !! S i = Some e2 → slot (Up st) e1 ≤ at_ e2;
  pace_last ev : last (log st) = Some ev →
    match writer st with Pacing u _ _ => u = slot (Up st) ev | _ => slot (Up st) ev ≤ now st end;
  pace_delayed : Forall (delayed st) (log st);
  pace_reqs : Forall (reqOk st) (requests st);
  pace_sending t r : calls st !! t = Some (Sending r) → reqOk st r;
  pace_writing : match writer st with Writing r _ | Pacing _ r _ => writeAt r ≤ now st | _ => True end;
  pace_starts : length (starts st) = length (calls st);
}.

Lemma last_snoc_lookup {A} (l : list A) x i y z :
  (l ++ [x]) !! i = Some y → (l ++ [x]) !! S i = Some z →
  (l !! i = Some y ∧ l !! S i = Some z) ∨ (last l = Some y ∧ z = x).
Proof.
  intros H1 [H2|[Hle H2]]%lookup_app_Some.
  - left. split; [|done]. apply lookup_app_Some in H1 as [?|[Hl _]]; [done|]. apply lookup_lt_Some in H2. lia.
  - right. apply list_lookup_singleton_Some in H2 as [Hi <-]. split; [|done].
    rewrite lookup_app_l in H1 by lia. rewrite last_lookup. replace (pred (length l)) with i by lia. done.
Qed.

Lemma paced_env st st' : paced st → envStep st st' → paced st'.
Proof.
  intros [H1 H2 H3 H4 H5 H6 H7] Hstep.
  assert (∀ q, (∀ r, q = Sending r → resc r = length (calls st) ∧ writeAt r = now st + Latency (Up st)) →
    paced (newCall st q)) as Hnew.
  { intros q Hq.
    assert (∀ r, reqOk st r → reqOk (newCall st q) r) as Hmono.
    { intros r (s&Hs&?). exists s. split; [|done]. cbn. by apply lookup_app_l_Some. }
    split; cbn [log writer wchan sent calls starts now Up newCall]; try done.
    - eapply Forall_impl; [done|]. intros ev (s&Hs&?). exists s. split; [|done]. cbn. by apply lookup_app_l_Some.
    - eapply Forall_impl; [exact H4|exact Hmono].
    - intros t r [Ht|[Hlt Ht]]%lookup_app_Some; [by eapply Hmono, H5|].
      apply list_lookup_singleton_Some in Ht as [_ Ht]. destruct (Hq r) as [Hr Hat]; [done|].
      exists (now st). split; [|done]. cbn. rewrite Hr, <-H7. by apply list_lookup_middle.
    - rewrite !length_app. cbn. lia. }
  destruct Hstep as [d Hd|bs|len Hlen|]; try (apply Hnew; intros r [=]; subst; done).
  split; cbn [log writer wchan sent calls starts now Up tick]; try done.
  - intros ev Hev. specialize (H2 ev Hev). destruct (writer st); lia.
  - destruct (writer st); lia.
Qed.

(** Steps of a call that do not change what [writeLoop] and the log hold. *)
Lemma paced_call st st' t q :
  paced st → writer st' = writer st → wchan st' = wchan st → log st' = log st → now st' = now st →
  Up st' = Up st → starts st' = starts st → calls st' = <[t := q]> (calls st) → (∀ r, q ≠ Sending r) → paced st'.
Proof.
  intros [H1 H2 H3 H4 H5 H6 H7] Hw Hq Hl Hn Hu Hs Hc Hns.
  assert (∀ r, reqOk st r → reqOk st' r) as Hmono by (intros r (s&?&?); exists s; by rewrite Hs, Hu).
  split; rewrite ?Hw, ?Hl, ?Hn, ?Hu, ?Hc, ?Hs; try done.
  - eapply Forall_impl; [done|]. intros ev (s&?&?). exists s. by rewrite Hs, Hu.
  - unfold requests. rewrite Hw, Hq. eapply Forall_impl; [exact H4|exact Hmono].
  - intros t0 r [(_&Hr&_)|[_ H]]%list_lookup_insert_Some; [by destruct (Hns r)|by eapply Hmono, H5].
  - by rewrite length_insert.
Qed.

Lemma paced_writer st w q :
  paced st → Forall (reqOk st) (requests (setWriter st w q)) →
  (∀ ev, last (log st) = Some ev → match w with Pacing _ _ _ => False | _ => slot (Up st) ev ≤ now st end) →
  match w with Writing r _ | Pacing _ r _ => writeAt r ≤ now st | _ => True end →
  paced (setWriter st w q).
Proof.
  intros [H1 H2 H3 H4 H5 H6 H7] Hr Hl Hw. split; cbn [log writer wchan sent calls starts now Up setWriter]; try done.
  intros ev Hev. specialize (Hl ev Hev). by destruct w.
Qed.

Lemma paced_write st st' r res :
  writerContract → paced st → writer st = Writing r res → writeChunk st r res = Some st' → paced st'.
Proof.
  intros HC [H1 H2 H3 H4 H5 H6 H7] Hw Hst. unfold requests in H4. rewrite Hw in H2, H4, H6.
  apply writeChunk_inv in Hst as (k&e&u&rest&Hk&He&Hp&Hw'&Hl&Hu&Hc&Hq&Hs&_&_&_&Hn&Hst&_&Hup); [|done].
  apply Forall_cons in H4 as [(s&Hs0&Hat) H4].
  assert (∀ r, reqOk st r → reqOk st' r) as Hmono by (intros r0 (s0&?&?); exists s0; by rewrite Hst, Hup).
  split; rewrite ?Hw', ?Hl, ?Hup, ?Hn, ?Hst, ?Hc; try done.
  - intros i e1 e2 Hi Hi'. destruct (last_snoc_lookup _ _ _ _ _ Hi Hi') as [[? ?]|[Hlast ->]]; [by eapply H1|].
    by apply H2.
  - intros ev. rewrite last_snoc. intros [= <-]. done.
  - apply Forall_app. split; [|apply Forall_singleton; exists s; rewrite Hst, Hup; cbn; split; [done|lia]].
    eapply Forall_impl; [done|]. intros ev (s0&?&?). exists s0. by rewrite Hst, Hup.
  - unfold requests. rewrite Hw', Hq. constructor; [|eapply Forall_impl; [exact H4|exact Hmono]].
    apply Hmono. by exists s.
  - intros t r0 Ht. eapply Hmono, H5, Ht.
Qed.

Lemma paced_reply st r res : paced st → writer st = Writing r res → paced (reply st r res).
Proof.
  intros [H1 H2 H3 H4 H5 H6 H7] Hw. unfold requests in H4. rewrite Hw in H2, H4, H6.
  split; cbn [log writer wchan sent calls starts now Up reply]; try done.
  - unfold requests. cbn [writer wchan reply]. by apply Forall_cons in H4 as [_ H4].
  - intros t r0 Ht. rewrite list_lookup_alter in Ht. case_decide; [|by eapply H5].
    apply fmap_Some in Ht as (q&Ht&Hq). destruct q as [?|? [?|]|? ? ?| | | | | | | | ]; try discriminate Hq. injection Hq as ->. by eapply H5.
  - by rewrite length_alter.
Qed.

Lemma paced_send st t r : paced st → calls st !! t = Some (Sending r) → paced (enqueue st t r).
Proof.
  intros [H1 H2 H3 H4 H5 H6 H7] Ht. split; cbn [log writer wchan sent calls starts now Up enqueue]; try done.
  - unfold requests in *. cbn [writer wchan enqueue]. rewrite app_assoc. apply Forall_app. split; [done|].
    apply Forall_singleton. by eapply H5.
  - intros t0 r0 [(_&Hr&_)|[_ H]]%list_lookup_insert_Some; [done|by eapply H5].
  - by rewrite length_insert.
Qed.

Lemma paced_run st st' : writerContract → paced st → run st st' → paced st'.
Proof.
  intros HC Hp Hrun. pose proof Hp as [_ Hlast _ Hreqs _ Hwr _]. unfold requests in Hreqs.
  destruct Hrun as [r q Hw Hq|Hw Hq Hcl|r Hw Hat|r res st' Hw Hlen He Hst|u r res Hw Hu|r res Hw Hend
    |t r Ht Hcl Hlen|t r Ht Hcl|t bs res Ht|t len Ht|t u bs e Ht Hu|t Ht Ho|t Ht|t e Ht|t e Ht|t Ht Ho].
  1,2,3,5: rewrite Hw in *; rewrite ?Hq in Hreqs; apply paced_writer; auto.
  - intros ev Hev. specialize (Hlast ev Hev). by subst u.
  - by eapply paced_write.
  - by apply paced_reply.
  - by apply paced_send.
  - by eapply paced_call.
  - by eapply paced_call.
  - unfold readConn. destruct (connRead _ _) as [[c bs] e]. by eapply paced_call.
  - by eapply paced_call.
  - by eapply paced_call.
  - unfold closeConn. destruct (connClose _) as [c e]. by eapply paced_call.
  - by eapply paced_call.
  - by eapply paced_call.
  - by eapply paced_call.
Qed.

Lemma paced_reach c down up t0 st : writerContract → reach (start c down up t0) st → paced st.
Proof.
  intros HC. induction 1 as [|st st' _ IH [Henv|Hrun]]; [|by eapply paced_env|by eapply paced_run].
  split; try done; constructor.
Qed.

Lemma env_Up st st' : envStep st st' → Up st' = Up st.
Proof. by destruct 1. Qed.

Lemma run_Up st st' : run st st' → Up st' = Up st.
Proof.
  destruct 1 as [| | |r res st' Hw Hlen He Hst| | | | | |t len Ht| | |t Ht| | | ]; try done.
  - unfold writeChunk in Hst. destruct (connWrite _ _) as [[? ?] ?]. destruct (zslice _ _ _); [|done].
    by injection Hst as <-.
  - unfold readConn. by destruct (connRead _ _) as [[? ?] ?].
  - unfold closeConn. by destruct (connClose _) as [? ?].
Qed.

Lemma reach_Up c down up t0 st : reach (start c down up t0) st → Up st = up.
Proof.
  induction 1 as [|st st' _ IH [Henv|Hrun]]; [done| |]; rewrite <-IH; [by apply env_Up|by apply run_Up].
Qed.

Lemma byteTime_fast r n : 2 ≤ KBps r → 0 ≤ n ≤ unitSize → byteTime r n = 0.
Proof.
  intros Hk Hn. unfold byteTime. rewrite (proj2 (Z.eqb_neq _ _)) by lia.
  rewrite Z.quot_small by (unfold unitSize in *; lia). done.
Qed.

(** C33. What the delays of a throttled connection are, for an underlying
    connection that keeps the contract of [io.Writer]: no byte of a [Write]
    reaches it before the latency has passed since the call, and between two
    of its writes the byte time of the first passes. At one kilobyte per
    second this is a second after a full chunk; at two and more the truncated
    quotient is 0 for every chunk, so the bandwidth is not limited at all. *)
Theorem writes_are_delayed c down up t0 st :
  writerContract → reach (start c down up t0) st →
  (∀ ev, ev ∈ log st → ∃ s, starts st !! call ev = Some s ∧ s + Latency up ≤ at_ ev) ∧
  (∀ i e1 e2, log st !! i = Some e1 → log st !! S i = Some e2 →
     at_ e1 + byteTime up (zlen (chunk e1)) ≤ at_ e2) ∧
  (∀ k, 0 ≤ k ≤ unitSize → byteTime up k =
     if KBps up =? 1 then (if 1024 <=? k then second else 0)
     else if 2 <=? KBps up then 0 else byteTime up k).
Proof.
  intros HC Hr. pose proof (reach_Up _ _ _ _ _ Hr) as Hu. apply paced_reach in Hr as [H1 _ H3 _ _ _ _]; [|done].
  unfold slot, delayed in *. rewrite Hu in *. split_and!; [|done|].
  - intros ev Hev. rewrite Forall_forall in H3. apply (H3 ev Hev).
  - intros k Hk. destruct (Z.eqb_spec (KBps up) 1) as [Hone|_].
    + unfold byteTime. rewrite Hone. cbn [Z.eqb Pos.eqb]. change (1024 * 1) with 1024. unfold unitSize in Hk.
      destruct (Z.leb_spec 1024 k); [|by rewrite Z.quot_small by lia].
      replace (Z.quot k 1024) with 1; [done|]. apply (Z.quot_unique k 1024 1 (k - 1024)); lia.
    + destruct (Z.leb_spec 2 (KBps up)); [by apply byteTime_fast|done].
Qed.

(** ** Closing *)

(** A call inside the function given to [closeOnce.Do]. *)
Definition closing (q : pc) : bool := match q with ClosingConn | ClosingChan _ | ClosingErr _ => true | _ => false end.

Definition closeOk (st : conn) (q : pc) : Prop :=
  match q with
  | ClosingConn => once st = Running ∧ closes st = 0 ∧ wclosed st = false
  | ClosingChan _ => once st = Running ∧ closes st = 1 ∧ wclosed st = false
  | ClosingErr _ => once st = Running ∧ closes st = 1 ∧ wclosed st = true
  | CloseReturned e => once st = Done ∧ e = closeErr st
  | _ => True
  end.

Record closeInv (st : conn) : Prop := {
  close_calls t q : calls st !! t = Some q → closeOk st q;
  close_one t t' q q' : calls st !! t = Some q → calls st !! t' = Some q' → closing q = true → closing q' = true → t = t';
  close_once : match once st with
               | Fresh => closes st = 0 ∧ wclosed st = false
               | Running => ∃ t q, calls st !! t = Some q ∧ closing q = true
               | Done => closes st = 1 ∧ wclosed st = true
               end;
  close_exited : writer st = Exited → wclosed st = true ∧ wchan st = [];
}.

Definition sameClose (st st' : conn) : Prop :=
  once st' = once st ∧ closes st' = closes st ∧ wclosed st' = wclosed st ∧ closeErr st' = closeErr st.

Lemma closeOk_same st st' q : sameClose st st' → closeOk st q → closeOk st' q.
Proof. intros (H1&H2&H3&H4). by destruct q; cbn; rewrite ?H1, ?H2, ?H3, ?H4. Qed.

(** Steps that have nothing to do with closing; [f] changes the calls. *)
Lemma closeInv_other st st' :
  closeInv st → sameClose st st' → (writer st' = Exited → wclosed st = true ∧ wchan st' = []) →
  (∀ t q, calls st' !! t = Some q → closing q = true → calls st !! t = Some q) →
  (∀ t q, calls st !! t = Some q → closing q = true → calls st' !! t = Some q) →
  (∀ t e, calls st' !! t = Some (CloseReturned e) → closeOk st (CloseReturned e)) → closeInv st'.
Proof.
  intros [H1 H2 H3 H4] Hsame Hw Hold Hnew Hret. pose proof Hsame as (Ho&Hc&Hcl&He). split.
  - intros t q Ht. apply (closeOk_same st); [done|].
    destruct (closing q) eqn:Hq; [by eapply H1, Hold|]. destruct q; try done. by eapply Hret.
  - intros t t' q q' Ht Ht' Hq Hq'. eapply H2; eauto.
  - rewrite Ho, Hc, Hcl. destruct (once st); try done. destruct H3 as (t&q&?&?). exists t, q. auto.
  - rewrite Hcl. exact Hw.
Qed.

(** One call moves from a pc to another, neither of which is one of closing. *)
Lemma closeInv_call st st' t q q' :
  closeInv st → sameClose st st' → (writer st' = Exited → wclosed st = true ∧ wchan st' = []) →
  calls st !! t = Some q → calls st' = <[t := q']> (calls st) → closing q = false → closing q' = false →
  closeOk st q' → closeInv st'.
Proof.
  intros HI Hs Hw Ht Hc Hq Hq' Hr. eapply closeInv_other; [exact HI|exact Hs|exact Hw| | |]; rewrite Hc.
  - intros t0 q0 [(_&<-&_)|[_ H]]%list_lookup_insert_Some Hcl; [congruence|done].
  - intros t0 q0 H Hcl. rewrite list_lookup_insert_ne; [done|]. intros ->. congruence.
  - intros t0 e [(_&<-&_)|[_ H]]%list_lookup_insert_Some; [done|by apply (close_calls _ HI _ _ H)].
Qed.

Lemma closeInv_env st st' : closeInv st → envStep st st' → closeInv st'.
Proof.
  intros HI Hstep. pose proof HI as [_ _ _ Hex].
  assert (∀ q, closing q = false → (∀ e, q ≠ CloseReturned e) → closeInv (newCall st q)) as Hnew.
  { intros q Hq Hr. apply (closeInv_other st); try done; cbn [calls newCall].
    - intros t q0 [H|[_ H]]%lookup_app_Some Hcl; [done|]. apply list_lookup_singleton_Some in H as [_ <-]. congruence.
    - intros t q0 H _. by apply lookup_app_l_Some.
    - intros t e [H|[_ H]]%lookup_app_Some; [by apply (close_calls _ HI _ _ H)|]. apply list_lookup_singleton_Some in H as [_ H]. by destruct (Hr e). }
  destruct Hstep; try (by apply Hnew). apply (closeInv_other st); try done.
  intros t e Ht. by apply (close_calls _ HI _ _ Ht).
Qed.

(** The steps of the one call that runs the function. *)
Lemma closeInv_closing st st' t q q' :
  closeInv st → calls st !! t = Some q → (closing q = true ∨ once st = Fresh) →
  calls st' = <[t := q']> (calls st) → wchan st' = wchan st → writer st' = writer st →
  (wclosed st = true → wclosed st' = true) → closeOk st' q' →
  (once st' = Running ∧ closing q' = true ∨ once st' = Done ∧ closing q' = false ∧ closes st' = 1 ∧ wclosed st' = true) →
  closeInv st'.
Proof.
  intros [H1 H2 H3 H4] Ht Hq Hc Hch Hw Hcl Hok Ho.
  assert (∀ t0 q0, t0 ≠ t → calls st !! t0 = Some q0 → closing q0 = false ∧ ∀ e, q0 ≠ CloseReturned e) as Hothers.
  { intros t0 q0 Hne H0. pose proof (H1 _ _ H0) as Hok0. pose proof (H1 _ _ Ht) as Hokt.
    destruct Hq as [Hq|Hf].
    - split; [|intros e ->; destruct q; cbn in *; try discriminate Hq; destruct Hok0, Hokt; congruence].
      destruct (closing q0) eqn:Hq0; [|done]. by destruct Hne; eapply H2.
    - split; [|intros e ->; destruct Hok0; congruence].
      destruct q0; cbn in *; try done; destruct Hok0; congruence. }
  assert (∀ t0 q0, calls st' !! t0 = Some q0 → (t0 = t ∧ q0 = q') ∨ (t0 ≠ t ∧ closing q0 = false ∧ ∀ e, q0 ≠ CloseReturned e)) as Hlook.
  { intros t0 q0. rewrite Hc. intros [(<-&<-&_)|[Hne H]]%list_lookup_insert_Some; [by left|right].
    split; [done|]. by eapply Hothers. }
  split.
  - intros t0 q0 [[-> ->]|(_&Hn&Hr)]%Hlook; [done|]. destruct q0; try done. by destruct (Hr e).
  - intros t0 t1 q0 q1 [[-> ->]|(?&?&?)]%Hlook [[-> ->]|(?&?&?)]%Hlook ? ?; congruence.
  - destruct Ho as [[-> Hq']|(->&_&?&?)]; [|done]. exists t, q'. split; [|done]. rewrite Hc.
    apply list_lookup_insert_eq. by eapply lookup_lt_Some.
  - rewrite Hw, Hch. intros [? ?]%H4. auto.
Qed.

Lemma closeInv_loop st st' :
  closeInv st → sameClose st st' → calls st' = calls st → (writer st' = Exited → wclosed st = true ∧ wchan st' = []) →
  closeInv st'.
Proof.
  intros HI Hs Hc Hw. apply (closeInv_other st); rewrite ?Hc; try done.
  intros t e H. by apply (close_calls _ HI _ _ H).
Qed.

Lemma answer_closing q res : closing (answer q res) = closing q ∧ (closing q = true → answer q res = q).
Proof. by destruct q as [?|? [?|]|? ? ?| | | | | | | | ]. Qed.

Lemma closeInv_reply st r res : closeInv st → closeInv (reply st r res).
Proof.
  intros HI. apply (closeInv_other st); try done; cbn [calls reply]; intros t q; rewrite list_lookup_alter;
    (case_decide as Ht; [subst t|try done]).
  - intros (q0&H0&->)%fmap_Some Hcl. destruct (answer_closing q0 res) as [Hq Ha]. rewrite Hq in Hcl. by rewrite Ha.
  - intros -> Hcl. cbn. destruct (answer_closing q res) as [_ Ha]. by rewrite Ha.
  - intros (q0&H0&Hq)%fmap_Some. destruct q0 as [?|? [?|]|? ? ?| | | | | | | | ]; try discriminate Hq. injection Hq as ->. by apply (close_calls _ HI _ _ H0).
  - intros H0. by apply (close_calls _ HI _ _ H0).
Qed.

Lemma closeInv_run st st' : writerContract → closeInv st → run st st' → closeInv st'.
Proof.
  intros HC HI Hrun. pose proof HI as [Hcalls _ Honce Hex].
  destruct Hrun as [r q Hw Hq|Hw Hq Hcl|r Hw Hat|r res st' Hw Hlen He Hst|u r res Hw Hu|r res Hw Hend
    |t r Ht Hcl Hlen|t r Ht Hcl|t bs res Ht|t len Ht|t u bs e Ht Hu|t Ht Ho|t Ht|t e Ht|t e Ht|t Ht Ho];
    try (pose proof (Hcalls _ _ Ht) as Hok; cbn in Hok).
  1,2,3,5: by apply (closeInv_loop st).
  - apply writeChunk_inv in Hst as (k&e&u&rest&_&_&_&Hw'&_&_&Hc&_&_&H1&H2&H3&_&_&H4&_); [|done].
    apply (closeInv_loop st); try done. by rewrite Hw'.
  - by apply closeInv_reply.
  - eapply closeInv_call; try done. cbn. intros [? _]%Hex. congruence.
  - by eapply closeInv_call.
  - by eapply closeInv_call.
  - unfold readConn. destruct (connRead _ _) as [[c bs] e]. by eapply closeInv_call.
  - by eapply closeInv_call.
  - rewrite Ho in Honce. eapply closeInv_closing; try done; auto.
  - destruct Hok as (H1&H2&H3). unfold closeConn. destruct (connClose _) as [c e].
    eapply closeInv_closing; try done; cbn; auto. rewrite H2. auto.
  - destruct Hok as (H1&H2&H3). eapply closeInv_closing; try done; cbn; auto.
  - destruct Hok as (H1&H2&H3). eapply closeInv_closing; try done; cbn; auto.
  - by eapply closeInv_call.
Qed.

Lemma closeInv_reach c down up t0 st : writerContract → reach (start c down up t0) st → closeInv st.
Proof.
  intros HC. induction 1 as [|st st' _ IH [Henv|Hrun]]; [|by eapply closeInv_env|by eapply closeInv_run].
  split; cbn; try done.
Qed.

Lemma closed_sends_nothing st st' :
  writerContract → run st st' → wclosed st = true → sent st' = sent st ∧ wclosed st' = true.
Proof.
  intros HC Hrun Hcl.
  destruct Hrun as [| | |r res st' Hw Hlen He Hst| | |t r Ht Hop| | |t len Ht| | |t Ht| | | ]; try done.
  - apply writeChunk_inv in Hst as (k&e&u&rest&_&_&_&_&_&_&_&_&H1&H2&_); [|done]. by rewrite H1, H2.
  - congruence.
  - unfold readConn. by destruct (connRead _ _) as [[? ?] ?].
  - unfold closeConn. by destruct (connClose _) as [? ?].
Qed.

(** A [Write] at its send, with the channel closed. *)
Lemma sending_run st st' t r :
  writerContract → wclosed st = true → calls st !! t = Some (Sending r) → run st st' →
  calls st' !! t = Some (Sending r) ∨ calls st' !! t = Some (Returned (p r) 0 (Some NilErr)).
Proof.
  intros HC Hcl Ht Hrun.
  assert (∀ t' q q' c, calls st !! t' = Some q' → q' ≠ Sending r → c = <[t' := q]> (calls st) → c !! t = Some (Sending r)) as Hne.
  { intros t' q q' c Ht' Hq ->. rewrite list_lookup_insert_ne; [done|congruence]. }
  destruct Hrun as [| | |r0 res st' Hw Hlen He Hst| | |t' r0 Ht' Hop|t' r0 Ht'|t' bs res Ht'|t' len Ht'|t' u bs e Ht'|t' Ht'
    |t' Ht'|t' e Ht'|t' e Ht'|t' Ht'];
    try (left; done); try (left; by eapply Hne).
  - apply writeChunk_inv in Hst as (k&e&u&rest&_&_&_&_&_&_&->&_); [|done]. by left.
  - left. cbn. rewrite list_lookup_alter. case_decide as Hd; [subst t|done]. by rewrite Ht.
  - congruence.
  - cbn. destruct (decide (t' = t)) as [->|Hd]; [right|left; by rewrite list_lookup_insert_ne].
    rewrite list_lookup_insert_eq by (by eapply lookup_lt_Some). congruence.
  - left. unfold readConn. destruct (connRead _ _) as [[? ?] ?]. by eapply Hne.
  - left. unfold closeConn. destruct (connClose _) as [? ?]. by eapply Hne.
Qed.

(** [Close] closes the underlying connection once, however many
    goroutines call it: when one [Close] has returned, it has been closed
    exactly once and the channel is closed, and every [Close] returns the
    error of that one call; from then on no request is sent, and a [Write]
    that has not sent its request cannot do anything but return the error
    made of the panic. *)
Theorem Close_closes_once c down up t0 st :
  writerContract → reach (start c down up t0) st →
  0 ≤ closes st ≤ 1 ∧
  (∀ t e, calls st !! t = Some (CloseReturned e) → closes st = 1 ∧ wclosed st = true ∧ e = closeErr st) ∧
  (wclosed st = true →
     (∀ st', step st st' → sent st' = sent st ∧ wclosed st' = true) ∧
     (∀ t r st', calls st !! t = Some (Sending r) → step st st' →
        calls st' !! t = Some (Sending r) ∨ calls st' !! t = Some (Returned (p r) 0 (Some NilErr)))).
Proof.
  intros HC Hr%closeInv_reach; [|done]. destruct Hr as [H1 H2 H3 H4]. split_and!.
  - destruct (once st); [lia| |lia]. destruct H3 as (t&q&Ht&Hq). apply H1 in Ht. destruct q; cbn in *; try done; lia.
  - destruct (once st); [lia| |lia]. destruct H3 as (t&q&Ht&Hq). apply H1 in Ht. destruct q; cbn in *; try done; lia.
  - intros t e Ht. destruct (H1 _ _ Ht) as [Ho ->]. rewrite Ho in H3. by destruct H3.
  - intros Hcl. split; [intros st' [[]|Hrun]; [done..|by apply closed_sends_nothing]|].
    intros t r st' Ht [[]|Hrun]; try (left; cbn; by apply lookup_app_l_Some || done).
    by apply (sending_run st).
Qed.

(** ** Every call returns *)

(** A bound on the steps that the goroutines have left. *)
Definition queued (r : writeReq) : Z := 2 * zlen (p r) + 5.
Definition writerWork (w : loopPc) : Z :=
  let inner r res := match err res with Some _ => 2 | None => 2 * zlen (p r) + 3 end in
  match w with
  | Ranging => 1
  | Waiting r => queued r
  | Writing r res => inner r res
  | Pacing _ r res => 1 + inner r res
  | Exited => 0
  end.
Definition callWork (q : pc) : Z :=
  match q with
  | Sending r => 3 + queued r
  | Receiving _ None | ReadCalled _ | ClosingChan _ => 2
  | Receiving _ (Some _) | ReadPacing _ _ _ | ClosingErr _ => 1
  | ClosingConn => 3
  | CloseCalled => 4
  | Returned _ _ _ | ReadReturned _ _ | CloseReturned _ => 0
  end.
Definition work (st : conn) : Z := writerWork (writer st) + sumZ queued (wchan st) + sumZ callWork (calls st).

Definition returned (q : pc) : bool :=
  match q with Returned _ _ _ | ReadReturned _ _ | CloseReturned _ => true | _ => false end.

Lemma work_nonneg st : 0 ≤ work st.
Proof.
  unfold work. assert (∀ r, 0 ≤ queued r) as Hq by (intros r; unfold queued; lia).
  assert (0 ≤ sumZ queued (wchan st)) by (by apply sumZ_nonneg).
  assert (0 ≤ sumZ callWork (calls st)).
  { apply sumZ_nonneg. intros q. destruct q as [r|? [?|]|? ? ?| | | | | | | | ]; cbn [callWork]; try lia. specialize (Hq r). lia. }
  assert (0 ≤ writerWork (writer st)); [|lia].
  destruct (writer st) as [|r|r res|u r res|]; cbn; try destruct (err res); try specialize (Hq r); lia.
Qed.

(** A step of one call. *)
Lemma work_call st st' t q q' :
  calls st !! t = Some q → calls st' = <[t := q']> (calls st) → callWork q' < callWork q →
  writer st' = writer st → wchan st' = wchan st → work st' < work st.
Proof.
  intros Ht Hc Hlt Hw Hq. unfold work. rewrite Hc, Hw, Hq, (sumZ_insert _ _ _ q) by done. lia.
Qed.

Lemma work_run st st' : writerContract → run st st' → work st' < work st.
Proof.
  intros HC Hrun.
  destruct Hrun as [r q Hw Hq|Hw Hq Hcl|r Hw Hat|r res st' Hw Hlen He Hst|u r res Hw Hu|r res Hw Hend
    |t r Ht Hcl Hlen|t r Ht Hcl|t bs res Ht|t len Ht|t u bs e Ht Hu|t Ht Ho|t Ht|t e Ht|t e Ht|t Ht Ho].
  - unfold work. cbn [writer wchan calls setWriter]. rewrite Hw, Hq, sumZ_cons. cbn [writerWork]. lia.
  - unfold work. cbn [writer wchan calls setWriter]. rewrite Hw, Hq. cbn [writerWork]. lia.
  - unfold work. cbn [writer wchan calls setWriter]. rewrite Hw. cbn [writerWork err].
    assert (queued r = 2 * zlen (p r) + 5) by done. lia.
  - apply writeChunk_inv in Hst as (k&e&u&rest&Hk&Hke&Hp&Hw'&_&_&Hc&Hq&_); [|done].
    unfold work. rewrite Hw, Hw', Hc, Hq. cbn [writerWork err p]. rewrite He. destruct e as [e|]; [lia|].
    assert (0 < zlen (chunkOf (p r))).
    { unfold chunkOf. destruct (_ <? _); [|done]. rewrite length_take. unfold unitSize. lia. }
    assert (zlen (chunkOf (p r)) ≤ k) by (destruct (Z.le_gt_cases (zlen (chunkOf (p r))) k) as [?|Hlt]; [done|by destruct (Hke Hlt)]).
    apply (f_equal length) in Hp. rewrite length_app in Hp. unfold upto in Hp. rewrite length_take in Hp. lia.
  - unfold work. cbn [writer wchan calls setWriter]. rewrite Hw. cbn [writerWork]. destruct (err res); lia.
  - unfold work, reply. cbn [writer wchan calls]. rewrite Hw.
    assert (1 < writerWork (Writing r res)) by (cbn; destruct (err res); lia).
    assert (sumZ callWork (alter (λ q, answer q res) (resc r) (calls st)) ≤ sumZ callWork (calls st)); [|cbn [writerWork] in *; lia].
    destruct (calls st !! resc r) as [q|] eqn:Hq.
    + rewrite (sumZ_alter _ _ _ _ q) by done. assert (callWork (answer q res) ≤ callWork q); [|lia].
      destruct q as [?|? [?|]|? ? ?| | | | | | | | ]; cbn; lia.
    + apply Z.eq_le_incl. f_equal. apply list_eq. intros j. rewrite list_lookup_alter.
      case_decide; [subst j; by rewrite Hq|done].
  - unfold work. cbn [writer wchan calls enqueue]. rewrite sumZ_app, (sumZ_insert _ _ _ (Sending r)) by done.
    cbn [callWork sumZ foldr]. lia.
  - eapply work_call; [done|done|cbn; unfold queued; lia|done|done].
  - by eapply work_call.
  - unfold readConn. destruct (connRead _ _) as [[? ?] ?]. by eapply work_call.
  - by eapply work_call.
  - by eapply work_call.
  - unfold closeConn. destruct (connClose _) as [? ?]. by eapply work_call.
  - by eapply work_call.
  - by eapply work_call.
  - by eapply work_call.
Qed.

(** Somebody moves, perhaps after some time. *)
Definition moves (st : conn) : Prop := ∃ d st', 0 ≤ d ∧ run (tick d st) st'.

Lemma writeChunk_Some st r res : writerContract → ∃ st', writeChunk st r res = Some st'.
Proof.
  intros HC. unfold writeChunk. specialize (HC (under st) (chunkOf (p r))).
  destruct (connWrite (under st) (chunkOf (p r))) as [[c k] e]. destruct HC as [Hk _].
  destruct (chunkOf_split _ _ Hk) as [Hle _]. rewrite zslice_Some by lia. cbn. eauto.
Qed.

Lemma writer_moves st : writerContract → closeInv st → requests st ≠ [] → moves st.
Proof.
  intros HC HI Hne. unfold requests in Hne. destruct (writer st) as [|r|r res|u r res|] eqn:Hw.
  - destruct (wchan st) as [|r q] eqn:Hq; [done|]. eexists 0, _. split; [done|]. by eapply StepTake.
  - eexists (Z.max 0 (writeAt r - now st)), _. split; [lia|]. eapply StepWake; [exact Hw|]. cbn. lia.
  - destruct (err res) as [e|] eqn:He.
    + eexists 0, _. split; [done|]. eapply StepReply; [exact Hw|]. right. by rewrite He.
    + destruct (p r) as [|b bs] eqn:Hp.
      * eexists 0, _. split; [done|]. eapply StepReply; [exact Hw|by left].
      * destruct (writeChunk_Some (tick 0 st) r res HC) as [st' Hst]. exists 0, st'. split; [done|].
        eapply StepWrite; [exact Hw| |done|done]. rewrite Hp. done.
  - eexists (Z.max 0 (u - now st)), _. split; [lia|]. eapply StepPaced; [exact Hw|]. cbn. lia.
  - apply (close_exited _ HI) in Hw as [_ Hq]. by rewrite Hq in Hne.
Qed.

Lemma closing_moves st t q : calls st !! t = Some q → closing q = true → moves st.
Proof.
  intros Ht Hq. destruct q; try done; eexists 0, _; (split; [done|]).
  - by apply (StepCloseConn (tick 0 st) t).
  - by eapply (StepCloseChan (tick 0 st) t).
  - by eapply (StepCloseErr (tick 0 st) t).
Qed.

Lemma call_moves st d acc t q :
  writerContract → refines st d acc → closeInv st → calls st !! t = Some q → returned q = false → moves st.
Proof.
  intros HC Href HI Ht Hq. destruct (closing q) eqn:Hcl; [by eapply closing_moves|].
  destruct q as [r|bs [res|]|bs k e|len|u bs e|bs e| | |e|e|e]; try done.
  - destruct (wclosed st) eqn:Hc; [eexists 0, _; split; [done|by eapply (StepSendPanics (tick 0 st) t)]|].
    destruct (wchan st) as [|r0 q0] eqn:Hw.
    + eexists 0, _. split; [done|]. eapply (StepSend (tick 0 st) t); [exact Ht|exact Hc|]. cbn. by rewrite Hw.
    + apply writer_moves; [done..|]. unfold requests. rewrite Hw. by destruct (writer st).
  - eexists 0, _. split; [done|]. by eapply (StepReceive (tick 0 st) t).
  - apply (ref_calls _ _ _ Href) in Ht as Hin. cbn in Hin. apply writer_moves; [done..|]. unfold requests.
    destruct (writer st), (wchan st); try done; by apply elem_of_nil in Hin.
  - eexists 0, _. split; [done|]. by eapply (StepRead (tick 0 st) t).
  - eexists (Z.max 0 (u - now st)), _. split; [lia|]. eapply StepReadPaced; [exact Ht|]. cbn. lia.
  - pose proof (close_once _ HI) as Ho. destruct (once st) eqn:Hon.
    + eexists 0, _. split; [done|]. by eapply (StepCloseFirst (tick 0 st) t).
    + destruct Ho as (t'&q'&Ht'&Hq'). by eapply closing_moves.
    + eexists 0, _. split; [done|]. by eapply (StepCloseAgain (tick 0 st) t).
Qed.

(** C22. Every call on a throttled connection returns, if the underlying calls
    do and its [Write] keeps the contract of [io.Writer]: the goroutines have
    at most [work] steps left, whatever the clock does; and while some call
    has not returned, somebody can move, at the latest when the clock has
    passed the end of a sleep. So nobody waits for ever: not a [Write] whose
    channel is full or was closed by [Close], not a request that is still
    queued when the connection is closed. *)
Theorem throttled_calls_return c down up t0 st :
  writerContract → reach (start c down up t0) st →
  (∀ st', run st st' → 0 ≤ work st' < work st) ∧
  (∀ d, work (tick d st) = work st) ∧
  ((∃ t q, calls st !! t = Some q ∧ returned q = false) → ∃ d st', 0 ≤ d ∧ run (tick d st) st').
Proof.
  intros HC Hr. destruct (refines_reach _ _ _ _ _ HC Hr) as (d&acc&_&Href). apply closeInv_reach in Hr as HI; [|done].
  split_and!; [|done|].
  - intros st' Hrun. split; [apply work_nonneg|by apply work_run].
  - intros (t&q&Ht&Hq). by eapply call_moves.
Qed.

End throttle.

(** ** A run

    A connection that keeps what is written, at one kilobyte per second and
    with a latency of 5; one goroutine writes a byte, another one closes the
    connection while the byte is in the channel, a third one writes too late. *)
Module Sample.
Definition w (c : list byte) (bs : list byte) : list byte * Z * option nat := (c ++ bs, zlen bs, None).
Definition r (c : list byte) (_ : Z) : list byte * list byte * option nat := (c, [], None).
Definition cl (c : list byte) : list byte * option nat := (c, Some 7%nat).
Definition up : Rate := {| KBps := 1; Latency := 5 |}.
Definition st0 : conn := start (E := nat) ([] : list byte) {| KBps := 0; Latency := 0 |} up 100.

Lemma contract : writerContract w.
Proof. intros c bs. cbn. lia. Qed.
End Sample.

Ltac tidyThrottle H :=
  match type of H with reach ?w ?r ?c ?s ?x => let v := eval vm_compute in x in change (reach w r c s v) in H end.
Tactic Notation "throttleEnv" uconstr(s) :=
  match goal with H : reach _ _ _ _ _ |- _ =>
    eapply ReachStep in H; [|left; eapply s; try (vm_compute; congruence)]; tidyThrottle H end.
Tactic Notation "throttleRun" uconstr(s) :=
  match goal with H : reach _ _ _ _ _ |- _ =>
    eapply ReachStep in H; [|right; eapply s; try (vm_compute; first [reflexivity|congruence|left; reflexivity])]; tidyThrottle H end.

Lemma sample_run :
  ∃ st, reach Sample.w Sample.r Sample.cl Sample.st0 st ∧
    calls st = [Returned [x61] 1 None; CloseReturned (Some 7%nat); Returned [x62] 0 (Some NilErr); Sending {| writeAt := 110; p := [x63]; resc := 3 |}] ∧
    under st = [x61] ∧ log st = [{| at_ := 105; call := 0; chunk := [x61]; wrote := 1 |}] ∧ wclosed st = true.
Proof.
  pose proof (@ReachInit _ _ Sample.w Sample.r Sample.cl Sample.st0) as H. tidyThrottle H.
  throttleEnv (StepCallWrite _ [x61]). throttleRun (StepSend _ _ _ _ 0%nat).
  throttleEnv (StepCallClose _).
  throttleRun (StepCloseFirst _ _ _ _ 1%nat). throttleRun (StepCloseConn _ _ _ _ 1%nat).
  throttleRun (StepCloseChan _ _ _ _ 1%nat). throttleRun (StepCloseErr _ _ _ _ 1%nat).
  throttleEnv (StepTick _ 5).
  throttleEnv (StepCallWrite _ [x62]). throttleRun (StepSendPanics _ _ _ _ 2%nat).
  throttleRun (StepTake _ _ _ _). throttleRun (StepWake _ _ _ _). throttleRun (StepWrite _ _ _ _).
  throttleRun (StepPaced _ _ _ _). throttleRun (StepReply _ _ _ _).
  throttleRun (StepReceive _ _ _ _ 0%nat).
  throttleEnv (StepCallWrite _ [x63]).
  eexists. split; [exact H|]. split_and!; reflexivity.
Qed.

Lemma writes_refine_atomic_writes_witness :
  ∃ st d acc, reach Sample.w Sample.r Sample.cl Sample.st0 st ∧ rtc atomicWrite [] d ∧
    taken (log st) = stream d ++ acc ∧ Op (E := nat) 0 [x61] 1 None ∈ d.
Proof.
  destruct sample_run as (st&Hr&Hc&_).
  destruct (writes_refine_atomic_writes Sample.w Sample.r Sample.cl Sample.contract) as [_ H].
  destruct (H _ _ _ _ _ Hr) as (d&acc&Hd&Ht&_&_&Hret). exists st, d, acc. split_and!; try done.
  destruct (Hret 0%nat [x61] 1 None) as [(Hx&_)|(e'&He&Hin)]; [by rewrite Hc|done|]. by destruct e'.
Defined.

Lemma writes_are_delayed_witness :
  ∃ st ev, reach Sample.w Sample.r Sample.cl Sample.st0 st ∧ ev ∈ log st ∧
    (∃ s, starts st !! call ev = Some s ∧ s + 5 ≤ at_ ev) ∧ byteTime Sample.up 1400 = second.
Proof.
  destruct sample_run as (st&Hr&_&_&Hl&_). eexists st, _. split; [done|].
  destruct (writes_are_delayed Sample.w Sample.r Sample.cl _ _ _ _ _ Sample.contract Hr) as (H1&_&H3).
  split; [rewrite Hl; by left|]. split; [apply H1; rewrite Hl; by left|]. apply (H3 1400). unfold unitSize. lia.
Defined.

Lemma Close_closes_once_witness :
  ∃ st, reach Sample.w Sample.r Sample.cl Sample.st0 st ∧ calls st !! 1%nat = Some (CloseReturned (Some 7%nat)) ∧
    closes st = 1.
Proof.
  destruct sample_run as (st&Hr&Hc&_). exists st. split; [done|].
  destruct (Close_closes_once Sample.w Sample.r Sample.cl _ _ _ _ _ Sample.contract Hr) as (_&H2&_).
  assert (calls st !! 1%nat = Some (CloseReturned (Some 7%nat))) as H by (by rewrite Hc).
  split; [done|]. by destruct (H2 _ _ H).
Defined.

Lemma throttled_calls_return_witness :
  ∃ st, reach Sample.w Sample.r Sample.cl Sample.st0 st ∧ calls st !! 3%nat ≠ None ∧
    ∃ d st', 0 ≤ d ∧ run Sample.w Sample.r Sample.cl (tick d st) st'.
Proof.
  destruct sample_run as (st&Hr&Hc&_). exists st. split; [done|]. split; [by rewrite Hc|].
  destruct (throttled_calls_return Sample.w Sample.r Sample.cl _ _ _ _ _ Sample.contract Hr) as (_&_&H).
  apply H. eexists 3%nat, _. by rewrite Hc.
Defined.
