(* ===== verification/Filepath.v ===== *)
(** * Paths

    What the packages use of path/filepath (on Unix) and strings: splitting
    and joining, [Clean], [Join], [Dir], [IsAbs] and [SplitList]. *)
From S2P Require Import Prelude.
From Stdlib Require Import Ascii.

(** [strings.Split(s, c)] for a separator of one byte. *)
Fixpoint split (c : ascii) (s : string) : list string :=
  match s with
  | EmptyString => [""%string]
  | String x s' =>
      if decide (x = c) then ""%string :: split c s'
      else match split c s' with
           | h :: t => String x h :: t
           | [] => [String x ""]
           end
  end.

(** [strings.Join(parts, sep)] *)
Definition joinWith (sep : string) (parts : list string) : string := String.concat sep parts.

Definition slash : ascii := "/"%char.

(** [strings.HasPrefix(s, p)] and [strings.HasSuffix(s, p)] *)
Fixpoint HasPrefix (s p : string) {struct p} : bool :=
  match p, s with
  | EmptyString, _ => true
  | String y p', String x s' => bool_decide (x = y) && HasPrefix s' p'
  | _, EmptyString => false
  end.
Definition HasSuffix (s p : string) : bool :=
  bool_decide (String.substring (String.length s - String.length p) (String.length p) s = p) &&
  bool_decide (String.length p ≤ String.length s)%nat.

Definition IsAbs (p : string) : bool :=
  match p with String x _ => bool_decide (x = slash) | EmptyString => false end.

(** One element of a path, against the elements kept so far (last one first). *)
Definition cleanElem (rooted : bool) (kept : list string) (e : string) : list string :=
  if decide (e = "" ∨ e = ".")%string then kept
  else if decide (e = "..")%string then
    match kept with
    | [] => if rooted then [] else [e]
    | k :: rest => if decide (k = "..")%string then e :: kept else rest
    end
  else e :: kept.

(** [filepath.Clean(p)] *)
Definition Clean (p : string) : string :=
  let body := joinWith "/" (rev (foldl (cleanElem (IsAbs p)) [] (split slash p))) in
  if IsAbs p then ("/" +:+ body)%string else if decide (body = "")%string then "." else body.

(** [filepath.Join(elems...)]: leading empty elements are left out. *)
Fixpoint Join (elems : list string) : string :=
  match elems with
  | [] => ""
  | e :: rest => if decide (e = "")%string then Join rest else Clean (joinWith "/" elems)
  end.

(** [filepath.Dir(p)]: up to the last slash, cleaned. *)
Definition Dir (p : string) : string :=
  let parts := split slash p in
  Clean (joinWith "/" (take (length parts - 1) parts) +:+ (if (1 <? length parts)%nat then "/" else "")).

(** [filepath.SplitList(p)] *)
Definition SplitList (p : string) : list string :=
  if decide (p = "")%string then [] else split ":"%char p.

Lemma split_nonempty c s : split c s ≠ [].
Proof. destruct s as [|x s]; cbn; [done|]. case_decide; [done|]. by destruct (split c s). Qed.

Lemma joinWith_cons sep x y l : joinWith sep (x :: y :: l) = (x +:+ sep +:+ joinWith sep (y :: l))%string.
Proof. done. Qed.

(** Splitting and joining again. *)
Lemma join_split c s : joinWith (String c "") (split c s) = s.
Proof.
  induction s as [|x s IH]; [done|]. cbn [split]. pose proof (split_nonempty c s) as Hne. case_decide as Hx.
  - subst. destruct (split c s) as [|y l]; [done|]. rewrite joinWith_cons, IH. done.
  - destruct (split c s) as [|y [|z l]]; [done| |].
    + cbn in *. by rewrite IH.
    + rewrite joinWith_cons. rewrite joinWith_cons in IH. rewrite <-IH. done.
Qed.

Lemma IsAbs_app p q : IsAbs p = true → IsAbs (p +:+ q) = true.
Proof. by destruct p. Qed.

Lemma IsAbs_Clean p : IsAbs (Clean p) = IsAbs p ∨ IsAbs p = false.
Proof. unfold Clean. destruct (IsAbs p) eqn:H; [left|by right]. done. Qed.

Lemma Clean_abs p : IsAbs p = true → IsAbs (Clean p) = true.
Proof. intros H. destruct (IsAbs_Clean p); congruence. Qed.

(** [Join] to an absolute path is absolute. *)
Lemma Join_abs p l : IsAbs p = true → IsAbs (Join (p :: l)) = true.
Proof.
  intros H. cbn [Join]. rewrite decide_False by (by intros ->). apply Clean_abs.
  destruct l as [|q l]; [done|]. rewrite joinWith_cons. by apply IsAbs_app.
Qed.

(** ** Prefixes *)

Lemma HasPrefix_spec s p : HasPrefix s p = true ↔ ∃ t, s = (p +:+ t)%string.
Proof.
  revert s. induction p as [|y p IH]; intros s.
  - split; [by exists s|by destruct s].
  - destruct s as [|x s]; cbn; [split; [done|by intros [t [=]]]|]. rewrite andb_true_iff, bool_decide_eq_true, IH. split.
    + intros [-> [t ->]]. by exists t.
    + intros [t [= -> ->]]. eauto.
Qed.

Lemma HasPrefix_refl s : HasPrefix s s = true.
Proof. induction s as [|x s IH]; [done|]. cbn. by rewrite IH, bool_decide_eq_true_2. Qed.

(** Two prefixes of one string are prefixes of each other. *)
Lemma HasPrefix_comparable s p q : HasPrefix s p = true → HasPrefix s q = true → HasPrefix p q = true ∨ HasPrefix q p = true.
Proof.
  revert p q. induction s as [|x s IH]; intros p q; [destruct p, q; try done; by left|].
  destruct p as [|y p]; [by right; destruct q|]. destruct q as [|z q]; [by left|]. cbn.
  intros [->%bool_decide_eq_true Hp]%andb_prop [->%bool_decide_eq_true Hq]%andb_prop.
  rewrite bool_decide_eq_true_2 by done. cbn. auto.
Qed.

Example Clean_1 : Clean "/a/../b//./c" = "/b/c"%string. Proof. reflexivity. Qed.
Example Clean_2 : Clean "../a/../../b/" = "../../b"%string. Proof. reflexivity. Qed.
Example Clean_3 : Clean "" = "."%string. Proof. reflexivity. Qed.
Example Dir_1 : Dir "/a/b/c" = "/a/b"%string. Proof. reflexivity. Qed.
Example Dir_2 : Dir "/c" = "/"%string. Proof. reflexivity. Qed.
Example Dir_3 : Dir "c" = "."%string. Proof. reflexivity. Qed.
Example Join_1 : Join [""; "home"; "x/.."; "y"] = "home/y"%string. Proof. reflexivity. Qed.
