(* ===== verification/Xdgdir.v ===== *)
(** * xdgdir: base directories

    xdgdir.go: where files are looked up and created. The environment, the
    user and the file system [W] are parameters. *)
From S2P Require Import Prelude Filepath.

Record Dir := MkDir {
  env : string;
  dirsEnv : string;
  fallback : string;
  dirsFallback : list string;
  userOwned : bool }.

(** The directories that [init] sets. *)
Definition Data : Dir := MkDir "XDG_DATA_HOME" "XDG_DATA_DIRS" ".local/share" ["/usr/local/share"; "/usr/share"]%string false.
Definition Config : Dir := MkDir "XDG_CONFIG_HOME" "XDG_CONFIG_DIRS" ".config" ["/etc/xdg"]%string false.
Definition Cache : Dir := MkDir "XDG_CACHE_HOME" "" ".cache" [] false.
Definition Runtime : Dir := MkDir "XDG_RUNTIME_DIR" "" "" [] true.

(** What [os.Stat] says; [Uid] is [None] if [Sys()] is not a [syscall.Stat_t]. *)
Record FileInfo := { IsDir : bool; Perm : Z; Uid : option Z }.

Section xdgdir.
Context {W F E : Type}.
Variable getenv : string → string.
Variable geteuid : Z.
Variable currentHome : option string.                 (* user.Current *)
Variable stat : W → string → option FileInfo.         (* None: an error *)
Variable osOpen : W → string → W * (E + F).
Variable osMkdirAll : W → string → Z → W * option E.
Variable osCreate : W → string → W * (E + F).
Variable isNotExist : E → bool.

(** [d.String()], which panics on the zero [Dir]. *)
Definition DirString (d : Dir) : option string := if decide (env d = "")%string then None else Some (env d).

Definition isValidPath (path : string) : bool := negb (bool_decide (path = "")%string) && IsAbs path.

Definition findHome : string :=
  let h := getenv "HOME" in
  if decide (h = "")%string then default ""%string currentHome else h.

Definition path (d : Dir) : string :=
  let e := getenv (env d) in
  if isValidPath e then e
  else if decide (fallback d = "")%string then ""
  else if decide (findHome = "")%string then ""
  else let p := Join [findHome; fallback d] in if isValidPath p then p else "".

(** A directory that only the user can use: mode 0700 and the user's own. *)
Definition ownedOk (w : W) (p : string) : bool :=
  match stat w p with
  | None => false
  | Some info => IsDir info && (Perm info =? 448) && bool_decide (Uid info = Some geteuid)
  end.

Definition Path (w : W) (d : Dir) : option string :=
  if decide (env d = "")%string then None
  else
    let p := path d in
    Some (if negb (bool_decide (p = "")%string) && userOwned d && negb (ownedOk w p) then ""%string else p).

(** The loop that moves the valid paths to the front of [epaths], which it
    also reads: at iteration [i], [n] of them have been kept. *)
Definition filterBody (st : nat * nat * list string) : option (nat * nat * list string + list string) :=
  let '(i, n, epaths) := st in
  if (i <? length epaths)%nat then
    p ← epaths !! i;
    continue (if isValidPath p then (S i, S n, <[n := p]> epaths) else (S i, n, epaths))
  else break (take n epaths).

Definition SearchPaths (w : W) (d : Dir) : option (list string) :=
  if decide (env d = "")%string then None
  else
    p ← Path w d;
    let paths := if decide (p = "")%string then [] else [p] in
    if decide (dirsEnv d = "")%string then Some paths
    else
      let e := getenv (dirsEnv d) in
      if decide (e = "")%string then Some (paths ++ dirsFallback d)
      else
        let epaths := SplitList e in
        valid ← loop (S (length epaths)) filterBody (0%nat, 0%nat, epaths);
        Some (paths ++ valid).

(** The errors of [Open] and [Create]. *)
Inductive error :=
| ErrZeroDir
| ErrNotSet (name : string) (var : string)
| ErrOS (e : E)
| ErrNotExist (path : string).        (* a PathError with os.ErrNotExist *)

(** The loop over the search paths; [firstErr] as the code has it. *)
Fixpoint openLoop (w : W) (name : string) (firstErr : option E) (paths : list string) : W * (option E + F) :=
  match paths with
  | [] => (w, inl firstErr)
  | p :: paths =>
      match osOpen w (Join [p; name]) with
      | (w, inr f) => (w, inr f)
      | (w, inl err) => openLoop w name (if isNotExist err then firstErr else Some err) paths
      end
  end.

Definition Open (w : W) (d : Dir) (name : string) : option (W * (error + F)) :=
  if decide (env d = "")%string then Some (w, inl ErrZeroDir)
  else
    paths ← SearchPaths w d;
    match paths with
    | [] => Some (w, inl (ErrNotSet name (env d)))
    | _ =>
        match openLoop w name None paths with
        | (w, inr f) => Some (w, inr f)
        | (w, inl (Some e)) => Some (w, inl (ErrOS e))
        | (w, inl None) => Some (w, inl (ErrNotExist (Join [("$" +:+ env d)%string; name])))
        end
    end.

Definition Create (w : W) (d : Dir) (name : string) : option (W * (error + F)) :=
  if decide (env d = "")%string then Some (w, inl ErrZeroDir)
  else
    p ← Path w d;
    if decide (p = "")%string then Some (w, inl (ErrNotSet name (env d)))
    else
      let fp := Join [p; name] in
      match osMkdirAll w (Filepath.Dir fp) 448 with
      | (w, Some e) => Some (w, inl (ErrOS e))
      | (w, None) =>
          match osCreate w fp with
          | (w, inl e) => Some (w, inl (ErrOS e))
          | (w, inr f) => Some (w, inr f)
          end
      end.

(** ** Search paths *)

Lemma filterBody_filter epaths0 i n epaths :
  (n ≤ i ≤ length epaths0)%nat → length epaths = length epaths0 →
  take n epaths = List.filter isValidPath (take i epaths0) → drop i epaths = drop i epaths0 →
  wp (loop (S (length epaths0) - i) filterBody (i, n, epaths)) (λ r, r = List.filter isValidPath epaths0).
Proof.
  intros Hn Hl Ht Hd.
  apply (wp_loop
    (λ '(i, n, epaths), (n ≤ i ≤ length epaths0)%nat ∧ length epaths = length epaths0 ∧
       take n epaths = List.filter isValidPath (take i epaths0) ∧ drop i epaths = drop i epaths0)
    (λ '(i, n, epaths), (length epaths0 - i)%nat)); [|done|lia].
  clear. intros [[i n] epaths] (Hn&Hl&Ht&Hd). unfold filterBody. destruct (Nat.ltb_spec i (length epaths)) as [Hi|Hi].
  - destruct (lookup_lt_is_Some_2 epaths i) as [p Hp]; [lia|]. rewrite Hp. cbn [mbind option_bind].
    assert (epaths0 !! i = Some p) as Hp0.
    { rewrite <-(Nat.add_0_r i), <-lookup_drop, <-Hd, lookup_drop, Nat.add_0_r. exact Hp. }
    assert (drop (S i) epaths = drop (S i) epaths0) as Hd' by (rewrite <-(Nat.add_1_r i), <-!drop_drop, Hd; done).
    pose proof (take_S_r epaths0 i p Hp0) as HS.
    apply wp_continue. destruct (isValidPath p) eqn:Hv; cbn [wp]; (split; [|lia]); split_and!; try lia; try done.
    + by rewrite length_insert.
    + rewrite (take_S_r _ n p) by (apply list_lookup_insert_eq; lia).
      rewrite take_insert_ge by lia. rewrite Ht, HS, List.filter_app. cbn. by rewrite Hv.
    + rewrite drop_insert_lt by lia. done.
    + rewrite Ht, HS, List.filter_app. cbn. by rewrite Hv, app_nil_r.
  - apply wp_break. rewrite Ht. by rewrite (take_ge epaths0) by lia.
Qed.

Lemma Path_valid w d p : Path w d = Some p → p = ""%string ∨ IsAbs p = true.
Proof.
  unfold Path. case_decide; [done|]. intros [= <-].
  assert (path d = ""%string ∨ IsAbs (path d) = true) as [Hp|Hp].
  { unfold path. destruct (isValidPath (getenv (env d))) eqn:Hv; [right; by apply andb_prop in Hv as [_ ?]|].
    repeat case_decide; auto. destruct (isValidPath (Join _)) eqn:Hj; [right; by apply andb_prop in Hj as [_ ?]|auto]. }
  - rewrite Hp. by left.
  - destruct (negb _ && _ && _); auto.
Qed.

(** What the search paths are meant to be. *)
Definition searchPathsSpec (w : W) (d : Dir) : option (list string) :=
  if decide (env d = "")%string then None
  else
    p ← Path w d;
    Some ((if decide (p = "")%string then [] else [p]) ++
          if decide (dirsEnv d = "")%string then []
          else if decide (getenv (dirsEnv d) = "")%string then dirsFallback d
          else List.filter isValidPath (SplitList (getenv (dirsEnv d)))).

Lemma SearchPaths_spec w d : SearchPaths w d = searchPathsSpec w d.
Proof.
  unfold SearchPaths, searchPathsSpec. case_decide; [done|]. destruct (Path w d) as [p|]; [|done]. cbn [mbind option_bind].
  destruct (decide (dirsEnv d = "")%string); [by rewrite app_nil_r|].
  destruct (decide (getenv (dirsEnv d) = "")%string); [done|].
  set (l := SplitList _). pose proof (filterBody_filter l 0 0 l) as Hl. rewrite Nat.sub_0_r in Hl.
  destruct (wp_elim _ _ (Hl ltac:(lia) eq_refl eq_refl eq_refl)) as (r&->&->). done.
Qed.

Lemma SearchPaths_total w d : env d ≠ ""%string → ∃ ps, SearchPaths w d = Some ps.
Proof.
  intros Hne. rewrite SearchPaths_spec. unfold searchPathsSpec, Path.
  rewrite !(decide_False _ _ Hne). eexists. reflexivity.
Qed.

(** The search paths of a directory: on the zero [Dir] the code panics;
    else they are the primary directory if there is a suitable one (for a
    directory the user must own, an existing one with mode 0700 that belongs
    to the effective user), then the absolute paths of the variable in their
    order, or the fallbacks if it is not set. The loop that filters the
    variable's list while it overwrites it does filter it. All of the paths are
    absolute if the fallbacks are, and those of the package are. *)
Theorem SearchPaths_correct w d :
  SearchPaths w d = searchPathsSpec w d ∧
  (Forall (λ p, IsAbs p = true) (dirsFallback d) →
     ∀ ps, SearchPaths w d = Some ps → Forall (λ p, IsAbs p = true) ps) ∧
  (∀ p, Path w d = Some p → p ≠ ""%string → userOwned d = true →
     ∃ info, stat w p = Some info ∧ IsDir info = true ∧ Perm info = 7 * 64 ∧ Uid info = Some geteuid) ∧
  Forall (λ d, env d ≠ ""%string ∧ Forall (λ p, IsAbs p = true) (dirsFallback d)) [Data; Config; Cache; Runtime].
Proof.
  split; [apply SearchPaths_spec|split_and!].
  - intros Hf ps. rewrite SearchPaths_spec. unfold searchPathsSpec. case_decide; [done|]. destruct (Path w d) as [p|] eqn:Hp; [|done].
    intros [= <-]. apply Forall_app. split.
    + case_decide; constructor; [|constructor]. by destruct (Path_valid _ _ _ Hp).
    + repeat case_decide; [constructor|done|]. apply Forall_forall. intros x Hx%list_elem_of_In%filter_In.
      destruct Hx as [_ Hx]. by apply andb_prop in Hx as [_ ?].
  - intros p. unfold Path. case_decide; [done|]. intros [= <-] Hne Ho.
    destruct (ownedOk w (path d)) eqn:Hok.
    + rewrite andb_false_r in Hne |- *. unfold ownedOk in Hok. destruct (stat w (path d)) as [info|]; [|done].
      exists info. apply andb_prop in Hok as [[Hd Hperm]%andb_prop Hu%bool_decide_eq_true]. split_and!; try done. lia.
    + rewrite Ho in Hne. destruct (bool_decide _) eqn:Hb; [|done]. by apply bool_decide_eq_true in Hb.
  - repeat constructor; discriminate.
Qed.

(** ** Opening *)

(** No path of a list has the file: the errors, and what the attempts make of the world. *)
Inductive failed (name : string) : W → list string → list E → W → Prop :=
| FailedNil w : failed name w [] [] w
| FailedCons w p e w1 ps es w2 :
    osOpen w (Join [p; name]) = (w1, inl e) → failed name w1 ps es w2 → failed name w (p :: ps) (e :: es) w2.

(** The last error other than that the file does not exist. *)
Definition lastOther (es : list E) : option E := last (List.filter (λ e, negb (isNotExist e)) es).

Lemma lastOther_None es : lastOther es = None → Forall (λ e, isNotExist e = true) es.
Proof.
  intros H%last_None. induction es as [|e es IH]; [constructor|]. cbn in H.
  destruct (isNotExist e) eqn:He; [|done]. constructor; auto.
Qed.

Lemma openLoop_spec w name first paths :
  (∃ pre p post es w1 w2 f, paths = pre ++ p :: post ∧ failed name w pre es w1 ∧
     osOpen w1 (Join [p; name]) = (w2, inr f) ∧ openLoop w name first paths = (w2, inr f)) ∨
  (∃ es w2, failed name w paths es w2 ∧
     openLoop w name first paths = (w2, inl (match lastOther es with Some e => Some e | None => first end))).
Proof.
  revert w first. induction paths as [|p paths IH]; intros w first.
  - right. exists [], w. split; [constructor|done].
  - cbn [openLoop]. destruct (osOpen w (Join [p; name])) as [w1 [e|f]] eqn:Ho.
    + destruct (IH w1 (if isNotExist e then first else Some e)) as [(pre&q&post&es&w2&w3&f&->&Hf&Hq&->)|(es&w2&Hf&->)].
      * left. exists (p :: pre), q, post, (e :: es), w2, w3, f. split_and!; try done. by econstructor.
      * right. exists (e :: es), w2. split; [by econstructor|]. do 2 f_equal. unfold lastOther. cbn.
        destruct (isNotExist e); cbn; [done|].
        rewrite last_cons. by destruct (last _).
    + left. exists [], p, paths, [], w, w1, f. split_and!; try done. constructor.
Qed.

(** [Open] opens the first search path that has the file: it returns (and
    does not panic), tries the paths in their order and stops at the first
    success. When there is none, the result is the error that the file does
    not exist if that is what every attempt said, and otherwise the last of
    the other errors (the variable that keeps it is called firstErr); without
    any search path nothing is tried. *)
Theorem Open_opens_first_found w d name :
  env d ≠ ""%string →
  ∃ paths w' r, SearchPaths w d = Some paths ∧ Open w d name = Some (w', r) ∧
  match r with
  | inr f => ∃ pre p post es w1, paths = pre ++ p :: post ∧ failed name w pre es w1 ∧
      osOpen w1 (Join [p; name]) = (w', inr f)
  | inl (ErrNotSet n v) => paths = [] ∧ w' = w ∧ n = name ∧ v = env d
  | inl (ErrOS e) => ∃ es, failed name w paths es w' ∧ lastOther es = Some e
  | inl (ErrNotExist _) => ∃ es, failed name w paths es w' ∧ es ≠ [] ∧ Forall (λ e, isNotExist e = true) es
  | inl ErrZeroDir => False
  end.
Proof.
  intros Hne. pose proof (SearchPaths_total w d Hne) as [paths Hs]. exists paths.
  unfold Open. rewrite decide_False by done. rewrite Hs. cbn [mbind option_bind].
  destruct paths as [|p0 ps]; [eexists _, _; split_and!; done|]. set (paths := p0 :: ps).
  destruct (openLoop_spec w name None paths) as [(pre&p&post&es&w1&w2&f&Hp&Hf&Ho&->)|(es&w2&Hf&->)].
  - eexists _, _. split_and!; try done. by exists pre, p, post, es, w1.
  - destruct (lastOther es) as [e|] eqn:He; eexists _, _; split_and!; try done; exists es; [done|].
    split_and!; [done|by inversion Hf|]. by apply lastOther_None.
Qed.

(** [Create] makes the file inside the primary directory, which is absolute,
    after the directories above it; without one it does nothing. *)
Lemma Create_in_primary w d name :
  env d ≠ ""%string →
  ∃ p, Path w d = Some p ∧
  if decide (p = "")%string then Create w d name = Some (w, inl (ErrNotSet name (env d)))
  else IsAbs (Join [p; name]) = true ∧
    ∃ w' r, Create w d name = Some (w', r) ∧
    match r with
    | inr f => ∃ w1, osMkdirAll w (Filepath.Dir (Join [p; name])) 448 = (w1, None) ∧
        osCreate w1 (Join [p; name]) = (w', inr f)
    | inl (ErrOS e) => osMkdirAll w (Filepath.Dir (Join [p; name])) 448 = (w', Some e) ∨
        ∃ w1, osMkdirAll w (Filepath.Dir (Join [p; name])) 448 = (w1, None) ∧ osCreate w1 (Join [p; name]) = (w', inl e)
    | inl _ => False
    end.
Proof.
  intros Hne. assert (∃ p, Path w d = Some p) as [p Hp] by (unfold Path; rewrite (decide_False _ _ Hne); eauto).
  exists p. split; [done|]. unfold Create. rewrite (decide_False _ _ Hne), Hp. cbn [mbind option_bind].
  case_decide as He; [done|]. split.
  - destruct (Path_valid _ _ _ Hp) as [?|?]; [done|by apply Join_abs].
  - destruct (osMkdirAll w _ 448) as [w1 [e|]] eqn:Hm; [eexists _, _; split; [done|by left]|].
    destruct (osCreate w1 _) as [w2 [e|f]] eqn:Hc; eexists _, _; (split; [done|]);
      [right|]; by exists w1.
Qed.

End xdgdir.

(** A user with a home directory and [XDG_DATA_DIRS]: the first path cannot be
    read, the third has the file. *)
Definition sampleEnv (v : string) : string :=
  if decide (v = "HOME")%string then "/home/u"
  else if decide (v = "XDG_DATA_DIRS")%string then "/a:b:/c" else "".
Definition sampleOpen (n : nat) (p : string) : nat * (bool + string) :=
  (S n, if decide (p = "/c/f")%string then inr p else inl (bool_decide (p = "/a/f")%string)).

Lemma Open_opens_first_found_witness :
  SearchPaths sampleEnv 0 None (λ _ _, None) 0%nat Data = Some ["/home/u/.local/share"; "/a"; "/c"]%string ∧
  ∃ w' f, Open sampleEnv 0 None (λ _ _, None) sampleOpen id 0%nat Data "f" = Some (w', inr f) ∧
    failed sampleOpen "f" 0%nat ["/home/u/.local/share"; "/a"]%string [false; true] 2%nat ∧ f = "/c/f"%string.
Proof.
  split; [vm_compute; reflexivity|].
  destruct (Open_opens_first_found sampleEnv 0 None (λ _ _, None) sampleOpen id 0%nat Data "f") as (paths&w'&r&Hs&Ho&Hr); [discriminate|].
  exists 3%nat, "/c/f"%string. split_and!; [vm_compute; reflexivity| |done].
  repeat (econstructor; [vm_compute; reflexivity|]). constructor.
Defined.

Lemma SearchPaths_correct_witness :
  Forall (λ p, IsAbs p = true) ["/home/u/.local/share"; "/a"; "/c"]%string.
Proof.
  destruct (SearchPaths_correct (W := nat) sampleEnv 0 None (λ _ _, None) 0%nat Data) as (_&H&_).
  apply H; [repeat constructor|vm_compute; reflexivity].
Defined.
