(* ===== verification/Wkfs.v ===== *)
(** * wkfs: well-known file systems

    wkfs.go: file operations go to the file system that is registered for a
    prefix of the path, or to the operating system. The state of the world [W]
    is threaded through every operation. *)
From S2P Require Import Prelude GoIO Filepath.

Inductive error :=
| ErrShortWrite | ErrNotExist | ErrExist
| ErrRead (e : GoIO.error)
| ErrText (msg : string).

Record FileInfo := { Name : string; Size : Z; Mode : Z; IsDir : bool }.

(** [os.O_WRONLY] and so on *)
Definition O_WRONLY : Z := 1.
Definition O_CREATE : Z := 64.
Definition O_EXCL : Z := 128.
Definition O_TRUNC : Z := 512.

(** The methods that are used of a [File]: its [Read]s, as a stream from the
    offset at which it is opened, and [Close]. *)
Record File (W : Type) := { data : stream; closeFile : W → W * option error }.
Record FileWriter (W : Type) := { write : W → list byte → W * Z * option error; closeWriter : W → W * option error }.
Arguments data {W} _.
Arguments closeFile {W} _ _.
Arguments write {W} _ _ _.
Arguments closeWriter {W} _ _.

Record FileSystem (W : Type) := {
  fsOpen : W → string → W * (error + File W);
  fsOpenFile : W → string → Z → Z → W * (error + FileWriter W);
  fsStat : W → string → W * (error + FileInfo);
  fsLstat : W → string → W * (error + FileInfo);
  fsMkdirAll : W → string → Z → W * option error;
  fsRemove : W → string → W * option error }.
Arguments fsOpen {W} _ _ _.
Arguments fsOpenFile {W} _ _ _ _ _.
Arguments fsStat {W} _ _ _.
Arguments fsLstat {W} _ _ _.
Arguments fsMkdirAll {W} _ _ _ _.
Arguments fsRemove {W} _ _ _.

(** [ioutil.ReadAll] of a stream *)
Definition ReadAll (s : stream) : list byte * option error :=
  (pendingBytes s, if decide (final s = EOF) then None else Some (ErrRead (final s))).

(** [ioutil.ReadAll(io.LimitReader(s, n))] *)
Definition ReadAllLimit (s : stream) (n : Z) : list byte * option error :=
  if n <=? zlen (pendingBytes s) then (take (Z.to_nat n) (pendingBytes s), None) else ReadAll s.

Section wkfs.
Context {W : Type}.
Variable osFS : FileSystem W.                     (* the functions of package os *)

(** The type of [wkFS]. *)
Abbreviation registry := (gmap string (FileSystem W)).

(** [RegisterFS(prefix, fs)], with its two panics. *)
Definition RegisterFS (m : registry) (prefix : string) (f : FileSystem W) : option registry :=
  if negb (HasPrefix prefix "/") || negb (HasSuffix prefix "/") then None
  else match m !! prefix with Some _ => None | None => Some (<[prefix := f]> m) end.

(** [fs(name)]. The range over the map has some [order] of its entries. *)
Fixpoint fs (order : list (string * FileSystem W)) (name : string) : FileSystem W :=
  match order with
  | [] => osFS
  | (pfx, f) :: order => if HasPrefix name pfx then f else fs order name
  end.

Definition orderOf (m : registry) (order : list (string * FileSystem W)) : Prop := order ≡ₚ map_to_list m.

Section calls.
Variable order : list (string * FileSystem W).

Definition Open (w : W) (name : string) := fsOpen (fs order name) w name.
Definition Stat (w : W) (name : string) := fsStat (fs order name) w name.
Definition Lstat (w : W) (name : string) := fsLstat (fs order name) w name.
Definition MkdirAll (w : W) (path : string) (perm : Z) := fsMkdirAll (fs order path) w path perm.
Definition OpenFile (w : W) (name : string) (flag perm : Z) := fsOpenFile (fs order name) w name flag perm.
Definition Remove (w : W) (name : string) := fsRemove (fs order name) w name.
Definition Create (w : W) (name : string) :=
  OpenFile w name (Z.lor O_WRONLY (Z.lor O_CREATE O_TRUNC)) 438.

Definition WriteFile (w : W) (filename : string) (bs : list byte) (perm : Z) : W * option error :=
  match OpenFile w filename (Z.lor O_WRONLY (Z.lor O_CREATE O_TRUNC)) perm with
  | (w, inl err) => (w, Some err)
  | (w, inr f) =>
      let '(w, n, err) := write f w bs in
      let err := match err with None => if n <? zlen bs then Some ErrShortWrite else None | _ => err end in
      let '(w, err1) := closeWriter f w in
      (w, match err with None => err1 | _ => err end)
  end.

(** [ReadFile]: the bytes read are returned with an error of the reader too. *)
Definition ReadFile (w : W) (filename : string) : W * (list byte * option error) :=
  match Open w filename with
  | (w, inl err) => (w, ([], Some err))
  | (w, inr f) =>
      let r := ReadAll (data f) in
      let '(w, _) := closeFile f w in
      (w, r)
  end.

End calls.

(** ** Dispatch *)

Inductive registered : registry → Prop :=
| RegisteredNone : registered ∅
| RegisteredFS m prefix f m' : registered m → RegisterFS m prefix f = Some m' → registered m'.

(** No registered prefix is a prefix of another one. *)
Definition prefixFree (m : registry) : Prop :=
  ∀ p q, is_Some (m !! p) → is_Some (m !! q) → HasPrefix p q = true → p = q.

Lemma registered_slashes m p : registered m → is_Some (m !! p) → HasPrefix p "/" = true ∧ HasSuffix p "/" = true.
Proof.
  intros Hm. induction Hm as [|m prefix f m' Hm IH Hreg]; intros Hp.
  - rewrite lookup_empty in Hp. by destruct Hp.
  - unfold RegisterFS in Hreg. destruct (negb _ || negb _) eqn:Hs; [done|].
    destruct (m !! prefix) eqn:Hl; [done|]. injection Hreg as <-.
    destruct (decide (p = prefix)) as [->|Hne]; [|rewrite lookup_insert_ne in Hp by done; auto].
    apply orb_false_iff in Hs as [?%negb_false_iff ?%negb_false_iff]. done.
Qed.

Lemma fs_cases order name :
  (∃ pfx, (pfx, fs order name) ∈ order ∧ HasPrefix name pfx = true) ∨
  (fs order name = osFS ∧ ∀ pfx f, (pfx, f) ∈ order → HasPrefix name pfx = false).
Proof.
  induction order as [|[pfx f] order IH]; cbn [fs].
  - right. split; [done|]. intros pfx f H. by apply elem_of_nil in H.
  - destruct (HasPrefix name pfx) eqn:Hp; [left; exists pfx; split; [by left|done]|].
    destruct IH as [(q&Hq&?)|[-> Hn]]; [left; exists q; split; [by right|done]|right].
    split; [done|]. intros q g [[= -> ->]|H]%elem_of_cons; [done|eauto].
Qed.

(** The file system of the one prefix that matches. *)
Lemma fs_of_prefix m order name pfx f :
  orderOf m order → prefixFree m → m !! pfx = Some f → HasPrefix name pfx = true → fs order name = f.
Proof.
  intros Ho Hfree Hf Hp.
  assert (∀ q g, (q, g) ∈ order ↔ m !! q = Some g) as Hin.
  { intros q g. rewrite <-elem_of_map_to_list. unfold orderOf in Ho. by rewrite Ho. }
  destruct (fs_cases order name) as [(q&Hq&Hnq)|[_ Hn]].
  - apply Hin in Hq. assert (q = pfx) as ->; [|congruence].
    destruct (HasPrefix_comparable name q pfx Hnq Hp); [apply Hfree|symmetry; apply Hfree]; eauto.
  - apply Hin, Hn in Hf. congruence.
Qed.

(** Where an operation goes, whatever the order in which the range over
    the map of file systems proceeds: to a file system registered for a prefix
    of the path, which starts and ends with a slash, or to the operating
    system if there is none. If no registered prefix is a prefix of another
    one, the file system is determined by the path; with such a pair, two
    orders give different file systems for the longer prefix. *)
Theorem fs_dispatches m order name :
  registered m → orderOf m order →
  ((∃ pfx, m !! pfx = Some (fs order name) ∧ HasPrefix name pfx = true ∧
      HasPrefix pfx "/" = true ∧ HasSuffix pfx "/" = true) ∨
   (fs order name = osFS ∧ ∀ pfx, is_Some (m !! pfx) → HasPrefix name pfx = false)) ∧
  (prefixFree m → ∀ order', orderOf m order' → fs order' name = fs order name) ∧
  (∀ p q f g, m !! p = Some f → m !! q = Some g → p ≠ q → HasPrefix p q = true →
     ∃ o1 o2, orderOf m o1 ∧ orderOf m o2 ∧ fs o1 p = f ∧ fs o2 p = g).
Proof.
  intros Hm Ho.
  assert (∀ o pfx f, orderOf m o → (pfx, f) ∈ o ↔ m !! pfx = Some f) as Hin.
  { intros o pfx f Ho'. rewrite <-elem_of_map_to_list. unfold orderOf in Ho'. by rewrite Ho'. }
  split_and!.
  - destruct (fs_cases order name) as [(pfx&Hp&?)|[-> Hn]].
    + left. apply (Hin _ _ _ Ho) in Hp. exists pfx. split_and!; try done; by eapply registered_slashes.
    + right. split; [done|]. intros pfx [f Hf]. eapply Hn. by apply (Hin _ _ _ Ho).
  - intros Hfree o' Ho'.
    destruct (fs_cases order name) as [(p&Hp&Hnp)|[-> Hn]].
    + apply (Hin _ _ _ Ho) in Hp. by apply (fs_of_prefix m _ _ p).
    + destruct (fs_cases o' name) as [(q&Hq&Hnq)|[Hq _]]; [|done].
      apply (Hin _ _ _ Ho'), (Hin _ _ _ Ho), Hn in Hq. congruence.
  - intros p q f g Hp Hq Hne Hpq.
    exists ((p, f) :: map_to_list (delete p m)), ((q, g) :: map_to_list (delete q m)). split_and!.
    + unfold orderOf. by apply map_to_list_delete.
    + unfold orderOf. by apply map_to_list_delete.
    + cbn. by rewrite HasPrefix_refl.
    + cbn. by rewrite Hpq.
Qed.

End wkfs.

(** Two file systems whose prefixes overlap. *)
Lemma fs_dispatches_witness :
  let fs_ k : FileSystem nat :=
    {| fsOpen := λ w _, (w, inl ErrNotExist); fsOpenFile := λ w _ _ _, (w, inl ErrNotExist);
       fsStat := λ w _, (w, inl ErrNotExist); fsLstat := λ w _, (w, inl ErrNotExist);
       fsMkdirAll := λ w _ _, (k, None); fsRemove := λ w _, (k, None) |} in
  let m := <["/a/b/"%string := fs_ 2%nat]> {["/a/"%string := fs_ 1%nat]} in
  ∃ o1 o2, orderOf m o1 ∧ orderOf m o2 ∧
    MkdirAll (fs_ 0%nat) o1 0%nat "/a/b/" 0 = (2%nat, None) ∧ MkdirAll (fs_ 0%nat) o2 0%nat "/a/b/" 0 = (1%nat, None).
Proof.
  intros fs_ m.
  assert (registered m) as Hm.
  { apply (RegisteredFS {["/a/"%string := fs_ 1%nat]} "/a/b/" (fs_ 2%nat)); [|vm_compute; reflexivity].
    apply (RegisteredFS ∅ "/a/" (fs_ 1%nat)); [constructor|vm_compute; reflexivity]. }
  destruct (fs_dispatches (fs_ 0%nat) m (map_to_list m) "/a/b/" Hm (Permutation_refl _)) as (_&_&H).
  destruct (H "/a/b/"%string "/a/"%string (fs_ 2%nat) (fs_ 1%nat)) as (o1&o2&H1&H2&Hf&Hg); [reflexivity|reflexivity|discriminate|reflexivity|].
  exists o1, o2. unfold MkdirAll. rewrite Hf, Hg. done.
Defined.
