(* ===== verification/Gcs.v ===== *)
(** * wkfs/gcs: Google Cloud Storage as a file system

    gcs.go: the file system that is registered for /gcs/, over a storage
    client that is a parameter; the laws of the client are those that its
    documentation gives for objects. *)
From S2P Require Import Prelude GoIO Filepath Wkfs.

Definition maxSize : Z := Z.shiftl 1 20.

(** [path.Base] *)
Definition Base (p : string) : string :=
  if decide (p = "")%string then "."
  else match rev (List.filter (λ e, negb (bool_decide (e = "")%string)) (split slash p)) with
       | [] => "/"
       | e :: _ => e
       end.

(** The index of the first [c] in a string ([strings.Index]). *)
Fixpoint indexChar (c : Ascii.ascii) (s : string) : option nat :=
  match s with
  | EmptyString => None
  | String x s => if decide (x = c) then Some 0%nat else S <$> indexChar c s
  end.

(** [strings.TrimPrefix(s, p)] *)
Definition TrimPrefix (s p : string) : string :=
  if HasPrefix s p then String.substring (String.length p) (String.length s - String.length p) s else s.

Section gcs.
Context {W H : Type}.

(** The client: attributes, readers, writers and deletion of objects. *)
Record Client := {
  attrs : W → string → string → W * (error + (string * Z));      (* the name and the size *)
  newReader : W → string → string → W * (error + File W);
  newWriter : W → string → string → W * H;
  writeObj : W → H → list byte → W * Z * option error;
  closeObj : W → H → W * option error;
  delete : W → string → string → W * option error }.

Variable errObjectNotExist : error.                              (* storage.ErrObjectNotExist *)
#[local] Instance error_decision (e1 e2 : error) : Decision (e1 = e2).
Proof. solve_decision. Defined.

(** [gcsFS] with its client, or with its sticky error. *)
Record gcsFS := { sc : Client; err : option error }.

Definition parseName (f : gcsFS) (name : string) : error + (string * string) :=
  match err f with
  | Some e => inl e
  | None =>
      let name := TrimPrefix name "/gcs/" in
      match indexChar slash name with
      | None => inr (name, ""%string)
      | Some i => inr (String.substring 0 i name, String.substring (S i) (String.length name - S i) name)
      end
  end.

(** A [file] over the bytes that were read; its [Close] does nothing. *)
Definition file (slurp : list byte) : File W :=
  {| data := Stream [slurp] EOF; closeFile := λ w, (w, None) |}.
Definition fileName (name : string) : string := Base name.
Definition fileStat (name : string) : option FileInfo := None.    (* panics *)

Definition gcsOpen (f : gcsFS) (w : W) (name : string) : W * (error + File W) :=
  match parseName f name with
  | inl e => (w, inl e)
  | inr (bucket, fileName) =>
      match attrs (sc f) w bucket fileName with
      | (w, inl e) => (w, inl e)
      | (w, inr (_, size)) =>
          if maxSize <? size then (w, inl (ErrText "file %s too large (%d bytes) for /gcs/ filesystem"))
          else
            match newReader (sc f) w bucket fileName with
            | (w, inl e) => (w, inl e)
            | (w, inr rc) =>
                let '(slurp, e) := ReadAllLimit (data rc) size in
                let '(w, _) := closeFile rc w in
                (w, match e with Some e => inl e | None => inr (file slurp) end)
            end
      end
  end.

Definition statInfo (name : string) (size : Z) : FileInfo :=
  {| Name := Base name; Size := size; Mode := 420; IsDir := false |}.

Definition gcsLstat (f : gcsFS) (w : W) (name : string) : W * (error + FileInfo) :=
  match parseName f name with
  | inl e => (w, inl e)
  | inr (bucket, fileName) =>
      match attrs (sc f) w bucket fileName with
      | (w, inl e) => (w, inl (if decide (e = errObjectNotExist) then ErrNotExist else e))
      | (w, inr (n, s)) => (w, inr (statInfo n s))
      end
  end.
Definition gcsStat := gcsLstat.

Definition gcsMkdirAll (f : gcsFS) (w : W) (path : string) (perm : Z) : W * option error := (w, None).

(** [fs.sc.Bucket(bucket).Object(fileName).NewWriter(fs.ctx)] *)
Definition gcsWriter (f : gcsFS) (w : W) (bucket fileName : string) : W * FileWriter W :=
  let '(w, h) := newWriter (sc f) w bucket fileName in
  (w, {| write := λ w p, writeObj (sc f) w h p; closeWriter := λ w, closeObj (sc f) w h |}).

Definition gcsOpenFile (f : gcsFS) (w : W) (name : string) (flag perm : Z) : W * (error + FileWriter W) :=
  match parseName f name with
  | inl e => (w, inl e)
  | inr (bucket, fileName) =>
      if (flag =? Z.lor O_WRONLY (Z.lor O_CREATE O_EXCL)) || (flag =? Z.lor O_WRONLY (Z.lor O_CREATE O_TRUNC)) then
        if negb (Z.land flag O_EXCL =? 0) then
          match gcsStat f w name with
          | (w, inr _) => (w, inl ErrExist)
          | (w, inl _) => let '(w, o) := gcsWriter f w bucket fileName in (w, inr o)
          end
        else let '(w, o) := gcsWriter f w bucket fileName in (w, inr o)
      else (w, inl (ErrText "Unsupported OpenFlag flag mode %d on Google Cloud Storage"))
  end.

Definition gcsRemove (f : gcsFS) (w : W) (name : string) : W * option error :=
  match parseName f name with
  | inl e => (w, Some e)
  | inr (bucket, fileName) => delete (sc f) w bucket fileName
  end.

(** The methods as a [wkfs.FileSystem]. *)
Definition asFileSystem (f : gcsFS) : FileSystem W :=
  {| fsOpen := gcsOpen f; fsOpenFile := gcsOpenFile f; fsStat := gcsStat f; fsLstat := gcsLstat f;
     fsMkdirAll := gcsMkdirAll f; fsRemove := gcsRemove f |}.

Definition registerBrokenFS (broken : Client) (e : error) (m : gmap string (FileSystem W)) : option (gmap string (FileSystem W)) :=
  RegisterFS m "/gcs/" (asFileSystem {| sc := broken; err := Some e |}).

(** [init]: nothing is registered unless on Compute Engine; a file system with
    a sticky error if there is no HTTP or storage client. *)
Definition init (onGCE : bool) (httpClient : option error) (client : error + Client) (broken : Client)
    (m : gmap string (FileSystem W)) : option (gmap string (FileSystem W)) :=
  if negb onGCE then Some m
  else
    match httpClient with
    | Some e => registerBrokenFS broken e m
    | None =>
        match client with
        | inl e => registerBrokenFS broken e m
        | inr c => RegisterFS m "/gcs/" (asFileSystem {| sc := c; err := None |})
        end
    end.

(** ** The laws of a client

    [contents] is what the objects are and [pending] what a writer has been
    given: reading an object gives its contents if the reader ends with EOF and
    else a part of them, and an object is replaced when its writer is closed
    without error. *)
Record ClientLaws (c : Client) (contents : W → string → string → option (list byte))
    (pending : W → H → option (string * string * list byte)) : Prop := {
  attrs_reads w b o w' r : attrs c w b o = (w', r) → contents w' = contents w;
  attrs_size w b o w' n s : attrs c w b o = (w', inr (n, s)) → ∃ d, contents w b o = Some d ∧ s = zlen d;
  newReader_reads w b o w' r : newReader c w b o = (w', r) → contents w' = contents w;
  newReader_data w b o w' rc : newReader c w b o = (w', inr rc) →
    ∃ d, contents w b o = Some d ∧ pendingBytes (data rc) `prefix_of` d ∧ (final (data rc) = EOF → pendingBytes (data rc) = d);
  newWriter_empty w b o w' h : newWriter c w b o = (w', h) → contents w' = contents w ∧ pending w' h = Some (b, o, []);
  writeObj_appends w h p w' n b o q : writeObj c w h p = (w', n, None) → pending w h = Some (b, o, q) →
    n = zlen p ∧ pending w' h = Some (b, o, q ++ p);
  closeObj_replaces w h w' b o q : closeObj c w h = (w', None) → pending w h = Some (b, o, q) → contents w' b o = Some q;
}.
End gcs.

(** ** Names *)

Lemma append_cons x p t : (String x p +:+ t)%string = String x (p +:+ t).
Proof. done. Qed.

Lemma append_assoc p q t : (p +:+ (q +:+ t))%string = ((p +:+ q) +:+ t)%string.
Proof. induction p as [|x p IH]; [done|]. by rewrite !append_cons, IH. Qed.

Lemma substring_app_l p t : String.substring 0 (String.length p) (p +:+ t) = p.
Proof. induction p as [|x p IH]; [by destruct t|]. rewrite append_cons. cbn. by rewrite IH. Qed.

Lemma substring_all t : String.substring 0 (String.length t) t = t.
Proof. induction t as [|x t IH]; cbn; [done|]. by rewrite IH. Qed.

Lemma substring_app_r p t : String.substring (String.length p) (String.length t) (p +:+ t) = t.
Proof. induction p as [|x p IH]; [apply substring_all|exact IH]. Qed.

Lemma length_append p t : String.length (p +:+ t) = (String.length p + String.length t)%nat.
Proof. induction p as [|x p IH]; [done|]. rewrite append_cons. cbn. by rewrite IH. Qed.

Lemma indexChar_app c b t : indexChar c b = None → indexChar c (b +:+ String c t) = Some (String.length b).
Proof.
  induction b as [|x b IH]; [change ("" +:+ String c t)%string with (String c t); cbn; by rewrite decide_True|].
  rewrite append_cons. cbn. case_decide; [done|].
  destruct (indexChar c b); [done|]. intros _. by rewrite IH.
Qed.

Lemma TrimPrefix_app p t : TrimPrefix (p +:+ t) p = t.
Proof.
  unfold TrimPrefix. rewrite (proj2 (HasPrefix_spec _ _)) by eauto. rewrite length_append.
  replace (String.length p + String.length t - String.length p)%nat with (String.length t) by lia. apply substring_app_r.
Qed.

(** The path of an object. *)
Definition objectPath (bucket object : string) : string := ("/gcs/" +:+ (bucket +:+ String slash object))%string.

Lemma parseName_path {W H} (f : gcsFS (W := W) (H := H)) bucket object :
  err f = None → indexChar slash bucket = None → parseName f (objectPath bucket object) = inr (bucket, object).
Proof.
  intros He Hb. unfold parseName, objectPath. rewrite He, TrimPrefix_app, (indexChar_app _ _ _ Hb). do 2 f_equal.
  - apply substring_app_l.
  - rewrite length_append. cbn [String.length].
    change (String slash object) with (String slash "" +:+ object)%string. rewrite append_assoc.
    replace (S (String.length bucket)) with (String.length (bucket +:+ String slash "")) by (rewrite length_append; cbn; lia).
    replace (_ - _)%nat with (String.length object) by (rewrite length_append; cbn; lia). apply substring_app_r.
Qed.

Section roundtrip.
Context {W H : Type}.
Variables (osFS : FileSystem W) (errObjectNotExist : error) (c : Client (W := W) (H := H)).
Variables (contents : W → string → string → option (list byte)) (pending : W → H → option (string * string * list byte)).
Hypothesis laws : ClientLaws c contents pending.
Variables (m : gmap string (FileSystem W)) (bucket object : string).
Let gcs := {| sc := c; err := None |}.
Let name := objectPath bucket object.
Hypothesis Hfree : prefixFree m.
Hypothesis Hreg : m !! "/gcs/"%string = Some (asFileSystem errObjectNotExist gcs).
Hypothesis Hbucket : indexChar slash bucket = None.

Lemma fs_gcs order : orderOf m order → fs osFS order name = asFileSystem errObjectNotExist gcs.
Proof.
  intros Ho. eapply fs_of_prefix; [exact Ho|exact Hfree|exact Hreg|]. apply HasPrefix_spec. by eexists.
Qed.

Lemma gcs_parse : parseName gcs name = inr (bucket, object).
Proof. by apply parseName_path. Qed.

Lemma gcs_truncates w perm :
  gcsOpenFile errObjectNotExist gcs w name (Z.lor O_WRONLY (Z.lor O_CREATE O_TRUNC)) perm =
  let '(w, o) := gcsWriter gcs w bucket object in (w, inr o).
Proof. unfold gcsOpenFile. by rewrite gcs_parse. Qed.

Lemma gcs_WriteFile order w bs perm w' :
  orderOf m order → WriteFile osFS order w name bs perm = (w', None) → contents w' bucket object = Some bs.
Proof.
  intros Ho. unfold WriteFile, OpenFile. rewrite (fs_gcs _ Ho). cbn [fsOpenFile asFileSystem]. rewrite gcs_truncates.
  unfold gcsWriter, gcs. cbn [sc]. destruct (newWriter c _ _ _) as [w1 h] eqn:Hn.
  apply (newWriter_empty _ _ _ laws) in Hn as [_ Hp]. cbn [write closeWriter].
  destruct (writeObj c w1 h bs) as [[w2 n] [e|]] eqn:Hw.
  - destruct (closeObj c w2 h) as [w3 e1]. cbn. congruence.
  - destruct (writeObj_appends _ _ _ laws _ _ _ _ _ _ _ _ Hw Hp) as [-> Hp']. rewrite Z.ltb_irrefl.
    destruct (closeObj c w2 h) as [w3 e1] eqn:Hc. intros [= -> ->]. by apply (closeObj_replaces _ _ _ laws _ _ _ _ _ _ Hc) in Hp'.
Qed.

(** What [Open] and [ReadAll] make of an object. *)
Lemma gcs_ReadFile order w w' got e :
  orderOf m order → ReadFile osFS order w name = (w', (got, e)) →
  (e = None → ∃ d, contents w bucket object = Some d ∧ got = d ∧ zlen d ≤ maxSize).
Proof.
  intros Ho. unfold ReadFile, Open. rewrite (fs_gcs _ Ho). cbn [fsOpen asFileSystem]. unfold gcsOpen. rewrite gcs_parse. cbn [sc gcs].
  destruct (attrs c w bucket object) as [w1 [e1|[n s]]] eqn:Ha; [by intros [= _ _ <-]|].
  apply (attrs_reads _ _ _ laws) in Ha as Hsame. apply (attrs_size _ _ _ laws) in Ha as (d&Hd&->).
  destruct (Z.ltb_spec maxSize (zlen d)); [by intros [= _ _ <-]|].
  destruct (newReader c w1 bucket object) as [w2 [e2|rc]] eqn:Hr; [by intros [= _ _ <-]|].
  apply (newReader_data _ _ _ laws) in Hr as (d'&Hd'&Hpre&Heof). rewrite Hsame, Hd in Hd'. injection Hd' as <-.
  destruct (ReadAllLimit (data rc) (zlen d)) as [slurp e3] eqn:Hs. destruct (closeFile rc w2) as [w3 ?].
  destruct e3 as [e3|]; [by intros [= _ _ <-]|]. cbn. unfold ReadAll, pendingBytes. cbn. rewrite app_nil_r.
  intros [= <- <- <-] _. exists d. split_and!; [done| |done].
  unfold ReadAllLimit in Hs. destruct (Z.leb_spec (zlen d) (zlen (pendingBytes (data rc)))).
  - injection Hs as <-. destruct Hpre as [t Ht]. apply (f_equal length) in Ht as Hlen. rewrite length_app in Hlen.
    rewrite take_ge by lia. rewrite Ht. destruct t; [by rewrite app_nil_r|cbn in Hlen; lia].
  - unfold ReadAll in Hs. case_decide as Hf; [|done]. injection Hs as <-. by apply Heof.
Qed.

(** A file within the limit is read when the calls of the client succeed. *)
Lemma gcs_ReadFile_succeeds order w d w4 w5 x rc :
  orderOf m order → contents w bucket object = Some d → zlen d ≤ maxSize →
  attrs c w bucket object = (w4, inr x) → newReader c w4 bucket object = (w5, inr rc) → final (data rc) = EOF →
  ∃ w', ReadFile osFS order w name = (w', (d, None)).
Proof.
  intros Ho Hc Hsize Ha Hn Hf. unfold ReadFile, Open. rewrite (fs_gcs _ Ho). cbn [fsOpen asFileSystem]. unfold gcsOpen.
  rewrite gcs_parse. cbn [sc gcs]. rewrite Ha. destruct x as [n s].
  apply (attrs_reads _ _ _ laws) in Ha as Hsame. apply (attrs_size _ _ _ laws) in Ha as (d'&Hd&->).
  rewrite Hc in Hd. injection Hd as <-. destruct (Z.ltb_spec maxSize (zlen d)); [lia|]. rewrite Hn.
  apply (newReader_data _ _ _ laws) in Hn as (d'&Hd'&_&Heof). rewrite Hsame, Hc in Hd'. injection Hd' as <-.
  unfold ReadAllLimit. rewrite (Heof Hf), Z.leb_refl, take_ge by lia.
  destruct (closeFile rc w5). cbn. unfold ReadAll, pendingBytes. cbn. rewrite app_nil_r. eauto.
Qed.

(** C24. Files of the storage read back, through the dispatch of wkfs and for
    every order in which it looks at the registered file systems: when
    [WriteFile] returns no error, the object has exactly the bytes written, and
    when [ReadFile], in any world in which the object is what it was, returns
    no error, it returns those bytes. A file above the limit of 1 MB can be
    written but not read; one within it is read if the client's calls succeed. *)
Theorem gcs_files_read_back o1 o2 w0 bs perm w1 w2 w3 got e :
  orderOf m o1 → orderOf m o2 →
  WriteFile osFS o1 w0 name bs perm = (w1, None) →
  contents w2 bucket object = contents w1 bucket object →
  ReadFile osFS o2 w2 name = (w3, (got, e)) →
  contents w1 bucket object = Some bs ∧ (e = None → got = bs) ∧ (maxSize < zlen bs → e ≠ None) ∧
  (zlen bs ≤ maxSize →
   (∃ w4 w5 x rc, attrs c w2 bucket object = (w4, inr x) ∧ newReader c w4 bucket object = (w5, inr rc) ∧
      final (data rc) = EOF) → e = None).
Proof.
  intros Ho1 Ho2 Hw Hc Hr. apply gcs_WriteFile in Hw; [|done]. rewrite Hw in Hc.
  pose proof (gcs_ReadFile _ _ _ _ _ Ho2 Hr) as Hread. split_and!; [done| | |].
  - intros He. destruct (Hread He) as (d&Hd&->&_). congruence.
  - intros Hbig He. destruct (Hread He) as (d&Hd&->&?). rewrite Hc in Hd. injection Hd as <-. lia.
  - intros Hsize (w4&w5&x&rc&Ha&Hn&Hf). destruct (gcs_ReadFile_succeeds _ _ _ _ _ _ _ Ho2 Hc Hsize Ha Hn Hf) as [w' Hr'].
    congruence.
Qed.
End roundtrip.

(** ** Registration *)

(** [init] registers for /gcs/ and nothing else; with the sticky error every
    operation but MkdirAll fails with it. *)
Lemma init_registers {W H} errNE hc client broken (m m' : gmap string (FileSystem W)) :
  init (H := H) errNE true hc client broken m = Some m' →
  m !! "/gcs/"%string = None ∧ ∃ f : gcsFS (W := W) (H := H), m' = <["/gcs/"%string := asFileSystem errNE f]> m ∧
    (∀ e, err f = Some e → ∀ w name flag perm,
       gcsOpen f w name = (w, inl e) ∧ gcsOpenFile errNE f w name flag perm = (w, inl e) ∧
       gcsStat errNE f w name = (w, inl e) ∧ gcsRemove f w name = (w, Some e)).
Proof.
  assert (∀ f : gcsFS (W := W) (H := H), RegisterFS m "/gcs/" (asFileSystem errNE f) = Some m' →
    m !! "/gcs/"%string = None ∧ m' = <["/gcs/"%string := asFileSystem errNE f]> m) as Hreg.
  { intros f. unfold RegisterFS. cbn [negb orb HasPrefix HasSuffix]. change (negb _ || negb _) with false. cbn.
    destruct (m !! _) eqn:Hl; [done|]. by intros [= <-]. }
  unfold init. cbn [negb]. intros Hi.
  assert (∃ f : gcsFS (W := W) (H := H), RegisterFS m "/gcs/" (asFileSystem errNE f) = Some m') as [f Hf].
  { destruct hc as [e0|]; [eauto|]. destruct client as [e0|c0]; eauto. }
  destruct (Hreg f Hf) as [? ->]. split; [done|]. exists f. split; [done|].
  intros e He w name flag perm. unfold gcsOpen, gcsOpenFile, gcsStat, gcsLstat, gcsRemove, parseName. by rewrite He.
Qed.

(** With O_EXCL an object is overwritten when its attributes cannot be read,
    whatever the reason. *)
Lemma exclusive_open_ignores_errors {W H} errNE (f : gcsFS (W := W) (H := H)) w w1 bucket object e perm :
  err f = None → indexChar slash bucket = None → attrs (sc f) w bucket object = (w1, inl e) →
  ∃ w2 o, gcsOpenFile errNE f w (objectPath bucket object) (Z.lor O_WRONLY (Z.lor O_CREATE O_EXCL)) perm = (w2, inr o).
Proof.
  intros He Hb Ha. unfold gcsOpenFile, gcsStat, gcsLstat. rewrite parseName_path by done. cbn [orb negb Z.eqb Pos.eqb].
  change (negb (Z.land _ O_EXCL =? 0)) with true. cbn. rewrite Ha. unfold gcsWriter. destruct (newWriter _ _ _ _). eauto.
Qed.

(** ** A store *)
Module Store.
Definition W : Type := gmap (string * string) (list byte) * list (string * string * list byte).
Definition contents (w : W) (b o : string) : option (list byte) := w.1 !! (b, o).
Definition pending (w : W) (h : nat) : option (string * string * list byte) := w.2 !! h.
Definition missing : error := ErrText "storage: object doesn't exist".
Definition client : Client (W := W) (H := nat) :=
  {| attrs := λ w b o, (w, match contents w b o with Some d => inr (o, zlen d) | None => inl missing end);
     newReader := λ w b o, (w, match contents w b o with
                               | Some d => inr {| data := Stream [d] EOF; closeFile := λ w, (w, None) |}
                               | None => inl missing end);
     newWriter := λ w b o, ((w.1, w.2 ++ [(b, o, [])]), length w.2);
     writeObj := λ w h p, ((w.1, alter (λ '(b, o, q), (b, o, q ++ p)) h w.2), zlen p, None);
     closeObj := λ w h, (match w.2 !! h with Some (b, o, q) => (<[(b, o) := q]> w.1, w.2) | None => w end, None);
     Gcs.delete := λ w b o, ((base.delete (b, o) w.1, w.2), None) |}.

Lemma laws : ClientLaws client contents pending.
Proof.
  split.
  - by intros w b o w' r [= <- _].
  - intros w b o w' n s. cbn. destruct (contents w b o) as [d|]; [|done]. intros [= <- _ <-]. by exists d.
  - by intros w b o w' r [= <- _].
  - intros w b o w' rc. cbn. destruct (contents w b o) as [d|]; [|done]. intros [= <- <-]. exists d.
    unfold pendingBytes. cbn. by rewrite app_nil_r.
  - intros w b o w' h [= <- <-]. split; [done|]. by apply list_lookup_middle.
  - intros w h p w' n b o q [= <- <-] Hp. split; [done|]. unfold pending in *. cbn. by rewrite list_lookup_alter_eq, Hp.
  - intros w h w' b o q [= <-] Hp. unfold pending, contents in *. rewrite Hp. cbn. by rewrite lookup_insert_eq.
Qed.

Definition fsys : FileSystem W := asFileSystem missing {| sc := client; err := None |}.
Definition m : gmap string (FileSystem W) := {["/gcs/"%string := fsys]}.

Lemma order : orderOf m [("/gcs/"%string, fsys)].
Proof. unfold orderOf, m. by rewrite map_to_list_singleton. Qed.

Lemma free : prefixFree m.
Proof.
  unfold m. intros p q [f Hf] [g Hg] _. apply lookup_singleton_Some in Hf as [<- _].
  by apply lookup_singleton_Some in Hg as [<- _].
Qed.
End Store.

Lemma gcs_files_read_back_witness :
  ∃ w1 w3, WriteFile Store.fsys [("/gcs/"%string, Store.fsys)] (∅, []) "/gcs/b/d/f" [x61; x62] 420 = (w1, None) ∧
    ReadFile Store.fsys [("/gcs/"%string, Store.fsys)] w1 "/gcs/b/d/f" = (w3, ([x61; x62], None)) ∧
    Store.contents w1 "b" "d/f" = Some [x61; x62].
Proof.
  set (written := WriteFile Store.fsys [("/gcs/"%string, Store.fsys)] (∅, []) "/gcs/b/d/f" [x61; x62] 420).
  exists written.1, written.1.
  assert (written = (written.1, None)) as Hw by (vm_compute; reflexivity).
  assert (ReadFile Store.fsys [("/gcs/"%string, Store.fsys)] written.1 "/gcs/b/d/f" = (written.1, ([x61; x62], None))) as Hr
    by (vm_compute; reflexivity).
  split; [exact Hw|]. split; [exact Hr|].
  destruct (gcs_files_read_back Store.fsys Store.missing Store.client Store.contents Store.pending Store.laws Store.m "b" "d/f"
    Store.free eq_refl eq_refl _ _ (∅, []) [x61; x62] 420 written.1 written.1 _ _ _ Store.order Store.order Hw eq_refl Hr) as [H _].
  exact H.
Defined.
