(* ===== verification/SortGen.v ===== *)
(** * sort: the generator of zfuncversion.go

    genzfunc.go. Its input is the syntax tree of sort.go as go/ast gives it:
    calls, selectors and identifiers are told apart, every other node is its
    children. Parsing, printing and formatting (go/parser, go/format) are
    parameters; what the code does to the tree and to the text is here. The
    functions that should be copied are specified on their own ([copied]). *)
From S2P Require Import Prelude Filepath.
From S2P Require Gcs.
From Stdlib Require Import Ascii.

(** ** Syntax trees *)

Inductive node :=
| Ident (name : string)
| SelectorExpr (x : node) (sel : string)
| CallExpr (fn : node) (args : list node)
| Other (kind : string) (children : list node).

(** The induction that reaches the nodes in the lists. *)
Section node_induction.
Variable Q : node → Prop.
Hypothesis Hident : ∀ name, Q (Ident name).
Hypothesis Hselector : ∀ x sel, Q x → Q (SelectorExpr x sel).
Hypothesis Hcall : ∀ fn args, Q fn → Forall Q args → Q (CallExpr fn args).
Hypothesis Hother : ∀ kind children, Forall Q children → Q (Other kind children).

Fixpoint node_nested_ind (n : node) : Q n :=
  let all := fix all (l : list node) : Forall Q l :=
    match l with [] => Forall_nil_2 Q | n :: l => Forall_cons_2 Q n l (node_nested_ind n) (all l) end in
  match n with
  | Ident name => Hident name
  | SelectorExpr x sel => Hselector x sel (node_nested_ind x)
  | CallExpr fn args => Hcall fn args (node_nested_ind fn) (all args)
  | Other kind children => Hother kind children (all children)
  end.
End node_induction.

(** A field of a parameter list: [a, b int] is one with two names. *)
Record Field := { Names : list string; Type_ : node }.

Record FuncDecl := { Recv : option Field; Name : string; Params : list Field; Results : list Field; Body : list node }.

Inductive Decl := GenDecl (d : node) | Func (fd : FuncDecl).

(** ** The declarations that are kept *)

(** [IsExported] of a name that starts with an ASCII character. *)
Definition IsExported (name : string) : bool :=
  match name with
  | String c _ => (Ascii.leb "A" c && Ascii.leb c "Z")%char
  | EmptyString => false
  end.

(** The loop over [af.Decls]. [None] is the panic of [arg0.Names[0]] for a
    parameter without a name, or of the assertion of its type. *)
Definition keepDecl (d : Decl) : option (list FuncDecl) :=
  match d with
  | GenDecl _ => Some []
  | Func fd =>
      if bool_decide (Recv fd ≠ None) || IsExported (Name fd) then Some []
      else match Params fd with
           | [] => Some []
           | arg0 :: params =>
               match Names arg0, Type_ arg0 with
               | arg0Name :: _, Ident arg0Type =>
                   if bool_decide (arg0Name ≠ "data"%string) || bool_decide (arg0Type ≠ "Interface"%string) then Some []
                   else Some [{| Recv := Recv fd; Name := Name fd;
                                 Params := {| Names := Names arg0; Type_ := Ident "lessSwap" |} :: params;
                                 Results := Results fd; Body := Body fd |}]
               | _, _ => None
               end
           end
  end.

Fixpoint newDecl (decls : list Decl) : option (list FuncDecl) :=
  match decls with
  | [] => Some []
  | d :: decls => kept ← keepDecl d; rest ← newDecl decls; Some (kept ++ rest)
  end.

(** ** The calls *)

Definition funcName (name : string) : string := (name +:+ "_func")%string.

(** [rewriteCall]: a call of an identifier with arguments. *)
Definition rewriteCall (fn : node) (args : list node) : node :=
  match fn with
  | Ident name => if (length args <? 1)%nat then fn else Ident (funcName name)
  | _ => fn
  end.

(** [ast.Walk(visitFunc(rewriteCalls), n)] *)
Fixpoint rewriteCalls (n : node) : node :=
  match n with
  | Ident name => n
  | SelectorExpr x sel => SelectorExpr (rewriteCalls x) sel
  | CallExpr fn args => CallExpr (rewriteCall (rewriteCalls fn) args) (map rewriteCalls args)
  | Other kind children => Other kind (map rewriteCalls children)
  end.

Definition rewriteField (f : Field) : Field := {| Names := Names f; Type_ := rewriteCalls (Type_ f) |}.
Definition rewriteDecl (fd : FuncDecl) : FuncDecl :=
  {| Recv := option_map rewriteField (Recv fd); Name := Name fd; Params := map rewriteField (Params fd);
     Results := map rewriteField (Results fd); Body := map rewriteCalls (Body fd) |}.

(** ** The text *)

Definition newline : ascii := "010".

(** [\n{2,}] replaced by a newline; [seen] says that one has just been kept. *)
Fixpoint collapse (seen : bool) (s : string) : string :=
  match s with
  | EmptyString => ""
  | String c s =>
      if Ascii.eqb c newline then if seen then collapse true s else String c (collapse true s)
      else String c (collapse false s)
  end.

(** [\w] *)
Definition isWord (c : ascii) : bool :=
  ((Ascii.leb "0" c && Ascii.leb c "9") || (Ascii.leb "A" c && Ascii.leb c "Z") ||
   (Ascii.leb "a" c && Ascii.leb c "z") || Ascii.eqb c "_")%char.

(** The longest start of [s] of word characters, and the rest. *)
Fixpoint word (s : string) : string * string :=
  match s with
  | EmptyString => (""%string, ""%string)
  | String c s' => if isWord c then (String c (word s').1, (word s').2) else (""%string, s)
  end.

(** [s] without the prefix [p]. *)
Fixpoint afterPrefix (p s : string) : option string :=
  match p, s with
  | EmptyString, _ => Some s
  | String a p, String b s => if Ascii.eqb a b then afterPrefix p s else None
  | String _ _, EmptyString => None
  end.

(** The name in a line that matches [^func (\w+)], with what is behind it. *)
Definition funcLine (line : string) : option (string * string) :=
  match afterPrefix "func " line with
  | Some s => if decide ((word s).1 = "")%string then None else Some (word s)
  | None => None
  end.

Definition newlineString : string := String newline "".

(** [(?m)^func (\w+)] replaced by a comment and the new name: [^] is at the
    start of every line, and a match stays in its line. *)
Definition commentLine (line : string) : string :=
  match funcLine line with
  | Some (name, rest) =>
      (newlineString +:+ "// Auto-generated variant of sort.go:" +:+ name +:+ newlineString +:+
       "func " +:+ funcName name +:+ rest)%string
  | None => line
  end.
Definition addComments (s : string) : string := joinWith newlineString (map commentLine (split newline s)).

Definition header : string :=
"// DO NOT EDIT; AUTO-GENERATED from sort.go using genzfunc.go

// Copyright 2016 The Go Authors. All rights reserved.
// Use of this source code is governed by a BSD-style
// license that can be found in the LICENSE file.

".

(** ** main *)

Inductive outcome := Wrote (file text : string) | Fatal (msg : string) | Panic.

Section main.
Variable parseFile : string → option (list Decl).            (* parser.ParseFile *)
Variable formatNode : list FuncDecl → option string.         (* format.Node of the file with these declarations *)
Variable formatSource : string → option string.              (* format.Source *)
Variable writeFile : string → string → bool.                 (* ioutil.WriteFile succeeds *)

Definition main : outcome :=
  match parseFile "sort.go" with
  | None => Fatal "%v"
  | Some decls =>
      match newDecl decls with
      | None => Panic
      | Some kept =>
          match formatNode (map rewriteDecl kept) with
          | None => Fatal "format.Node: %v"
          | Some out =>
              match formatSource (addComments (collapse false out)) with
              | None => Fatal "format.Source: %v on"
              | Some src =>
                  let text := (header +:+ src)%string in
                  if writeFile "zfuncversion.go" text then Wrote "zfuncversion.go" text else Fatal "%v"
              end
          end
      end
  end.
End main.

(** ** Calls *)

(** The identifiers that [n] calls with arguments. *)
Fixpoint callees (n : node) : list string :=
  match n with
  | Ident _ => []
  | SelectorExpr x _ => callees x
  | CallExpr fn args =>
      match fn, args with Ident name, _ :: _ => [name] | _, _ => [] end ++ callees fn ++ concat (map callees args)
  | Other _ children => concat (map callees children)
  end.

Lemma callees_all l :
  Forall (λ n, callees (rewriteCalls n) = map funcName (callees n)) l →
  concat (map callees (map rewriteCalls l)) = map funcName (concat (map callees l)).
Proof. induction 1 as [|n l Hn _ IH]; [done|]. cbn [map concat]. by rewrite Hn, IH, map_app. Qed.

Lemma callees_rewriteCalls n : callees (rewriteCalls n) = map funcName (callees n).
Proof.
  induction n as [name|x sel IH|fn args Hfn Hargs|kind l Hl] using node_nested_ind; [done|done| |by apply callees_all].
  cbn [rewriteCalls callees]. rewrite callees_all, !map_app by done.
  destruct fn as [name| | |]; cbn [rewriteCalls rewriteCall] in *; [|by rewrite Hfn..]. by destruct args.
Qed.

Definition fieldCallees (f : Field) : list string := callees (Type_ f).
Definition declCallees (fd : FuncDecl) : list string :=
  match Recv fd with Some f => fieldCallees f | None => [] end ++ concat (map fieldCallees (Params fd)) ++
  concat (map fieldCallees (Results fd)) ++ concat (map callees (Body fd)).

Lemma fieldCallees_all l : concat (map fieldCallees (map rewriteField l)) = map funcName (concat (map fieldCallees l)).
Proof. induction l as [|f l IH]; [done|]. cbn [map concat]. rewrite IH, map_app. unfold fieldCallees at 1. cbn. by rewrite callees_rewriteCalls. Qed.

Lemma declCallees_rewriteDecl fd : declCallees (rewriteDecl fd) = map funcName (declCallees fd).
Proof.
  unfold declCallees, rewriteDecl. cbn [Recv Params Results Body]. rewrite !fieldCallees_all, !map_app. f_equal.
  - destruct (Recv fd) as [f|]; [|done]. cbn. unfold fieldCallees. cbn. apply callees_rewriteCalls.
  - do 2 f_equal. apply callees_all. apply Forall_forall. intros n _. apply callees_rewriteCalls.
Qed.

(** ** Lines *)

(** The functions that a text declares at the start of its lines. *)
Definition lineName (line : string) : option string := fst <$> funcLine line.
Definition declared (s : string) : list string := omap lineName (split newline s).

Lemma split_cons_other c x s : x ≠ c → ∃ h t, split c s = h :: t ∧ split c (String x s) = String x h :: t.
Proof.
  intros Hx. cbn [split]. rewrite decide_False by done. destruct (split c s) as [|h t] eqn:E; [by apply split_nonempty in E|].
  by exists h, t.
Qed.

Lemma split_app c a b : split c (a +:+ String c b) = split c a ++ split c b.
Proof.
  induction a as [|x a IH]; [change ("" +:+ ?r)%string with r; cbn [split]; by rewrite decide_True|].
  change (String x a +:+ ?r)%string with (String x (a +:+ r)). destruct (decide (x = c)) as [->|Hx].
  - cbn [split]. rewrite !decide_True by done. by rewrite IH.
  - destruct (split_cons_other c x a Hx) as (h&t&Ea&->). destruct (split_cons_other c x (a +:+ String c b) Hx) as (h'&t'&Ea'&->).
    rewrite IH, Ea in Ea'. by injection Ea' as <- <-.
Qed.

Lemma split_joinWith l : l ≠ [] → split newline (joinWith newlineString l) = concat (map (split newline) l).
Proof.
  unfold joinWith. induction l as [|a [|b l] IH]; [done| |].
  - intros _. cbn [map concat String.concat]. by rewrite app_nil_r.
  - intros _. change (String.concat newlineString (a :: b :: l)) with (a +:+ String newline (String.concat newlineString (b :: l)))%string.
    rewrite split_app, IH by done. done.
Qed.

(** A line has no newline in it. *)
Definition isLine (s : string) : Prop := split newline s = [s].

Lemma isLine_cons x s : isLine (String x s) ↔ x ≠ newline ∧ isLine s.
Proof.
  unfold isLine. destruct (decide (x = newline)) as [->|Hx].
  - cbn [split]. rewrite decide_True by done. split; [by intros [=]|by intros [? _]].
  - destruct (split_cons_other newline x s Hx) as (h&t&E&->). rewrite E. split; [intros [= -> ->]; done|intros [_ [= -> ->]]; done].
Qed.

Lemma isLine_app a b : isLine (a +:+ b) ↔ isLine a ∧ isLine b.
Proof.
  induction a as [|x a IH]; [by split; [|intros [_ ?]]|]. change (String x a +:+ b)%string with (String x (a +:+ b)).
  rewrite !isLine_cons, IH. tauto.
Qed.

Lemma split_lines s : Forall isLine (split newline s).
Proof.
  induction s as [|x s IH]; [by repeat constructor|]. destruct (decide (x = newline)) as [->|Hx].
  - cbn [split]. rewrite decide_True by done. by constructor.
  - destruct (split_cons_other newline x s Hx) as (h&t&E&->). rewrite E in IH. inversion IH as [|?? Hh Ht]; subst.
    constructor; [by apply isLine_cons|done].
Qed.

(** ** The text *)

Lemma word_app s : ((word s).1 +:+ (word s).2)%string = s.
Proof. induction s as [|c s IH]; [done|]. cbn [word]. destruct (isWord c); [|done]. cbn [fst snd]. by change (String c ((word s).1 +:+ (word s).2) = String c s); rewrite IH. Qed.

Lemma word_line s : isLine s → isLine (word s).1 ∧ isLine (word s).2.
Proof. intros H. rewrite <-(word_app s) in H. by apply isLine_app. Qed.

(** Word characters in front of what [word] has left extend the word. *)
Fixpoint allWord (s : string) : bool := match s with EmptyString => true | String c s => isWord c && allWord s end.

Lemma word_all w s : allWord w = true → (word s).1 = ""%string → word (w +:+ s) = (w, s).
Proof.
  intros Hw Hs. induction w as [|c w IH]; cbn in Hw.
  - change ("" +:+ s)%string with s. destruct s as [|c s]; [done|]. cbn [word] in *. by destruct (isWord c).
  - apply andb_prop in Hw as [Hc Hw]. change (String c w +:+ s)%string with (String c (w +:+ s)). cbn [word]. by rewrite Hc, IH.
Qed.

Lemma word_allWord s : allWord (word s).1 = true ∧ (word (word s).2).1 = ""%string.
Proof.
  induction s as [|c s IH]; [done|]. cbn [word]. destruct (isWord c) eqn:E; cbn [fst snd allWord]; [by rewrite E|].
  split; [done|]. cbn [word]. by rewrite E.
Qed.

Lemma allWord_app a b : allWord a = true → allWord b = true → allWord (a +:+ b) = true.
Proof.
  intros Ha Hb. induction a as [|c a IH]; [done|]. cbn in Ha. apply andb_prop in Ha as [Hc Ha].
  change (String c a +:+ b)%string with (String c (a +:+ b)). cbn [allWord]. by rewrite Hc, IH.
Qed.

Lemma afterPrefix_app p s : afterPrefix p (p +:+ s) = Some s.
Proof.
  induction p as [|c p IH]; [by destruct s|]. change (String c p +:+ s)%string with (String c (p +:+ s)). cbn [afterPrefix].
  by rewrite Ascii.eqb_refl.
Qed.

Lemma afterPrefix_Some p s t : afterPrefix p s = Some t → s = (p +:+ t)%string.
Proof.
  revert s. induction p as [|c p IH]; intros s H; [by destruct s; injection H as <-|]. destruct s as [|d s]; [done|].
  cbn in H. destruct (Ascii.eqb_spec c d) as [->|]; [|done]. by rewrite (IH s H).
Qed.

(** The renamed function is what the line now declares. *)
Lemma funcLine_renamed line name rest :
  funcLine line = Some (name, rest) →
  funcLine ("func " +:+ funcName name +:+ rest) = Some (funcName name, rest) ∧
  line = ("func " +:+ name +:+ rest)%string ∧ (isLine line → isLine name ∧ isLine rest).
Proof.
  unfold funcLine. destruct (afterPrefix "func " line) as [s|] eqn:E; [|done]. apply afterPrefix_Some in E as ->.
  case_decide as Hn; [done|]. intros [= Hw]. destruct (word_allWord s) as [Ha Hr]. rewrite Hw in Ha, Hr, Hn. cbn [fst snd] in *.
  pose proof (word_app s) as Hs. rewrite Hw in Hs. cbn [fst snd] in Hs. split_and!.
  - rewrite afterPrefix_app. unfold funcName. rewrite (word_all (name +:+ "_func")) by (done || by apply allWord_app).
    rewrite decide_False; [done|]. by destruct name.
  - by rewrite Hs.
  - intros [_ Hl]%isLine_app. rewrite <-Hs in Hl. by apply isLine_app.
Qed.

Lemma declared_commentLine line :
  isLine line → omap lineName (split newline (commentLine line)) = option_list (funcName <$> lineName line).
Proof.
  intros Hl. unfold commentLine, lineName at 2. destruct (funcLine line) as [[name rest]|] eqn:E.
  - destruct (funcLine_renamed _ _ _ E) as (Hf&->&Hlines). destruct (Hlines Hl) as [Hname Hrest].
    change (newlineString +:+ ?r)%string with ("" +:+ String newline r)%string at 1. rewrite split_app.
    rewrite Gcs.append_assoc. change (newlineString +:+ ?r)%string with (String newline r). rewrite split_app.
    assert (isLine ("// Auto-generated variant of sort.go:" +:+ name)) as -> by (by apply isLine_app).
    assert (isLine ("func " +:+ funcName name +:+ rest)) as ->.
    { apply isLine_app. split; [done|]. apply isLine_app. split; [by apply isLine_app|done]. }
    cbn -[lineName]. assert (lineName ("func " +:+ funcName name +:+ rest) = Some (funcName name)) as -> by (unfold lineName; by rewrite Hf).
    assert (lineName ("// Auto-generated variant of sort.go:" +:+ name) = None) as -> by done. done.
  - unfold isLine in Hl. rewrite Hl. cbn. unfold lineName. by rewrite E.
Qed.

Lemma declared_addComments s : declared (addComments s) = map funcName (declared s).
Proof.
  unfold declared, addComments. rewrite split_joinWith by (intros H; apply map_eq_nil in H; by apply split_nonempty in H).
  pose proof (split_lines s) as Hl. induction Hl as [|line l Hline _ IH]; [done|]. cbn [map concat].
  rewrite omap_app, declared_commentLine, IH by done. cbn [omap list_omap]. by destruct (lineName line).
Qed.

(** Removing blank lines removes no declaration. *)
Lemma collapse_lines s :
  (∃ h t t', split newline s = h :: t ∧ split newline (collapse false s) = h :: t' ∧ omap lineName t' = omap lineName t) ∧
  omap lineName (split newline (collapse true s)) = omap lineName (split newline s).
Proof.
  induction s as [|c s [(h&t&t'&E&E'&Ht) IH]]; [split; [by exists ""%string, [], []|done]|].
  cbn [collapse]. destruct (Ascii.eqb_spec c newline) as [->|Hc].
  - cbn [split]. rewrite !decide_True by done. split; [|by rewrite IH]. eexists _, _, _. by split_and!.
  - destruct (split_cons_other newline c s Hc) as (h1&t1&E1&->), (split_cons_other newline c (collapse false s) Hc) as (h2&t2&E2&->).
    rewrite E in E1. rewrite E' in E2. injection E1 as <- <-. injection E2 as <- <-. split; [by eexists _, _, _|].
    cbn [omap list_omap]. by rewrite Ht.
Qed.

Lemma declared_collapse s : declared (collapse false s) = declared s.
Proof.
  unfold declared. destruct (collapse_lines s) as [(h&t&t'&->&->&Ht) _]. cbn [omap list_omap]. by rewrite Ht.
Qed.

Lemma declared_header s : declared (header +:+ s) = declared s.
Proof.
  unfold declared. assert (header = (String.substring 0 (String.length header - 1) header +:+ newlineString)%string) as -> by reflexivity.
  rewrite <-Gcs.append_assoc. change (newlineString +:+ s)%string with (String newline s). by rewrite split_app, omap_app.
Qed.

(** ** The generated file *)

(** *** Specification: the functions that are copied *)

Definition functions (decls : list Decl) : list FuncDecl :=
  omap (λ d, match d with Func fd => Some fd | GenDecl _ => None end) decls.

(** The name does not start with one of the capital letters. *)
Definition unexported (name : string) : bool :=
  match name with
  | String c _ => negb (existsb (Ascii.eqb c) (String.list_ascii_of_string "ABCDEFGHIJKLMNOPQRSTUVWXYZ"))
  | EmptyString => true
  end.

(** The parameters begin with [data Interface], or [data, more Interface]. *)
Definition takesData (fd : FuncDecl) : bool :=
  match Params fd with
  | {| Names := name :: _; Type_ := Ident type |} :: _ => String.eqb name "data" && String.eqb type "Interface"
  | _ => false
  end.

Definition copied (fd : FuncDecl) : bool :=
  match Recv fd with None => unexported (Name fd) && takesData fd | Some _ => false end.
Definition copiedFuncs (decls : list Decl) : list FuncDecl := List.filter copied (functions decls).

(** The function with [lessSwap] for [Interface]. *)
Definition retype (fd : FuncDecl) : FuncDecl :=
  {| Recv := Recv fd; Name := Name fd;
     Params := match Params fd with
               | arg0 :: params => {| Names := Names arg0; Type_ := Ident "lessSwap" |} :: params
               | [] => []
               end;
     Results := Results fd; Body := Body fd |}.

Lemma declCallees_retype fd f : f ∈ declCallees (retype fd) → f ∈ declCallees fd.
Proof.
  unfold declCallees, retype. cbn [Recv Params Results Body]. destruct (Params fd) as [|arg0 params]; [done|].
  cbn [map concat]. rewrite !elem_of_app. change (fieldCallees {| Names := ?n; Type_ := Ident ?t |}) with (@nil string).
  rewrite elem_of_nil. tauto.
Qed.

Lemma unexported_spec name : unexported name = negb (IsExported name).
Proof. destruct name as [|c name]; [done|]. by destruct c as [[] [] [] [] [] [] [] []]. Qed.

Lemma keepDecl_spec d l :
  keepDecl d = Some l → l = map retype (List.filter copied (functions [d])).
Proof.
  destruct d as [d|fd]; cbn -[copied retype]; [by intros [= <-]|]. unfold copied, takesData, retype.
  rewrite unexported_spec. destruct (Recv fd) as [f|] eqn:Er; [rewrite bool_decide_eq_true_2 by done; by intros [= <-]|].
  rewrite bool_decide_eq_false_2 by (by intros []). destruct (IsExported (Name fd)); [by intros [= <-]|]. cbn [orb negb andb].
  destruct (Params fd) as [|[[|n names] [t| | |]] params] eqn:Hp; cbn [Names Type_]; try done; [by intros [= <-]|].
  destruct (String.eqb_spec n "data"); [subst; rewrite (bool_decide_eq_false_2 ("data"%string ≠ _)) by (by intros [])|by rewrite bool_decide_eq_true_2; [intros [= <-]|]].
  destruct (String.eqb_spec t "Interface"); [subst; rewrite bool_decide_eq_false_2 by (by intros [])|by rewrite bool_decide_eq_true_2; [intros [= <-]|]].
  cbn. rewrite Hp, Er. by intros [= <-].
Qed.

Lemma newDecl_spec decls kept : newDecl decls = Some kept → kept = map retype (copiedFuncs decls).
Proof.
  revert kept. induction decls as [|d decls IH]; intros kept H; [by injection H as <-|]. cbn [newDecl] in H.
  destruct (keepDecl d) as [l|] eqn:E; [|done]. cbn in H. destruct (newDecl decls) as [rest|]; [|done]. injection H as <-.
  rewrite (keepDecl_spec _ _ E), (IH _ eq_refl), <-map_app. unfold copiedFuncs. rewrite <-List.filter_app. do 2 f_equal.
  unfold functions. cbn. by destruct d.
Qed.

(** What a kept declaration looks like. *)
Definition variant (fd : FuncDecl) : Prop :=
  Recv fd = None ∧ unexported (Name fd) = true ∧
  ∃ names params, Params fd = {| Names := "data"%string :: names; Type_ := Ident "lessSwap" |} :: params.

Lemma copied_variant fd : copied fd = true → variant (rewriteDecl (retype fd)).
Proof.
  unfold copied, variant, takesData. cbn. destruct (Recv fd); [done|]. intros [Hu Ht]%andb_prop.
  destruct (Params fd) as [|[[|n names] [t| | |]] params]; try done. apply andb_prop in Ht as [->%String.eqb_eq _].
  split_and!; [done|done|]. by eexists _, _.
Qed.

(** ** The generated file *)

(** A function, not a method, with a name of ASCII word characters. *)
Definition plainFunc (fd : FuncDecl) : Prop := Recv fd = None ∧ Name fd ≠ ""%string ∧ allWord (Name fd) = true.

Section generated.
Variable parseFile : string → option (list Decl).
Variable formatNode : list FuncDecl → option string.
Variable formatSource : string → option string.
Variable writeFile : string → string → bool.
Context (decls : list Decl) (file text : string).
Hypothesis Hparse : parseFile "sort.go" = Some decls.
Hypothesis Hnames : Forall (λ fd, Name fd ≠ ""%string ∧ allWord (Name fd) = true) (functions decls).
(** The printer starts a line with func and the name for each function, and no
    other line; formatting changes no line's start. *)
Hypothesis Hprint : ∀ fds s, Forall plainFunc fds → formatNode fds = Some s → declared s = map Name fds.
Hypothesis Hformat : ∀ s s', formatSource s = Some s' → declared s' = declared s.

End generated.

(** ** sort.go *)

Module SortGo.

(** The declarations of sort.go and the calls in them, in order. *)
Definition call (f : string) : node := CallExpr (Ident f) [Ident "data"; Ident "a"].
Definition method (m : string) : node := CallExpr (SelectorExpr (Ident "data") m) [Ident "a"; Ident "b"].
Definition less : node := method "Less".
Definition swap : node := method "Swap".
Definition param (name type : string) : Field := {| Names := [name]; Type_ := Ident type |}.
Definition func (name : string) (params : list Field) (calls : list node) : Decl :=
  Func {| Recv := None; Name := name; Params := params; Results := []; Body := calls |}.
Definition recv (type name : string) : Decl :=
  Func {| Recv := Some (param "p" type); Name := name; Params := []; Results := []; Body := [] |}.
Definition algorithm (name : string) (calls : list node) : Decl :=
  func name [param "data" "Interface"; {| Names := ["a"; "b"]%string; Type_ := Ident "int" |}] calls.

Definition decls : list Decl :=
  [GenDecl (Other "type" [Ident "Interface"]);
   func "MakeInterface" [param "length" "int"] [];
   func "Slice" [{| Names := ["slice"%string]; Type_ := Other "interface" [] |}] [];
   recv "funcs" "Len"; recv "funcs" "Swap"; recv "funcs" "Less";
   algorithm "insertionSort" [less; swap];
   algorithm "siftDown" [less; less; swap];
   algorithm "heapSort" [call "siftDown"; swap; call "siftDown"];
   algorithm "medianOfThree" [less; swap; less; swap; less; swap];
   algorithm "swapRange" [swap];
   algorithm "doPivot" [call "medianOfThree"; call "medianOfThree"; call "medianOfThree"; call "medianOfThree";
                        less; less; less; swap; less; swap; less; less; swap; less; less; swap; swap];
   algorithm "quickSort" [call "heapSort"; call "doPivot"; call "quickSort"; call "quickSort"; less; swap; call "insertionSort"];
   func "Sort" [param "data" "Interface"] [call "quickSort"];
   func "maxDepth" [param "n" "int"] [];
   recv "reverse" "Less";
   func "IsSorted" [param "data" "Interface"] [less];
   func "isNaN" [param "f" "float64"] [];
   func "Stable" [param "data" "Interface"] [call "stable"];
   algorithm "stable" [call "insertionSort"; call "insertionSort"; call "symMerge"; call "symMerge"];
   algorithm "symMerge" [less; swap; less; swap; less; call "rotate"; call "symMerge"; call "symMerge"];
   algorithm "rotate" [call "swapRange"; call "swapRange"; call "swapRange"]].

(** A printer of declarations without their bodies. *)
Fixpoint printFuncs (fds : list FuncDecl) : string :=
  match fds with
  | [] => ""
  | fd :: fds => (("func " +:+ Name fd +:+ "(data lessSwap)") +:+ String newline (String newline (printFuncs fds)))%string
  end.
Definition print (fds : list FuncDecl) : string := ("package sort" +:+ String newline (String newline (printFuncs fds)))%string.

Definition text : string := Eval vm_compute in
  match main (λ _, Some decls) (λ l, Some (print l)) Some (λ _ _, true) with Wrote _ t => t | _ => "" end.

(** The printer keeps its law. *)
Lemma declared_line a b : isLine a → declared (a +:+ String newline b) = option_list (lineName a) ++ declared b.
Proof. unfold isLine, declared. intros Ha. rewrite split_app, omap_app, Ha. cbn. by destruct (lineName a). Qed.

Lemma allWord_line s : allWord s = true → isLine s.
Proof.
  induction s as [|c s IH]; [done|]. intros [Hc Hs]%andb_prop. apply isLine_cons. split; [by intros ->|by apply IH].
Qed.

Lemma declared_print fds : Forall plainFunc fds → declared (print fds) = map Name fds.
Proof.
  intros H. unfold print. rewrite declared_line by done. change (String newline ?r) with ("" +:+ String newline r)%string.
  rewrite declared_line by done. change (option_list (lineName "package sort")) with (@nil string).
  change (option_list (lineName "")) with (@nil string). cbn [app].
  induction H as [|fd fds (_&Hne&Hw) _ IH]; [done|]. cbn [printFuncs map].
  rewrite declared_line by (apply isLine_app; split; [done|]; apply isLine_app; split; [by apply allWord_line|done]).
  change (String newline ?r) with ("" +:+ String newline r)%string. rewrite declared_line by done. rewrite IH.
  change (option_list (lineName "")) with (@nil string). cbn [app].
  assert (lineName ("func " +:+ Name fd +:+ "(data lessSwap)") = Some (Name fd)) as ->; [|done].
  unfold lineName, funcLine. rewrite afterPrefix_app, word_all by done. cbn [fst]. by rewrite decide_False.
Qed.

End SortGo.


(** Every plain call is rewritten, a conversion or a builtin too: it would
    call a function that nobody declares. sort.go has none in the functions
    that are kept. *)
Example conversions_are_rewritten :
  callees (rewriteCalls (CallExpr (Ident "int") [CallExpr (Ident "uint") [Ident "x"]])) = ["int_func"; "uint_func"]%string.
Proof. reflexivity. Qed.
