(* ===== verification/SyncDebug.v ===== *)
(** * syncutil/syncdebug: a mutex that tracks its holders

    syncdebug.go: the number of a goroutine out of its stack trace, and the
    RWMutexTracker as a machine of goroutines over Go's [sync.RWMutex], whose
    counters, holder and readers they update in steps of their own. *)
From S2P Require Import Prelude.
From S2P Require Strutil.

(** ** GoroutineID *)

Definition stackBufSize : Z := Z.shiftl 16 20.

(** The free buffers in the channel [stackBuf], by their capacities. *)
Definition getBuf (stackBuf : list Z) : Z * list Z :=
  match stackBuf with b :: rest => (b, rest) | [] => (stackBufSize, []) end.
Definition putBuf (b : Z) (stackBuf : list Z) : list Z := if zlen stackBuf <? 8 then stackBuf ++ [b] else stackBuf.

Definition goroutineSpace : list byte := String.list_byte_of_string "goroutine ".

(** [bytes.TrimPrefix(b, p)] and [bytes.IndexByte(b, c)] *)
Definition trimPrefix (b p : list byte) : list byte := if Strutil.hasPrefix b p then drop (length p) b else b.
Fixpoint indexByte (b : list byte) (c : byte) : option nat :=
  match b with [] => None | x :: b => if decide (x = c) then Some 0%nat else S <$> indexByte b c end.

(** The number in a stack trace; [None] for the two panics. *)
Definition GoroutineID (stack : list byte) : option Z :=
  let b := trimPrefix stack goroutineSpace in
  i ← indexByte b x20;
  match Strutil.ParseUintBytes (take i b) 10 64 with
  | (n, None) => Some (i64 n)
  | (_, Some _) => None
  end.

Lemma hasPrefix_app p s : Strutil.hasPrefix (p ++ s) p = true.
Proof. induction p as [|x p IH]; [by destruct s|]. cbn. rewrite IH. by rewrite bool_decide_eq_true_2. Qed.

Lemma indexByte_app b c s : c ∉ b → indexByte (b ++ c :: s) c = Some (length b).
Proof.
  induction b as [|x b IH]; cbn; [by rewrite decide_True|]. rewrite not_elem_of_cons. intros [? Hb].
  rewrite decide_False by done. by rewrite IH.
Qed.

Lemma digitsOf_cons base d ds vs :
  Strutil.digitsOf base (d :: ds) = Some vs →
  ∃ v vs', Strutil.digitVal d = Some v ∧ 0 ≤ v < base ∧ Strutil.digitsOf base ds = Some vs' ∧ vs = v :: vs'.
Proof.
  cbn. destruct (Strutil.digitVal d) as [v|] eqn:Hd; [|done]. cbn. destruct (Z.ltb_spec v base); [|done].
  destruct (Strutil.digitsOf base ds) as [vs'|]; [|done]. intros [= <-]. apply Strutil.digitVal_range in Hd.
  exists v, vs'. split_and!; try done; lia.
Qed.

Lemma digits_no_space ds vs : Strutil.digitsOf 10 ds = Some vs → x20 ∉ ds.
Proof.
  revert vs. induction ds as [|d ds IH]; intros vs H; [apply not_elem_of_nil|].
  apply digitsOf_cons in H as (v&vs'&Hd&_&H&_). apply not_elem_of_cons. split; [by intros <-|eauto].
Qed.

(** The digits of a prefix spell a smaller number. *)
Lemma digits_prefix_le p q n vs vs0 :
  Strutil.digitsOf 10 (p ++ q) = Some vs → Strutil.digitsOf 10 p = Some vs0 → 0 ≤ n →
  n ≤ foldl (λ n v, n * 10 + v) n vs0 ≤ foldl (λ n v, n * 10 + v) n vs.
Proof.
  revert n vs vs0. induction p as [|x p IH]; intros n vs vs0 H H0 Hn.
  - injection H0 as <-. cbn [foldl app] in *. clear -H Hn. revert n vs H Hn.
    induction q as [|d q IH]; intros n vs H Hn; [injection H as <-; cbn; lia|].
    apply digitsOf_cons in H as (v&vs'&_&Hv&H&->). cbn. specialize (IH (n * 10 + v) vs' H ltac:(lia)). lia.
  - apply digitsOf_cons in H as (v&vs'&Hd&Hv&H&->). apply digitsOf_cons in H0 as (v0&vs0'&Hd0&_&H0&->).
    rewrite Hd in Hd0. injection Hd0 as <-. cbn. specialize (IH (n * 10 + v) vs' vs0' H H0 ltac:(lia)). lia.
Qed.

Lemma digits_bad p d q vs : Strutil.digitsOf 10 (p ++ d :: q) = Some vs → Strutil.digitsOf 10 [d] ≠ None.
Proof.
  revert vs. induction p as [|x p IH]; intros vs H; apply digitsOf_cons in H as (v&vs'&Hd&Hv&H&_); [|eauto].
  cbn. rewrite Hd. cbn. destruct (Z.ltb_spec v 10); [done|lia].
Qed.

(** The trace of a goroutine starts with its number: that is what is returned. *)
Lemma GoroutineID_reads_number ds vs rest :
  ds ≠ [] → Strutil.digitsOf 10 ds = Some vs → Strutil.valueOf 10 vs < 2 ^ 63 →
  GoroutineID (goroutineSpace ++ ds ++ x20 :: rest) = Some (Strutil.valueOf 10 vs).
Proof.
  intros Hne Hds Hv. unfold GoroutineID, trimPrefix. rewrite hasPrefix_app, drop_app_length.
  rewrite indexByte_app by (by eapply digits_no_space). cbn [mbind option_bind]. rewrite take_app_length.
  assert (Strutil.ParseUintBytes ds 10 64 = Strutil.parseDigits 10 (Strutil.cutoff64 10) (2 ^ 64 - 1) 0 ds) as ->.
  { destruct ds; [done|]. reflexivity. }
  pose proof (Strutil.parseDigits_spec 10 (2 ^ 64 - 1) 0 ds ltac:(lia) ltac:(lia) ltac:(lia)) as Hspec.
  unfold Strutil.valueOf in *.
  destruct (Strutil.parseDigits _ _ _ _ _) as [v [[| |]|]]; cbn in Hspec; [| |done|].
  - destruct Hspec as (->&p&d&q&vs0&->&_&_&Hd). by apply digits_bad in Hds.
  - destruct Hspec as (->&p&q&vs0&->&Hp&Hlt). pose proof (digits_prefix_le p q 0 vs vs0 Hds Hp ltac:(lia)). lia.
  - destruct Hspec as (vs0&H0&->&Hle). rewrite Hds in H0. injection H0 as <-.
    pose proof (digits_prefix_le [] ds 0 vs [] Hds eq_refl ltac:(lia)) as [_ Hn]. cbn [foldl] in Hn.
    rewrite wrapS_small; [done|lia|lia].
Qed.

(** ** The tracker

    [own]: whether a read lock is released by the goroutine that acquired it;
    [sync.RWMutex] does not ask for that. *)

(** A goroutine in [Lock] and [Unlock], *)
Inductive wphase :=
| WNo
| W1      (* nwaitw is incremented *)
| W2      (* in mu.Lock: new readers have to wait *)
| W3      (* mu is locked *)
| W4      (* nwaitw is decremented *)
| W5      (* nhavew is incremented *)
| WHave   (* holder is set; Lock has returned *)
| U1      (* holder is nil *)
| U2.     (* nhavew is decremented *)

(** and in [RLock] and [RUnlock]. *)
Inductive rphase :=
| RNo
| R1      (* nwaitr is incremented *)
| R2      (* mu is read-locked *)
| R3      (* nwaitr is decremented *)
| R4      (* nhaver is incremented *)
| V1      (* nhaver is decremented *)
| V2.     (* the goroutine is deleted from holdr *)

(** [has]: the read locks it has acquired and recorded and that nobody has begun
    to release. *)
Record thread := Thread { wph : wphase; has : nat; rph : rphase }.

(** [sync.RWMutex]: the writer that holds it or waits for readers to leave. *)
Record state := State {
  writer : option nat;
  readers : Z;
  nwaitr : Z; nwaitw : Z; nhaver : Z; nhavew : Z;
  holder : option nat;          (* whose stack trace *)
  holdr : gset nat;
  threads : list thread }.

Definition init (n : nat) : state := State None 0 0 0 0 0 None ∅ (replicate n (Thread WNo 0 RNo)).

(** A goroutine outside of the four methods. *)
Definition idle (th : thread) : Prop := (wph th = WNo ∨ wph th = WHave) ∧ rph th = RNo.

Definition setW (th : thread) (p : wphase) : thread := Thread p (has th) (rph th).
Definition setR (th : thread) (p : rphase) : thread := Thread (wph th) (has th) p.

Definition oneLess (th : thread) : thread := Thread (wph th) (pred (has th)) (rph th).

Section tracker.
Variable own : bool.

Inductive step (st : state) : state → Prop :=
(* Lock *)
| StepLock t th : threads st !! t = Some th → idle th → wph th = WNo →
    step st (State (writer st) (readers st) (nwaitr st) (nwaitw st + 1) (nhaver st) (nhavew st) (holder st) (holdr st)
                   (<[t := setW th W1]> (threads st)))
| StepPending t th : threads st !! t = Some th → wph th = W1 → writer st = None →
    step st (State (Some t) (readers st) (nwaitr st) (nwaitw st) (nhaver st) (nhavew st) (holder st) (holdr st)
                   (<[t := setW th W2]> (threads st)))
| StepLocked t th : threads st !! t = Some th → wph th = W2 → readers st = 0 →
    step st (State (writer st) (readers st) (nwaitr st) (nwaitw st) (nhaver st) (nhavew st) (holder st) (holdr st)
                   (<[t := setW th W3]> (threads st)))
| StepNotWaiting t th : threads st !! t = Some th → wph th = W3 →
    step st (State (writer st) (readers st) (nwaitr st) (nwaitw st - 1) (nhaver st) (nhavew st) (holder st) (holdr st)
                   (<[t := setW th W4]> (threads st)))
| StepHave t th : threads st !! t = Some th → wph th = W4 →
    step st (State (writer st) (readers st) (nwaitr st) (nwaitw st) (nhaver st) (nhavew st + 1) (holder st) (holdr st)
                   (<[t := setW th W5]> (threads st)))
| StepHolder t th : threads st !! t = Some th → wph th = W5 →
    step st (State (writer st) (readers st) (nwaitr st) (nwaitw st) (nhaver st) (nhavew st) (Some t) (holdr st)
                   (<[t := setW th WHave]> (threads st)))
(* Unlock *)
| StepUnlock t th : threads st !! t = Some th → idle th → wph th = WHave →
    step st (State (writer st) (readers st) (nwaitr st) (nwaitw st) (nhaver st) (nhavew st) None (holdr st)
                   (<[t := setW th U1]> (threads st)))
| StepHaveNot t th : threads st !! t = Some th → wph th = U1 →
    step st (State (writer st) (readers st) (nwaitr st) (nwaitw st) (nhaver st) (nhavew st - 1) (holder st) (holdr st)
                   (<[t := setW th U2]> (threads st)))
| StepUnlocked t th : threads st !! t = Some th → wph th = U2 →
    step st (State None (readers st) (nwaitr st) (nwaitw st) (nhaver st) (nhavew st) (holder st) (holdr st)
                   (<[t := setW th WNo]> (threads st)))
(* RLock *)
| StepRLock t th : threads st !! t = Some th → idle th →
    step st (State (writer st) (readers st) (nwaitr st + 1) (nwaitw st) (nhaver st) (nhavew st) (holder st) (holdr st)
                   (<[t := setR th R1]> (threads st)))
| StepRLocked t th : threads st !! t = Some th → rph th = R1 → writer st = None →
    step st (State (writer st) (readers st + 1) (nwaitr st) (nwaitw st) (nhaver st) (nhavew st) (holder st) (holdr st)
                   (<[t := setR th R2]> (threads st)))
| StepRNotWaiting t th : threads st !! t = Some th → rph th = R2 →
    step st (State (writer st) (readers st) (nwaitr st - 1) (nwaitw st) (nhaver st) (nhavew st) (holder st) (holdr st)
                   (<[t := setR th R3]> (threads st)))
| StepRHave t th : threads st !! t = Some th → rph th = R3 →
    step st (State (writer st) (readers st) (nwaitr st) (nwaitw st) (nhaver st + 1) (nhavew st) (holder st) (holdr st)
                   (<[t := setR th R4]> (threads st)))
| StepHoldr t th : threads st !! t = Some th → rph th = R4 → t ∉ holdr st →
    step st (State (writer st) (readers st) (nwaitr st) (nwaitw st) (nhaver st) (nhavew st) (holder st) ({[t]} ∪ holdr st)
                   (<[t := Thread (wph th) (S (has th)) RNo]> (threads st)))
(* RUnlock by t of the read lock that u has acquired *)
| StepRUnlock t u th : threads st !! t = Some th → idle th → is_Some (threads st !! u) → (∀ thu, threads st !! u = Some thu → (0 < has thu)%nat) →
    (own = true → u = t) →
    step st (State (writer st) (readers st) (nwaitr st) (nwaitw st) (nhaver st - 1) (nhavew st) (holder st) (holdr st)
                   (alter oneLess u (<[t := setR th V1]> (threads st))))
| StepDelete t th : threads st !! t = Some th → rph th = V1 →
    step st (State (writer st) (readers st) (nwaitr st) (nwaitw st) (nhaver st) (nhavew st) (holder st) (holdr st ∖ {[t]})
                   (<[t := setR th V2]> (threads st)))
| StepRUnlocked t th : threads st !! t = Some th → rph th = V2 →
    step st (State (writer st) (readers st - 1) (nwaitr st) (nwaitw st) (nhaver st) (nhavew st) (holder st) (holdr st)
                   (<[t := setR th RNo]> (threads st))).

(** The process ends with the fatal message of [RLock]. *)
Definition fatal (st : state) (t : nat) : Prop := ∃ th, threads st !! t = Some th ∧ rph th = R4 ∧ t ∈ holdr st.

Inductive reach (n : nat) : state → Prop :=
| ReachInit : reach n (init n)
| ReachStep st st' : reach n st → step st st' → reach n st'.
End tracker.

(** ** Invariant *)

#[global] Instance wphase_eq_dec : EqDecision wphase.
Proof. solve_decision. Defined.
#[global] Instance rphase_eq_dec : EqDecision rphase.
Proof. solve_decision. Defined.

(** What a goroutine contributes to each counter, and to the readers of mu. *)
Definition waitsW (th : thread) : Z := match wph th with W1 | W2 | W3 => 1 | _ => 0 end.
Definition havesW (th : thread) : Z := match wph th with W5 | WHave | U1 => 1 | _ => 0 end.
Definition waitsR (th : thread) : Z := match rph th with R1 | R2 => 1 | _ => 0 end.
Definition havesR (th : thread) : Z := Z.of_nat (has th) + match rph th with R4 => 1 | _ => 0 end.
Definition reads (th : thread) : Z := Z.of_nat (has th) + match rph th with R2 | R3 | R4 | V1 | V2 => 1 | _ => 0 end.

(** It is the writer that mu knows; mu is locked for it. *)
Definition writes (th : thread) : bool := match wph th with WNo | W1 => false | _ => true end.
Definition locked (th : thread) : bool := match wph th with WNo | W1 | W2 => false | _ => true end.

Record Inv (st : state) : Prop := {
  inv_nwaitw : nwaitw st = sumZ waitsW (threads st);
  inv_nhavew : nhavew st = sumZ havesW (threads st);
  inv_nwaitr : nwaitr st = sumZ waitsR (threads st);
  inv_nhaver : nhaver st = sumZ havesR (threads st);
  inv_readers : readers st = sumZ reads (threads st);
  inv_writer t th : threads st !! t = Some th → (writes th = true ↔ writer st = Some t);
  inv_locked t th : threads st !! t = Some th → locked th = true → readers st = 0;
  inv_holder t th : threads st !! t = Some th → (wph th = WHave ↔ holder st = Some t);
}.

(** A step of one goroutine that is no step of the writers' side. *)
Lemma trackerInv_reader st t th th' nwr nhr rd hr :
  Inv st → threads st !! t = Some th → wph th' = wph th →
  nwr = nwaitr st - waitsR th + waitsR th' → nhr = nhaver st - havesR th + havesR th' →
  rd = readers st - reads th + reads th' → 
  (rd ≤ readers st ∨ writer st = None ∨ ∀ t0 th0, threads st !! t0 = Some th0 → locked th0 = false) →
  Inv (State (writer st) rd nwr (nwaitw st) nhr (nhavew st) (holder st) hr (<[t := th']> (threads st))).
Proof.
  intros [H1 H2 H3 H4 H5 H6 H7 H8] Ht Hw -> -> -> Hrd.
  assert (∀ t0 th0, <[t := th']> (threads st) !! t0 = Some th0 → ∃ th1, threads st !! t0 = Some th1 ∧ wph th0 = wph th1) as Hl.
  { intros t0 th0 [(<-&<-&_)|[_ H]]%list_lookup_insert_Some; eauto. }
  assert (0 ≤ sumZ reads (<[t:=th']> (threads st))) as Hpos.
  { apply sumZ_nonneg. intros x. unfold reads. destruct (rph x); lia. }
  rewrite (sumZ_insert _ _ _ _ _ Ht) in Hpos.
  split; cbn [writer readers nwaitr nwaitw nhaver nhavew holder holdr threads]; rewrite ?(sumZ_insert _ _ _ _ _ Ht).
  - rewrite H1. unfold waitsW. rewrite Hw. lia.
  - rewrite H2. unfold havesW. rewrite Hw. lia.
  - lia.
  - lia.
  - lia.
  - intros t0 th0 (th1&Ht1&Hw1)%Hl. unfold writes. rewrite Hw1. by apply H6.
  - intros t0 th0 (th1&Ht1&Hw1)%Hl Hlk. unfold locked in Hlk. rewrite Hw1 in Hlk. change (locked th1 = true) in Hlk.
    pose proof (H7 _ _ Ht1 Hlk) as Hz. destruct Hrd as [Hrd|[Hrd|Hrd]]; [lia| |by rewrite (Hrd _ _ Ht1) in Hlk].
    assert (writes th1 = true) as Hwr%(H6 _ _ Ht1) by (unfold writes, locked in *; by destruct (wph th1)). congruence.
  - intros t0 th0 (th1&Ht1&Hw1)%Hl. rewrite Hw1. by apply H8.
Qed.

(** A step of one goroutine on the writers' side. *)
Lemma trackerInv_writer st t th p w h nww nhw :
  Inv st → threads st !! t = Some th → let th' := setW th p in
  nww = nwaitw st - waitsW th + waitsW th' → nhw = nhavew st - havesW th + havesW th' →
  (writes th' = writes th ∧ w = writer st ∨ writes th' = true ∧ w = Some t ∧ writer st = None ∨ writes th' = false ∧ writes th = true ∧ w = None) →
  (locked th' = true → locked th = true ∨ readers st = 0) →
  (wph th' = WHave ∧ h = Some t ∧ writes th = true ∨ wph th' ≠ WHave ∧ wph th = WHave ∧ h = None ∨
   wph th' ≠ WHave ∧ wph th ≠ WHave ∧ h = holder st) →
  Inv (State w (readers st) (nwaitr st) nww (nhaver st) nhw h (holdr st) (<[t := th']> (threads st))).
Proof.
  intros [H1 H2 H3 H4 H5 H6 H7 H8] Ht th' -> -> Hw Hlk Hh.
  assert (∀ t0 th0, t0 ≠ t → threads st !! t0 = Some th0 → writes th = true → writes th0 = false) as Huniq.
  { intros t0 th0 Hne H0 Hwr%(H6 _ _ Ht). destruct (writes th0) eqn:E; [|done]. apply (H6 _ _ H0) in E. congruence. }
  assert (∀ th0, wph th0 = WHave → writes th0 = true) as HW by (intros th0 E; unfold writes; by rewrite E).
  split; cbn [writer readers nwaitr nwaitw nhaver nhavew holder holdr threads]; rewrite ?(sumZ_insert _ _ _ _ _ Ht); try lia.
  - unfold waitsR in *. cbn. lia.
  - unfold havesR in *. cbn. lia.
  - unfold reads in *. cbn. lia.
  - intros t0 th0 [(<-&<-&_)|[Hne H0]]%list_lookup_insert_Some.
    + destruct Hw as [[-> ->]|[(->&->&_)|(->&_&->)]]; [by apply H6|done|done].
    + destruct Hw as [[_ ->]|[(_&->&Hn)|(_&Hwr&->)]]; [by apply H6| |].
      * rewrite (H6 _ _ H0), Hn. split; congruence.
      * rewrite (Huniq _ _ (not_eq_sym Hne) H0 Hwr). done.
  - intros t0 th0 [(<-&<-&_)|[Hne H0]]%list_lookup_insert_Some Hl; [|by apply (H7 _ _ H0)].
    destruct (Hlk Hl) as [?|?]; [by apply (H7 _ _ Ht)|done].
  - intros t0 th0 [(<-&<-&_)|[Hne H0]]%list_lookup_insert_Some.
    + destruct Hh as [(?&->&_)|[(?&_&->)|(?&Hn&->)]]; [done| |]; (split; [done|]); [done|].
      intros Hx. by apply (H8 _ _ Ht) in Hx.
    + destruct Hh as [(_&->&Hwr)|[(_&Hwr&->)|(_&_&->)]]; [| |by apply H8].
      * split; [|congruence]. intros Hx%HW. rewrite (Huniq _ _ (not_eq_sym Hne) H0 Hwr) in Hx. done.
      * split; [|done]. intros Hx%HW. rewrite (Huniq _ _ (not_eq_sym Hne) H0 (HW _ Hwr)) in Hx. done.
Qed.

Lemma alter_as_insert {A} (f : A → A) (l : list A) (i : nat) x : l !! i = Some x → alter f i l = <[i := f x]> l.
Proof.
  intros H. apply list_eq. intros j. rewrite list_lookup_alter, list_lookup_insert.
  case_decide as Hij; [subst; rewrite H, decide_True; [done|]|rewrite decide_False; [done|naive_solver]].
  split; [done|]. by eapply lookup_lt_Some.
Qed.

Lemma trackerInv_step own st st' : Inv st → step own st st' → Inv st'.
Proof.
  intros HI Hstep.
  destruct Hstep as [t th Ht Hi Hp|t th Ht Hp Hw|t th Ht Hp Hr|t th Ht Hp|t th Ht Hp|t th Ht Hp|t th Ht Hi Hp|t th Ht Hp|t th Ht Hp
    |t th Ht [_ Hp]|t th Ht Hp Hw|t th Ht Hp|t th Ht Hp|t th Ht Hp Hn|t u th Ht [_ Hp] [thu Hu] Hhas Hown|t th Ht Hp|t th Ht Hp].
  1-9: (apply (trackerInv_writer st t th _ _ _ _ _ HI Ht);
    unfold waitsW, havesW, writes, locked; cbn [wph setW]; rewrite ?Hp; try lia; auto 6; naive_solver).
  6: { assert (Hu' : <[t := setR th V1]> (threads st) !! u = Some (if decide (u = t) then setR th V1 else thu)).
       { case_decide as E; [subst; apply list_lookup_insert_eq; by eapply lookup_lt_Some|by rewrite list_lookup_insert_ne]. }
       rewrite (alter_as_insert _ _ _ _ Hu').
       set (st1 := State (writer st) (readers st + 1) (nwaitr st) (nwaitw st) (nhaver st) (nhavew st) (holder st) (holdr st)
                         (<[t := setR th V1]> (threads st))).
       assert (Inv st1) as HI1.
       { apply trackerInv_reader with th; unfold waitsR, havesR, reads; cbn [rph has setR wph]; rewrite ?Hp; try lia; auto.
         right. right. intros t0 th0 H0. destruct (locked th0) eqn:E; [|done].
         pose proof (inv_locked _ HI _ _ H0 E) as Hz. rewrite (inv_readers _ HI) in Hz.
         assert (reads thu ≤ sumZ reads (threads st)) as Hle.
         { apply sumZ_lookup with u; [|done]. intros x. unfold reads. destruct (rph x); lia. }
         specialize (Hhas _ Hu). unfold reads in Hle at 1. destruct (rph thu); lia. }
       specialize (Hhas _ Hu).
       apply (trackerInv_reader st1 u _ (oneLess (if decide (u = t) then setR th V1 else thu)) _ _ _ _ HI1 Hu'); [done|..];
         unfold waitsR, havesR, reads; cbn [rph has setR wph oneLess nwaitr nhaver readers st1];
         assert ((0 < has (if decide (u = t) then setR th V1 else thu))%nat)
           by (case_decide; [subst; cbn; congruence|done]); try lia.
  }
  all: apply trackerInv_reader with th; unfold waitsR, havesR, reads; cbn [rph has setR wph]; rewrite ?Hp; try lia; auto.
Qed.

(** With read locks released by those who acquired them, holdr has exactly the
    goroutines that have one or are about to be deleted. *)
Definition ownOk (hr : gset nat) (t : nat) (th : thread) : Prop :=
  (t ∈ hr ↔ (0 < has th)%nat ∨ rph th = V1) ∧ (has th ≤ 1)%nat ∧ (rph th = V1 → has th = 0%nat).
Definition ownInv (st : state) : Prop := ∀ t th, threads st !! t = Some th → ownOk (holdr st) t th.

Lemma ownInv_set st t th th' hr w rd a b c d h :
  ownInv st → threads st !! t = Some th → (∀ t0, t0 ≠ t → t0 ∈ hr ↔ t0 ∈ holdr st) → ownOk hr t th' →
  ownInv (State w rd a b c d h hr (<[t := th']> (threads st))).
Proof.
  intros HI Ht Hhr Hok t0 th0. cbn. intros [(<-&<-&_)|[Hne H0]]%list_lookup_insert_Some; [done|].
  destruct (HI _ _ H0) as (H1&H2&H3). split; [|done]. rewrite Hhr by done. exact H1.
Qed.

Lemma ownInv_step st st' : ownInv st → step true st st' → ownInv st'.
Proof.
  intros HI Hstep.
  destruct Hstep as [t th Ht Hi Hp|t th Ht Hp Hw|t th Ht Hp Hr|t th Ht Hp|t th Ht Hp|t th Ht Hp|t th Ht Hi Hp|t th Ht Hp|t th Ht Hp
    |t th Ht [_ Hp]|t th Ht Hp Hw|t th Ht Hp|t th Ht Hp|t th Ht Hp Hn|t u th Ht [_ Hp] [thu Hu] Hhas Hown|t th Ht Hp|t th Ht Hp];
    destruct (HI _ _ Ht) as (H1&H2&H3); rewrite ?Hp in *.
  15: { rewrite (Hown eq_refl) in *. specialize (Hhas _ Ht).
        rewrite (alter_as_insert _ _ _ (setR th V1)) by (apply list_lookup_insert_eq; by eapply lookup_lt_Some).
        rewrite list_insert_insert_eq. eapply ownInv_set; [done..|]. unfold ownOk, oneLess, setR. cbn. rewrite H1.
        split_and!; [|lia|lia]. split; [by right|lia]. }
  14: { eapply ownInv_set; [done..|intros; set_solver|]. unfold ownOk. cbn.
        assert (¬ (0 < has th)%nat) by (intros ?; apply Hn, H1; by left). split_and!; [|lia|done]. split; [intros; left; lia|set_solver]. }
  14: { eapply ownInv_set; [done..|intros; set_solver|]. unfold ownOk, setR. cbn. rewrite H3 by done.
        split_and!; [|lia|done]. split; [set_solver|]. intros [?|?]; [lia|done]. }
  all: eapply ownInv_set; [done..|]; unfold ownOk, setW, setR; cbn; rewrite ?Hp, H1; split_and!; try done; try lia; naive_solver.
Qed.

Lemma tracker_reach_inv own n st : reach own n st → Inv st.
Proof.
  induction 1 as [|st st' _ IH Hstep]; [|by eapply trackerInv_step].
  assert (∀ t th, threads (init n) !! t = Some th → th = Thread WNo 0 RNo) as Hth.
  { intros t th [-> _]%lookup_replicate. done. }
  split; cbn [init nwaitw nhavew nwaitr nhaver readers writer holder].
  1-5: symmetry; apply sumZ_zero; intros i x ->%Hth; done.
  all: intros t th ->%Hth; done.
Qed.

Lemma tracker_own_inv n st : reach true n st → ownInv st.
Proof.
  induction 1 as [|st st' _ IH Hstep]; [|by eapply ownInv_step].
  intros t th [-> _]%lookup_replicate. unfold ownOk. cbn. split_and!; [|lia|done]. split; [set_solver|].
  intros [?|?]; [lia|done].
Qed.

Lemma sum_at_most_one {A} (f : A → Z) l :
  (∀ x, f x = 0 ∨ f x = 1) → (∀ i j x y, l !! i = Some x → l !! j = Some y → f x = 1 → f y = 1 → i = j) →
  sumZ f l = 0 ∨ sumZ f l = 1.
Proof.
  intros Hf. induction l as [|x l IH]; intros Hone; [by left|]. rewrite sumZ_cons.
  destruct IH as [->| Hs]; [|destruct (Hf x); lia|].
  { intros i j a b Hi Hj Ha Hb. by apply Nat.succ_inj, (Hone (S i) (S j) a b). }
  destruct (Hf x) as [->|Hx]; [lia|]. exfalso.
  assert (sumZ f l = 0); [|lia]. apply sumZ_zero. intros i y Hy. destruct (Hf y) as [?|Hy1]; [done|].
  by pose proof (Hone 0%nat (S i) x y eq_refl Hy Hx Hy1).
Qed.

(** C26. The tracker tracks, under every interleaving of the goroutines: nhavew
    is 0 or 1; each counter is the number of goroutines between its two
    updates, and none is negative; while mu is locked for writing nobody else
    has it, for writing or reading; [Holder] names the goroutine whose [Lock] has
    returned and who has not called [Unlock], and nobody otherwise. If read locks
    are released by the goroutines that acquired them, the fatal message of
    [RLock] comes only when the goroutine has a read lock already. *)
Theorem tracker_tracks own n st :
  reach own n st →
  (nhavew st = 0 ∨ nhavew st = 1) ∧
  nhavew st = sumZ havesW (threads st) ∧ nwaitw st = sumZ waitsW (threads st) ∧
  nhaver st = sumZ havesR (threads st) ∧ nwaitr st = sumZ waitsR (threads st) ∧
  0 ≤ nwaitw st ∧ 0 ≤ nhaver st ∧ 0 ≤ nwaitr st ∧
  (∀ t t' th th', threads st !! t = Some th → threads st !! t' = Some th' → locked th = true →
     (locked th' = true → t = t') ∧ reads th' = 0) ∧
  (∀ t th, threads st !! t = Some th → (holder st = Some t ↔ wph th = WHave)) ∧
  (own = true → ∀ t, fatal st t → ∃ th, threads st !! t = Some th ∧ (0 < has th)%nat).
Proof.
  intros Hr. pose proof (tracker_reach_inv _ _ _ Hr) as [H1 H2 H3 H4 H5 H6 H7 H8].
  assert (∀ x, 0 ≤ waitsW x) by (intros x; unfold waitsW; destruct (wph x); lia).
  assert (∀ x, 0 ≤ havesR x) by (intros x; unfold havesR; destruct (rph x); lia).
  assert (∀ x, 0 ≤ waitsR x) by (intros x; unfold waitsR; destruct (rph x); lia).
  assert (∀ x, 0 ≤ reads x) by (intros x; unfold reads; destruct (rph x); lia).
  assert (∀ th, locked th = true → writes th = true) as Hlw by (intros th; unfold locked, writes; by destruct (wph th)).
  assert (∀ t t' th th', threads st !! t = Some th → threads st !! t' = Some th' → writes th = true → writes th' = true → t = t') as Huniq.
  { intros t t' th th' Ht Ht' Hw%(H6 _ _ Ht) Hw'%(H6 _ _ Ht'). congruence. }
  split_and!; try done.
  - rewrite H2. apply sum_at_most_one; [intros x; unfold havesW; destruct (wph x); auto|].
    intros t t' th th' Ht Ht' Hh Hh'. eapply Huniq; [exact Ht|exact Ht'| |];
      [revert Hh|revert Hh']; unfold havesW, writes; by destruct (wph _).
  - rewrite H1. by apply sumZ_nonneg.
  - rewrite H4. by apply sumZ_nonneg.
  - rewrite H3. by apply sumZ_nonneg.
  - intros t t' th th' Ht Ht' Hl. split; [eauto|]. pose proof (H7 _ _ Ht Hl) as Hz. rewrite H5 in Hz.
    assert (reads th' ≤ sumZ reads (threads st)) by (by apply (sumZ_lookup reads _ t')).
    assert (0 ≤ reads th') by done. lia.
  - intros t th Ht. symmetry. by apply H8.
  - intros -> t (th&Ht&Hp&Hin). exists th. split; [done|]. destruct (tracker_own_inv _ _ Hr _ _ Ht) as (Hiff&_).
    apply Hiff in Hin as [?|?]; [done|congruence].
Qed.

(** ** Runs *)

Ltac tidyTracker H :=
  match type of H with reach ?o ?n ?x => let v := eval vm_compute in x in change (reach o n v) in H end.
Tactic Notation "track" uconstr(s) :=
  match goal with H : reach _ _ _ |- _ =>
    eapply ReachStep in H; [|eapply s; try (vm_compute; first [reflexivity|congruence|split; auto])]; tidyTracker H end.

(** One goroutine has the lock while another one waits for it. *)
Lemma tracker_tracks_witness :
  ∃ st, reach true 2 st ∧ nhavew st = 1 ∧ nwaitw st = 1 ∧ (holder st = Some 0%nat ↔ WHave = WHave).
Proof.
  pose proof (ReachInit true 2) as H. tidyTracker H.
  track (StepLock _ _ 0%nat). track (StepPending _ _ 0%nat). track (StepLocked _ _ 0%nat). track (StepNotWaiting _ _ 0%nat).
  track (StepHave _ _ 0%nat). track (StepHolder _ _ 0%nat). track (StepLock _ _ 1%nat).
  eexists. split; [exact H|]. split_and!; [reflexivity|reflexivity|].
  destruct (tracker_tracks _ _ _ H) as (_&_&_&_&_&_&_&_&_&Hh&_).
  exact (Hh 0%nat (Thread WHave 0 RNo) eq_refl).
Defined.

(** If another goroutine releases a read lock, the first one is still in holdr:
    its next [RLock] ends the process though it has no read lock. *)
Lemma handed_over_read_lock_is_fatal :
  ∃ st, reach false 2 st ∧ fatal st 0 ∧ threads st !! 0%nat = Some (Thread WNo 0 R4).
Proof.
  pose proof (ReachInit false 2) as H. tidyTracker H.
  track (StepRLock _ _ 0%nat). track (StepRLocked _ _ 0%nat). track (StepRNotWaiting _ _ 0%nat). track (StepRHave _ _ 0%nat).
  eapply ReachStep in H; [|eapply (StepHoldr _ _ 0%nat); [reflexivity|reflexivity|apply not_elem_of_empty]]. tidyTracker H.
  eapply ReachStep in H; [|eapply (StepRUnlock _ _ 1%nat 0%nat); [reflexivity|split; auto|by eexists|intros thu [= <-]; cbn; lia|done]].
  tidyTracker H.
  track (StepDelete _ _ 1%nat). track (StepRUnlocked _ _ 1%nat).
  track (StepRLock _ _ 0%nat). track (StepRLocked _ _ 0%nat). track (StepRNotWaiting _ _ 0%nat). track (StepRHave _ _ 0%nat).
  eexists. split; [exact H|]. split; [|reflexivity]. eexists. split; [reflexivity|]. split; [reflexivity|].
  apply (bool_decide_eq_true_1 _). vm_compute. reflexivity.
Qed.
