(* ===== verification/Types.v ===== *)
(** * types: times as JSON, closers

    types.go. A [time.Time] is its instant, in nanoseconds since the zero time
    (January 1 of year 1, UTC): the code looks at nothing else of it. RFC 3339
    ([time.Parse] and [Format] in UTC) is a parameter, with the law that a
    formatted time parses to itself. *)
From S2P Require Import Prelude SortModel SortLaws SortQuick SortSlices.
From S2P Require Strutil.

Definition Time := Z.
Definition zeroTime : Time := 0.
Definition IsZero (t : Time) : bool := t =? 0.
(** [t.Unix()]: seconds since 1970. *)
Definition Unix (t : Time) : Z := t / 1000000000 - 62135596800.
Definition Before (t u : Time) : bool := t <? u.

Definition null_b : list byte := String.list_byte_of_string "null".
Definition quote : byte := x22.

Section time3339.
Context {E : Type}.
Variable Format : Time → list byte.                   (* t.UTC().Format(time.RFC3339Nano) *)
Variable Parse : list byte → Time + E.                (* time.Parse(time.RFC3339Nano, s) *)
Variable marshal : list byte → list byte.             (* json.Marshal of a string *)

Definition Time3339 := Time.
Definition String_ (t : Time3339) : list byte := Format t.

Definition MarshalJSON (t : Time3339) : list byte := if IsZero t then null_b else marshal (String_ t).

Inductive jsonError := ErrNotString (b : list byte) | ErrParse (e : E).

(** [t.UnmarshalJSON(b)]: what [*t] is then, and the error. *)
Definition UnmarshalJSON (t : Time3339) (b : list byte) : Time3339 * option jsonError :=
  if bool_decide (b = null_b) then (zeroTime, None)
  else if (zlen b <? 2) || negb (bool_decide (head b = Some quote)) || negb (bool_decide (last b = Some quote))
  then (t, Some (ErrNotString b))
  else
    let s := take (length b - 2) (drop 1 b) in
    if bool_decide (s = []) then (zeroTime, None)
    else
      match Parse s with
      | inl tm => (tm, None)
      | inr e =>
          if Strutil.hasPrefix s (String.list_byte_of_string "0000-00-00T00:00:00") then (zeroTime, None)
          else (t, Some (ErrParse e))
      end.

Definition ParseTime3339OrZero (v : list byte) : Time3339 :=
  match Parse v with inl t => t | inr _ => zeroTime end.

Definition ParseTime3339OrNil (v : list byte) : option Time3339 :=
  match Parse v with inl t => Some t | inr _ => None end.

(** [t.IsAnyZero()], nil included. *)
Definition IsAnyZero (t : option Time3339) : bool :=
  match t with None => true | Some t => IsZero t || (Unix t =? 0) end.

(** A time written as JSON reads back; the zero time is null. The bytes that
    were in [*t] do not matter, and an error leaves them. *)
Lemma MarshalJSON_reads_back t t0 :
  Format t ≠ [] → Parse (Format t) = inl t → marshal (Format t) = quote :: Format t ++ [quote] →
  UnmarshalJSON t0 (MarshalJSON t) = (t, None).
Proof.
  intros Hne Hp Hm. unfold MarshalJSON, String_, IsZero. destruct (Z.eqb_spec t 0) as [->|Hz]; [done|].
  rewrite Hm. unfold UnmarshalJSON. rewrite bool_decide_eq_false_2 by done. rewrite app_comm_cons, last_snoc. cbn [head app].
  rewrite !bool_decide_eq_true_2 by done. cbn [length]. rewrite length_app.
  replace (Z.of_nat (S (length (Format t) + length [quote])) <? 2) with false
    by (symmetry; apply Z.ltb_ge; destruct (Format t); [done|cbn; lia]).
  cbn [orb negb]. cbn [length].
  replace (S (length (Format t) + 1) - 2)%nat with (length (Format t)) by lia.
  change (drop 1 (quote :: Format t ++ [quote])) with (Format t ++ [quote]).
  rewrite take_app_length, bool_decide_eq_false_2 by done. by rewrite Hp.
Qed.

Lemma UnmarshalJSON_error t b t' e : UnmarshalJSON t b = (t', Some e) → t' = t.
Proof.
  unfold UnmarshalJSON. repeat case_match; intros; simplify_eq; done.
Qed.
End time3339.

(** ** ByTime *)

Definition ByTime : Interface (list Time) := sliceInterface Before.

#[export] Instance Before_swo : StrictWeakOrder Before.
Proof. split; unfold Before; intros *; rewrite ?Z.ltb_lt, ?Z.ltb_ge; lia. Qed.

(** Times are sorted by [Sort]: the interface keeps the contract of the sorts. *)
#[export] Instance ByTime_laws : SortLaws ByTime Before id := slice_laws Before.

(** ** Closers *)

Section closers.
Context {W E : Type}.

(** An [io.Closer]: what closing does. *)
Definition Closer := W → W * option E.

Definition CloseFunc (fn : W → W * option E) : Closer := fn.
Definition NopCloser : Closer := CloseFunc (λ w, (w, None)).

(** [onceCloser]: the closer, until it has been closed; its Close runs in one
    critical section. *)
Definition onceCloser := option Closer.
Definition NewOnceCloser (c : Closer) : onceCloser := Some c.

Definition onceClose (o : onceCloser) (w : W) : onceCloser * W * option E :=
  match o with
  | None => (None, w, None)
  | Some c => let '(w, err) := c w in (None, w, err)
  end.

(** [n] calls, by whatever goroutines: the errors they get. *)
Fixpoint closeTimes (n : nat) (o : onceCloser) (w : W) : onceCloser * W * list (option E) :=
  match n with
  | O => (o, w, [])
  | S n =>
      let '(o, w, err) := onceClose o w in
      let '(o, w, errs) := closeTimes n o w in
      (o, w, err :: errs)
  end.

(** The first call closes, and gets the error; the others do nothing. *)
Lemma onceCloser_closes_once c n w :
  closeTimes (S n) (NewOnceCloser c) w = (None, (c w).1, (c w).2 :: replicate n None).
Proof.
  cbn. destruct (c w) as [w' err]. cbn. assert (closeTimes n None w' = (None, w', replicate n None)) as ->; [|done].
  induction n as [|n IH]; [done|]. cbn. by rewrite IH.
Qed.
End closers.

(** [EmptyBody]: a reader at its end, with a [Close] that does nothing. *)
Definition EmptyBodyRead (n : Z) : list byte * bool := ([], true).
