(* ===== verification/ErrorUtil.v ===== *)
(** * errorutil: where in a file an error is

    highlight.go: line, column and context of a byte position. The reader is
    the bytes it delivers until its first error. *)
From S2P Require Import Prelude.
From S2P Require WriterUtil.

Definition newline : byte := x0a.

(** The loop: after [n] bytes, the line and column, the last line and what has
    been read of this one. *)
Record place := Place { line : Z; col : Z; lastLine : list byte; thisLine : list byte }.

Definition readByte (p : place) (b : byte) : place :=
  if bool_decide (b = newline) then Place (line p + 1) 1 (thisLine p) []
  else Place (line p) (col p + 1) (lastLine p) (thisLine p ++ [b]).

Fixpoint readTo (pos n : Z) (f : list byte) (p : place) : place :=
  match f with
  | [] => p                          (* ReadByte fails *)
  | b :: f => if n <? pos then readTo pos (n + 1) f (readByte p b) else p
  end.

Definition spaces (n : Z) : list byte := replicate (Z.to_nat n) x20.
Definition bytes (s : string) : list byte := String.list_byte_of_string s.

(** ["%5d: %s\n"] *)
Definition sourceLine (n : Z) (text : list byte) : list byte :=
  let d := WriterUtil.formatInt n in
  spaces (5 - zlen d) ++ d ++ bytes ": " ++ text ++ [newline].

Definition HighlightBytePosition (f : list byte) (pos : Z) : Z * Z * list byte :=
  let p := readTo pos 0 f (Place 1 0 [] []) in
  let highlight := (if 1 <? line p then sourceLine (line p - 1) (lastLine p) else []) ++
    sourceLine (line p) (thisLine p) ++ spaces (col p + 5) ++ bytes "^" ++ [newline] in
  (line p, col p, highlight).

(** ** Specification *)

(** The lines of a text, the last one unfinished: one more than it has newlines. *)
Fixpoint linesOf (s : list byte) : list (list byte) :=
  match s with
  | [] => [[]]
  | b :: s =>
      if bool_decide (b = newline) then [] :: linesOf s
      else match linesOf s with l :: ls => (b :: l) :: ls | [] => [[b]] end
  end.

Lemma linesOf_ne s : linesOf s ≠ [].
Proof. destruct s as [|b s]; cbn; [done|]. case_bool_decide; [done|]. by destruct (linesOf s). Qed.

Lemma linesOf_snoc s b :
  linesOf (s ++ [b]) =
    if bool_decide (b = newline) then linesOf s ++ [[]]
    else removelast (linesOf s) ++ [default [] (last (linesOf s)) ++ [b]].
Proof.
  induction s as [|c s IH]; cbn; [by case_bool_decide|]. rewrite IH. pose proof (linesOf_ne s) as Hne.
  repeat case_bool_decide; try done.
  - destruct (linesOf s) as [|l ls]; [done|]. destruct ls; done.
  - destruct (linesOf s) as [|l ls]; [done|]. done.
  - destruct (linesOf s) as [|l [|l' ls]]; done.
Qed.

Definition placeOf (s : list byte) : place :=
  let ls := linesOf s in
  let this := default [] (last ls) in
  Place (zlen ls) (zlen this + (if 1 <? zlen ls then 1 else 0))
        (if 1 <? zlen ls then default [] (last (removelast ls)) else []) this.

Lemma length_removelast {A} (l : list A) : length (removelast l) = pred (length l).
Proof. induction l as [|x [|y l] IH]; [done|done|]. cbn in *. by rewrite IH. Qed.

Lemma readByte_placeOf s b : readByte (placeOf s) b = placeOf (s ++ [b]).
Proof.
  unfold readByte, placeOf. rewrite linesOf_snoc. pose proof (linesOf_ne s) as Hne.
  assert (0 < zlen (linesOf s)) as Hpos by (destruct (linesOf s); [done|cbn; lia]).
  case_bool_decide as Hb.
  - rewrite length_app, last_snoc, removelast_last. cbn [length thisLine line]. 
    destruct (Z.ltb_spec 1 (Z.of_nat (length (linesOf s) + 1))); [|lia]. f_equal; cbn; lia.
  - rewrite length_app, length_removelast, last_snoc, removelast_last. cbn [length thisLine line col lastLine default].
    replace (Z.of_nat (pred (length (linesOf s)) + 1)) with (zlen (linesOf s)) by lia.
    unfold id. rewrite length_app. cbn [length]. f_equal. lia.
Qed.

Lemma readTo_placeOf pos n f s :
  0 ≤ n → readTo pos n f (placeOf s) = placeOf (s ++ take (Z.to_nat (pos - n)) f).
Proof.
  revert n s. induction f as [|b f IH]; intros n s Hn; cbn [readTo]; [by rewrite take_nil, app_nil_r|].
  destruct (Z.ltb_spec n pos).
  - rewrite readByte_placeOf, IH by lia. f_equal. rewrite <-app_assoc. f_equal.
    replace (Z.to_nat (pos - n)) with (S (Z.to_nat (pos - (n + 1)))) by lia. done.
  - replace (Z.to_nat (pos - n)) with 0%nat by lia. by rewrite take_0, app_nil_r.
Qed.

(** The result for a position is that of the text before it, or of the
    whole text if it is shorter: the line is the number of the text's last
    line, the context shows what the text has of it, below the line before it
    if there is one, and an arrow. The column counts from 1 on all lines but
    the first: there it is the number of bytes read, elsewhere one more, so the
    arrow is below the last byte read only from the second line on, and one
    column to the left of it on the first. *)
Theorem HighlightBytePosition_locates f pos :
  let ls := linesOf (take (Z.to_nat pos) f) in
  let this := default [] (last ls) in
  let first := zlen ls =? 1 in
  let col := zlen this + (if first then 0 else 1) in
  HighlightBytePosition f pos =
    (zlen ls, col,
     (if first then [] else sourceLine (zlen ls - 1) (default [] (last (removelast ls)))) ++
     sourceLine (zlen ls) this ++ spaces (zlen this + (if first then 5 else 6)) ++ bytes "^" ++ [newline]) ∧
  (zlen ls = 1 ↔ newline ∉ take (Z.to_nat pos) f).
Proof.
  intros ls this first col.
  assert (0 < zlen ls) as Hpos by (pose proof (linesOf_ne (take (Z.to_nat pos) f)); unfold ls; destruct (linesOf _); [done|cbn; lia]).
  split.
  - unfold HighlightBytePosition. change (Place 1 0 [] []) with (placeOf []). rewrite readTo_placeOf by done.
    rewrite Z.sub_0_r. cbn [app]. unfold placeOf. cbn [line ErrorUtil.col lastLine thisLine]. fold ls. fold this.
    unfold col, first. destruct (Z.eqb_spec (zlen ls) 1) as [->|]; [cbn [Z.ltb Z.compare Pos.compare Pos.compare_cont]|destruct (Z.ltb_spec 1 (zlen ls)); [|lia]].
    + rewrite Z.add_0_r. done.
    + by replace (zlen this + 1 + 5) with (zlen this + 6) by lia.
  - unfold ls. clear. generalize (take (Z.to_nat pos) f) as s. induction s as [|b s IH]; cbn.
    + split; [intros _; apply not_elem_of_nil|done].
    + rewrite not_elem_of_cons. pose proof (linesOf_ne s) as Hne. case_bool_decide as Hb.
      * split; [|naive_solver]. intros Hl. exfalso. destruct (linesOf s); [done|cbn in Hl; lia].
      * destruct (linesOf s) as [|l ls]; [done|]. cbn in *. naive_solver.
Qed.
