(* ===== verification/Glue.v ===== *)
(** * The packages of a few lines

  fault, must, legal, ctxutil, osutil and reflectutil, one part each. *)
From S2P Require Import Prelude SortModel SortSlices.

(** ** fault: error injection *)
Section fault.
Variable getenv : string → string.             (* os.Getenv *)
Variable toUpper : string → string.            (* strings.ToUpper *)
Variable Atoi : string → Z * option string.    (* strconv.Atoi *)

Record Injector := { failPercent : Z }.

(** The error of [Atoi] is ignored: with a number that is out of range its
    value is the nearest int. *)
Definition NewInjector (name : string) : Injector :=
  {| failPercent := (Atoi (getenv ("FAULT_" +:+ (toUpper name +:+ "_FAIL_PERCENT")%string)%string)).1 |}.
End fault.

(** [r] is what [rand.Intn(100)] gives. *)
Definition ShouldFail (i : Injector) (r : Z) : bool := (0 <? failPercent i) && (r <? failPercent i).

Definition fakeErr : string := "fake injected error for testing".

(** The result, and what [*err] is then. *)
Definition FailErr (i : Injector) (r : Z) (err : option string) : bool * option string :=
  if negb (ShouldFail i r) then (false, err) else (true, Some fakeErr).

(** Of the hundred numbers that [rand.Intn(100)] may give, failPercent make
    the injector fail: none if it is not positive, all from 100 on. *)
Lemma ShouldFail_percentage i :
  zlen (List.filter (ShouldFail i) (Z.of_nat <$> seq 0 100)) = Z.max 0 (Z.min 100 (failPercent i)).
Proof.
  assert (∀ k a p, List.filter (λ r, (0 <? p) && (r <? p)) (Z.of_nat <$> seq a k) =
    Z.of_nat <$> seq a (Nat.min k (Z.to_nat p - a))) as H.
  { clear. induction k as [|k IH]; intros a p; [done|]. cbn [seq fmap list_fmap List.filter]. rewrite IH.
    destruct (Z.ltb_spec 0 p), (Z.ltb_spec (Z.of_nat a) p); cbn [andb].
    - replace (Nat.min (S k) (Z.to_nat p - a)) with (S (Nat.min k (Z.to_nat p - S a))) by lia. done.
    - replace (Nat.min k (Z.to_nat p - S a)) with 0%nat by lia. by replace (Nat.min (S k) (Z.to_nat p - a)) with 0%nat by lia.
    - replace (Nat.min k (Z.to_nat p - S a)) with 0%nat by lia. by replace (Nat.min (S k) (Z.to_nat p - a)) with 0%nat by lia.
    - replace (Nat.min k (Z.to_nat p - S a)) with 0%nat by lia. by replace (Nat.min (S k) (Z.to_nat p - a)) with 0%nat by lia. }
  unfold ShouldFail. rewrite (H 100%nat 0%nat (failPercent i)), length_fmap, length_seq. lia.
Qed.

(** [FailErr] touches the error only if it reports true. *)
Lemma FailErr_reports i r err : FailErr i r err = (ShouldFail i r, if ShouldFail i r then Some fakeErr else err).
Proof. unfold FailErr. by destruct (ShouldFail i r). Qed.

(** ** must: panics on errors. [None] is the panic with the error. *)
Section must.
Context {W E : Type}.
Definition Do (fn : W → W * option E) (w : W) : W * option unit :=
  let '(w, err) := fn w in (w, match err with Some _ => None | None => Some () end).
Definition Close (close : W → W * option E) (w : W) : W * option unit := Do close w.
End must.

(** ** legal: the licenses that were registered, in order *)
Definition licenses := list string.
Definition RegisterLicense (l : licenses) (text : string) : licenses := l ++ [text].
Definition Licenses (l : licenses) : list string := l.
Lemma Licenses_all ts : Licenses (foldl RegisterLicense [] ts) = ts.
Proof.
  assert (∀ l, foldl RegisterLicense l ts = l ++ ts) as H; [|apply H].
  induction ts as [|t ts IH]; intros l; cbn; [by rewrite app_nil_r|]. rewrite IH. unfold RegisterLicense. by rewrite <-app_assoc.
Qed.

(** ** ctxutil: the HTTP client of a context *)
Section client.
Context {Ctx HC : Type}.
Variable value : Ctx → option HC.       (* ctx.Value(HTTPClient).( *http.Client) *)
Variable DefaultClient : HC.
(** A nil context is [None]. *)
Definition Client (ctx : option Ctx) : HC := default DefaultClient (ctx ≫= value).
End client.

(** ** osutil *)
Definition Executable {E} (osExecutable : string * option E) : string * option E := osExecutable.

(** ** reflectutil: [reflect.Swapper] of a slice, which panics on an index that
  is out of range *)
Definition Swapper {A} (slice : list A) : Z → Z → option (list A) := sliceSwap slice.
