(* ===== verification/Cloud.v ===== *)
(** * cloud/google: objects and images

    gcsutil/storage.go and gceutil/gceutil.go. An HTTP client is a function
    from requests to responses on the state of the world; decoding of XML and
    JSON bodies is a parameter. A storage server is a law on that client: it
    answers for the object that the URL names. *)
From S2P Require Import Prelude Filepath.
From Stdlib Require Import Ascii.
From stdpp Require Import pretty.
#[local] Open Scope Z_scope.

(** A byte range: its first byte, and its last one if it has one. Its text is
    that of the Range header. *)
Record byteRange := { first : Z; last : option Z }.

(** ["%d"] *)
Definition decimal (n : Z) : string := pretty n.

Definition rangeText (r : byteRange) : string :=
  match last r with
  | Some l => ("bytes=" +:+ decimal (first r) +:+ "-" +:+ decimal l)%string
  | None => ("bytes=" +:+ decimal (first r) +:+ "-")%string
  end.

(** A request with its Range header, if it has one, and its others. *)
Record Request := { method : string; url : string; range : option byteRange; header : list (string * string) }.
Record Response := { status : Z; body : list byte }.

Inductive error :=
| ErrText (msg : string)
| ErrTransport (msg : string)
| ErrNotExist
| ErrInvalidRange.

Definition StatusOK : Z := 200.
Definition StatusPartialContent : Z := 206.
Definition StatusNotFound : Z := 404.
Definition StatusRequestedRangeNotSatisfiable : Z := 416.

(** ** gcsutil *)

Definition gsAccessURL : string := "https://storage.googleapis.com".

Record Object := { Bucket : string; Key : string }.
Record SizedObject := { object : Object; Size : Z }.

(** [o.valid()] for a possibly nil [o]: the error *)
Definition valid (o : option Object) : option error :=
  match o with
  | None => Some (ErrText "invalid nil Object")
  | Some o =>
      if decide (Bucket o = "")%string then Some (ErrText "missing required Bucket field in Object")
      else if decide (Key o = "")%string then Some (ErrText "missing required Key field in Object")
      else None
  end.

Definition ObjectString (o : option Object) : string :=
  match o with None => "<nil *Object>" | Some o => (Bucket o +:+ "/" +:+ Key o)%string end.
Definition SizedObjectString (so : SizedObject) : string :=
  (Bucket (object so) +:+ "/" +:+ Key (object so) +:+ " (" +:+ decimal (Size so) +:+ "B)")%string.

Section client.
Context {W : Type}.
Variable newRequest : string → string → option error.      (* http.NewRequest without a body: its error *)
Variable Do : W → Request → W * (error + Response).         (* ctxutil.Client(ctx).Do *)

Definition simpleRequest (method url : string) : error + Request :=
  match newRequest method url with
  | Some e => inl e
  | None => inr {| method := method; url := url; range := None; header := [("x-goog-api-version", "2")]%string |}
  end.

(** [req.Header.Set("Range", rangeText r)] *)
Definition setRange (r : Request) (b : byteRange) : Request :=
  {| method := method r; url := url r; range := Some b; header := header r |}.

(** The end of the range is computed with 64 bits. *)
Definition GetPartialObject (w : W) (obj : Object) (offset length : Z) : W * (error + list byte) :=
  if offset <? 0 then (w, inl (ErrText "invalid negative offset"))
  else match valid (Some obj) with
  | Some e => (w, inl e)
  | None =>
      match simpleRequest "GET" (gsAccessURL +:+ "/" +:+ Bucket obj +:+ "/" +:+ Key obj)%string with
      | inl e => (w, inl e)
      | inr req =>
          let req := setRange req
            {| first := offset; last := if 0 <=? length then Some (i64 (i64 (offset + length) - 1)) else None |} in
          match Do w req with
          | (w, inl e) => (w, inl (ErrText "GET (offset=%d, length=%d) failed: %v\n"))
          | (w, inr res) =>
              if status res =? StatusNotFound then (w, inl ErrNotExist)
              else if negb ((status res =? StatusPartialContent) || ((offset =? 0) && (status res =? StatusOK))) then
                (w, inl (if status res =? StatusRequestedRangeNotSatisfiable then ErrInvalidRange
                         else ErrText "GET (offset=%d, length=%d) got failed status: %v\n"))
              else (w, inr (body res))
          end
      end
  end.

(** ** Enumerating *)
Variable QueryEscape : string → string.
Variable decodeXML : list byte → error + list SizedObject.

Record ObjectAttrs := { Name : string; AttrSize : Z }.

Definition enumerateQuery (after : string) (limit : Z) : string :=
  let params := (if decide (after = "")%string then [] else [("marker=" +:+ QueryEscape after)%string]) ++
                (if 0 <? limit then [("max-keys=" +:+ decimal limit)%string] else []) in
  if decide (params = []) then "" else ("?" +:+ joinWith "&" params)%string.

Definition EnumerateObjects (w : W) (bucket after : string) (limit : Z) : W * (error + list ObjectAttrs) :=
  match simpleRequest "GET" (gsAccessURL +:+ "/" +:+ bucket +:+ "/" +:+ enumerateQuery after limit)%string with
  | inl e => (w, inl e)
  | inr req =>
      match Do w req with
      | (w, inl e) => (w, inl e)
      | (w, inr res) =>
          if negb (status res =? StatusOK) then (w, inl (ErrText "gcsutil: bad enumerate response code: %v"))
          else
            (w, match decodeXML (body res) with
                | inl e => inl e
                | inr contents => inr ((λ o, {| Name := Key (object o); AttrSize := Size o |}) <$> contents)
                end)
      end
  end.

(** ** A storage server

    The law of HTTP range requests (RFC 7233) for a server that has the bytes
    [d] of the object: a range that starts within them is answered by its part,
    one that starts behind them with 416, and a Range header that is no range
    (the last byte before the first) is ignored. *)
Definition rangeResponse (d : list byte) (r : byteRange) : Response :=
  match last r with
  | Some l =>
      if l <? first r then {| status := StatusOK; body := d |}
      else if first r <? zlen d then
        {| status := StatusPartialContent; body := take (Z.to_nat (l - first r + 1)) (drop (Z.to_nat (first r)) d) |}
      else {| status := StatusRequestedRangeNotSatisfiable; body := [] |}
  | None =>
      if first r <? zlen d then {| status := StatusPartialContent; body := drop (Z.to_nat (first r)) d |}
      else {| status := StatusRequestedRangeNotSatisfiable; body := [] |}
  end.

(** The URL of an object: its names are part of the path. Only names of
    unreserved characters (RFC 3986) stand for themselves there; the elements
    [.] and [..] do not. *)
Definition objectURL (bucket key : string) : string := ("https://storage.googleapis.com/" +:+ bucket +:+ "/" +:+ key)%string.

Definition unreserved (c : ascii) : bool :=
  ((Ascii.leb "0" c && Ascii.leb c "9") || (Ascii.leb "A" c && Ascii.leb c "Z") || (Ascii.leb "a" c && Ascii.leb c "z") ||
   Ascii.eqb c "-" || Ascii.eqb c "." || Ascii.eqb c "_" || Ascii.eqb c "~")%char.
Fixpoint allUnreserved (s : string) : bool :=
  match s with EmptyString => true | String c s => unreserved c && allUnreserved s end.
Definition plainElem (e : string) : bool :=
  allUnreserved e && bool_decide (e ≠ "."%string ∧ e ≠ ".."%string).
Definition plainKey (key : string) : bool := forallb plainElem (Filepath.split slash key).

(** The answer of a server that has some objects. *)
Definition objectResponse (objects : string → string → option (list byte)) (bucket key : string) (r : byteRange) : Response :=
  match objects bucket key with
  | Some d => rangeResponse d r
  | None => {| status := StatusNotFound; body := [] |}
  end.

(** The server answers a GET of an object's URL, in version 2 of the interface,
    for that object. *)
Definition storageServer (objects : string → string → option (list byte)) : Prop :=
  ∀ w req r bucket key, method req = "GET"%string → url req = objectURL bucket key →
    plainElem bucket = true → plainKey key = true → ("x-goog-api-version", "2")%string ∈ header req →
    range req = Some r → 0 ≤ first r →
    ∃ w', Do w req = (w', inr (objectResponse objects bucket key r)).

(** [http.NewRequest] has nothing against such a URL. *)
Definition acceptsURLs : Prop :=
  ∀ bucket key, plainElem bucket = true → plainKey key = true → newRequest "GET" (objectURL bucket key) = None.

(** C34. Against a server that has some objects and keeps the law of range
    requests, for a bucket and a key that need no escaping in a URL:
    [GetPartialObject] gives the [length] bytes from [offset] of the object of
    that bucket and that key, fewer at its end, or the rest of it for a negative
    length; [ErrInvalidRange] if the offset is behind the end, and
    [os.ErrNotExist] if there is no such object. The end of the range has to be
    a 64-bit number. For length 0 the header is no range: from offset 0 the
    result is the whole object, and from any other offset an error. *)
Theorem GetPartialObject_reads_range objects w obj offset length :
  acceptsURLs → storageServer objects → valid (Some obj) = None →
  plainElem (Bucket obj) = true → plainKey (Key obj) = true →
  0 ≤ offset < 2 ^ 63 → offset + length < 2 ^ 63 →
  ∃ w', GetPartialObject w obj offset length = (w',
    match objects (Bucket obj) (Key obj) with
    | None => inl ErrNotExist
    | Some d =>
        if length =? 0 then
          if offset =? 0 then inr d else inl (ErrText "GET (offset=%d, length=%d) got failed status: %v\n")
        else if zlen d <=? offset then inl ErrInvalidRange
        else if length <? 0 then inr (drop (Z.to_nat offset) d)
        else inr (take (Z.to_nat length) (drop (Z.to_nat offset) d))
    end).
Proof.
  intros Hreq Hserve Hvalid Hb Hk Ho Hl. unfold GetPartialObject. rewrite Hvalid. unfold simpleRequest.
  change (gsAccessURL +:+ "/" +:+ ?p +:+ "/" +:+ ?q)%string with (objectURL p q). rewrite Hreq by done.
  destruct (Z.ltb_spec offset 0); [lia|]. set (r := {| first := offset; last := _ |}). set (req := setRange _ r).
  destruct (Hserve w req r (Bucket obj) (Key obj)) as [w' ->]; [done..|by left|done|cbn; lia|]. exists w'.
  unfold objectResponse. destruct (objects (Bucket obj) (Key obj)) as [d|]; [|done]. unfold rangeResponse. cbn [last first r].
  destruct (Z.leb_spec 0 length) as [Hn|Hn].
  - rewrite (wrapS_small 64 (offset + length)), (wrapS_small 64 (offset + length - 1)) by lia.
    destruct (Z.eqb_spec length 0) as [->|Hne].
    + destruct (Z.ltb_spec (offset + 0 - 1) offset); [|lia]. cbn. by destruct (offset =? 0).
    + destruct (Z.ltb_spec (offset + length - 1) offset); [lia|].
      destruct (Z.ltb_spec offset (zlen d)), (Z.leb_spec (zlen d) offset); try lia.
      * destruct (Z.ltb_spec length 0); [lia|]. cbn. by replace (offset + length - 1 - offset + 1) with length by lia.
      * cbn. by destruct (offset =? 0).
  - destruct (Z.eqb_spec length 0); [lia|]. destruct (Z.ltb_spec length 0); [|lia].
    destruct (Z.ltb_spec offset (zlen d)), (Z.leb_spec (zlen d) offset); try lia; cbn; by destruct (offset =? 0).
Qed.
End client.

(** A plain bucket and a key can be told from their URL. *)
Lemma objectURL_inj b k b' k' :
  plainElem b = true → plainElem b' = true → objectURL b k = objectURL b' k' → b = b' ∧ k = k'.
Proof.
  unfold plainElem. intros [Hb _]%andb_prop [Hb' _]%andb_prop H. unfold objectURL in H.
  apply (inj (String.append _)) in H. revert b' Hb' H.
  change ("/" +:+ ?q)%string with (String "/" q). induction b as [|c b IH]; intros [|c' b'] Hb' H.
  - by injection H as ->.
  - change (String "/" k = String c' (b' +:+ String "/" k')) in H. injection H as <- H. by apply andb_prop in Hb' as [? _].
  - change (String c (b +:+ String "/" k) = String "/" k') in H. injection H as -> H. by apply andb_prop in Hb as [? _].
  - change (String c (b +:+ String "/" k) = String c' (b' +:+ String "/" k')) in H. injection H as -> H.
    apply andb_prop in Hb as [_ Hb], Hb' as [_ Hb']. by destruct (IH Hb b' Hb' H) as [-> ->].
Qed.

(** A server with one object of five bytes. *)
Definition sampleObjects (bucket key : string) : option (list byte) :=
  if decide (bucket = "b" ∧ key = "k/e")%string then Some [x61; x62; x63; x64; x65] else None.
Definition sampleServer (w : nat) (req : Request) : nat * (error + Response) :=
  (S w, match range req with
        | Some r => inr (if decide (url req = objectURL "b" "k/e") then objectResponse sampleObjects "b" "k/e" r
                         else {| status := StatusNotFound; body := [] |})
        | None => inl (ErrTransport "no range")
        end).

Lemma sampleServer_serves : storageServer sampleServer sampleObjects.
Proof.
  intros w req r b k _ Hurl Hb _ _ Hr _. exists (S w). unfold sampleServer. rewrite Hr, Hurl. do 2 f_equal.
  case_decide as Hbk; [by apply objectURL_inj in Hbk as [-> ->]|]. unfold objectResponse, sampleObjects.
  rewrite decide_False; [done|]. by intros [-> ->].
Qed.

Lemma GetPartialObject_reads_range_witness :
  GetPartialObject (λ _ _, None) sampleServer 0%nat {| Bucket := "b"; Key := "k/e" |} 1 3 = (1%nat, inr [x62; x63; x64]) ∧
  (∃ w', GetPartialObject (λ _ _, None) sampleServer 0%nat {| Bucket := "b"; Key := "k/e" |} 0 0 =
    (w', inr [x61; x62; x63; x64; x65])) ∧
  ∃ w', GetPartialObject (λ _ _, None) sampleServer 0%nat {| Bucket := "k"; Key := "b" |} 0 1 = (w', inl ErrNotExist).
Proof.
  split; [vm_compute; reflexivity|]. split.
  - apply (GetPartialObject_reads_range (λ _ _, None) sampleServer sampleObjects 0%nat {| Bucket := "b"; Key := "k/e" |} 0 0);
      [done|apply sampleServer_serves|done|done|done|lia|lia].
  - apply (GetPartialObject_reads_range (λ _ _, None) sampleServer sampleObjects 0%nat {| Bucket := "k"; Key := "b" |} 0 1);
      [done|apply sampleServer_serves|done|done|done|lia|lia].
Defined.

(** The names are put into the URL as they are: the key [a?b] asks for the
    object [a]. *)
Example key_is_not_escaped :
  (GetPartialObject (λ _ _, None) (λ (_ : list string) req, ([url req], inl (ErrTransport "")))
    [] {| Bucket := "bucket"; Key := "a?b" |} 0 1).1 = ["https://storage.googleapis.com/bucket/a?b"]%string.
Proof. reflexivity. Qed.

(** ** gceutil *)

Record osImage := { SelfLink : string; CreationTimestamp : Z; ImageName : string }.

Section images.
Context {W : Type}.
Variable Get : W → string → W * (error + Response).                 (* cl.Get *)
Variable decodeImages : list byte → error + list osImage.           (* a null list has no items *)

(** The body of the loop over the images: [max] is the zero time at first. *)
Definition laterImage (imgPrefix : string) (st : Z * string) (v : osImage) : Z * string :=
  if HasPrefix (ImageName v) imgPrefix && (st.1 <? CreationTimestamp v) then (CreationTimestamp v, SelfLink v) else st.

Definition imgPrefixOf (cos : bool) : string := if cos then "cos-stable" else "coreos-stable".

Definition osImageURL (w : W) (cos : bool) : W * (error + string) :=
  let project := if cos then "cos-cloud"%string else "coreos-cloud"%string in
  match Get w ("https://www.googleapis.com/compute/v1/projects/" +:+ project +:+ "/global/images")%string with
  | (w, inl e) => (w, inl e)
  | (w, inr resp) =>
      (w, match decodeImages (body resp) with
          | inl e => inl e
          | inr [] => inl (ErrText "no images list in response")
          | inr items =>
              let imageURL := (foldl (laterImage (imgPrefixOf cos)) (0, ""%string) items).2 in
              if decide (imageURL = "")%string then
                inl (ErrText (if cos then "no stable Container-Optimized OS image found" else "no stable coreOS image found"))
              else inr imageURL
          end)
  end.

Definition CoreOSImageURL (w : W) := osImageURL w false.
Definition COSImageURL (w : W) := osImageURL w true.

(** A stable image with a time. *)
Definition candidate (p : string) (v : osImage) : Prop := HasPrefix (ImageName v) p = true ∧ 0 < CreationTimestamp v.

(** The loop keeps the first of the newest candidates. *)
Lemma laterImage_newest p items :
  let '(max, u) := foldl (laterImage p) (0, ""%string) items in
  (Forall (λ v, ¬ candidate p v) items ∧ max = 0 ∧ u = ""%string) ∨
  (∃ v, v ∈ items ∧ candidate p v ∧ max = CreationTimestamp v ∧ u = SelfLink v ∧
     ∀ v', v' ∈ items → candidate p v' → CreationTimestamp v' ≤ max).
Proof.
  induction items as [|v items IH] using rev_ind; [left; done|]. rewrite foldl_app. cbn [foldl].
  destruct (foldl _ _ items) as [max u]. unfold laterImage. cbn [fst].
  assert (0 ≤ max) as Hmax by (destruct IH as [(_&->&_)|(v0&_&[_ ?]&->&_)]; lia).
  destruct (HasPrefix (ImageName v) p) eqn:Hp; cbn [andb].
  - destruct (Z.ltb_spec max (CreationTimestamp v)) as [Hlt|Hge].
    + right. exists v. split; [set_solver|]. split; [split; [done|lia]|]. split; [done|]. split; [done|]. intros v' [Hin| ->%list_elem_of_singleton]%elem_of_app Hc; [|lia].
      destruct IH as [(Hno&_)|(v0&_&_&_&_&Hle)]; [|specialize (Hle v' Hin Hc); lia].
      rewrite Forall_forall in Hno. by destruct (Hno _ Hin).
    + destruct IH as [(Hno&->&->)|(v0&Hin&Hc&->&->&Hle)].
      * left. split_and!; try done. apply Forall_app. split; [done|]. constructor; [|constructor]. intros [_ ?]. lia.
      * right. exists v0. split_and!; try done; [set_solver|].
        intros v' [?| ->%list_elem_of_singleton]%elem_of_app Hc'; [auto|lia].
  - destruct IH as [(Hno&->&->)|(v0&Hin&Hc&->&->&Hle)].
    + left. split_and!; try done. apply Forall_app. split; [done|]. constructor; [|constructor]. intros [? _]. congruence.
    + right. exists v0. split_and!; try done; [set_solver|].
      intros v' [?| ->%list_elem_of_singleton]%elem_of_app [Hc' ?]; [by apply Hle|congruence].
Qed.
End images.

(** *** Instance groups *)

Section groups.
Context {W Group Manager : Type}.
Variable selfLink : Group → string.
Variable instanceGroup : Manager → string.
(* the two List calls: the items and the next page token *)
Variable listManagers : W → W * (error + (list Manager * string)).
Variable listGroups : W → W * (error + (list Group * string)).

Definition managedBy (ms : list Manager) : gmap string Manager :=
  foldl (λ m it, <[instanceGroup it := it]> m) ∅ ms.

Definition addGroup (ms : list Manager) (m : gmap string (Group * option Manager)) (it : Group) :=
  <[selfLink it := (it, managedBy ms !! selfLink it)]> m.

Definition InstanceGroups (w : W) : W * (error + gmap string (Group * option Manager)) :=
  match listManagers w with
  | (w, inl e) => (w, inl e)
  | (w, inr (ms, token)) =>
      if negb (bool_decide (token = "")%string) then (w, inl (ErrText "too many managers; pagination not supported"))
      else
        match listGroups w with
        | (w, inl e) => (w, inl e)
        | (w, inr (gs, token)) =>
            if negb (bool_decide (token = "")%string) then
              (w, inl (ErrText "too many instance groups; pagination not supported"))
            else (w, inr (foldl (addGroup ms) ∅ gs))
        end
  end.

Lemma addGroups_lookup ms gs m0 l g mg :
  (∀ l g mg, m0 !! l = Some (g, mg) → selfLink g = l ∧ mg = managedBy ms !! l) →
  foldl (addGroup ms) m0 gs !! l = Some (g, mg) →
  (g ∈ gs ∨ m0 !! l = Some (g, mg)) ∧ selfLink g = l ∧ mg = managedBy ms !! l.
Proof.
  revert m0. induction gs as [|it gs IH]; intros m0 Hm0 H; cbn in H; [split; [by right|auto]|].
  apply IH in H as [Hin ?]; [split; [|done]|].
  - destruct Hin as [?|Hin]; [left; by right|].
    unfold addGroup in Hin. apply lookup_insert_Some in Hin as [[_ [= <- _]]|[_ ?]]; [left; by left|by right].
  - unfold addGroup. intros l' g' mg' [[<- [= <- <-]]|[_ ?]]%lookup_insert_Some; auto.
Qed.

Lemma addGroups_is_Some ms gs m0 g :
  g ∈ gs ∨ is_Some (m0 !! selfLink g) → is_Some (foldl (addGroup ms) m0 gs !! selfLink g).
Proof.
  revert m0. induction gs as [|it gs IH]; intros m0 Hg; cbn; [by destruct Hg as [?%elem_of_nil|?]|]. apply IH.
  rewrite elem_of_cons in Hg. unfold addGroup. rewrite lookup_insert_is_Some.
  destruct (decide (selfLink it = selfLink g)) as [?|?]; [right; by left|].
  destruct Hg as [[->|?]|?]; [done|by left|right; by right].
Qed.

(** Every group is under its link, with its manager if there is one. *)
Lemma InstanceGroups_complete w w' m :
  InstanceGroups w = (w', inr m) →
  ∃ ms gs w1, listManagers w = (w1, inr (ms, ""%string)) ∧ listGroups w1 = (w', inr (gs, ""%string)) ∧
    (∀ l g mg, m !! l = Some (g, mg) → g ∈ gs ∧ selfLink g = l ∧ mg = managedBy ms !! l) ∧
    (∀ g, g ∈ gs → is_Some (m !! selfLink g)).
Proof.
  unfold InstanceGroups. destruct (listManagers w) as [w1 [e|[ms t1]]]; [done|]. case_bool_decide as H1; [|done]. subst t1. cbn [negb].
  destruct (listGroups w1) as [w2 [e|[gs t2]]] eqn:Hg; [done|]. case_bool_decide as H2; [|done]. subst t2. cbn [negb].
  intros [= <- <-]. exists ms, gs, w1. split_and!; [done|done| |].
  - intros l g mg Hl. apply addGroups_lookup in Hl as [[?|Hx] ?]; [done| |].
    + by rewrite lookup_empty in Hx.
    + intros l' g' mg' Hx. by rewrite lookup_empty in Hx.
  - intros g Hin. apply addGroups_is_Some. by left.
Qed.
End groups.
