(* ===== verification/OauthUtil.v ===== *)
(** * oauthutil: a token source with a cache file

    oauth.go, over the files of [Wkfs]. The exchange of a code for a token,
    the JSON form of tokens and their validity at the time of the world are
    parameters. *)
From S2P Require Import Prelude GoIO Wkfs.
From S2P Require Gcs.

Definition TitleBarRedirectURL : string := "urn:ietf:wg:oauth:2.0:oob".

Section oauth.
Context {W Tok JsonErr ExchErr : Type}.
Variable osFS : FileSystem W.
Variable order : list (string * FileSystem W).
Variable unmarshal : list byte → JsonErr + Tok.
Variable marshal : Tok → JsonErr + list byte.
Variable Valid : W → Tok → bool.                     (* tok.Valid() *)
Variable expired : W → Tok → bool.                   (* time.Now().After(tok.Expiry) *)
Variable Exchange : W → string → W * (ExchErr + Tok).

Inductive tokenError :=
| ErrNoAuthCode
| ErrExpiredToken
| ErrInvalidToken
| ErrCacheRead (e : Wkfs.error)
| ErrCacheJson (e : JsonErr)
| ErrExchange (e : ExchErr)       (* could not exchange auth code for a token: %v *)
| ErrEncode (e : JsonErr)         (* could not encode token as json: %v *)
| ErrCacheWrite (e : Wkfs.error). (* could not cache token in %v: %v *)

Record TokenSource := { CacheFile : string; AuthCode : option (W → W * string) }.

Definition cachedToken (w : W) (cacheFile : string) : W * (tokenError + Tok) :=
  match ReadFile osFS order w cacheFile with
  | (w, (_, Some e)) => (w, inl (ErrCacheRead e))
  | (w, (tokenData, None)) =>
      (w, match unmarshal tokenData with
          | inl e => inl (ErrCacheJson e)
          | inr tok =>
              if negb (Valid w tok) then inl (if expired w tok then ErrExpiredToken else ErrInvalidToken)
              else inr tok
          end)
  end.

(** The part of [Token] after the look at the cache. *)
Definition newToken (src : TokenSource) (w : W) : W * (tokenError + Tok) :=
  match AuthCode src with
  | None => (w, inl ErrNoAuthCode)
  | Some authCode =>
      let '(w, code) := authCode w in
      match Exchange w code with
      | (w, inl e) => (w, inl (ErrExchange e))
      | (w, inr tok) =>
          if decide (CacheFile src = "")%string then (w, inr tok)
          else
            match marshal tok with
            | inl e => (w, inl (ErrEncode e))
            | inr tokenData =>
                match WriteFile osFS order w (CacheFile src) tokenData 384 with
                | (w, Some e) => (w, inl (ErrCacheWrite e))
                | (w, None) => (w, inr tok)
                end
            end
      end
  end.

(** [src.Token()]; what it prints about the cache is left out. *)
Definition Token (src : TokenSource) (w : W) : W * (tokenError + Tok) :=
  if decide (CacheFile src = "")%string then newToken src w
  else
    match cachedToken w (CacheFile src) with
    | (w, inr tok) => (w, inr tok)
    | (w, inl _) => newToken src w
    end.

(** [NewRefreshTokenSource]: the source of the config for a token that has only
    the refresh token, reused while its tokens are valid. *)
Definition NewRefreshTokenSource {Src} (refreshOnly : string → Tok) (tokenSource : Tok → Src)
    (ReuseTokenSource : option Tok → Src → Src) (refreshToken : string) : Src :=
  ReuseTokenSource None (tokenSource (refreshOnly refreshToken)).

(** The file system keeps what is written to the cache file, up to the limit of
    [Gcs]. *)
Definition keepsFile (f : string) : Prop :=
  ∀ w bs perm w', zlen bs ≤ Gcs.maxSize → WriteFile osFS order w f bs perm = (w', None) → ∃ w'', ReadFile osFS order w' f = (w'', (bs, None)).

(** A token that was fetched is cached: after a [Token] that returned one,
    over a file system that keeps the cache file, the next [Token] returns the
    same one as long as it is valid, without asking for a code or exchanging
    one. Without an AuthCode there is no such token: unless the cache has a
    valid one, the error is [ErrNoAuthCode]. *)
Theorem Token_is_cached src w w1 tok :
  CacheFile src ≠ ""%string → keepsFile (CacheFile src) →
  (∀ t bs, marshal t = inr bs → zlen bs ≤ Gcs.maxSize ∧ unmarshal bs = inr t) →
  (∀ w' t, cachedToken w (CacheFile src) ≠ (w', inr t)) →
  Token src w = (w1, inr tok) →
  (∃ w2, ReadFile osFS order w1 (CacheFile src) = w2 ∧
     (Valid w2.1 tok = true → ∀ ac, Token {| CacheFile := CacheFile src; AuthCode := ac |} w1 = (w2.1, inr tok))) ∧
  AuthCode src ≠ None ∧
  (∀ w', (∀ w'' t, cachedToken w' (CacheFile src) ≠ (w'', inr t)) →
     (Token {| CacheFile := CacheFile src; AuthCode := None |} w').2 = inl ErrNoAuthCode).
Proof.
  intros Hne Hkeep Hjson Hno HT. unfold Token in HT. rewrite (decide_False _ _ Hne) in HT.
  destruct (cachedToken w (CacheFile src)) as [w0 [e|t]] eqn:Hc; [|by destruct (Hno w0 t)].
  unfold newToken in HT. destruct (AuthCode src) as [ac|] eqn:Hac; [|done]. destruct (ac w0) as [w3 code].
  destruct (Exchange w3 code) as [w4 [e1|t1]]; [done|]. rewrite (decide_False _ _ Hne) in HT.
  destruct (marshal t1) as [e2|bs] eqn:Hm; [done|].
  destruct (WriteFile osFS order w4 (CacheFile src) bs 384) as [w5 [e3|]] eqn:Hw; [done|].
  injection HT as -> ->. destruct (Hjson _ _ Hm) as [Hsize Hu]. destruct (Hkeep _ _ _ _ Hsize Hw) as [w6 Hr]. split; [|split; [done|]].
  - exists (w6, (bs, None)). split; [done|]. cbn [fst]. intros Hv ac'. unfold Token. cbn [CacheFile]. rewrite (decide_False _ _ Hne).
    unfold cachedToken. rewrite Hr, Hu, Hv. done.
  - intros w'. unfold Token. cbn [CacheFile]. rewrite (decide_False _ _ Hne).
    intros Hno'.
    destruct (cachedToken w' (CacheFile src)) as [w7 [e4|t4]]; [done|by destruct (Hno' w7 t4)].
Qed.
End oauth.

(** Tokens of one byte, in the storage of [Gcs]. *)
Module Sample.
Definition order := [("/gcs/"%string, Gcs.Store.fsys)].
Definition decode (bs : list byte) : unit + byte := match bs with [b] => inr b | _ => inl () end.
Definition encode (b : byte) : unit + list byte := inr [b].
Definition token (exchange : Gcs.Store.W → string → Gcs.Store.W * (unit + byte)) :=
  Token Gcs.Store.fsys order decode encode (λ _ _, true) (λ _ _, false) exchange.
Definition exchange (w : Gcs.Store.W) (code : string) : Gcs.Store.W * (unit + byte) := (w, inr x61).
Definition file : string := "/gcs/b/token".

Lemma keeps : keepsFile Gcs.Store.fsys order file.
Proof.
  intros w bs perm w' Hsize Hw.
  pose proof (Gcs.gcs_WriteFile Gcs.Store.fsys _ _ _ _ Gcs.Store.laws Gcs.Store.m "b" "token" Gcs.Store.free eq_refl eq_refl
    _ _ _ _ _ Gcs.Store.order Hw) as Hc.
  eapply (Gcs.gcs_ReadFile_succeeds Gcs.Store.fsys _ _ _ _ Gcs.Store.laws Gcs.Store.m "b" "token" Gcs.Store.free eq_refl eq_refl);
    [apply Gcs.Store.order|exact Hc|exact Hsize|cbn; by rewrite Hc|cbn; by rewrite Hc|done].
Qed.
End Sample.

Lemma Token_is_cached_witness :
  ∃ w1 w2, Sample.token Sample.exchange {| CacheFile := Sample.file; AuthCode := Some (λ w, (w, "code"%string)) |} (∅, []) = (w1, inr x61) ∧
    Sample.token Sample.exchange {| CacheFile := Sample.file; AuthCode := None |} w1 = (w2, inr x61).
Proof.
  set (src := {| CacheFile := Sample.file; AuthCode := Some (λ w, (w, "code"%string)) |}).
  set (first := Sample.token Sample.exchange src (∅, [])).
  assert (first = (first.1, inr x61)) as Hf by (vm_compute; reflexivity).
  exists first.1.
  destruct (Token_is_cached Gcs.Store.fsys Sample.order Sample.decode Sample.encode (λ _ _, true) (λ _ _, false)
    Sample.exchange src (∅, []) first.1 x61) as [(w2&_&H) _].
  - discriminate.
  - apply Sample.keeps.
  - intros t bs [= <-]. split; [vm_compute; discriminate|done].
  - intros w' t. vm_compute. discriminate.
  - exact Hf.
  - exists w2.1. split; [exact Hf|]. by apply H.
Defined.
