(* ===== verification/FuncTest.v ===== *)
(** * testing/functest: table-driven tests

    functest.go. Values, their deep equality and their formatting are
    parameters; so is calling the function, with its panics. The messages given
    to [t.Errorf] are a list. *)
From S2P Require Import Prelude Filepath.
From stdpp Require Import pretty.
From Stdlib Require Import Ascii.
#[local] Open Scope Z_scope.

(** ** The name of a function *)

(** [strings.LastIndex(s, sub)] as the text before and from the last [sub]. *)
Fixpoint lastIndex (s sub : string) : option nat :=
  match s with
  | EmptyString => if decide (sub = ""%string) then Some 0%nat else None
  | String _ rest =>
      match lastIndex rest sub with
      | Some i => Some (S i)
      | None => if HasPrefix s sub then Some 0%nat else None
      end
  end.

(** [name[i:]] *)
Definition from (i : nat) (s : string) : string := String.substring i (String.length s - i) s.

(** [removePunc.Replace] *)
Fixpoint removePunc (s : string) : string :=
  match s with
  | EmptyString => ""
  | String c s =>
      if bool_decide (c ∈ ["("; ")"; "*"]%char) then removePunc s else String c (removePunc s)
  end.

(** The name that [New] gives to a function, from that of its
    [runtime.Func], if there is one. *)
Definition NewName (rf : option string) : string :=
  match rf with
  | None => "f"
  | Some name =>
      match lastIndex name ".(" with
      | Some methType => removePunc (from (methType + 2) name)
      | None =>
          match lastIndex name "." with
          | Some lastDot =>
              let name := from (lastDot + 1) name in
              if HasPrefix name "func" then "f" else name
          | None => name
          end
      end
  end.

Example NewName_func : NewName (Some "example.com/m/pkg.square"%string) = "square"%string.
Proof. reflexivity. Qed.
Example NewName_method : NewName (Some "example.com/m/pkg.(*T).Len"%string) = "T.Len"%string.
Proof. reflexivity. Qed.
Example NewName_anonymous : NewName (Some "pkg.TestX.func1"%string) = "f"%string.
Proof. reflexivity. Qed.

Section functest.
Context {V Err : Type}.
Variable DeepEqual : list V → list V → bool.         (* of two non-nil slices *)
Variable formatV : V → string.                       (* %#v *)
Variable formatAny : V → string.                     (* %v of a panic value *)
Variable formatErr : Err → string.                   (* %v *)
Variable nilV : V.                                   (* the nil interface value *)

(** The type of the function: its parameters and results, and its calls. *)
Record Func := {
  fName : string;
  numIn : Z; variadic : bool; numOut : Z;
  fCall : list V → list V + V                        (* the results, or the value of a panic *)
}.

(** [New] of something that may be no function, which panics. *)
Definition New (isFunc : bool) (rf : option string) (nIn : Z) (var : bool) (nOut : Z) (call : list V → list V + V) : option Func :=
  if negb isFunc then None
  else Some {| fName := NewName rf; numIn := nIn; variadic := var; numOut := nOut; fCall := call |}.

Record Result := { results : option (list V); Panic : V; Panicked : bool }.

(** A nil slice is [None]. *)
Record Case := {
  cf : Func;
  cin : list V;
  cname : string;
  want : option (list V);
  checkRes : list (Result → option Err) }.

Definition NewCase (f : Func) (name : string) : Case := {| cf := f; cin := []; cname := name; want := None; checkRes := [] |}.
Definition FuncIn (f : Func) (args : list V) : Case := {| cf := f; cin := args; cname := ""; want := None; checkRes := [] |}.
Definition CaseIn (c : Case) (args : list V) : Case :=
  {| cf := cf c; cin := args; cname := cname c; want := want c; checkRes := checkRes c |}.

(** [c.Want(result...)]: without arguments, [result] is a nil slice. *)
Definition Want (c : Case) (result : list V) : option Case :=
  match want c with
  | Some _ => None
  | None =>
      if zlen result =? numOut (cf c) then
        Some {| cf := cf c; cin := cin c; cname := cname c;
                want := match result with [] => None | _ => Some result end; checkRes := checkRes c |}
      else None
  end.

Definition Check_ (c : Case) (checker : Result → option Err) : Case :=
  {| cf := cf c; cin := cin c; cname := cname c; want := want c; checkRes := checkRes c ++ [checker] |}.

(** [f.checkCall]: the results, whether the call panicked, and the value. *)
Definition checkCall (f : Func) (inp : list V) : list V * bool * V :=
  match fCall f inp with inl out => (out, false, nilV) | inr v => ([], true, v) end.

Definition formatValues (vals : list V) : string := joinWith ", " (formatV <$> vals).
Definition formatRes (res : option (list V)) : string :=
  let vals := default [] res in
  if zlen vals =? 1 then formatValues vals else ("(" +:+ formatValues vals +:+ ")")%string.

(** [c.errorf(t, ...)] with the formatted rest of the message *)
Definition errorf (c : Case) (rest : string) : string :=
  ((if decide (cname c = "")%string then "" else cname c +:+ ": ") +:+ fName (cf c) +:+ "(" +:+ formatValues (cin c) +:+ ")" +:+ rest)%string.

(** The messages of [f.testCase(t, c)] after the test of the arguments. *)
Definition callMessages (f : Func) (c : Case) : list string :=
  let '(got, didPanic, panicValue) := checkCall f (cin c) in
  let goti := if didPanic then None else Some got in
  match want c with
  | None => []
  | Some w =>
      if match goti with Some g => DeepEqual g w | None => false end then []
      else [errorf c (" = " +:+ formatRes goti +:+ "; want " +:+ formatRes (Some w))%string]
  end ++
  (checkRes c ≫= λ check,
     match check {| results := goti; Panic := panicValue; Panicked := didPanic |} with
     | Some e => [errorf c (": " +:+ formatErr e)%string]
     | None => []
     end) ++
  (if didPanic && (zlen (checkRes c) =? 0) then [errorf c (": panicked with " +:+ formatAny panicValue)%string] else []).

(** [f.testCase(t, c)] *)
Definition testCase (f : Func) (c : Case) : list string :=
  if variadic f then
    let inReg := numIn f - 1 in
    if zlen (cin c) <? inReg then
      [errorf c (": input has " +:+ pretty (zlen (cin c)) +:+ " arguments; func requires at least " +:+ pretty inReg)%string]
    else callMessages f c
  else if negb (zlen (cin c) =? numIn f) then
    [errorf c (": input has " +:+ pretty (zlen (cin c)) +:+ " arguments; func takes " +:+ pretty (numIn f))%string]
  else callMessages f c.

(** [f.Test(t, cases...)] *)
Definition Test_ (f : Func) (cases : list Case) : list string := cases ≫= testCase f.

(** The arguments that a function takes. *)
Definition accepts (f : Func) (n : Z) : bool := if variadic f then numIn f - 1 <=? n else n =? numIn f.

(** What a case asks of the function. *)
Definition satisfied (f : Func) (c : Case) : Prop :=
  accepts f (zlen (cin c)) = true ∧
  match fCall f (cin c) with
  | inl out => (∀ w, want c = Some w → DeepEqual out w = true) ∧
      Forall (λ check, check {| results := Some out; Panic := nilV; Panicked := false |} = None) (checkRes c)
  | inr v => want c = None ∧ checkRes c ≠ [] ∧
      Forall (λ check, check {| results := None; Panic := v; Panicked := true |} = None) (checkRes c)
  end.

Lemma bind_nil {A B} (f : A → list B) l : l ≫= f = [] ↔ Forall (λ x, f x = []) l.
Proof.
  induction l as [|x l IH]; cbn; [split; [constructor|done]|]. rewrite Forall_cons, <-IH. split.
  - intros H. by apply app_eq_nil in H.
  - intros [-> ->]. done.
Qed.

Lemma checks_pass c (r : Result) :
  (checkRes c ≫= λ check, match check r with Some e => [errorf c (": " +:+ formatErr e)%string] | None => [] end) = [] ↔
  Forall (λ check, check r = None) (checkRes c).
Proof. rewrite bind_nil. apply Forall_iff. intros check. by destruct (check r). Qed.

Lemma app_nil_iff {A} (l1 l2 : list A) : l1 ++ l2 = [] ↔ l1 = [] ∧ l2 = [].
Proof. split; [apply app_eq_nil|by intros [-> ->]]. Qed.

Lemma callMessages_nil f c :
  callMessages f c = [] ↔
  match fCall f (cin c) with
  | inl out => (∀ w, want c = Some w → DeepEqual out w = true) ∧
      Forall (λ check, check {| results := Some out; Panic := nilV; Panicked := false |} = None) (checkRes c)
  | inr v => want c = None ∧ checkRes c ≠ [] ∧
      Forall (λ check, check {| results := None; Panic := v; Panicked := true |} = None) (checkRes c)
  end.
Proof.
  unfold callMessages, checkCall. destruct (fCall f (cin c)) as [out|v]; rewrite !app_nil_iff, checks_pass; cbn [andb].
  - destruct (want c) as [w|]; [destruct (DeepEqual out w) eqn:E|].
    + split; [intros (_&?&_); split; [by intros ? [= <-]|done]|by intros [_ ?]].
    + split; [by intros [? _]|]. intros [Hw _]. specialize (Hw w eq_refl). congruence.
    + split; [by intros (_&?&_)|by intros [_ ?]].
  - destruct (want c) as [w|]; [split; [by intros [? _]|by intros [? _]]|]. destruct (checkRes c) as [|check l]; cbn [length].
    + split; [by intros (_&_&?)|by intros (_&?&_)].
    + destruct (Z.eqb_spec (Z.of_nat (S (length l))) 0); [lia|]. split; [by intros (_&?&_)|by intros (_&_&?)].
Qed.

(** A test of functest fails exactly if a case is not satisfied: no message
    is given if and only if, for each case, the function takes that many
    arguments, every check accepts the result, and either the call returned and
    its results equal the wanted ones, if any are wanted, or it panicked, there
    is a check and nothing is wanted. *)
Theorem Test_passes_iff_satisfied f cases : Test_ f cases = [] ↔ Forall (satisfied f) cases.
Proof.
  unfold Test_. rewrite bind_nil. apply Forall_iff. intros c. unfold testCase, satisfied, accepts. rewrite <-callMessages_nil.
  destruct (variadic f).
  - destruct (Z.ltb_spec (zlen (cin c)) (numIn f - 1)), (Z.leb_spec (numIn f - 1) (zlen (cin c))); try lia.
    + split; [done|by intros [? _]].
    + split; [done|by intros [_ ?]].
  - destruct (Z.eqb_spec (zlen (cin c)) (numIn f)); cbn [negb].
    + split; [done|by intros [_ ?]].
    + split; [done|by intros [? _]].
Qed.
End functest.
