(* ===== verification/CloudLaunch.v ===== *)
(** * cloud/cloudlaunch: a binary that launches itself

    cloudlaunch.go. What the code asks of the outside (the Compute Engine and
    storage services, the operating system, the clock) are operations on the
    state of the world [W]; every such call is noted in a log. *)
From S2P Require Import Prelude Filepath.
From S2P Require Import Gcs.
From S2P Require Cloud.

(** ** Configurations *)

Inductive RestartPolicy := RestartOnUpdates | RestartNever.

Record Config := {
  Name : string;
  Restart : RestartPolicy;
  UpdateStrategy : string;
  BinaryBucket : string;
  BinaryObject : string;
  GCEProjectID : string;
  Zone : string;
  SSD : bool;
  Scopes : list string;
  MachineType : string;
  InstanceName : string }.

Definition strDefault (a b : string) : string := if decide (a ≠ "")%string then a else b.

Definition instName (c : Config) : string := Name c.
Definition zone (c : Config) : string := strDefault (Zone c) "us-central1-f".
Definition machineType (c : Config) : string := strDefault (MachineType c) "g1-small".
Definition binaryObject (c : Config) : string := strDefault (BinaryObject c) (Name c).
Definition updateStrategy (c : Config) : string := strDefault (UpdateStrategy c) "best-effort".

Definition binaryURL (c : Config) : string :=
  ("https://storage.googleapis.com/" +:+ BinaryBucket c +:+ "/" +:+ binaryObject c)%string.
Definition projectAPIURL (c : Config) : string :=
  ("https://www.googleapis.com/compute/v1/projects/" +:+ GCEProjectID c)%string.
Definition machineTypeURL (c : Config) : string :=
  (projectAPIURL c +:+ "/zones/" +:+ zone c +:+ "/machineTypes/" +:+ machineType c)%string.

(** [strings.NewReplacer(pairs...).Replace(s)]: at each place the first pair
    whose key is there. *)
Definition matchAt (s : string) (pairs : list (string * string)) : option (string * string) :=
  find (λ '(k, _), HasPrefix s k) pairs.
Fixpoint replaceFrom (fuel : nat) (pairs : list (string * string)) (s : string) : string :=
  match fuel with
  | O => s
  | S fuel =>
      match matchAt s pairs with
      | Some (k, v) => (v +:+ replaceFrom fuel pairs (String.substring (String.length k) (String.length s - String.length k) s))%string
      | None => match s with EmptyString => "" | String x s => String x (replaceFrom fuel pairs s) end
      end
  end.
Definition replace (pairs : list (string * string)) (s : string) : string := replaceFrom (S (String.length s)) pairs s.

Definition baseConfig : string := "#cloud-config
coreos:
  update:
    group: stable
    reboot-strategy: $REBOOT
  units:
    - name: $NAME.service
      command: start
      content: |
        [Unit]
        Description=$NAME service
        After=network.target
        
        [Service]
        Type=simple
        ExecStartPre=/bin/sh -c 'mkdir -p /opt/bin && /usr/bin/curl --silent -f -o /opt/bin/$NAME $URL?$(date +%s) && chmod +x /opt/bin/$NAME'
        ExecStart=/opt/bin/$NAME
        RestartSec=10
        Restart=always
        StartLimitInterval=0
        
        [Install]
        WantedBy=network-online.target
".

Definition cloudConfig (c : Config) : string :=
  replace [("$NAME", Name c); ("$URL", binaryURL c); ("$REBOOT", updateStrategy c)]%string baseConfig.

(** ** Instances *)

Record Disk := {
  AutoDelete : bool; Boot : bool; DiskName : string; SourceImage : string; DiskSizeGb : Z; DiskType : string }.

(** [compute.Instance] with what the code sets of it. *)
Record Instance := {
  iName : string; Description : string; iMachineType : string; Disks : list Disk; Tags : list string;
  UserData : string; NatIP : string; Network : string; ServiceScopes : list string }.

Record Address := { aName : string; aStatus : string; aRegion : string; aAddress : string }.

(** An error of the Compute API, with its HTTP status if it has one. *)
Inductive apiError := GoogleError (code : Z) | OtherError.

(** What the code does to the outside. *)
Inductive Call :=
| CGetInstance (project zone name : string)
| CListAddresses (project : string)
| CImages
| CInsert (project zone : string) (i : Instance)
| CSleep (seconds : Z)
| CGetOperation (project zone op : string)
| CHead (url : string)
| CUpload (bucket object : string) (acl : list (string * string)) (cacheControl : string) (data : list byte)
| CGoRestartLoop.                                            (* go c.restartLoop() *)

Section cloudlaunch.
Context {W : Type}.
Variable getInstance : W → string → string → string → W * (apiError + Instance).
Variable listAddresses : W → string → W * (apiError + list (list Address)).   (* the lists of a map, in its order *)
Variable getImages : W → string → W * (Cloud.error + Cloud.Response).
Variable decodeImages : list byte → Cloud.error + list Cloud.osImage.
Variable insertInstance : W → string → string → Instance → W * (apiError + string).    (* the operation's name *)
Variable getOperation : W → string → string → string → W * (apiError + (string * bool)). (* its status, and whether it has errors *)
Variable sleep : W → Z → W.
Variable head : W → string → W * (apiError + string).      (* http.Head, with the time in the query: the Etag header *)
Variable newStorageClient : W → option apiError.
Variable readlink : W → apiError + string.                 (* of /proc/self/exe *)
Variable readFile : W → string → apiError + list byte.
Variable upload : W → string → string → list byte → W * option apiError.     (* io.Copy to a writer of the object, and its Close *)

(** A run of the program: it returns, or the process ends with a message
    ([log.Fatal]), with [os.Exit], or with a panic. *)
Inductive outcome (A : Type) :=
| Ret (a : A) | Fatal (msg : string) | Exit (code : Z) | Panic (msg : string).
Arguments Ret {A} a.
Arguments Fatal {A} msg.
Arguments Exit {A} code.
Arguments Panic {A} msg.

Definition prog (A : Type) := W * list Call → W * list Call * outcome A.
Definition ret {A} (a : A) : prog A := λ s, (s, Ret a).
Definition stop {A} (o : outcome A) : prog A := λ s, (s, o).
Definition andThen {A B} (m : prog A) (f : A → prog B) : prog B := λ s,
  match m s with
  | (s, Ret a) => f a s
  | (s, Fatal msg) => (s, Fatal msg)
  | (s, Exit c) => (s, Exit c)
  | (s, Panic msg) => (s, Panic msg)
  end.
Notation "x ←c m ; k" := (andThen m (λ x, k)) (at level 20, m at level 100, k at level 200, right associativity).

(** An operation on the outside, and its note in the log. *)
Definition call {A} (c : Call) (f : W → W * A) : prog A := λ '(w, log),
  let '(w, a) := f w in ((w, log ++ [c]), Ret a).
Definition ask {A} (f : W → A) : prog A := λ '(w, log), ((w, log), Ret (f w)).

Variable cl : Config.

(** [lookupInstance()]: nil if it does not exist. *)
Definition lookupInstance : prog (option Instance) :=
  r ←c call (CGetInstance (GCEProjectID cl) (zone cl) (instName cl)) (λ w, getInstance w (GCEProjectID cl) (zone cl) (instName cl));
  match r with
  | inr inst => ret (Some inst)
  | inl (GoogleError 404) => ret None
  | inl _ => stop (Fatal "Instances.Get: %v")
  end.

Definition zoneInRegion (zone regionURL : string) : prog bool :=
  if decide (zone = "")%string then stop (Panic "empty zone")
  else if decide (regionURL = "")%string then stop (Panic "empty regionURL")
  else let region := Base regionURL in
       if decide (region = "")%string then stop (Panic "empty region") else ret (HasPrefix zone region).

(** The two loops of [findIP] over all addresses, up to the break. *)
Fixpoint findAddress (addrs : list Address) : prog string :=
  match addrs with
  | [] => ret ""%string
  | addr :: addrs =>
      if bool_decide (aName addr = Name cl +:+ "-ip")%string && bool_decide (aStatus addr = "RESERVED"%string) then
        ok ←c zoneInRegion (zone cl) (aRegion addr);
        if ok : bool then ret (aAddress addr) else findAddress addrs
      else findAddress addrs
  end.

Definition findIP : prog string :=
  r ←c call (CListAddresses (GCEProjectID cl)) (λ w, listAddresses w (GCEProjectID cl));
  match r with
  | inl _ => stop (Fatal "%v")
  | inr items => findAddress (concat items)
  end.

Definition instanceDisk : prog Disk :=
  r ←c call CImages (λ w, Cloud.CoreOSImageURL getImages decodeImages w);
  match r with
  | inl _ => stop (Fatal "error looking up latest CoreOS stable image: %v")
  | inr imageURL =>
      ret {| AutoDelete := true; Boot := true; DiskName := (instName cl +:+ "-coreos-stateless-pd")%string;
             SourceImage := imageURL; DiskSizeGb := 50;
             DiskType := if SSD cl then (projectAPIURL cl +:+ "/zones/" +:+ zone cl +:+ "/diskTypes/pd-ssd")%string else "" |}
  end.

Definition newInstance (ip : string) (d : Disk) : Instance :=
  {| iName := instName cl; Description := Name cl; iMachineType := machineTypeURL cl; Disks := [d];
     Tags := ["http-server"; "https-server"]%string; UserData := cloudConfig cl; NatIP := ip;
     Network := (projectAPIURL cl +:+ "/global/networks/default")%string; ServiceScopes := Scopes cl |}.

(** The loop that waits for the operation, as long as the fuel lasts. *)
Fixpoint opLoop (fuel : nat) (opName : string) : prog bool :=
  match fuel with
  | O => ret false
  | S fuel =>
      _ ←c call (CSleep 2) (λ w, (sleep w 2, tt));
      r ←c call (CGetOperation (GCEProjectID cl) (zone cl) opName) (λ w, getOperation w (GCEProjectID cl) (zone cl) opName);
      match r with
      | inl _ => stop (Fatal "Failed to get op %s: %v")
      | inr (status, failed) =>
          if bool_decide (status = "PENDING" ∨ status = "RUNNING")%string then opLoop fuel opName
          else if bool_decide (status = "DONE")%string then
            if failed : bool then stop (Fatal "Failed to start.") else ret true
          else stop (Fatal "Unknown status %q: %+v")
      end
  end.

(** [createInstance()] from the answer to the insertion on; [false] is the
    lack of fuel. *)
Definition afterInsert (fuel : nat) (r : apiError + string) : prog bool :=
  match r with
  | inl _ => stop (Fatal "Failed to create instance: %v")
  | inr opName =>
      done ←c opLoop fuel opName;
      if negb done then ret false
      else
        r ←c call (CGetInstance (GCEProjectID cl) (zone cl) (instName cl)) (λ w, getInstance w (GCEProjectID cl) (zone cl) (instName cl));
        match r with
        | inl _ => stop (Fatal "Error getting instance after creation: %v")
        | inr _ => stop (Exit 0)
        end
  end.

(** From the insertion on. *)
Definition insertAndWait (fuel : nat) (i : Instance) : prog bool :=
  r ←c call (CInsert (GCEProjectID cl) (zone cl) i) (λ w, insertInstance w (GCEProjectID cl) (zone cl) i);
  afterInsert fuel r.

(** For an instance that does not exist. *)
Definition createNew (fuel : nat) : prog bool :=
  ip ←c findIP;
  d ←c instanceDisk;
  insertAndWait fuel (newInstance ip d).

Definition createInstance (fuel : nat) : prog bool :=
  inst ←c lookupInstance;
  match inst with
  | Some _ => ret true
  | None => createNew fuel
  end.

Definition getSelfPath (linux : bool) : prog string :=
  if negb linux then stop (Panic "TODO")
  else v ←c ask readlink; match v with inl _ => stop (Fatal "%v") | inr v => ret v end.

(** The owners of the project, and everybody for reading. *)
Definition binaryACL : list (string * string) :=
  [("project-owners-" +:+ GCEProjectID cl, "OWNER"); ("allUsers", "READER")]%string.

(** [uploadBinary()] *)
Definition uploadBinary (linux : bool) : prog unit :=
  if decide (BinaryBucket cl = "")%string then stop (Fatal "cloudlaunch: Config.BinaryBucket is empty")
  else
    e ←c ask newStorageClient;
    match e with
    | Some _ => stop (Fatal "%v")
    | None =>
        selfPath ←c getSelfPath linux;
        f ←c ask (λ w, readFile w selfPath);
        match f with
        | inl _ => stop (Fatal "%v")
        | inr data =>
            e ←c call (CUpload (BinaryBucket cl) (binaryObject cl) binaryACL "no-cache" data) (λ w, upload w (BinaryBucket cl) (binaryObject cl) data);
            match e with Some _ => stop (Fatal "%v") | None => ret tt end
        end
    end.

(** The deferred [os.Exit(1)], which a panic runs into too. *)
Definition deferExit {A} (m : prog A) : prog A := λ s,
  match m s with (s, Panic _) => (s, Exit 1) | r => r end.

Variable trimSpace : list byte → list byte.                (* strings.TrimSpace *)
Definition readKeyFile (v : string) : prog (list byte) :=
  r ←c ask (λ w, readFile w v);
  match r with
  | inl _ => stop (Fatal "Error reading %s: %v")
  | inr slurp => ret (trimSpace slurp)
  end.

(** The scopes that the OAuth configuration is made for. *)
Definition oauthScopes : list string :=
  ["https://www.googleapis.com/auth/devstorage.full_control"; "https://www.googleapis.com/auth/compute";
   "https://www.googleapis.com/auth/cloud-platform"]%string ++ Scopes cl.

Variable getenv : string → string.
Variable jwtConfig : list byte → list string → bool.       (* google.JWTConfigFromJSON has no error *)

(** [MaybeDeploy()] with the flag; without it, [restartLoop] runs in the
    background, which the log notes. *)
Definition MaybeDeploy (fuel : nat) (doLaunch linuxAmd64 : bool) : prog bool :=
  if negb doLaunch then _ ←c call CGoRestartLoop (λ w, (w, tt)); ret true
  else deferExit (
  if negb linuxAmd64 then stop (Fatal "Can only use --cloudlaunch on linux/amd64, for now.")
  else if decide (GCEProjectID cl = "")%string then stop (Fatal "cloudconfig.GCEProjectID is empty")
  else
    json ←c readKeyFile (Filepath.Join [getenv "HOME"; "keys"; (GCEProjectID cl +:+ ".key.json")%string]);
    if negb (jwtConfig json oauthScopes) then stop (Fatal "ConfigFromJSON: %v")
    else
      _ ←c uploadBinary linuxAmd64;
      done ←c createInstance fuel;
      if done : bool then stop (Exit 0) else ret false).

(** One turn of [restartLoop] with [lastEtag]. *)
Definition restartStep (lastEtag : string) : prog string :=
  r ←c call (CHead (binaryURL cl)) (λ w, head w (binaryURL cl));
  match r with
  | inl _ => _ ←c call (CSleep 15) (λ w, (sleep w 15, tt)); ret lastEtag
  | inr etag =>
      if decide (etag = "")%string then _ ←c call (CSleep 15) (λ w, (sleep w 15, tt)); ret lastEtag
      else if bool_decide (lastEtag ≠ "" ∧ etag ≠ lastEtag)%string then stop (Exit 0)
      else _ ←c call (CSleep 15) (λ w, (sleep w 15, tt)); ret etag
  end.

(** The first [n] turns. *)
Fixpoint restartTurns (n : nat) (lastEtag : string) : prog string :=
  match n with O => ret lastEtag | S n => e ←c restartStep lastEtag; restartTurns n e end.

Definition restartLoop (n : nat) (onGCE : bool) : prog string :=
  if negb onGCE then ret ""%string
  else match Restart cl with RestartNever => ret ""%string | RestartOnUpdates => restartTurns n "" end.

(** ** Creating the instance *)

Definition isInsert (c : Call) : bool := match c with CInsert _ _ _ => true | _ => false end.
Definition inserts (log : list Call) : list Call := List.filter isInsert log.

(** A program that inserts nothing. *)
Definition quiet {A} (m : prog A) : Prop := ∀ s, inserts (m s).1.2 = inserts s.2.

Lemma quiet_ret {A} (a : A) : quiet (ret a).
Proof. done. Qed.

Lemma quiet_stop {A} (o : outcome A) : quiet (stop o).
Proof. done. Qed.

Lemma quiet_call {A} c (f : W → W * A) : isInsert c = false → quiet (call c f).
Proof.
  intros Hc [w log]. unfold call. destruct (f w). cbn. unfold inserts. rewrite List.filter_app. cbn. by rewrite Hc, app_nil_r.
Qed.

Lemma quiet_ask {A} (f : W → A) : quiet (ask f).
Proof. by intros [w log]. Qed.

Lemma quiet_andThen {A B} (m : prog A) (f : A → prog B) : quiet m → (∀ a, quiet (f a)) → quiet (andThen m f).
Proof.
  intros Hm Hf s. unfold andThen. specialize (Hm s). destruct (m s) as [s' [a| | | ]]; cbn in *; try done.
  by rewrite (Hf a s').
Qed.

Create HintDb quiet.
#[local] Hint Resolve quiet_ret quiet_stop quiet_ask quiet_andThen : quiet.
#[local] Hint Extern 1 (quiet (call _ _)) => (apply quiet_call; reflexivity) : quiet.

Lemma lookup_quiet : quiet lookupInstance.
Proof. apply quiet_andThen; [auto with quiet|]. intros [e|i]; [|auto with quiet]. repeat case_match; auto with quiet. Qed.

Lemma zoneInRegion_quiet z r : quiet (zoneInRegion z r).
Proof. unfold zoneInRegion. repeat case_decide; auto with quiet. Qed.

Lemma findAddress_quiet l : quiet (findAddress l).
Proof.
  induction l as [|a l IH]; cbn; [auto with quiet|]. destruct (_ && _); [|done].
  apply quiet_andThen; [apply zoneInRegion_quiet|]. intros [|]; auto with quiet.
Qed.

Lemma findIP_quiet : quiet findIP.
Proof. apply quiet_andThen; [auto with quiet|]. intros [e|l]; [auto with quiet|apply findAddress_quiet]. Qed.

Lemma disk_quiet : quiet instanceDisk.
Proof. apply quiet_andThen; [auto with quiet|]. intros [e|u]; auto with quiet. Qed.

Lemma opLoop_quiet fuel op : quiet (opLoop fuel op).
Proof.
  induction fuel as [|fuel IH]; cbn; [auto with quiet|].
  apply quiet_andThen; [auto with quiet|]. intros _. apply quiet_andThen; [auto with quiet|].
  intros [e|[st f]]; [auto with quiet|]. repeat case_bool_decide; auto with quiet. destruct f; auto with quiet.
Qed.

(** An address that may be used. *)
Definition usable (a : Address) : Prop :=
  aName a = (Name cl +:+ "-ip")%string ∧ aStatus a = "RESERVED"%string ∧ HasPrefix (zone cl) (Base (aRegion a)) = true.

Lemma findAddress_result l s s' ip :
  findAddress l s = (s', Ret ip) → ip = ""%string ∨ ∃ a, a ∈ l ∧ usable a ∧ ip = aAddress a.
Proof.
  revert s. induction l as [|a l IH]; intros s; cbn; [intros [= _ <-]; by left|].
  assert (∀ s, findAddress l s = (s', Ret ip) → ip = ""%string ∨ ∃ a0, a0 ∈ a :: l ∧ usable a0 ∧ ip = aAddress a0) as Hrest.
  { intros s0 H. destruct (IH s0 H) as [?|(a0&?&?)]; [by left|right]. exists a0. split; [by right|done]. }
  destruct (bool_decide _ && bool_decide _) eqn:Hm; [|apply Hrest].
  apply andb_prop in Hm as [Hn%bool_decide_eq_true Hs%bool_decide_eq_true].
  unfold andThen, zoneInRegion. repeat (case_decide; [done|]). cbn.
  destruct (HasPrefix _ _) eqn:Hp; [|apply Hrest]. intros [= _ <-]. right. exists a. split; [by left|done].
Qed.

Lemma findIP_result w log s' ip :
  findIP (w, log) = (s', Ret ip) →
  ip = ""%string ∨ ∃ lists a, (listAddresses w (GCEProjectID cl)).2 = inr lists ∧ a ∈ concat lists ∧ usable a ∧ ip = aAddress a.
Proof.
  unfold findIP, andThen, call. destruct (listAddresses w (GCEProjectID cl)) as [w1 [e|lists]]; [done|].
  intros [?|(a&?&?)]%findAddress_result; [by left|right]. by exists lists, a.
Qed.

(** What follows a program that returned: its result, or the program's end. *)
Lemma andThen_inv {A B} (m : prog A) (f : A → prog B) s :
  (∃ s1 a, m s = (s1, Ret a) ∧ andThen m f s = f a s1) ∨
  (∃ s1 o, m s = (s1, o) ∧ (∀ a, o ≠ Ret a) ∧ (andThen m f s).1 = s1 ∧ ∀ b, (andThen m f s).2 ≠ Ret b).
Proof.
  unfold andThen. destruct (m s) as [s1 [a|x|x|x]]; [left; eauto|right..]; eexists _, _; split_and!; try done.
Qed.

Lemma lookup_404 w log s1 :
  lookupInstance (w, log) = (s1, Ret None) →
  (getInstance w (GCEProjectID cl) (zone cl) (instName cl)).2 = inl (GoogleError 404).
Proof.
  unfold lookupInstance, andThen, call. destruct (getInstance _ _ _ _) as [w1 [[c|]|i]]; cbn; try done.
  destruct (decide (c = 404)) as [->|Hc]; [done|]. repeat case_match; done.
Qed.

Lemma insertAndWait_inserts fuel i s :
  inserts (insertAndWait fuel i s).1.2 = inserts s.2 ++ [CInsert (GCEProjectID cl) (zone cl) i].
Proof.
  destruct s as [w log]. unfold insertAndWait.
  assert (∀ r, quiet (afterInsert fuel r)) as Hq.
  { intros [e|op]; cbn; [auto with quiet|]. apply quiet_andThen; [apply opLoop_quiet|]. intros []; cbn [negb]; [|auto with quiet].
    apply quiet_andThen; [auto with quiet|]. intros [e|i']; auto with quiet. }
  unfold andThen at 1, call at 1. destruct (insertInstance _ _ _ _) as [w1 r]. rewrite (Hq r).
  apply List.filter_app.
Qed.

(** What a new instance is inserted with. *)
Lemma createNew_inserts fuel s :
  inserts (createNew fuel s).1.2 = inserts s.2 ∨
  ∃ ip d, inserts (createNew fuel s).1.2 = inserts s.2 ++ [CInsert (GCEProjectID cl) (zone cl) (newInstance ip d)] ∧
    (ip = ""%string ∨ ∃ lists a, (listAddresses s.1 (GCEProjectID cl)).2 = inr lists ∧ a ∈ concat lists ∧ usable a ∧ ip = aAddress a).
Proof.
  unfold createNew. pose proof (findIP_quiet s) as Hq.
  destruct (andThen_inv findIP (λ ip, d ←c instanceDisk; insertAndWait fuel (newInstance ip d)) s)
    as [(s1&ip&Hip&->)|(s1&o&Hip&_&->&_)]; rewrite Hip in Hq; cbn in Hq; [|by left].
  pose proof (disk_quiet s1) as Hqd.
  destruct (andThen_inv instanceDisk (λ d, insertAndWait fuel (newInstance ip d)) s1)
    as [(s2&d&Hd&->)|(s2&o&Hd&_&->&_)]; rewrite Hd in Hqd; cbn in Hqd; [|left; congruence].
  right. exists ip, d. split; [rewrite insertAndWait_inserts; congruence|]. destruct s as [w log]. by apply findIP_result in Hip.
Qed.

(** C40. [createInstance] inserts an instance at most once, and only if the
    lookup said 404; what is inserted is the configured instance, with an IP
    that is empty or that of a reserved address with the configured name in a
    region whose name is a prefix of the zone. If the instance exists, it
    returns and changes nothing. *)
Theorem createInstance_inserts_once fuel w log :
  let r := createInstance fuel (w, log) in
  let found := (getInstance w (GCEProjectID cl) (zone cl) (instName cl)).2 in
  (inserts r.1.2 = inserts log ∨
   found = inl (GoogleError 404) ∧
   ∃ ip d, inserts r.1.2 = inserts log ++ [CInsert (GCEProjectID cl) (zone cl) (newInstance ip d)] ∧
     (ip = ""%string ∨ ∃ w1 lists a, (listAddresses w1 (GCEProjectID cl)).2 = inr lists ∧ a ∈ concat lists ∧ usable a ∧ ip = aAddress a)) ∧
  (∀ i, found = inr i → r.2 = Ret true ∧ r.1.2 = log ++ [CGetInstance (GCEProjectID cl) (zone cl) (instName cl)]).
Proof.
  intros r found. unfold r, createInstance. pose proof (lookup_quiet (w, log)) as Hq. split.
  - destruct (andThen_inv lookupInstance (λ inst, match inst with Some _ => ret true | None => createNew fuel end) (w, log))
      as [(s1&[i|]&Hl&->)|(s1&o&Hl&_&->&_)]; rewrite Hl in Hq; cbn [fst snd] in Hq; [by left| |by left].
    apply lookup_404 in Hl. rewrite <-Hq.
    destruct (createNew_inserts fuel s1) as [?|(ip&d&Hi&Hip)]; [by left|right]. split; [done|]. exists ip, d. split; [done|].
    destruct Hip as [?|Hip]; [by left|right]. by exists s1.1.
  - intros i Hi. unfold lookupInstance, andThen, call. unfold found in Hi.
    destruct (getInstance _ _ _ _) as [w1 x]. cbn in Hi. by subst x.
Qed.

(** ** Restarting on updates *)

(** The entity tags that [n] turns see if none of them ends the process. *)
Fixpoint etags (n : nat) (w : W) : list string :=
  match n with
  | O => []
  | S n =>
      let '(w, r) := head w (binaryURL cl) in
      match r with inr etag => if decide (etag = "")%string then [] else [etag] | inl _ => [] end ++ etags n (sleep w 15)
  end.

Lemma restartTurns_known n last w log :
  last ≠ ""%string →
  (restartTurns n last (w, log)).2 = if forallb (λ e, bool_decide (e = last)) (etags n w) then Ret last else Exit 0.
Proof.
  intros Hl. revert w log. induction n as [|n IH]; intros w log; [done|].
  cbn [restartTurns etags]. unfold restartStep, andThen, call. destruct (head w (binaryURL cl)) as [w1 [e|etag]]; [apply IH|].
  case_decide as He; [apply IH|]. cbn [app forallb]. case_bool_decide as Hd.
  - rewrite bool_decide_false by tauto. done.
  - assert (etag = last) as -> by (destruct (decide (etag = last)); tauto).
    rewrite bool_decide_true by done. apply IH.
Qed.

(** The loop exits, so that systemd starts the new binary, exactly if the tag
    of the binary changes: the first tag it sees is what it compares with. *)
Lemma restartLoop_exits_on_change n w log :
  Restart cl = RestartOnUpdates →
  (restartLoop n true (w, log)).2 =
    match etags n w with
    | [] => Ret ""%string
    | e :: l => if forallb (λ e', bool_decide (e' = e)) l then Ret e else Exit 0
    end.
Proof.
  intros HR. unfold restartLoop. rewrite HR. cbn [negb]. revert w log. induction n as [|n IH]; intros w log; [done|].
  cbn [restartTurns etags]. unfold restartStep, andThen, call. destruct (head w (binaryURL cl)) as [w1 [e|etag]]; [apply IH|].
  case_decide as He; [apply IH|]. rewrite bool_decide_false by tauto. by apply restartTurns_known.
Qed.

(** ** Waiting for the operation *)

(** The world after [n] polls that found the operation unfinished. *)
Inductive pending (op : string) : nat → W → W → Prop :=
| PendingO w : pending op 0 w w
| PendingS n w w1 w' status failed :
    getOperation (sleep w 2) (GCEProjectID cl) (zone cl) op = (w1, inr (status, failed)) →
    (status = "PENDING" ∨ status = "RUNNING")%string → pending op n w1 w' → pending op (S n) w w'.

(** If the service finishes the operation, the loop ends. *)
Lemma opLoop_returns op n w w' log w1 :
  pending op n w w' →
  getOperation (sleep w' 2) (GCEProjectID cl) (zone cl) op = (w1, inr ("DONE"%string, false)) →
  ∃ log', opLoop (S n) op (w, log) = ((w1, log'), Ret true).
Proof.
  intros H. revert log. induction H as [w|n w w2 w' st f Hg Hst H IH]; intros log Hd.
  - exists ((log ++ [CSleep 2]) ++ [CGetOperation (GCEProjectID cl) (zone cl) op]).
    cbn [opLoop]. unfold andThen, call. by rewrite Hd.
  - destruct (IH ((log ++ [CSleep 2]) ++ [CGetOperation (GCEProjectID cl) (zone cl) op]) Hd) as [log' Hl]. exists log'.
    remember (S n) as m. cbn [opLoop]. unfold andThen at 1 2, call at 1 2. rewrite Hg. by rewrite bool_decide_true.
Qed.

End cloudlaunch.

Arguments Ret {A} a.
Arguments Fatal {A} msg.
Arguments Exit {A} code.
Arguments Panic {A} msg.

(** ** Regions *)

(** A zone whose region's name only starts like another's: [europe-west10-a]
    is taken for a zone of [europe-west1]. *)
Example zoneInRegion_takes_prefix (w : unit) :
  zoneInRegion "europe-west10-a" "https://www.googleapis.com/compute/v1/projects/p/regions/europe-west1" (w, []) = ((w, []), Ret true).
Proof. by destruct w. Qed.

(** ** A launch *)

Module Sample.

(** Service answers that depend on the number of polls so far. *)
Definition address region := {| aName := "web-ip"; aStatus := "RESERVED"; aRegion := region; aAddress := "192.0.2.1" |}.
Definition getInstance (polls : nat) (_ _ name : string) : nat * (apiError + Instance) :=
  (polls, if decide (polls < 2)%nat then inl (GoogleError 404)
          else inr {| iName := name; Description := ""; iMachineType := ""; Disks := []; Tags := []; UserData := ""; NatIP := "";
                      Network := ""; ServiceScopes := [] |}).
Definition getImages (polls : nat) (_ : string) : nat * (Cloud.error + Cloud.Response) :=
  (polls, inr {| Cloud.status := 200; Cloud.body := [] |}).
Definition decodeImages (_ : list byte) : Cloud.error + list Cloud.osImage :=
  inr [{| Cloud.SelfLink := "image"; Cloud.CreationTimestamp := 5; Cloud.ImageName := "coreos-stable-1" |}].
Definition insertInstance (polls : nat) (_ _ : string) (_ : Instance) : nat * (apiError + string) := (polls, inr "op").
Definition getOperation (polls : nat) (_ _ _ : string) : nat * (apiError + (string * bool)) :=
  (S polls, inr (if decide (polls < 1)%nat then "PENDING"%string else "DONE"%string, false)).
Definition config : Config :=
  {| Name := "web"; Restart := RestartOnUpdates; UpdateStrategy := ""; BinaryBucket := "bins"; BinaryObject := ""; GCEProjectID := "proj";
     Zone := ""; SSD := false; Scopes := []; MachineType := ""; InstanceName := "" |}.
Definition launch (region : string) : nat * list Call * outcome bool :=
  MaybeDeploy getInstance (λ w _, (w, inr [[address region]])) getImages decodeImages insertInstance getOperation (λ w _, w)
    (λ _, None) (λ _, inr "/bin/web"%string) (λ _ _, inr []) (λ w _ _ _, (w, None)) config (λ b, b) (λ _, "/root"%string) (λ _ _, true) 5 true true (0%nat, []).

(** The launch uploads, inserts one instance with the reserved address, waits
    for two polls and exits with success. *)
Example launch_succeeds :
  (launch "p/regions/us-central1").2 = Exit 0 ∧
  (launch "p/regions/us-central1").1.1 = 2%nat ∧
  List.map (λ c, match c with CInsert p z i => (p, z, NatIP i, List.map SourceImage (Disks i)) | _ => ("", "", "", [])%string end)
    (inserts (launch "p/regions/us-central1").1.2) = [("proj", "us-central1-f", "192.0.2.1", ["image"])]%string.
Proof. by vm_compute. Qed.

(** A global address of that name has no region: the search for an address
    panics, and the deferred exit ends the process with status 1. *)
Example launch_fails_on_global_address : (launch "").2 = Exit 1 ∧ inserts (launch "").1.2 = [].
Proof. by vm_compute. Qed.

(** The text of the configuration: the names replaced, other dollars kept. *)
Example cloudConfig_units :
  replace [("$NAME", "web"); ("$URL", binaryURL config); ("$REBOOT", updateStrategy config)]%string
    "/opt/bin/$NAME $URL?$(date +%s) $REBOOT" = "/opt/bin/web https://storage.googleapis.com/bins/web?$(date +%s) best-effort"%string.
Proof. by vm_compute. Qed.

End Sample.
