(* ===== verification/ServeOnCloud.v ===== *)
(** * go4test/cloudlaunch: a server that launches itself

    serve_on_cloud.go: away from Compute Engine it deploys itself with
    cloudlaunch, and on it, it serves the objects of the bucket that its own
    cloud configuration names, through wkfs and wkfs/gcs. *)
From S2P Require Import Prelude Filepath.
From S2P Require Import CloudLaunch.
From S2P Require Wkfs Gcs.
From Stdlib Require Import Ascii.

(** ** The regular expression

    [https://storage.googleapis.com/(.+?)/serveoncloud.*]: the leftmost match,
    with the shortest group. A dot is any character but a newline. *)

Definition newline : ascii := "010".
Definition dot : ascii := ".".

(** [s] behind a match of [pat] at its start, dots being wild. *)
Fixpoint matchPattern (pat s : string) : option string :=
  match pat, s with
  | EmptyString, _ => Some s
  | String p pat, String c s =>
      if (if Ascii.eqb p dot then negb (Ascii.eqb c newline) else Ascii.eqb p c) then matchPattern pat s else None
  | String _ _, EmptyString => None
  end.

(** The shortest [.+?] with ["/serveoncloud"] behind it; [first] while it is
    empty. *)
Fixpoint shortest (first : bool) (s : string) : option string :=
  if negb first && HasPrefix s "/serveoncloud" then Some ""%string
  else match s with
       | EmptyString => None
       | String c s =>
           if Ascii.eqb c newline then None
           else match shortest false s with Some g => Some (String c g) | None => None end
       end.

Definition urlStart : string := "https://storage.googleapis.com/".

Definition matchHere (s : string) : option string :=
  match matchPattern urlStart s with Some rest => shortest true rest | None => None end.

(** [storageURLRxp.FindStringSubmatch(s)]: the group of the match. *)
Fixpoint findSubmatch (s : string) : option string :=
  match matchHere s with
  | Some g => Some g
  | None => match s with EmptyString => None | String _ s => findSubmatch s end
  end.

(** ** main *)

(** What [main] does: end with a message, call [MaybeDeploy] on a
    configuration and return, or serve a bucket until [ListenAndServe] fails. *)
Inductive action := Fatal (msg : string) | Deploy (c : Config) | Serve (bucket : string).

Definition serverConfig (bucket projectID : string) : Config :=
  {| Name := "serveoncloud"; Restart := RestartOnUpdates; UpdateStrategy := ""; BinaryBucket := bucket; BinaryObject := "";
     GCEProjectID := projectID; Zone := ""; SSD := false;
     Scopes := ["https://www.googleapis.com/auth/devstorage.full_control"; "https://www.googleapis.com/auth/compute"]%string;
     MachineType := ""; InstanceName := "" |}.

(** The metadata server's answer to the request for ["user-data"], [None]
    being an error. *)
Definition main (onGCE : bool) (getenv : string → string) (userData : option string) : action :=
  if negb onGCE then
    if decide (getenv "GCSBUCKET" = "")%string then
      Fatal "You need to set the GCSBUCKET env var to specify the Google Cloud Storage bucket to serve from."
    else if decide (getenv "GCEPROJECTID" = "")%string then
      Fatal "You need to set the GCEPROJECTID env var to specify the Google Cloud project where the instance will run."
    else Deploy (serverConfig (getenv "GCSBUCKET") (getenv "GCEPROJECTID"))
  else
    match userData with
    | None => Fatal "could not get cloud config from metadata: %v"
    | Some cloudConfig =>
        if decide (cloudConfig = "")%string then Fatal "could not get cloud config from metadata: %v"
        else match findSubmatch cloudConfig with
             | None => Fatal "storage URL not found in cloud config"
             | Some bucket => Serve bucket
             end
    end.

(** ** serveHTTP *)

Section serve.
Context {W R : Type}.
Variable osFS : Wkfs.FileSystem W.
Variable order : list (string * Wkfs.FileSystem W).
Variable httpError : W → string → Z → W * R.                       (* http.Error *)
Variable serveContent : W → string → Wkfs.File W → W * R.          (* http.ServeContent *)

Definition serveHTTP (gcsBucket urlPath : string) (w : W) : W * R :=
  match Wkfs.Open osFS order w (Join ["/gcs"%string; gcsBucket; urlPath]) with
  | (w, inl _) => httpError w "could not open %v: %v" 500
  | (w, inr rc) =>
      let '(w, r) := serveContent w urlPath rc in
      let '(w, _) := Wkfs.closeFile rc w in
      (w, r)
  end.
End serve.

(** ** From the launch to the server *)

Fixpoint contains (c : ascii) (s : string) : bool :=
  match s with EmptyString => false | String x s => Ascii.eqb x c || contains c s end.

Lemma shortest_group b rest first :
  contains "/" b = false → contains newline b = false → (first = true → b ≠ ""%string) →
  shortest first (b +:+ "/serveoncloud" +:+ rest) = Some b.
Proof.
  revert first. induction b as [|c b IH]; intros first Hs Hn Hf.
  - destruct first; [by specialize (Hf eq_refl)|]. reflexivity.
  - apply orb_false_elim in Hs as [Hc Hs], Hn as [Hcn Hn].
    change (String c b +:+ ?r) with (String c (b +:+ r)). cbn [shortest].
    assert (HasPrefix (String c (b +:+ "/serveoncloud" +:+ rest)) "/serveoncloud" = false) as ->.
    { cbn [HasPrefix]. by rewrite bool_decide_false by (intros ->; discriminate Hc). }
    rewrite andb_false_r, Hcn. by rewrite (IH false).
Qed.

Lemma matchPattern_literal pat s : matchPattern pat (pat +:+ s) = Some s ∨ contains newline pat = true.
Proof.
  induction pat as [|p pat IH]; [by left|]. change (String p pat +:+ s) with (String p (pat +:+ s)). cbn [matchPattern contains].
  destruct (Ascii.eqb p newline) eqn:Hn; [by right|]. cbn [orb negb]. rewrite Ascii.eqb_refl. by destruct (Ascii.eqb p dot).
Qed.

(** A mismatch within [s], whatever follows it. *)
Fixpoint mismatch (pat s : string) : bool :=
  match pat, s with
  | String p pat, String c s => if (if Ascii.eqb p dot then negb (Ascii.eqb c newline) else Ascii.eqb p c) then mismatch pat s else true
  | _, _ => false
  end.

Lemma mismatch_None pat s t : mismatch pat s = true → matchPattern pat (s +:+ t) = None.
Proof.
  revert s. induction pat as [|p pat IH]; intros [|c s]; try done. cbn [mismatch].
  change (String c s +:+ t) with (String c (s +:+ t)). cbn [matchPattern]. destruct (if Ascii.eqb p dot then _ else _); [apply IH|done].
Qed.

(** No match starts in [pre] if [urlStart] is behind it. *)
Fixpoint noMatch (pre : string) : bool :=
  match pre with EmptyString => true | String _ rest => mismatch urlStart (pre +:+ urlStart) && noMatch rest end.

Lemma append_regroup (a b c : string) : ((a +:+ b) +:+ c)%string = (a +:+ b +:+ c)%string.
Proof. symmetry. apply Gcs.append_assoc. Qed.

Lemma findSubmatch_skip pre s : noMatch pre = true → findSubmatch (pre +:+ urlStart +:+ s) = findSubmatch (urlStart +:+ s).
Proof.
  induction pre as [|c pre IH]; [done|]. cbn [noMatch]. intros [Hm Hn]%andb_prop. rewrite <-IH by done.
  change (String c pre +:+ ?r) with (String c (pre +:+ r)). cbn [findSubmatch]. unfold matchHere.
  change (String c (pre +:+ ?r)) with (String c pre +:+ r). rewrite <-append_regroup. by rewrite mismatch_None.
Qed.

(** The configuration that cloudlaunch makes for the server. *)
Lemma cloudConfig_text b p :
  ∃ pre post, noMatch pre = true ∧
    cloudConfig (serverConfig b p) = (pre +:+ (urlStart +:+ b +:+ "/serveoncloud") +:+ post)%string.
Proof.
  set (pairs := [("$NAME", "serveoncloud"); ("$REBOOT", "best-effort")]%string).
  exists (replace pairs (String.substring 0 (default 0 (String.index 0 "$URL" baseConfig)) baseConfig))%nat.
  exists (replace pairs (String.substring (default 0 (String.index 0 "$URL" baseConfig) + 4) 10000 baseConfig))%nat.
  split; [by vm_compute|]. vm_compute. reflexivity.
Qed.

Lemma binaryURL_text b p : binaryURL (serverConfig b p) = (urlStart +:+ b +:+ "/serveoncloud")%string.
Proof. reflexivity. Qed.

(** C30. Started away from Compute Engine with a bucket and a project, the
    program deploys a configuration from which, started on the new instance,
    it gets back that bucket and serves it: the regular expression finds in
    the instance's user data, behind the names that cloudlaunch has replaced,
    the bucket of the binary's URL. (Bucket names have no slash.) *)
Theorem server_serves_its_bucket (getenv : string → string) :
  (getenv "GCSBUCKET" ≠ "" → getenv "GCEPROJECTID" ≠ "" →
  contains "/" (getenv "GCSBUCKET") = false → contains newline (getenv "GCSBUCKET") = false →
  ∃ c, main false getenv None = Deploy c ∧
    ∀ getenv' ip d, main true getenv' (Some (UserData (newInstance c ip d))) = Serve (getenv "GCSBUCKET"))%string.
Proof.
  intros Hb Hp Hs Hn. exists (serverConfig (getenv "GCSBUCKET"%string) (getenv "GCEPROJECTID"%string)). split.
  - unfold main. cbn [negb]. by rewrite !decide_False by done.
  - intros getenv' ip d. cbn [UserData newInstance].
    destruct (cloudConfig_text (getenv "GCSBUCKET"%string) (getenv "GCEPROJECTID"%string)) as (pre&post&Hpre&->).
    unfold main. cbn [negb]. rewrite !append_regroup.
    assert (findSubmatch (pre +:+ urlStart +:+ getenv "GCSBUCKET" +:+ "/serveoncloud" +:+ post) = Some (getenv "GCSBUCKET"))%string as Hf.
    { rewrite findSubmatch_skip by done.
      assert (matchHere (urlStart +:+ getenv "GCSBUCKET" +:+ "/serveoncloud" +:+ post)%string = Some (getenv "GCSBUCKET"%string)) as Hm.
      { unfold matchHere. destruct (matchPattern_literal urlStart (getenv "GCSBUCKET" +:+ "/serveoncloud" +:+ post)%string) as [->|]; [|done].
        by apply shortest_group. }
      destruct (urlStart +:+ _)%string; cbn [findSubmatch]; by rewrite Hm. }
    rewrite Hf. case_decide as He; [|done]. exfalso. revert He. destruct pre; [|done].
    discriminate.
Qed.

Lemma server_serves_its_bucket_witness :
  ∃ c, main false (λ v, if (v =? "GCSBUCKET")%string then "my-bucket" else "my-project")%string None = Deploy c ∧
    main true (λ _, ""%string) (Some (UserData (newInstance c "" (Build_Disk true true "" "" 50 "")))) = Serve "my-bucket".
Proof.
  destruct (server_serves_its_bucket (λ v, if (v =? "GCSBUCKET")%string then "my-bucket" else "my-project")%string) as (c&Hc&Hm);
    [discriminate|discriminate|reflexivity|reflexivity|].
  exists c. split; [exact Hc|apply Hm].
Defined.

(** A request for an object of the bucket goes to wkfs/gcs. *)
Example requestPath : Join ["/gcs"; "my-bucket"; "/a/b.txt"]%string = "/gcs/my-bucket/a/b.txt"%string.
Proof. reflexivity. Qed.
